(** * Wikilon runtime: the value engine of [wikrt.c] and the parser of
    [wikrt_parse.c], embedded over a word-addressed arena.

    The arena is a map from byte offsets to 32-bit words ([wikrt_val] is
    [uint32_t] in this build: [wikrt_int_add] computes its sum in
    [int32_t]).  Every function of the C source that the properties below
    talk about is transcribed statement by statement; stores are written
    [upd], loads are applications of the arena. *)

From Stdlib Require Import ZArith Lia List Bool.
Import ListNotations.
Open Scope Z_scope.
Set Warnings "-register-all".

(** ** Machine integers *)

(** [uint32_t] wrap-around. *)
Definition wrap32 (x : Z) : Z := x mod 2 ^ 32.

(** The cast [(int32_t) x] of a 32-bit pattern. *)
Definition signed32 (x : Z) : Z :=
  let u := x mod 2 ^ 32 in if u <? 2 ^ 31 then u else u - 2 ^ 32.

Definition WIKRT_VAL_MAX : Z := 2 ^ 32 - 1.
Definition WIKRT_SIZE_MAX : Z := 2 ^ 32 - 1.
Definition INT32_MAX : Z := 2 ^ 31 - 1.
Definition INT64_MAX : Z := 2 ^ 63 - 1.

(** ** Declarations of [wikrt.h]

    Modelled from the spec: the header [wikrt.h] (tags, object tags, flag
    bits, the small accessor macros and the allocator inlines) is not among
    the sources.  The values below follow spec section 3.2 and the static
    assertions of [wikrt.c]: [PL = P + 1], [PR = P + 2], same for [U]; a
    pair or unit has low bits [01] ([1 == (3 & v)] in [wikrt_wrap_sum_p]),
    a shallow sum has bit 1 set and a right sum bit 0 as well
    ([wikrt_unwrap_sum_p]); the small sealer tag is [':'];
    [SMALLINT_MIN = - SMALLINT_MAX]. *)

Definition WIKRT_O  : Z := 0.
Definition WIKRT_P  : Z := 1.
Definition WIKRT_PL : Z := 2.
Definition WIKRT_PR : Z := 3.
Definition WIKRT_I  : Z := 4.
Definition WIKRT_U  : Z := 5.
Definition WIKRT_UL : Z := 6.
Definition WIKRT_UR : Z := 7.

Definition WIKRT_UNIT     : Z := WIKRT_U.
Definition WIKRT_UNIT_INL : Z := WIKRT_UL.
Definition WIKRT_UNIT_INR : Z := WIKRT_UR.
(** A second constant under the [U] tag (see [wikrt_typeof_const]). *)
Definition WIKRT_NORMAL_TRASH : Z := 8 + WIKRT_U.

Definition WIKRT_CELLSIZE : Z := 8.
Definition sizeof_val : Z := 4.

Definition wikrt_vtag (v : Z) : Z := Z.land v 7.
Definition wikrt_vaddr (v : Z) : Z := Z.land v (WIKRT_VAL_MAX - 7).
Definition wikrt_tag_addr (t a : Z) : Z := Z.lor t a.

Definition wikrt_p  (v : Z) : bool := wikrt_vtag v =? WIKRT_P.
Definition wikrt_pl (v : Z) : bool := wikrt_vtag v =? WIKRT_PL.
Definition wikrt_pr (v : Z) : bool := wikrt_vtag v =? WIKRT_PR.
Definition wikrt_o  (v : Z) : bool := wikrt_vtag v =? WIKRT_O.
Definition wikrt_smallint (v : Z) : bool := wikrt_vtag v =? WIKRT_I.

(** Values that own no arena cell: integers and the unit constants. *)
Definition wikrt_copy_shallow (v : Z) : bool := negb (Z.land v 4 =? 0).

(** [wikrt_cellbuff]: round a size up to a whole number of cells. *)
Definition wikrt_cellbuff (n : Z) : Z :=
  wrap32 (Z.land (n + (WIKRT_CELLSIZE - 1)) (WIKRT_VAL_MAX - 7)).

Definition WIKRT_SMALLINT_MAX : Z := 2 ^ 28 - 1.
Definition WIKRT_SMALLINT_MIN : Z := - WIKRT_SMALLINT_MAX.

(** [wikrt_i2v]: the payload sits above the three tag bits. *)
Definition wikrt_i2v (n : Z) : Z := wrap32 (Z.lor (Z.shiftl n 3) WIKRT_I).
(** [wikrt_v2i]: arithmetic shift of the signed word. *)
Definition wikrt_v2i (v : Z) : Z := Z.shiftr (signed32 v) 3.
Definition WIKRT_IZERO : Z := wikrt_i2v 0.

(** Object tags: the low byte of an object's header word. *)
Definition WIKRT_OTAG_UTF8    : Z := 34.
Definition WIKRT_OTAG_SEAL    : Z := 36.
Definition WIKRT_OTAG_OPVAL   : Z := 39.
Definition WIKRT_OTAG_DEEPSUM : Z := 43.
Definition WIKRT_OTAG_BINARY  : Z := 56.
Definition WIKRT_OTAG_SEAL_SM : Z := 58.
Definition WIKRT_OTAG_ARRAY   : Z := 86.
Definition WIKRT_OTAG_BLOCK   : Z := 91.
Definition WIKRT_OTAG_TRASH   : Z := 95.
Definition WIKRT_OTAG_PEND    : Z := 126.

Definition LOBYTE (v : Z) : Z := Z.land v 255.

Definition wikrt_otag_deepsum (otag : Z) : bool := LOBYTE otag =? WIKRT_OTAG_DEEPSUM.
Definition wikrt_otag_block   (otag : Z) : bool := LOBYTE otag =? WIKRT_OTAG_BLOCK.
Definition wikrt_otag_binary  (otag : Z) : bool := LOBYTE otag =? WIKRT_OTAG_BINARY.
Definition wikrt_otag_utf8    (otag : Z) : bool := LOBYTE otag =? WIKRT_OTAG_UTF8.

Definition WIKRT_DEEPSUML : Z := 2.
Definition WIKRT_DEEPSUMR : Z := 3.

(** Block attributes live in the second byte of the header. *)
Definition WIKRT_BLOCK_RELEVANT : Z := 2 ^ 8.
Definition WIKRT_BLOCK_AFFINE   : Z := 2 ^ 9.
Definition WIKRT_BLOCK_LAZY     : Z := 2 ^ 10.
Definition WIKRT_BLOCK_FORK     : Z := 2 ^ 11.
Definition WIKRT_SAFE_BLOCK_ATTRIBS : Z :=
  Z.lor WIKRT_BLOCK_RELEVANT WIKRT_BLOCK_AFFINE.
Definition WIKRT_OPVAL_LAZYKF   : Z := 2 ^ 8.

(** The substructural summary gathered by copy and drop. *)
Definition WIKRT_SS_REL  : Z := 1.
Definition WIKRT_SS_AFF  : Z := 2.
Definition WIKRT_SS_PEND : Z := 4.

Definition wikrt_ss_copyable (ss : Z) : bool :=
  Z.land ss (Z.lor WIKRT_SS_AFF WIKRT_SS_PEND) =? 0.
Definition wikrt_ss_droppable (ss : Z) : bool :=
  Z.land ss (Z.lor WIKRT_SS_REL WIKRT_SS_PEND) =? 0.
(** Modelled from the spec: [wikrt_opval_hides_ss] is a macro of the
    header; an [OPVAL] header that carries [LAZYKF] hides the substructure
    of the value it wraps from the copy and drop scans. *)
Definition wikrt_opval_hides_ss (otag : Z) : bool :=
  negb (Z.land otag WIKRT_OPVAL_LAZYKF =? 0).
Definition wikrt_ss_to_block_flags (ss : Z) : Z :=
  Z.shiftl (Z.land ss (Z.lor WIKRT_SS_REL WIKRT_SS_AFF)) 8.

(** [wikrt_capture_block_ss]: or the block's relevant/affine bits into the
    summary, when a summary is being gathered ([ss] is a nullable pointer). *)
Definition wikrt_capture_block_ss (otag : Z) (ss : option Z) : option Z :=
  match ss with
  | None => None
  | Some s =>
      Some (Z.lor s (Z.land (Z.shiftr otag 8) (Z.lor WIKRT_SS_REL WIKRT_SS_AFF)))
  end.

Inductive wikrt_ecode : Type :=
| WIKRT_OK | WIKRT_INVAL | WIKRT_IMPL | WIKRT_ETYPE
| WIKRT_EDIV0 | WIKRT_CXFULL | WIKRT_ENOMEM.

Definition ecode_eqb (a b : wikrt_ecode) : bool :=
  match a, b with
  | WIKRT_OK, WIKRT_OK | WIKRT_INVAL, WIKRT_INVAL | WIKRT_IMPL, WIKRT_IMPL
  | WIKRT_ETYPE, WIKRT_ETYPE | WIKRT_EDIV0, WIKRT_EDIV0
  | WIKRT_CXFULL, WIKRT_CXFULL | WIKRT_ENOMEM, WIKRT_ENOMEM => true
  | _, _ => false
  end.

Inductive wikrt_sum_tag : Type := WIKRT_INL | WIKRT_INR.
Inductive wikrt_ord : Type := WIKRT_LT | WIKRT_EQ | WIKRT_GT.

Definition WIKRT_REG_VAL_INIT : Z := WIKRT_UNIT.
Definition WIKRT_REG_PC_INIT  : Z := WIKRT_UNIT_INR.
Definition WIKRT_REG_CC_INIT  : Z := WIKRT_UNIT_INR.
Definition WIKRT_REG_TXN_INIT : Z := WIKRT_UNIT_INR.

(** ** The context *)

Definition arena : Type := Z -> Z.

Definition upd (m : arena) (a v : Z) : arena :=
  fun x => if x =? a then v else m x.

Record wikrt_cx : Type := mkcx {
  cx_arena : arena;        (* the bytes behind the context header *)
  cx_ecode : wikrt_ecode;
  cx_val : Z;  cx_pc : Z;  cx_cc : Z;  cx_txn : Z;
  cx_mem : Z;              (* start of the active semi-space *)
  cx_alloc : Z;
  cx_cap : Z;
  cx_ssp : Z;              (* start of the scratch semi-space *)
  cx_size : Z;
  cx_compaction_count : Z;
  cx_compaction_size : Z;
  cx_bytes_compacted : Z;
  cx_bytes_collected : Z;
  cx_largest_size : Z
}.

Definition set_arena (cx : wikrt_cx) (m : arena) : wikrt_cx :=
  mkcx m (cx_ecode cx) (cx_val cx) (cx_pc cx) (cx_cc cx) (cx_txn cx)
       (cx_mem cx) (cx_alloc cx) (cx_cap cx) (cx_ssp cx) (cx_size cx)
       (cx_compaction_count cx) (cx_compaction_size cx)
       (cx_bytes_compacted cx) (cx_bytes_collected cx) (cx_largest_size cx).

Definition set_ecode (cx : wikrt_cx) (e : wikrt_ecode) : wikrt_cx :=
  mkcx (cx_arena cx) e (cx_val cx) (cx_pc cx) (cx_cc cx) (cx_txn cx)
       (cx_mem cx) (cx_alloc cx) (cx_cap cx) (cx_ssp cx) (cx_size cx)
       (cx_compaction_count cx) (cx_compaction_size cx)
       (cx_bytes_compacted cx) (cx_bytes_collected cx) (cx_largest_size cx).

Definition set_val (cx : wikrt_cx) (v : Z) : wikrt_cx :=
  mkcx (cx_arena cx) (cx_ecode cx) v (cx_pc cx) (cx_cc cx) (cx_txn cx)
       (cx_mem cx) (cx_alloc cx) (cx_cap cx) (cx_ssp cx) (cx_size cx)
       (cx_compaction_count cx) (cx_compaction_size cx)
       (cx_bytes_compacted cx) (cx_bytes_collected cx) (cx_largest_size cx).

Definition set_alloc (cx : wikrt_cx) (a : Z) : wikrt_cx :=
  mkcx (cx_arena cx) (cx_ecode cx) (cx_val cx) (cx_pc cx) (cx_cc cx) (cx_txn cx)
       (cx_mem cx) a (cx_cap cx) (cx_ssp cx) (cx_size cx)
       (cx_compaction_count cx) (cx_compaction_size cx)
       (cx_bytes_compacted cx) (cx_bytes_collected cx) (cx_largest_size cx).

(** [*wikrt_paddr(cx, a)] and [*wikrt_paddr(cx, a) = v]. *)
Definition load (cx : wikrt_cx) (a : Z) : Z := cx_arena cx a.
Definition store (cx : wikrt_cx) (a v : Z) : wikrt_cx :=
  set_arena cx (upd (cx_arena cx) a v).

(** [wikrt_pval] and [wikrt_pobj]: the address behind a tagged reference. *)
Definition wikrt_pval (v : Z) : Z := wikrt_vaddr v.
Definition wikrt_pobj (v : Z) : Z := wikrt_vaddr v.

(** [wikrt_pval_swap(a, b)]: exchange the words at two addresses. *)
Definition wikrt_pval_swap (cx : wikrt_cx) (a b : Z) : wikrt_cx :=
  let tmp := load cx a in
  let cx := store cx a (load cx b) in
  store cx b tmp.

(** Two contexts with the same registers and the same arena contents. *)
Definition cx_same (c1 c2 : wikrt_cx) : Prop :=
  (forall a, cx_arena c1 a = cx_arena c2 a) /\
  cx_ecode c1 = cx_ecode c2 /\
  cx_val c1 = cx_val c2 /\ cx_pc c1 = cx_pc c2 /\
  cx_cc c1 = cx_cc c2 /\ cx_txn c1 = cx_txn c2 /\
  cx_mem c1 = cx_mem c2 /\ cx_alloc c1 = cx_alloc c2 /\
  cx_cap c1 = cx_cap c2 /\ cx_ssp c1 = cx_ssp c2 /\
  cx_size c1 = cx_size c2 /\
  cx_compaction_count c1 = cx_compaction_count c2 /\
  cx_compaction_size c1 = cx_compaction_size c2 /\
  cx_bytes_compacted c1 = cx_bytes_compacted c2 /\
  cx_bytes_collected c1 = cx_bytes_collected c2 /\
  cx_largest_size c1 = cx_largest_size c2.

(** ** The error register ([wikrt.c], lines 40-48 and 322-328) *)

Definition wikrt_error (cx : wikrt_cx) : wikrt_ecode := cx_ecode cx.

Definition wikrt_has_error (cx : wikrt_cx) : bool :=
  negb (ecode_eqb WIKRT_OK (cx_ecode cx)).

(** A non-operation in the source. *)
Definition wikrt_cx_relax (cx : wikrt_cx) : wikrt_cx := cx.

Definition wikrt_set_error (cx : wikrt_cx) (e : wikrt_ecode) : wikrt_cx :=
  if negb (wikrt_has_error cx) && negb (ecode_eqb WIKRT_OK e)
  then set_ecode (wikrt_cx_relax cx) e
  else cx.

(** ** Integer primitives ([wikrt.c], lines 1702-1829) *)

Definition wikrt_integer (v : Z) : bool := wikrt_smallint v.

Definition wikrt_cx_has_two_ints (cx : wikrt_cx) : bool :=
  let a := cx_val cx in
  if wikrt_p a then
    let pa := wikrt_pval a in
    let b := load cx (pa + sizeof_val) in
    if wikrt_p b then
      let pb := wikrt_pval b in
      wikrt_integer (load cx pa) && wikrt_integer (load cx pb)
    else false
  else false.

Definition wikrt_int_add (cx : wikrt_cx) : wikrt_cx :=
  if negb (wikrt_cx_has_two_ints cx) then wikrt_set_error cx WIKRT_ETYPE else
  let pabe := wikrt_pval (cx_val cx) in
  let be := load cx (pabe + sizeof_val) in
  let pbe := wikrt_pval be in
  let sum := signed32 (wikrt_v2i (load cx pabe) + wikrt_v2i (load cx pbe)) in
  let range_ok := (WIKRT_SMALLINT_MIN <=? sum) && (sum <=? WIKRT_SMALLINT_MAX) in
  if negb range_ok then wikrt_set_error cx WIKRT_IMPL else
  let cx := store cx pbe (wikrt_i2v sum) in
  set_val cx be.

Definition wikrt_int_mul (cx : wikrt_cx) : wikrt_cx :=
  if negb (wikrt_cx_has_two_ints cx) then wikrt_set_error cx WIKRT_ETYPE else
  let pabe := wikrt_pval (cx_val cx) in
  let be := load cx (pabe + sizeof_val) in
  let pbe := wikrt_pval be in
  (* the product of two 29-bit values, computed in [int64_t] *)
  let prod := wikrt_v2i (load cx pabe) * wikrt_v2i (load cx pbe) in
  let range_ok := (WIKRT_SMALLINT_MIN <=? prod) && (prod <=? WIKRT_SMALLINT_MAX) in
  if negb range_ok then wikrt_set_error cx WIKRT_IMPL else
  let cx := store cx pbe (wikrt_i2v prod) in
  set_val cx be.

Definition wikrt_int_neg (cx : wikrt_cx) : wikrt_cx :=
  if wikrt_p (cx_val cx) then
    let v := wikrt_pval (cx_val cx) in
    if wikrt_smallint (load cx v) then
      store cx v (wikrt_i2v (- wikrt_v2i (load cx v)))
    else wikrt_set_error cx WIKRT_ETYPE
  else wikrt_set_error cx WIKRT_ETYPE.

(** C's [/] and [%] truncate toward zero: [Z.quot] and [Z.rem]. *)
Definition wikrt_smallint_divmod (dividend divisor : Z) : Z * Z :=
  let quot := Z.quot dividend divisor in
  let rem := Z.rem dividend divisor in
  let needs_repair := if divisor >? 0 then rem <? 0 else rem >? 0 in
  if needs_repair then (quot - 1, rem + divisor) else (quot, rem).

Definition wikrt_int_div (cx : wikrt_cx) : wikrt_cx :=
  if negb (wikrt_cx_has_two_ints cx) then wikrt_set_error cx WIKRT_ETYPE else
  let pouter := wikrt_pval (cx_val cx) in
  let pinner := wikrt_pval (load cx (pouter + sizeof_val)) in
  let divisor := load cx pouter in
  let dividend := load cx pinner in
  if WIKRT_IZERO =? divisor then wikrt_set_error cx WIKRT_EDIV0 else
  let '(q, r) := wikrt_smallint_divmod (wikrt_v2i dividend) (wikrt_v2i divisor) in
  let cx := store cx pouter (wikrt_i2v r) in
  store cx pinner (wikrt_i2v q).

(** The out-parameter [*ord] is threaded: it keeps its old contents on the
    type-error path. *)
Definition wikrt_int_cmp (cx : wikrt_cx) (ord : wikrt_ord) : wikrt_cx * wikrt_ord :=
  if negb (wikrt_cx_has_two_ints cx) then (wikrt_set_error cx WIKRT_ETYPE, ord) else
  let pa := wikrt_pval (cx_val cx) in
  let pb := wikrt_pval (load cx (pa + sizeof_val)) in
  let a := wikrt_v2i (load cx pa) in
  let b := wikrt_v2i (load cx pb) in
  (cx, if b >? a then WIKRT_GT else if b <? a then WIKRT_LT else WIKRT_EQ).

(** ** Concrete arenas

    An arena given by the list of its non-zero words, for evaluating the
    primitives on explicit contexts. *)

Fixpoint arena_of (l : list (Z * Z)) : arena :=
  match l with
  | [] => fun _ => 0
  | (a, v) :: l' => upd (arena_of l') a v
  end.

(** A context over a given arena: active semi-space [[mem0, cap0)], bump
    pointer at [alloc0], no error, the other registers at their initial
    values. *)
Definition cx_of (l : list (Z * Z)) (v mem0 alloc0 cap0 : Z) : wikrt_cx :=
  mkcx (arena_of l) WIKRT_OK v WIKRT_REG_PC_INIT WIKRT_REG_CC_INIT
       WIKRT_REG_TXN_INIT mem0 alloc0 cap0 0 (cap0 - mem0) 0 0 0 0 0.

(** [(I(3) * (I(-11) * unit))] in two cells at 16 and 24. *)
Definition cx_3_m11 : wikrt_cx :=
  cx_of [(16, wikrt_i2v 3); (20, 25); (24, wikrt_i2v (-11)); (28, WIKRT_UNIT)]
        17 16 32 1024.

(** [(I(1) * (I(SMALLINT_MAX) * unit))]. *)
Definition cx_1_max : wikrt_cx :=
  cx_of [(16, wikrt_i2v 1); (20, 25); (24, wikrt_i2v WIKRT_SMALLINT_MAX);
         (28, WIKRT_UNIT)] 17 16 32 1024.

(** [(I(0) * (I(7) * unit))]. *)
Definition cx_0_7 : wikrt_cx :=
  cx_of [(16, wikrt_i2v 0); (20, 25); (24, wikrt_i2v 7); (28, WIKRT_UNIT)]
        17 16 32 1024.

(** ** Product primitives ([wikrt.c], lines 775-895) *)

Definition wikrt_elim_unit (cx : wikrt_cx) : wikrt_cx :=
  let type_ok := wikrt_p (cx_val cx) &&
                 (WIKRT_UNIT =? load cx (wikrt_pval (cx_val cx))) in
  if negb type_ok then wikrt_set_error cx WIKRT_ETYPE else
  set_val cx (load cx (wikrt_pval (cx_val cx) + sizeof_val)).

Definition wikrt_elim_unit_r (cx : wikrt_cx) : wikrt_cx :=
  let type_ok := wikrt_p (cx_val cx) &&
                 (WIKRT_UNIT =? load cx (wikrt_pval (cx_val cx) + sizeof_val)) in
  if negb type_ok then wikrt_set_error cx WIKRT_ETYPE else
  set_val cx (load cx (wikrt_pval (cx_val cx))).

Definition wikrt_wswap_v (cx : wikrt_cx) (abc : Z) : wikrt_cx :=
  if wikrt_p abc then
    let pabc := wikrt_pval abc in
    let bc := load cx (pabc + sizeof_val) in
    if wikrt_p bc then
      let pbc := wikrt_pval bc in
      wikrt_pval_swap cx pabc pbc
    else wikrt_set_error cx WIKRT_ETYPE
  else wikrt_set_error cx WIKRT_ETYPE.

Definition wikrt_wswap (cx : wikrt_cx) : wikrt_cx := wikrt_wswap_v cx (cx_val cx).

Definition wikrt_zswap (cx : wikrt_cx) : wikrt_cx :=
  if negb (wikrt_p (cx_val cx)) then wikrt_set_error cx WIKRT_ETYPE else
  wikrt_wswap_v cx (load cx (wikrt_pval (cx_val cx) + sizeof_val)).

Definition wikrt_assocl_v (cx : wikrt_cx) (a_bc : Z) : wikrt_cx :=
  if wikrt_p a_bc then
    let pa_bc := wikrt_pval a_bc in
    let bc := load cx (pa_bc + sizeof_val) in
    if wikrt_p bc then
      let pbc := wikrt_pval bc in
      let a := load cx pa_bc in
      let cx := store cx pa_bc bc in
      let cx := store cx (pa_bc + sizeof_val) (load cx (pbc + sizeof_val)) in
      let cx := store cx (pbc + sizeof_val) (load cx pbc) in
      store cx pbc a
    else wikrt_set_error cx WIKRT_ETYPE
  else wikrt_set_error cx WIKRT_ETYPE.

Definition wikrt_assocl (cx : wikrt_cx) : wikrt_cx := wikrt_assocl_v cx (cx_val cx).

Definition wikrt_accel_wzlw (cx : wikrt_cx) : wikrt_cx :=
  if wikrt_p (cx_val cx)
  then wikrt_assocl_v cx (load cx (wikrt_pval (cx_val cx) + sizeof_val))
  else wikrt_set_error cx WIKRT_ETYPE.

Definition wikrt_assocr_v (cx : wikrt_cx) (ab_c : Z) : wikrt_cx :=
  if wikrt_p ab_c then
    let pab_c := wikrt_pval ab_c in
    let ab := load cx pab_c in
    if wikrt_p ab then
      let pab := wikrt_pval ab in
      let c := load cx (pab_c + sizeof_val) in
      let cx := store cx (pab_c + sizeof_val) ab in
      let cx := store cx pab_c (load cx pab) in
      let cx := store cx pab (load cx (pab + sizeof_val)) in
      store cx (pab + sizeof_val) c
    else wikrt_set_error cx WIKRT_ETYPE
  else wikrt_set_error cx WIKRT_ETYPE.

Definition wikrt_assocr (cx : wikrt_cx) : wikrt_cx := wikrt_assocr_v cx (cx_val cx).

Definition wikrt_accel_wrzw (cx : wikrt_cx) : wikrt_cx :=
  if wikrt_p (cx_val cx)
  then wikrt_assocr_v cx (load cx (wikrt_pval (cx_val cx) + sizeof_val))
  else wikrt_set_error cx WIKRT_ETYPE.

Definition wikrt_accel_swap (cx : wikrt_cx) : wikrt_cx :=
  if wikrt_p (cx_val cx) then
    let p := wikrt_pval (cx_val cx) in
    wikrt_pval_swap cx p (p + sizeof_val)
  else wikrt_set_error cx WIKRT_ETYPE.

(** [(I(1) * (I(2) * (I(3) * unit)))] in three cells. *)
Definition cx_123 : wikrt_cx :=
  cx_of [(16, wikrt_i2v 1); (20, 25); (24, wikrt_i2v 2); (28, 33);
         (32, wikrt_i2v 3); (36, WIKRT_UNIT)] 17 16 40 1024.

(** [((I(1) * I(2)) * (I(3) * unit))]. *)
Definition cx_12_3 : wikrt_cx :=
  cx_of [(16, 25); (20, 33); (24, wikrt_i2v 1); (28, wikrt_i2v 2);
         (32, wikrt_i2v 3); (36, WIKRT_UNIT)] 17 16 40 1024.

(** ** Outcomes

    [abort()] and a failed [assert] end the process; loops over the arena
    are run with fuel. *)

Inductive outcome (A : Type) : Type :=
| Ret (a : A)
| Abort
| OutOfFuel.
Arguments Ret {A} a.
Arguments Abort {A}.
Arguments OutOfFuel {A}.

Definition bind {A B : Type} (o : outcome A) (k : A -> outcome B) : outcome B :=
  match o with
  | Ret a => k a
  | Abort => Abort
  | OutOfFuel => OutOfFuel
  end.

Notation "x <- e ;; k" := (bind e (fun x => k))
  (at level 61, e at next level, right associativity).
Notation "' p <- e ;; k" := (bind e (fun x => let p := x in k))
  (at level 61, p pattern, e at next level, right associativity).

(** ** Bytes inside the word arena (little-endian) *)

Definition load8 (m : arena) (a : Z) : Z :=
  (m (a - a mod 4) / 2 ^ (8 * (a mod 4))) mod 256.

Definition store8 (m : arena) (a b : Z) : arena :=
  let w := a - a mod 4 in
  let k := 2 ^ (8 * (a mod 4)) in
  upd m w (m w - ((m w / k) mod 256) * k + (b mod 256) * k).

(** [memcpy(dst, src, n)], byte by byte. *)
Fixpoint memcpy (m : arena) (dst src : Z) (n : nat) : arena :=
  match n with
  | O => m
  | S k => memcpy (store8 m dst (load8 m src)) (dst + 1) (src + 1) k
  end.

(** ** The allocator

    Modelled from the spec: [wikrt_alloc_r] bumps [alloc] and returns the
    previous pointer; [wikrt_mem_available] is [cap - alloc >= n];
    [wikrt_memory_volume] is the allocated part of the active semi-space;
    [wikrt_alloc_cellval_r] fills one fresh cell; [wikrt_intro_r] pushes a
    value onto the value register (spec sections 4.1 and 4.2). *)

Definition wikrt_memory_volume (cx : wikrt_cx) : Z :=
  wrap32 (cx_alloc cx - cx_mem cx).

Definition wikrt_mem_available (cx : wikrt_cx) (sz : Z) : bool :=
  sz <=? wrap32 (cx_cap cx - cx_alloc cx).

Definition wikrt_alloc_r (cx : wikrt_cx) (sz : Z) : wikrt_cx * Z :=
  (set_alloc cx (wrap32 (cx_alloc cx + sz)), cx_alloc cx).

Definition wikrt_alloc_cellval_r (cx : wikrt_cx) (tag fst snd : Z) : wikrt_cx * Z :=
  let '(cx, addr) := wikrt_alloc_r cx WIKRT_CELLSIZE in
  let cx := store cx addr fst in
  let cx := store cx (addr + sizeof_val) snd in
  (cx, wikrt_tag_addr tag addr).

Definition wikrt_intro_r (cx : wikrt_cx) (v : Z) : wikrt_cx :=
  let '(cx, c) := wikrt_alloc_cellval_r cx WIKRT_P v (cx_val cx) in
  set_val cx c.

(** ** Structural copy ([wikrt.c], lines 504-655)

    The context is copied into itself ([lcx == rcx] at both call sites of
    this file).  The destination [wikrt_val* dst] is either the caller's
    variable or a word of the arena; the work stack is the run of words
    below [cap], growing down. *)

Inductive cloc : Type :=
| LRoot
| LAddr (a : Z).

Definition read_dst (cx : wikrt_cx) (root : Z) (dst : cloc) : Z :=
  match dst with LRoot => root | LAddr a => load cx a end.

Definition write_dst (cx : wikrt_cx) (root : Z) (dst : cloc) (v : Z) : wikrt_cx * Z :=
  match dst with
  | LRoot => (cx, v)
  | LAddr a => (store cx a v, root)
  end.

Definition wikrt_add_copy_task (cx : wikrt_cx) (s v a : Z) : wikrt_cx * Z :=
  let cx := store cx a v in
  if wikrt_copy_shallow v then (cx, s)
  else let s := s - sizeof_val in (store cx s a, s).

Definition wikrt_cpv (cx : wikrt_cx) (s pv addr ix : Z) : wikrt_cx * Z :=
  wikrt_add_copy_task cx s (load cx (pv + ix * sizeof_val))
                      (wrap32 (addr + ix * sizeof_val)).

(** [for(ii = ii0; ii < elemct; ++ii) wikrt_cpv(rcx, &s, parray, buff, ii)],
    with [n] iterations left. *)
Fixpoint cpv_elems (n : nat) (cx : wikrt_cx) (s parray buff ii : Z) : wikrt_cx * Z :=
  match n with
  | O => (cx, s)
  | S k =>
      let '(cx, s) := wikrt_cpv cx s parray buff ii in
      cpv_elems k cx s parray buff (ii + 1)
  end.

Definition ss_or (ss : option Z) (flag : Z) : option Z :=
  match ss with None => None | Some s => Some (Z.lor s flag) end.

Definition is_some {A : Type} (o : option A) : bool :=
  match o with Some _ => true | None => false end.

(** One pass of the [do { ... }] body of [wikrt_copy_rs], up to but not
    including the pop of the next destination.  [nested] is the recursive
    call made for an [OPVAL] that hides its substructure. *)
Definition copy_body
    (nested : wikrt_cx -> Z -> Z -> Z -> outcome (wikrt_cx * Z))
    (cx : wikrt_cx) (root : Z) (ss : option Z) (s : Z) (dst : cloc)
  : outcome (wikrt_cx * Z * option Z * Z) :=
  let v := read_dst cx root dst in
  let tag := wikrt_vtag v in
  let pv := wikrt_pval v in
  if negb (WIKRT_O =? tag) then
    let '(cx, addr) := wikrt_alloc_r cx WIKRT_CELLSIZE in
    let '(cx, root) := write_dst cx root dst (wikrt_tag_addr tag addr) in
    let '(cx, s) := wikrt_cpv cx s pv addr 0 in
    let '(cx, s) := wikrt_cpv cx s pv addr 1 in
    Ret (cx, root, ss, s)
  else
    let otag := load cx pv in
    let lo := LOBYTE otag in
    if (lo =? WIKRT_OTAG_UTF8) || (lo =? WIKRT_OTAG_SEAL_SM)
       || (lo =? WIKRT_OTAG_DEEPSUM) then
      let '(cx, addr) := wikrt_alloc_r cx WIKRT_CELLSIZE in
      let '(cx, root) := write_dst cx root dst (wikrt_tag_addr WIKRT_O addr) in
      let cx := store cx addr (load cx pv) in
      let '(cx, s) := wikrt_cpv cx s pv addr 1 in
      Ret (cx, root, ss, s)
    else if lo =? WIKRT_OTAG_PEND then
      let ss := ss_or ss WIKRT_SS_PEND in
      let '(cx, addr) := wikrt_alloc_r cx WIKRT_CELLSIZE in
      let '(cx, root) := write_dst cx root dst (wikrt_tag_addr WIKRT_O addr) in
      let cx := store cx addr (load cx pv) in
      let '(cx, s) := wikrt_cpv cx s pv addr 1 in
      Ret (cx, root, ss, s)
    else if (lo =? WIKRT_OTAG_TRASH) || (lo =? WIKRT_OTAG_BLOCK) then
      let ss := wikrt_capture_block_ss otag ss in
      let '(cx, addr) := wikrt_alloc_r cx WIKRT_CELLSIZE in
      let '(cx, root) := write_dst cx root dst (wikrt_tag_addr WIKRT_O addr) in
      let cx := store cx addr (load cx pv) in
      let '(cx, s) := wikrt_cpv cx s pv addr 1 in
      Ret (cx, root, ss, s)
    else if lo =? WIKRT_OTAG_OPVAL then
      let '(cx, addr) := wikrt_alloc_r cx WIKRT_CELLSIZE in
      let '(cx, root) := write_dst cx root dst (wikrt_tag_addr WIKRT_O addr) in
      let cx := store cx addr (load cx pv) in
      if is_some ss && wikrt_opval_hides_ss (load cx pv) then
        let dst' := addr + sizeof_val in
        let cx := store cx dst' (load cx (pv + sizeof_val)) in
        '(cx, root) <- nested cx root s dst' ;;
        Ret (cx, root, ss, s)
      else
        let '(cx, s) := wikrt_cpv cx s pv addr 1 in
        Ret (cx, root, ss, s)
    else if lo =? WIKRT_OTAG_SEAL then
      let toklen := Z.shiftr otag 8 in
      let szAlloc := wrap32 (WIKRT_CELLSIZE + toklen) in
      let '(cx, addr) := wikrt_alloc_r cx (wikrt_cellbuff szAlloc) in
      let '(cx, root) := write_dst cx root dst (wikrt_tag_addr WIKRT_O addr) in
      let cx := set_arena cx (memcpy (cx_arena cx) addr pv (Z.to_nat szAlloc)) in
      let '(cx, s) := wikrt_cpv cx s pv addr 1 in
      Ret (cx, root, ss, s)
    else if lo =? WIKRT_OTAG_BINARY then
      let bytect := load cx (pv + 2 * sizeof_val) in
      let '(cx, buff) := wikrt_alloc_r cx (wikrt_cellbuff bytect) in
      let cx := set_arena cx (memcpy (cx_arena cx) buff
                                (load cx (pv + 3 * sizeof_val)) (Z.to_nat bytect)) in
      let '(cx, hdr) := wikrt_alloc_r cx (2 * WIKRT_CELLSIZE) in
      let cx := store cx hdr (load cx pv) in
      let cx := store cx (hdr + 2 * sizeof_val) (load cx (pv + 2 * sizeof_val)) in
      let cx := store cx (hdr + 3 * sizeof_val) buff in
      let '(cx, s) := wikrt_cpv cx s pv hdr 1 in
      let '(cx, root) := write_dst cx root dst (wikrt_tag_addr WIKRT_O hdr) in
      Ret (cx, root, ss, s)
    else if lo =? WIKRT_OTAG_ARRAY then
      let elemct := load cx (pv + 2 * sizeof_val) in
      let buffsz := wrap32 (elemct * sizeof_val) in
      let '(cx, buff) := wikrt_alloc_r cx (wikrt_cellbuff buffsz) in
      let parray := load cx (pv + 3 * sizeof_val) in
      let '(cx, s) := cpv_elems (Z.to_nat elemct) cx s parray buff 0 in
      let '(cx, hdr) := wikrt_alloc_r cx (2 * WIKRT_CELLSIZE) in
      let cx := store cx hdr (load cx pv) in
      let cx := store cx (hdr + 2 * sizeof_val) (load cx (pv + 2 * sizeof_val)) in
      let cx := store cx (hdr + 3 * sizeof_val) buff in
      let '(cx, s) := wikrt_cpv cx s pv hdr 1 in
      let '(cx, root) := write_dst cx root dst (wikrt_tag_addr WIKRT_O hdr) in
      Ret (cx, root, ss, s)
    else Abort.

(** The [do { ... } while(NULL != dst)] loop of [wikrt_copy_rs]. *)
Fixpoint copy_loop (fuel : nat) (cx : wikrt_cx) (root : Z) (ss : option Z)
    (s0 s : Z) (dst : cloc) : outcome (wikrt_cx * Z * option Z) :=
  match fuel with
  | O => OutOfFuel
  | S f =>
      let nested := fun cx root s' dst' =>
        if wikrt_copy_shallow (load cx dst') then Ret (cx, root)
        else '(cx, root, _) <- copy_loop f cx root None s' s' (LAddr dst') ;;
             Ret (cx, root) in
      '(cx, root, ss, s) <- copy_body nested cx root ss s dst ;;
      if s0 =? s then Ret (cx, root, ss)
      else copy_loop f cx root ss s0 (s + sizeof_val) (LAddr (load cx s))
  end.

Definition wikrt_copy_rs (fuel : nat) (cx : wikrt_cx) (root : Z) (ss : option Z)
    (moving_copy : bool) (s0 : Z) (dst : cloc) : outcome (wikrt_cx * Z * option Z) :=
  if wikrt_copy_shallow (read_dst cx root dst) then Ret (cx, root, ss)
  else copy_loop fuel cx root ss s0 s0 dst.

(** [wikrt_copy_r(cx, lval, ss, moving_copy, cx, rval)]: the result is the
    final content of [*rval]; [ss] is [Some _] when a summary is wanted. *)
Definition wikrt_copy_r (fuel : nat) (cx : wikrt_cx) (lval : Z) (ss : option Z)
    (moving_copy : bool) : outcome (wikrt_cx * Z * option Z) :=
  let ss := match ss with Some _ => Some 0 | None => None end in
  wikrt_copy_rs fuel cx lval ss moving_copy (cx_cap cx) LRoot.

(** ** Size of a value ([wikrt.c], lines 440-502)

    The work stack starts at [s0] (the scratch semi-space) and grows up;
    it holds values, not addresses. *)

Definition wikrt_add_size_task (m : arena) (s v : Z) : arena * Z :=
  if wikrt_copy_shallow v then (m, s) else (upd m s v, s + sizeof_val).

Fixpoint size_elems (n : nat) (m : arena) (s parray ii : Z) : arena * Z :=
  match n with
  | O => (m, s)
  | S k =>
      let '(m, s) := wikrt_add_size_task m s (m (parray + ii * sizeof_val)) in
      size_elems k m s parray (ii + 1)
  end.

Fixpoint vsize_loop (fuel : nat) (m : arena) (s0 s result : Z)
  : outcome (arena * Z) :=
  match fuel with
  | O => OutOfFuel
  | S f =>
      if s0 =? s then Ret (m, result) else
      let s := s - sizeof_val in
      let v := m s in
      let pv := wikrt_pval v in
      if negb (WIKRT_O =? wikrt_vtag v) then
        let '(m, s) := wikrt_add_size_task m s (m pv) in
        let '(m, s) := wikrt_add_size_task m s (m (pv + sizeof_val)) in
        vsize_loop f m s0 s (wrap32 (result + WIKRT_CELLSIZE))
      else
        let otag := m pv in
        let lo := LOBYTE otag in
        if (lo =? WIKRT_OTAG_TRASH) || (lo =? WIKRT_OTAG_BLOCK)
           || (lo =? WIKRT_OTAG_OPVAL) || (lo =? WIKRT_OTAG_UTF8)
           || (lo =? WIKRT_OTAG_PEND) || (lo =? WIKRT_OTAG_SEAL_SM)
           || (lo =? WIKRT_OTAG_DEEPSUM) then
          let result := wrap32 (result + WIKRT_CELLSIZE) in
          let '(m, s) := wikrt_add_size_task m s (m (pv + sizeof_val)) in
          vsize_loop f m s0 s result
        else if lo =? WIKRT_OTAG_SEAL then
          let toklen := Z.shiftr otag 8 in
          let szAlloc := wrap32 (WIKRT_CELLSIZE + toklen) in
          let result := wrap32 (result + wikrt_cellbuff szAlloc) in
          let '(m, s) := wikrt_add_size_task m s (m (pv + sizeof_val)) in
          vsize_loop f m s0 s result
        else if lo =? WIKRT_OTAG_BINARY then
          let bytect := m (pv + 2 * sizeof_val) in
          let result :=
            wrap32 (result + wrap32 (2 * WIKRT_CELLSIZE + wikrt_cellbuff bytect)) in
          let '(m, s) := wikrt_add_size_task m s (m (pv + sizeof_val)) in
          vsize_loop f m s0 s result
        else if lo =? WIKRT_OTAG_ARRAY then
          let elemct := m (pv + 2 * sizeof_val) in
          let buffsz := wrap32 (elemct * sizeof_val) in
          let result :=
            wrap32 (result + wrap32 (2 * WIKRT_CELLSIZE + wikrt_cellbuff buffsz)) in
          let parray := m (pv + 3 * sizeof_val) in
          let '(m, s) := size_elems (Z.to_nat elemct) m s parray 0 in
          let '(m, s) := wikrt_add_size_task m s (m (pv + sizeof_val)) in
          vsize_loop f m s0 s result
        else Abort
  end.

Definition wikrt_vsize (fuel : nat) (cx : wikrt_cx) (s0 v0 : Z)
  : outcome (wikrt_cx * Z) :=
  let '(m, s) := wikrt_add_size_task (cx_arena cx) s0 v0 in
  '(m, result) <- vsize_loop fuel m s0 s 0 ;;
  Ret (set_arena cx m, result).

Definition wikrt_peek_size_ssp (fuel : nat) (cx : wikrt_cx) : outcome (wikrt_cx * Z) :=
  '(cx', sz) <- wikrt_vsize fuel cx (cx_ssp cx) (load cx (wikrt_pval (cx_val cx))) ;;
  Ret (cx', wrap32 (WIKRT_CELLSIZE + sz)).

Definition wikrt_peek_size (fuel : nat) (cx : wikrt_cx) : outcome (wikrt_cx * Z) :=
  if negb (wikrt_p (cx_val cx)) then Ret (cx, 0) else wikrt_peek_size_ssp fuel cx.

(** ** Drop ([wikrt.c], lines 657-752) *)

Definition wikrt_add_drop_task (m : arena) (s v : Z) : arena * Z :=
  if wikrt_copy_shallow v then (m, s) else (upd m s v, s + sizeof_val).

Fixpoint drop_elems (n : nat) (m : arena) (s parray ii : Z) : arena * Z :=
  match n with
  | O => (m, s)
  | S k =>
      let '(m, s) := wikrt_add_drop_task m s (m (parray + ii * sizeof_val)) in
      drop_elems k m s parray (ii + 1)
  end.

(** The [while(s0 != s)] loop of [wikrt_drop_sv]; the nested call for an
    [OPVAL] that hides its substructure runs on the same stack, from [s]. *)
Fixpoint drop_loop (fuel : nat) (m : arena) (s0 s : Z) (ss : option Z)
  : outcome (arena * option Z) :=
  match fuel with
  | O => OutOfFuel
  | S f =>
      if s0 =? s then Ret (m, ss) else
      let s := s - sizeof_val in
      let v := m s in
      let pv := wikrt_pval v in
      if negb (WIKRT_O =? wikrt_vtag v) then
        let '(m, s) := wikrt_add_drop_task m s (m pv) in
        let '(m, s) := wikrt_add_drop_task m s (m (pv + sizeof_val)) in
        drop_loop f m s0 s ss
      else
        let otag := m pv in
        let lo := LOBYTE otag in
        if (lo =? WIKRT_OTAG_SEAL) || (lo =? WIKRT_OTAG_SEAL_SM)
           || (lo =? WIKRT_OTAG_UTF8) || (lo =? WIKRT_OTAG_BINARY)
           || (lo =? WIKRT_OTAG_DEEPSUM) then
          let '(m, s) := wikrt_add_drop_task m s (m (pv + sizeof_val)) in
          drop_loop f m s0 s ss
        else if lo =? WIKRT_OTAG_PEND then
          let ss := ss_or ss WIKRT_SS_PEND in
          let '(m, s) := wikrt_add_drop_task m s (m (pv + sizeof_val)) in
          drop_loop f m s0 s ss
        else if (lo =? WIKRT_OTAG_TRASH) || (lo =? WIKRT_OTAG_BLOCK) then
          let ss := wikrt_capture_block_ss otag ss in
          let '(m, s) := wikrt_add_drop_task m s (m (pv + sizeof_val)) in
          drop_loop f m s0 s ss
        else if lo =? WIKRT_OTAG_OPVAL then
          if is_some ss && wikrt_opval_hides_ss otag then
            let '(m', s') := wikrt_add_drop_task m s (m (pv + sizeof_val)) in
            '(m, _) <- drop_loop f m' s s' None ;;
            drop_loop f m s0 s ss
          else
            let '(m, s) := wikrt_add_drop_task m s (m (pv + sizeof_val)) in
            drop_loop f m s0 s ss
        else if lo =? WIKRT_OTAG_ARRAY then
          let elemct := m (pv + 2 * sizeof_val) in
          let parray := m (pv + 3 * sizeof_val) in
          let '(m, s) := drop_elems (Z.to_nat elemct) m s parray 0 in
          let '(m, s) := wikrt_add_drop_task m s (m (pv + sizeof_val)) in
          drop_loop f m s0 s ss
        else Abort
  end.

Definition wikrt_drop_sv (fuel : nat) (cx : wikrt_cx) (s0 v0 : Z) (ss : option Z)
  : outcome (wikrt_cx * option Z) :=
  let '(m, s) := wikrt_add_drop_task (cx_arena cx) s0 v0 in
  '(m, ss) <- drop_loop fuel m s0 s ss ;;
  Ret (set_arena cx m, ss).

Definition wikrt_drop_v (fuel : nat) (cx : wikrt_cx) (v : Z) (ss : option Z)
  : outcome (wikrt_cx * option Z) :=
  wikrt_drop_sv fuel cx (cx_ssp cx) v ss.

Definition wikrt_drop (fuel : nat) (cx : wikrt_cx) : outcome wikrt_cx :=
  if negb (wikrt_p (cx_val cx)) then Ret (wikrt_set_error cx WIKRT_ETYPE) else
  let pv := wikrt_pval (cx_val cx) in
  let cx := set_val cx (load cx (pv + sizeof_val)) in
  '(cx, ss) <- wikrt_drop_v fuel cx (load cx pv) (Some 0) ;;
  match ss with
  | Some ss =>
      if negb (wikrt_ss_droppable ss) then Ret (wikrt_set_error cx WIKRT_ETYPE)
      else Ret cx
  | None => Ret cx
  end.

(** ** Compaction and reservation ([wikrt.c], lines 213-301) *)

Definition set_cap (cx : wikrt_cx) (c : Z) : wikrt_cx :=
  mkcx (cx_arena cx) (cx_ecode cx) (cx_val cx) (cx_pc cx) (cx_cc cx) (cx_txn cx)
       (cx_mem cx) (cx_alloc cx) c (cx_ssp cx) (cx_size cx)
       (cx_compaction_count cx) (cx_compaction_size cx)
       (cx_bytes_compacted cx) (cx_bytes_collected cx) (cx_largest_size cx).

(** [wikrt_pval_swap(&(cx->mem), &(cx->ssp)); cx->alloc = cx->mem;
    cx->cap = cx->mem + cx->size;] *)
Definition swap_spaces (cx : wikrt_cx) : wikrt_cx :=
  mkcx (cx_arena cx) (cx_ecode cx) (cx_val cx) (cx_pc cx) (cx_cc cx) (cx_txn cx)
       (cx_ssp cx) (cx_ssp cx) (wrap32 (cx_ssp cx + cx_size cx)) (cx_mem cx)
       (cx_size cx)
       (cx_compaction_count cx) (cx_compaction_size cx)
       (cx_bytes_compacted cx) (cx_bytes_collected cx) (cx_largest_size cx).

Definition set_roots (cx : wikrt_cx) (v pc cc txn : Z) : wikrt_cx :=
  mkcx (cx_arena cx) (cx_ecode cx) v pc cc txn
       (cx_mem cx) (cx_alloc cx) (cx_cap cx) (cx_ssp cx) (cx_size cx)
       (cx_compaction_count cx) (cx_compaction_size cx)
       (cx_bytes_compacted cx) (cx_bytes_collected cx) (cx_largest_size cx).

Definition set_stats (cx : wikrt_cx) (ct sz compacted collected largest : Z) : wikrt_cx :=
  mkcx (cx_arena cx) (cx_ecode cx) (cx_val cx) (cx_pc cx) (cx_cc cx) (cx_txn cx)
       (cx_mem cx) (cx_alloc cx) (cx_cap cx) (cx_ssp cx) (cx_size cx)
       ct sz compacted collected largest.

Definition wikrt_mem_compact (fuel : nat) (cx : wikrt_cx) : outcome wikrt_cx :=
  let vol0 := wikrt_memory_volume cx in
  if negb (vol0 <=? cx_size cx) then Abort else
  let cx := swap_spaces cx in
  '(cx, txn, _) <- wikrt_copy_r fuel cx (cx_txn cx) None true ;;
  let cx := set_roots cx (cx_val cx) (cx_pc cx) (cx_cc cx) txn in
  '(cx, cc, _) <- wikrt_copy_r fuel cx (cx_cc cx) None true ;;
  let cx := set_roots cx (cx_val cx) (cx_pc cx) cc (cx_txn cx) in
  '(cx, pc, _) <- wikrt_copy_r fuel cx (cx_pc cx) None true ;;
  let cx := set_roots cx (cx_val cx) pc (cx_cc cx) (cx_txn cx) in
  '(cx, v, _) <- wikrt_copy_r fuel cx (cx_val cx) None true ;;
  let cx := set_roots cx v (cx_pc cx) (cx_cc cx) (cx_txn cx) in
  if negb (wikrt_memory_volume cx <=? vol0) then Abort else
  let csize := wikrt_memory_volume cx in
  Ret (set_stats cx
         (wrap32 (cx_compaction_count cx + 1))
         csize
         (cx_bytes_compacted cx + csize)
         (cx_bytes_collected cx + (vol0 - csize))
         (if cx_largest_size cx <? csize then csize else cx_largest_size cx)).

(** Modelled from the spec: the growth factor and the page size are build
    constants of the header (both at least 1 by the static assertion);
    [WIKRT_LNBUFF] rounds up to a multiple of a power of two. *)
Definition WIKRT_MEM_FACTOR : Z := 2.
Definition WIKRT_MEM_PAGEMB : Z := 2.
Definition WIKRT_LNBUFF (sz ln : Z) : Z :=
  wrap32 (Z.land (sz + (ln - 1)) (WIKRT_VAL_MAX - (ln - 1))).

Definition wikrt_mem_gc_then_reserve (fuel : nat) (cx : wikrt_cx) (sz : Z)
  : outcome (wikrt_cx * bool) :=
  cx <- wikrt_mem_compact fuel cx ;;
  if negb (wikrt_mem_available cx sz)
  then Ret (wikrt_set_error cx WIKRT_CXFULL, false) else
  let avail := wrap32 (cx_cap cx - cx_alloc cx) in
  let inuse := wrap32 (cx_largest_size cx + sz) in
  let oversized := avail / WIKRT_MEM_FACTOR >? inuse in
  let target := wrap32 (cx_alloc cx + wrap32 (inuse * WIKRT_MEM_FACTOR)) in
  let desired := WIKRT_LNBUFF target (Z.shiftl WIKRT_MEM_PAGEMB 20) in
  if oversized && (target <=? desired) && (desired <? cx_cap cx)
  then Ret (set_cap cx desired, true)
  else Ret (cx, true).

Definition wikrt_cx_gc (fuel : nat) (cx : wikrt_cx) : outcome wikrt_cx :=
  '(cx, _) <- wikrt_mem_gc_then_reserve fuel cx 0 ;; Ret cx.

(** Modelled from the spec: [wikrt_mem_reserve] succeeds locally when
    [cap - alloc >= n] and otherwise triggers a compaction. *)
Definition wikrt_mem_reserve (fuel : nat) (cx : wikrt_cx) (sz : Z)
  : outcome (wikrt_cx * bool) :=
  if wikrt_mem_available cx sz then Ret (cx, true)
  else wikrt_mem_gc_then_reserve fuel cx sz.

(** ** Copy of the top of the stack ([wikrt.c], lines 330-389)

    [allow_size_bypass] is the build constant [WIKRT_ALLOW_SIZE_BYPASS]. *)

Definition wikrt_copy_m (allow_size_bypass : bool) (fuel : nat) (cx : wikrt_cx)
    (ss : option Z) (moving_copy : bool) : outcome (wikrt_cx * option Z) :=
  if negb (wikrt_p (cx_val cx)) then
    let cx := wikrt_set_error cx WIKRT_ETYPE in
    let cx := wikrt_set_error cx WIKRT_ETYPE in
    Ret (cx, ss)
  else
  let max_alloc := wrap32 (WIKRT_CELLSIZE + wikrt_memory_volume cx) in
  let use_size_bypass := allow_size_bypass && wikrt_mem_available cx max_alloc in
  '(cx, alloc_est) <-
     (if use_size_bypass then Ret (cx, 0) else wikrt_peek_size_ssp fuel cx) ;;
  '(cx, reserved) <- wikrt_mem_reserve fuel cx alloc_est ;;
  if negb reserved then Ret (cx, ss) else
  let s0 := wikrt_memory_volume cx in
  let copy_src := load cx (wikrt_pval (cx_val cx)) in
  '(cx, copy_dst, ss) <- wikrt_copy_r fuel cx copy_src ss moving_copy ;;
  let cx := wikrt_intro_r cx copy_dst in
  let sf := wikrt_memory_volume cx in
  let alloc_act := wrap32 (sf - s0) in
  let alloc_est_ok := use_size_bypass || (alloc_est =? alloc_act) in
  if negb alloc_est_ok then Abort else Ret (cx, ss).

Definition wikrt_copy (allow_size_bypass : bool) (fuel : nat) (cx : wikrt_cx)
  : outcome wikrt_cx :=
  '(cx, ss) <- wikrt_copy_m allow_size_bypass fuel cx (Some 0) false ;;
  match ss with
  | Some ss =>
      if negb (wikrt_ss_copyable ss) then Ret (wikrt_set_error cx WIKRT_ETYPE)
      else Ret cx
  | None => Ret cx
  end.

(** ** Reset ([wikrt.c], lines 179-191 and 2137-2141) *)

Definition wikrt_drop_txn (fuel : nat) (cx : wikrt_cx) : outcome wikrt_cx :=
  '(cx, _) <- wikrt_drop_v fuel cx (cx_txn cx) None ;;
  Ret (set_roots cx (cx_val cx) (cx_pc cx) (cx_cc cx) WIKRT_REG_TXN_INIT).

Definition wikrt_cx_reset (fuel : nat) (cx : wikrt_cx) : outcome wikrt_cx :=
  cx <- wikrt_drop_txn fuel cx ;;
  '(cx, _) <- wikrt_drop_v fuel cx (cx_val cx) None ;;
  let cx := set_val cx WIKRT_REG_VAL_INIT in
  '(cx, _) <- wikrt_drop_v fuel cx (cx_cc cx) None ;;
  let cx := set_roots cx (cx_val cx) (cx_pc cx) WIKRT_REG_CC_INIT (cx_txn cx) in
  '(cx, _) <- wikrt_drop_v fuel cx (cx_pc cx) None ;;
  let cx := set_roots cx (cx_val cx) WIKRT_REG_PC_INIT (cx_cc cx) (cx_txn cx) in
  let cx := set_ecode cx WIKRT_OK in
  Ret (wikrt_cx_relax cx).

(** ** Small introductions

    Modelled from the spec: [wikrt_wrap_otag] boxes the top of the stack
    under a header word ([alloc], one cell); [wikrt_intro_smallval] pushes
    a shallow value; [wikrt_intro_op] pushes an operator as a small
    integer; [wikrt_intro_empty_list] pushes unit-in-right. *)

Definition wikrt_wrap_otag (fuel : nat) (cx : wikrt_cx) (otag : Z) : outcome wikrt_cx :=
  if negb (wikrt_p (cx_val cx)) then Ret (wikrt_set_error cx WIKRT_ETYPE) else
  '(cx, ok) <- wikrt_mem_reserve fuel cx WIKRT_CELLSIZE ;;
  if negb ok then Ret cx else
  let v := wikrt_pval (cx_val cx) in
  let '(cx, c) := wikrt_alloc_cellval_r cx WIKRT_O otag (load cx v) in
  Ret (store cx v c).

Definition wikrt_intro_smallval (fuel : nat) (cx : wikrt_cx) (v : Z) : outcome wikrt_cx :=
  '(cx, ok) <- wikrt_mem_reserve fuel cx WIKRT_CELLSIZE ;;
  if negb ok then Ret cx else Ret (wikrt_intro_r cx v).

Definition wikrt_intro_op (fuel : nat) (cx : wikrt_cx) (op : Z) : outcome wikrt_cx :=
  wikrt_intro_smallval fuel cx (wikrt_i2v op).

Definition wikrt_intro_empty_list (fuel : nat) (cx : wikrt_cx) : outcome wikrt_cx :=
  wikrt_intro_smallval fuel cx WIKRT_UNIT_INR.

Definition wikrt_intro_unit (fuel : nat) (cx : wikrt_cx) : outcome wikrt_cx :=
  '(cx, ok) <- wikrt_mem_reserve fuel cx WIKRT_CELLSIZE ;;
  if negb ok then Ret cx else
  let '(cx, c) := wikrt_alloc_cellval_r cx WIKRT_P WIKRT_UNIT (cx_val cx) in
  Ret (set_val cx c).

Definition wikrt_intro_i32 (fuel : nat) (cx : wikrt_cx) (n : Z) : outcome wikrt_cx :=
  let is_smallint := (WIKRT_SMALLINT_MIN <=? n) && (n <=? WIKRT_SMALLINT_MAX) in
  if is_smallint then wikrt_intro_smallval fuel cx (wikrt_i2v n)
  else Ret (wikrt_set_error cx WIKRT_IMPL).

(** ** Sums ([wikrt.c], lines 963-1124 and 1352-1402) *)

Definition wikrt_deepsum_with_free_space (cx : wikrt_cx) (v : Z) : bool :=
  if negb (wikrt_o v) then false else
  let otag := load cx (wikrt_pobj v) in
  wikrt_otag_deepsum otag && (otag <? Z.shiftr WIKRT_VAL_MAX 2).

Definition deepsum_step (sum : wikrt_sum_tag) : Z :=
  match sum with WIKRT_INL => WIKRT_DEEPSUML | WIKRT_INR => WIKRT_DEEPSUMR end.

Definition wikrt_wrap_sum_p (fuel : nat) (cx : wikrt_cx) (sum : wikrt_sum_tag)
  : outcome wikrt_cx :=
  let v := wikrt_pval (cx_val cx) in
  if 1 =? Z.land 3 (load cx v) then
    Ret (store cx v (wrap32 (load cx v +
                             match sum with WIKRT_INL => 1 | WIKRT_INR => 2 end)))
  else if wikrt_deepsum_with_free_space cx (load cx v) then
    let pv := wikrt_pobj (load cx v) in
    let s0 := Z.shiftr (load cx pv) 8 in
    let sf := Z.lor (wrap32 (Z.shiftl s0 2)) (deepsum_step sum) in
    let otag := Z.lor (wrap32 (Z.shiftl sf 8)) WIKRT_OTAG_DEEPSUM in
    Ret (store cx pv otag)
  else
    let sf := deepsum_step sum in
    let otag := Z.lor (wrap32 (Z.shiftl sf 8)) WIKRT_OTAG_DEEPSUM in
    wikrt_wrap_otag fuel cx otag.

Definition wikrt_wrap_sum (fuel : nat) (cx : wikrt_cx) (sum : wikrt_sum_tag)
  : outcome wikrt_cx :=
  if negb (wikrt_p (cx_val cx)) then Ret (wikrt_set_error cx WIKRT_ETYPE)
  else wikrt_wrap_sum_p fuel cx sum.

(** Modelled from the spec: [wikrt_cons] turns [(v * (list * e))] into
    [((v : list) * e)], i.e. [assocl] followed by [wrap_sum(INL)] (the
    parser spells the same sequence out). *)
Definition wikrt_cons (fuel : nat) (cx : wikrt_cx) : outcome wikrt_cx :=
  wikrt_wrap_sum fuel (wikrt_assocl cx) WIKRT_INL.

(** Modelled from the spec: a value is a compact binary, resp. a text, when
    it is a [BINARY], resp. [UTF8], object (header inlines). *)
Definition wikrt_value_is_compact_binary (cx : wikrt_cx) (v : Z) : bool :=
  wikrt_o v && wikrt_otag_binary (load cx (wikrt_pobj v)).
Definition wikrt_value_is_utf8 (cx : wikrt_cx) (v : Z) : bool :=
  wikrt_o v && wikrt_otag_utf8 (load cx (wikrt_pobj v)).

(** Modelled from the spec: the UTF-8 codec is an external collaborator;
    [utf8_readcp_size] is the length announced by a lead byte and
    [utf8_readcp_unsafe] decodes without validation. *)
Definition utf8_readcp_size (b0 : Z) : Z :=
  if b0 <? 128 then 1 else if b0 <? 224 then 2 else if b0 <? 240 then 3 else 4.

Definition utf8_readcp_unsafe (buff : list Z) : Z :=
  let b i := nth i buff 0 in
  let c i := Z.land (b i) 63 in
  match utf8_readcp_size (b 0%nat) with
  | 1 => b 0%nat
  | 2 => Z.lor (Z.shiftl (Z.land (b 0%nat) 31) 6) (c 1%nat)
  | 3 => Z.lor (Z.shiftl (Z.land (b 0%nat) 15) 12)
               (Z.lor (Z.shiftl (c 1%nat) 6) (c 2%nat))
  | _ => Z.lor (Z.shiftl (Z.land (b 0%nat) 7) 18)
               (Z.lor (Z.shiftl (c 1%nat) 12)
                      (Z.lor (Z.shiftl (c 2%nat) 6) (c 3%nat)))
  end.

(** [memcpy] out of the arena into a caller's buffer. *)
Fixpoint read_bytes (m : arena) (src : Z) (n : nat) : list Z :=
  match n with
  | O => []
  | S k => load8 m src :: read_bytes m (src + 1) k
  end.

(** The body of [wikrt_expand_sum_p]; [read_binary] is the reader it uses
    for the [UTF8] case. *)
Definition expand_sum_body
    (read_binary : wikrt_cx -> Z -> outcome (wikrt_cx * list Z))
    (fuel : nat) (cx : wikrt_cx) : outcome wikrt_cx :=
  '(cx, ok) <- wikrt_mem_reserve fuel cx WIKRT_CELLSIZE ;;
  if negb ok then Ret cx else
  let v := wikrt_pval (cx_val cx) in
  let ok_type := wikrt_o (load cx v) in
  let cx := if negb ok_type then wikrt_set_error cx WIKRT_ETYPE else cx in
  let pv := wikrt_pobj (load cx v) in
  let lo := LOBYTE (load cx pv) in
  if lo =? WIKRT_OTAG_ARRAY then
    let buff := load cx (pv + 3 * sizeof_val) in
    let cx := store cx (pv + 3 * sizeof_val)
                    (wrap32 (load cx (pv + 3 * sizeof_val) + sizeof_val)) in
    let cx := store cx (pv + 2 * sizeof_val)
                    (wrap32 (load cx (pv + 2 * sizeof_val) - 1)) in
    let hd := load cx buff in
    let tl := if 0 =? load cx (pv + 2 * sizeof_val)
              then load cx (pv + sizeof_val) else load cx v in
    let '(cx, c) := wikrt_alloc_cellval_r cx WIKRT_PL hd tl in
    Ret (store cx v c)
  else if lo =? WIKRT_OTAG_BINARY then
    let buff := load cx (pv + 3 * sizeof_val) in
    let cx := store cx (pv + 3 * sizeof_val)
                    (wrap32 (load cx (pv + 3 * sizeof_val) + 1)) in
    let cx := store cx (pv + 2 * sizeof_val)
                    (wrap32 (load cx (pv + 2 * sizeof_val) - 1)) in
    let hd := wikrt_i2v (load8 (cx_arena cx) buff) in
    let tl := if 0 =? load cx (pv + 2 * sizeof_val)
              then load cx (pv + sizeof_val) else load cx v in
    let '(cx, c) := wikrt_alloc_cellval_r cx WIKRT_PL hd tl in
    Ret (store cx v c)
  else if lo =? WIKRT_OTAG_UTF8 then
    let cx := store cx v (load cx (pv + sizeof_val)) in
    '(cx, buff) <- read_binary cx 1 ;;
    if (0 =? Z.of_nat (length buff)) then Ret cx else
    let bytes_needed := utf8_readcp_size (nth 0%nat buff 0) - 1 in
    '(cx, more) <-
       (if negb (0 =? bytes_needed) then
          '(cx, more) <- read_binary cx bytes_needed ;;
          if negb ((bytes_needed =? Z.of_nat (length more)) || wikrt_has_error cx)
          then Abort else Ret (cx, more)
        else Ret (cx, [])) ;;
    let cp := utf8_readcp_unsafe (buff ++ more) in
    cx <- wikrt_wrap_otag fuel cx WIKRT_OTAG_UTF8 ;;
    cx <- wikrt_intro_i32 fuel cx (signed32 cp) ;;
    wikrt_cons fuel cx
  else Ret (wikrt_set_error cx WIKRT_ETYPE).

(** [wikrt_unwrap_sum_p] (the [tailcall] loop) and [wikrt_read_binary]
    call each other through [wikrt_expand_sum_p].  The out-parameter
    [*sum] is [None] while it has not been assigned. *)
Fixpoint wikrt_unwrap_sum_p (fuel : nat) (cx : wikrt_cx) (sum : option wikrt_sum_tag)
  : outcome (wikrt_cx * option wikrt_sum_tag) :=
  match fuel with
  | O => OutOfFuel
  | S f =>
      let v := wikrt_pval (cx_val cx) in
      if negb (Z.land 2 (load cx v) =? 0) then
        if negb (Z.land 1 (load cx v) =? 0)
        then Ret (store cx v (wrap32 (load cx v - 2)), Some WIKRT_INR)
        else Ret (store cx v (wrap32 (load cx v - 1)), Some WIKRT_INL)
      else if wikrt_o (load cx v) then
        let pv := wikrt_pobj (load cx v) in
        if wikrt_otag_deepsum (load cx pv) then
          let s0 := Z.shiftr (load cx pv) 8 in
          let inL := WIKRT_DEEPSUML =? Z.land 3 s0 in
          let sum := Some (if inL then WIKRT_INL else WIKRT_INR) in
          let sf := Z.shiftr s0 2 in
          if 0 =? sf then Ret (store cx v (load cx (pv + sizeof_val)), sum)
          else Ret (store cx pv (Z.lor (wrap32 (Z.shiftl sf 8)) WIKRT_OTAG_DEEPSUM), sum)
        else
          cx <- expand_sum_body (wikrt_read_binary f) f cx ;;
          if negb (wikrt_has_error cx) then wikrt_unwrap_sum_p f cx sum
          else Ret (cx, sum)
      else Ret (wikrt_set_error cx WIKRT_ETYPE, sum)
  end

with wikrt_read_binary (fuel : nat) (cx : wikrt_cx) (max_bytes : Z)
  : outcome (wikrt_cx * list Z) :=
  match fuel with
  | O => OutOfFuel
  | S f =>
      if negb (wikrt_p (cx_val cx)) then Ret (wikrt_set_error cx WIKRT_ETYPE, [])
      else read_binary_loop f cx max_bytes []
  end

with read_binary_loop (fuel : nat) (cx : wikrt_cx) (max_bytes : Z) (out : list Z)
  : outcome (wikrt_cx * list Z) :=
  match fuel with
  | O => OutOfFuel
  | S f =>
      let v := wikrt_pval (cx_val cx) in
      let bytes := Z.of_nat (length out) in
      if wikrt_pl (load cx v) then
        let pnode := wikrt_pval (load cx v) in
        let byte := wikrt_v2i (load cx pnode) in
        let okByte := wikrt_smallint (load cx pnode) && ((0 <=? byte) && (byte <=? 255)) in
        if negb okByte then Ret (wikrt_set_error cx WIKRT_ETYPE, out) else
        if max_bytes =? bytes then Ret (cx, out) else
        let out := out ++ [byte] in
        let cx := store cx v (load cx (pnode + sizeof_val)) in
        read_binary_loop f cx max_bytes out
      else if wikrt_value_is_compact_binary cx (load cx v) then
        let phd := wikrt_pobj (load cx v) in
        let output_size_limit := max_bytes - bytes in
        let output_limited := load cx (phd + 2 * sizeof_val) >? output_size_limit in
        let bytes_read := if output_limited then output_size_limit
                          else load cx (phd + 2 * sizeof_val) in
        let out := out ++ read_bytes (cx_arena cx) (load cx (phd + 3 * sizeof_val))
                                     (Z.to_nat bytes_read) in
        if output_limited then
          let cx := store cx (phd + 2 * sizeof_val)
                          (wrap32 (load cx (phd + 2 * sizeof_val) - bytes_read)) in
          let cx := store cx (phd + 3 * sizeof_val)
                          (wrap32 (load cx (phd + 3 * sizeof_val) + bytes_read)) in
          Ret (cx, out)
        else
          let cx := store cx v (load cx (phd + sizeof_val)) in
          read_binary_loop f cx max_bytes out
      else
        '(cx, lr) <- wikrt_unwrap_sum_p f cx None ;;
        match lr with
        | None => Abort   (* [lr] read while indeterminate *)
        | Some lr =>
            cx <- wikrt_wrap_sum_p f cx lr ;;
            match lr with
            | WIKRT_INR => Ret (cx, out)
            | WIKRT_INL =>
                let list_node_expanded :=
                  wikrt_pl (load cx (wikrt_pval (cx_val cx))) in
                if negb list_node_expanded
                then Ret (wikrt_set_error cx WIKRT_ETYPE, out)
                else read_binary_loop f cx max_bytes out
            end
        end
  end.

Definition wikrt_expand_sum_p (fuel : nat) (cx : wikrt_cx) : outcome wikrt_cx :=
  expand_sum_body (wikrt_read_binary fuel) fuel cx.

Definition wikrt_unwrap_sum (fuel : nat) (cx : wikrt_cx) (sum : option wikrt_sum_tag)
  : outcome (wikrt_cx * option wikrt_sum_tag) :=
  if negb (wikrt_p (cx_val cx)) then Ret (wikrt_set_error cx WIKRT_ETYPE, sum)
  else wikrt_unwrap_sum_p fuel cx sum.

(** ** Blocks: quote and compose ([wikrt.c], lines 1831-2004) *)

Definition not32 (x : Z) : Z := Z.lxor x WIKRT_VAL_MAX.

(** Modelled from the spec: the operator number of the [inline]
    accelerator ([vr$c]) in the header's operator enumeration. *)
Definition ACCEL_INLINE : Z := 43.

Definition wikrt_quote (fuel : nat) (cx : wikrt_cx) : outcome wikrt_cx :=
  let szAlloc := 3 * WIKRT_CELLSIZE in
  '(cx, ok) <- wikrt_mem_reserve fuel cx szAlloc ;;
  if negb ok then Ret cx else
  if negb (wikrt_p (cx_val cx)) then Ret (wikrt_set_error cx WIKRT_ETYPE) else
  let v := wikrt_pval (cx_val cx) in
  let '(cx, a) := wikrt_alloc_r cx szAlloc in
  let cx := store cx a WIKRT_OTAG_BLOCK in
  let cx := store cx (a + 1 * sizeof_val)
                  (wikrt_tag_addr WIKRT_PL (wrap32 (a + WIKRT_CELLSIZE))) in
  let cx := store cx (a + 2 * sizeof_val)
                  (wikrt_tag_addr WIKRT_O (wrap32 (a + 2 * WIKRT_CELLSIZE))) in
  let cx := store cx (a + 3 * sizeof_val) WIKRT_UNIT_INR in
  let cx := store cx (a + 4 * sizeof_val) (Z.lor WIKRT_OTAG_OPVAL WIKRT_OPVAL_LAZYKF) in
  let cx := store cx (a + 5 * sizeof_val) (load cx v) in
  Ret (store cx v (wikrt_tag_addr WIKRT_O a)).

Definition wikrt_intro_id_block (fuel : nat) (cx : wikrt_cx) : outcome wikrt_cx :=
  cx <- wikrt_intro_empty_list fuel cx ;;
  wikrt_wrap_otag fuel cx WIKRT_OTAG_BLOCK.

(** [wikrt_peek_block]: the address of the block header on top of the
    stack, or a latched type error and [NULL]. *)
Definition wikrt_peek_block (cx : wikrt_cx) : wikrt_cx * option Z :=
  if wikrt_p (cx_val cx) then
    let v := wikrt_pval (cx_val cx) in
    if wikrt_o (load cx v) then
      let b := wikrt_pobj (load cx v) in
      if wikrt_otag_block (load cx b) then (cx, Some b)
      else (wikrt_set_error cx WIKRT_ETYPE, None)
    else (wikrt_set_error cx WIKRT_ETYPE, None)
  else (wikrt_set_error cx WIKRT_ETYPE, None).

Definition wikrt_block_quote_inline_attrib (fuel : nat) (cx : wikrt_cx) (attrib : Z)
  : outcome wikrt_cx :=
  cx <- wikrt_intro_empty_list fuel cx ;;
  cx <- wikrt_intro_op fuel cx ACCEL_INLINE ;;
  cx <- wikrt_cons fuel cx ;;
  let cx := wikrt_wswap cx in
  cx <- wikrt_wrap_otag fuel cx (Z.lor WIKRT_OTAG_OPVAL WIKRT_OPVAL_LAZYKF) ;;
  cx <- wikrt_cons fuel cx ;;
  wikrt_wrap_otag fuel cx (Z.lor WIKRT_OTAG_BLOCK attrib).

Definition unsafe_attribs : Z :=
  not32 (Z.lor WIKRT_SAFE_BLOCK_ATTRIBS WIKRT_OTAG_BLOCK).

Definition wikrt_block_attrib (fuel : nat) (cx : wikrt_cx) (attrib : Z)
  : outcome wikrt_cx :=
  if negb (0 =? Z.land attrib 255) then Abort else
  let '(cx, b) := wikrt_peek_block cx in
  match b with
  | None => Ret cx
  | Some b =>
      let attrib_is_safe := 0 =? Z.land attrib unsafe_attribs in
      let block_is_safe := 0 =? Z.land (load cx b) unsafe_attribs in
      if attrib_is_safe || block_is_safe
      then Ret (store cx b (Z.lor (load cx b) attrib))
      else wikrt_block_quote_inline_attrib fuel cx attrib
  end.

Definition wikrt_block_aff (fuel : nat) (cx : wikrt_cx) : outcome wikrt_cx :=
  wikrt_block_attrib fuel cx WIKRT_BLOCK_AFFINE.
Definition wikrt_block_rel (fuel : nat) (cx : wikrt_cx) : outcome wikrt_cx :=
  wikrt_block_attrib fuel cx WIKRT_BLOCK_RELEVANT.
Definition wikrt_block_lazy (fuel : nat) (cx : wikrt_cx) : outcome wikrt_cx :=
  wikrt_block_attrib fuel cx WIKRT_BLOCK_LAZY.
Definition wikrt_block_fork (fuel : nat) (cx : wikrt_cx) : outcome wikrt_cx :=
  wikrt_block_attrib fuel cx WIKRT_BLOCK_FORK.

Definition wikrt_hide_block_decorators (fuel : nat) (cx : wikrt_cx) : outcome wikrt_cx :=
  let dec_attr := unsafe_attribs in
  let '(cx, b) := wikrt_peek_block cx in
  match b with
  | None => Ret (wikrt_set_error cx WIKRT_ETYPE)
  | Some b =>
      let b_dec := negb (0 =? Z.land (load cx b) dec_attr) in
      if negb b_dec then Ret cx
      else wikrt_block_quote_inline_attrib fuel cx 0
  end.

(** The [do { ... } while(effort-- > 0)] loop of [wikrt_scan_to_block_end]. *)
Fixpoint scan_loop (fuel : nat) (cx : wikrt_cx) (list effort : Z) : outcome (option Z) :=
  match fuel with
  | O => OutOfFuel
  | S f =>
      if wikrt_pl (load cx list) then
        let list := wikrt_pval (load cx list) + sizeof_val in
        if effort >? 0 then scan_loop f cx list (wrap32 (effort - 1)) else Ret None
      else if WIKRT_UNIT_INR =? load cx list then Ret (Some list)
      else Abort
  end.

Definition wikrt_scan_to_block_end (fuel : nat) (cx : wikrt_cx) (effort : Z)
  : outcome (wikrt_cx * option Z) :=
  let '(cx, b) := wikrt_peek_block cx in
  match b with
  | None => Ret (wikrt_set_error cx WIKRT_ETYPE, None)
  | Some b =>
      r <- scan_loop fuel cx (b + sizeof_val) effort ;;
      Ret (cx, r)
  end.

(** The second half of [wikrt_compose], from [if(wikrt_has_error(cx))] on:
    the concatenation itself, which allocates nothing. *)
Definition compose_concat (cx : wikrt_cx) (eoab : option Z) : outcome wikrt_cx :=
  if wikrt_has_error cx then Ret cx else
  match eoab with
  | None => Abort
  | Some eoab =>
      if negb (WIKRT_UNIT_INR =? load cx eoab) then Abort else
      let pabe := wikrt_pval (cx_val cx) in
      let pbe := wikrt_pval (load cx (pabe + sizeof_val)) in
      let pfnab := wikrt_pobj (load cx pabe) in
      let pfnbc := wikrt_pobj (load cx pbe) in
      let cx := wikrt_pval_swap cx eoab (pfnbc + sizeof_val) in
      let cx := wikrt_pval_swap cx (pfnab + sizeof_val) (pfnbc + sizeof_val) in
      let cx := store cx pfnbc (Z.lor (load cx pfnbc) (load cx pfnab)) in
      Ret (set_val cx (load cx (pabe + sizeof_val)))
  end.

Definition wikrt_compose (fuel : nat) (cx : wikrt_cx) : outcome wikrt_cx :=
  let smallfn := 15 in
  let cx := wikrt_wswap cx in
  cx <- wikrt_hide_block_decorators fuel cx ;;
  let cx := wikrt_wswap cx in
  cx <- wikrt_hide_block_decorators fuel cx ;;
  '(cx, eoab) <- wikrt_scan_to_block_end fuel cx smallfn ;;
  '(cx, eoab) <-
     match eoab with
     | Some _ => Ret (cx, eoab)
     | None =>
         cx <- wikrt_block_quote_inline_attrib fuel cx 0 ;;
         wikrt_scan_to_block_end fuel cx WIKRT_SIZE_MAX
     end ;;
  compose_concat cx eoab.

(** ** Values as trees

    The shape a value has in the arena, following the object layouts of
    spec section 3.2: the reading of a tagged word and of the cells behind
    it that copy, drop and vsize walk. *)

Inductive tree : Type :=
| TConst (w : Z)                                   (* integer or unit constant *)
| TCell (tag : Z) (hd tl : tree)                   (* P, PL, PR *)
| TBox (otag : Z) (inner : tree)                   (* (otag, value) objects *)
| TSeal (otag : Z) (name : list Z) (inner : tree)  (* SEAL with its token bytes *)
| TBinary (otag : Z) (bytes : list Z) (next : tree)
| TArray (otag : Z) (elems : list tree) (next : tree).

Definition box_otag (otag : Z) : bool :=
  let lo := LOBYTE otag in
  (lo =? WIKRT_OTAG_TRASH) || (lo =? WIKRT_OTAG_BLOCK) || (lo =? WIKRT_OTAG_OPVAL)
  || (lo =? WIKRT_OTAG_UTF8) || (lo =? WIKRT_OTAG_PEND) || (lo =? WIKRT_OTAG_SEAL_SM)
  || (lo =? WIKRT_OTAG_DEEPSUM).

Fixpoint bytes_at (m : arena) (a : Z) (bs : list Z) : Prop :=
  match bs with
  | [] => True
  | b :: bs' => load8 m a = b /\ bytes_at m (a + 1) bs'
  end.

Section ElemsAt.
Variable R : tree -> Z -> Prop.
Variable m : arena.
(** Consecutive words from [a] denote the trees of [l]. *)
Fixpoint elems_at (l : list tree) (a : Z) {struct l} : Prop :=
  match l with
  | [] => True
  | e :: l' => R e (m a) /\ elems_at l' (a + sizeof_val)
  end.
End ElemsAt.

(** [rep m lo hi t w]: the word [w] denotes the tree [t] in arena [m], and
    every cell and buffer of it lies in [[lo, hi)]. *)
Fixpoint rep (m : arena) (lo hi : Z) (t : tree) (w : Z) {struct t} : Prop :=
  match t with
  | TConst c => w = c /\ wikrt_copy_shallow c = true
  | TCell tag a b =>
      let p := wikrt_pval w in
      wikrt_vtag w = tag /\ (tag = WIKRT_P \/ tag = WIKRT_PL \/ tag = WIKRT_PR) /\
      lo <= p /\ p + WIKRT_CELLSIZE <= hi /\
      rep m lo hi a (m p) /\ rep m lo hi b (m (p + sizeof_val))
  | TBox otag inner =>
      let p := wikrt_pobj w in
      wikrt_vtag w = WIKRT_O /\ lo <= p /\ p + WIKRT_CELLSIZE <= hi /\
      m p = otag /\ box_otag otag = true /\
      rep m lo hi inner (m (p + sizeof_val))
  | TSeal otag name inner =>
      let p := wikrt_pobj w in
      let len := Z.of_nat (length name) in
      wikrt_vtag w = WIKRT_O /\ lo <= p /\
      p + wikrt_cellbuff (WIKRT_CELLSIZE + len) <= hi /\
      p + 2 * sizeof_val + len <= hi /\
      m p = otag /\ LOBYTE otag = WIKRT_OTAG_SEAL /\ Z.shiftr otag 8 = len /\
      bytes_at m (p + 2 * sizeof_val) name /\
      rep m lo hi inner (m (p + sizeof_val))
  | TBinary otag bytes next =>
      let p := wikrt_pobj w in
      let len := Z.of_nat (length bytes) in
      let buf := m (p + 3 * sizeof_val) in
      wikrt_vtag w = WIKRT_O /\ lo <= p /\ p + 2 * WIKRT_CELLSIZE <= hi /\
      m p = otag /\ LOBYTE otag = WIKRT_OTAG_BINARY /\
      m (p + 2 * sizeof_val) = len /\ lo <= buf /\ buf + len <= hi /\
      bytes_at m buf bytes /\
      rep m lo hi next (m (p + sizeof_val))
  | TArray otag elems next =>
      let p := wikrt_pobj w in
      let len := Z.of_nat (length elems) in
      let buf := m (p + 3 * sizeof_val) in
      wikrt_vtag w = WIKRT_O /\ lo <= p /\ p + 2 * WIKRT_CELLSIZE <= hi /\
      m p = otag /\ LOBYTE otag = WIKRT_OTAG_ARRAY /\
      m (p + 2 * sizeof_val) = len /\ lo <= buf /\ buf + len * sizeof_val <= hi /\
      buf mod 4 = 0 /\
      elems_at (rep m lo hi) m elems buf /\
      rep m lo hi next (m (p + sizeof_val))
  end.

(** The bytes a copy of the value allocates. *)
Fixpoint tsize (t : tree) : Z :=
  match t with
  | TConst _ => 0
  | TCell _ a b => WIKRT_CELLSIZE + tsize a + tsize b
  | TBox _ inner => WIKRT_CELLSIZE + tsize inner
  | TSeal _ name inner =>
      wikrt_cellbuff (WIKRT_CELLSIZE + Z.of_nat (length name)) + tsize inner
  | TBinary _ bytes next =>
      2 * WIKRT_CELLSIZE + wikrt_cellbuff (Z.of_nat (length bytes)) + tsize next
  | TArray _ elems next =>
      2 * WIKRT_CELLSIZE + wikrt_cellbuff (Z.of_nat (length elems) * sizeof_val)
      + fold_right Z.add 0 (map tsize elems)
      + tsize next
  end.

Definition tsizes (l : list tree) : Z := fold_right Z.add 0 (map tsize l).

(** The number of objects of a value: the iterations a walk needs. *)
Fixpoint nodes (t : tree) : nat :=
  match t with
  | TConst _ => O
  | TCell _ a b => S (nodes a + nodes b)
  | TBox _ inner => S (nodes inner)
  | TSeal _ _ inner => S (nodes inner)
  | TBinary _ _ next => S (nodes next)
  | TArray _ elems next =>
      S (fold_right Nat.add O (map nodes elems) + nodes next)
  end.

Definition nodes_list (l : list tree) : nat := fold_right Nat.add O (map nodes l).

Definition is_const (t : tree) : bool :=
  match t with TConst _ => true | _ => false end.

(** The substructure a scan with a summary gathers: the relevant/affine
    bits of every block and trash header and [PEND] for every pending
    value, except below an [OPVAL] that hides its substructure. *)
Fixpoint tflags (t : tree) : Z :=
  match t with
  | TConst _ => 0
  | TCell _ a b => Z.lor (tflags a) (tflags b)
  | TBox otag inner =>
      let lo := LOBYTE otag in
      if lo =? WIKRT_OTAG_PEND then Z.lor WIKRT_SS_PEND (tflags inner)
      else if (lo =? WIKRT_OTAG_TRASH) || (lo =? WIKRT_OTAG_BLOCK) then
        Z.lor (Z.land (Z.shiftr otag 8) (Z.lor WIKRT_SS_REL WIKRT_SS_AFF))
              (tflags inner)
      else if (lo =? WIKRT_OTAG_OPVAL) && wikrt_opval_hides_ss otag then 0
      else tflags inner
  | TSeal _ _ inner => tflags inner
  | TBinary _ _ next => tflags next
  | TArray _ elems next =>
      Z.lor (fold_right Z.lor 0 (map tflags elems)) (tflags next)
  end.

Definition tflags_list (l : list tree) : Z := fold_right Z.lor 0 (map tflags l).

(** A block (or trash) header carrying attribute bit [flag] is reachable
    without passing below an [OPVAL] that hides its substructure. *)
Inductive exposes (flag : Z) : tree -> Prop :=
| ex_here otag inner :
    (LOBYTE otag = WIKRT_OTAG_BLOCK \/ LOBYTE otag = WIKRT_OTAG_TRASH) ->
    Z.land otag flag <> 0 ->
    exposes flag (TBox otag inner)
| ex_box otag inner :
    ~ (LOBYTE otag = WIKRT_OTAG_OPVAL /\ wikrt_opval_hides_ss otag = true) ->
    exposes flag inner -> exposes flag (TBox otag inner)
| ex_hd tag a b : exposes flag a -> exposes flag (TCell tag a b)
| ex_tl tag a b : exposes flag b -> exposes flag (TCell tag a b)
| ex_seal otag name inner : exposes flag inner -> exposes flag (TSeal otag name inner)
| ex_binary otag bytes next : exposes flag next -> exposes flag (TBinary otag bytes next)
| ex_elem otag elems next e :
    In e elems -> exposes flag e -> exposes flag (TArray otag elems next)
| ex_next otag elems next : exposes flag next -> exposes flag (TArray otag elems next).

(** A work stack of values that grows up: the top word is just below [s]
    and the list gives the trees from the top down. *)
Fixpoint stack_up (m : arena) (lo hi : Z) (s : Z) (ts : list tree) : Prop :=
  match ts with
  | [] => True
  | t :: ts' =>
      is_const t = false /\ rep m lo hi t (m (s - sizeof_val)) /\
      stack_up m lo hi (s - sizeof_val) ts'
  end.

(** The children a walk pushes, last pushed first. *)
Definition pushed (cs : list tree) : list tree :=
  rev (filter (fun t => negb (is_const t)) cs).

(** [(unit * unit)] with [WIKRT_ETYPE] already latched. *)
Definition cx_unit_err : wikrt_cx :=
  set_ecode (cx_of [(16, WIKRT_UNIT); (20, WIKRT_UNIT)] 17 16 24 1024) WIKRT_ETYPE.

(** ** The state of a copy in progress

    A copy reads a value of the region [[lo, hi)] and writes above the
    allocation pointer; [A0] is the allocation pointer when the copy began.
    The pending destinations are the addresses on the copy stack, each
    paired here with the value its word still refers to. *)

Definition with_heap (cx : wikrt_cx) (m : arena) (A : Z) : wikrt_cx :=
  set_alloc (set_arena cx m) A.

Definition read_slot (m : arena) (root : Z) (dst : cloc) : Z :=
  match dst with LRoot => root | LAddr a => m a end.

Definition dst_slots (dst : cloc) : list Z :=
  match dst with LRoot => [] | LAddr a => [a] end.

Fixpoint cstack (m : arena) (s : Z) (ps : list (Z * tree)) : Prop :=
  match ps with
  | [] => True
  | p :: r => m s = fst p /\ cstack m (s + sizeof_val) r
  end.

Definition kid (q : Z) (c : tree) : list (Z * tree) :=
  if is_const c then [] else [(q, c)].

Definition trees (ps : list (Z * tree)) : list tree := map snd ps.
Definition slots (ps : list (Z * tree)) : list Z := map fst ps.

Definition write_slot (m : arena) (dst : cloc) (v : Z) : arena :=
  match dst with LRoot => m | LAddr a => upd m a v end.

Definition new_root (root : Z) (dst : cloc) (v : Z) : Z :=
  match dst with LRoot => v | LAddr _ => root end.

(** [([block] * unit)]: one block with empty code whose header carries both
    the affine and the relevant attribute. *)
Definition otag_linear_block : Z :=
  Z.lor WIKRT_OTAG_BLOCK (Z.lor WIKRT_BLOCK_AFFINE WIKRT_BLOCK_RELEVANT).

Definition cx_linear_block : wikrt_cx :=
  cx_of [(16, 24); (20, WIKRT_UNIT); (24, otag_linear_block); (28, WIKRT_UNIT_INR)]
        17 16 32 1024.

(** The same block below an [OPVAL] wrapper that hides substructure. *)
Definition otag_lazy_opval : Z := Z.lor WIKRT_OTAG_OPVAL WIKRT_OPVAL_LAZYKF.

Definition cx_hidden_block : wikrt_cx :=
  cx_of [(16, 24); (20, WIKRT_UNIT); (24, otag_lazy_opval); (28, 32);
         (32, otag_linear_block); (36, WIKRT_UNIT_INR)]
        17 16 40 1024.

(** [([block] * unit)] again, with both semi-spaces laid out: the active
    one at [[16, 1040)], the scratch one at [[2048, 3072)]. *)
Definition cx_two_spaces : wikrt_cx :=
  mkcx (arena_of [(16, 24); (20, WIKRT_UNIT); (24, otag_linear_block);
                  (28, WIKRT_UNIT_INR)])
       WIKRT_OK 17 WIKRT_REG_PC_INIT WIKRT_REG_CC_INIT WIKRT_REG_TXN_INIT
       16 32 1040 2048 1024 0 0 0 0 0.

(** ** Block composition on explicit contexts *)

(** The walk of [wikrt_scan_to_block_end]: [n] hops along [PL] links lead
    from the slot [a] to the slot [e]. *)
Fixpoint ops_reach (m : arena) (a : Z) (n : nat) (e : Z) : Prop :=
  match n with
  | O => a = e
  | S k => wikrt_pl (m a) = true /\ ops_reach m (wikrt_pval (m a) + sizeof_val) k e
  end.

(** [n] list cells from [base] on, each holding the operator number 0. *)
Fixpoint ops_cells (base : Z) (n : nat) : list (Z * Z) :=
  match n with
  | O => []
  | S k =>
      (base, wikrt_i2v 0)
      :: (base + 4, match k with
                    | O => WIKRT_UNIT_INR
                    | S _ => wikrt_tag_addr WIKRT_PL (base + 8)
                    end)
      :: ops_cells (base + 8) k
  end.

(** [([ab] * ([bc] * unit))]: the left block has header [hab] and [n]
    operators, the right one is relevant and empty. *)
Definition cx_compose (hab : Z) (n : nat) : wikrt_cx :=
  cx_of ([(16, 32); (20, 25); (24, 40); (28, WIKRT_UNIT);
          (32, hab);
          (36, match n with O => WIKRT_UNIT_INR | S _ => wikrt_tag_addr WIKRT_PL 48 end);
          (40, Z.lor WIKRT_OTAG_BLOCK WIKRT_BLOCK_RELEVANT); (44, WIKRT_UNIT_INR)]
         ++ ops_cells 48 n)
        17 16 (48 + 8 * Z.of_nat n) 4096.

Definition otag_affine_block : Z := Z.lor WIKRT_OTAG_BLOCK WIKRT_BLOCK_AFFINE.

(** ** Values as data

    What a program observes of a value through the pair and sum
    primitives, whatever its layout in the arena: a shallow sum, a
    [DEEPSUM] path, or a list that is still packed in an [ARRAY],
    [BINARY] or [UTF8] chunk all denote plain sums.  Objects that are
    not read by the sum primitives (blocks, sealed values, ...) are kept
    as the tree they form. *)

Inductive aval : Type :=
| AUnit
| AInt (n : Z)
| APair (a b : aval)
| AInj (s : wikrt_sum_tag) (a : aval)
| AData (t : tree).

Definition acons (h t : aval) : aval := AInj WIKRT_INL (APair h t).
Definition anil : aval := AInj WIKRT_INR AUnit.
Definition alist (l : list aval) (tl : aval) : aval := fold_right acons tl l.

(** The increment of a shallow sum: [PL = P + 1], [PR = P + 2]. *)
Definition shallow_step (s : wikrt_sum_tag) : Z :=
  match s with WIKRT_INL => 1 | WIKRT_INR => 2 end.

(** The path bits of a [DEEPSUM] header, outermost step lowest. *)
Fixpoint deepsum_path (ts : list wikrt_sum_tag) : Z :=
  match ts with
  | [] => 0
  | t :: ts' => deepsum_step t + 4 * deepsum_path ts'
  end.

Definition deepsum_otag (ts : list wikrt_sum_tag) : Z :=
  256 * deepsum_path ts + WIKRT_OTAG_DEEPSUM.

Definition opaque_tree (t : tree) : bool :=
  match t with
  | TBox otag _ =>
      negb (LOBYTE otag =? WIKRT_OTAG_DEEPSUM) && negb (LOBYTE otag =? WIKRT_OTAG_UTF8)
  | TSeal _ _ _ => true
  | _ => false
  end.

(** Footprints: the words a value may occupy. *)
Definition covers (P : Z -> Prop) (p n : Z) : Prop :=
  forall x, p <= x < p + n -> P x.
Definition covers_bytes (P : Z -> Prop) (p n : Z) : Prop :=
  forall x, p <= x < p + n -> P (x - x mod 4).
Definition without (P : Z -> Prop) (p n : Z) : Z -> Prop :=
  fun x => P x /\ ~ (p <= x < p + n).
Definition grown (P : Z -> Prop) (p n : Z) : Z -> Prop :=
  fun x => P x \/ p <= x < p + n.

(** The code points of a byte sequence, as [utf8_readcp_size] and
    [utf8_readcp_unsafe] cut it. *)
Inductive utf8_text : list Z -> list Z -> Prop :=
| utf8_nil : utf8_text [] []
| utf8_cp (b0 : Z) (more rest cps : list Z) :
    Z.of_nat (length more) = utf8_readcp_size b0 - 1 ->
    Forall (fun b => 0 <= b <= 255) (b0 :: more) ->
    utf8_text rest cps ->
    utf8_text (b0 :: more ++ rest) (utf8_readcp_unsafe (b0 :: more) :: cps).

(** A binary: byte cells and [BINARY] chunks up to the unit in the right. *)
Inductive bin (m : arena) : (Z -> Prop) -> Z -> list Z -> Prop :=
| bin_end (P : Z -> Prop) : bin m P WIKRT_UNIT_INR []
| bin_cell (P : Z -> Prop) (w b : Z) (bs : list Z) :
    wikrt_vtag w = WIKRT_PL ->
    covers P (wikrt_pval w) 8 ->
    m (wikrt_pval w) = wikrt_i2v b -> 0 <= b <= 255 ->
    bin m P (m (wikrt_pval w + sizeof_val)) bs ->
    bin m P w (b :: bs)
| bin_chunk (P : Z -> Prop) (w : Z) (chunk bs : list Z) :
    wikrt_vtag w = WIKRT_O ->
    covers P (wikrt_pobj w) 16 ->
    LOBYTE (m (wikrt_pobj w)) = WIKRT_OTAG_BINARY ->
    chunk <> [] ->
    m (wikrt_pobj w + 2 * sizeof_val) = Z.of_nat (length chunk) ->
    0 <= m (wikrt_pobj w + 3 * sizeof_val) ->
    m (wikrt_pobj w + 3 * sizeof_val) + Z.of_nat (length chunk) < 2 ^ 32 ->
    covers_bytes (without P (wikrt_pobj w) 16)
                 (m (wikrt_pobj w + 3 * sizeof_val)) (Z.of_nat (length chunk)) ->
    bytes_at m (m (wikrt_pobj w + 3 * sizeof_val)) chunk ->
    bin m (without P (wikrt_pobj w) 16) (m (wikrt_pobj w + sizeof_val)) bs ->
    bin m P w (chunk ++ bs).

(** [den m P w a]: in arena [m] the word [w] denotes [a], and the words
    it is read from all satisfy [P]. *)
Inductive den (m : arena) : (Z -> Prop) -> Z -> aval -> Prop :=
| den_unit (P : Z -> Prop) : den m P WIKRT_UNIT AUnit
| den_int (P : Z -> Prop) (n : Z) :
    WIKRT_SMALLINT_MIN <= n <= WIKRT_SMALLINT_MAX ->
    den m P (wikrt_i2v n) (AInt n)
| den_pair (P : Z -> Prop) (w : Z) (a b : aval) :
    wikrt_vtag w = WIKRT_P ->
    covers P (wikrt_pval w) 8 ->
    den m P (m (wikrt_pval w)) a ->
    den m P (m (wikrt_pval w + sizeof_val)) b ->
    den m P w (APair a b)
| den_shallow (P : Z -> Prop) (w : Z) (s : wikrt_sum_tag) (a : aval) :
    Z.land 3 w = 1 ->
    den m P w a ->
    den m P (w + shallow_step s) (AInj s a)
| den_deepsum (P : Z -> Prop) (w : Z) (ts : list wikrt_sum_tag) (a : aval) :
    wikrt_vtag w = WIKRT_O ->
    covers P (wikrt_pobj w) 8 ->
    ts <> [] -> deepsum_path ts < 2 ^ 24 ->
    m (wikrt_pobj w) = deepsum_otag ts ->
    den m (without P (wikrt_pobj w) 8) (m (wikrt_pobj w + sizeof_val)) a ->
    den m P w (fold_right AInj a ts)
| den_array (P : Z -> Prop) (w : Z) (elems : list aval) (tl : aval) :
    wikrt_vtag w = WIKRT_O ->
    covers P (wikrt_pobj w) 16 ->
    LOBYTE (m (wikrt_pobj w)) = WIKRT_OTAG_ARRAY ->
    elems <> [] ->
    m (wikrt_pobj w + 2 * sizeof_val) = Z.of_nat (length elems) ->
    0 <= m (wikrt_pobj w + 3 * sizeof_val) ->
    m (wikrt_pobj w + 3 * sizeof_val) + 4 * Z.of_nat (length elems) < 2 ^ 32 ->
    covers (without P (wikrt_pobj w) 16)
           (m (wikrt_pobj w + 3 * sizeof_val)) (4 * Z.of_nat (length elems)) ->
    (forall i e, nth_error elems i = Some e ->
       den m (without P (wikrt_pobj w) 16)
           (m (m (wikrt_pobj w + 3 * sizeof_val) + sizeof_val * Z.of_nat i)) e) ->
    den m (without P (wikrt_pobj w) 16) (m (wikrt_pobj w + sizeof_val)) tl ->
    den m P w (alist elems tl)
| den_binary (P : Z -> Prop) (w : Z) (bytes : list Z) (tl : aval) :
    wikrt_vtag w = WIKRT_O ->
    covers P (wikrt_pobj w) 16 ->
    LOBYTE (m (wikrt_pobj w)) = WIKRT_OTAG_BINARY ->
    bytes <> [] ->
    m (wikrt_pobj w + 2 * sizeof_val) = Z.of_nat (length bytes) ->
    0 <= m (wikrt_pobj w + 3 * sizeof_val) ->
    m (wikrt_pobj w + 3 * sizeof_val) + Z.of_nat (length bytes) < 2 ^ 32 ->
    covers_bytes (without P (wikrt_pobj w) 16)
                 (m (wikrt_pobj w + 3 * sizeof_val)) (Z.of_nat (length bytes)) ->
    bytes_at m (m (wikrt_pobj w + 3 * sizeof_val)) bytes ->
    den m (without P (wikrt_pobj w) 16) (m (wikrt_pobj w + sizeof_val)) tl ->
    den m P w (alist (map AInt bytes) tl)
| den_utf8 (P : Z -> Prop) (w : Z) (bytes cps : list Z) :
    wikrt_vtag w = WIKRT_O ->
    covers P (wikrt_pobj w) 8 ->
    LOBYTE (m (wikrt_pobj w)) = WIKRT_OTAG_UTF8 ->
    bin m (without P (wikrt_pobj w) 8) (m (wikrt_pobj w + sizeof_val)) bytes ->
    utf8_text bytes cps ->
    den m P w (alist (map AInt cps) anil)
| den_data (P : Z -> Prop) (w : Z) (t : tree) (lo hi : Z) :
    opaque_tree t = true ->
    lo mod 4 = 0 -> hi mod 4 = 0 ->
    covers P lo (hi - lo) ->
    rep m lo hi t w ->
    den m P w (AData t).

(** The word on top of the stack. *)
Definition top (cx : wikrt_cx) : Z := load cx (wikrt_pval (cx_val cx)).
(** A text on the stack, still packed: the stack cell at 16 refers to a
    [UTF8] object at 32 over one [BINARY] chunk at 40, whose two bytes at
    56 are the code point 233. *)
Definition cx_text : wikrt_cx :=
  cx_of [(16, 32); (20, WIKRT_UNIT);
         (32, WIKRT_OTAG_UTF8); (36, 40);
         (40, WIKRT_OTAG_BINARY); (44, WIKRT_UNIT_INR); (48, 2); (52, 56);
         (56, 43459)]
        17 16 64 4096.

Definition text_words : Z -> Prop := fun x => 32 <= x < 60.

(** ** The parser ([wikrt_parse.c])

    The parser is written against the engine's stack primitives and never
    looks below them, so it is modelled over the values the value
    register holds rather than over the arena.

    Modelled from the spec: the primitives it calls ([wikrt_intro_r],
    [wikrt_assocl], [wikrt_assocr], [wikrt_wswap], [wikrt_zswap],
    [wikrt_wrap_sum], [wikrt_drop], [wikrt_read_text],
    [wikrt_reverse_text_chunks]) have the stack effects that the comments
    of [wikrt_parse.c] and spec section 4 give them, and return an error
    code without touching the stack when the shape is wrong;
    [wikrt_mem_reserve] may fail at any call, which an oracle decides;
    a reference through a value register that is not a pair is outside
    the model and ends the run like a failed [assert]. *)

Module Parse.

Inductive val : Type :=
| VUnit
| VInt (n : Z)
| VPair (a b : val)
| VSum (s : wikrt_sum_tag) (a : val)
| VObj (otag : Z) (body : val)                     (* BLOCK, OPVAL *)
| VText (charct : Z) (bytes : list Z) (next : val) (* one TEXT chunk *)
| VTok (bytes : list Z).                           (* OPTOK *)

Inductive wikrt_err : Type :=
| WIKRT_OK | WIKRT_TYPE_ERROR | WIKRT_CXFULL | WIKRT_IMPL.

Definition is_ok (e : wikrt_err) : bool :=
  match e with WIKRT_OK => true | _ => false end.

(** [st |= e]: only ever compared with [WIKRT_OK]. *)
Definition err_or (a b : wikrt_err) : wikrt_err :=
  match a with WIKRT_OK => b | _ => a end.

Inductive wikrt_parse_type : Type :=
| WIKRT_PARSE_OP | WIKRT_PARSE_TXT | WIKRT_PARSE_TXT_LF | WIKRT_PARSE_TOK.

Record wikrt_parse_state : Type := mkps {
  ps_type : wikrt_parse_type;
  ps_depth : Z;
  ps_buffsz : Z;
  ps_charct : Z;
  ps_buff : list Z           (* the first [buffsz] bytes of [buff] *)
}.

Definition WIKRT_PARSE_BUFFSZ : Z := WIKRT_CELLSIZE * 1024.
Definition WIKRT_PARSE_READSZ : Z := 30 * 1000.
Definition UTF8_MAX_CP_SIZE : Z := 4.

(** The context: the value register, and whether each coming call of
    [wikrt_mem_reserve] succeeds. *)
Record cx : Type := mkcx { cx_val : val; cx_reserve : list bool }.

Definition set_val (c : cx) (v : val) : cx := mkcx v (cx_reserve c).

Definition wikrt_p (v : val) : bool :=
  match v with VPair _ _ => true | _ => false end.

Definition wikrt_mem_reserve (c : cx) (sz : Z) : cx * bool :=
  match cx_reserve c with
  | [] => (c, true)
  | b :: o => (mkcx (cx_val c) o, b)
  end.

Definition wikrt_intro_r (c : cx) (v : val) : cx := set_val c (VPair v (cx_val c)).

Definition wikrt_assocl (c : cx) : cx * wikrt_err :=
  match cx_val c with
  | VPair a (VPair b e) => (set_val c (VPair (VPair a b) e), WIKRT_OK)
  | _ => (c, WIKRT_TYPE_ERROR)
  end.

Definition wikrt_assocr (c : cx) : cx * wikrt_err :=
  match cx_val c with
  | VPair (VPair a b) e => (set_val c (VPair a (VPair b e)), WIKRT_OK)
  | _ => (c, WIKRT_TYPE_ERROR)
  end.

Definition wikrt_wswap (c : cx) : cx * wikrt_err :=
  match cx_val c with
  | VPair a (VPair b e) => (set_val c (VPair b (VPair a e)), WIKRT_OK)
  | _ => (c, WIKRT_TYPE_ERROR)
  end.

Definition wikrt_zswap (c : cx) : cx * wikrt_err :=
  match cx_val c with
  | VPair a (VPair b (VPair d e)) => (set_val c (VPair a (VPair d (VPair b e))), WIKRT_OK)
  | _ => (c, WIKRT_TYPE_ERROR)
  end.

Definition wikrt_wrap_sum (c : cx) (s : wikrt_sum_tag) : cx * wikrt_err :=
  match cx_val c with
  | VPair a e => (set_val c (VPair (VSum s a) e), WIKRT_OK)
  | _ => (c, WIKRT_TYPE_ERROR)
  end.

Definition wikrt_drop (c : cx) : cx * wikrt_err :=
  match cx_val c with
  | VPair _ e => (set_val c e, WIKRT_OK)
  | _ => (c, WIKRT_TYPE_ERROR)
  end.

(** [wikrt_pval(cx, cx->val)[0]], read and written. *)
Definition top (c : cx) : outcome val :=
  match cx_val c with VPair a _ => Ret a | _ => Abort end.

Definition set_top (c : cx) (v : val) : outcome cx :=
  match cx_val c with VPair _ e => Ret (set_val c (VPair v e)) | _ => Abort end.

(** Modelled from the spec: the UTF-8 encoding of a code point. *)
Definition utf8_writecp (cp : Z) : list Z :=
  if cp <? 128 then [cp]
  else if cp <? 2048 then [192 + cp / 64; 128 + cp mod 64]
  else if cp <? 65536 then [224 + cp / 4096; 128 + (cp / 64) mod 64; 128 + cp mod 64]
  else [240 + cp / 262144; 128 + (cp / 4096) mod 64; 128 + (cp / 64) mod 64;
        128 + cp mod 64].

Definition utf8_writecp_size (cp : Z) : Z := Z.of_nat (length (utf8_writecp cp)).

(** Modelled from the spec: [wikrt_reverse_text_chunks] reverses the chain
    of chunks on top of the stack. *)
Fixpoint reverse_chunks (t acc : val) : val :=
  match t with
  | VText n bs next => reverse_chunks next (VText n bs acc)
  | _ => acc
  end.

Fixpoint chunks_end (t : val) : val :=
  match t with
  | VText _ _ next => chunks_end next
  | _ => t
  end.

Definition wikrt_reverse_text_chunks (c : cx) : outcome cx :=
  t <- top c ;; set_top c (reverse_chunks t (chunks_end t)).

Section Tables.

(** The character classes, the operator table and the token bound come
    from the header. *)
Variable wikrt_token_char : Z -> bool.
Variable wikrt_text_char : Z -> bool.
Variable wikrt_abc2op_ascii_table : Z -> Z.
Variable OP_INVAL : Z.
Variable WIKRT_TOK_BUFFSZ : Z.

(** Modelled from the spec: [wikrt_read_text] moves code points off the
    list on top of the stack while they fit the byte budget; the buffer
    is kept as the code points that [utf8_step_unsafe] gives back. *)
Fixpoint read_text_list (t : val) (budget : Z) : list Z * val :=
  match t with
  | VSum WIKRT_INL (VPair (VInt cp) rest) =>
      if ((0 <=? cp) && (cp <=? 1114111) && wikrt_text_char cp
          && (utf8_writecp_size cp <=? budget))%bool
      then let '(l, r) := read_text_list rest (budget - utf8_writecp_size cp) in
           (cp :: l, r)
      else ([], t)
  | _ => ([], t)
  end.

Definition wikrt_read_text (c : cx) (max : Z) : cx * list Z :=
  match cx_val c with
  | VPair t e => let '(l, r) := read_text_list t max in (set_val c (VPair r e), l)
  | _ => (c, [])
  end.

(** [wikrt_intro_parse] (lines 65-74). *)
Definition wikrt_intro_parse (c : cx) : cx * option wikrt_parse_state :=
  let szAlloc := 2 * WIKRT_CELLSIZE in
  let '(c, ok) := wikrt_mem_reserve c szAlloc in
  if negb ok then (c, None) else
  let c := wikrt_intro_r c VUnit in
  let c := wikrt_intro_r c (VSum WIKRT_INR VUnit) in
  (c, Some (mkps WIKRT_PARSE_OP 0 0 0 [])).

(** [wikrt_reverse_opslist] (lines 79-96). *)
Fixpoint reverse_opslist_loop (hd tl : val) : outcome val :=
  match hd with
  | VSum WIKRT_INR VUnit => Ret tl
  | VSum WIKRT_INL (VPair x next_hd) =>
      reverse_opslist_loop next_hd (VSum WIKRT_INL (VPair x tl))
  | _ => Abort    (* assert(wikrt_pl(hd)) *)
  end.

Definition wikrt_reverse_opslist (c : cx) : outcome cx :=
  hd <- top c ;;
  tl <- reverse_opslist_loop hd (VSum WIKRT_INR VUnit) ;;
  set_top c tl.

(** [wikrt_flush_parse_text] (lines 98-134). *)
Definition wikrt_flush_parse_text (c : cx) (p : wikrt_parse_state)
  : outcome (cx * wikrt_parse_state * bool) :=
  if 0 =? ps_buffsz p then Ret (c, p, true) else
  if negb ((ps_charct p <=? ps_buffsz p) && (ps_buffsz p <=? 65535)
           && (ps_buffsz p <=? UTF8_MAX_CP_SIZE * ps_charct p))
  then Abort else
  let szBuff := wikrt_cellbuff (ps_buffsz p) in
  let szAlloc := szBuff + 2 * WIKRT_CELLSIZE in
  let '(c, ok) := wikrt_mem_reserve c szAlloc in
  if negb ok then Ret (c, p, false) else
  texts <- top c ;;
  c <- set_top c (VText (ps_charct p) (ps_buff p) texts) ;;
  Ret (c, mkps (ps_type p) (ps_depth p) 0 0 [], true).

(** [wikrt_parser_write_char] (lines 136-144). *)
Definition wikrt_parser_write_char (c : cx) (p : wikrt_parse_state) (cp : Z)
  : outcome (cx * wikrt_parse_state * bool) :=
  let p := mkps (ps_type p) (ps_depth p) (ps_buffsz p + utf8_writecp_size cp)
                (ps_charct p + 1) (ps_buff p ++ utf8_writecp cp) in
  if ps_buffsz p >=? WIKRT_PARSE_BUFFSZ - UTF8_MAX_CP_SIZE
  then wikrt_flush_parse_text c p
  else Ret (c, p, true).

(** [wikrt_fini_parse_opval_r] (lines 155-170). *)
Definition wikrt_fini_parse_opval_r (c : cx) : outcome cx :=
  v <- top c ;;
  c <- set_top c (VObj WIKRT_OTAG_OPVAL v) ;;
  let st := WIKRT_OK in
  let '(c, e) := wikrt_wswap c in let st := err_or st e in
  let '(c, e) := wikrt_assocr c in let st := err_or st e in
  let '(c, e) := wikrt_zswap c in let st := err_or st e in
  let '(c, e) := wikrt_wswap c in let st := err_or st e in
  let '(c, e) := wikrt_assocl c in let st := err_or st e in
  let '(c, e) := wikrt_wrap_sum c WIKRT_INL in let st := err_or st e in
  if negb (is_ok st) then Abort else Ret c.

(** [wikrt_fini_parse_text] (lines 172-186). *)
Definition wikrt_fini_parse_text (c : cx) (p : wikrt_parse_state)
  : outcome (cx * wikrt_parse_state * bool) :=
  match ps_type p with
  | WIKRT_PARSE_TXT_LF =>
      '(c, p, ok) <- wikrt_flush_parse_text c p ;;
      if negb ok then Ret (c, p, false) else
      c <- wikrt_reverse_text_chunks c ;;
      let '(c, ok) := wikrt_mem_reserve c WIKRT_CELLSIZE in
      if negb ok then Ret (c, p, false) else
      c <- wikrt_fini_parse_opval_r c ;;
      Ret (c, p, true)
  | _ => Abort
  end.

Definition set_type (p : wikrt_parse_state) (t : wikrt_parse_type) : wikrt_parse_state :=
  mkps t (ps_depth p) (ps_buffsz p) (ps_charct p) (ps_buff p).

(** [wikrt_step_parse_char] (lines 188-310). *)
Definition wikrt_step_parse_char (c : cx) (p : wikrt_parse_state) (cp : Z)
  : outcome (cx * wikrt_parse_state * wikrt_err) :=
  match ps_type p with
  | WIKRT_PARSE_TOK =>
      if 125 =? cp then
        if 0 =? ps_buffsz p then Ret (c, p, WIKRT_TYPE_ERROR) else
        if negb (ps_buffsz p <? WIKRT_TOK_BUFFSZ) then Abort else
        let optoksz := wikrt_cellbuff (ps_buffsz p + sizeof_val) in
        let szAlloc := WIKRT_CELLSIZE + optoksz in
        let '(c, ok) := wikrt_mem_reserve c szAlloc in
        if negb ok then Ret (c, p, WIKRT_CXFULL) else
        let c := wikrt_intro_r c (VTok (ps_buff p)) in
        let '(c, _) := wikrt_assocl c in
        let '(c, _) := wikrt_wrap_sum c WIKRT_INL in
        Ret (c, set_type p WIKRT_PARSE_OP, WIKRT_OK)
      else
        if negb (wikrt_token_char cp) then Ret (c, p, WIKRT_TYPE_ERROR) else
        let p := mkps (ps_type p) (ps_depth p) (ps_buffsz p + utf8_writecp_size cp)
                      (ps_charct p) (ps_buff p ++ utf8_writecp cp) in
        if ps_buffsz p >=? WIKRT_TOK_BUFFSZ then Ret (c, p, WIKRT_TYPE_ERROR)
        else Ret (c, p, WIKRT_OK)
  | WIKRT_PARSE_TXT_LF =>
      if 32 =? cp then
        '(c, p, ok) <- wikrt_parser_write_char c p 10 ;;
        if negb ok then Ret (c, p, WIKRT_CXFULL) else
        Ret (c, set_type p WIKRT_PARSE_TXT, WIKRT_OK)
      else if 126 =? cp then
        '(c, p, ok) <- wikrt_fini_parse_text c p ;;
        if negb ok then Ret (c, p, WIKRT_CXFULL) else
        Ret (c, set_type p WIKRT_PARSE_OP, WIKRT_OK)
      else Ret (c, p, WIKRT_TYPE_ERROR)
  | WIKRT_PARSE_TXT =>
      if 10 =? cp then Ret (c, set_type p WIKRT_PARSE_TXT_LF, WIKRT_OK)
      else if negb (wikrt_text_char cp) then Ret (c, p, WIKRT_TYPE_ERROR)
      else
        '(c, p, ok) <- wikrt_parser_write_char c p cp ;;
        if negb ok then Ret (c, p, WIKRT_CXFULL) else Ret (c, p, WIKRT_OK)
  | WIKRT_PARSE_OP =>
      let worst_case_alloc := 2 * WIKRT_CELLSIZE in
      let '(c, ok) := wikrt_mem_reserve c worst_case_alloc in
      if negb ok then Ret (c, p, WIKRT_CXFULL) else
      if 91 =? cp then
        let c := wikrt_intro_r c (VSum WIKRT_INR VUnit) in
        let '(c, _) := wikrt_assocl c in
        Ret (c, mkps (ps_type p) (ps_depth p + 1) (ps_buffsz p) (ps_charct p) (ps_buff p),
             WIKRT_OK)
      else if 93 =? cp then
        if ps_depth p <? 1 then Ret (c, p, WIKRT_TYPE_ERROR) else
        let p := mkps (ps_type p) (ps_depth p - 1) (ps_buffsz p) (ps_charct p) (ps_buff p) in
        c <- wikrt_reverse_opslist c ;;
        v <- top c ;;
        c <- set_top c (VObj WIKRT_OTAG_BLOCK v) ;;
        c <- wikrt_fini_parse_opval_r c ;;
        Ret (c, p, WIKRT_OK)
      else if 123 =? cp then
        Ret (c, mkps WIKRT_PARSE_TOK (ps_depth p) 0 0 [], WIKRT_OK)
      else if 34 =? cp then
        let c := wikrt_intro_r c (VSum WIKRT_INR VUnit) in
        let '(c, _) := wikrt_assocl c in
        Ret (c, mkps WIKRT_PARSE_TXT (ps_depth p) 0 0 [], WIKRT_OK)
      else if cp <? 128 then
        let op := wikrt_abc2op_ascii_table cp in
        if OP_INVAL =? op then Ret (c, p, WIKRT_TYPE_ERROR) else
        let c := wikrt_intro_r c (VInt op) in
        let '(c, _) := wikrt_assocl c in
        let '(c, _) := wikrt_wrap_sum c WIKRT_INL in
        Ret (c, p, WIKRT_OK)
      else Ret (c, p, WIKRT_TYPE_ERROR)
  end.

(** [wikrt_step_parse] (lines 318-328), over the code points of the buffer. *)
Fixpoint wikrt_step_parse (c : cx) (p : wikrt_parse_state) (s : list Z)
  : outcome (cx * wikrt_parse_state * wikrt_err) :=
  match s with
  | [] => Ret (c, p, WIKRT_OK)
  | cp :: s' =>
      '(c, p, st) <- wikrt_step_parse_char c p cp ;;
      if negb (is_ok st) then Ret (c, p, st) else wikrt_step_parse c p s'
  end.

Definition is_unit (v : val) : bool := match v with VUnit => true | _ => false end.
Definition is_unit_inr (v : val) : bool :=
  match v with VSum WIKRT_INR VUnit => true | _ => false end.
Definition is_parse_op (t : wikrt_parse_type) : bool :=
  match t with WIKRT_PARSE_OP => true | _ => false end.

(** [wikrt_fini_parse] (lines 331-362). *)
Definition wikrt_fini_parse (c : cx) (p : wikrt_parse_state) : outcome (cx * wikrt_err) :=
  c <- wikrt_reverse_opslist c ;;
  let '(c, _) := wikrt_assocl c in
  v <- top c ;;
  match v with
  | VPair ops stack =>
      let stackIsEmpty := is_unit stack in
      c <- set_top c (VObj WIKRT_OTAG_BLOCK ops) ;;
      let '(c, _) := wikrt_wswap c in
      t <- top c ;;
      let textIsEmpty := is_unit_inr t in
      let '(c, _) := wikrt_drop c in
      let validFinalParserState :=
        ((0 =? ps_depth p) && stackIsEmpty && is_parse_op (ps_type p) && textIsEmpty)%bool in
      if negb validFinalParserState then
        let '(c, _) := wikrt_drop c in Ret (c, WIKRT_TYPE_ERROR)
      else Ret (c, WIKRT_OK)
  | _ => Abort
  end.

(** The loop of [wikrt_text_to_block] (lines 390-408). *)
Fixpoint text_to_block_loop (fuel : nat) (c : cx) (p : wikrt_parse_state)
  : outcome (cx * wikrt_err) :=
  match fuel with
  | O => OutOfFuel
  | S f =>
      let '(c, _) := wikrt_assocl c in
      let '(c, _) := wikrt_wswap c in
      let '(c, buff) := wikrt_read_text c WIKRT_PARSE_READSZ in
      let '(c, _) := wikrt_wswap c in
      let '(c, _) := wikrt_assocr c in
      match buff with
      | [] => wikrt_fini_parse c p
      | _ =>
          '(c, p, st) <- wikrt_step_parse c p buff ;;
          if negb (is_ok st) then
            let '(c, _) := wikrt_drop c in
            let '(c, _) := wikrt_drop c in
            let '(c, _) := wikrt_drop c in
            Ret (c, st)
          else text_to_block_loop f c p
      end
  end.

(** [wikrt_text_to_block] (lines 373-410). *)
Definition wikrt_text_to_block (fuel : nat) (c : cx) : outcome (cx * wikrt_err) :=
  if negb (wikrt_p (cx_val c)) then Ret (c, WIKRT_TYPE_ERROR) else
  match wikrt_intro_parse c with
  | (c, None) => let '(c, _) := wikrt_drop c in Ret (c, WIKRT_CXFULL)
  | (c, Some p) => text_to_block_loop fuel c p
  end.

End Tables.

End Parse.

(** ** Further product primitives ([wikrt.c], lines 775-799) *)

Definition wikrt_intro_unit_r (fuel : nat) (cx : wikrt_cx) : outcome wikrt_cx :=
  '(cx, ok) <- wikrt_mem_reserve fuel cx WIKRT_CELLSIZE ;;
  if negb ok then Ret cx else
  let '(cx, c) := wikrt_alloc_cellval_r cx WIKRT_P (cx_val cx) WIKRT_UNIT in
  Ret (set_val cx c).

(** The register holds [(a * (b * (c * d)))], read word by word. *)
Definition shape_a_b_cd (cx : wikrt_cx) (a b c d : Z) : Prop :=
  let x := wikrt_pval (cx_val cx) in
  let y := wikrt_pval (load cx (x + sizeof_val)) in
  let z := wikrt_pval (load cx (y + sizeof_val)) in
  wikrt_p (cx_val cx) = true /\
  wikrt_p (load cx (x + sizeof_val)) = true /\
  wikrt_p (load cx (y + sizeof_val)) = true /\
  load cx x = a /\ load cx y = b /\ load cx z = c /\ load cx (z + sizeof_val) = d.

(** The register holds [(a * ((b * c) * d))]. *)
Definition shape_a_bc_d (cx : wikrt_cx) (a b c d : Z) : Prop :=
  let x := wikrt_pval (cx_val cx) in
  let y := wikrt_pval (load cx (x + sizeof_val)) in
  let z := wikrt_pval (load cx y) in
  wikrt_p (cx_val cx) = true /\
  wikrt_p (load cx (x + sizeof_val)) = true /\
  wikrt_p (load cx y) = true /\
  load cx x = a /\ load cx z = b /\ load cx (z + sizeof_val) = c /\
  load cx (y + sizeof_val) = d.

(** The three cells of either shape are pairwise distinct. *)
Definition cells_apart (x y z : Z) : Prop := x <> y /\ y <> z /\ x <> z.

(** ** Trash ([wikrt.c], lines 754-773) *)

Definition wikrt_erase_trashval (fuel : nat) (cx : wikrt_cx) (ss : Z) : outcome wikrt_cx :=
  let pv := wikrt_pval (cx_val cx) in
  if 0 =? ss then Ret (store cx pv WIKRT_NORMAL_TRASH) else
  let cx := store cx pv WIKRT_UNIT_INR in
  let otag := Z.lor WIKRT_OTAG_TRASH (wikrt_ss_to_block_flags ss) in
  wikrt_wrap_otag fuel cx otag.

(** The local [ss] starts at 0 and is handed to [wikrt_drop_v] by
    address. *)
Definition wikrt_trash (fuel : nat) (cx : wikrt_cx) : outcome wikrt_cx :=
  if negb (wikrt_p (cx_val cx)) then Ret (wikrt_set_error cx WIKRT_ETYPE) else
  let pv := wikrt_pval (cx_val cx) in
  '(cx, ss) <- wikrt_drop_v fuel cx (load cx pv) (Some 0) ;;
  wikrt_erase_trashval fuel cx (match ss with Some s => s | None => 0 end).

(** [cx_two_spaces] with the active space used up: the block at 16 is
    live, the kilobyte behind it is garbage. *)
Definition cx_full_space : wikrt_cx :=
  mkcx (arena_of [(16, 24); (20, WIKRT_UNIT); (24, otag_linear_block);
                  (28, WIKRT_UNIT_INR)])
       WIKRT_OK 17 WIKRT_REG_PC_INIT WIKRT_REG_CC_INIT WIKRT_REG_TXN_INIT
       16 1040 1040 2048 1024 0 0 0 0 0.

(** ** Integers in and out ([wikrt.c], lines 1546-1700)

    [wikrt_int] is wide enough for every small integer
    ([WIKRT_INT_MAX > WIKRT_SMALLINT_MAX] is asserted), so the digit loops
    are written over [Z]; C's [/] and [%] are [Z.quot] and [Z.rem].
    Characters are their codes: ['0'] is 48 and ['-'] is 45.  A caller's
    [char] buffer is a map from offsets to characters. *)

Definition INT64_MIN : Z := - 2 ^ 63.

(** The cast [(int64_t) x]. *)
Definition signed64 (x : Z) : Z :=
  let u := x mod 2 ^ 64 in if u <? 2 ^ 63 then u else u - 2 ^ 64.

Definition wikrt_intro_i64 (fuel : nat) (cx : wikrt_cx) (n : Z) : outcome wikrt_cx :=
  let is_smallint := (WIKRT_SMALLINT_MIN <=? n) && (n <=? WIKRT_SMALLINT_MAX) in
  if is_smallint then wikrt_intro_smallval fuel cx (wikrt_i2v n)
  else Ret (wikrt_set_error cx WIKRT_IMPL).

Definition wikrt_cx_has_integer (cx : wikrt_cx) : bool :=
  wikrt_p (cx_val cx) && wikrt_integer (load cx (wikrt_pval (cx_val cx))).

(** The result and the out-parameter [*i32]. *)
Definition wikrt_peek_i32 (cx : wikrt_cx) : bool * Z :=
  if negb (wikrt_cx_has_integer cx) then (false, 0)
  else (true, signed32 (wikrt_v2i (load cx (wikrt_pval (cx_val cx))))).

Definition wikrt_peek_i64 (cx : wikrt_cx) : bool * Z :=
  if negb (wikrt_cx_has_integer cx) then (false, 0)
  else (true, signed64 (wikrt_v2i (load cx (wikrt_pval (cx_val cx))))).

(** [do { ++ct; n /= 10; } while(n > 0);] *)
Fixpoint decimal_size_loop (fuel : nat) (ct n : Z) : outcome Z :=
  match fuel with
  | O => OutOfFuel
  | S f =>
      let ct := ct + 1 in
      let n := Z.quot n 10 in
      if n >? 0 then decimal_size_loop f ct n else Ret ct
  end.

Definition wikrt_decimal_size (fuel : nat) (n : Z) : outcome Z :=
  decimal_size_loop fuel 0 n.

(** [do { WD(upperDigit); } while(0 != upperDigit);] with
    [WD(n)]: store ['0' + (n % 10)] at [--s], then [n /= 10]. *)
Fixpoint write_digits (fuel : nat) (buff : Z -> Z) (s n : Z) : outcome ((Z -> Z) * Z) :=
  match fuel with
  | O => OutOfFuel
  | S f =>
      let s := s - 1 in
      let buff := upd buff s (48 + Z.rem n 10) in
      let n := Z.quot n 10 in
      if negb (0 =? n) then write_digits f buff s n else Ret (buff, s)
  end.

(** The result, the buffer and the out-value of [*buffsz]. *)
Definition wikrt_peek_istr (fuel : nat) (cx : wikrt_cx) (buff : Z -> Z) (buffsz : Z)
  : outcome (bool * (Z -> Z) * Z) :=
  if negb (wikrt_cx_has_integer cx) then Ret (false, buff, 0) else
  let i := wikrt_v2i (load cx (wikrt_pval (cx_val cx))) in
  let positive := i >=? 0 in
  let upperDigit := if positive then i else - i in
  let buffsz_avail := buffsz in
  ct <- wikrt_decimal_size fuel upperDigit ;;
  let buffsz_min := (if positive then 0 else 1) + ct in
  if buffsz_min >? buffsz_avail then Ret (false, buff, buffsz_min) else
  '(buff, s) <- write_digits fuel buff buffsz_min upperDigit ;;
  let '(buff, s) := if negb positive then (upd buff (s - 1) 45, s - 1) else (buff, s) in
  if negb (0 =? s) then Abort else Ret (true, buff, buffsz_min).

Definition wikrt_digit_char (c : Z) : bool := (48 <=? c) && (c <=? 57).

(** The [do { ... } while((eos != s) && (0 != s[0]))] loop of
    [wikrt_valid_istr], entered on a non-empty rest: [None] is its
    [return false], otherwise the number of characters scanned so far and
    the rest of the input. *)
Fixpoint istr_digits (s : list Z) (k : Z) : option (Z * list Z) :=
  match s with
  | [] => Some (k, [])
  | c :: s' =>
      if negb (wikrt_digit_char c) then None else
      match s' with
      | [] => Some (k + 1, [])
      | c' :: _ => if 0 =? c' then Some (k + 1, s') else istr_digits s' (k + 1)
      end
  end.

(** The input is the [*len] characters from [s] on; the results are the
    answer and the out-value of [*len]. *)
Definition wikrt_valid_istr (s : list Z) : bool * Z :=
  let maxlen := Z.of_nat (length s) in
  let scan_done (k : Z) (rest : list Z) : bool * Z :=
    (match rest with [] => true | c :: _ => 0 =? c end, k) in
  match s with
  | [] => (false, maxlen)
  | c :: s1 =>
      if 48 =? c then scan_done 1 s1 else
      let '(k, s2) := if 45 =? c then (1, s1) else (0, s) in
      match s2 with
      | [] => (false, maxlen)
      | c2 :: _ =>
          if 48 =? c2 then (false, maxlen) else
          match istr_digits s2 k with
          | None => (false, maxlen)
          | Some (k', rest) => scan_done k' rest
          end
      end
  end.

(** [do { iAbs = (10 * iAbs) + (s[0] - '0'); } while(++s != eos);] over the
    characters between [s] and [eos]; at most 18 digits, so the [int64_t]
    accumulator does not overflow. *)
Definition istr_abs (digits : list Z) : Z :=
  fold_left (fun iAbs c => 10 * iAbs + (c - 48)) digits 0.

Definition wikrt_intro_istr (fuel : nat) (cx : wikrt_cx) (istr : list Z)
  : outcome wikrt_cx :=
  let '(ok, len) := wikrt_valid_istr istr in
  if negb ok then Ret (wikrt_set_error cx WIKRT_INVAL) else
  let str := firstn (Z.to_nat len) istr in
  let '(positive, digits) :=
    match str with
    | c :: r => if 45 =? c then (false, r) else (true, str)
    | [] => (true, str)
    end in
  if Z.of_nat (length digits) <=? 18 then
    match digits with
    | [] => Abort   (* the loop would read past [eos] *)
    | _ => wikrt_intro_i64 fuel cx (if positive then istr_abs digits else - istr_abs digits)
    end
  else Ret (wikrt_set_error cx WIKRT_IMPL).

(** The first [n] characters of a buffer. *)
Fixpoint buff_chars (buff : Z -> Z) (from : Z) (n : nat) : list Z :=
  match n with
  | O => []
  | S k => buff from :: buff_chars buff (from + 1) k
  end.

(** The grammar [0 | (-)?[1-9][0-9]*]. *)
Definition canonical_istr (s : list Z) : Prop :=
  s = [48] \/
  exists sign d ds,
    (sign = [] \/ sign = [45]) /\ 49 <= d <= 57 /\
    Forall (fun c => 48 <= c <= 57) ds /\ s = sign ++ d :: ds.

(** The decimal digits of a natural number, most significant first. *)
Fixpoint digits_of (fuel : nat) (n : Z) : list Z :=
  match fuel with
  | O => []
  | S f => if n <? 10 then [48 + n] else digits_of f (n / 10) ++ [48 + n mod 10]
  end.

(** What a caller reads back from a buffer filled by [wikrt_peek_istr]. *)
Definition istr_output (i : Z) (ds : list Z) : list Z :=
  (if i <? 0 then [45] else []) ++ ds.

(** ** Further sum primitives ([wikrt.c], lines 1209-1217) *)

(** The local [lr] is read after [wikrt_unwrap_sum_p] whether or not it
    was assigned; reading it unassigned ends the run. *)
Definition wikrt_accel_sum_swap (fuel : nat) (cx : wikrt_cx) : outcome wikrt_cx :=
  if negb (wikrt_p (cx_val cx)) then Ret (wikrt_set_error cx WIKRT_ETYPE) else
  '(cx, lr) <- wikrt_unwrap_sum_p fuel cx None ;;
  match lr with
  | None => Abort
  | Some lr =>
      let rl := match lr with WIKRT_INL => WIKRT_INR | WIKRT_INR => WIKRT_INL end in
      wikrt_wrap_sum_p fuel cx rl
  end.

(** ** The type of the top of the stack ([wikrt.c], lines 391-434) *)

Inductive wikrt_val_type : Type :=
| WIKRT_TYPE_UNDEF | WIKRT_TYPE_INT | WIKRT_TYPE_PROD | WIKRT_TYPE_UNIT
| WIKRT_TYPE_SUM | WIKRT_TYPE_BLOCK | WIKRT_TYPE_SEAL | WIKRT_TYPE_FUTURE
| WIKRT_TYPE_TRASH.

(** An unrecognized constant is reported on [stderr] and aborts. *)
Definition wikrt_typeof_const (v : Z) : outcome wikrt_val_type :=
  if WIKRT_UNIT =? v then Ret WIKRT_TYPE_UNIT
  else if WIKRT_NORMAL_TRASH =? v then Ret WIKRT_TYPE_TRASH
  else Abort.

Definition wikrt_peek_type (cx : wikrt_cx) : outcome wikrt_val_type :=
  let okPeek := wikrt_p (cx_val cx) && negb (wikrt_has_error cx) in
  if negb okPeek then Ret WIKRT_TYPE_UNDEF else
  let v := load cx (wikrt_pval (cx_val cx)) in
  let tag := wikrt_vtag v in
  if tag =? WIKRT_U then wikrt_typeof_const v
  else if tag =? WIKRT_P then Ret WIKRT_TYPE_PROD
  else if (tag =? WIKRT_UL) || (tag =? WIKRT_UR) || (tag =? WIKRT_PL) || (tag =? WIKRT_PR)
  then Ret WIKRT_TYPE_SUM
  else if tag =? WIKRT_I then Ret WIKRT_TYPE_INT
  else if tag =? WIKRT_O then
    let otag := load cx (wikrt_pobj v) in
    let lo := LOBYTE otag in
    if (lo =? WIKRT_OTAG_ARRAY) || (lo =? WIKRT_OTAG_BINARY) || (lo =? WIKRT_OTAG_UTF8)
       || (lo =? WIKRT_OTAG_DEEPSUM) then Ret WIKRT_TYPE_SUM
    else if lo =? WIKRT_OTAG_TRASH then Ret WIKRT_TYPE_TRASH
    else if lo =? WIKRT_OTAG_BLOCK then Ret WIKRT_TYPE_BLOCK
    else if (lo =? WIKRT_OTAG_SEAL_SM) || (lo =? WIKRT_OTAG_SEAL) then Ret WIKRT_TYPE_SEAL
    else if lo =? WIKRT_OTAG_PEND then Ret WIKRT_TYPE_FUTURE
    else Abort
  else Abort.

(** The type a value has by what it denotes; an operator value has none. *)
Definition aval_type (a : aval) : option wikrt_val_type :=
  match a with
  | AUnit => Some WIKRT_TYPE_UNIT
  | AInt _ => Some WIKRT_TYPE_INT
  | APair _ _ => Some WIKRT_TYPE_PROD
  | AInj _ _ => Some WIKRT_TYPE_SUM
  | AData (TBox otag _) =>
      let lo := LOBYTE otag in
      if lo =? WIKRT_OTAG_TRASH then Some WIKRT_TYPE_TRASH
      else if lo =? WIKRT_OTAG_BLOCK then Some WIKRT_TYPE_BLOCK
      else if lo =? WIKRT_OTAG_SEAL_SM then Some WIKRT_TYPE_SEAL
      else if lo =? WIKRT_OTAG_PEND then Some WIKRT_TYPE_FUTURE
      else None
  | AData (TSeal _ _ _) => Some WIKRT_TYPE_SEAL
  | AData _ => None
  end.

Definition flip_tag (s : wikrt_sum_tag) : wikrt_sum_tag :=
  match s with WIKRT_INL => WIKRT_INR | WIKRT_INR => WIKRT_INL end.

(** ** Binaries in ([wikrt.c], lines 1233-1258) *)

(** [memcpy] from a caller's buffer into the arena. *)
Fixpoint write_bytes (m : arena) (dst : Z) (data : list Z) : arena :=
  match data with
  | [] => m
  | b :: r => write_bytes (store8 m dst b) (dst + 1) r
  end.

Definition wikrt_intro_binary (fuel : nat) (cx : wikrt_cx) (data : list Z)
  : outcome wikrt_cx :=
  let len := Z.of_nat (length data) in
  if len >=? cx_size cx then Ret (wikrt_set_error cx WIKRT_CXFULL) else
  let szBuff := wikrt_cellbuff len in
  let szAlloc := wrap32 (3 * WIKRT_CELLSIZE + szBuff) in
  '(cx, ok) <- wikrt_mem_reserve fuel cx szAlloc ;;
  if negb ok then Ret cx else
  if 0 =? len then Ret (wikrt_intro_r cx WIKRT_UNIT_INR) else
  let '(cx, buff) := wikrt_alloc_r cx szBuff in
  let cx := set_arena cx (write_bytes (cx_arena cx) buff data) in
  let '(cx, hdr) := wikrt_alloc_r cx (2 * WIKRT_CELLSIZE) in
  let cx := store cx hdr WIKRT_OTAG_BINARY in
  let cx := store cx (hdr + 1 * sizeof_val) WIKRT_UNIT_INR in
  let cx := store cx (hdr + 2 * sizeof_val) (wrap32 len) in
  let cx := store cx (hdr + 3 * sizeof_val) buff in
  Ret (wikrt_intro_r cx (wikrt_tag_addr WIKRT_O hdr)).

(** [([] * unit)]: the identity block, with a plain header. *)
Definition cx_plain_block : wikrt_cx :=
  cx_of [(16, 24); (20, WIKRT_UNIT); (24, WIKRT_OTAG_BLOCK); (28, WIKRT_UNIT_INR)]
        17 16 32 1024.

(** A text as the list of its code points, as [wikrt_read_text] reads it. *)
Definition text_val (l : list Z) : Parse.val :=
  fold_right (fun cp t => Parse.VSum WIKRT_INL (Parse.VPair (Parse.VInt cp) t))
             (Parse.VSum WIKRT_INR Parse.VUnit) l.

(** ** Values with a hole

    A value around one of its subvalues: the path from the root of a tree
    to the place of a subtree, with everything beside the path. *)
Inductive tctx : Type :=
| CHole
| CHd (tag : Z) (c : tctx) (tl : tree)
| CTl (tag : Z) (hd : tree) (c : tctx)
| CBox (otag : Z) (c : tctx)
| CSeal (otag : Z) (name : list Z) (c : tctx)
| CBinary (otag : Z) (bytes : list Z) (c : tctx)
| CElem (otag : Z) (before : list tree) (c : tctx) (after : list tree) (next : tree)
| CNext (otag : Z) (elems : list tree) (c : tctx).

Fixpoint plug (c : tctx) (t : tree) : tree :=
  match c with
  | CHole => t
  | CHd tag c tl => TCell tag (plug c t) tl
  | CTl tag hd c => TCell tag hd (plug c t)
  | CBox otag c => TBox otag (plug c t)
  | CSeal otag name c => TSeal otag name (plug c t)
  | CBinary otag bytes c => TBinary otag bytes (plug c t)
  | CElem otag before c after next => TArray otag (before ++ plug c t :: after) next
  | CNext otag elems c => TArray otag elems (plug c t)
  end.

(** [([[linear block]] * unit)]: what [wikrt_quote] makes of the linear
    block, a plain block whose one operator is the block itself below an
    [OPVAL] wrapper that hides substructure. *)
Definition cx_quoted_block : wikrt_cx :=
  cx_of [(24, 32); (28, WIKRT_UNIT);
         (32, WIKRT_OTAG_BLOCK); (36, wikrt_tag_addr WIKRT_PL 40);
         (40, 48); (44, WIKRT_UNIT_INR);
         (48, otag_lazy_opval); (52, 56);
         (56, otag_linear_block); (60, WIKRT_UNIT_INR)]
        25 16 64 1024.

(** * Properties *)

(** ** Words, tags and small integers *)

Lemma lor_shiftl_low (n k t : Z) :
  0 <= k -> 0 <= t < 2 ^ k -> Z.lor (Z.shiftl n k) t = n * 2 ^ k + t.
Proof.
  intros Hk Ht.
  assert (Hland : Z.land (Z.shiftl n k) t = 0).
  { apply Z.bits_inj'. intros i Hi.
    rewrite Z.land_spec, Z.bits_0.
    destruct (Z.ltb_spec i k) as [Hlt | Hge].
    - rewrite Z.shiftl_spec_low by lia. reflexivity.
    - assert (Z.testbit t i = false) as ->; [ | apply andb_false_r ].
      destruct (Z.eq_dec t 0) as [-> | Hnz]; [ apply Z.bits_0 | ].
      apply Z.bits_above_log2; [ lia | ].
      apply Z.log2_lt_pow2; [ lia | ].
      assert (2 ^ k <= 2 ^ i) by (apply Z.pow_le_mono_r; lia). lia. }
  rewrite <- Z.lxor_lor by exact Hland.
  rewrite <- Z.add_nocarry_lxor by exact Hland.
  rewrite Z.shiftl_mul_pow2 by lia. reflexivity.
Qed.

Lemma vtag_mod (v : Z) : wikrt_vtag v = v mod 8.
Proof. unfold wikrt_vtag. change 7 with (Z.ones 3). apply Z.land_ones. lia. Qed.

Lemma vaddr_aligned (v : Z) : wikrt_vaddr v mod 8 = 0.
Proof.
  unfold wikrt_vaddr. rewrite <- vtag_mod. unfold wikrt_vtag.
  rewrite <- Z.land_assoc. change (Z.land (WIKRT_VAL_MAX - 7) 7) with 0.
  apply Z.land_0_r.
Qed.

Lemma i2v_value (n : Z) : wikrt_i2v n = (8 * n + 4) mod 2 ^ 32.
Proof.
  unfold wikrt_i2v, wrap32, WIKRT_I.
  rewrite (lor_shiftl_low n 3 4) by lia. f_equal. lia.
Qed.

Lemma i2v_smallint (n : Z) : wikrt_smallint (wikrt_i2v n) = true.
Proof.
  unfold wikrt_smallint, WIKRT_I. rewrite vtag_mod, i2v_value.
  apply Z.eqb_eq.
  rewrite (Z.mod_mod_divide _ (2 ^ 32) 8) by (exists (2 ^ 29); reflexivity).
  rewrite Z.add_comm, Z.mul_comm, Z.mod_add by lia. reflexivity.
Qed.

Definition smallint_range (n : Z) : Prop :=
  WIKRT_SMALLINT_MIN <= n <= WIKRT_SMALLINT_MAX.

Lemma smallint_range_bounds (n : Z) :
  smallint_range n <-> - (2 ^ 28 - 1) <= n <= 2 ^ 28 - 1.
Proof. unfold smallint_range, WIKRT_SMALLINT_MIN, WIKRT_SMALLINT_MAX. lia. Qed.

Ltac range_bounds :=
  unfold smallint_range, WIKRT_SMALLINT_MIN, WIKRT_SMALLINT_MAX in *.

Lemma signed32_small (x : Z) : - 2 ^ 31 <= x < 2 ^ 31 -> signed32 x = x.
Proof.
  intros H. unfold signed32.
  destruct (Z_lt_le_dec x 0) as [Hneg | Hpos].
  - replace (x mod 2 ^ 32) with (x + 2 ^ 32).
    + destruct (Z.ltb_spec (x + 2 ^ 32) (2 ^ 31)); lia.
    + apply Z.mod_unique with (q := -1); lia.
  - rewrite Z.mod_small by lia.
    destruct (Z.ltb_spec x (2 ^ 31)); lia.
Qed.

Lemma signed32_wrap (x : Z) : signed32 (x mod 2 ^ 32) = signed32 x.
Proof. unfold signed32. rewrite Z.mod_mod by lia. reflexivity. Qed.

Lemma v2i_i2v (n : Z) : - 2 ^ 28 <= n < 2 ^ 28 -> wikrt_v2i (wikrt_i2v n) = n.
Proof.
  intros H. unfold wikrt_v2i. rewrite i2v_value, signed32_wrap.
  rewrite signed32_small by lia.
  rewrite Z.shiftr_div_pow2 by lia.
  change (2 ^ 3) with 8.
  rewrite Z.add_comm, Z.mul_comm, Z.div_add by lia. reflexivity.
Qed.

Lemma i2v_zero_iff (n : Z) :
  - 2 ^ 28 <= n < 2 ^ 28 -> (WIKRT_IZERO = wikrt_i2v n <-> n = 0).
Proof.
  intros H. split.
  - intros E. apply (f_equal wikrt_v2i) in E.
    unfold WIKRT_IZERO in E. rewrite !v2i_i2v in E by lia. lia.
  - intros ->. reflexivity.
Qed.

(** The static assertions the integer code makes about the header. *)
Lemma static_assert_smallint :
  WIKRT_SMALLINT_MIN = - WIKRT_SMALLINT_MAX /\
  INT32_MAX >= 2 * WIKRT_SMALLINT_MAX /\
  WIKRT_SMALLINT_MAX < INT64_MAX / WIKRT_SMALLINT_MAX /\
  WIKRT_SMALLINT_MAX >= 1114111 /\
  WIKRT_PL = 1 + WIKRT_P /\ WIKRT_PR = 2 + WIKRT_P /\
  WIKRT_UL = 1 + WIKRT_U /\ WIKRT_UR = 2 + WIKRT_U.
Proof. repeat split; vm_compute; congruence. Qed.

(** ** The value stack seen through the accessors *)

(** The context's value register is a pair whose tail is a pair:
    [(x * (y * e))]. *)
Record stack2 (cx : wikrt_cx) : Prop := {
  s2_outer : wikrt_p (cx_val cx) = true;
  s2_inner : wikrt_p (load cx (wikrt_pval (cx_val cx) + sizeof_val)) = true
}.

(** The two cells of the spine are different cells (values are trees:
    spec section 3.3). *)
Definition spine_apart (cx : wikrt_cx) : Prop :=
  wikrt_pval (cx_val cx) <>
  wikrt_pval (load cx (wikrt_pval (cx_val cx) + sizeof_val)).

Definition stack_fst (cx : wikrt_cx) : Z := load cx (wikrt_pval (cx_val cx)).
Definition stack_tail (cx : wikrt_cx) : Z :=
  load cx (wikrt_pval (cx_val cx) + sizeof_val).
Definition stack_snd (cx : wikrt_cx) : Z := load cx (wikrt_pval (stack_tail cx)).
Definition stack_rest2 (cx : wikrt_cx) : Z :=
  load cx (wikrt_pval (stack_tail cx) + sizeof_val).

(** [(I(a) * (I(b) * e))] on the value stack. *)
Record two_ints (cx : wikrt_cx) (a b : Z) : Prop := {
  ti_shape : stack2 cx;
  ti_fst : stack_fst cx = wikrt_i2v a;
  ti_snd : stack_snd cx = wikrt_i2v b;
  ti_ra : smallint_range a;
  ti_rb : smallint_range b
}.

Lemma pval_plus4_ne (v w : Z) : wikrt_pval v + sizeof_val <> wikrt_pval w.
Proof.
  unfold wikrt_pval, sizeof_val. intros E.
  pose proof (vaddr_aligned v) as Hv. pose proof (vaddr_aligned w) as Hw.
  rewrite <- E in Hw.
  rewrite Z.add_mod, Hv in Hw by lia. vm_compute in Hw. discriminate.
Qed.

Lemma upd_same (m : arena) (a v : Z) : upd m a v a = v.
Proof. unfold upd. rewrite Z.eqb_refl. reflexivity. Qed.

Lemma upd_other (m : arena) (a v x : Z) : x <> a -> upd m a v x = m x.
Proof. unfold upd. intros H. destruct (Z.eqb_spec x a); congruence. Qed.

Lemma two_ints_check (cx : wikrt_cx) (a b : Z) :
  two_ints cx a b -> wikrt_cx_has_two_ints cx = true.
Proof.
  intros [[Ho Hi] Ha Hb _ _]. unfold wikrt_cx_has_two_ints.
  rewrite Ho, Hi. unfold wikrt_integer.
  unfold stack_fst in Ha. unfold stack_snd, stack_tail in Hb.
  rewrite Ha, Hb, !i2v_smallint. reflexivity.
Qed.

(** ** Integer arithmetic *)

Lemma smallint_divmod_floor (a b : Z) :
  b <> 0 -> wikrt_smallint_divmod a b = (a / b, a mod b).
Proof.
  intros Hb. unfold wikrt_smallint_divmod.
  pose proof (Z.quot_rem' a b) as Hqr.
  pose proof (Z.rem_bound_abs a b Hb) as Hrb.
  pose proof (Z.div_mod a b Hb) as Hdm.
  assert (Hbound : 0 <= a mod b < b \/ b < a mod b <= 0).
  { destruct (Z_lt_le_dec 0 b).
    - left. apply Z.mod_pos_bound. lia.
    - right. apply Z.mod_neg_bound. lia. }
  set (q := Z.quot a b) in *. set (r := Z.rem a b) in *.
  assert (Huniq : forall q' r', a = b * q' + r' ->
            (0 <= r' < b \/ b < r' <= 0) -> (q', r') = (a / b, a mod b)).
  { intros q' r' E Hr'.
    destruct (Z.div_mod_unique b q' (a / b) r' (a mod b) Hr' Hbound) as [-> ->];
      [ lia | reflexivity ]. }
  destruct (Z.gtb_spec b 0).
  - destruct (Z.ltb_spec r 0); apply Huniq; lia.
  - destruct (Z.gtb_spec r 0); apply Huniq; lia.
Qed.

Lemma floor_quot_range (a b : Z) :
  b <> 0 -> smallint_range a -> smallint_range b ->
  smallint_range (a / b) /\ smallint_range (a mod b).
Proof.
  intros Hb Ha Hr. range_bounds.
  assert (Hm : 0 <= a mod b < b \/ b < a mod b <= 0).
  { destruct (Z_lt_le_dec 0 b).
    - left. apply Z.mod_pos_bound. lia.
    - right. apply Z.mod_neg_bound. lia. }
  pose proof (Z.div_mod a b Hb) as Hdm.
  split; [ | lia ].
  set (q := a / b) in *. set (m := a mod b) in *.
  assert (Hq : - Z.abs a <= q <= Z.abs a).
  { destruct (Z_lt_le_dec 0 b); destruct (Z_lt_le_dec a 0); nia. }
  lia.
Qed.

Lemma pval_aligned (v : Z) : wikrt_pval v mod 8 = 0.
Proof. apply vaddr_aligned. Qed.

Ltac addr_ne := unfold sizeof_val in *; Z.div_mod_to_equations; lia.
Ltac upd_simpl :=
  repeat match goal with
  | |- context [upd ?m ?a ?v ?a] => rewrite (upd_same m a v)
  | |- context [upd ?m ?a ?v ?x] => rewrite (upd_other m a v x) by addr_ne
  end.

Lemma two_ints_v2i (cx : wikrt_cx) (a b : Z) :
  two_ints cx a b ->
  wikrt_v2i (load cx (wikrt_pval (cx_val cx))) = a /\
  wikrt_v2i (load cx (wikrt_pval (load cx (wikrt_pval (cx_val cx) + sizeof_val)))) = b.
Proof.
  intros [_ Ha Hb Ra Rb]. unfold stack_fst in Ha. unfold stack_snd, stack_tail in Hb.
  rewrite Ha, Hb. range_bounds. split; apply v2i_i2v; lia.
Qed.

Lemma set_error_fresh (cx : wikrt_cx) (e : wikrt_ecode) :
  cx_ecode cx = WIKRT_OK -> e <> WIKRT_OK -> wikrt_set_error cx e = set_ecode cx e.
Proof.
  intros Hok He. unfold wikrt_set_error, wikrt_has_error, wikrt_cx_relax.
  rewrite Hok. destruct e; simpl; congruence.
Qed.

Lemma mod_bound_either (a b : Z) :
  b <> 0 -> 0 <= a mod b < b \/ b < a mod b <= 0.
Proof.
  intros Hb. destruct (Z_lt_le_dec 0 b).
  - left. apply Z.mod_pos_bound. lia.
  - right. apply Z.mod_neg_bound. lia.
Qed.

(** C1. [wikrt_int_div] is floored division: on [(I(b) * (I(a) * e))] with
    [b <> 0] it leaves [(I(r) * (I(q) * e))] where [a = q*b + r], the
    remainder has the sign of the divisor or is zero, and [|r| < |b|]; the
    truncated C results are [q = a / b] and [r = a mod b] after repair. *)
Theorem int_div_floored (cx : wikrt_cx) (b a : Z) :
  cx_ecode cx = WIKRT_OK -> two_ints cx b a -> spine_apart cx -> b <> 0 ->
  exists q r,
    let cx' := wikrt_int_div cx in
    stack_fst cx' = wikrt_i2v r /\ stack_snd cx' = wikrt_i2v q /\
    cx_val cx' = cx_val cx /\ stack_tail cx' = stack_tail cx /\
    stack_rest2 cx' = stack_rest2 cx /\ cx_ecode cx' = WIKRT_OK /\
    smallint_range q /\ smallint_range r /\
    wikrt_v2i (wikrt_i2v q) = q /\ wikrt_v2i (wikrt_i2v r) = r /\
    a = q * b + r /\ (r = 0 \/ Z.sgn r = Z.sgn b) /\ 0 <= Z.abs r < Z.abs b /\
    q = a / b /\ r = a mod b.
Proof.
  intros Hok Hti Hapart Hb.
  exists (a / b), (a mod b).
  pose proof (two_ints_check _ _ _ Hti) as Hchk.
  destruct (two_ints_v2i _ _ _ Hti) as [Hvb Hva].
  destruct (floor_quot_range a b Hb (ti_rb _ _ _ Hti) (ti_ra _ _ _ Hti)) as [Rq Rr].
  assert (Hnz : (WIKRT_IZERO =? load cx (wikrt_pval (cx_val cx))) = false).
  { apply Z.eqb_neq. pose proof (ti_fst _ _ _ Hti) as Hf. unfold stack_fst in Hf.
    pose proof (ti_ra _ _ _ Hti) as Rb.
    rewrite Hf. intros E. apply i2v_zero_iff in E; [ lia | range_bounds; lia ]. }
  pose proof (mod_bound_either a b Hb) as Hm.
  pose proof (Z.div_mod a b Hb) as Hdm.
  unfold wikrt_int_div. rewrite Hchk. cbn [negb].
  rewrite Hnz, Hva, Hvb, smallint_divmod_floor by exact Hb.
  cbv beta iota zeta.
  unfold spine_apart in Hapart.
  unfold stack_fst, stack_snd, stack_rest2, stack_tail, store, load. cbn [cx_arena cx_val cx_ecode set_arena].
  pose proof (pval_aligned (cx_val cx)) as Al1.
  pose proof (pval_aligned (cx_arena cx (wikrt_pval (cx_val cx) + sizeof_val))) as Al2.
  unfold load in Hapart.
  set (po := wikrt_pval (cx_val cx)) in *.
  set (pi := wikrt_pval (cx_arena cx (po + sizeof_val))) in *.
  upd_simpl. fold pi. upd_simpl.
  pose proof (smallint_range_bounds (a / b)) as [Bq _].
  pose proof (smallint_range_bounds (a mod b)) as [Br _].
  specialize (Bq Rq). specialize (Br Rr).
  repeat split; try assumption; try reflexivity; try (apply v2i_i2v; lia);
    try lia; try apply Rq; try apply Rr.
Qed.

Lemma int_div_floored_witness :
  exists q r,
    stack_fst (wikrt_int_div cx_3_m11) = wikrt_i2v r /\
    stack_snd (wikrt_int_div cx_3_m11) = wikrt_i2v q /\
    q = -4 /\ r = 1.
Proof.
  destruct (int_div_floored cx_3_m11 3 (-11)) as (q & r & H).
  - reflexivity.
  - repeat split; vm_compute; congruence.
  - vm_compute. congruence.
  - lia.
  - exists q, r. cbv zeta in H.
    destruct H as (H1 & H2 & _ & _ & _ & _ & _ & _ & _ & _ & _ & _ & _ & Hq & Hr).
    repeat split; [ exact H1 | exact H2 | rewrite Hq; reflexivity | rewrite Hr; reflexivity ].
Defined.

Lemma range_leb (n : Z) :
  ((WIKRT_SMALLINT_MIN <=? n) && (n <=? WIKRT_SMALLINT_MAX)) = true <-> smallint_range n.
Proof.
  unfold smallint_range. rewrite andb_true_iff, !Z.leb_le. reflexivity.
Qed.

Lemma range_leb_false (n : Z) :
  ~ smallint_range n ->
  ((WIKRT_SMALLINT_MIN <=? n) && (n <=? WIKRT_SMALLINT_MAX)) = false.
Proof.
  intros H. destruct (_ && _) eqn:E; [ | reflexivity ].
  apply range_leb in E. contradiction.
Qed.

Lemma int_add_exact (cx : wikrt_cx) (a b : Z) :
  two_ints cx a b -> smallint_range (a + b) ->
  wikrt_int_add cx =
    set_val (store cx (wikrt_pval (stack_tail cx)) (wikrt_i2v (a + b))) (stack_tail cx).
Proof.
  intros Hti Hr.
  pose proof (two_ints_check _ _ _ Hti) as Hchk.
  destruct (two_ints_v2i _ _ _ Hti) as [Hva Hvb].
  pose proof (ti_ra _ _ _ Hti) as Ra. pose proof (ti_rb _ _ _ Hti) as Rb.
  unfold wikrt_int_add. rewrite Hchk. cbn [negb]. rewrite Hva, Hvb.
  rewrite signed32_small by (range_bounds; lia).
  cbv zeta. apply range_leb in Hr. rewrite Hr. reflexivity.
Qed.

Lemma int_add_overflow (cx : wikrt_cx) (a b : Z) :
  cx_ecode cx = WIKRT_OK -> two_ints cx a b -> ~ smallint_range (a + b) ->
  wikrt_int_add cx = set_ecode cx WIKRT_IMPL.
Proof.
  intros Hok Hti Hr.
  pose proof (two_ints_check _ _ _ Hti) as Hchk.
  destruct (two_ints_v2i _ _ _ Hti) as [Hva Hvb].
  pose proof (ti_ra _ _ _ Hti) as Ra. pose proof (ti_rb _ _ _ Hti) as Rb.
  unfold wikrt_int_add. rewrite Hchk. cbn [negb]. rewrite Hva, Hvb.
  rewrite signed32_small by (range_bounds; lia).
  cbv zeta. rewrite (range_leb_false _ Hr). cbn [negb].
  apply set_error_fresh; [ assumption | discriminate ].
Qed.

Lemma int_mul_exact (cx : wikrt_cx) (a b : Z) :
  two_ints cx a b -> smallint_range (a * b) ->
  wikrt_int_mul cx =
    set_val (store cx (wikrt_pval (stack_tail cx)) (wikrt_i2v (a * b))) (stack_tail cx).
Proof.
  intros Hti Hr.
  pose proof (two_ints_check _ _ _ Hti) as Hchk.
  destruct (two_ints_v2i _ _ _ Hti) as [Hva Hvb].
  unfold wikrt_int_mul. rewrite Hchk. cbn [negb]. rewrite Hva, Hvb.
  cbv zeta. apply range_leb in Hr. rewrite Hr. reflexivity.
Qed.

Lemma int_mul_overflow (cx : wikrt_cx) (a b : Z) :
  cx_ecode cx = WIKRT_OK -> two_ints cx a b -> ~ smallint_range (a * b) ->
  wikrt_int_mul cx = set_ecode cx WIKRT_IMPL.
Proof.
  intros Hok Hti Hr.
  pose proof (two_ints_check _ _ _ Hti) as Hchk.
  destruct (two_ints_v2i _ _ _ Hti) as [Hva Hvb].
  unfold wikrt_int_mul. rewrite Hchk. cbn [negb]. rewrite Hva, Hvb.
  cbv zeta. rewrite (range_leb_false _ Hr). cbn [negb].
  apply set_error_fresh; [ assumption | discriminate ].
Qed.

(** After the arithmetic result [n] was stored over the second integer and
    the value register advanced to the second cell. *)
Lemma binop_result_stack (cx : wikrt_cx) (n : Z) :
  smallint_range n ->
  let cx' := set_val (store cx (wikrt_pval (stack_tail cx)) (wikrt_i2v n))
                     (stack_tail cx) in
  cx_val cx' = stack_tail cx /\ stack_fst cx' = wikrt_i2v n /\
  wikrt_v2i (stack_fst cx') = n /\
  stack_tail cx' = stack_rest2 cx /\ cx_ecode cx' = cx_ecode cx.
Proof.
  intros Hr. cbv zeta.
  unfold stack_fst, stack_rest2, stack_tail, store, load.
  cbn [cx_arena cx_val cx_ecode set_val set_arena].
  pose proof (pval_aligned (cx_arena cx (wikrt_pval (cx_val cx) + sizeof_val))) as Al.
  upd_simpl. repeat split.
  apply v2i_i2v. range_bounds. lia.
Qed.

(** C9. Overflow and the division guard: [wikrt_int_add] and
    [wikrt_int_mul] on [(I(a) * (I(b) * e))] leave [(I(a+b) * e)] resp.
    [(I(a*b) * e)] when the exact result is a small integer, and latch
    [WIKRT_IMPL] (changing nothing else) when it is not; [wikrt_int_div]
    with a zero divisor latches [WIKRT_EDIV0]; adding one to
    [WIKRT_SMALLINT_MAX] latches [WIKRT_IMPL]. *)
Theorem int_overflow_and_div0 (cx : wikrt_cx) (a b : Z) :
  cx_ecode cx = WIKRT_OK -> two_ints cx a b ->
  (smallint_range (a + b) ->
     let cx' := wikrt_int_add cx in
     cx_val cx' = stack_tail cx /\ stack_fst cx' = wikrt_i2v (a + b) /\
     wikrt_v2i (stack_fst cx') = a + b /\
     stack_tail cx' = stack_rest2 cx /\ cx_ecode cx' = WIKRT_OK) /\
  (~ smallint_range (a + b) -> wikrt_int_add cx = set_ecode cx WIKRT_IMPL) /\
  (smallint_range (a * b) ->
     let cx' := wikrt_int_mul cx in
     cx_val cx' = stack_tail cx /\ stack_fst cx' = wikrt_i2v (a * b) /\
     wikrt_v2i (stack_fst cx') = a * b /\
     stack_tail cx' = stack_rest2 cx /\ cx_ecode cx' = WIKRT_OK) /\
  (~ smallint_range (a * b) -> wikrt_int_mul cx = set_ecode cx WIKRT_IMPL) /\
  (a = 0 -> wikrt_int_div cx = set_ecode cx WIKRT_EDIV0) /\
  (a = 1 -> b = WIKRT_SMALLINT_MAX -> cx_ecode (wikrt_int_add cx) = WIKRT_IMPL).
Proof.
  intros Hok Hti. repeat apply conj.
  - intros Hr. rewrite (int_add_exact _ _ _ Hti Hr).
    rewrite <- Hok. apply binop_result_stack. exact Hr.
  - apply int_add_overflow; assumption.
  - intros Hr. rewrite (int_mul_exact _ _ _ Hti Hr).
    rewrite <- Hok. apply binop_result_stack. exact Hr.
  - apply int_mul_overflow; assumption.
  - intros ->. pose proof (two_ints_check _ _ _ Hti) as Hchk.
    unfold wikrt_int_div. rewrite Hchk. cbn [negb].
    pose proof (ti_fst _ _ _ Hti) as Hf. unfold stack_fst in Hf. rewrite Hf.
    change (WIKRT_IZERO =? wikrt_i2v 0) with true. cbv iota.
    apply set_error_fresh; [ assumption | discriminate ].
  - intros Ha Hb. rewrite (int_add_overflow _ _ _ Hok Hti); [ reflexivity | ].
    subst a b. range_bounds. lia.
Qed.

Lemma int_overflow_and_div0_witness :
  cx_ecode (wikrt_int_add cx_1_max) = WIKRT_IMPL /\
  wikrt_int_div cx_0_7 = set_ecode cx_0_7 WIKRT_EDIV0 /\
  wikrt_v2i (stack_fst (wikrt_int_add cx_3_m11)) = -8 /\
  wikrt_v2i (stack_fst (wikrt_int_mul cx_3_m11)) = -33.
Proof.
  split; [ | split; [ | split ] ].
  - apply (int_overflow_and_div0 cx_1_max 1 WIKRT_SMALLINT_MAX);
      [ reflexivity | repeat split; vm_compute; congruence | reflexivity | reflexivity ].
  - apply (int_overflow_and_div0 cx_0_7 0 7);
      [ reflexivity | repeat split; vm_compute; congruence | reflexivity ].
  - apply (int_overflow_and_div0 cx_3_m11 3 (-11));
      [ reflexivity | repeat split; vm_compute; congruence
      | split; vm_compute; congruence ].
  - apply (int_overflow_and_div0 cx_3_m11 3 (-11));
      [ reflexivity | repeat split; vm_compute; congruence
      | split; vm_compute; congruence ].
Defined.

(** C10. [wikrt_int_cmp] is non-destructive: on [(I(a) * (I(b) * e))] it
    reports how [b] compares to [a] and returns the very same context
    (value register, arena, allocator and error register untouched). *)
Theorem int_cmp_nondestructive (cx : wikrt_cx) (a b : Z) (ord0 : wikrt_ord) :
  two_ints cx a b ->
  wikrt_int_cmp cx ord0 =
    (cx, if b >? a then WIKRT_GT else if b <? a then WIKRT_LT else WIKRT_EQ).
Proof.
  intros Hti.
  pose proof (two_ints_check _ _ _ Hti) as Hchk.
  destruct (two_ints_v2i _ _ _ Hti) as [Hva Hvb].
  unfold wikrt_int_cmp. rewrite Hchk. cbn [negb].
  rewrite Hva, Hvb. reflexivity.
Qed.

Lemma int_cmp_nondestructive_witness :
  wikrt_int_cmp cx_3_m11 WIKRT_EQ = (cx_3_m11, WIKRT_LT).
Proof.
  apply (int_cmp_nondestructive cx_3_m11 3 (-11) WIKRT_EQ).
  repeat split; vm_compute; congruence.
Defined.

(** ** Products *)

(** [((a * b) * c)]: the value register is a pair whose head is a pair. *)
Record stackL (cx : wikrt_cx) : Prop := {
  sl_outer : wikrt_p (cx_val cx) = true;
  sl_inner : wikrt_p (load cx (wikrt_pval (cx_val cx))) = true
}.

Definition head_apart (cx : wikrt_cx) : Prop :=
  wikrt_pval (cx_val cx) <> wikrt_pval (load cx (wikrt_pval (cx_val cx))).

(** [(a * (b * (c * d)))]. *)
Record stack3 (cx : wikrt_cx) : Prop := {
  s3_two : stack2 cx;
  s3_third : wikrt_p (stack_rest2 cx) = true
}.

Lemma cx_same_refl (cx : wikrt_cx) : cx_same cx cx.
Proof. repeat split. Qed.

Lemma cx_same_set_arena (cx : wikrt_cx) (m : arena) :
  (forall a, m a = cx_arena cx a) -> cx_same (set_arena cx m) cx.
Proof. intros H. repeat split. exact H. Qed.

Ltac arena_ext :=
  let x := fresh "x" in
  intros x; unfold upd;
  repeat match goal with
  | |- context [?a =? ?b] =>
      destruct (Z.eqb_spec a b); [ subst; try reflexivity; try congruence | ]
  end; try reflexivity.

Lemma assocl_exact (cx : wikrt_cx) :
  stack2 cx ->
  let x := wikrt_pval (cx_val cx) in
  let y := wikrt_pval (stack_tail cx) in
  wikrt_assocl cx =
    set_arena cx
      (upd (upd (upd (upd (cx_arena cx) x (stack_tail cx))
                     (x + sizeof_val)
                     (upd (cx_arena cx) x (stack_tail cx) (y + sizeof_val)))
                (y + sizeof_val)
                (upd (upd (cx_arena cx) x (stack_tail cx)) (x + sizeof_val)
                     (upd (cx_arena cx) x (stack_tail cx) (y + sizeof_val)) y))
           y (stack_fst cx)).
Proof.
  intros [Ho Hi]. cbv zeta. unfold wikrt_assocl, wikrt_assocl_v.
  rewrite Ho. fold (stack_tail cx). unfold stack_tail at 1. rewrite Hi.
  reflexivity.
Qed.

(** What [assocl] does when the two cells are distinct:
    [(a * (b * c))] becomes [((a * b) * c)]. *)
Lemma assocl_effect (cx : wikrt_cx) :
  stack2 cx -> spine_apart cx ->
  let cx' := wikrt_assocl cx in
  cx_val cx' = cx_val cx /\
  stack_fst cx' = stack_tail cx /\
  load cx' (wikrt_pval (stack_fst cx')) = stack_fst cx /\
  load cx' (wikrt_pval (stack_fst cx') + sizeof_val) = stack_snd cx /\
  stack_tail cx' = stack_rest2 cx /\
  cx_alloc cx' = cx_alloc cx /\ cx_ecode cx' = cx_ecode cx.
Proof.
  intros Hs Hap. cbv zeta. rewrite (assocl_exact cx Hs).
  unfold spine_apart in Hap.
  unfold stack_fst, stack_snd, stack_rest2, stack_tail, load in *.
  cbn [cx_arena cx_val cx_alloc cx_ecode set_arena].
  pose proof (pval_aligned (cx_val cx)) as Al1.
  pose proof (pval_aligned (cx_arena cx (wikrt_pval (cx_val cx) + sizeof_val))) as Al2.
  set (x := wikrt_pval (cx_val cx)) in *.
  set (y := wikrt_pval (cx_arena cx (x + sizeof_val))) in *.
  upd_simpl. fold y. upd_simpl. repeat split.
Qed.
Lemma assocr_exact (cx : wikrt_cx) :
  stackL cx ->
  let x := wikrt_pval (cx_val cx) in
  let y := wikrt_pval (stack_fst cx) in
  wikrt_assocr cx =
    set_arena cx
      (upd (upd (upd (upd (cx_arena cx) (x + sizeof_val) (stack_fst cx))
                     x
                     (upd (cx_arena cx) (x + sizeof_val) (stack_fst cx) y))
                y
                (upd (upd (cx_arena cx) (x + sizeof_val) (stack_fst cx)) x
                     (upd (cx_arena cx) (x + sizeof_val) (stack_fst cx) y)
                     (y + sizeof_val)))
           (y + sizeof_val) (stack_tail cx)).
Proof.
  intros [Ho Hi]. cbv zeta. unfold wikrt_assocr, wikrt_assocr_v.
  rewrite Ho. fold (stack_fst cx). unfold stack_fst at 1. rewrite Hi.
  reflexivity.
Qed.

(** What [assocr] does when the two cells are distinct:
    [((a * b) * c)] becomes [(a * (b * c))]. *)
Lemma assocr_effect (cx : wikrt_cx) :
  stackL cx -> head_apart cx ->
  let cx' := wikrt_assocr cx in
  cx_val cx' = cx_val cx /\
  stack_fst cx' = load cx (wikrt_pval (stack_fst cx)) /\
  stack_tail cx' = stack_fst cx /\
  stack_snd cx' = load cx (wikrt_pval (stack_fst cx) + sizeof_val) /\
  stack_rest2 cx' = stack_tail cx /\
  cx_alloc cx' = cx_alloc cx /\ cx_ecode cx' = cx_ecode cx.
Proof.
  intros Hs Hap. cbv zeta. rewrite (assocr_exact cx Hs).
  unfold head_apart in Hap.
  unfold stack_fst, stack_snd, stack_rest2, stack_tail, load in *.
  cbn [cx_arena cx_val cx_alloc cx_ecode set_arena].
  pose proof (pval_aligned (cx_val cx)) as Al1.
  pose proof (pval_aligned (cx_arena cx (wikrt_pval (cx_val cx)))) as Al2.
  set (x := wikrt_pval (cx_val cx)) in *.
  set (y := wikrt_pval (cx_arena cx x)) in *.
  upd_simpl. fold y. upd_simpl. repeat split.
Qed.

Lemma assocr_assocl_same (cx : wikrt_cx) :
  stack2 cx -> spine_apart cx -> cx_same (wikrt_assocr (wikrt_assocl cx)) cx.
Proof.
  intros Hs Hap.
  destruct (assocl_effect cx Hs Hap) as (Hv & Hf & _).
  assert (HL : stackL (wikrt_assocl cx)).
  { split; [ rewrite Hv; apply Hs
           | fold (stack_fst (wikrt_assocl cx)); rewrite Hf; apply Hs ]. }
  rewrite (assocr_exact _ HL). cbv zeta.
  rewrite Hf, Hv. unfold stack_tail at 1 3 5 7.
  rewrite (assocl_exact cx Hs). cbv zeta.
  unfold spine_apart in Hap.
  unfold stack_fst, stack_snd, stack_rest2, stack_tail, load in *.
  cbn [cx_arena cx_val cx_alloc cx_ecode set_arena].
  pose proof (pval_aligned (cx_val cx)) as Al1.
  pose proof (pval_aligned (cx_arena cx (wikrt_pval (cx_val cx) + sizeof_val))) as Al2.
  set (x := wikrt_pval (cx_val cx)) in *.
  set (y := wikrt_pval (cx_arena cx (x + sizeof_val))) in *.
  upd_simpl. fold y. upd_simpl.
  repeat split. cbn [cx_arena set_arena]. arena_ext.
Qed.

Lemma assocl_assocr_same (cx : wikrt_cx) :
  stackL cx -> head_apart cx -> cx_same (wikrt_assocl (wikrt_assocr cx)) cx.
Proof.
  intros Hs Hap.
  destruct (assocr_effect cx Hs Hap) as (Hv & _ & Ht & _).
  assert (H2 : stack2 (wikrt_assocr cx)).
  { split; [ rewrite Hv; apply Hs
           | fold (stack_tail (wikrt_assocr cx)); rewrite Ht; apply Hs ]. }
  rewrite (assocl_exact _ H2). cbv zeta.
  rewrite Ht, Hv. unfold stack_fst at 1 3 5 7 9.
  rewrite (assocr_exact cx Hs). cbv zeta.
  unfold head_apart in Hap.
  unfold stack_fst, stack_snd, stack_rest2, stack_tail, load in *.
  cbn [cx_arena cx_val cx_alloc cx_ecode set_arena].
  pose proof (pval_aligned (cx_val cx)) as Al1.
  pose proof (pval_aligned (cx_arena cx (wikrt_pval (cx_val cx)))) as Al2.
  set (x := wikrt_pval (cx_val cx)) in *.
  set (y := wikrt_pval (cx_arena cx x)) in *.
  upd_simpl. fold y. upd_simpl.
  repeat split. cbn [cx_arena set_arena]. arena_ext.
Qed.

Lemma pval_swap_twice (cx : wikrt_cx) (a b : Z) :
  cx_same (wikrt_pval_swap (wikrt_pval_swap cx a b) a b) cx.
Proof.
  unfold wikrt_pval_swap, store, load. cbn [cx_arena set_arena].
  repeat split. cbn [cx_arena set_arena].
  destruct (Z.eq_dec a b) as [-> | Hne].
  - upd_simpl. arena_ext.
  - rewrite (upd_same _ b), (upd_other _ b _ a), (upd_same _ a) by assumption.
    arena_ext.
Qed.

Lemma pval_swap_frame (cx : wikrt_cx) (a b x : Z) :
  x <> a -> x <> b -> load (wikrt_pval_swap cx a b) x = load cx x.
Proof.
  intros Ha Hb. unfold wikrt_pval_swap, store, load. cbn [cx_arena set_arena].
  rewrite !upd_other by assumption. reflexivity.
Qed.

Lemma wswap_v_twice (cx : wikrt_cx) (abc : Z) :
  wikrt_p abc = true ->
  wikrt_p (load cx (wikrt_pval abc + sizeof_val)) = true ->
  let cx' := wikrt_wswap_v cx abc in
  cx_same (wikrt_wswap_v cx' abc) cx /\
  (forall x, x mod 8 = 4 -> load cx' x = load cx x) /\
  cx_val cx' = cx_val cx /\ cx_alloc cx' = cx_alloc cx /\ cx_ecode cx' = cx_ecode cx.
Proof.
  intros Hp Hq. cbv zeta. unfold wikrt_wswap_v. rewrite Hp, Hq.
  pose proof (pval_aligned abc) as Al1.
  pose proof (pval_aligned (load cx (wikrt_pval abc + sizeof_val))) as Al2.
  assert (Hfr : forall x, x mod 8 = 4 ->
            load (wikrt_pval_swap cx (wikrt_pval abc)
                    (wikrt_pval (load cx (wikrt_pval abc + sizeof_val)))) x = load cx x).
  { intros x Hx. apply pval_swap_frame; addr_ne. }
  rewrite (Hfr (wikrt_pval abc + sizeof_val)) by addr_ne. rewrite Hq.
  split; [ apply (pval_swap_twice cx) | split; [ exact Hfr | repeat split ] ].
Qed.

(** C6. Product involutions: on a stack of the required shape (with the
    two re-threaded cells distinct), [assocl] then [assocr] and [assocr]
    then [assocl] give back the same context, as do [wswap] twice and
    [zswap] twice; every intermediate context has the allocator and the
    error register of the original (no allocation, no error). *)
Theorem product_involutions (cx : wikrt_cx) :
  (stack2 cx -> spine_apart cx ->
     cx_same (wikrt_assocr (wikrt_assocl cx)) cx /\
     cx_alloc (wikrt_assocl cx) = cx_alloc cx /\
     cx_ecode (wikrt_assocl cx) = cx_ecode cx) /\
  (stackL cx -> head_apart cx ->
     cx_same (wikrt_assocl (wikrt_assocr cx)) cx /\
     cx_alloc (wikrt_assocr cx) = cx_alloc cx /\
     cx_ecode (wikrt_assocr cx) = cx_ecode cx) /\
  (stack2 cx ->
     cx_same (wikrt_wswap (wikrt_wswap cx)) cx /\
     cx_alloc (wikrt_wswap cx) = cx_alloc cx /\
     cx_ecode (wikrt_wswap cx) = cx_ecode cx) /\
  (stack3 cx ->
     cx_same (wikrt_zswap (wikrt_zswap cx)) cx /\
     cx_alloc (wikrt_zswap cx) = cx_alloc cx /\
     cx_ecode (wikrt_zswap cx) = cx_ecode cx).
Proof.
  repeat apply conj.
  - intros Hs Hap. split; [ apply assocr_assocl_same; assumption | ].
    destruct (assocl_effect cx Hs Hap) as (_ & _ & _ & _ & _ & Ha & He).
    split; assumption.
  - intros Hs Hap. split; [ apply assocl_assocr_same; assumption | ].
    destruct (assocr_effect cx Hs Hap) as (_ & _ & _ & _ & _ & Ha & He).
    split; assumption.
  - intros [Ho Hi].
    destruct (wswap_v_twice cx (cx_val cx) Ho Hi) as (Hsame & _ & Hv & Ha & He).
    unfold wikrt_wswap at 1. fold (wikrt_wswap cx) in Hv. rewrite Hv.
    split; [ exact Hsame | split; assumption ].
  - intros [[Ho Hi] H3]. unfold stack_rest2, stack_tail in H3.
    destruct (wswap_v_twice cx _ Hi H3) as (Hsame & Hfr & Hv & Ha & He).
    assert (Hz : wikrt_zswap cx =
                 wikrt_wswap_v cx (load cx (wikrt_pval (cx_val cx) + sizeof_val))).
    { unfold wikrt_zswap. rewrite Ho. reflexivity. }
    rewrite Hz in *. unfold wikrt_zswap. rewrite Hv, Ho. cbn [negb].
    pose proof (pval_aligned (cx_val cx)) as Al.
    rewrite Hfr by addr_ne.
    split; [ exact Hsame | split; assumption ].
Qed.

Lemma product_involutions_witness :
  cx_same (wikrt_assocr (wikrt_assocl cx_123)) cx_123 /\
  cx_same (wikrt_assocl (wikrt_assocr cx_12_3)) cx_12_3 /\
  cx_same (wikrt_wswap (wikrt_wswap cx_123)) cx_123 /\
  cx_same (wikrt_zswap (wikrt_zswap cx_123)) cx_123.
Proof.
  destruct (product_involutions cx_123) as (H1 & _ & H3 & H4).
  destruct (product_involutions cx_12_3) as (_ & H2 & _ & _).
  split; [ | split; [ | split ] ].
  - apply H1; [ split; reflexivity | vm_compute; congruence ].
  - apply H2; [ split; reflexivity | vm_compute; congruence ].
  - apply H3. split; reflexivity.
  - apply H4. split; [ split | ]; reflexivity.
Defined.

(** On the example stack [assocl] really regroups: the head of
    [(1 * (2 * (3 * unit)))] becomes the pair [(1 * 2)]. *)
Example assocl_123 :
  let cx' := wikrt_assocl cx_123 in
  wikrt_p (stack_fst cx') = true /\
  wikrt_v2i (load cx' (wikrt_pval (stack_fst cx'))) = 1 /\
  wikrt_v2i (load cx' (wikrt_pval (stack_fst cx') + sizeof_val)) = 2 /\
  wikrt_v2i (stack_snd cx') = 3.
Proof. vm_compute. repeat split. Qed.

(** ** Trees in the arena *)

Section TreeInd.
Variable P : tree -> Prop.
Hypothesis Hconst : forall w, P (TConst w).
Hypothesis Hcell : forall tag a b, P a -> P b -> P (TCell tag a b).
Hypothesis Hbox : forall otag t, P t -> P (TBox otag t).
Hypothesis Hseal : forall otag name t, P t -> P (TSeal otag name t).
Hypothesis Hbinary : forall otag bytes t, P t -> P (TBinary otag bytes t).
Hypothesis Harray :
  forall otag elems t, Forall P elems -> P t -> P (TArray otag elems t).

Fixpoint tree_induction (t : tree) : P t :=
  match t with
  | TConst w => Hconst w
  | TCell tag a b => Hcell tag a b (tree_induction a) (tree_induction b)
  | TBox otag t => Hbox otag t (tree_induction t)
  | TSeal otag name t => Hseal otag name t (tree_induction t)
  | TBinary otag bytes t => Hbinary otag bytes t (tree_induction t)
  | TArray otag elems t =>
      Harray otag elems t
        ((fix all (l : list tree) : Forall P l :=
            match l with
            | [] => Forall_nil P
            | e :: l' => Forall_cons e (tree_induction e) (all l')
            end) elems)
        (tree_induction t)
  end.
End TreeInd.

Lemma copy_shallow_vtag (w : Z) :
  wikrt_copy_shallow w = negb (Z.land (wikrt_vtag w) 4 =? 0).
Proof.
  unfold wikrt_copy_shallow, wikrt_vtag.
  rewrite <- Z.land_assoc. reflexivity.
Qed.

Lemma rep_shallow (m : arena) (lo hi : Z) (t : tree) (w : Z) :
  rep m lo hi t w -> wikrt_copy_shallow w = is_const t.
Proof.
  destruct t; cbn [rep is_const]; intros H.
  - destruct H as [-> H]. exact H.
  - destruct H as (Ht & Hc & _). rewrite copy_shallow_vtag, Ht.
    destruct Hc as [-> | [-> | ->]]; reflexivity.
  - destruct H as (Ht & _). rewrite copy_shallow_vtag, Ht. reflexivity.
  - destruct H as (Ht & _). rewrite copy_shallow_vtag, Ht. reflexivity.
  - destruct H as (Ht & _). rewrite copy_shallow_vtag, Ht. reflexivity.
  - destruct H as (Ht & _). rewrite copy_shallow_vtag, Ht. reflexivity.
Qed.

Lemma load8_frame (m m' : arena) (lo hi a : Z) :
  (forall x, lo <= x < hi -> m' x = m x) ->
  lo mod 4 = 0 -> hi mod 4 = 0 -> lo <= a < hi ->
  load8 m' a = load8 m a.
Proof.
  intros Hf Hlo Hhi Ha. unfold load8. rewrite Hf; [ reflexivity | ].
  Z.div_mod_to_equations. lia.
Qed.

Lemma bytes_at_frame (m m' : arena) (lo hi : Z) (bs : list Z) (a : Z) :
  (forall x, lo <= x < hi -> m' x = m x) ->
  lo mod 4 = 0 -> hi mod 4 = 0 ->
  lo <= a -> a + Z.of_nat (length bs) <= hi ->
  bytes_at m a bs -> bytes_at m' a bs.
Proof.
  intros Hf Hlo Hhi. revert a.
  induction bs as [ | b bs IH ]; intros a Ha Hb H; cbn [bytes_at] in *; [ exact I | ].
  cbn [length] in Hb. rewrite Nat2Z.inj_succ in Hb.
  destruct H as [H1 H2]. split.
  - rewrite (load8_frame m m' lo hi a) by (assumption || lia). exact H1.
  - apply IH; [ lia | lia | exact H2 ].
Qed.

Lemma elems_at_weaken (R R' : tree -> Z -> Prop) (m m' : arena) (l : list tree) (a : Z) :
  Forall (fun e => forall w, R e w -> R' e w) l ->
  (forall i, 0 <= i < Z.of_nat (length l) -> m' (a + i * sizeof_val) = m (a + i * sizeof_val)) ->
  elems_at R m l a -> elems_at R' m' l a.
Proof.
  intros HF. revert a. induction HF as [ | e l He HF IH ]; intros a Hm H;
    cbn [elems_at] in *; [ exact I | ].
  destruct H as [H1 H2]. split.
  - specialize (Hm 0). rewrite Z.mul_0_l, Z.add_0_r in Hm.
    rewrite Hm by (cbn [length]; lia). apply He. exact H1.
  - apply IH; [ | exact H2 ].
    intros i Hi. specialize (Hm (i + 1)).
    replace (a + (i + 1) * sizeof_val) with (a + sizeof_val + i * sizeof_val) in Hm
      by (unfold sizeof_val; lia).
    apply Hm. cbn [length]. lia.
Qed.

(** A value only depends on the words of its own region. *)
Lemma rep_frame (m m' : arena) (lo hi : Z) :
  (forall x, lo <= x < hi -> m' x = m x) ->
  lo mod 4 = 0 -> hi mod 4 = 0 ->
  forall t w, rep m lo hi t w -> rep m' lo hi t w.
Proof.
  intros Hf Hlo Hhi t.
  induction t using tree_induction; intros w0 H0; cbn [rep] in *.
  - exact H0.
  - destruct H0 as (Ht & Hc & Hl & Hh & Ha & Hb).
    unfold WIKRT_CELLSIZE, sizeof_val in *.
    rewrite !Hf by lia. repeat split; auto.
  - destruct H0 as (Ht & Hl & Hh & Ho & Hbx & Hi).
    unfold WIKRT_CELLSIZE, sizeof_val in *.
    rewrite !Hf by lia. repeat split; auto.
  - destruct H0 as (Ht & Hl & Hh & Hh2 & Ho & Hlo8 & Hlen & Hby & Hi).
    unfold WIKRT_CELLSIZE, sizeof_val in *.
    assert (0 <= Z.of_nat (length name)) by lia.
    rewrite !Hf by lia. repeat split; auto.
    apply (bytes_at_frame m m' lo hi); auto; lia.
  - destruct H0 as (Ht & Hl & Hh & Ho & Hlo8 & Hlen & Hbl & Hbh & Hby & Hi).
    unfold WIKRT_CELLSIZE, sizeof_val in *.
    rewrite !Hf by lia. repeat split; auto.
    apply (bytes_at_frame m m' lo hi); auto; lia.
  - destruct H0 as (Ht & Hl & Hh & Ho & Hlo8 & Hlen & Hbl & Hbh & Hal & Hel & Hi).
    unfold WIKRT_CELLSIZE in *.
    assert (H4 : sizeof_val = 4) by reflexivity.
    rewrite !Hf by lia. repeat split; auto.
    eapply elems_at_weaken; [ | | exact Hel ].
    + exact H.
    + intros i Hi'. apply Hf. lia.
Qed.
(** ** Drop walks the whole value *)

Lemma nodes_pos (t : tree) : is_const t = false -> (1 <= nodes t)%nat.
Proof. destruct t; cbn; intros H; try discriminate; lia. Qed.

Lemma nodes_list_app (l1 l2 : list tree) :
  nodes_list (l1 ++ l2) = (nodes_list l1 + nodes_list l2)%nat.
Proof.
  unfold nodes_list. induction l1 as [ | t l1 IH ]; cbn; [ reflexivity | ].
  rewrite IH. lia.
Qed.

Lemma nodes_list_cons (t : tree) (l : list tree) :
  nodes_list (t :: l) = (nodes t + nodes_list l)%nat.
Proof. reflexivity. Qed.

Lemma nodes_list_rev (l : list tree) : nodes_list (rev l) = nodes_list l.
Proof.
  induction l as [ | t l IH ]; [ reflexivity | ].
  cbn [rev]. rewrite nodes_list_app, IH, !nodes_list_cons. cbn. lia.
Qed.

Lemma nodes_list_filter (l : list tree) :
  nodes_list (filter (fun t => negb (is_const t)) l) = nodes_list l.
Proof.
  induction l as [ | t l IH ]; [ reflexivity | ].
  cbn [filter]. destruct t; cbn [is_const negb]; rewrite ?nodes_list_cons, IH;
    reflexivity.
Qed.

Lemma nodes_pushed (cs : list tree) : nodes_list (pushed cs) = nodes_list cs.
Proof. unfold pushed. rewrite nodes_list_rev. apply nodes_list_filter. Qed.

Lemma tflags_list_app (l1 l2 : list tree) :
  tflags_list (l1 ++ l2) = Z.lor (tflags_list l1) (tflags_list l2).
Proof.
  unfold tflags_list. induction l1 as [ | t l1 IH ]; cbn; [ reflexivity | ].
  rewrite IH. apply Z.lor_assoc.
Qed.

Lemma tflags_list_rev (l : list tree) : tflags_list (rev l) = tflags_list l.
Proof.
  induction l as [ | t l IH ]; [ reflexivity | ].
  cbn [rev]. rewrite tflags_list_app, IH. unfold tflags_list. cbn.
  rewrite Z.lor_0_r. apply Z.lor_comm.
Qed.

Lemma tflags_list_filter (l : list tree) :
  tflags_list (filter (fun t => negb (is_const t)) l) = tflags_list l.
Proof.
  induction l as [ | t l IH ]; [ reflexivity | ].
  cbn [filter]. destruct t; cbn [is_const negb]; unfold tflags_list in *; cbn;
    rewrite IH; reflexivity.
Qed.

Lemma tflags_pushed (cs : list tree) : tflags_list (pushed cs) = tflags_list cs.
Proof. unfold pushed. rewrite tflags_list_rev. apply tflags_list_filter. Qed.

Lemma stack_up_length (m : arena) (lo hi s : Z) (ts : list tree) :
  stack_up m lo hi s ts -> (length ts <= nodes_list ts)%nat.
Proof.
  revert s. induction ts as [ | t ts IH ]; intros s H; cbn [stack_up] in H.
  - cbn. lia.
  - destruct H as (Hc & _ & Hs). rewrite nodes_list_cons. cbn [length].
    pose proof (nodes_pos t Hc). specialize (IH _ Hs). lia.
Qed.

Lemma stack_up_frame (m m' : arena) (lo hi : Z) :
  lo mod 4 = 0 -> hi mod 4 = 0 ->
  forall ts s,
  (forall x, lo <= x < hi -> m' x = m x) ->
  (forall i, 0 < i <= Z.of_nat (length ts) ->
             m' (s - i * sizeof_val) = m (s - i * sizeof_val)) ->
  stack_up m lo hi s ts -> stack_up m' lo hi s ts.
Proof.
  intros Hlo Hhi ts. induction ts as [ | t ts IH ]; intros s Hf Hs H;
    cbn [stack_up] in *; [ exact I | ].
  destruct H as (Hc & Hr & Hrest). split; [ exact Hc | split ].
  - specialize (Hs 1). rewrite Z.mul_1_l in Hs. rewrite Hs by (cbn [length]; lia).
    apply (rep_frame m m' lo hi); assumption.
  - apply IH; [ exact Hf | | exact Hrest ].
    intros i Hi. specialize (Hs (i + 1)).
    replace (s - (i + 1) * sizeof_val) with (s - sizeof_val - i * sizeof_val) in Hs
      by (unfold sizeof_val; lia).
    apply Hs. cbn [length]. lia.
Qed.

Lemma stack_up_app (m : arena) (lo hi : Z) (l1 l2 : list tree) (s : Z) :
  stack_up m lo hi s (l1 ++ l2) <->
  stack_up m lo hi s l1 /\
  stack_up m lo hi (s - Z.of_nat (length l1) * sizeof_val) l2.
Proof.
  revert s. induction l1 as [ | t l1 IH ]; intros s; cbn [app stack_up length].
  - rewrite Z.mul_0_l, Z.sub_0_r. tauto.
  - rewrite IH.
    replace (s - sizeof_val - Z.of_nat (length l1) * sizeof_val)
      with (s - Z.of_nat (S (length l1)) * sizeof_val)
      by (rewrite Nat2Z.inj_succ; unfold sizeof_val; lia).
    tauto.
Qed.

(** Pushing one child. *)
Lemma add_drop_task_spec (m : arena) (lo hi s : Z) (t : tree) (w : Z) (ts : list tree) :
  lo mod 4 = 0 -> hi mod 4 = 0 ->
  rep m lo hi t w -> stack_up m lo hi s ts ->
  (is_const t = false -> s + sizeof_val <= lo \/ hi <= s) ->
  exists m' s',
    wikrt_add_drop_task m s w = (m', s') /\
    s' = s + Z.of_nat (length (pushed [t])) * sizeof_val /\
    stack_up m' lo hi s' (pushed [t] ++ ts) /\
    (forall x, x <> s -> m' x = m x) /\
    (is_const t = true -> m' = m).
Proof.
  intros Hlo Hhi Hr Hs Hd. unfold wikrt_add_drop_task.
  rewrite (rep_shallow _ _ _ _ _ Hr).
  destruct (is_const t) eqn:Hc.
  - exists m, s. unfold pushed. cbn [filter]. rewrite Hc. cbn.
    repeat split; auto. lia.
  - exists (upd m s w), (s + sizeof_val). unfold pushed. cbn [filter].
    rewrite Hc. cbn [negb rev app length stack_up].
    specialize (Hd eq_refl).
    assert (Hfr : forall x, lo <= x < hi -> upd m s w x = m x).
    { intros x Hx. apply upd_other. unfold sizeof_val in *. lia. }
    replace (s + sizeof_val - sizeof_val) with s by lia.
    split; [ reflexivity | ].
    split; [ unfold sizeof_val; lia | ].
    split; [ split; [ exact Hc | split ] | split ].
    + rewrite upd_same. apply (rep_frame m _ lo hi); assumption.
    + apply (stack_up_frame m _ lo hi); try assumption.
      intros i Hi. apply upd_other. unfold sizeof_val. lia.
    + intros x Hx. apply upd_other. exact Hx.
    + discriminate.
Qed.
Lemma ss_or_0 (ss : option Z) : ss_or ss 0 = ss.
Proof. destruct ss; cbn; [ rewrite Z.lor_0_r | ]; reflexivity. Qed.

Lemma ss_or_or (ss : option Z) (a b : Z) :
  ss_or (ss_or ss a) b = ss_or ss (Z.lor a b).
Proof. destruct ss; cbn; [ rewrite Z.lor_assoc | ]; reflexivity. Qed.

Lemma capture_block_ss_or (otag : Z) (ss : option Z) :
  wikrt_capture_block_ss otag ss =
  ss_or ss (Z.land (Z.shiftr otag 8) (Z.lor WIKRT_SS_REL WIKRT_SS_AFF)).
Proof. destruct ss; reflexivity. Qed.

(** Decide the closed comparisons left after a header byte is known. *)
Ltac eval_eqb :=
  repeat match goal with
  | |- context [?a =? ?b] =>
      let r := eval vm_compute in (a =? b) in
      lazymatch r with
      | true => change (a =? b) with true
      | false => change (a =? b) with false
      end
  end;
  cbn [orb andb negb].

Lemma box_otag_cases (otag : Z) :
  box_otag otag = true ->
  LOBYTE otag = WIKRT_OTAG_TRASH \/ LOBYTE otag = WIKRT_OTAG_BLOCK \/
  LOBYTE otag = WIKRT_OTAG_OPVAL \/ LOBYTE otag = WIKRT_OTAG_UTF8 \/
  LOBYTE otag = WIKRT_OTAG_PEND \/ LOBYTE otag = WIKRT_OTAG_SEAL_SM \/
  LOBYTE otag = WIKRT_OTAG_DEEPSUM.
Proof.
  unfold box_otag. rewrite !orb_true_iff, !Z.eqb_eq. tauto.
Qed.

Lemma drop_elems_spec (lo hi : Z) :
  lo mod 4 = 0 -> hi mod 4 = 0 ->
  forall (elems : list tree) (m : arena) (s parray ii : Z) (ts : list tree),
  elems_at (rep m lo hi) m elems (parray + ii * sizeof_val) ->
  lo <= parray + ii * sizeof_val ->
  parray + ii * sizeof_val + Z.of_nat (length elems) * sizeof_val <= hi ->
  stack_up m lo hi s ts ->
  (s + Z.of_nat (length (pushed elems)) * sizeof_val <= lo \/ hi <= s) ->
  exists m' s',
    drop_elems (length elems) m s parray ii = (m', s') /\
    s' = s + Z.of_nat (length (pushed elems)) * sizeof_val /\
    stack_up m' lo hi s' (pushed elems ++ ts) /\
    (forall x, (x < s \/ s' <= x) -> m' x = m x).
Proof.
  intros Hlo Hhi elems.
  induction elems as [ | e elems IH ]; intros m s parray ii ts He Hbl Hbh Hs Hd.
  - exists m, s. cbn. repeat split; auto. lia.
  - cbn [elems_at] in He. destruct He as [He1 He2].
    cbn [length drop_elems].
    assert (Hpe : pushed (e :: elems) = pushed elems ++ pushed [e]).
    { unfold pushed. cbn [filter]. destruct (negb (is_const e)); cbn [rev app].
      - reflexivity.
      - rewrite app_nil_r. reflexivity. }
    rewrite Hpe, length_app, Nat2Z.inj_add in Hd.
    destruct (add_drop_task_spec m lo hi s e _ ts Hlo Hhi He1 Hs)
      as (m1 & s1 & E1 & Es1 & Hs1 & Hf1 & Hm1).
    { intros Hc. unfold pushed in *. cbn [filter] in *. rewrite Hc in *.
      cbn [negb rev app length] in *. unfold sizeof_val in *. lia. }
    rewrite E1.
    assert (Hfr : forall x, lo <= x < hi -> m1 x = m x).
    { intros x Hx. destruct (is_const e) eqn:Hc.
      - rewrite (Hm1 eq_refl). reflexivity.
      - apply Hf1. unfold pushed in *. cbn [filter] in *. rewrite Hc in *.
        cbn [negb rev app length] in *. unfold sizeof_val in *. lia. }
    destruct (IH m1 s1 parray (ii + 1) (pushed [e] ++ ts)) as (m2 & s2 & E2 & Es2 & Hs2 & Hf2).
    + replace (parray + (ii + 1) * sizeof_val)
        with (parray + ii * sizeof_val + sizeof_val) by (unfold sizeof_val; lia).
      eapply elems_at_weaken; [ | | exact He2 ].
      * apply Forall_forall. intros t _ w Hw.
        apply (rep_frame m m1 lo hi); assumption.
      * intros i Hi. apply Hfr. cbn [length] in Hbh. unfold sizeof_val in *. lia.
    + unfold sizeof_val in *. lia.
    + cbn [length] in Hbh. unfold sizeof_val in *. lia.
    + exact Hs1.
    + subst s1. unfold sizeof_val in *. lia.
    + exists m2, s2. rewrite E2. split; [ reflexivity | ].
      rewrite Hpe, length_app, Nat2Z.inj_add. subst s2 s1.
      split; [ unfold sizeof_val; lia | ].
      split; [ rewrite <- app_assoc; exact Hs2 | ].
      intros x Hx. rewrite Hf2 by (unfold sizeof_val in *; lia).
      destruct (is_const e) eqn:Hc.
      * rewrite (Hm1 eq_refl). reflexivity.
      * apply Hf1. unfold pushed in Hx. cbn [filter] in Hx. rewrite Hc in Hx.
        cbn [negb rev app length] in Hx. unfold sizeof_val in *. lia.
Qed.
Lemma pushed_two (a b : tree) : pushed [a; b] = pushed [b] ++ pushed [a].
Proof.
  unfold pushed. cbn [filter].
  destruct (negb (is_const a)), (negb (is_const b)); reflexivity.
Qed.

Lemma pushed_length_le (cs : list tree) :
  (length (pushed cs) <= nodes_list cs)%nat.
Proof.
  unfold pushed. rewrite length_rev.
  induction cs as [ | t cs IH ]; [ cbn; lia | ].
  cbn [filter]. rewrite nodes_list_cons.
  destruct (is_const t) eqn:Hc; cbn [negb length].
  - lia.
  - pose proof (nodes_pos t Hc). lia.
Qed.

Lemma pushed_one_length (t : tree) :
  (length (pushed [t]) <= nodes t)%nat.
Proof.
  unfold pushed. cbn [filter]. destruct (is_const t) eqn:Hc; cbn [negb rev app length].
  - lia.
  - pose proof (nodes_pos t Hc). lia.
Qed.

Lemma nodes_list_one (t : tree) : nodes_list [t] = nodes t.
Proof. unfold nodes_list. cbn. lia. Qed.

Lemma tflags_list_one (t : tree) : tflags_list [t] = tflags t.
Proof. unfold tflags_list. cbn. apply Z.lor_0_r. Qed.

Lemma tflags_list_cons (t : tree) (l : list tree) :
  tflags_list (t :: l) = Z.lor (tflags t) (tflags_list l).
Proof. reflexivity. Qed.

(** Push one child of the object on top of the walk's stack. *)
Lemma drop_push_one (lo hi : Z) (m : arena) (s : Z) (t : tree) (w : Z)
    (ts : list tree) (N : nat) :
  lo mod 4 = 0 -> hi mod 4 = 0 ->
  rep m lo hi t w -> stack_up m lo hi s ts ->
  (length ts + nodes t <= N)%nat ->
  (s - Z.of_nat (length ts) * sizeof_val + Z.of_nat N * sizeof_val <= lo \/
   hi <= s - Z.of_nat (length ts) * sizeof_val) ->
  exists m' s',
    wikrt_add_drop_task m s w = (m', s') /\
    s' = s + Z.of_nat (length (pushed [t])) * sizeof_val /\
    stack_up m' lo hi s' (pushed [t] ++ ts) /\
    (forall x, (x < s \/ s' <= x) -> m' x = m x).
Proof.
  intros Hlo Hhi Hr Hs HN Hd.
  pose proof (pushed_one_length t) as Hp.
  destruct (add_drop_task_spec m lo hi s t w ts Hlo Hhi Hr Hs)
    as (m1 & s1 & E1 & Es1 & Hs1 & Hf1 & Hm1).
  { intros Hc. pose proof (nodes_pos t Hc). unfold sizeof_val in *. lia. }
  exists m1, s1. repeat split; try assumption.
  intros x Hx. destruct (is_const t) eqn:Hc.
  - rewrite (Hm1 eq_refl). reflexivity.
  - apply Hf1. unfold pushed in Es1. cbn [filter] in Es1. rewrite Hc in Es1.
    cbn [negb rev app length] in Es1. unfold sizeof_val in *. lia.
Qed.

(** The statement proved for walks of at most [n] objects. *)
Definition drop_ok (lo hi : Z) (n : nat) : Prop :=
  forall (ts : list tree) (m : arena) (s0 : Z) (ss : option Z) (fuel : nat),
  (nodes_list ts <= n)%nat -> (nodes_list ts < fuel)%nat ->
  stack_up m lo hi (s0 + Z.of_nat (length ts) * sizeof_val) ts ->
  (s0 + Z.of_nat (nodes_list ts) * sizeof_val <= lo \/ hi <= s0) ->
  exists m',
    drop_loop fuel m s0 (s0 + Z.of_nat (length ts) * sizeof_val) ss
      = Ret (m', ss_or ss (tflags_list ts)) /\
    (forall x, (x < s0 \/ s0 + Z.of_nat (nodes_list ts) * sizeof_val <= x) -> m' x = m x).

(** Push the children [cs] (already on the stack in [m1]) and finish. *)
Lemma drop_children (lo hi : Z) (n : nat) :
  drop_ok lo hi n ->
  forall (cs ts : list tree) (m m1 : arena) (s0 s' : Z) (ss : option Z) (f : nat),
  (nodes_list cs + nodes_list ts <= n)%nat ->
  (nodes_list cs + nodes_list ts < f)%nat ->
  s' = s0 + Z.of_nat (length (pushed cs ++ ts)) * sizeof_val ->
  stack_up m1 lo hi s' (pushed cs ++ ts) ->
  (forall x, (x < s0 + Z.of_nat (length ts) * sizeof_val \/ s' <= x) -> m1 x = m x) ->
  (s0 + Z.of_nat (S (nodes_list cs + nodes_list ts)) * sizeof_val <= lo \/ hi <= s0) ->
  (length ts <= nodes_list ts)%nat ->
  exists m',
    drop_loop f m1 s0 s' ss = Ret (m', ss_or ss (Z.lor (tflags_list cs) (tflags_list ts))) /\
    (forall x, (x < s0 \/
                s0 + Z.of_nat (S (nodes_list cs + nodes_list ts)) * sizeof_val <= x) ->
               m' x = m x).
Proof.
  intros IH cs ts m m1 s0 s' ss f Hn Hf Es Hst Hfr Hd Hlen.
  assert (Hnl : nodes_list (pushed cs ++ ts) = (nodes_list cs + nodes_list ts)%nat).
  { rewrite nodes_list_app, nodes_pushed. reflexivity. }
  subst s'.
  destruct (IH (pushed cs ++ ts) m1 s0 ss f) as (m2 & E & Hf2).
  { lia. } { lia. } { exact Hst. } { rewrite Hnl. unfold sizeof_val in *. lia. }
  exists m2. rewrite E. split.
  - rewrite tflags_list_app, tflags_pushed. reflexivity.
  - intros x Hx. rewrite Hf2 by (rewrite Hnl; unfold sizeof_val in *; lia).
    apply Hfr. pose proof (pushed_length_le cs).
    rewrite length_app, Nat2Z.inj_add. unfold sizeof_val in *. lia.
Qed.

(** An object with a single child behind its header. *)
Lemma drop_one_child (lo hi : Z) (n : nat) :
  lo mod 4 = 0 -> hi mod 4 = 0 -> drop_ok lo hi n ->
  forall (c : tree) (w : Z) (ts : list tree) (m : arena) (s0 : Z) (ss : option Z) (f : nat),
  rep m lo hi c w ->
  stack_up m lo hi (s0 + Z.of_nat (length ts) * sizeof_val) ts ->
  (nodes c + nodes_list ts <= n)%nat ->
  (nodes c + nodes_list ts < f)%nat ->
  (s0 + Z.of_nat (S (nodes c + nodes_list ts)) * sizeof_val <= lo \/ hi <= s0) ->
  exists m',
    (let '(m1, s1) := wikrt_add_drop_task m (s0 + Z.of_nat (length ts) * sizeof_val) w in
     drop_loop f m1 s0 s1 ss) = Ret (m', ss_or ss (Z.lor (tflags c) (tflags_list ts))) /\
    (forall x, (x < s0 \/ s0 + Z.of_nat (S (nodes c + nodes_list ts)) * sizeof_val <= x) ->
               m' x = m x).
Proof.
  intros Hlo Hhi IH c w ts m s0 ss f Hr Hst Hn Hf Hd.
  pose proof (stack_up_length _ _ _ _ _ Hst) as Hlen.
  destruct (drop_push_one lo hi m _ c w ts (nodes c + nodes_list ts) Hlo Hhi Hr Hst)
    as (m1 & s1 & E1 & Es1 & Hs1 & Hf1).
  { lia. } { unfold sizeof_val in *. lia. }
  rewrite E1.
  destruct (drop_children lo hi n IH [c] ts m m1 s0 s1 ss f) as (m2 & E2 & Hf2);
    rewrite ?nodes_list_one; try assumption.
  - rewrite Es1, length_app, Nat2Z.inj_add. unfold sizeof_val. lia.
  - exists m2. rewrite E2, tflags_list_one. split; [ reflexivity | ].
    rewrite nodes_list_one in Hf2. exact Hf2.
Qed.
Lemma pushed_app (l1 l2 : list tree) : pushed (l1 ++ l2) = pushed l2 ++ pushed l1.
Proof. unfold pushed. rewrite filter_app, rev_app_distr. reflexivity. Qed.

Lemma drop_loop_ok (lo hi : Z) :
  lo mod 4 = 0 -> hi mod 4 = 0 -> forall n, drop_ok lo hi n.
Proof.
  intros Hlo Hhi n. induction n as [ | n IH ]; intros ts m s0 ss fuel Hn Hfuel Hst Hd.
  - destruct ts as [ | t ts ].
    + destruct fuel as [ | f ]; [ lia | ]. exists m. cbn [drop_loop length].
      rewrite Z.mul_0_l, Z.add_0_r, Z.eqb_refl. unfold tflags_list. cbn.
      rewrite ss_or_0. split; [ reflexivity | auto ].
    + exfalso. cbn [stack_up] in Hst. destruct Hst as (Hc & _).
      pose proof (nodes_pos t Hc). rewrite nodes_list_cons in Hn. lia.
  - destruct ts as [ | t ts ].
    + destruct fuel as [ | f ]; [ lia | ]. exists m. cbn [drop_loop length].
      rewrite Z.mul_0_l, Z.add_0_r, Z.eqb_refl. unfold tflags_list. cbn.
      rewrite ss_or_0. split; [ reflexivity | auto ].
    + destruct fuel as [ | f ]; [ lia | ].
      cbn [stack_up] in Hst. destruct Hst as (Hc & Hr & Hst).
      rewrite nodes_list_cons in *.
      pose proof (stack_up_length _ _ _ _ _ Hst) as Hlen.
      cbn [length] in *. rewrite Nat2Z.inj_succ in *.
      replace (s0 + Z.succ (Z.of_nat (length ts)) * sizeof_val)
        with (s0 + Z.of_nat (length ts) * sizeof_val + sizeof_val) in *
        by (unfold sizeof_val; lia).
      replace (s0 + Z.of_nat (length ts) * sizeof_val + sizeof_val - sizeof_val)
        with (s0 + Z.of_nat (length ts) * sizeof_val) in * by lia.
      cbn [drop_loop].
      assert (Hne : (s0 =? s0 + Z.of_nat (length ts) * sizeof_val + sizeof_val) = false).
      { apply Z.eqb_neq. unfold sizeof_val. lia. }
      rewrite Hne.
      replace (s0 + Z.of_nat (length ts) * sizeof_val + sizeof_val - sizeof_val)
        with (s0 + Z.of_nat (length ts) * sizeof_val) by lia.
      set (s1 := s0 + Z.of_nat (length ts) * sizeof_val) in *.
      set (v := m s1) in *.
      rewrite tflags_list_cons.
      destruct t as [ c | tag a b | otag inner | otag name inner | otag bytes next
                      | otag elems next ]; [ discriminate Hc | | | | | ].
      * (* pair cell *)
        cbn [rep] in Hr. destruct Hr as (Ht & Htag & Hl & Hh & Ha & Hb).
        assert (Hno : negb (WIKRT_O =? wikrt_vtag v) = true).
        { rewrite Ht. destruct Htag as [-> | [-> | ->]]; reflexivity. }
        rewrite Hno. cbn [nodes tflags] in *.
        destruct (drop_push_one lo hi m s1 a _ ts (nodes a + nodes b + nodes_list ts)
                    Hlo Hhi Ha Hst) as (m1 & s2 & E1 & Es2 & Hs2 & Hf1).
        { lia. }
        { subst s1. unfold sizeof_val in *. lia. }
        rewrite E1.
        assert (Hfr1 : forall x, lo <= x < hi -> m1 x = m x).
        { intros x Hx. apply Hf1. subst s1. pose proof (pushed_one_length a).
          unfold sizeof_val in *. lia. }
        rewrite (Hfr1 (wikrt_pval v + sizeof_val))
          by (unfold WIKRT_CELLSIZE, sizeof_val in *; lia).
        destruct (drop_push_one lo hi m1 s2 b _ (pushed [a] ++ ts)
                    (nodes a + nodes b + nodes_list ts)
                    Hlo Hhi (rep_frame m m1 lo hi Hfr1 Hlo Hhi _ _ Hb) Hs2)
          as (m2 & s3 & E2 & Es3 & Hs3 & Hf2).
        { rewrite length_app. pose proof (pushed_one_length a). lia. }
        { rewrite length_app, Nat2Z.inj_add. subst s2 s1. unfold sizeof_val in *. lia. }
        rewrite E2.
        assert (Hnl : nodes_list [a; b] = (nodes a + nodes b)%nat).
        { unfold nodes_list. cbn. lia. }
        destruct (drop_children lo hi n IH [a; b] ts m m2 s0 s3 ss f) as (m3 & E3 & Hf3);
          rewrite ?Hnl; try assumption; try lia.
        -- rewrite pushed_two, !length_app, !Nat2Z.inj_add. subst s3 s2 s1.
           unfold sizeof_val. lia.
        -- rewrite pushed_two, <- app_assoc. exact Hs3.
        -- intros x Hx. rewrite Hf2, Hf1; [ reflexivity | | ].
           ++ subst s2 s1. unfold sizeof_val in *. lia.
           ++ subst s2 s1. unfold sizeof_val in *. lia.
        -- exists m3. rewrite E3. split; [ | rewrite Hnl in Hf3; exact Hf3 ].
           unfold tflags_list. cbn. rewrite !Z.lor_0_r. reflexivity.
      * (* (otag, value) objects *)
        cbn [rep] in Hr. destruct Hr as (Ht & Hl & Hh & Ho & Hbx & Hi).
        unfold wikrt_pobj in *. fold (wikrt_pval v) in *.
        assert (Hno : negb (WIKRT_O =? wikrt_vtag v) = false) by (rewrite Ht; reflexivity).
        rewrite Hno, Ho. cbn [nodes] in *.
        assert (Hone : forall ss',
                  exists m',
                    (let '(m1, s2) := wikrt_add_drop_task m s1 (m (wikrt_pval v + sizeof_val)) in
                     drop_loop f m1 s0 s2 ss')
                      = Ret (m', ss_or ss' (Z.lor (tflags inner) (tflags_list ts))) /\
                    (forall x, (x < s0 \/
                                s0 + Z.of_nat (S (nodes inner + nodes_list ts)) * sizeof_val <= x) ->
                               m' x = m x)).
        { intros ss'. apply (drop_one_child lo hi n Hlo Hhi IH); try assumption; lia. }
        destruct (box_otag_cases otag Hbx) as [Hk | [Hk | [Hk | [Hk | [Hk | [Hk | Hk]]]]]];
          cbn [tflags]; rewrite Hk; eval_eqb; cbv iota.
        -- (* TRASH *)
           destruct (Hone (wikrt_capture_block_ss otag ss)) as (m' & E & Hf).
           exists m'. rewrite E. split; [ | exact Hf ].
           rewrite capture_block_ss_or, ss_or_or, Z.lor_assoc. reflexivity.
        -- (* BLOCK *)
           destruct (Hone (wikrt_capture_block_ss otag ss)) as (m' & E & Hf).
           exists m'. rewrite E. split; [ | exact Hf ].
           rewrite capture_block_ss_or, ss_or_or, Z.lor_assoc. reflexivity.
        -- (* OPVAL *)
           destruct (is_some ss && wikrt_opval_hides_ss otag) eqn:Hh'.
           ++ apply andb_true_iff in Hh'. destruct Hh' as [Hss Hhide]. rewrite Hhide.
              (* the nested walk, on the stack above [s1] *)
              destruct (drop_one_child lo hi n Hlo Hhi IH inner
                          (m (wikrt_pval v + sizeof_val)) [] m s1 None f)
                as (m1 & E1 & Hf1); try assumption.
              { cbn [stack_up]. exact I. }
              { unfold nodes_list at 1. cbn. lia. }
              { unfold nodes_list at 1. cbn. lia. }
              { unfold nodes_list at 1. cbn [map fold_right].
                subst s1. unfold sizeof_val in *. lia. }
              cbn [length] in E1. rewrite Z.mul_0_l, Z.add_0_r in E1.
              destruct (wikrt_add_drop_task m s1 (m (wikrt_pval v + sizeof_val)))
                as [mA sA] eqn:EA.
              rewrite E1. cbn [bind].
              unfold nodes_list at 1 in Hf1. cbn [map fold_right] in Hf1.
              destruct (IH ts m1 s0 ss f) as (m2 & E2 & Hf2).
              { lia. } { lia. }
              { fold s1. apply (stack_up_frame m m1 lo hi); try assumption.
                - intros x Hx. apply Hf1. subst s1. unfold sizeof_val in *. lia.
                - intros i Hi'. apply Hf1. unfold sizeof_val. lia. }
              { unfold sizeof_val in *. lia. }
              fold s1 in E2. exists m2. rewrite E2. split.
              ** rewrite Z.lor_0_l. reflexivity.
              ** intros x Hx. rewrite Hf2 by (unfold sizeof_val in *; lia).
                 apply Hf1. subst s1. unfold sizeof_val in *. lia.
           ++ destruct (Hone ss) as (m' & E & Hf).
              exists m'. rewrite E. split; [ | exact Hf ].
              destruct ss as [ s | ]; [ | reflexivity ].
              cbn [is_some andb] in Hh'. rewrite Hh'. reflexivity.
        -- (* UTF8 *)
           destruct (Hone ss) as (m' & E & Hf). exists m'. rewrite E. split; [ reflexivity | exact Hf ].
        -- (* PEND *)
           destruct (Hone (ss_or ss WIKRT_SS_PEND)) as (m' & E & Hf).
           exists m'. rewrite E. split; [ | exact Hf ].
           rewrite ss_or_or, Z.lor_assoc. reflexivity.
        -- (* SEAL_SM *)
           destruct (Hone ss) as (m' & E & Hf). exists m'. rewrite E. split; [ reflexivity | exact Hf ].
        -- (* DEEPSUM *)
           destruct (Hone ss) as (m' & E & Hf). exists m'. rewrite E. split; [ reflexivity | exact Hf ].
      * (* SEAL *)
        cbn [rep] in Hr. destruct Hr as (Ht & Hl & Hh & Hh2 & Ho & Hk & Hlen' & Hby & Hi).
        unfold wikrt_pobj in *. fold (wikrt_pval v) in *.
        assert (Hno : negb (WIKRT_O =? wikrt_vtag v) = false) by (rewrite Ht; reflexivity).
        rewrite Hno, Ho, Hk. eval_eqb. cbv iota. cbn [nodes tflags] in *.
        destruct (drop_one_child lo hi n Hlo Hhi IH inner _ ts m s0 ss f Hi Hst)
          as (m' & E & Hf); try lia.
        fold s1 in E. exists m'. rewrite E. split; [ reflexivity | exact Hf ].
      * (* BINARY *)
        cbn [rep] in Hr.
        destruct Hr as (Ht & Hl & Hh & Ho & Hk & Hlen' & Hbl & Hbh & Hby & Hi).
        unfold wikrt_pobj in *. fold (wikrt_pval v) in *.
        assert (Hno : negb (WIKRT_O =? wikrt_vtag v) = false) by (rewrite Ht; reflexivity).
        rewrite Hno, Ho, Hk. eval_eqb. cbv iota. cbn [nodes tflags] in *.
        destruct (drop_one_child lo hi n Hlo Hhi IH next _ ts m s0 ss f Hi Hst)
          as (m' & E & Hf); try lia.
        fold s1 in E. exists m'. rewrite E. split; [ reflexivity | exact Hf ].
      * (* ARRAY *)
        cbn [rep] in Hr.
        destruct Hr as (Ht & Hl & Hh & Ho & Hk & Hlen' & Hbl & Hbh & Hal & Hel & Hi).
        unfold wikrt_pobj in *. fold (wikrt_pval v) in *.
        assert (Hno : negb (WIKRT_O =? wikrt_vtag v) = false) by (rewrite Ht; reflexivity).
        rewrite Hno, Ho, Hk. eval_eqb. cbv iota. cbn [nodes tflags] in *.
        fold (nodes_list elems) in *. fold (tflags_list elems).
        rewrite Hlen', Nat2Z.id.
        destruct (drop_elems_spec lo hi Hlo Hhi elems m s1
                    (m (wikrt_pval v + 3 * sizeof_val)) 0 ts)
          as (m1 & s2 & E1 & Es2 & Hs2 & Hf1).
        { rewrite Z.mul_0_l, Z.add_0_r. exact Hel. }
        { lia. } { lia. } { exact Hst. }
        { pose proof (pushed_length_le elems). subst s1. unfold sizeof_val in *. lia. }
        rewrite E1.
        assert (Hfr1 : forall x, lo <= x < hi -> m1 x = m x).
        { intros x Hx. apply Hf1. pose proof (pushed_length_le elems).
          subst s2 s1. unfold sizeof_val in *. lia. }
        rewrite (Hfr1 (wikrt_pval v + sizeof_val))
          by (unfold WIKRT_CELLSIZE, sizeof_val in *; lia).
        destruct (drop_push_one lo hi m1 s2 next _ (pushed elems ++ ts)
                    (nodes_list elems + nodes next + nodes_list ts)
                    Hlo Hhi (rep_frame m m1 lo hi Hfr1 Hlo Hhi _ _ Hi) Hs2)
          as (m2 & s3 & E2 & Es3 & Hs3 & Hf2).
        { rewrite length_app. pose proof (pushed_length_le elems). lia. }
        { rewrite length_app, Nat2Z.inj_add. subst s2 s1. unfold sizeof_val in *. lia. }
        rewrite E2.
        assert (Hnl : nodes_list (elems ++ [next]) = (nodes_list elems + nodes next)%nat).
        { rewrite nodes_list_app, nodes_list_one. reflexivity. }
        destruct (drop_children lo hi n IH (elems ++ [next]) ts m m2 s0 s3 ss f)
          as (m3 & E3 & Hf3); rewrite ?Hnl; try assumption; try lia.
        -- rewrite pushed_app, !length_app, !Nat2Z.inj_add. subst s3 s2 s1.
           unfold sizeof_val. lia.
        -- rewrite pushed_app, <- app_assoc. exact Hs3.
        -- intros x Hx. rewrite Hf2, Hf1; [ reflexivity | | ].
           ++ subst s2 s1. unfold sizeof_val in *. lia.
           ++ subst s2 s1. unfold sizeof_val in *. lia.
        -- exists m3. rewrite E3. split; [ | rewrite Hnl in Hf3; exact Hf3 ].
           rewrite tflags_list_app, tflags_list_one. reflexivity.
Qed.

(** ** Drop and reset *)

Lemma drop_sv_spec (lo hi : Z) (cx : wikrt_cx) (s0 v0 : Z) (t : tree)
    (ss : option Z) (fuel : nat) :
  lo mod 4 = 0 -> hi mod 4 = 0 ->
  rep (cx_arena cx) lo hi t v0 ->
  (s0 + Z.of_nat (S (nodes t)) * sizeof_val <= lo \/ hi <= s0) ->
  (nodes t < fuel)%nat ->
  exists m',
    wikrt_drop_sv fuel cx s0 v0 ss = Ret (set_arena cx m', ss_or ss (tflags t)) /\
    (forall x, (x < s0 \/ s0 + Z.of_nat (S (nodes t)) * sizeof_val <= x) ->
               m' x = cx_arena cx x).
Proof.
  intros Hlo Hhi Hr Hd Hf. unfold wikrt_drop_sv.
  destruct (drop_one_child lo hi (nodes t) Hlo Hhi (drop_loop_ok lo hi Hlo Hhi _)
              t v0 [] (cx_arena cx) s0 ss fuel) as (m' & E & Hfr); try assumption.
  - cbn [stack_up]. exact I.
  - unfold nodes_list. cbn. lia.
  - unfold nodes_list. cbn. lia.
  - unfold nodes_list. cbn [map fold_right]. rewrite Nat.add_0_r. exact Hd.
  - cbn [length] in E. rewrite Z.mul_0_l, Z.add_0_r in E.
    destruct (wikrt_add_drop_task (cx_arena cx) s0 v0) as [m1 s1].
    rewrite E. cbn [bind]. exists m'.
    unfold tflags_list, nodes_list in *. cbn [map fold_right] in *.
    rewrite Z.lor_0_r. split; [ reflexivity | ].
    intros x Hx. apply Hfr. rewrite Nat.add_0_r. exact Hx.
Qed.

(** The primitives that are plain functions of the context. *)
Inductive pure_prim : (wikrt_cx -> wikrt_cx) -> Prop :=
| pp_elim_unit : pure_prim wikrt_elim_unit
| pp_elim_unit_r : pure_prim wikrt_elim_unit_r
| pp_wswap : pure_prim wikrt_wswap
| pp_zswap : pure_prim wikrt_zswap
| pp_assocl : pure_prim wikrt_assocl
| pp_assocr : pure_prim wikrt_assocr
| pp_wzlw : pure_prim wikrt_accel_wzlw
| pp_wrzw : pure_prim wikrt_accel_wrzw
| pp_swap : pure_prim wikrt_accel_swap
| pp_int_add : pure_prim wikrt_int_add
| pp_int_mul : pure_prim wikrt_int_mul
| pp_int_neg : pure_prim wikrt_int_neg
| pp_int_div : pure_prim wikrt_int_div.

Lemma set_error_latched (cx : wikrt_cx) (e : wikrt_ecode) :
  cx_ecode cx <> WIKRT_OK -> wikrt_set_error cx e = cx.
Proof.
  intros H. unfold wikrt_set_error, wikrt_has_error.
  destruct (cx_ecode cx); try congruence; reflexivity.
Qed.

Lemma set_error_ecode (cx : wikrt_cx) (e : wikrt_ecode) :
  cx_ecode cx <> WIKRT_OK -> cx_ecode (wikrt_set_error cx e) = cx_ecode cx.
Proof. intros H. rewrite set_error_latched by assumption. reflexivity. Qed.

Lemma pure_prim_keeps_code (op : wikrt_cx -> wikrt_cx) (cx : wikrt_cx) :
  pure_prim op -> cx_ecode cx <> WIKRT_OK -> cx_ecode (op cx) = cx_ecode cx.
Proof.
  intros Hop H.
  destruct Hop;
    unfold wikrt_elim_unit, wikrt_elim_unit_r, wikrt_wswap, wikrt_zswap, wikrt_assocl,
      wikrt_assocr, wikrt_accel_wzlw, wikrt_accel_wrzw, wikrt_accel_swap,
      wikrt_int_add, wikrt_int_mul, wikrt_int_neg, wikrt_int_div,
      wikrt_wswap_v, wikrt_assocl_v, wikrt_assocr_v, wikrt_pval_swap;
    repeat match goal with
    | |- context [if ?c then _ else _] => destruct c
    | |- context [let '(_, _) := ?p in _] => destruct p
    end;
    try reflexivity; apply set_error_ecode; assumption.
Qed.
(** More fuel does not change the result of a walk. *)
Lemma drop_loop_mono (f : nat) :
  forall m s0 s ss r, drop_loop f m s0 s ss = Ret r ->
  forall f', (f <= f')%nat -> drop_loop f' m s0 s ss = Ret r.
Proof.
  induction f as [ | f IH ]; intros m s0 s ss r H f' Hle; [ discriminate H | ].
  destruct f' as [ | f' ]; [ lia | ].
  assert (Hle' : (f <= f')%nat) by lia.
  cbn [drop_loop] in *.
  repeat match goal with
  | H : context [if ?c then _ else _] |- _ => destruct c eqn:?
  | H : context [let '(_, _) := ?p in _] |- _ => destruct p eqn:?
  end;
  try exact H; try (apply (IH _ _ _ _ _ H _ Hle')).
  all: match goal with
       | H : bind (drop_loop ?g ?a ?b ?c ?d) _ = Ret _ |- _ =>
           destruct (drop_loop g a b c d) as [ [m1 x1] | | ] eqn:E;
           cbn [bind] in H; try discriminate H;
           rewrite (IH _ _ _ _ _ E _ Hle'); cbn [bind];
           apply (IH _ _ _ _ _ H _ Hle')
       end.
Qed.

Lemma drop_v_ret_fields (fuel : nat) (cx cx' : wikrt_cx) (v : Z) (ss ss' : option Z) :
  wikrt_drop_v fuel cx v ss = Ret (cx', ss') ->
  exists m', cx' = set_arena cx m'.
Proof.
  unfold wikrt_drop_v, wikrt_drop_sv.
  destruct (wikrt_add_drop_task _ _ _) as [m s].
  destruct (drop_loop fuel m (cx_ssp cx) s ss) as [ [m' ss''] | | ]; cbn [bind];
    intros H; inversion H. exists m'. reflexivity.
Qed.

(** Whenever [wikrt_cx_reset] returns, the error register is clear and the
    registers hold their initial values. *)
Lemma reset_clears (fuel : nat) (cx cx' : wikrt_cx) :
  wikrt_cx_reset fuel cx = Ret cx' ->
  cx_ecode cx' = WIKRT_OK /\ cx_val cx' = WIKRT_REG_VAL_INIT /\
  cx_pc cx' = WIKRT_REG_PC_INIT /\ cx_cc cx' = WIKRT_REG_CC_INIT /\
  cx_txn cx' = WIKRT_REG_TXN_INIT /\ cx_alloc cx' = cx_alloc cx.
Proof.
  unfold wikrt_cx_reset, wikrt_drop_txn.
  destruct (wikrt_drop_v fuel cx (cx_txn cx) None) as [ [c1 s1] | | ] eqn:E1;
    cbn [bind]; try discriminate.
  destruct (drop_v_ret_fields _ _ _ _ _ _ E1) as [m1 ->].
  match goal with |- context [wikrt_drop_v fuel ?c ?v None] =>
    destruct (wikrt_drop_v fuel c v None) as [ [c2 s2] | | ] eqn:E2 end;
    cbn [bind]; try discriminate.
  destruct (drop_v_ret_fields _ _ _ _ _ _ E2) as [m2 ->].
  match goal with |- context [wikrt_drop_v fuel ?c ?v None] =>
    destruct (wikrt_drop_v fuel c v None) as [ [c3 s3] | | ] eqn:E3 end;
    cbn [bind]; try discriminate.
  destruct (drop_v_ret_fields _ _ _ _ _ _ E3) as [m3 ->].
  match goal with |- context [wikrt_drop_v fuel ?c ?v None] =>
    destruct (wikrt_drop_v fuel c v None) as [ [c4 s4] | | ] eqn:E4 end;
    cbn [bind]; try discriminate.
  destruct (drop_v_ret_fields _ _ _ _ _ _ E4) as [m4 ->].
  intros H. inversion H. cbn. repeat split.
Qed.

(** The four root registers hold well-formed values, away from the scratch
    space that the walks use as their stack. *)
Record roots_ok (cx : wikrt_cx) (lo hi : Z) (tt tv tc tp : tree) : Prop := {
  ro_lo : lo mod 4 = 0;
  ro_hi : hi mod 4 = 0;
  ro_txn : rep (cx_arena cx) lo hi tt (cx_txn cx);
  ro_val : rep (cx_arena cx) lo hi tv (cx_val cx);
  ro_cc : rep (cx_arena cx) lo hi tc (cx_cc cx);
  ro_pc : rep (cx_arena cx) lo hi tp (cx_pc cx);
  ro_scratch :
    cx_ssp cx + Z.of_nat (S (nodes tt + nodes tv + nodes tc + nodes tp)) * sizeof_val <= lo
    \/ hi <= cx_ssp cx
}.

Lemma drop_v_root (lo hi : Z) (cx : wikrt_cx) (v : Z) (t : tree) (N fuel : nat) :
  lo mod 4 = 0 -> hi mod 4 = 0 ->
  rep (cx_arena cx) lo hi t v ->
  (nodes t <= N)%nat -> (N < fuel)%nat ->
  (cx_ssp cx + Z.of_nat (S N) * sizeof_val <= lo \/ hi <= cx_ssp cx) ->
  exists m',
    wikrt_drop_v fuel cx v None = Ret (set_arena cx m', None) /\
    (forall x, lo <= x < hi -> m' x = cx_arena cx x).
Proof.
  intros Hlo Hhi Hr HN Hf Hd. unfold wikrt_drop_v.
  destruct (drop_sv_spec lo hi cx (cx_ssp cx) v t None fuel Hlo Hhi Hr) as (m' & E & Hfr).
  - unfold sizeof_val in *. lia.
  - lia.
  - exists m'. split; [ exact E | ].
    intros x Hx. apply Hfr. unfold sizeof_val in *. lia.
Qed.

Lemma drop_v_mono (f f' : nat) (cx : wikrt_cx) (v : Z) (ss : option Z) r :
  wikrt_drop_v f cx v ss = Ret r -> (f <= f')%nat -> wikrt_drop_v f' cx v ss = Ret r.
Proof.
  unfold wikrt_drop_v, wikrt_drop_sv.
  destruct (wikrt_add_drop_task _ _ _) as [m s].
  destruct (drop_loop f m (cx_ssp cx) s ss) as [ p | | ] eqn:E; cbn [bind];
    try discriminate.
  intros H Hle. rewrite (drop_loop_mono _ _ _ _ _ _ E _ Hle). exact H.
Qed.

(** With well-formed roots [wikrt_cx_reset] returns, given enough fuel. *)
Lemma reset_returns (cx : wikrt_cx) (lo hi : Z) (tt tv tc tp : tree) :
  roots_ok cx lo hi tt tv tc tp ->
  exists cx',
    forall fuel, (nodes tt + nodes tv + nodes tc + nodes tp < fuel)%nat ->
                 wikrt_cx_reset fuel cx = Ret cx'.
Proof.
  intros [Hlo Hhi Ht Hv Hc Hp Hs].
  set (N := (nodes tt + nodes tv + nodes tc + nodes tp)%nat) in *.
  assert (Hstep : forall (c : wikrt_cx) (v : Z) (t : tree),
            cx_ssp c = cx_ssp cx -> (nodes t <= N)%nat ->
            rep (cx_arena c) lo hi t v ->
            exists m', (forall fuel, (N < fuel)%nat ->
                          wikrt_drop_v fuel c v None = Ret (set_arena c m', None)) /\
                       (forall x, lo <= x < hi -> m' x = cx_arena c x)).
  { intros c v t Hssp Hn Hr.
    destruct (drop_v_root lo hi c v t N (S N) Hlo Hhi Hr Hn) as (m' & E & Hfr);
      [ lia | rewrite Hssp; exact Hs | ].
    exists m'. split; [ | exact Hfr ].
    intros fuel Hfuel. apply (drop_v_mono (S N)); [ exact E | lia ]. }
  destruct (Hstep cx (cx_txn cx) tt eq_refl ltac:(lia) Ht) as (m1 & E1 & F1).
  set (c1 := set_roots (set_arena cx m1) (cx_val cx) (cx_pc cx) (cx_cc cx) WIKRT_REG_TXN_INIT).
  destruct (Hstep c1 (cx_val cx) tv eq_refl ltac:(lia)) as (m2 & E2 & F2).
  { apply (rep_frame (cx_arena cx) m1 lo hi); assumption. }
  set (c2 := set_val (set_arena c1 m2) WIKRT_REG_VAL_INIT).
  destruct (Hstep c2 (cx_cc cx) tc eq_refl ltac:(lia)) as (m3 & E3 & F3).
  { apply (rep_frame m1 m2 lo hi); try assumption.
    apply (rep_frame (cx_arena cx) m1 lo hi); assumption. }
  set (c3 := set_roots (set_arena c2 m3) (cx_val c2) (cx_pc c2) WIKRT_REG_CC_INIT (cx_txn c2)).
  destruct (Hstep c3 (cx_pc cx) tp eq_refl ltac:(lia)) as (m4 & E4 & F4).
  { apply (rep_frame m2 m3 lo hi); try assumption.
    apply (rep_frame m1 m2 lo hi); try assumption.
    apply (rep_frame (cx_arena cx) m1 lo hi); assumption. }
  eexists. intros fuel Hfuel.
  unfold wikrt_cx_reset, wikrt_drop_txn.
  rewrite (E1 fuel Hfuel). cbn [bind].
  lazymatch goal with |- context [wikrt_drop_v fuel ?a ?b None] =>
    change (wikrt_drop_v fuel a b None) with (wikrt_drop_v fuel c1 (cx_val cx) None) end.
  rewrite (E2 fuel Hfuel). cbn [bind].
  lazymatch goal with |- context [wikrt_drop_v fuel ?a ?b None] =>
    change (wikrt_drop_v fuel a b None) with (wikrt_drop_v fuel c2 (cx_cc cx) None) end.
  rewrite (E3 fuel Hfuel). cbn [bind].
  lazymatch goal with |- context [wikrt_drop_v fuel ?a ?b None] =>
    change (wikrt_drop_v fuel a b None) with (wikrt_drop_v fuel c3 (cx_pc cx) None) end.
  rewrite (E4 fuel Hfuel). cbn [bind].
  reflexivity.
Qed.

(** ** The error register through the operations *)

(** What holds of the result of a run that returns. *)
Definition okeep {A : Type} (P : A -> Prop) (o : outcome A) : Prop :=
  match o with Ret a => P a | _ => True end.

(** A latched code is still there. *)
Definition ek (cx cx' : wikrt_cx) : Prop :=
  cx_ecode cx <> WIKRT_OK -> cx_ecode cx' = cx_ecode cx.

Lemma set_error_ek (cx : wikrt_cx) (e : wikrt_ecode) :
  cx_ecode cx <> WIKRT_OK -> cx_ecode (wikrt_set_error cx e) = cx_ecode cx.
Proof. apply set_error_ecode. Qed.

Create HintDb ek.

(** The innermost term a head [match] waits for. *)
Ltac head_scrutinee t :=
  lazymatch t with
  | match ?x with _ => _ end => head_scrutinee x
  | _ => t
  end.

Ltac ek_forward :=
  repeat match goal with
  | K : ?a <> WIKRT_OK -> _ |- _ =>
      let N := fresh "N" in
      assert (N : a <> WIKRT_OK) by congruence;
      specialize (K N); clear N
  end.

Ltac ek_abstract_errors :=
  repeat match goal with
  | |- context [wikrt_set_error ?c ?e] =>
      let z := fresh "z" in
      pose proof (set_error_ek c e);
      set (z := wikrt_set_error c e) in *; clearbody z
  | H : context [wikrt_set_error ?c ?e] |- _ =>
      let z := fresh "z" in
      pose proof (set_error_ek c e);
      set (z := wikrt_set_error c e) in *; clearbody z
  | |- context [wikrt_wswap ?c] =>
      let z := fresh "z" in
      pose proof (pure_prim_keeps_code _ c pp_wswap);
      set (z := wikrt_wswap c) in *; clearbody z
  | H : context [wikrt_wswap ?c] |- _ =>
      let z := fresh "z" in
      pose proof (pure_prim_keeps_code _ c pp_wswap);
      set (z := wikrt_wswap c) in *; clearbody z
  | |- context [wikrt_assocl ?c] =>
      let z := fresh "z" in
      pose proof (pure_prim_keeps_code _ c pp_assocl);
      set (z := wikrt_assocl c) in *; clearbody z
  | H : context [wikrt_assocl ?c] |- _ =>
      let z := fresh "z" in
      pose proof (pure_prim_keeps_code _ c pp_assocl);
      set (z := wikrt_assocl c) in *; clearbody z
  end.

Ltac ek_simpl :=
  cbn [okeep ek fst snd cx_ecode cx_val cx_arena cx_alloc
       store set_arena set_val set_alloc set_cap set_roots set_stats set_ecode
       swap_spaces] in *.

Ltac ek_split_contexts :=
  repeat match goal with
  | |- context [if ?b then ?x else _] =>
      let T := type of x in
      lazymatch T with wikrt_cx => destruct b end
  | H : context [if ?b then ?x else _] |- _ =>
      let T := type of x in
      lazymatch T with wikrt_cx => destruct b end
  end.

Ltac ek_leaf :=
  unfold ek in *; ek_split_contexts; ek_simpl; ek_abstract_errors; ek_simpl;
  intros; ek_forward; solve [ congruence | exact I | assumption ].

Lemma cpv_elems_ecode (n : nat) :
  forall cx s parray buff ii,
    cx_ecode (fst (cpv_elems n cx s parray buff ii)) = cx_ecode cx.
Proof.
  induction n as [ | n IH ]; intros cx s parray buff ii; cbn [cpv_elems]; [ reflexivity | ].
  unfold wikrt_cpv, wikrt_add_copy_task.
  destruct (wikrt_copy_shallow _); rewrite IH; reflexivity.
Qed.

Ltac ek_fact x :=
  try (let K := fresh "K" in
       eassert (K : okeep _ x) by (solve [ eauto 2 with ek nocore ]));
  try (lazymatch x with
       | cpv_elems ?n ?c ?s ?p ?b ?i => pose proof (cpv_elems_ecode n c s p b i)
       end).

Ltac ek_step :=
  lazymatch goal with
  | |- okeep _ (Ret _) => ek_leaf
  | |- okeep _ Abort => exact I
  | |- okeep _ OutOfFuel => exact I
  | |- okeep _ ?t =>
      let x := head_scrutinee t in
      ek_fact x; destruct x; ek_simpl
  | |- True => exact I
  | |- _ => ek_leaf
  end.

Ltac ek_unfold :=
  cbv beta iota zeta delta
    [bind wikrt_alloc_r wikrt_alloc_cellval_r wikrt_intro_r wikrt_pval_swap
     write_dst read_dst wikrt_add_copy_task wikrt_cpv wikrt_peek_block
     wikrt_cx_relax].

Ltac ek_auto := ek_unfold; repeat ek_step.


Lemma ek_copy_body nested (cx : wikrt_cx) (root : Z) (ss : option Z) (s : Z) (dst : cloc) :
  (forall c r s' d, okeep (fun x => ek c (fst x)) (nested c r s' d)) ->
  okeep (fun x => ek cx (fst (fst (fst x)))) (copy_body nested cx root ss s dst).
Proof.
  intros Hn. unfold copy_body. ek_auto.
Qed.

#[local] Hint Resolve ek_copy_body : ek.

Lemma ek_copy_loop (fuel : nat) :
  forall cx root ss s0 s dst,
    okeep (fun x => ek cx (fst (fst x))) (copy_loop fuel cx root ss s0 s dst).
Proof.
  induction fuel as [ | f IH ]; intros cx root ss s0 s dst; cbn [copy_loop]; [ exact I | ].
  cbv zeta.
  match goal with
  | |- context [copy_body ?n _ _ _ _ _] =>
      assert (Hn : forall c r s' d, okeep (fun x => ek c (fst x)) (n c r s' d))
        by (intros; ek_auto)
  end.
  ek_auto.
Qed.
#[local] Hint Resolve ek_copy_loop : ek.

Lemma ek_copy_rs fuel cx root ss mv s0 dst :
  okeep (fun x => ek cx (fst (fst x))) (wikrt_copy_rs fuel cx root ss mv s0 dst).
Proof. unfold wikrt_copy_rs. ek_auto. Qed.
#[local] Hint Resolve ek_copy_rs : ek.

Lemma ek_copy_r fuel cx lval ss mv :
  okeep (fun x => ek cx (fst (fst x))) (wikrt_copy_r fuel cx lval ss mv).
Proof. unfold wikrt_copy_r. ek_auto. Qed.
#[local] Hint Resolve ek_copy_r : ek.

Lemma ek_vsize fuel cx s0 v0 :
  okeep (fun x => ek cx (fst x)) (wikrt_vsize fuel cx s0 v0).
Proof. unfold wikrt_vsize. ek_auto. Qed.
#[local] Hint Resolve ek_vsize : ek.

Lemma ek_peek_size_ssp fuel cx :
  okeep (fun x => ek cx (fst x)) (wikrt_peek_size_ssp fuel cx).
Proof. unfold wikrt_peek_size_ssp. ek_auto. Qed.
#[local] Hint Resolve ek_peek_size_ssp : ek.

Lemma ek_peek_size fuel cx :
  okeep (fun x => ek cx (fst x)) (wikrt_peek_size fuel cx).
Proof. unfold wikrt_peek_size. ek_auto. Qed.
#[local] Hint Resolve ek_peek_size : ek.

Lemma ek_drop_sv fuel cx s0 v0 ss :
  okeep (fun x => ek cx (fst x)) (wikrt_drop_sv fuel cx s0 v0 ss).
Proof. unfold wikrt_drop_sv. ek_auto. Qed.
#[local] Hint Resolve ek_drop_sv : ek.

Lemma ek_drop_v fuel cx v ss :
  okeep (fun x => ek cx (fst x)) (wikrt_drop_v fuel cx v ss).
Proof. unfold wikrt_drop_v. ek_auto. Qed.
#[local] Hint Resolve ek_drop_v : ek.

Lemma ek_drop fuel cx : okeep (fun x => ek cx x) (wikrt_drop fuel cx).
Proof. unfold wikrt_drop. ek_auto. Qed.
#[local] Hint Resolve ek_drop : ek.

Lemma ek_mem_compact fuel cx : okeep (fun x => ek cx x) (wikrt_mem_compact fuel cx).
Proof. unfold wikrt_mem_compact. ek_auto. Qed.
#[local] Hint Resolve ek_mem_compact : ek.

Lemma ek_mem_gc_then_reserve fuel cx sz :
  okeep (fun x => ek cx (fst x)) (wikrt_mem_gc_then_reserve fuel cx sz).
Proof. unfold wikrt_mem_gc_then_reserve. ek_auto. Qed.
#[local] Hint Resolve ek_mem_gc_then_reserve : ek.

Lemma ek_cx_gc fuel cx : okeep (fun x => ek cx x) (wikrt_cx_gc fuel cx).
Proof. unfold wikrt_cx_gc. ek_auto. Qed.
#[local] Hint Resolve ek_cx_gc : ek.

Lemma ek_mem_reserve fuel cx sz :
  okeep (fun x => ek cx (fst x)) (wikrt_mem_reserve fuel cx sz).
Proof. unfold wikrt_mem_reserve. ek_auto. Qed.
#[local] Hint Resolve ek_mem_reserve : ek.

Lemma ek_copy_m bypass fuel cx ss mv :
  okeep (fun x => ek cx (fst x)) (wikrt_copy_m bypass fuel cx ss mv).
Proof. unfold wikrt_copy_m. ek_auto. Qed.
#[local] Hint Resolve ek_copy_m : ek.

Lemma ek_copy bypass fuel cx : okeep (fun x => ek cx x) (wikrt_copy bypass fuel cx).
Proof. unfold wikrt_copy. ek_auto. Qed.
#[local] Hint Resolve ek_copy : ek.

Lemma ek_wrap_otag fuel cx otag : okeep (fun x => ek cx x) (wikrt_wrap_otag fuel cx otag).
Proof. unfold wikrt_wrap_otag. ek_auto. Qed.
#[local] Hint Resolve ek_wrap_otag : ek.

Lemma ek_intro_smallval fuel cx v : okeep (fun x => ek cx x) (wikrt_intro_smallval fuel cx v).
Proof. unfold wikrt_intro_smallval. ek_auto. Qed.
#[local] Hint Resolve ek_intro_smallval : ek.

Lemma ek_intro_op fuel cx op : okeep (fun x => ek cx x) (wikrt_intro_op fuel cx op).
Proof. unfold wikrt_intro_op. ek_auto. Qed.
#[local] Hint Resolve ek_intro_op : ek.

Lemma ek_intro_empty_list fuel cx : okeep (fun x => ek cx x) (wikrt_intro_empty_list fuel cx).
Proof. unfold wikrt_intro_empty_list. ek_auto. Qed.
#[local] Hint Resolve ek_intro_empty_list : ek.

Lemma ek_intro_unit fuel cx : okeep (fun x => ek cx x) (wikrt_intro_unit fuel cx).
Proof. unfold wikrt_intro_unit. ek_auto. Qed.
#[local] Hint Resolve ek_intro_unit : ek.

Lemma ek_intro_unit_r fuel cx : okeep (fun x => ek cx x) (wikrt_intro_unit_r fuel cx).
Proof. unfold wikrt_intro_unit_r. ek_auto. Qed.
#[local] Hint Resolve ek_intro_unit_r : ek.

Lemma ek_intro_i32 fuel cx n : okeep (fun x => ek cx x) (wikrt_intro_i32 fuel cx n).
Proof. unfold wikrt_intro_i32. ek_auto. Qed.
#[local] Hint Resolve ek_intro_i32 : ek.

Lemma ek_intro_i64 fuel cx n : okeep (fun x => ek cx x) (wikrt_intro_i64 fuel cx n).
Proof. unfold wikrt_intro_i64. ek_auto. Qed.
#[local] Hint Resolve ek_intro_i64 : ek.

Lemma ek_wrap_sum_p fuel cx s : okeep (fun x => ek cx x) (wikrt_wrap_sum_p fuel cx s).
Proof. unfold wikrt_wrap_sum_p. ek_auto. Qed.
#[local] Hint Resolve ek_wrap_sum_p : ek.

Lemma ek_wrap_sum fuel cx s : okeep (fun x => ek cx x) (wikrt_wrap_sum fuel cx s).
Proof. unfold wikrt_wrap_sum. ek_auto. Qed.
#[local] Hint Resolve ek_wrap_sum : ek.

Lemma ek_cons fuel cx : okeep (fun x => ek cx x) (wikrt_cons fuel cx).
Proof. unfold wikrt_cons. ek_auto. Qed.
#[local] Hint Resolve ek_cons : ek.

Lemma ek_expand_sum_body rb fuel cx :
  (forall c n, okeep (fun x => ek c (fst x)) (rb c n)) ->
  okeep (fun x => ek cx x) (expand_sum_body rb fuel cx).
Proof. intros Hrb. unfold expand_sum_body. ek_auto. Qed.
#[local] Hint Resolve ek_expand_sum_body : ek.

Lemma ek_sum_walk (fuel : nat) :
  (forall cx sum, okeep (fun x => ek cx (fst x)) (wikrt_unwrap_sum_p fuel cx sum)) /\
  (forall cx n, okeep (fun x => ek cx (fst x)) (wikrt_read_binary fuel cx n)) /\
  (forall cx n out, okeep (fun x => ek cx (fst x)) (read_binary_loop fuel cx n out)).
Proof.
  induction fuel as [ | f (IH1 & IH2 & IH3) ].
  - repeat split; intros; exact I.
  - split; [ | split ].
    + intros cx sum. cbn [wikrt_unwrap_sum_p]. ek_auto.
    + intros cx n. cbn [wikrt_read_binary]. ek_auto.
    + intros cx n out. cbn [read_binary_loop]. ek_auto.
Qed.

Lemma ek_unwrap_sum_p fuel cx sum :
  okeep (fun x => ek cx (fst x)) (wikrt_unwrap_sum_p fuel cx sum).
Proof. apply ek_sum_walk. Qed.
#[local] Hint Resolve ek_unwrap_sum_p : ek.

Lemma ek_read_binary fuel cx n :
  okeep (fun x => ek cx (fst x)) (wikrt_read_binary fuel cx n).
Proof. apply ek_sum_walk. Qed.
#[local] Hint Resolve ek_read_binary : ek.

Lemma ek_expand_sum_p fuel cx : okeep (fun x => ek cx x) (wikrt_expand_sum_p fuel cx).
Proof. unfold wikrt_expand_sum_p. ek_auto. Qed.
#[local] Hint Resolve ek_expand_sum_p : ek.

Lemma ek_unwrap_sum fuel cx sum :
  okeep (fun x => ek cx (fst x)) (wikrt_unwrap_sum fuel cx sum).
Proof. unfold wikrt_unwrap_sum. ek_auto. Qed.
#[local] Hint Resolve ek_unwrap_sum : ek.

Lemma ek_accel_sum_swap fuel cx : okeep (fun x => ek cx x) (wikrt_accel_sum_swap fuel cx).
Proof. unfold wikrt_accel_sum_swap. ek_auto. Qed.
#[local] Hint Resolve ek_accel_sum_swap : ek.

Lemma ek_quote fuel cx : okeep (fun x => ek cx x) (wikrt_quote fuel cx).
Proof. unfold wikrt_quote. ek_auto. Qed.
#[local] Hint Resolve ek_quote : ek.

Lemma ek_intro_id_block fuel cx : okeep (fun x => ek cx x) (wikrt_intro_id_block fuel cx).
Proof. unfold wikrt_intro_id_block. ek_auto. Qed.
#[local] Hint Resolve ek_intro_id_block : ek.

Lemma ek_block_quote_inline_attrib fuel cx a :
  okeep (fun x => ek cx x) (wikrt_block_quote_inline_attrib fuel cx a).
Proof. unfold wikrt_block_quote_inline_attrib. ek_auto. Qed.
#[local] Hint Resolve ek_block_quote_inline_attrib : ek.

Lemma ek_block_attrib fuel cx a : okeep (fun x => ek cx x) (wikrt_block_attrib fuel cx a).
Proof. unfold wikrt_block_attrib. ek_auto. Qed.
#[local] Hint Resolve ek_block_attrib : ek.

Lemma ek_hide_block_decorators fuel cx :
  okeep (fun x => ek cx x) (wikrt_hide_block_decorators fuel cx).
Proof. unfold wikrt_hide_block_decorators. ek_auto. Qed.
#[local] Hint Resolve ek_hide_block_decorators : ek.

Lemma ek_scan_to_block_end fuel cx effort :
  okeep (fun x => ek cx (fst x)) (wikrt_scan_to_block_end fuel cx effort).
Proof. unfold wikrt_scan_to_block_end. ek_auto. Qed.
#[local] Hint Resolve ek_scan_to_block_end : ek.

Lemma ek_compose_concat cx eoab : okeep (fun x => ek cx x) (compose_concat cx eoab).
Proof. unfold compose_concat. ek_auto. Qed.
#[local] Hint Resolve ek_compose_concat : ek.

Lemma ek_compose fuel cx : okeep (fun x => ek cx x) (wikrt_compose fuel cx).
Proof. unfold wikrt_compose. ek_auto. Qed.
#[local] Hint Resolve ek_compose : ek.

Lemma ek_erase_trashval fuel cx ss : okeep (fun x => ek cx x) (wikrt_erase_trashval fuel cx ss).
Proof. unfold wikrt_erase_trashval. ek_auto. Qed.
#[local] Hint Resolve ek_erase_trashval : ek.

Lemma ek_trash fuel cx : okeep (fun x => ek cx x) (wikrt_trash fuel cx).
Proof. unfold wikrt_trash. ek_auto. Qed.
#[local] Hint Resolve ek_trash : ek.

Lemma ek_intro_istr fuel cx istr : okeep (fun x => ek cx x) (wikrt_intro_istr fuel cx istr).
Proof. unfold wikrt_intro_istr. ek_auto. Qed.
#[local] Hint Resolve ek_intro_istr : ek.

Lemma ek_intro_binary fuel cx data : okeep (fun x => ek cx x) (wikrt_intro_binary fuel cx data).
Proof. unfold wikrt_intro_binary. ek_auto. Qed.
#[local] Hint Resolve ek_intro_binary : ek.

(** The first component of what a run returns: the context an operation
    hands back, for the operations that also return a result. *)
Definition out_fst {A B : Type} (o : outcome (A * B)) : outcome A :=
  '(a, _) <- o ;; Ret a.

(** The operations of the engine: every function of [wikrt.c] embedded
    above that can change the context, and the helpers modelled for them,
    with any arguments, as a run from a context.  [wikrt_set_error] and
    [wikrt_cx_reset], which are about the register itself, are not in the
    list. *)
Inductive engine_op (cx : wikrt_cx) : outcome wikrt_cx -> Prop :=
| op_pure f : pure_prim f -> engine_op cx (Ret (f cx))
| op_int_cmp ord : engine_op cx (Ret (fst (wikrt_int_cmp cx ord)))
| op_cx_relax : engine_op cx (Ret (wikrt_cx_relax cx))
| op_intro_r v : engine_op cx (Ret (wikrt_intro_r cx v))
| op_wswap_v abc : engine_op cx (Ret (wikrt_wswap_v cx abc))
| op_assocl_v a_bc : engine_op cx (Ret (wikrt_assocl_v cx a_bc))
| op_assocr_v ab_c : engine_op cx (Ret (wikrt_assocr_v cx ab_c))
| op_peek_block : engine_op cx (Ret (fst (wikrt_peek_block cx)))
| op_drop_txn fuel : engine_op cx (wikrt_drop_txn fuel cx)
| op_copy_rs fuel root ss moving s0 dst :
    engine_op cx (out_fst (out_fst (wikrt_copy_rs fuel cx root ss moving s0 dst)))
| op_mem_compact fuel : engine_op cx (wikrt_mem_compact fuel cx)
| op_mem_gc_then_reserve fuel sz : engine_op cx (out_fst (wikrt_mem_gc_then_reserve fuel cx sz))
| op_mem_reserve fuel sz : engine_op cx (out_fst (wikrt_mem_reserve fuel cx sz))
| op_cx_gc fuel : engine_op cx (wikrt_cx_gc fuel cx)
| op_copy bypass fuel : engine_op cx (wikrt_copy bypass fuel cx)
| op_copy_m bypass fuel ss moving : engine_op cx (out_fst (wikrt_copy_m bypass fuel cx ss moving))
| op_copy_r fuel lval ss moving : engine_op cx (out_fst (out_fst (wikrt_copy_r fuel cx lval ss moving)))
| op_peek_size fuel : engine_op cx (out_fst (wikrt_peek_size fuel cx))
| op_vsize fuel s0 v0 : engine_op cx (out_fst (wikrt_vsize fuel cx s0 v0))
| op_drop_sv fuel s0 v0 ss : engine_op cx (out_fst (wikrt_drop_sv fuel cx s0 v0 ss))
| op_drop_v fuel v ss : engine_op cx (out_fst (wikrt_drop_v fuel cx v ss))
| op_drop fuel : engine_op cx (wikrt_drop fuel cx)
| op_erase_trashval fuel ss : engine_op cx (wikrt_erase_trashval fuel cx ss)
| op_trash fuel : engine_op cx (wikrt_trash fuel cx)
| op_intro_unit fuel : engine_op cx (wikrt_intro_unit fuel cx)
| op_intro_unit_r fuel : engine_op cx (wikrt_intro_unit_r fuel cx)
| op_wrap_otag fuel otag : engine_op cx (wikrt_wrap_otag fuel cx otag)
| op_intro_smallval fuel v : engine_op cx (wikrt_intro_smallval fuel cx v)
| op_intro_op fuel op : engine_op cx (wikrt_intro_op fuel cx op)
| op_intro_empty_list fuel : engine_op cx (wikrt_intro_empty_list fuel cx)
| op_cons fuel : engine_op cx (wikrt_cons fuel cx)
| op_wrap_sum_p fuel sum : engine_op cx (wikrt_wrap_sum_p fuel cx sum)
| op_wrap_sum fuel sum : engine_op cx (wikrt_wrap_sum fuel cx sum)
| op_expand_sum_p fuel : engine_op cx (wikrt_expand_sum_p fuel cx)
| op_unwrap_sum_p fuel sum : engine_op cx (out_fst (wikrt_unwrap_sum_p fuel cx sum))
| op_unwrap_sum fuel sum : engine_op cx (out_fst (wikrt_unwrap_sum fuel cx sum))
| op_accel_sum_swap fuel : engine_op cx (wikrt_accel_sum_swap fuel cx)
| op_intro_binary fuel data : engine_op cx (wikrt_intro_binary fuel cx data)
| op_read_binary fuel max_bytes : engine_op cx (out_fst (wikrt_read_binary fuel cx max_bytes))
| op_intro_i32 fuel n : engine_op cx (wikrt_intro_i32 fuel cx n)
| op_intro_i64 fuel n : engine_op cx (wikrt_intro_i64 fuel cx n)
| op_intro_istr fuel istr : engine_op cx (wikrt_intro_istr fuel cx istr)
| op_quote fuel : engine_op cx (wikrt_quote fuel cx)
| op_intro_id_block fuel : engine_op cx (wikrt_intro_id_block fuel cx)
| op_block_quote_inline_attrib fuel attrib :
    engine_op cx (wikrt_block_quote_inline_attrib fuel cx attrib)
| op_block_attrib fuel attrib : engine_op cx (wikrt_block_attrib fuel cx attrib)
| op_block_aff fuel : engine_op cx (wikrt_block_aff fuel cx)
| op_block_rel fuel : engine_op cx (wikrt_block_rel fuel cx)
| op_block_lazy fuel : engine_op cx (wikrt_block_lazy fuel cx)
| op_block_fork fuel : engine_op cx (wikrt_block_fork fuel cx)
| op_hide_block_decorators fuel : engine_op cx (wikrt_hide_block_decorators fuel cx)
| op_scan_to_block_end fuel effort :
    engine_op cx (out_fst (wikrt_scan_to_block_end fuel cx effort))
| op_compose fuel : engine_op cx (wikrt_compose fuel cx).

Lemma okeep_out_fst {A B : Type} (P : A -> Prop) (o : outcome (A * B)) :
  okeep (fun x => P (fst x)) o -> okeep P (out_fst o).
Proof. destruct o as [ [c a] | | ]; intros H; exact H. Qed.

(** No operation of the engine changes a latched code. *)
Lemma engine_op_keeps_code (cx : wikrt_cx) (o : outcome wikrt_cx) :
  engine_op cx o -> okeep (fun x => ek cx x) o.
Proof.
  intros Hop. destruct Hop;
    repeat apply okeep_out_fst;
    try (solve [ eauto 2 with ek nocore ]).
  - intros Hne. apply pure_prim_keeps_code; assumption.
  - intros Hne. unfold wikrt_int_cmp.
    destruct (negb (wikrt_cx_has_two_ints cx)); cbn [fst];
      [ apply set_error_ecode; exact Hne | reflexivity ].
  - intros Hne. reflexivity.
  - intros Hne. reflexivity.
  - unfold wikrt_wswap_v. ek_auto.
  - unfold wikrt_assocl_v. ek_auto.
  - unfold wikrt_assocr_v. ek_auto.
  - unfold wikrt_peek_block.
    destruct (wikrt_p _); [ destruct (wikrt_o _); [ destruct (wikrt_otag_block _) | ] | ];
      cbn [fst]; ek_auto.
  - unfold wikrt_drop_txn. ek_auto.
Qed.

(** ** The size walk *)

Lemma add_size_task_drop (m : arena) (s v : Z) :
  wikrt_add_size_task m s v = wikrt_add_drop_task m s v.
Proof. reflexivity. Qed.

Lemma size_elems_drop (n : nat) (m : arena) (s parray ii : Z) :
  size_elems n m s parray ii = drop_elems n m s parray ii.
Proof.
  revert m s ii. induction n as [ | n IH ]; intros m s ii; cbn [size_elems drop_elems].
  - reflexivity.
  - rewrite add_size_task_drop. destruct (wikrt_add_drop_task _ _ _). apply IH.
Qed.

Lemma wrap32_range (x : Z) : 0 <= wrap32 x < 2 ^ 32.
Proof. unfold wrap32. apply Z.mod_pos_bound. lia. Qed.

Lemma wrap32_small (x : Z) : 0 <= x < 2 ^ 32 -> wrap32 x = x.
Proof. intros H. unfold wrap32. apply Z.mod_small. exact H. Qed.

Lemma wrap32_add_l (a b : Z) : wrap32 (wrap32 a + b) = wrap32 (a + b).
Proof. unfold wrap32. rewrite Zplus_mod_idemp_l. reflexivity. Qed.

Lemma wrap32_add_r (a b : Z) : wrap32 (a + wrap32 b) = wrap32 (a + b).
Proof. unfold wrap32. rewrite Zplus_mod_idemp_r. reflexivity. Qed.

Lemma land_mask_wrap (y : Z) :
  Z.land (wrap32 y) (WIKRT_VAL_MAX - 7) = Z.land y (WIKRT_VAL_MAX - 7).
Proof.
  unfold wrap32. change (2 ^ 32) with (2 ^ 32). rewrite <- Z.land_ones by lia.
  rewrite <- Z.land_assoc. reflexivity.
Qed.

Lemma cellbuff_wrap (x : Z) : wikrt_cellbuff (wrap32 x) = wikrt_cellbuff x.
Proof.
  unfold wikrt_cellbuff. f_equal.
  rewrite <- (land_mask_wrap (wrap32 x + _)), <- (land_mask_wrap (x + _)).
  rewrite wrap32_add_l. reflexivity.
Qed.

Lemma tsizes_app (l1 l2 : list tree) : tsizes (l1 ++ l2) = tsizes l1 + tsizes l2.
Proof.
  unfold tsizes. induction l1 as [ | t l1 IH ]; cbn; [ reflexivity | ].
  rewrite IH. lia.
Qed.

Lemma tsizes_cons (t : tree) (l : list tree) : tsizes (t :: l) = tsize t + tsizes l.
Proof. reflexivity. Qed.

Lemma tsizes_one (t : tree) : tsizes [t] = tsize t.
Proof. unfold tsizes. cbn. lia. Qed.

Lemma tsizes_rev (l : list tree) : tsizes (rev l) = tsizes l.
Proof.
  induction l as [ | t l IH ]; [ reflexivity | ].
  cbn [rev]. rewrite tsizes_app, IH, tsizes_one, tsizes_cons. lia.
Qed.

Lemma tsizes_filter (l : list tree) :
  tsizes (filter (fun t => negb (is_const t)) l) = tsizes l.
Proof.
  induction l as [ | t l IH ]; [ reflexivity | ].
  cbn [filter]. destruct t; cbn [is_const negb]; rewrite ?tsizes_cons, IH; reflexivity.
Qed.

Lemma tsizes_pushed (cs : list tree) : tsizes (pushed cs) = tsizes cs.
Proof. unfold pushed. rewrite tsizes_rev. apply tsizes_filter. Qed.

Definition vsize_ok (lo hi : Z) (n : nat) : Prop :=
  forall (ts : list tree) (m : arena) (s0 result : Z) (fuel : nat),
  (nodes_list ts <= n)%nat -> (nodes_list ts < fuel)%nat ->
  0 <= result < 2 ^ 32 ->
  stack_up m lo hi (s0 + Z.of_nat (length ts) * sizeof_val) ts ->
  (s0 + Z.of_nat (nodes_list ts) * sizeof_val <= lo \/ hi <= s0) ->
  exists m',
    vsize_loop fuel m s0 (s0 + Z.of_nat (length ts) * sizeof_val) result
      = Ret (m', wrap32 (result + tsizes ts)) /\
    (forall x, (x < s0 \/ s0 + Z.of_nat (nodes_list ts) * sizeof_val <= x) -> m' x = m x).

Lemma vsize_children (lo hi : Z) (n : nat) :
  vsize_ok lo hi n ->
  forall (cs ts : list tree) (m m1 : arena) (s0 s' result : Z) (f : nat),
  (nodes_list cs + nodes_list ts <= n)%nat ->
  (nodes_list cs + nodes_list ts < f)%nat ->
  0 <= result < 2 ^ 32 ->
  s' = s0 + Z.of_nat (length (pushed cs ++ ts)) * sizeof_val ->
  stack_up m1 lo hi s' (pushed cs ++ ts) ->
  (forall x, (x < s0 + Z.of_nat (length ts) * sizeof_val \/ s' <= x) -> m1 x = m x) ->
  (s0 + Z.of_nat (S (nodes_list cs + nodes_list ts)) * sizeof_val <= lo \/ hi <= s0) ->
  (length ts <= nodes_list ts)%nat ->
  exists m',
    vsize_loop f m1 s0 s' result = Ret (m', wrap32 (result + (tsizes cs + tsizes ts))) /\
    (forall x, (x < s0 \/
                s0 + Z.of_nat (S (nodes_list cs + nodes_list ts)) * sizeof_val <= x) ->
               m' x = m x).
Proof.
  intros IH cs ts m m1 s0 s' result f Hn Hf Hres Es Hst Hfr Hd Hlen.
  assert (Hnl : nodes_list (pushed cs ++ ts) = (nodes_list cs + nodes_list ts)%nat).
  { rewrite nodes_list_app, nodes_pushed. reflexivity. }
  subst s'.
  destruct (IH (pushed cs ++ ts) m1 s0 result f) as (m2 & E & Hf2).
  { lia. } { lia. } { exact Hres. } { exact Hst. }
  { rewrite Hnl. unfold sizeof_val in *. lia. }
  exists m2. rewrite E. split.
  - rewrite tsizes_app, tsizes_pushed. reflexivity.
  - intros x Hx. rewrite Hf2 by (rewrite Hnl; unfold sizeof_val in *; lia).
    apply Hfr. pose proof (pushed_length_le cs).
    rewrite length_app, Nat2Z.inj_add. unfold sizeof_val in *. lia.
Qed.

Lemma vsize_one_child (lo hi : Z) (n : nat) :
  lo mod 4 = 0 -> hi mod 4 = 0 -> vsize_ok lo hi n ->
  forall (c : tree) (w : Z) (ts : list tree) (m : arena) (s0 result : Z) (f : nat),
  rep m lo hi c w ->
  stack_up m lo hi (s0 + Z.of_nat (length ts) * sizeof_val) ts ->
  (nodes c + nodes_list ts <= n)%nat ->
  (nodes c + nodes_list ts < f)%nat ->
  0 <= result < 2 ^ 32 ->
  (s0 + Z.of_nat (S (nodes c + nodes_list ts)) * sizeof_val <= lo \/ hi <= s0) ->
  exists m',
    (let '(m1, s1) := wikrt_add_size_task m (s0 + Z.of_nat (length ts) * sizeof_val) w in
     vsize_loop f m1 s0 s1 result) = Ret (m', wrap32 (result + (tsize c + tsizes ts))) /\
    (forall x, (x < s0 \/ s0 + Z.of_nat (S (nodes c + nodes_list ts)) * sizeof_val <= x) ->
               m' x = m x).
Proof.
  intros Hlo Hhi IH c w ts m s0 result f Hr Hst Hn Hf Hres Hd.
  pose proof (stack_up_length _ _ _ _ _ Hst) as Hlen.
  rewrite add_size_task_drop.
  destruct (drop_push_one lo hi m _ c w ts (nodes c + nodes_list ts) Hlo Hhi Hr Hst)
    as (m1 & s1 & E1 & Es1 & Hs1 & Hf1).
  { lia. } { unfold sizeof_val in *. lia. }
  rewrite E1.
  destruct (vsize_children lo hi n IH [c] ts m m1 s0 s1 result f) as (m2 & E2 & Hf2);
    rewrite ?nodes_list_one; try assumption.
  - rewrite Es1, length_app, Nat2Z.inj_add. unfold sizeof_val. lia.
  - exists m2. rewrite E2, tsizes_one. split; [ reflexivity | ].
    rewrite nodes_list_one in Hf2. exact Hf2.
Qed.
Lemma wrap32_add_mid (a b c : Z) : wrap32 (a + wrap32 b + c) = wrap32 (a + b + c).
Proof.
  rewrite <- (wrap32_add_l (a + wrap32 b)), wrap32_add_r, wrap32_add_l. reflexivity.
Qed.

Ltac wrap_eq :=
  rewrite ?wrap32_add_l, ?wrap32_add_r, ?wrap32_add_mid, ?cellbuff_wrap;
  apply f_equal, f_equal, f_equal;
  unfold tsizes; cbn [map fold_right tsize]; unfold WIKRT_CELLSIZE, sizeof_val; lia.

Lemma vsize_loop_ok (lo hi : Z) :
  lo mod 4 = 0 -> hi mod 4 = 0 -> forall n, vsize_ok lo hi n.
Proof.
  intros Hlo Hhi n.
  induction n as [ | n IH ]; intros ts m s0 result fuel Hn Hfuel Hres Hst Hd.
  - destruct ts as [ | t ts ].
    + destruct fuel as [ | f ]; [ lia | ]. exists m. cbn [vsize_loop length].
      rewrite Z.mul_0_l, Z.add_0_r, Z.eqb_refl. unfold tsizes. cbn.
      rewrite Z.add_0_r, wrap32_small by exact Hres. split; [ reflexivity | auto ].
    + exfalso. cbn [stack_up] in Hst. destruct Hst as (Hc & _).
      pose proof (nodes_pos t Hc). rewrite nodes_list_cons in Hn. lia.
  - destruct ts as [ | t ts ].
    + destruct fuel as [ | f ]; [ lia | ]. exists m. cbn [vsize_loop length].
      rewrite Z.mul_0_l, Z.add_0_r, Z.eqb_refl. unfold tsizes. cbn.
      rewrite Z.add_0_r, wrap32_small by exact Hres. split; [ reflexivity | auto ].
    + destruct fuel as [ | f ]; [ lia | ].
      cbn [stack_up] in Hst. destruct Hst as (Hc & Hr & Hst).
      rewrite nodes_list_cons in *.
      pose proof (stack_up_length _ _ _ _ _ Hst) as Hlen.
      cbn [length] in *. rewrite Nat2Z.inj_succ in *.
      replace (s0 + Z.succ (Z.of_nat (length ts)) * sizeof_val)
        with (s0 + Z.of_nat (length ts) * sizeof_val + sizeof_val) in *
        by (unfold sizeof_val; lia).
      replace (s0 + Z.of_nat (length ts) * sizeof_val + sizeof_val - sizeof_val)
        with (s0 + Z.of_nat (length ts) * sizeof_val) in * by lia.
      cbn [vsize_loop].
      assert (Hne : (s0 =? s0 + Z.of_nat (length ts) * sizeof_val + sizeof_val) = false).
      { apply Z.eqb_neq. unfold sizeof_val. lia. }
      rewrite Hne.
      replace (s0 + Z.of_nat (length ts) * sizeof_val + sizeof_val - sizeof_val)
        with (s0 + Z.of_nat (length ts) * sizeof_val) by lia.
      set (s1 := s0 + Z.of_nat (length ts) * sizeof_val) in *.
      set (v := m s1) in *.
      assert (Hone : forall c w result',
                rep m lo hi c w -> (nodes c + nodes_list ts <= n)%nat ->
                (nodes c + nodes_list ts < f)%nat ->
                (s0 + Z.of_nat (S (nodes c + nodes_list ts)) * sizeof_val <= lo \/ hi <= s0) ->
                exists m',
                  (let '(m1, s2) := wikrt_add_size_task m s1 w in
                   vsize_loop f m1 s0 s2 (wrap32 result'))
                    = Ret (m', wrap32 (wrap32 result' + (tsize c + tsizes ts))) /\
                  (forall x, (x < s0 \/
                              s0 + Z.of_nat (S (nodes c + nodes_list ts)) * sizeof_val <= x) ->
                             m' x = m x)).
      { intros c w result' Hrc Hn' Hf' Hd'.
        apply (vsize_one_child lo hi n Hlo Hhi IH); try assumption.
        apply wrap32_range. }
      destruct t as [ c | tag a b | otag inner | otag name inner | otag bytes next
                      | otag elems next ]; [ discriminate Hc | | | | | ].
      * (* pair cell *)
        cbn [rep] in Hr. destruct Hr as (Ht & Htag & Hl & Hh & Ha & Hb).
        assert (Hno : negb (WIKRT_O =? wikrt_vtag v) = true).
        { rewrite Ht. destruct Htag as [-> | [-> | ->]]; reflexivity. }
        rewrite Hno. cbn [nodes] in *. rewrite !add_size_task_drop.
        destruct (drop_push_one lo hi m s1 a _ ts (nodes a + nodes b + nodes_list ts)
                    Hlo Hhi Ha Hst) as (m1 & s2 & E1 & Es2 & Hs2 & Hf1).
        { lia. }
        { subst s1. unfold sizeof_val in *. lia. }
        rewrite E1.
        assert (Hfr1 : forall x, lo <= x < hi -> m1 x = m x).
        { intros x Hx. apply Hf1. subst s1. pose proof (pushed_one_length a).
          unfold sizeof_val in *. lia. }
        rewrite (Hfr1 (wikrt_pval v + sizeof_val))
          by (unfold WIKRT_CELLSIZE, sizeof_val in *; lia).
        rewrite add_size_task_drop.
        destruct (drop_push_one lo hi m1 s2 b _ (pushed [a] ++ ts)
                    (nodes a + nodes b + nodes_list ts)
                    Hlo Hhi (rep_frame m m1 lo hi Hfr1 Hlo Hhi _ _ Hb) Hs2)
          as (m2 & s3 & E2 & Es3 & Hs3 & Hf2).
        { rewrite length_app. pose proof (pushed_one_length a). lia. }
        { rewrite length_app, Nat2Z.inj_add. subst s2 s1. unfold sizeof_val in *. lia. }
        rewrite E2.
        assert (Hnl : nodes_list [a; b] = (nodes a + nodes b)%nat).
        { unfold nodes_list. cbn. lia. }
        destruct (vsize_children lo hi n IH [a; b] ts m m2 s0 s3
                    (wrap32 (result + WIKRT_CELLSIZE)) f) as (m3 & E3 & Hf3);
          rewrite ?Hnl; try assumption; try lia; try apply wrap32_range.
        -- rewrite pushed_two, !length_app, !Nat2Z.inj_add. subst s3 s2 s1.
           unfold sizeof_val. lia.
        -- rewrite pushed_two, <- app_assoc. exact Hs3.
        -- intros x Hx. rewrite Hf2, Hf1; [ reflexivity | | ].
           ++ subst s2 s1. unfold sizeof_val in *. lia.
           ++ subst s2 s1. unfold sizeof_val in *. lia.
        -- exists m3. rewrite E3. split; [ | rewrite Hnl in Hf3; exact Hf3 ].
           wrap_eq.
      * (* (otag, value) objects *)
        cbn [rep] in Hr. destruct Hr as (Ht & Hl & Hh & Ho & Hbx & Hi).
        unfold wikrt_pobj in *. fold (wikrt_pval v) in *.
        assert (Hno : negb (WIKRT_O =? wikrt_vtag v) = false) by (rewrite Ht; reflexivity).
        rewrite Hno, Ho. cbn [nodes] in *.
        destruct (Hone inner (m (wikrt_pval v + sizeof_val)) (result + WIKRT_CELLSIZE))
          as (m' & E & Hf); try assumption; try lia.
        exists m'. split; [ | exact Hf ].
        destruct (box_otag_cases otag Hbx) as [Hk | [Hk | [Hk | [Hk | [Hk | [Hk | Hk]]]]]];
          rewrite Hk; eval_eqb; cbv iota; rewrite E; wrap_eq.
      * (* SEAL *)
        cbn [rep] in Hr. destruct Hr as (Ht & Hl & Hh & Hh2 & Ho & Hk & Hlen' & Hby & Hi).
        unfold wikrt_pobj in *. fold (wikrt_pval v) in *.
        assert (Hno : negb (WIKRT_O =? wikrt_vtag v) = false) by (rewrite Ht; reflexivity).
        rewrite Hno, Ho, Hk. eval_eqb. cbv iota. cbn [nodes] in *.
        destruct (Hone inner (m (wikrt_pval v + sizeof_val))
                    (result + wikrt_cellbuff (wrap32 (WIKRT_CELLSIZE + Z.shiftr otag 8))))
          as (m' & E & Hf); try assumption; try lia.
        exists m'. rewrite E. split; [ | exact Hf ]. rewrite Hlen'. wrap_eq.
      * (* BINARY *)
        cbn [rep] in Hr.
        destruct Hr as (Ht & Hl & Hh & Ho & Hk & Hlen' & Hbl & Hbh & Hby & Hi).
        unfold wikrt_pobj in *. fold (wikrt_pval v) in *.
        assert (Hno : negb (WIKRT_O =? wikrt_vtag v) = false) by (rewrite Ht; reflexivity).
        rewrite Hno, Ho, Hk. eval_eqb. cbv iota. cbn [nodes] in *.
        destruct (Hone next (m (wikrt_pval v + sizeof_val))
                    (result + wrap32 (2 * WIKRT_CELLSIZE
                                      + wikrt_cellbuff (m (wikrt_pval v + 2 * sizeof_val)))))
          as (m' & E & Hf); try assumption; try lia.
        exists m'. rewrite E. split; [ | exact Hf ]. rewrite Hlen'. wrap_eq.
      * (* ARRAY *)
        cbn [rep] in Hr.
        destruct Hr as (Ht & Hl & Hh & Ho & Hk & Hlen' & Hbl & Hbh & Hal & Hel & Hi).
        unfold wikrt_pobj in *. fold (wikrt_pval v) in *.
        assert (Hno : negb (WIKRT_O =? wikrt_vtag v) = false) by (rewrite Ht; reflexivity).
        rewrite Hno, Ho, Hk. eval_eqb. cbv iota. cbn [nodes] in *.
        fold (nodes_list elems) in *.
        rewrite Hlen', Nat2Z.id, size_elems_drop.
        destruct (drop_elems_spec lo hi Hlo Hhi elems m s1
                    (m (wikrt_pval v + 3 * sizeof_val)) 0 ts)
          as (m1 & s2 & E1 & Es2 & Hs2 & Hf1).
        { rewrite Z.mul_0_l, Z.add_0_r. exact Hel. }
        { lia. } { lia. } { exact Hst. }
        { pose proof (pushed_length_le elems). subst s1. unfold sizeof_val in *. lia. }
        rewrite E1.
        assert (Hfr1 : forall x, lo <= x < hi -> m1 x = m x).
        { intros x Hx. apply Hf1. pose proof (pushed_length_le elems).
          subst s2 s1. unfold sizeof_val in *. lia. }
        rewrite (Hfr1 (wikrt_pval v + sizeof_val))
          by (unfold WIKRT_CELLSIZE, sizeof_val in *; lia).
        rewrite add_size_task_drop.
        destruct (drop_push_one lo hi m1 s2 next _ (pushed elems ++ ts)
                    (nodes_list elems + nodes next + nodes_list ts)
                    Hlo Hhi (rep_frame m m1 lo hi Hfr1 Hlo Hhi _ _ Hi) Hs2)
          as (m2 & s3 & E2 & Es3 & Hs3 & Hf2).
        { rewrite length_app. pose proof (pushed_length_le elems). lia. }
        { rewrite length_app, Nat2Z.inj_add. subst s2 s1. unfold sizeof_val in *. lia. }
        rewrite E2.
        assert (Hnl : nodes_list (elems ++ [next]) = (nodes_list elems + nodes next)%nat).
        { rewrite nodes_list_app, nodes_list_one. reflexivity. }
        destruct (vsize_children lo hi n IH (elems ++ [next]) ts m m2 s0 s3
                    (wrap32 (result + wrap32 (2 * WIKRT_CELLSIZE
                       + wikrt_cellbuff (wrap32 (Z.of_nat (length elems) * sizeof_val))))) f)
          as (m3 & E3 & Hf3); rewrite ?Hnl; try assumption; try lia;
          try apply wrap32_range.
        -- rewrite pushed_app, !length_app, !Nat2Z.inj_add. subst s3 s2 s1.
           unfold sizeof_val. lia.
        -- rewrite pushed_app, <- app_assoc. exact Hs3.
        -- intros x Hx. rewrite Hf2, Hf1; [ reflexivity | | ].
           ++ subst s2 s1. unfold sizeof_val in *. lia.
           ++ subst s2 s1. unfold sizeof_val in *. lia.
        -- exists m3. rewrite E3. split; [ | rewrite Hnl in Hf3; exact Hf3 ].
           rewrite ?wrap32_add_l, ?wrap32_add_r, ?wrap32_add_mid, ?cellbuff_wrap.
           apply f_equal, f_equal, f_equal.
           rewrite !tsizes_app, tsizes_one, tsizes_cons. cbn [tsize].
           fold (tsizes elems). lia.
Qed.

Lemma vsize_spec (lo hi : Z) (cx : wikrt_cx) (s0 v0 : Z) (t : tree) (fuel : nat) :
  lo mod 4 = 0 -> hi mod 4 = 0 ->
  rep (cx_arena cx) lo hi t v0 ->
  (s0 + Z.of_nat (S (nodes t)) * sizeof_val <= lo \/ hi <= s0) ->
  (nodes t < fuel)%nat ->
  exists m',
    wikrt_vsize fuel cx s0 v0 = Ret (set_arena cx m', wrap32 (tsize t)) /\
    (forall x, (x < s0 \/ s0 + Z.of_nat (S (nodes t)) * sizeof_val <= x) ->
               m' x = cx_arena cx x).
Proof.
  intros Hlo Hhi Hr Hd Hf. unfold wikrt_vsize.
  destruct (vsize_one_child lo hi (nodes t) Hlo Hhi (vsize_loop_ok lo hi Hlo Hhi _)
              t v0 [] (cx_arena cx) s0 0 fuel) as (m' & E & Hfr); try assumption.
  - cbn [stack_up]. exact I.
  - unfold nodes_list. cbn. lia.
  - unfold nodes_list. cbn. lia.
  - lia.
  - unfold nodes_list. cbn [map fold_right]. rewrite Nat.add_0_r. exact Hd.
  - cbn [length] in E. rewrite Z.mul_0_l, Z.add_0_r in E.
    destruct (wikrt_add_size_task (cx_arena cx) s0 v0) as [m1 s1].
    rewrite E. cbn [bind]. exists m'.
    unfold tsizes, nodes_list in *. cbn [map fold_right] in *.
    rewrite Z.add_0_l, Z.add_0_r. split; [ reflexivity | ].
    intros x Hx. apply Hfr. rewrite Nat.add_0_r. exact Hx.
Qed.

(** ** Bytes and words *)

Definition arena32 (m : arena) : Prop := forall x, 0 <= m x < 2 ^ 32.

Lemma byte_shift_cases (a : Z) :
  2 ^ (8 * (a mod 4)) = 1 \/ 2 ^ (8 * (a mod 4)) = 256 \/
  2 ^ (8 * (a mod 4)) = 65536 \/ 2 ^ (8 * (a mod 4)) = 16777216.
Proof.
  assert (H : a mod 4 = 0 \/ a mod 4 = 1 \/ a mod 4 = 2 \/ a mod 4 = 3)
    by (pose proof (Z.mod_pos_bound a 4); lia).
  destruct H as [-> | [-> | [-> | ->]]]; cbn; auto.
Qed.

Lemma load8_range (m : arena) (a : Z) : 0 <= load8 m a < 256.
Proof. unfold load8. apply Z.mod_pos_bound. lia. Qed.

Lemma replace_byte_same (w k b : Z) :
  0 < k -> ((w - (w / k) mod 256 * k + b mod 256 * k) / k) mod 256 = b mod 256.
Proof.
  intros Hk.
  replace (w - (w / k) mod 256 * k + b mod 256 * k)
    with (w mod k + (256 * (w / k / 256) + b mod 256) * k).
  - rewrite Z.div_add by lia. rewrite (Z.div_small (w mod k) k) by (apply Z.mod_pos_bound; lia).
    rewrite Z.add_0_l, Z.add_comm, Z.mul_comm, Z_mod_plus_full. apply Z.mod_mod. lia.
  - pose proof (Z.div_mod w k ltac:(lia)) as E1.
    pose proof (Z.div_mod (w / k) 256 ltac:(lia)) as E2. nia.
Qed.

Lemma load8_store8_same (m : arena) (a b : Z) : load8 (store8 m a b) a = b mod 256.
Proof.
  unfold load8, store8. rewrite upd_same. apply replace_byte_same.
  apply Z.pow_pos_nonneg; [ lia | ]. pose proof (Z.mod_pos_bound a 4). lia.
Qed.

Lemma store8_word_other (m : arena) (a b x : Z) :
  x <> a - a mod 4 -> store8 m a b x = m x.
Proof. intros H. unfold store8. apply upd_other. exact H. Qed.

Lemma replace_byte_other (w b k k' : Z) :
  (k = 1 \/ k = 256 \/ k = 65536 \/ k = 16777216) ->
  (k' = 1 \/ k' = 256 \/ k' = 65536 \/ k' = 16777216) ->
  k <> k' -> 0 <= b < 256 ->
  ((w - (w / k) mod 256 * k + b * k) / k') mod 256 = (w / k') mod 256.
Proof.
  intros Hk Hk' Hne Hb.
  destruct Hk as [-> | [-> | [-> | ->]]]; destruct Hk' as [-> | [-> | [-> | ->]]];
    try congruence; Z.div_mod_to_equations; lia.
Qed.

Lemma load8_store8_other (m : arena) (a b c : Z) :
  a <> c -> load8 (store8 m a b) c = load8 m c.
Proof.
  intros Hne. unfold load8, store8.
  destruct (Z.eq_dec (c - c mod 4) (a - a mod 4)) as [E | E].
  - rewrite E, upd_same.
    assert (Hm : a mod 4 <> c mod 4) by lia.
    apply replace_byte_other.
    + apply byte_shift_cases.
    + apply byte_shift_cases.
    + pose proof (Z.mod_pos_bound a 4). pose proof (Z.mod_pos_bound c 4).
      assert (Ha : a mod 4 = 0 \/ a mod 4 = 1 \/ a mod 4 = 2 \/ a mod 4 = 3) by lia.
      assert (Hc : c mod 4 = 0 \/ c mod 4 = 1 \/ c mod 4 = 2 \/ c mod 4 = 3) by lia.
      destruct Ha as [Ha | [Ha | [Ha | Ha]]]; destruct Hc as [Hc | [Hc | [Hc | Hc]]];
        rewrite Ha, Hc in *; cbn; lia.
    + apply Z.mod_pos_bound. lia.
  - rewrite upd_other by exact E. reflexivity.
Qed.

Lemma replace_byte_range (w b k : Z) :
  (k = 1 \/ k = 256 \/ k = 65536 \/ k = 16777216) ->
  0 <= w < 2 ^ 32 -> 0 <= b < 256 ->
  0 <= w - (w / k) mod 256 * k + b * k < 2 ^ 32.
Proof.
  intros Hk Hw Hb. change (2 ^ 32) with 4294967296 in *.
  destruct Hk as [-> | [-> | [-> | ->]]]; Z.div_mod_to_equations; lia.
Qed.

Lemma store8_arena32 (m : arena) (a b : Z) : arena32 m -> arena32 (store8 m a b).
Proof.
  intros H x. unfold store8, upd. destruct (x =? a - a mod 4); [ | apply H ].
  apply replace_byte_range; [ apply byte_shift_cases | apply H | ].
  apply Z.mod_pos_bound. lia.
Qed.

Lemma upd_arena32 (m : arena) (a v : Z) :
  arena32 m -> 0 <= v < 2 ^ 32 -> arena32 (upd m a v).
Proof. intros H Hv x. unfold upd. destruct (x =? a); [ exact Hv | apply H ]. Qed.

Lemma word_of_bytes (m : arena) (a : Z) :
  a mod 4 = 0 -> 0 <= m a < 2 ^ 32 ->
  m a = load8 m a + 256 * load8 m (a + 1) + 65536 * load8 m (a + 2)
        + 16777216 * load8 m (a + 3).
Proof.
  intros Ha Hr. unfold load8.
  assert (E1 : (a + 1) mod 4 = 1) by (Z.div_mod_to_equations; lia).
  assert (E2 : (a + 2) mod 4 = 2) by (Z.div_mod_to_equations; lia).
  assert (E3 : (a + 3) mod 4 = 3) by (Z.div_mod_to_equations; lia).
  rewrite Ha, E1, E2, E3.
  replace (a + 1 - 1) with a by lia. replace (a + 2 - 2) with a by lia.
  replace (a + 3 - 3) with a by lia. rewrite Z.sub_0_r.
  change (2 ^ (8 * 0)) with 1. change (2 ^ (8 * 1)) with 256.
  change (2 ^ (8 * 2)) with 65536. change (2 ^ (8 * 3)) with 16777216.
  change (2 ^ 32) with 4294967296 in Hr.
  Z.div_mod_to_equations. lia.
Qed.

(** [memcpy] between disjoint byte ranges. *)
Lemma memcpy_byte_frame (n : nat) (m : arena) (dst src y : Z) :
  (y < dst \/ dst + Z.of_nat n <= y) ->
  load8 (memcpy m dst src n) y = load8 m y.
Proof.
  revert m dst src. induction n as [ | n IH ]; intros m dst src Hy; cbn [memcpy].
  - reflexivity.
  - rewrite Nat2Z.inj_succ in Hy. rewrite IH by lia.
    apply load8_store8_other. lia.
Qed.

Lemma memcpy_bytes (n : nat) (m : arena) (dst src : Z) :
  (src + Z.of_nat n <= dst \/ dst + Z.of_nat n <= src) ->
  forall i, 0 <= i < Z.of_nat n ->
  load8 (memcpy m dst src n) (dst + i) = load8 m (src + i).
Proof.
  revert m dst src. induction n as [ | n IH ]; intros m dst src Hd i Hi; [ lia | ].
  cbn [memcpy]. rewrite Nat2Z.inj_succ in *.
  destruct (Z.eq_dec i 0) as [-> | Hi0].
  - rewrite !Z.add_0_r, memcpy_byte_frame by lia.
    rewrite load8_store8_same. apply Z.mod_small, load8_range.
  - replace (dst + i) with (dst + 1 + (i - 1)) by lia.
    rewrite IH by lia.
    replace (src + 1 + (i - 1)) with (src + i) by lia.
    apply load8_store8_other. lia.
Qed.

Lemma memcpy_word_frame (n : nat) (m : arena) (dst src x : Z) :
  (x + 4 <= dst \/ dst + Z.of_nat n <= x \/ x mod 4 <> 0) ->
  memcpy m dst src n x = m x.
Proof.
  revert m dst src. induction n as [ | n IH ]; intros m dst src Hx; cbn [memcpy].
  - reflexivity.
  - rewrite Nat2Z.inj_succ in Hx. rewrite IH.
    + apply store8_word_other. Z.div_mod_to_equations. lia.
    + lia.
Qed.

Lemma memcpy_arena32 (n : nat) (m : arena) (dst src : Z) :
  arena32 m -> arena32 (memcpy m dst src n).
Proof.
  revert m dst src. induction n as [ | n IH ]; intros m dst src H; cbn [memcpy].
  - exact H.
  - apply IH, store8_arena32, H.
Qed.

Lemma memcpy_word (n : nat) (m : arena) (dst src k : Z) :
  arena32 m -> dst mod 4 = 0 -> src mod 4 = 0 ->
  (src + Z.of_nat n <= dst \/ dst + Z.of_nat n <= src) ->
  0 <= k -> k + 4 <= Z.of_nat n -> k mod 4 = 0 ->
  memcpy m dst src n (dst + k) = m (src + k).
Proof.
  intros H32 Hd Hs Hdis Hk Hk4 Hkm.
  rewrite (word_of_bytes (memcpy m dst src n) (dst + k)).
  - rewrite (word_of_bytes m (src + k)).
    + rewrite <- !Z.add_assoc. rewrite !memcpy_bytes by lia. reflexivity.
    + Z.div_mod_to_equations. lia.
    + apply H32.
  - Z.div_mod_to_equations. lia.
  - apply memcpy_arena32, H32.
Qed.

Lemma bytes_at_memcpy (bs : list Z) (n : nat) (m : arena) (dst src k : Z) :
  (src + Z.of_nat n <= dst \/ dst + Z.of_nat n <= src) ->
  0 <= k -> k + Z.of_nat (length bs) <= Z.of_nat n ->
  bytes_at m (src + k) bs -> bytes_at (memcpy m dst src n) (dst + k) bs.
Proof.
  intros Hd. revert k. induction bs as [ | b bs IH ]; intros k Hk Hl H; cbn [bytes_at] in *.
  - exact I.
  - cbn [length] in Hl. rewrite Nat2Z.inj_succ in Hl. destruct H as [H1 H2]. split.
    + rewrite memcpy_bytes by lia. exact H1.
    + rewrite <- Z.add_assoc. apply IH; [ lia | lia | ].
      rewrite Z.add_assoc. exact H2.
Qed.

(** ** Sizes and tagged addresses *)

Lemma land_mask_small (y : Z) :
  0 <= y < 2 ^ 32 -> Z.land y (WIKRT_VAL_MAX - 7) = y - y mod 8.
Proof.
  intros Hy.
  assert (E : Z.land y (WIKRT_VAL_MAX - 7) = Z.ldiff y (Z.ones 3)).
  { apply Z.bits_inj'. intros n Hn.
    rewrite Z.land_spec, Z.ldiff_spec.
    destruct (Z.ltb_spec n 3) as [H3 | H3].
    - rewrite Z.ones_spec_low by lia.
      assert (Hc : n = 0 \/ n = 1 \/ n = 2) by lia.
      destruct Hc as [-> | [-> | ->]]; cbn; rewrite ?andb_false_r; reflexivity.
    - rewrite (Z.ones_spec_high 3 n) by lia. cbn [negb]. rewrite andb_true_r.
      destruct (Z.ltb_spec n 32) as [H32 | H32].
      + replace (Z.testbit (WIKRT_VAL_MAX - 7) n) with true; [ apply andb_true_r | ].
        change (WIKRT_VAL_MAX - 7) with (Z.shiftl (Z.ones 29) 3).
        rewrite Z.shiftl_spec by lia. rewrite Z.ones_spec_low by lia. reflexivity.
      + replace (Z.testbit y n) with false; [ reflexivity | ].
        symmetry. destruct (Z.eq_dec y 0) as [-> | Hy0]; [ apply Z.bits_0 | ].
        apply Z.bits_above_log2; [ lia | ].
        apply Z.log2_lt_pow2; [ lia | ].
        apply Z.lt_le_trans with (2 ^ 32); [ lia | ].
        apply Z.pow_le_mono_r; lia. }
  rewrite E, Z.ldiff_ones_r by lia.
  rewrite Z.shiftr_div_pow2, Z.shiftl_mul_pow2 by lia. change (2 ^ 3) with 8.
  Z.div_mod_to_equations. lia.
Qed.

Lemma cellbuff_eq (n : Z) :
  0 <= n <= 2 ^ 32 - 8 -> wikrt_cellbuff n = n + 7 - (n + 7) mod 8.
Proof.
  intros Hn. unfold wikrt_cellbuff, WIKRT_CELLSIZE.
  replace (n + (8 - 1)) with (n + 7) by lia.
  rewrite land_mask_small by lia.
  apply wrap32_small. Z.div_mod_to_equations. lia.
Qed.

Lemma cellbuff_range (n : Z) : 0 <= wikrt_cellbuff n < 2 ^ 32.
Proof. apply wrap32_range. Qed.

Lemma cellbuff_aligned (n : Z) : wikrt_cellbuff n mod 8 = 0.
Proof.
  unfold wikrt_cellbuff, wrap32.
  rewrite <- (land_mask_wrap (n + _)). fold (wrap32 (Z.land (wrap32 (n + (WIKRT_CELLSIZE - 1))) (WIKRT_VAL_MAX - 7))).
  rewrite land_mask_small by apply wrap32_range.
  rewrite wrap32_small.
  - Z.div_mod_to_equations. lia.
  - pose proof (wrap32_range (n + (WIKRT_CELLSIZE - 1))). Z.div_mod_to_equations. lia.
Qed.

Lemma tag_addr_add (tag a : Z) :
  0 <= tag < 8 -> a mod 8 = 0 -> wikrt_tag_addr tag a = a + tag.
Proof.
  intros Ht Ha. unfold wikrt_tag_addr. rewrite Z.lor_comm.
  replace a with (Z.shiftl (a / 8) 3) at 1
    by (rewrite Z.shiftl_mul_pow2 by lia; change (2 ^ 3) with 8;
        Z.div_mod_to_equations; lia).
  rewrite lor_shiftl_low by (change (2 ^ 3) with 8; lia).
  change (2 ^ 3) with 8. Z.div_mod_to_equations. lia.
Qed.

Lemma tag_addr_vtag (tag a : Z) :
  0 <= tag < 8 -> a mod 8 = 0 -> wikrt_vtag (wikrt_tag_addr tag a) = tag.
Proof.
  intros Ht Ha. rewrite tag_addr_add by assumption. rewrite vtag_mod.
  Z.div_mod_to_equations. lia.
Qed.

Lemma tag_addr_vaddr (tag a : Z) :
  0 <= tag < 8 -> a mod 8 = 0 -> 0 <= a < 2 ^ 32 ->
  wikrt_vaddr (wikrt_tag_addr tag a) = a.
Proof.
  intros Ht Ha Hr. rewrite tag_addr_add by assumption.
  unfold wikrt_vaddr. rewrite land_mask_small by (Z.div_mod_to_equations; lia).
  Z.div_mod_to_equations. lia.
Qed.

Lemma tag_addr_range (tag a : Z) :
  0 <= tag < 8 -> a mod 8 = 0 -> 0 <= a < 2 ^ 32 ->
  0 <= wikrt_tag_addr tag a < 2 ^ 32.
Proof.
  intros Ht Ha Hr. rewrite tag_addr_add by assumption. Z.div_mod_to_equations. lia.
Qed.

Lemma tag_addr_deep (tag a : Z) :
  0 <= tag < 4 -> a mod 8 = 0 -> wikrt_copy_shallow (wikrt_tag_addr tag a) = false.
Proof.
  intros Ht Ha. rewrite copy_shallow_vtag, tag_addr_vtag by lia.
  assert (H : tag = 0 \/ tag = 1 \/ tag = 2 \/ tag = 3) by lia.
  destruct H as [-> | [-> | [-> | ->]]]; reflexivity.
Qed.

Lemma tsizes_nonneg_of (l : list tree) :
  Forall (fun e => 0 <= tsize e) l -> 0 <= fold_right Z.add 0 (map tsize l).
Proof. induction 1; cbn; lia. Qed.

Lemma tsize_nonneg (t : tree) : 0 <= tsize t.
Proof.
  induction t using tree_induction; cbn [tsize]; unfold WIKRT_CELLSIZE;
    try pose proof (cellbuff_range (8 + Z.of_nat (length name)));
    try pose proof (cellbuff_range (Z.of_nat (length bytes)));
    try pose proof (cellbuff_range (Z.of_nat (length elems) * sizeof_val));
    try lia.
  pose proof (tsizes_nonneg_of elems ltac:(assumption)). lia.
Qed.

Lemma tsizes_nonneg (l : list tree) : 0 <= tsizes l.
Proof. apply tsizes_nonneg_of, Forall_forall. intros e _. apply tsize_nonneg. Qed.

Lemma tsizes_aligned_of (l : list tree) :
  Forall (fun e => tsize e mod 8 = 0) l -> fold_right Z.add 0 (map tsize l) mod 8 = 0.
Proof.
  induction 1 as [ | e l He _ IH ]; cbn; [ reflexivity | ].
  Z.div_mod_to_equations. lia.
Qed.

Lemma tsize_aligned (t : tree) : tsize t mod 8 = 0.
Proof.
  induction t using tree_induction; cbn [tsize]; unfold WIKRT_CELLSIZE;
    try pose proof (cellbuff_aligned (8 + Z.of_nat (length name)));
    try pose proof (cellbuff_aligned (Z.of_nat (length bytes)));
    try pose proof (cellbuff_aligned (Z.of_nat (length elems) * sizeof_val));
    try pose proof (tsizes_aligned_of elems ltac:(assumption));
    try reflexivity; Z.div_mod_to_equations; lia.
Qed.

(** A value that is not a constant owns at least one cell. *)
Lemma tsize_cell (m : arena) (lo hi : Z) (t : tree) (w : Z) :
  8 <= lo -> hi <= 2 ^ 32 ->
  rep m lo hi t w -> is_const t = false -> WIKRT_CELLSIZE <= tsize t.
Proof.
  intros Hlo Hhi Hr Hc. unfold WIKRT_CELLSIZE.
  destruct t as [ c | tag a b | otag inner | otag name inner | otag bytes next
                  | otag elems next ]; [ discriminate Hc | | | | | ];
    cbn [tsize]; unfold WIKRT_CELLSIZE.
  - pose proof (tsize_nonneg a). pose proof (tsize_nonneg b). lia.
  - pose proof (tsize_nonneg inner). lia.
  - pose proof (tsize_nonneg inner).
    cbn [rep] in Hr. destruct Hr as (_ & Hl & _ & Hh2 & _).
    unfold sizeof_val in Hh2. rewrite cellbuff_eq by lia.
    Z.div_mod_to_equations. lia.
  - pose proof (tsize_nonneg next).
    pose proof (cellbuff_range (Z.of_nat (length bytes))). lia.
  - pose proof (tsize_nonneg next).
    pose proof (cellbuff_range (Z.of_nat (length elems) * sizeof_val)).
    pose proof (tsizes_nonneg elems). unfold tsizes in *. lia.
Qed.

Lemma rep_region_mono (m : arena) (lo hi lo' hi' : Z) :
  lo' <= lo -> hi <= hi' ->
  forall t w, rep m lo hi t w -> rep m lo' hi' t w.
Proof.
  intros Hl Hh t.
  induction t using tree_induction; intros w0 H0; cbn [rep] in *.
  - exact H0.
  - destruct H0 as (Ht & Hc & Hl1 & Hh1 & Ha & Hb).
    repeat split; auto; lia.
  - destruct H0 as (Ht & Hl1 & Hh1 & Ho & Hbx & Hi).
    repeat split; auto; lia.
  - destruct H0 as (Ht & Hl1 & Hh1 & Hh2 & Ho & Hk & Hlen & Hby & Hi).
    repeat split; auto; lia.
  - destruct H0 as (Ht & Hl1 & Hh1 & Ho & Hk & Hlen & Hbl & Hbh & Hby & Hi).
    repeat split; auto; lia.
  - destruct H0 as (Ht & Hl1 & Hh1 & Ho & Hk & Hlen & Hbl & Hbh & Hal & Hel & Hi).
    repeat split; auto; try lia.
    eapply elems_at_weaken; [ | | exact Hel ]; [ | reflexivity ].
    assumption.
Qed.

(** ** Structural copy *)

Section CopyProof.

Variables lo hi A0 : Z.
Hypothesis Hlo8 : 8 <= lo.
Hypothesis Hhi32 : hi <= 2 ^ 32.
Hypothesis Hlo4 : lo mod 4 = 0.
Hypothesis Hhi4 : hi mod 4 = 0.
Hypothesis HA0 : 0 <= A0.

Definition slot_ok (A a : Z) : Prop := A0 <= a /\ a + sizeof_val <= A /\ a mod 4 = 0.

Definition pend (m : arena) (A : Z) (p : Z * tree) : Prop :=
  slot_ok A (fst p) /\ is_const (snd p) = false /\ rep m lo hi (snd p) (m (fst p)).

Record cstate (m : arena) (A s0 : Z) (L : list (Z * tree)) : Prop := mk_cstate {
  cs_32 : arena32 m;
  cs_al : A mod 8 = 0;
  cs_A0 : A0 <= A;
  cs_s0 : s0 mod 4 = 0 /\ s0 < 2 ^ 32 /\ (hi <= A0 \/ s0 <= lo);
  cs_room : A + tsizes (trees L) <= s0;
  cs_pend : Forall (pend m A) L;
  cs_nodup : NoDup (slots L);
  cs_stack : cstack m (s0 - Z.of_nat (length L) * sizeof_val) L
}.

Definition copied (m : arena) (A A' : Z) (p : Z * tree) : Prop :=
  rep m A A' (snd p) (m (fst p)).

Definition cframe (m m' : arena) (A s0 : Z) (sl : list Z) : Prop :=
  forall x, (x < A \/ s0 <= x) -> ~ In x sl -> m' x = m x.

Lemma pend_sizes (m : arena) (A : Z) (L : list (Z * tree)) :
  Forall (pend m A) L -> WIKRT_CELLSIZE * Z.of_nat (length L) <= tsizes (trees L).
Proof.
  induction 1 as [ | p L Hp _ IH ]; [ cbn; lia | ].
  destruct Hp as (_ & Hc & Hr). unfold trees in *. cbn [map length].
  rewrite tsizes_cons, Nat2Z.inj_succ.
  pose proof (tsize_cell _ _ _ _ _ Hlo8 Hhi32 Hr Hc). lia.
Qed.

Lemma cstate_top (m : arena) (A s0 : Z) (L : list (Z * tree)) :
  cstate m A s0 L -> A + Z.of_nat (length L) * sizeof_val <= s0 - Z.of_nat (length L) * sizeof_val.
Proof.
  intros H. pose proof (pend_sizes _ _ _ (cs_pend _ _ _ _ H)).
  pose proof (cs_room _ _ _ _ H). unfold WIKRT_CELLSIZE, sizeof_val in *. lia.
Qed.

Lemma cstack_frame (m m' : arena) (L : list (Z * tree)) (s : Z) :
  (forall x, s <= x < s + Z.of_nat (length L) * sizeof_val -> m' x = m x) ->
  cstack m s L -> cstack m' s L.
Proof.
  revert s. induction L as [ | p L IH ]; intros s Hf H; cbn [cstack] in *; [ exact I | ].
  destruct H as [H1 H2]. cbn [length] in Hf. rewrite Nat2Z.inj_succ in Hf.
  unfold sizeof_val in *. split.
  - rewrite Hf by lia. exact H1.
  - apply IH; [ | exact H2 ]. intros x Hx. apply Hf. lia.
Qed.

Lemma source_apart (A s0 x : Z) :
  A0 <= A -> (hi <= A0 \/ s0 <= lo) -> lo <= x < hi -> x < A \/ s0 <= x.
Proof. lia. Qed.

(** The state survives any change that keeps the source, the pending
    words and the stack. *)
Lemma cstate_frame (m m' : arena) (A A' s0 : Z) (L : list (Z * tree)) :
  cstate m A s0 L ->
  arena32 m' -> A <= A' -> A' mod 8 = 0 -> A' + tsizes (trees L) <= s0 ->
  (forall x, lo <= x < hi -> m' x = m x) ->
  (forall x, In x (slots L) -> m' x = m x) ->
  (forall x, s0 - Z.of_nat (length L) * sizeof_val <= x < s0 -> m' x = m x) ->
  cstate m' A' s0 L.
Proof.
  intros H H32 HA Hal Hroom Hsrc Hsl Hst.
  destruct H as [h32 hal hA0 hs0 hroom hpend hnd hstack].
  constructor; try assumption; try lia.
  - apply Forall_forall. intros p Hp.
    rewrite Forall_forall in hpend. destruct (hpend p Hp) as ((Hs1 & Hs2 & Hs3) & Hc & Hr).
    split; [ | split ]; [ | exact Hc | ].
    + unfold slot_ok. lia.
    + rewrite Hsl by (unfold slots; apply in_map; exact Hp).
      apply (rep_frame m m' lo hi Hsrc Hlo4 Hhi4). exact Hr.
  - apply (cstack_frame m m'); [ | exact hstack ].
    intros x Hx. apply Hst. lia.
Qed.

Lemma pend_slot_lt (m : arena) (A : Z) (L : list (Z * tree)) (x : Z) :
  Forall (pend m A) L -> In x (slots L) -> A0 <= x /\ x + sizeof_val <= A.
Proof.
  intros HF Hin. unfold slots in Hin. apply in_map_iff in Hin.
  destruct Hin as (p & <- & Hp). rewrite Forall_forall in HF.
  destruct (HF p Hp) as ((H1 & H2 & _) & _). lia.
Qed.

(** A word written into the fresh part of the heap. *)
Lemma cstate_upd (m : arena) (A s0 : Z) (L : list (Z * tree)) (x v : Z) :
  cstate m A s0 L ->
  A0 <= x -> x + sizeof_val <= s0 - Z.of_nat (length L) * sizeof_val ->
  ~ In x (slots L) -> 0 <= v < 2 ^ 32 ->
  cstate (upd m x v) A s0 L.
Proof.
  intros H Hx1 Hx2 Hx3 Hv.
  pose proof (cs_s0 _ _ _ _ H) as (_ & _ & Hd).
  apply (cstate_frame m _ A A s0 L H).
  - apply upd_arena32; [ apply (cs_32 _ _ _ _ H) | exact Hv ].
  - lia.
  - apply (cs_al _ _ _ _ H).
  - apply (cs_room _ _ _ _ H).
  - intros y Hy. apply upd_other. unfold sizeof_val in *. lia.
  - intros y Hy. apply upd_other. intros ->. exact (Hx3 Hy).
  - intros y Hy. apply upd_other. unfold sizeof_val in *. lia.
Qed.

Lemma cstate_alloc (m : arena) (A A' s0 : Z) (L : list (Z * tree)) :
  cstate m A s0 L -> A <= A' -> A' mod 8 = 0 -> A' + tsizes (trees L) <= s0 ->
  cstate m A' s0 L.
Proof.
  intros H HA Hal Hroom.
  apply (cstate_frame m m A A' s0 L H); auto. apply (cs_32 _ _ _ _ H).
Qed.

Lemma heap_alloc (cx : wikrt_cx) (m : arena) (A sz : Z) :
  wikrt_alloc_r (with_heap cx m A) sz = (with_heap cx m (wrap32 (A + sz)), A).
Proof. reflexivity. Qed.

Lemma heap_store (cx : wikrt_cx) (m : arena) (A a v : Z) :
  store (with_heap cx m A) a v = with_heap cx (upd m a v) A.
Proof. reflexivity. Qed.

Lemma heap_load (cx : wikrt_cx) (m : arena) (A a : Z) :
  load (with_heap cx m A) a = m a.
Proof. reflexivity. Qed.

Lemma heap_arena (cx : wikrt_cx) (m : arena) (A : Z) :
  cx_arena (with_heap cx m A) = m.
Proof. reflexivity. Qed.

Lemma heap_set_arena (cx : wikrt_cx) (m m' : arena) (A : Z) :
  set_arena (with_heap cx m A) m' = with_heap cx m' A.
Proof. reflexivity. Qed.

Lemma kid_length (q : Z) (c : tree) (L : list (Z * tree)) :
  Z.of_nat (length (kid q c ++ L)) =
  Z.of_nat (length L) + (if is_const c then 0 else 1).
Proof.
  unfold kid. destruct (is_const c); cbn [app length]; lia.
Qed.

(** [wikrt_cpv]: one field of the source object is stored at its new
    address, and the address is pushed when the field is not a constant. *)
Lemma cpv_spec (cx : wikrt_cx) (m : arena) (A s0 : Z) (L : list (Z * tree))
    (pv addr ix : Z) (c : tree) :
  let q := addr + ix * sizeof_val in
  cstate m A s0 L ->
  slot_ok A q -> ~ In q (slots L) ->
  rep m lo hi c (m (pv + ix * sizeof_val)) ->
  A + tsizes (trees (kid q c ++ L)) <= s0 ->
  exists m1,
    wikrt_cpv (with_heap cx m A) (s0 - Z.of_nat (length L) * sizeof_val) pv addr ix
      = (with_heap cx m1 A, s0 - Z.of_nat (length (kid q c ++ L)) * sizeof_val) /\
    cstate m1 A s0 (kid q c ++ L) /\
    m1 q = m (pv + ix * sizeof_val) /\
    cframe m m1 A s0 [q].
Proof.
  intros q H Hq Hnq Hr Hroom.
  pose proof (cs_s0 _ _ _ _ H) as (Hs4 & Hs32 & Hd).
  pose proof (cs_A0 _ _ _ _ H) as HAA0.
  pose proof (cs_32 _ _ _ _ H) as H32.
  destruct Hq as (Hq1 & Hq2 & Hq3).
  assert (Hw : wrap32 (addr + ix * sizeof_val) = q).
  { apply wrap32_small. fold q. pose proof (cstate_top _ _ _ _ H).
    unfold sizeof_val in *. lia. }
  unfold wikrt_cpv, wikrt_add_copy_task. rewrite Hw, heap_load, heap_store.
  rewrite (rep_shallow _ _ _ _ _ Hr).
  set (w := m (pv + ix * sizeof_val)) in *.
  unfold kid in *. destruct (is_const c) eqn:Hc; cbn [app] in *.
  - exists (upd m q w). split; [ reflexivity | ]. split; [ | split ].
    + apply cstate_upd; try assumption.
      * pose proof (cstate_top _ _ _ _ H). unfold sizeof_val in *. lia.
      * apply H32.
    + apply upd_same.
    + intros x Hx Hn. apply upd_other. intros ->. apply Hn. left. reflexivity.
  - pose proof (tsize_cell _ _ _ _ _ Hlo8 Hhi32 Hr Hc) as Hc8.
    pose proof (pend_sizes _ _ _ (cs_pend _ _ _ _ H)) as HL8.
    unfold trees in Hroom. cbn [map] in Hroom. rewrite tsizes_cons in Hroom.
    fold (trees L) in Hroom. cbn [snd] in Hroom.
    set (s := s0 - Z.of_nat (length L) * sizeof_val) in *.
    assert (Hs : A + sizeof_val <= s - sizeof_val /\ s mod 4 = 0 /\ s <= s0).
    { subst s. unfold WIKRT_CELLSIZE, sizeof_val in *. split; [ lia | ].
      split; [ Z.div_mod_to_equations; lia | lia ]. }
    destruct Hs as (Hs1 & Hs2 & Hs3).
    exists (upd (upd m q w) (s - sizeof_val) q).
    assert (Hfr : forall x, x <> q -> x <> s - sizeof_val ->
                  upd (upd m q w) (s - sizeof_val) q x = m x).
    { intros x H1 H2. rewrite !upd_other by assumption. reflexivity. }
    assert (Hbase : cstate (upd (upd m q w) (s - sizeof_val) q) A s0 L).
    { apply (cstate_frame m _ A A s0 L H).
      - apply upd_arena32; [ apply upd_arena32; [ exact H32 | apply H32 ] | ].
        unfold sizeof_val in *. lia.
      - lia.
      - apply (cs_al _ _ _ _ H).
      - apply (cs_room _ _ _ _ H).
      - intros x Hx. apply Hfr; unfold sizeof_val in *; lia.
      - intros x Hx. pose proof (pend_slot_lt _ _ _ _ (cs_pend _ _ _ _ H) Hx).
        apply Hfr; [ intros -> ; exact (Hnq Hx) | unfold sizeof_val in *; lia ].
      - intros x Hx. fold s in Hx. apply Hfr; unfold sizeof_val in *; lia. }
    split; [ | split; [ | split ] ].
    + cbn [length]. rewrite Nat2Z.inj_succ. rewrite heap_store. f_equal.
      subst s. unfold sizeof_val. lia.
    + destruct Hbase as [h32 hal hA0 hs0 hroom hpend hnd hstack].
      constructor; try assumption.
      * constructor; [ | exact hpend ].
        split; [ | split ]; cbn [fst snd]; [ unfold slot_ok; auto | exact Hc | ].
        rewrite upd_other by (unfold sizeof_val in *; lia). rewrite upd_same.
        apply (rep_frame m _ lo hi); try assumption.
        intros x Hx. apply Hfr; unfold sizeof_val in *; lia.
      * unfold slots. cbn [map fst]. constructor; assumption.
      * cbn [length cstack fst]. rewrite Nat2Z.inj_succ.
        replace (s0 - Z.succ (Z.of_nat (length L)) * sizeof_val) with (s - sizeof_val)
          by (subst s; unfold sizeof_val; lia).
        split; [ apply upd_same | ].
        replace (s - sizeof_val + sizeof_val) with s by lia. exact hstack.
    + rewrite upd_other by (unfold sizeof_val in *; lia). apply upd_same.
    + intros x Hx Hn. apply Hfr.
      * intros ->. apply Hn. left. reflexivity.
      * unfold sizeof_val in *. lia.
Qed.

Lemma kid_tsizes (q : Z) (c : tree) (L : list (Z * tree)) :
  tsizes (trees (kid q c ++ L)) = tsize c + tsizes (trees L).
Proof.
  unfold kid. destruct c; cbn [is_const app]; unfold trees; cbn [map snd];
    rewrite ?tsizes_cons; cbn [tsize]; lia.
Qed.

Lemma kid_nodes (q : Z) (c : tree) (L : list (Z * tree)) :
  nodes_list (trees (kid q c ++ L)) = (nodes c + nodes_list (trees L))%nat.
Proof.
  unfold kid. destruct c; cbn [is_const app]; unfold trees; cbn [map snd];
    rewrite ?nodes_list_cons; cbn [nodes]; lia.
Qed.

Lemma kid_tflags (q : Z) (c : tree) (L : list (Z * tree)) :
  tflags_list (trees (kid q c ++ L)) = Z.lor (tflags c) (tflags_list (trees L)).
Proof.
  unfold kid. destruct c; cbn [is_const app]; unfold trees; cbn [map snd];
    rewrite ?tflags_list_cons; cbn [tflags]; reflexivity.
Qed.

Lemma kid_slots (q : Z) (c : tree) (x : Z) : In x (slots (kid q c)) -> x = q.
Proof.
  unfold kid. destruct (is_const c); cbn; intros H; [ contradiction | ].
  destruct H as [H | []]. symmetry. exact H.
Qed.

Lemma trees_app (l1 l2 : list (Z * tree)) : trees (l1 ++ l2) = trees l1 ++ trees l2.
Proof. apply map_app. Qed.

Lemma slots_app (l1 l2 : list (Z * tree)) : slots (l1 ++ l2) = slots l1 ++ slots l2.
Proof. apply map_app. Qed.

Lemma heap_read_dst (cx : wikrt_cx) (m : arena) (A root : Z) (dst : cloc) :
  read_dst (with_heap cx m A) root dst = read_slot m root dst.
Proof. destruct dst; reflexivity. Qed.

Lemma heap_write_dst (cx : wikrt_cx) (m : arena) (A root : Z) (dst : cloc) (v : Z) :
  write_dst (with_heap cx m A) root dst v
  = (with_heap cx (write_slot m dst v) A, new_root root dst v).
Proof. destruct dst; reflexivity. Qed.

Lemma read_write_slot (m : arena) (root : Z) (dst : cloc) (v : Z) :
  read_slot (write_slot m dst v) (new_root root dst v) dst = v.
Proof. destruct dst; cbn; [ reflexivity | apply upd_same ]. Qed.

Lemma write_slot_frame (m : arena) (dst : cloc) (v x : Z) :
  ~ In x (dst_slots dst) -> write_slot m dst v x = m x.
Proof.
  destruct dst; cbn; intros H; [ reflexivity | ].
  apply upd_other. intros ->. apply H. left. reflexivity.
Qed.

Lemma cstate_write_slot (m : arena) (A s0 : Z) (L : list (Z * tree))
    (dst : cloc) (v : Z) :
  cstate m A s0 L ->
  Forall (slot_ok A) (dst_slots dst) ->
  (forall a, In a (dst_slots dst) -> ~ In a (slots L)) ->
  0 <= v < 2 ^ 32 ->
  cstate (write_slot m dst v) A s0 L.
Proof.
  intros H Hs Hn Hv. destruct dst as [ | a ]; cbn [write_slot]; [ exact H | ].
  apply Forall_inv in Hs. destruct Hs as (H1 & H2 & H3).
  apply cstate_upd; try assumption.
  - pose proof (cstate_top _ _ _ _ H). unfold sizeof_val in *. lia.
  - apply Hn. left. reflexivity.
Qed.

(** The result of a copied field, once the walk is over. *)
Lemma child_done (ms m1 m' : arena) (A A1 A' s0 q : Z) (c : tree)
    (L : list (Z * tree)) (sl : list Z) :
  rep ms lo hi c (m1 q) ->
  A <= A1 -> q < A1 ->
  cframe m1 m' A1 s0 sl ->
  Forall (copied m' A1 A') L ->
  incl (kid q c) L ->
  (is_const c = true -> ~ In q sl) ->
  rep m' A A' c (m' q).
Proof.
  intros Hr HA Hq Hf Hc Hin Hcn. unfold kid in Hin.
  destruct (is_const c) eqn:E.
  - destruct c; try discriminate E. cbn [rep] in *.
    rewrite (Hf q) by (auto; lia). exact Hr.
  - assert (Hi : In (q, c) L) by (apply Hin; left; reflexivity).
    rewrite Forall_forall in Hc. specialize (Hc _ Hi). unfold copied in Hc.
    cbn [fst snd] in Hc. apply (rep_region_mono m' A1 A' A A'); try lia. exact Hc.
Qed.

Record body_pre (m : arena) (A root s0 : Z) (dst : cloc) (t : tree)
    (ps : list (Z * tree)) : Prop := mk_body_pre {
  bp_state : cstate m A s0 ps;
  bp_room : A + tsize t + tsizes (trees ps) <= s0;
  bp_deep : is_const t = false;
  bp_rep : rep m lo hi t (read_slot m root dst);
  bp_slot : Forall (slot_ok A) (dst_slots dst);
  bp_fresh : forall a, In a (dst_slots dst) -> ~ In a (slots ps)
}.

Definition body_post (cx : wikrt_cx) (m : arena) (A root : Z) (ss : option Z)
    (s0 : Z) (dst : cloc) (t : tree) (ps : list (Z * tree))
    (r : outcome (wikrt_cx * Z * option Z * Z)) : Prop :=
  exists m1 A1 root1 ss1 cs,
    r = Ret (with_heap cx m1 A1, root1, ss1,
             s0 - Z.of_nat (length (cs ++ ps)) * sizeof_val) /\
    cstate m1 A1 s0 (cs ++ ps) /\
    A1 + tsizes (trees cs) = A + tsize t /\
    A <= A1 /\
    ss_or ss1 (tflags_list (trees cs)) = ss_or ss (tflags t) /\
    (nodes_list (trees cs) < nodes t)%nat /\
    cframe m m1 A s0 (dst_slots dst) /\
    (dst <> LRoot -> root1 = root) /\
    (forall x, In x (slots cs) -> A <= x) /\
    (forall m' A', A + tsize t <= A' ->
        cframe m1 m' A1 s0 (slots (cs ++ ps)) -> Forall (copied m' A1 A') cs ->
        rep m' A A' t (read_slot m' root1 dst)).

Lemma new_root_keep (root : Z) (dst : cloc) (v : Z) :
  dst <> LRoot -> new_root root dst v = root.
Proof. destruct dst; [ congruence | reflexivity ]. Qed.

Lemma read_slot_frame (m m' : arena) (root : Z) (dst : cloc) :
  (forall a, In a (dst_slots dst) -> m' a = m a) ->
  read_slot m' root dst = read_slot m root dst.
Proof. destruct dst; cbn; intros H; [ reflexivity | apply H; left; reflexivity ]. Qed.

Lemma copy_body_cell nested (cx : wikrt_cx) (m : arena) (A root : Z) (ss : option Z)
    (s0 : Z) (dst : cloc) (tag : Z) (a b : tree) (ps : list (Z * tree)) :
  body_pre m A root s0 dst (TCell tag a b) ps ->
  body_post cx m A root ss s0 dst (TCell tag a b) ps
    (copy_body nested (with_heap cx m A) root ss
       (s0 - Z.of_nat (length ps) * sizeof_val) dst).
Proof.
  intros [H Hroom _ Hr Hsl Hfresh].
  pose proof (cs_s0 _ _ _ _ H) as (Hs4 & Hs32 & Hd).
  pose proof (cs_A0 _ _ _ _ H) as HAA0.
  pose proof (cs_32 _ _ _ _ H) as H32.
  pose proof (cs_al _ _ _ _ H) as Hal.
  pose proof (tsizes_nonneg (trees ps)) as Hps0.
  pose proof (tsize_nonneg a) as Ha0. pose proof (tsize_nonneg b) as Hb0.
  cbn [rep] in Hr. destruct Hr as (Ht & Htag & Hl & Hh & Hra & Hrb).
  cbn [tsize] in Hroom. unfold WIKRT_CELLSIZE in *.
  set (w := read_slot m root dst) in *. set (p := wikrt_pval w) in *.
  unfold copy_body. rewrite heap_read_dst. fold w. fold p. rewrite Ht.
  assert (Hno : negb (WIKRT_O =? tag) = true).
  { destruct Htag as [-> | [-> | ->]]; reflexivity. }
  assert (Htr : 0 <= tag < 4).
  { destruct Htag as [-> | [-> | ->]]; unfold WIKRT_P, WIKRT_PL, WIKRT_PR; lia. }
  rewrite Hno, heap_alloc. cbv beta iota zeta. unfold WIKRT_CELLSIZE.
  rewrite wrap32_small by lia. rewrite heap_write_dst.
  set (v := wikrt_tag_addr tag A).
  assert (Hv : 0 <= v < 2 ^ 32) by (apply tag_addr_range; lia).
  set (m2 := write_slot m dst v).
  assert (Hsrc2 : forall x, lo <= x < hi -> m2 x = m x).
  { intros x Hx. apply write_slot_frame. intros Hin.
    rewrite Forall_forall in Hsl. destruct (Hsl x Hin) as (? & ? & ?).
    unfold sizeof_val in *. lia. }
  assert (H2 : cstate m2 (A + 8) s0 ps).
  { apply (cstate_alloc m2 A); try lia.
    - apply cstate_write_slot; assumption.
    - Z.div_mod_to_equations. lia. }
  assert (Hps : forall x, In x (slots ps) -> x + sizeof_val <= A).
  { intros x Hx. apply (pend_slot_lt _ _ _ _ (cs_pend _ _ _ _ H) Hx). }
  destruct (cpv_spec cx m2 (A + 8) s0 ps p A 0 a H2) as (m3 & E3 & H3 & Hq3 & Hf3).
  { unfold slot_ok, sizeof_val. split; [ lia | split; [ lia | ] ].
    Z.div_mod_to_equations. lia. }
  { intros Hin. apply Hps in Hin. unfold sizeof_val in *. lia. }
  { rewrite Z.mul_0_l, Z.add_0_r, Hsrc2 by lia.
    apply (rep_frame m m2 lo hi); assumption. }
  { rewrite kid_tsizes. lia. }
  rewrite E3. cbv beta iota zeta.
  rewrite Z.mul_0_l, Z.add_0_r in *.
  set (L3 := kid A a ++ ps) in *.
  assert (Hsrc3 : forall x, lo <= x < hi -> m3 x = m x).
  { intros x Hx. rewrite Hf3; [ apply Hsrc2; exact Hx | lia | ].
    intros [Hin | []]. lia. }
  destruct (cpv_spec cx m3 (A + 8) s0 L3 p A 1 b H3) as (m4 & E4 & H4 & Hq4 & Hf4).
  { unfold slot_ok, sizeof_val. split; [ lia | split; [ lia | ] ].
    Z.div_mod_to_equations. lia. }
  { subst L3. rewrite slots_app, in_app_iff. intros [Hin | Hin].
    - apply kid_slots in Hin. unfold sizeof_val in *. lia.
    - apply Hps in Hin. unfold sizeof_val in *. lia. }
  { rewrite Hsrc3 by (unfold sizeof_val; lia).
    apply (rep_frame m m3 lo hi); assumption. }
  { subst L3. rewrite !kid_tsizes. lia. }
  rewrite E4. cbv beta iota zeta.
  set (qb := A + 1 * sizeof_val) in *.
  exists m4, (A + 8), (new_root root dst v), ss, (kid qb b ++ kid A a).
  subst L3. rewrite <- !app_assoc.
  split; [ reflexivity | ].
  split; [ exact H4 | ].
  split; [ rewrite trees_app, tsizes_app;
           rewrite <- (app_nil_r (kid qb b)), <- (app_nil_r (kid A a)), !kid_tsizes;
           cbn [tsize]; change (tsizes (trees [])) with 0; unfold WIKRT_CELLSIZE; lia | ].
  split; [ lia | ].
  split.
  { rewrite trees_app, tflags_list_app.
    rewrite <- (app_nil_r (kid qb b)), <- (app_nil_r (kid A a)), !kid_tflags.
    cbn [tflags]. change (tflags_list (trees [])) with 0.
    rewrite !Z.lor_0_r, Z.lor_comm. reflexivity. }
  split.
  { rewrite trees_app, nodes_list_app.
    rewrite <- (app_nil_r (kid qb b)), <- (app_nil_r (kid A a)), !kid_nodes.
    cbn [nodes]. change (nodes_list (trees [])) with O. lia. }
  split.
  { intros x Hx Hn. rewrite Hf4, Hf3.
    - apply write_slot_frame. exact Hn.
    - lia.
    - intros [Hin | []]. subst x.
      destruct Hx as [Hx | Hx]; [ lia | ]. lia.
    - lia.
    - intros [Hin | []]. subst x qb. unfold sizeof_val in *. lia. }
  split; [ apply new_root_keep | ].
  split.
  { intros x. rewrite slots_app, in_app_iff.
    intros [Hin | Hin]; apply kid_slots in Hin; subst x; try subst qb;
      unfold sizeof_val; lia. }
  intros m' A' HA' Hfr Hcs.
  assert (Hdst : read_slot m' (new_root root dst v) dst = v).
  { rewrite <- (read_write_slot m root dst v) at 2. fold m2.
    apply read_slot_frame. intros x Hx.
    rewrite Forall_forall in Hsl. destruct (Hsl x Hx) as (Hx1 & Hx2 & Hx3).
    assert (Hxps : ~ In x (slots ps)) by (apply Hfresh; exact Hx).
    rewrite Hfr, Hf4, Hf3; try reflexivity; try (unfold sizeof_val in *; lia).
    - intros [Hin | []]. unfold sizeof_val in *. lia.
    - intros [Hin | []]. subst qb. unfold sizeof_val in *. lia.
    - rewrite !slots_app, !in_app_iff. intros [Hin | [Hin | Hin]].
      + apply kid_slots in Hin. subst qb. unfold sizeof_val in *. lia.
      + apply kid_slots in Hin. unfold sizeof_val in *. lia.
      + exact (Hxps Hin). }
  rewrite Hdst. cbn [rep]. subst v.
  rewrite tag_addr_vtag by lia. unfold wikrt_pval.
  rewrite tag_addr_vaddr by lia. unfold WIKRT_CELLSIZE.
  cbn [tsize] in HA'. unfold WIKRT_CELLSIZE in HA'.
  split; [ reflexivity | ]. split; [ exact Htag | ].
  split; [ lia | ]. split; [ lia | ].
  split.
  - apply (child_done m m4 m' A (A + 8) A' s0 A a (kid qb b ++ kid A a)
             (slots (kid qb b ++ kid A a ++ ps))).
    + rewrite Hf4; [ rewrite Hq3, Z.add_0_r, Hsrc2 by lia; exact Hra | lia | ].
      intros [Hin | []]. subst qb. unfold sizeof_val in *. lia.
    + lia.
    + lia.
    + exact Hfr.
    + exact Hcs.
    + intros x Hx. rewrite !in_app_iff. right. exact Hx.
    + intros Hc. unfold kid at 2. rewrite Hc. cbn [app].
      rewrite slots_app, in_app_iff. intros [Hin | Hin].
      * apply kid_slots in Hin. subst qb. unfold sizeof_val in *. lia.
      * apply Hps in Hin. unfold sizeof_val in *. lia.
  - apply (child_done m m4 m' A (A + 8) A' s0 qb b (kid qb b ++ kid A a)
             (slots (kid qb b ++ kid A a ++ ps))).
    + rewrite Hq4, Hsrc3 by (unfold sizeof_val; lia). exact Hrb.
    + lia.
    + subst qb. unfold sizeof_val. lia.
    + exact Hfr.
    + exact Hcs.
    + intros x Hx. rewrite !in_app_iff. left. exact Hx.
    + intros Hc. unfold kid at 1. rewrite Hc. cbn [app].
      rewrite slots_app, in_app_iff. intros [Hin | Hin].
      * apply kid_slots in Hin. subst qb. unfold sizeof_val in *. lia.
      * apply Hps in Hin. subst qb. unfold sizeof_val in *. lia.
Qed.

Ltac body_facts H :=
  pose proof (cs_s0 _ _ _ _ H) as (Hs4 & Hs32 & Hd);
  pose proof (cs_A0 _ _ _ _ H) as HAA0;
  pose proof (cs_32 _ _ _ _ H) as H32;
  pose proof (cs_al _ _ _ _ H) as Hal;
  pose proof (fun x Hx => pend_slot_lt _ _ _ x (cs_pend _ _ _ _ H) Hx) as Hps;
  pose proof (cstate_top _ _ _ _ H) as Htop.

(** The branches that copy one header word and one field. *)
Lemma copy_body_box_tail (cx : wikrt_cx) (m : arena) (A root : Z) (ss ss1 : option Z)
    (s0 : Z) (dst : cloc) (otag : Z) (inner : tree) (ps : list (Z * tree)) :
  body_pre m A root s0 dst (TBox otag inner) ps ->
  ss_or ss1 (tflags inner) = ss_or ss (tflags (TBox otag inner)) ->
  let pv := wikrt_vaddr (read_slot m root dst) in
  let v := wikrt_tag_addr WIKRT_O A in
  body_post cx m A root ss s0 dst (TBox otag inner) ps
    (let '(cx1, s) :=
       wikrt_cpv (with_heap cx (upd (write_slot m dst v) A otag)
                    (wrap32 (A + WIKRT_CELLSIZE)))
         (s0 - Z.of_nat (length ps) * sizeof_val) pv A 1 in
     Ret (cx1, new_root root dst v, ss1, s)).
Proof.
  intros [H Hroom _ Hr Hsl Hfresh] Hss pv v.
  body_facts H.
  pose proof (tsizes_nonneg (trees ps)) as Hps0.
  pose proof (tsize_nonneg inner) as Hi0.
  cbn [rep] in Hr. destruct Hr as (Ht & Hl & Hh & Ho & Hbx & Hri).
  cbn [tsize] in Hroom. unfold WIKRT_CELLSIZE in *.
  set (w := read_slot m root dst) in *.
  change (wikrt_pobj w) with pv in *.
  rewrite wrap32_small by lia.
  assert (Hv : 0 <= v < 2 ^ 32) by (apply tag_addr_range; unfold WIKRT_O; lia).
  set (m2 := write_slot m dst v).
  assert (Hsrc2 : forall x, lo <= x < hi -> m2 x = m x).
  { intros x Hx. apply write_slot_frame. intros Hin.
    rewrite Forall_forall in Hsl. destruct (Hsl x Hin) as (? & ? & ?).
    unfold sizeof_val in *. lia. }
  set (m3 := upd m2 A otag).
  assert (H3 : cstate m3 (A + 8) s0 ps).
  { apply (cstate_alloc m3 A); try lia.
    - apply cstate_upd; try lia.
      + apply cstate_write_slot; assumption.
      + unfold sizeof_val in *. lia.
      + intros Hin. apply Hps in Hin. unfold sizeof_val in *. lia.
      + rewrite <- Ho. apply H32.
    - Z.div_mod_to_equations. lia. }
  assert (Hsrc3 : forall x, lo <= x < hi -> m3 x = m x).
  { intros x Hx. unfold m3. rewrite upd_other by lia. apply Hsrc2. exact Hx. }
  destruct (cpv_spec cx m3 (A + 8) s0 ps pv A 1 inner H3) as (m4 & E4 & H4 & Hq4 & Hf4).
  { unfold slot_ok, sizeof_val. split; [ lia | split; [ lia | ] ].
    Z.div_mod_to_equations. lia. }
  { intros Hin. apply Hps in Hin. unfold sizeof_val in *. lia. }
  { rewrite Hsrc3 by (unfold sizeof_val; lia).
    apply (rep_frame m m3 lo hi); assumption. }
  { rewrite kid_tsizes. lia. }
  rewrite E4. cbv beta iota zeta.
  set (q := A + 1 * sizeof_val) in *.
  exists m4, (A + 8), (new_root root dst v), ss1, (kid q inner).
  split; [ reflexivity | ].
  split; [ exact H4 | ].
  split; [ rewrite <- (app_nil_r (kid q inner)), kid_tsizes;
           cbn [tsize]; change (tsizes (trees [])) with 0; unfold WIKRT_CELLSIZE; lia | ].
  split; [ lia | ].
  split.
  { rewrite <- (app_nil_r (kid q inner)), kid_tflags.
    change (tflags_list (trees [])) with 0. rewrite Z.lor_0_r. exact Hss. }
  split.
  { rewrite <- (app_nil_r (kid q inner)), kid_nodes.
    cbn [nodes]. change (nodes_list (trees [])) with O. lia. }
  split.
  { intros x Hx Hn. rewrite Hf4.
    - unfold m3. rewrite upd_other by lia. apply write_slot_frame. exact Hn.
    - lia.
    - intros [Hin | []]. subst x q. unfold sizeof_val in *. lia. }
  split; [ apply new_root_keep | ].
  split.
  { intros x Hin. apply kid_slots in Hin. subst x q. unfold sizeof_val in *. lia. }
  intros m' A' HA' Hfr Hcs.
  assert (Hkeep : forall x, x < A + 8 -> x <> q -> ~ In x (slots ps) -> m' x = m3 x).
  { intros x Hx Hxq Hxps. rewrite Hfr, Hf4; try reflexivity; try lia.
    - intros [Hin | []]. congruence.
    - rewrite slots_app, in_app_iff. intros [Hin | Hin].
      + apply kid_slots in Hin. congruence.
      + exact (Hxps Hin). }
  assert (Hdst : read_slot m' (new_root root dst v) dst = v).
  { rewrite <- (read_write_slot m root dst v) at 2. fold m2.
    apply read_slot_frame. intros x Hx.
    rewrite Forall_forall in Hsl. destruct (Hsl x Hx) as (Hx1 & Hx2 & Hx3).
    rewrite Hkeep.
    - unfold m3. apply upd_other. unfold sizeof_val in *. lia.
    - unfold sizeof_val in *. lia.
    - subst q. unfold sizeof_val in *. lia.
    - apply Hfresh. exact Hx. }
  rewrite Hdst. cbn [rep]. subst v.
  rewrite tag_addr_vtag by (unfold WIKRT_O; lia). unfold wikrt_pobj.
  rewrite tag_addr_vaddr by (unfold WIKRT_O; lia). unfold WIKRT_CELLSIZE.
  cbn [tsize] in HA'. unfold WIKRT_CELLSIZE in HA'.
  split; [ reflexivity | ]. split; [ lia | ]. split; [ lia | ].
  split.
  { rewrite Hkeep.
    - apply upd_same.
    - lia.
    - subst q. unfold sizeof_val. lia.
    - intros Hin. apply Hps in Hin. unfold sizeof_val in *. lia. }
  split; [ exact Hbx | ].
  apply (child_done m m4 m' A (A + 8) A' s0 q inner (kid q inner)
           (slots (kid q inner ++ ps))).
  - rewrite Hq4, Hsrc3 by (unfold sizeof_val; lia). exact Hri.
  - lia.
  - subst q. unfold sizeof_val. lia.
  - exact Hfr.
  - exact Hcs.
  - apply incl_refl.
  - intros Hc. unfold kid. rewrite Hc. cbn [app].
    intros Hin. apply Hps in Hin. subst q. unfold sizeof_val in *. lia.
Qed.

Definition nested_of (f : nat) (cx : wikrt_cx) (root s' dst' : Z)
  : outcome (wikrt_cx * Z) :=
  if wikrt_copy_shallow (load cx dst') then Ret (cx, root)
  else '(cx, root, _) <- copy_loop f cx root None s' s' (LAddr dst') ;;
       Ret (cx, root).

Lemma copy_loop_step (f : nat) (cx : wikrt_cx) (root : Z) (ss : option Z)
    (s0 s : Z) (dst : cloc) :
  copy_loop (S f) cx root ss s0 s dst =
  ('(cx, root, ss, s) <- copy_body (nested_of f) cx root ss s dst ;;
   if s0 =? s then Ret (cx, root, ss)
   else copy_loop f cx root ss s0 (s + sizeof_val) (LAddr (load cx s))).
Proof. reflexivity. Qed.

Definition copy_ok (n : nat) : Prop :=
  forall (fuel : nat) (cx : wikrt_cx) (m : arena) (A root : Z) (ss : option Z)
         (s0 : Z) (dst : cloc) (t : tree) (ps : list (Z * tree)),
  (nodes t + nodes_list (trees ps) <= n)%nat ->
  (nodes t + nodes_list (trees ps) < fuel)%nat ->
  body_pre m A root s0 dst t ps ->
  let A' := A + tsize t + tsizes (trees ps) in
  exists m' root',
    copy_loop fuel (with_heap cx m A) root ss s0
      (s0 - Z.of_nat (length ps) * sizeof_val) dst
      = Ret (with_heap cx m' A', root',
             ss_or ss (Z.lor (tflags t) (tflags_list (trees ps)))) /\
    arena32 m' /\
    rep m' A A' t (read_slot m' root' dst) /\
    Forall (copied m' A A') ps /\
    cframe m m' A s0 (dst_slots dst ++ slots ps) /\
    (dst <> LRoot -> root' = root).

Lemma copy_body_hidden (n f : nat) (cx : wikrt_cx) (m : arena) (A root : Z)
    (s : Z) (s0 : Z) (dst : cloc) (otag : Z) (inner : tree) (ps : list (Z * tree)) :
  copy_ok n -> (nodes inner <= n)%nat -> (nodes inner < f)%nat ->
  body_pre m A root s0 dst (TBox otag inner) ps ->
  LOBYTE otag = WIKRT_OTAG_OPVAL -> wikrt_opval_hides_ss otag = true ->
  body_post cx m A root (Some s) s0 dst (TBox otag inner) ps
    (copy_body (nested_of f) (with_heap cx m A) root (Some s)
       (s0 - Z.of_nat (length ps) * sizeof_val) dst).
Proof.
  intros IH Hn Hf [H Hroom _ Hr Hsl Hfresh] Hk Hhide.
  body_facts H.
  pose proof (tsizes_nonneg (trees ps)) as Hps0.
  pose proof (tsize_nonneg inner) as Hi0.
  pose proof (pend_sizes _ _ _ (cs_pend _ _ _ _ H)) as HL8.
  cbn [rep] in Hr. destruct Hr as (Ht & Hl & Hh & Ho & Hbx & Hri).
  cbn [tsize] in Hroom. unfold WIKRT_CELLSIZE in *.
  set (w := read_slot m root dst) in *.
  set (pv := wikrt_pval w) in *. change (wikrt_pobj w) with pv in *.
  unfold copy_body. rewrite heap_read_dst. fold w. fold pv. rewrite Ht.
  rewrite heap_load, Ho, Hk. eval_eqb. cbv iota.
  rewrite heap_alloc. cbv beta iota zeta. unfold WIKRT_CELLSIZE.
  rewrite wrap32_small by lia. rewrite heap_write_dst.
  set (v := wikrt_tag_addr WIKRT_O A).
  assert (Hv : 0 <= v < 2 ^ 32) by (apply tag_addr_range; unfold WIKRT_O; lia).
  set (m2 := write_slot m dst v).
  assert (Hsrc2 : forall x, lo <= x < hi -> m2 x = m x).
  { intros x Hx. apply write_slot_frame. intros Hin.
    rewrite Forall_forall in Hsl. destruct (Hsl x Hin) as (? & ? & ?).
    unfold sizeof_val in *. lia. }
  repeat rewrite ?heap_load, ?heap_store.
  rewrite (upd_other m2 A (m2 pv) pv) by lia.
  rewrite (upd_other m2 A (m2 pv) (pv + sizeof_val)) by (unfold sizeof_val; lia).
  rewrite !(Hsrc2 pv) by lia. rewrite Ho, Hhide. cbn [is_some andb].
  rewrite (Hsrc2 (pv + sizeof_val)) by (unfold sizeof_val; lia).
  set (wi := m (pv + sizeof_val)) in *.
  set (q := A + sizeof_val).
  set (m3 := upd (upd m2 A otag) q wi).
  set (sp := s0 - Z.of_nat (length ps) * sizeof_val) in *.
  assert (Hm3 : forall x, x <> A -> x <> q -> ~ In x (dst_slots dst) -> m3 x = m x).
  { intros x H1 H2' H3'. unfold m3. rewrite !upd_other by assumption.
    apply write_slot_frame. exact H3'. }
  assert (Hdslot : forall x, In x (dst_slots dst) -> A0 <= x /\ x + sizeof_val <= A).
  { intros x Hx. rewrite Forall_forall in Hsl. destruct (Hsl x Hx) as (? & ? & ?). lia. }
  assert (Hsrc3 : forall x, lo <= x < hi -> m3 x = m x).
  { intros x Hx. apply Hm3; try (subst q; unfold sizeof_val; lia).
    intros Hin. apply Hdslot in Hin. unfold sizeof_val in *. lia. }
  assert (H3 : cstate m3 (A + 8) s0 ps).
  { apply (cstate_frame m m3 A (A + 8) s0 ps H); try lia.
    - unfold m3. apply upd_arena32; [ apply upd_arena32 | ].
      + destruct dst; cbn [write_slot] in *; [ exact H32 | ].
        apply upd_arena32; assumption.
      + rewrite <- Ho. apply H32.
      + apply H32.
    - Z.div_mod_to_equations. lia.
    - exact Hsrc3.
    - intros x Hx. pose proof (Hps x Hx). apply Hm3.
      + unfold sizeof_val in *. lia.
      + subst q. unfold sizeof_val in *. lia.
      + intros Hin. exact (Hfresh x Hin Hx).
    - intros x Hx. fold sp in Hx. apply Hm3.
      + unfold sizeof_val in *. lia.
      + subst q. unfold sizeof_val in *. lia.
      + intros Hin. apply Hdslot in Hin. unfold sizeof_val in *. lia. }
  assert (Hq3 : m3 q = wi) by (unfold m3; apply upd_same).
  unfold nested_of. rewrite heap_load, Hq3.
  rewrite (rep_shallow _ _ _ _ _ Hri).
  destruct (is_const inner) eqn:Hci.
  - (* the hidden value is a constant *)
    cbn [bind].
    exists m3, (A + 8), (new_root root dst v), (Some s), [].
    cbn [app].
    assert (Hsz : tsize inner = 0) by (destruct inner; try discriminate Hci; reflexivity).
    split; [ reflexivity | ].
    split; [ exact H3 | ].
    split; [ cbn [tsize]; change (tsizes (trees [])) with 0; unfold WIKRT_CELLSIZE; lia | ].
    split; [ lia | ].
    split.
    { cbn [tflags]. rewrite Hk, Hhide. eval_eqb. reflexivity. }
    split; [ cbn [nodes]; change (nodes_list (trees [])) with O; lia | ].
    split.
    { intros x Hx Hn'. apply Hm3; try assumption.
      - lia.
      - subst q. unfold sizeof_val. lia. }
    split; [ apply new_root_keep | ].
    split; [ intros x [] | ].
    intros m' A' HA' Hfr _.
    assert (Hkeep : forall x, x < A + 8 -> ~ In x (slots ps) -> m' x = m3 x).
    { intros x Hx Hxps. apply Hfr; [ lia | exact Hxps ]. }
    assert (Hdst : read_slot m' (new_root root dst v) dst = v).
    { rewrite <- (read_write_slot m root dst v) at 2. fold m2.
      apply read_slot_frame. intros x Hx. pose proof (Hdslot x Hx).
      rewrite Hkeep.
      - unfold m3. rewrite !upd_other; [ reflexivity | | ];
          subst q; unfold sizeof_val in *; lia.
      - unfold sizeof_val in *. lia.
      - apply Hfresh. exact Hx. }
    rewrite Hdst. cbn [rep]. subst v.
    rewrite tag_addr_vtag by (unfold WIKRT_O; lia). unfold wikrt_pobj.
    rewrite tag_addr_vaddr by (unfold WIKRT_O; lia). unfold WIKRT_CELLSIZE.
    cbn [tsize] in HA'. unfold WIKRT_CELLSIZE in HA'.
    split; [ reflexivity | ]. split; [ lia | ]. split; [ lia | ].
    split.
    { rewrite Hkeep.
      - unfold m3. rewrite upd_other by (subst q; unfold sizeof_val; lia). apply upd_same.
      - lia.
      - intros Hin. apply Hps in Hin. unfold sizeof_val in *. lia. }
    split; [ exact Hbx | ].
    fold q. rewrite Hkeep.
    + rewrite Hq3. destruct inner; try discriminate Hci. exact Hri.
    + subst q. unfold sizeof_val. lia.
    + intros Hin. apply Hps in Hin. subst q. unfold sizeof_val in *. lia.
  - (* the hidden value is copied by the nested call, on the stack above *)
    assert (Hsp : sp mod 4 = 0 /\ sp <= s0 /\ A + 8 + tsize inner <= sp).
    { subst sp. unfold sizeof_val in *. split; [ Z.div_mod_to_equations; lia | lia ]. }
    destruct Hsp as (Hsp4 & Hsp0 & Hsproom).
    destruct (IH f cx m3 (A + 8) (new_root root dst v) None sp (LAddr q) inner [])
      as (m4 & root4 & E4 & H432 & Hr4 & _ & Hf4 & Hroot4).
    { change (nodes_list (trees [])) with O. lia. }
    { change (nodes_list (trees [])) with O. lia. }
    { constructor.
      - constructor.
        + apply (cs_32 _ _ _ _ H3).
        + apply (cs_al _ _ _ _ H3).
        + lia.
        + split; [ exact Hsp4 | split; lia ].
        + change (tsizes (trees [])) with 0. lia.
        + constructor.
        + constructor.
        + exact I.
      - change (tsizes (trees [])) with 0. lia.
      - exact Hci.
      - cbn [read_slot]. rewrite Hq3.
        apply (rep_frame m m3 lo hi); assumption.
      - constructor; [ | constructor ]. unfold slot_ok. subst q. unfold sizeof_val.
        split; [ lia | split; [ lia | Z.div_mod_to_equations; lia ] ].
      - intros a _ []. }
    cbn [length] in E4. rewrite Z.mul_0_l, Z.sub_0_r in E4.
    rewrite E4. cbn [bind]. cbv beta iota zeta.
    change (tsizes (trees [])) with 0 in *. rewrite Z.add_0_r in *.
    cbn [dst_slots slots map app read_slot] in *.
    assert (Hroot4' : root4 = new_root root dst v) by (apply Hroot4; discriminate).
    subst root4.
    pose proof (tsize_aligned inner) as Hial.
    assert (Hm4 : forall x, (x < A + 8 \/ sp <= x) -> x <> q -> m4 x = m3 x).
    { intros x Hx Hxq. apply Hf4; [ exact Hx | ]. intros [Hin | []]. congruence. }
    exists m4, (A + 8 + tsize inner), (new_root root dst v), (Some s), [].
    cbn [app].
    split; [ reflexivity | ].
    split.
    { apply (cstate_frame m m4 A (A + 8 + tsize inner) s0 ps H); try lia.
      - exact H432.
      - Z.div_mod_to_equations. lia.
      - intros x Hx. rewrite Hm4; [ apply Hsrc3; exact Hx | | ].
        + lia.
        + subst q. unfold sizeof_val. lia.
      - intros x Hx. pose proof (Hps x Hx). rewrite Hm4.
        + apply Hm3.
          * unfold sizeof_val in *. lia.
          * subst q. unfold sizeof_val in *. lia.
          * intros Hin. exact (Hfresh x Hin Hx).
        + unfold sizeof_val in *. lia.
        + subst q. unfold sizeof_val in *. lia.
      - intros x Hx. fold sp in Hx. rewrite Hm4.
        + apply Hm3.
          * unfold sizeof_val in *. lia.
          * subst q. unfold sizeof_val in *. lia.
          * intros Hin. apply Hdslot in Hin. unfold sizeof_val in *. lia.
        + lia.
        + subst q. unfold sizeof_val in *. lia. }
    split; [ cbn [tsize]; change (tsizes (trees [])) with 0; unfold WIKRT_CELLSIZE; lia | ].
    split; [ lia | ].
    split.
    { cbn [tflags]. rewrite Hk, Hhide. eval_eqb. reflexivity. }
    split; [ cbn [nodes]; change (nodes_list (trees [])) with O; lia | ].
    split.
    { intros x Hx Hn'. rewrite Hm4.
      - apply Hm3; try assumption.
        + lia.
        + subst q. unfold sizeof_val. lia.
      - lia.
      - subst q. unfold sizeof_val. lia. }
    split; [ apply new_root_keep | ].
    split; [ intros x [] | ].
    intros m' A' HA' Hfr _.
    assert (Hkeep : forall x, x < A + 8 + tsize inner -> A <= x \/ ~ In x (slots ps) ->
                    m' x = m4 x).
    { intros x Hx Hxps. apply Hfr; [ lia | ]. intros Hin.
      destruct Hxps as [Hge | Hni]; [ | exact (Hni Hin) ].
      apply Hps in Hin. unfold sizeof_val in *. lia. }
    assert (Hdst : read_slot m' (new_root root dst v) dst = v).
    { rewrite <- (read_write_slot m root dst v) at 2. fold m2.
      apply read_slot_frame. intros x Hx. pose proof (Hdslot x Hx).
      rewrite Hkeep, Hm4.
      - unfold m3. rewrite !upd_other; [ reflexivity | | ];
          subst q; unfold sizeof_val in *; lia.
      - unfold sizeof_val in *. lia.
      - subst q. unfold sizeof_val in *. lia.
      - unfold sizeof_val in *. lia.
      - right. apply Hfresh. exact Hx. }
    rewrite Hdst. cbn [rep]. subst v.
    rewrite tag_addr_vtag by (unfold WIKRT_O; lia). unfold wikrt_pobj.
    rewrite tag_addr_vaddr by (unfold WIKRT_O; lia). unfold WIKRT_CELLSIZE.
    cbn [tsize] in HA'. unfold WIKRT_CELLSIZE in HA'.
    split; [ reflexivity | ]. split; [ lia | ]. split; [ lia | ].
    split.
    { rewrite Hkeep, Hm4.
      - unfold m3. rewrite upd_other by (subst q; unfold sizeof_val; lia). apply upd_same.
      - lia.
      - subst q. unfold sizeof_val. lia.
      - lia.
      - left. lia. }
    split; [ exact Hbx | ].
    fold q. rewrite (Hkeep q) by (subst q; unfold sizeof_val; lia).
    apply (rep_region_mono m' (A + 8) (A + 8 + tsize inner) A A'); try lia.
    apply (rep_frame m4 m' (A + 8) (A + 8 + tsize inner)).
    + intros x Hx. apply Hkeep; lia.
    + Z.div_mod_to_equations. lia.
    + Z.div_mod_to_equations. lia.
    + exact Hr4.
Qed.

Ltac box_reduce :=
  rewrite heap_alloc; cbv beta iota zeta;
  rewrite heap_write_dst; cbv beta iota zeta;
  repeat rewrite ?heap_load, ?heap_store;
  match goal with Hw : write_slot _ _ _ _ = _ |- _ => rewrite !Hw end.

Lemma copy_body_box (n f : nat) (cx : wikrt_cx) (m : arena) (A root : Z)
    (ss : option Z) (s0 : Z) (dst : cloc) (otag : Z) (inner : tree)
    (ps : list (Z * tree)) :
  copy_ok n -> (nodes inner <= n)%nat -> (nodes inner < f)%nat ->
  body_pre m A root s0 dst (TBox otag inner) ps ->
  body_post cx m A root ss s0 dst (TBox otag inner) ps
    (copy_body (nested_of f) (with_heap cx m A) root ss
       (s0 - Z.of_nat (length ps) * sizeof_val) dst).
Proof.
  intros IH Hn Hf Hpre.
  pose proof (bp_rep _ _ _ _ _ _ _ Hpre) as Hr.
  cbn [rep] in Hr. destruct Hr as (Ht & Hl & Hh & Ho & Hbx & Hri).
  unfold wikrt_pobj in *.
  pose proof (bp_state _ _ _ _ _ _ _ Hpre) as H. body_facts H.
  pose proof (bp_slot _ _ _ _ _ _ _ Hpre) as Hsl.
  pose proof (bp_room _ _ _ _ _ _ _ Hpre) as Hroom. cbn [tsize] in Hroom.
  pose proof (tsize_nonneg inner). pose proof (tsizes_nonneg (trees ps)).
  assert (Hsrcw : write_slot m dst (wikrt_tag_addr WIKRT_O A)
                    (wikrt_vaddr (read_slot m root dst)) = otag).
  { rewrite write_slot_frame; [ exact Ho | ].
    intros Hin. rewrite Forall_forall in Hsl.
    destruct (Hsl _ Hin) as (? & ? & ?).
    unfold WIKRT_CELLSIZE, sizeof_val in *. lia. }
  assert (Hne : wikrt_vaddr (read_slot m root dst) <> A)
    by (unfold WIKRT_CELLSIZE, sizeof_val in *; lia).
  destruct (Z.eq_dec (LOBYTE otag) WIKRT_OTAG_OPVAL) as [Hop | Hop].
  - destruct ss as [ s | ].
    + destruct (wikrt_opval_hides_ss otag) eqn:Hhide.
      * apply (copy_body_hidden n f); assumption.
      * unfold copy_body. cbv zeta.
        rewrite heap_read_dst, Ht, heap_load.
        unfold wikrt_pval. rewrite !Ho, Hop. eval_eqb. cbv iota.
        rewrite heap_alloc. cbv beta iota zeta.
        rewrite heap_write_dst. cbv beta iota zeta.
        repeat rewrite ?heap_load, ?heap_store.
        rewrite !Hsrcw.
        rewrite (upd_other _ A _ (wikrt_vaddr (read_slot m root dst))) by exact Hne.
        rewrite !Hsrcw, Hhide. cbn [is_some andb]. cbv iota.
        refine (copy_body_box_tail cx m A root (Some s) (Some s) s0 dst otag inner ps Hpre _).
        cbn [tflags]. rewrite Hop, Hhide. eval_eqb. reflexivity.
    + unfold copy_body. cbv zeta.
      rewrite heap_read_dst, Ht, heap_load.
      unfold wikrt_pval. rewrite !Ho, Hop. eval_eqb. cbv iota.
      cbn [is_some andb]. box_reduce.
      refine (copy_body_box_tail cx m A root None None s0 dst otag inner ps Hpre _).
      reflexivity.
  - unfold copy_body. cbv zeta.
    rewrite heap_read_dst, Ht, heap_load.
    unfold wikrt_pval. rewrite !Ho.
    destruct (box_otag_cases otag Hbx) as [Hk | [Hk | [Hk | [Hk | [Hk | [Hk | Hk]]]]]];
      try congruence; rewrite Hk; eval_eqb; cbv iota; box_reduce.
    + refine (copy_body_box_tail cx m A root ss _ s0 dst otag inner ps Hpre _).
      cbn [tflags]. rewrite Hk. eval_eqb.
      rewrite capture_block_ss_or, ss_or_or. reflexivity.
    + refine (copy_body_box_tail cx m A root ss _ s0 dst otag inner ps Hpre _).
      cbn [tflags]. rewrite Hk. eval_eqb.
      rewrite capture_block_ss_or, ss_or_or. reflexivity.
    + refine (copy_body_box_tail cx m A root ss _ s0 dst otag inner ps Hpre _).
      cbn [tflags]. rewrite Hk. eval_eqb. reflexivity.
    + refine (copy_body_box_tail cx m A root ss _ s0 dst otag inner ps Hpre _).
      cbn [tflags]. rewrite Hk. eval_eqb. rewrite ss_or_or. reflexivity.
    + refine (copy_body_box_tail cx m A root ss _ s0 dst otag inner ps Hpre _).
      cbn [tflags]. rewrite Hk. eval_eqb. reflexivity.
    + refine (copy_body_box_tail cx m A root ss _ s0 dst otag inner ps Hpre _).
      cbn [tflags]. rewrite Hk. eval_eqb. reflexivity.
Qed.

Lemma memcpy_outside (n : nat) (m : arena) (dst src x : Z) :
  dst mod 4 = 0 -> (x < dst \/ dst + Z.of_nat n <= x) ->
  memcpy m dst src n x = m x.
Proof.
  intros Hd Hx. apply memcpy_word_frame.
  destruct (Z.eq_dec (x mod 4) 0) as [E | E]; [ | auto ].
  destruct Hx as [Hx | Hx]; [ left | auto ].
  Z.div_mod_to_equations. lia.
Qed.

Lemma cellbuff_ge (n : Z) :
  0 <= n <= 2 ^ 32 - 8 -> n <= wikrt_cellbuff n < n + 8.
Proof.
  intros Hn. rewrite cellbuff_eq by exact Hn. Z.div_mod_to_equations. lia.
Qed.

Lemma copy_body_seal nested (cx : wikrt_cx) (m : arena) (A root : Z) (ss : option Z)
    (s0 : Z) (dst : cloc) (otag : Z) (name : list Z) (inner : tree)
    (ps : list (Z * tree)) :
  body_pre m A root s0 dst (TSeal otag name inner) ps ->
  body_post cx m A root ss s0 dst (TSeal otag name inner) ps
    (copy_body nested (with_heap cx m A) root ss
       (s0 - Z.of_nat (length ps) * sizeof_val) dst).
Proof.
  intros [H Hroom _ Hr Hsl Hfresh].
  body_facts H.
  pose proof (tsizes_nonneg (trees ps)) as Hps0.
  pose proof (tsize_nonneg inner) as Hi0.
  cbn [rep] in Hr. destruct Hr as (Ht & Hl & Hh & Hh2 & Ho & Hk & Hlen & Hby & Hri).
  cbn [tsize] in Hroom. unfold wikrt_pobj in *.
  set (w := read_slot m root dst) in *. set (pv := wikrt_vaddr w) in *.
  set (len := Z.of_nat (length name)) in *.
  assert (Hlen0 : 0 <= len) by (subst len; lia).
  unfold WIKRT_CELLSIZE, sizeof_val in Hh, Hh2, Hroom.
  pose proof (cellbuff_ge (8 + len) ltac:(lia)) as Hcb.
  pose proof (cellbuff_aligned (8 + len)) as Hcbal.
  unfold WIKRT_CELLSIZE in *.
  set (cb := wikrt_cellbuff (8 + len)) in *.
  unfold copy_body. cbv zeta.
  rewrite heap_read_dst. fold w. rewrite Ht, heap_load. unfold wikrt_pval. fold pv.
  rewrite !Ho, Hk. eval_eqb. cbv iota. rewrite Hlen.
  unfold WIKRT_CELLSIZE. rewrite (wrap32_small (8 + len)) by lia. fold cb.
  rewrite heap_alloc. cbv beta iota zeta.
  rewrite wrap32_small by lia. rewrite heap_write_dst. cbv beta iota zeta.
  rewrite heap_arena, heap_set_arena.
  set (v := wikrt_tag_addr WIKRT_O A).
  assert (Hv : 0 <= v < 2 ^ 32) by (apply tag_addr_range; unfold WIKRT_O; lia).
  set (m2 := write_slot m dst v).
  assert (Hdslot : forall x, In x (dst_slots dst) -> A0 <= x /\ x + sizeof_val <= A).
  { intros x Hx. rewrite Forall_forall in Hsl. destruct (Hsl x Hx) as (? & ? & ?). lia. }
  assert (Hsrc2 : forall x, lo <= x < hi -> m2 x = m x).
  { intros x Hx. apply write_slot_frame. intros Hin.
    apply Hdslot in Hin. unfold sizeof_val in *. lia. }
  assert (H2 : cstate m2 A s0 ps) by (apply cstate_write_slot; assumption).
  set (n := Z.to_nat (8 + len)).
  assert (Hn : Z.of_nat n = 8 + len) by (subst n; lia).
  set (m3 := memcpy m2 A pv n).
  assert (Hpv4 : pv mod 4 = 0).
  { pose proof (vaddr_aligned w). fold pv in H0. Z.div_mod_to_equations. lia. }
  assert (HA4 : A mod 4 = 0) by (Z.div_mod_to_equations; lia).
  assert (Hdis : pv + Z.of_nat n <= A \/ A + Z.of_nat n <= pv) by lia.
  assert (Hm3 : forall x, x < A \/ A + (8 + len) <= x -> m3 x = m2 x).
  { intros x Hx. unfold m3. apply memcpy_outside; [ exact HA4 | lia ]. }
  assert (Hsrc3 : forall x, lo <= x < hi -> m3 x = m x).
  { intros x Hx. rewrite Hm3 by lia. apply Hsrc2. exact Hx. }
  assert (H3 : cstate m3 (A + cb) s0 ps).
  { apply (cstate_frame m2 m3 A (A + cb) s0 ps H2); try lia.
    - unfold m3. apply memcpy_arena32. apply (cs_32 _ _ _ _ H2).
    - Z.div_mod_to_equations. lia.
    - intros x Hx. apply Hm3. lia.
    - intros x Hx. apply Hps in Hx. apply Hm3. unfold sizeof_val in *. lia.
    - intros x Hx. apply Hm3. pose proof (pend_sizes _ _ _ (cs_pend _ _ _ _ H)).
      unfold WIKRT_CELLSIZE, sizeof_val in *. lia. }
  destruct (cpv_spec cx m3 (A + cb) s0 ps pv A 1 inner H3) as (m4 & E4 & H4 & Hq4 & Hf4).
  { unfold slot_ok, sizeof_val. split; [ lia | split; [ lia | ] ].
    Z.div_mod_to_equations. lia. }
  { intros Hin. apply Hps in Hin. unfold sizeof_val in *. lia. }
  { rewrite Hsrc3 by (unfold sizeof_val; lia).
    apply (rep_frame m m3 lo hi); assumption. }
  { rewrite kid_tsizes. lia. }
  rewrite E4. cbv beta iota zeta.
  set (q := A + 1 * sizeof_val) in *.
  exists m4, (A + cb), (new_root root dst v), ss, (kid q inner).
  split; [ reflexivity | ].
  split; [ exact H4 | ].
  split; [ rewrite <- (app_nil_r (kid q inner)), kid_tsizes;
           cbn [tsize]; change (tsizes (trees [])) with 0; unfold WIKRT_CELLSIZE;
           fold len; fold cb; lia | ].
  split; [ lia | ].
  split.
  { rewrite <- (app_nil_r (kid q inner)), kid_tflags.
    change (tflags_list (trees [])) with 0. rewrite Z.lor_0_r. reflexivity. }
  split.
  { rewrite <- (app_nil_r (kid q inner)), kid_nodes.
    cbn [nodes]. change (nodes_list (trees [])) with O. lia. }
  split.
  { intros x Hx Hn'. rewrite Hf4.
    - rewrite Hm3 by lia. apply write_slot_frame. exact Hn'.
    - lia.
    - intros [Hin | []]. subst x q. unfold sizeof_val in *. lia. }
  split; [ apply new_root_keep | ].
  split.
  { intros x Hin. apply kid_slots in Hin. subst x q. unfold sizeof_val in *. lia. }
  intros m' A' HA' Hfr Hcs.
  cbn [tsize] in HA'. unfold WIKRT_CELLSIZE in HA'. fold len in HA'. fold cb in HA'.
  assert (Hkeep : forall x, x < A + cb -> x <> q -> A <= x \/ ~ In x (slots ps) ->
                  m' x = m3 x).
  { intros x Hx Hxq Hxps. rewrite Hfr, Hf4; try reflexivity; try lia.
    - intros [Hin | []]. congruence.
    - rewrite slots_app, in_app_iff. intros [Hin | Hin].
      + apply kid_slots in Hin. congruence.
      + destruct Hxps as [Hge | Hni]; [ | exact (Hni Hin) ].
        apply Hps in Hin. unfold sizeof_val in *. lia. }
  assert (Hdst : read_slot m' (new_root root dst v) dst = v).
  { rewrite <- (read_write_slot m root dst v) at 2. fold m2.
    apply read_slot_frame. intros x Hx. pose proof (Hdslot x Hx).
    rewrite Hkeep.
    - apply Hm3. unfold sizeof_val in *. lia.
    - unfold sizeof_val in *. lia.
    - subst q. unfold sizeof_val in *. lia.
    - right. apply Hfresh. exact Hx. }
  rewrite Hdst. cbn [rep]. subst v.
  rewrite tag_addr_vtag by (unfold WIKRT_O; lia). unfold wikrt_pobj.
  rewrite tag_addr_vaddr by (unfold WIKRT_O; lia). unfold WIKRT_CELLSIZE, sizeof_val.
  fold len. fold cb.
  split; [ reflexivity | ]. split; [ lia | ]. split; [ lia | ]. split; [ lia | ].
  split.
  { rewrite Hkeep.
    - unfold m3. replace A with (A + 0) at 2 by lia.
      rewrite memcpy_word; try lia; try assumption.
      + rewrite Z.add_0_r, Hsrc2 by lia. exact Ho.
      + apply (cs_32 _ _ _ _ H2).
      + reflexivity.
    - lia.
    - subst q. unfold sizeof_val. lia.
    - left. lia. }
  split; [ exact Hk | ]. split; [ exact Hlen | ].
  split.
  { apply (bytes_at_frame m3 m' (A + 8) (A + cb)).
    - intros x Hx. apply Hkeep; [ lia | subst q; unfold sizeof_val; lia | left; lia ].
    - Z.div_mod_to_equations. lia.
    - Z.div_mod_to_equations. lia.
    - lia.
    - fold len. lia.
    - unfold m3. apply bytes_at_memcpy; try lia.
      apply (bytes_at_frame m m2 lo hi); try assumption; try lia. }
  apply (child_done m m4 m' A (A + cb) A' s0 q inner (kid q inner)
           (slots (kid q inner ++ ps))).
  - rewrite Hq4, Hsrc3 by (unfold sizeof_val; lia). exact Hri.
  - lia.
  - subst q. unfold sizeof_val. lia.
  - exact Hfr.
  - exact Hcs.
  - apply incl_refl.
  - intros Hc. unfold kid. rewrite Hc. cbn [app].
    intros Hin. apply Hps in Hin. subst q. unfold sizeof_val in *. lia.
Qed.

Lemma slot_ok_mono (A A' a : Z) : A <= A' -> slot_ok A a -> slot_ok A' a.
Proof. unfold slot_ok. lia. Qed.

Lemma copy_body_binary nested (cx : wikrt_cx) (m : arena) (A root : Z) (ss : option Z)
    (s0 : Z) (dst : cloc) (otag : Z) (bytes : list Z) (next : tree)
    (ps : list (Z * tree)) :
  body_pre m A root s0 dst (TBinary otag bytes next) ps ->
  body_post cx m A root ss s0 dst (TBinary otag bytes next) ps
    (copy_body nested (with_heap cx m A) root ss
       (s0 - Z.of_nat (length ps) * sizeof_val) dst).
Proof.
  intros [H Hroom _ Hr Hsl Hfresh].
  body_facts H.
  pose proof (tsizes_nonneg (trees ps)) as Hps0.
  pose proof (tsize_nonneg next) as Hi0.
  pose proof (pend_sizes _ _ _ (cs_pend _ _ _ _ H)) as HL8.
  cbn [rep] in Hr.
  destruct Hr as (Ht & Hl & Hh & Ho & Hk & Hlen & Hbl & Hbh & Hby & Hri).
  cbn [tsize] in Hroom. unfold wikrt_pobj in *.
  unfold WIKRT_CELLSIZE, sizeof_val in *.
  set (w := read_slot m root dst) in *. set (pv := wikrt_vaddr w) in *.
  set (len := Z.of_nat (length bytes)) in *.
  set (buf := m (pv + 3 * 4)) in *.
  assert (Hlen0 : 0 <= len) by (subst len; lia).
  pose proof (cellbuff_ge len ltac:(lia)) as Hcb.
  pose proof (cellbuff_aligned len) as Hcbal.
  set (cb := wikrt_cellbuff len) in *.
  unfold copy_body. cbv zeta. unfold WIKRT_CELLSIZE, sizeof_val.
  rewrite heap_read_dst. fold w. rewrite Ht, !heap_load. unfold wikrt_pval. fold pv.
  rewrite !Ho, Hk. eval_eqb. cbv iota. rewrite !Hlen. fold buf. fold cb.
  rewrite heap_alloc. cbv beta iota zeta.
  rewrite wrap32_small by lia.
  rewrite heap_arena, heap_set_arena, heap_alloc. cbv beta iota zeta.
  change (2 * 8) with 16. rewrite wrap32_small by lia.
  repeat rewrite ?heap_load, ?heap_store. fold buf.
  set (n := Z.to_nat len).
  assert (Hn : Z.of_nat n = len) by (subst n; lia).
  set (m2 := memcpy m A buf n).
  set (hdr := A + cb) in *.
  assert (HA4 : A mod 4 = 0) by (Z.div_mod_to_equations; lia).
  assert (Hm2 : forall x, x < A \/ A + len <= x -> m2 x = m x).
  { intros x Hx. unfold m2. apply memcpy_outside; [ exact HA4 | lia ]. }
  assert (Hsrc2 : forall x, lo <= x < hi -> m2 x = m x).
  { intros x Hx. apply Hm2. lia. }
  rewrite (upd_other m2 hdr _ (pv + 2 * 4)) by (subst hdr; lia).
  rewrite (Hsrc2 pv), (Hsrc2 (pv + 2 * 4)) by lia. rewrite Ho, Hlen.
  set (m5 := upd (upd (upd m2 hdr otag) (hdr + 2 * 4) len) (hdr + 3 * 4) A).
  assert (Hm5 : forall x, x < A \/ hdr + 16 <= x -> m5 x = m x).
  { intros x Hx. unfold m5. rewrite !upd_other by (subst hdr; lia).
    apply Hm2. subst hdr. lia. }
  assert (Hsrc5 : forall x, lo <= x < hi -> m5 x = m x).
  { intros x Hx. apply Hm5. subst hdr. lia. }
  assert (H5 : cstate m5 (hdr + 16) s0 ps).
  { apply (cstate_frame m m5 A (hdr + 16) s0 ps H); try (subst hdr; lia).
    - unfold m5. repeat apply upd_arena32; try (subst hdr; lia).
      + unfold m2. apply memcpy_arena32, H32.
      + rewrite <- Ho. apply H32.
    - subst hdr. Z.div_mod_to_equations. lia.
    - exact Hsrc5.
    - intros x Hx. apply Hps in Hx. apply Hm5. unfold sizeof_val in *. lia.
    - intros x Hx. apply Hm5. subst hdr. unfold sizeof_val in *. lia. }
  destruct (cpv_spec cx m5 (hdr + 16) s0 ps pv hdr 1 next H5) as (m6 & E6 & H6 & Hq6 & Hf6).
  { unfold slot_ok, sizeof_val. subst hdr. split; [ lia | split; [ lia | ] ].
    Z.div_mod_to_equations. lia. }
  { intros Hin. apply Hps in Hin. subst hdr. unfold sizeof_val in *. lia. }
  { unfold sizeof_val. rewrite Hsrc5 by lia.
    apply (rep_frame m m5 lo hi); assumption. }
  { rewrite kid_tsizes. subst hdr. lia. }
  unfold sizeof_val in *.
  rewrite E6. cbv beta iota zeta. rewrite heap_write_dst.
  set (q := hdr + 1 * 4) in *.
  set (v := wikrt_tag_addr WIKRT_O hdr).
  assert (Hhal : hdr mod 8 = 0) by (subst hdr; Z.div_mod_to_equations; lia).
  assert (Hv : 0 <= v < 2 ^ 32)
    by (apply tag_addr_range; unfold WIKRT_O; subst hdr; lia).
  set (m7 := write_slot m6 dst v).
  assert (Hdslot : forall x, In x (dst_slots dst) -> A0 <= x /\ x + 4 <= A).
  { intros x Hx. rewrite Forall_forall in Hsl. destruct (Hsl x Hx) as (? & ? & ?).
    unfold sizeof_val in *. lia. }
  assert (Hfresh' : forall a, In a (dst_slots dst) -> ~ In a (slots (kid q next ++ ps))).
  { intros a Ha. rewrite slots_app, in_app_iff. intros [Hin | Hin].
    - apply kid_slots in Hin. apply Hdslot in Ha. subst q hdr. lia.
    - exact (Hfresh a Ha Hin). }
  assert (H7 : cstate m7 (hdr + 16) s0 (kid q next ++ ps)).
  { apply cstate_write_slot; try assumption.
    apply Forall_impl with (P := slot_ok A); [ | exact Hsl ].
    intros a. apply slot_ok_mono. subst hdr. lia. }
  exists m7, (hdr + 16), (new_root root dst v), ss, (kid q next).
  split; [ reflexivity | ].
  split; [ exact H7 | ].
  split; [ rewrite <- (app_nil_r (kid q next)), kid_tsizes;
           cbn [tsize]; change (tsizes (trees [])) with 0; unfold WIKRT_CELLSIZE;
           fold len; fold cb; subst hdr; lia | ].
  split; [ subst hdr; lia | ].
  split.
  { rewrite <- (app_nil_r (kid q next)), kid_tflags.
    change (tflags_list (trees [])) with 0. rewrite Z.lor_0_r. reflexivity. }
  split.
  { rewrite <- (app_nil_r (kid q next)), kid_nodes.
    cbn [nodes]. change (nodes_list (trees [])) with O. lia. }
  split.
  { intros x Hx Hn'. unfold m7. rewrite write_slot_frame by exact Hn'.
    rewrite Hf6.
    - apply Hm5. subst hdr. lia.
    - subst hdr. lia.
    - intros [Hin | []]. subst x q hdr. lia. }
  split; [ apply new_root_keep | ].
  split.
  { intros x Hin. apply kid_slots in Hin. subst x q hdr. unfold sizeof_val in *. lia. }
  intros m' A' HA' Hfr Hcs.
  cbn [tsize] in HA'. unfold WIKRT_CELLSIZE in HA'. fold len in HA'. fold cb in HA'.
  assert (Hkeep : forall x, A <= x < hdr + 16 -> x <> q -> m' x = m5 x).
  { intros x Hx Hxq. rewrite Hfr; [ | lia | ].
    - unfold m7. rewrite write_slot_frame.
      + apply Hf6; [ lia | ]. intros [Hin | []]. congruence.
      + intros Hin. apply Hdslot in Hin. lia.
    - rewrite slots_app, in_app_iff. intros [Hin | Hin].
      + apply kid_slots in Hin. congruence.
      + apply Hps in Hin. lia. }
  assert (Hdst : read_slot m' (new_root root dst v) dst = v).
  { rewrite <- (read_write_slot m6 root dst v) at 2. fold m7.
    apply read_slot_frame. intros x Hx. pose proof (Hdslot x Hx).
    apply Hfr; [ subst hdr; lia | ]. apply Hfresh'. exact Hx. }
  rewrite Hdst. cbn [rep]. subst v.
  rewrite tag_addr_vtag by (unfold WIKRT_O; lia). unfold wikrt_pobj.
  rewrite tag_addr_vaddr by (unfold WIKRT_O; subst hdr; lia).
  unfold WIKRT_CELLSIZE, sizeof_val. fold len.
  assert (E0 : m' hdr = otag).
  { rewrite Hkeep by (subst q; lia). unfold m5.
    rewrite !upd_other by lia. apply upd_same. }
  assert (E2 : m' (hdr + 2 * 4) = len).
  { rewrite Hkeep by (subst q; lia). unfold m5.
    rewrite upd_other by lia. apply upd_same. }
  assert (E3 : m' (hdr + 3 * 4) = A).
  { rewrite Hkeep by (subst q; lia). unfold m5. apply upd_same. }
  rewrite E3.
  split; [ reflexivity | ]. split; [ subst hdr; lia | ]. split; [ subst hdr; lia | ].
  split; [ exact E0 | ]. split; [ exact Hk | ]. split; [ exact E2 | ].
  split; [ lia | ]. split; [ subst hdr; lia | ].
  split.
  { apply (bytes_at_frame m2 m' A hdr).
    - intros x Hx. rewrite Hkeep by (subst q; lia). unfold m5.
      rewrite !upd_other by lia. reflexivity.
    - exact HA4.
    - Z.div_mod_to_equations. lia.
    - lia.
    - fold len. subst hdr. lia.
    - unfold m2. replace A with (A + 0) at 2 by lia.
      apply bytes_at_memcpy; try lia.
      rewrite Z.add_0_r. exact Hby. }
  apply (child_done m m7 m' A (hdr + 16) A' s0 q next (kid q next)
           (slots (kid q next ++ ps))).
  - unfold m7. rewrite write_slot_frame.
    + rewrite Hq6, Hsrc5 by lia. exact Hri.
    + intros Hin. apply Hdslot in Hin. subst q hdr. lia.
  - subst hdr. lia.
  - subst q. lia.
  - exact Hfr.
  - exact Hcs.
  - apply incl_refl.
  - intros Hc. unfold kid. rewrite Hc. cbn [app].
    intros Hin. apply Hps in Hin. subst q hdr. lia.
Qed.

(** The fields of a copied array: each still refers to its source value,
    and is on the stack unless it is a constant. *)
Fixpoint elems_kids (ms m1 : arena) (cs : list (Z * tree)) (l : list tree) (a : Z)
  : Prop :=
  match l with
  | [] => True
  | e :: r =>
      rep ms lo hi e (m1 a) /\ incl (kid a e) cs /\
      (is_const e = true -> ~ In a (slots cs)) /\
      elems_kids ms m1 cs r (a + sizeof_val)
  end.

Lemma elems_kids_weaken (ms ms' m1 m2 : arena) (cs extra : list (Z * tree))
    (l : list tree) (a : Z) :
  elems_kids ms m1 cs l a ->
  (forall x, lo <= x < hi -> ms' x = ms x) ->
  (forall x, In x (slots extra) -> x < a) ->
  (forall x, a <= x < a + Z.of_nat (length l) * sizeof_val -> m2 x = m1 x) ->
  elems_kids ms' m2 (cs ++ extra) l a.
Proof.
  intros H Hms. revert a H.
  induction l as [ | e r IH ]; intros a H Hx Hm; cbn [elems_kids] in *.
  - exact I.
  - destruct H as (H1 & H2 & H3 & H4).
    cbn [length] in Hm. rewrite Nat2Z.inj_succ in Hm. unfold sizeof_val in *.
    split; [ | split; [ | split ] ].
    + rewrite Hm by lia. apply (rep_frame ms ms' lo hi); assumption.
    + intros p Hp. apply in_or_app. left. apply H2. exact Hp.
    + intros Hc. rewrite slots_app, in_app_iff. intros [Hin | Hin].
      * exact (H3 Hc Hin).
      * apply Hx in Hin. lia.
    + apply IH; [ exact H4 | | ].
      * intros x Hin. apply Hx in Hin. lia.
      * intros x Hr. apply Hm. lia.
Qed.

Lemma elems_done (ms m1 m' : arena) (A A1 A' s0 : Z) (cs Lall : list (Z * tree))
    (sl : list Z) (l : list tree) (a : Z) :
  elems_kids ms m1 cs l a ->
  incl cs Lall -> Forall (copied m' A1 A') Lall ->
  cframe m1 m' A1 s0 sl ->
  (forall x, In x sl -> In x (slots cs) \/
                        x < a \/ a + Z.of_nat (length l) * sizeof_val <= x) ->
  a + Z.of_nat (length l) * sizeof_val <= A1 -> A <= A1 ->
  elems_at (rep m' A A') m' l a.
Proof.
  intros H Hincl Hcp Hfr. revert a H.
  induction l as [ | e r IH ]; intros a H Hsl Ha HA; cbn [elems_kids elems_at] in *.
  - exact I.
  - destruct H as (H1 & H2 & H3 & H4).
    cbn [length] in *. rewrite Nat2Z.inj_succ in *. unfold sizeof_val in *.
    split.
    + apply (child_done ms m1 m' A A1 A' s0 a e Lall sl); try assumption; try lia.
      * intros p Hp. apply Hincl, H2, Hp.
      * intros Hc Hin. destruct (Hsl a Hin) as [Hs | Hs]; [ exact (H3 Hc Hs) | lia ].
    + apply IH; try assumption; try lia.
      intros x Hin. destruct (Hsl x Hin) as [Hs | Hs]; [ left; exact Hs | right; lia ].
Qed.

Lemma cpv_elems_spec (cx : wikrt_cx) (elems : list tree) :
  forall (m : arena) (A s0 : Z) (L : list (Z * tree)) (parray buff ii : Z),
  cstate m A s0 L ->
  elems_at (rep m lo hi) m elems (parray + ii * sizeof_val) ->
  0 <= ii -> A0 <= buff -> buff mod 4 = 0 ->
  buff + (ii + Z.of_nat (length elems)) * sizeof_val <= A ->
  (forall x, In x (slots L) -> x < buff + ii * sizeof_val) ->
  lo <= parray + ii * sizeof_val ->
  parray + (ii + Z.of_nat (length elems)) * sizeof_val <= hi ->
  A + tsizes elems + tsizes (trees L) <= s0 ->
  exists m1 cs,
    cpv_elems (length elems) (with_heap cx m A)
      (s0 - Z.of_nat (length L) * sizeof_val) parray buff ii
      = (with_heap cx m1 A, s0 - Z.of_nat (length (cs ++ L)) * sizeof_val) /\
    cstate m1 A s0 (cs ++ L) /\
    tsizes (trees cs) = tsizes elems /\
    nodes_list (trees cs) = nodes_list elems /\
    tflags_list (trees cs) = tflags_list elems /\
    (forall x, In x (slots cs) ->
       buff + ii * sizeof_val <= x < buff + (ii + Z.of_nat (length elems)) * sizeof_val) /\
    (forall x, (x < A \/ s0 <= x) ->
       (x < buff + ii * sizeof_val \/
        buff + (ii + Z.of_nat (length elems)) * sizeof_val <= x) -> m1 x = m x) /\
    elems_kids m m1 cs elems (buff + ii * sizeof_val).
Proof.
  induction elems as [ | e r IH ];
    intros m A s0 L parray buff ii H Hel Hii Hb0 Hb4 HbA Hfresh Hpl Hph Hroom.
  - exists m, []. cbn [cpv_elems length app elems_kids].
    split; [ reflexivity | ]. split; [ exact H | ].
    split; [ reflexivity | ]. split; [ reflexivity | ]. split; [ reflexivity | ].
    split; [ intros y [] | ]. split; [ reflexivity | exact I ].
  - cbn [elems_at length] in *. rewrite Nat2Z.inj_succ in *.
    destruct Hel as [He Hr].
    body_facts H.
    pose proof (tsize_nonneg e) as He0. pose proof (tsizes_nonneg r) as Hr0.
    pose proof (tsizes_nonneg (trees L)) as HL0.
    rewrite tsizes_cons in Hroom.
    set (q := buff + ii * sizeof_val) in *.
    destruct (cpv_spec cx m A s0 L parray buff ii e H) as (m2 & E2 & H2 & Hq2 & Hf2).
    { fold q. unfold slot_ok. subst q. unfold sizeof_val in *.
      split; [ lia | split; [ lia | Z.div_mod_to_equations; lia ] ]. }
    { fold q. intros Hin. apply Hfresh in Hin. lia. }
    { exact He. }
    { fold q. rewrite kid_tsizes. lia. }
    fold q in E2, H2, Hq2, Hf2.
    assert (Hsrc2 : forall x, lo <= x < hi -> m2 x = m x).
    { intros x Hx. apply Hf2; [ lia | ].
      intros [Hin | []]. subst x q. unfold sizeof_val in *. lia. }
    destruct (IH m2 A s0 (kid q e ++ L) parray buff (ii + 1) H2)
      as (m1 & cs & E1 & H1 & Hts & Hns & Hfs & Hsl & Hf1 & Hk1).
    { apply (elems_at_weaken (rep m lo hi) (rep m2 lo hi) m m2).
      - apply Forall_forall. intros t _ w0. apply (rep_frame m m2 lo hi); assumption.
      - intros i Hi. apply Hsrc2. unfold sizeof_val in *. lia.
      - replace (parray + (ii + 1) * sizeof_val)
          with (parray + ii * sizeof_val + sizeof_val) by (unfold sizeof_val; lia).
        exact Hr. }
    { lia. } { exact Hb0. } { exact Hb4. }
    { unfold sizeof_val in *. lia. }
    { intros x. rewrite slots_app, in_app_iff. intros [Hin | Hin].
      - apply kid_slots in Hin. subst x q. unfold sizeof_val. lia.
      - apply Hfresh in Hin. unfold sizeof_val in *. lia. }
    { unfold sizeof_val in *. lia. }
    { unfold sizeof_val in *. lia. }
    { rewrite kid_tsizes. lia. }
    exists m1, (cs ++ kid q e).
    cbn [cpv_elems]. rewrite E2. rewrite E1. rewrite <- !app_assoc.
    split; [ reflexivity | ].
    split; [ exact H1 | ].
    split.
    { rewrite trees_app, tsizes_app, Hts, <- (app_nil_r (kid q e)), kid_tsizes.
      change (tsizes (trees [])) with 0. rewrite tsizes_cons. lia. }
    split.
    { rewrite trees_app, nodes_list_app, Hns, <- (app_nil_r (kid q e)), kid_nodes.
      change (nodes_list (trees [])) with O. rewrite nodes_list_cons. lia. }
    split.
    { rewrite trees_app, tflags_list_app, Hfs, <- (app_nil_r (kid q e)), kid_tflags.
      change (tflags_list (trees [])) with 0. rewrite tflags_list_cons.
      rewrite Z.lor_0_r. apply Z.lor_comm. }
    split.
    { intros x. rewrite slots_app, in_app_iff. intros [Hin | Hin].
      - apply Hsl in Hin. unfold sizeof_val in *. lia.
      - apply kid_slots in Hin. subst x q. unfold sizeof_val in *. lia. }
    split.
    { intros x Hx Hout. rewrite Hf1.
      - apply Hf2; [ exact Hx | ]. intros [Hin | []]. subst x q.
        unfold sizeof_val in *. lia.
      - exact Hx.
      - unfold sizeof_val in *. lia. }
    cbn [elems_kids]. split; [ | split; [ | split ] ].
    + rewrite Hf1; [ rewrite Hq2; exact He | | ].
      * subst q. unfold sizeof_val in *. lia.
      * subst q. unfold sizeof_val in *. lia.
    + intros p Hp. apply in_or_app. right. exact Hp.
    + intros Hc. rewrite slots_app, in_app_iff. intros [Hin | Hin].
      * apply Hsl in Hin. subst q. unfold sizeof_val in *. lia.
      * unfold kid in Hin. rewrite Hc in Hin. exact Hin.
    + replace (q + sizeof_val) with (buff + (ii + 1) * sizeof_val)
        by (subst q; unfold sizeof_val; lia).
      apply (elems_kids_weaken m2 m m1 m1); try assumption.
      * intros x Hx. symmetry. apply Hsrc2. exact Hx.
      * intros x Hin. apply kid_slots in Hin. subst x q. unfold sizeof_val. lia.
      * reflexivity.
Qed.

Lemma copy_body_array nested (cx : wikrt_cx) (m : arena) (A root : Z) (ss : option Z)
    (s0 : Z) (dst : cloc) (otag : Z) (elems : list tree) (next : tree)
    (ps : list (Z * tree)) :
  body_pre m A root s0 dst (TArray otag elems next) ps ->
  body_post cx m A root ss s0 dst (TArray otag elems next) ps
    (copy_body nested (with_heap cx m A) root ss
       (s0 - Z.of_nat (length ps) * sizeof_val) dst).
Proof.
  intros [H Hroom _ Hr Hsl Hfresh].
  body_facts H.
  pose proof (tsizes_nonneg (trees ps)) as Hps0.
  pose proof (tsize_nonneg next) as Hi0.
  pose proof (tsizes_nonneg elems) as He0.
  cbn [rep] in Hr.
  destruct Hr as (Ht & Hl & Hh & Ho & Hk & Hlen & Hbl & Hbh & Hbal & Hel & Hri).
  cbn [tsize] in Hroom. fold (tsizes elems) in Hroom. unfold wikrt_pobj in *.
  unfold WIKRT_CELLSIZE, sizeof_val in *.
  set (w := read_slot m root dst) in *. set (pv := wikrt_vaddr w) in *.
  set (len := Z.of_nat (length elems)) in *.
  set (buf := m (pv + 3 * 4)) in *.
  assert (Hlen0 : 0 <= len) by (subst len; lia).
  pose proof (cellbuff_ge (len * 4) ltac:(lia)) as Hcb.
  pose proof (cellbuff_aligned (len * 4)) as Hcbal.
  set (cb := wikrt_cellbuff (len * 4)) in *.
  assert (HA4 : A mod 4 = 0) by (Z.div_mod_to_equations; lia).
  set (hdr := A + cb) in *.
  assert (Hhal : hdr mod 8 = 0) by (subst hdr; Z.div_mod_to_equations; lia).
  assert (Hdslot : forall x, In x (dst_slots dst) -> A0 <= x /\ x + 4 <= A).
  { intros x Hx. rewrite Forall_forall in Hsl. destruct (Hsl x Hx) as (? & ? & ?).
    unfold sizeof_val in *. lia. }
  (* the buffer and its fields *)
  assert (H1 : cstate m hdr s0 ps).
  { apply (cstate_alloc m A); try (subst hdr; lia). exact H. }
  destruct (cpv_elems_spec cx elems m hdr s0 ps buf A 0 H1)
    as (m2 & cse & E2 & H2 & Hts & Hns & Hfs & Hsle & Hf2 & Hk2);
    unfold sizeof_val; rewrite ?Z.mul_0_l, ?Z.add_0_r, ?Z.add_0_l; try lia;
    try assumption.
  { intros x Hx. apply Hps in Hx. lia. }
  unfold sizeof_val in *. rewrite ?Z.mul_0_l, ?Z.add_0_r, ?Z.add_0_l in *.
  fold len in Hsle, Hf2.
  assert (Hsrc2 : forall x, lo <= x < hi -> m2 x = m x).
  { intros x Hx. apply Hf2; subst hdr; lia. }
  (* the header *)
  unfold copy_body. cbv zeta. unfold WIKRT_CELLSIZE, sizeof_val.
  rewrite heap_read_dst. fold w. rewrite Ht, !heap_load. unfold wikrt_pval. fold pv.
  rewrite !Ho, Hk. eval_eqb. cbv iota. rewrite !Hlen. fold buf.
  rewrite (wrap32_small (len * 4)) by lia. fold cb.
  rewrite heap_alloc. cbv beta iota zeta.
  rewrite wrap32_small by (subst hdr; lia). fold hdr.
  rewrite heap_load. fold buf.
  unfold len at 1. rewrite Nat2Z.id, E2. cbv beta iota zeta.
  rewrite heap_alloc. cbv beta iota zeta.
  change (2 * 8) with 16.
  pose proof (cstate_top _ _ _ _ H2) as Htop2.
  pose proof (pend_sizes _ _ _ (cs_pend _ _ _ _ H2)) as HL8.
  pose proof (cs_room _ _ _ _ H2) as Hroom2.
  rewrite trees_app, tsizes_app, Hts in Hroom2.
  rewrite trees_app, tsizes_app, Hts in HL8.
  unfold WIKRT_CELLSIZE, sizeof_val in *.
  rewrite wrap32_small by (subst hdr; lia).
  repeat rewrite ?heap_load, ?heap_store.
  rewrite (upd_other m2 hdr _ (pv + 2 * 4)) by (subst hdr; lia).
  rewrite (Hsrc2 pv), (Hsrc2 (pv + 2 * 4)) by lia. rewrite Ho, Hlen.
  set (m5 := upd (upd (upd m2 hdr otag) (hdr + 2 * 4) len) (hdr + 3 * 4) A).
  assert (Hm5 : forall x, x < hdr \/ hdr + 16 <= x -> m5 x = m2 x).
  { intros x Hx. unfold m5. rewrite !upd_other by lia. reflexivity. }
  assert (Hsrc5 : forall x, lo <= x < hi -> m5 x = m x).
  { intros x Hx. rewrite Hm5 by (subst hdr; lia). apply Hsrc2. exact Hx. }
  assert (Hslots2 : forall x, In x (slots (cse ++ ps)) -> x + 4 <= hdr).
  { intros x Hx. apply (pend_slot_lt _ _ _ x (cs_pend _ _ _ _ H2) Hx). }
  assert (H5 : cstate m5 (hdr + 16) s0 (cse ++ ps)).
  { apply (cstate_frame m2 m5 hdr (hdr + 16) s0 (cse ++ ps) H2); try lia.
    - unfold m5. repeat apply upd_arena32; try (subst hdr; lia).
      + apply (cs_32 _ _ _ _ H2).
      + rewrite <- Ho. apply H32.
    - Z.div_mod_to_equations. lia.
    - rewrite trees_app, tsizes_app, Hts. subst hdr. lia.
    - intros x Hx. rewrite Hm5 by (subst hdr; lia). reflexivity.
    - intros x Hx. apply Hslots2 in Hx. apply Hm5. lia.
    - intros x Hx. apply Hm5. unfold sizeof_val in *. subst hdr. lia. }
  destruct (cpv_spec cx m5 (hdr + 16) s0 (cse ++ ps) pv hdr 1 next H5)
    as (m6 & E6 & H6 & Hq6 & Hf6).
  { unfold slot_ok, sizeof_val. subst hdr. split; [ lia | split; [ lia | ] ].
    Z.div_mod_to_equations. lia. }
  { intros Hin. apply Hslots2 in Hin. unfold sizeof_val in *. lia. }
  { unfold sizeof_val. rewrite Hsrc5 by lia.
    apply (rep_frame m m5 lo hi); assumption. }
  { rewrite kid_tsizes, trees_app, tsizes_app, Hts. subst hdr. lia. }
  unfold sizeof_val in *.
  rewrite E6. cbv beta iota zeta. rewrite heap_write_dst.
  set (q := hdr + 1 * 4) in *.
  set (v := wikrt_tag_addr WIKRT_O hdr).
  assert (Hv : 0 <= v < 2 ^ 32)
    by (apply tag_addr_range; unfold WIKRT_O; subst hdr; lia).
  set (m7 := write_slot m6 dst v).
  assert (Hfresh' : forall a, In a (dst_slots dst) -> ~ In a (slots (kid q next ++ cse ++ ps))).
  { intros a Ha. rewrite slots_app, in_app_iff. intros [Hin | Hin].
    - apply kid_slots in Hin. apply Hdslot in Ha. subst q hdr. lia.
    - rewrite slots_app, in_app_iff in Hin. destruct Hin as [Hin | Hin].
      + apply Hsle in Hin. apply Hdslot in Ha. lia.
      + exact (Hfresh a Ha Hin). }
  assert (H7 : cstate m7 (hdr + 16) s0 (kid q next ++ cse ++ ps)).
  { apply cstate_write_slot; try assumption.
    apply Forall_impl with (P := slot_ok A); [ | exact Hsl ].
    intros a. apply slot_ok_mono. subst hdr. lia. }
  exists m7, (hdr + 16), (new_root root dst v), ss, (kid q next ++ cse).
  rewrite <- !app_assoc.
  split; [ reflexivity | ].
  split; [ exact H7 | ].
  split; [ rewrite trees_app, tsizes_app, Hts, <- (app_nil_r (kid q next)), kid_tsizes;
           cbn [tsize]; fold (tsizes elems); change (tsizes (trees [])) with 0;
           unfold WIKRT_CELLSIZE, sizeof_val; fold len; fold cb; subst hdr; lia | ].
  split; [ subst hdr; lia | ].
  split.
  { rewrite trees_app, tflags_list_app, Hfs, <- (app_nil_r (kid q next)), kid_tflags.
    change (tflags_list (trees [])) with 0. rewrite Z.lor_0_r.
    cbn [tflags]. fold (tflags_list elems). rewrite (Z.lor_comm (tflags next)).
    reflexivity. }
  split.
  { rewrite trees_app, nodes_list_app, Hns, <- (app_nil_r (kid q next)), kid_nodes.
    cbn [nodes]. fold (nodes_list elems). change (nodes_list (trees [])) with O. lia. }
  split.
  { intros x Hx Hn'. unfold m7. rewrite write_slot_frame by exact Hn'.
    rewrite Hf6.
    - rewrite Hm5 by (subst hdr; lia). apply Hf2; subst hdr; lia.
    - subst hdr. lia.
    - intros [Hin | []]. subst x q hdr. lia. }
  split; [ apply new_root_keep | ].
  split.
  { intros x. rewrite slots_app, in_app_iff. intros [Hin | Hin].
    - apply kid_slots in Hin. subst x q hdr. lia.
    - apply Hsle in Hin. lia. }
  intros m' A' HA' Hfr Hcs.
  cbn [tsize] in HA'. fold (tsizes elems) in HA'.
  unfold WIKRT_CELLSIZE, sizeof_val in HA'. fold len in HA'. fold cb in HA'.
  assert (Hm7 : forall x, A <= x < hdr + 16 -> x <> q -> m7 x = m5 x).
  { intros x Hx Hxq. unfold m7. rewrite write_slot_frame.
    - apply Hf6; [ lia | ]. intros [Hin | []]. congruence.
    - intros Hin. apply Hdslot in Hin. lia. }
  assert (Hkeep : forall x, hdr <= x < hdr + 16 -> x <> q -> m' x = m5 x).
  { intros x Hx Hxq. rewrite Hfr; [ apply Hm7; [ subst hdr; lia | exact Hxq ] | lia | ].
    rewrite slots_app, in_app_iff. intros [Hin | Hin].
    - apply kid_slots in Hin. congruence.
    - apply Hslots2 in Hin. lia. }
  assert (Hdst : read_slot m' (new_root root dst v) dst = v).
  { rewrite <- (read_write_slot m6 root dst v) at 2. fold m7.
    apply read_slot_frame. intros x Hx. pose proof (Hdslot x Hx).
    apply Hfr; [ subst hdr; lia | ]. apply Hfresh'. exact Hx. }
  rewrite Hdst. cbn [rep]. subst v.
  rewrite tag_addr_vtag by (unfold WIKRT_O; lia). unfold wikrt_pobj.
  rewrite tag_addr_vaddr by (unfold WIKRT_O; subst hdr; lia).
  unfold WIKRT_CELLSIZE, sizeof_val. fold len.
  assert (E0 : m' hdr = otag).
  { rewrite Hkeep by (subst q; lia). unfold m5.
    rewrite !upd_other by lia. apply upd_same. }
  assert (E2' : m' (hdr + 2 * 4) = len).
  { rewrite Hkeep by (subst q; lia). unfold m5.
    rewrite upd_other by lia. apply upd_same. }
  assert (E3 : m' (hdr + 3 * 4) = A).
  { rewrite Hkeep by (subst q; lia). unfold m5. apply upd_same. }
  rewrite E3.
  split; [ reflexivity | ]. split; [ subst hdr; lia | ]. split; [ subst hdr; lia | ].
  split; [ exact E0 | ]. split; [ exact Hk | ]. split; [ exact E2' | ].
  split; [ lia | ]. split; [ subst hdr; lia | ]. split; [ exact HA4 | ].
  split.
  { apply (elems_done m m7 m' A (hdr + 16) A' s0 cse (kid q next ++ cse)
             (slots (kid q next ++ cse ++ ps)) elems A).
    - rewrite <- (app_nil_r cse).
      apply (elems_kids_weaken m m m2 m7); try assumption.
      + reflexivity.
      + intros x [].
      + intros x Hx. unfold sizeof_val in Hx. fold len in Hx.
        rewrite Hm7 by (subst q hdr; lia). apply Hm5. subst hdr. lia.
    - intros p Hp. apply in_or_app. right. exact Hp.
    - exact Hcs.
    - exact Hfr.
    - intros x. rewrite !slots_app, !in_app_iff. unfold sizeof_val. fold len.
      intros [Hin | [Hin | Hin]].
      + apply kid_slots in Hin. right. subst x q hdr. lia.
      + left. exact Hin.
      + apply Hps in Hin. right. lia.
    - unfold sizeof_val. fold len. subst hdr. lia.
    - subst hdr. lia. }
  apply (child_done m m7 m' A (hdr + 16) A' s0 q next (kid q next ++ cse)
           (slots (kid q next ++ cse ++ ps))).
  - unfold m7. rewrite write_slot_frame.
    + rewrite Hq6, Hsrc5 by lia. exact Hri.
    + intros Hin. apply Hdslot in Hin. subst q hdr. lia.
  - subst hdr. lia.
  - subst q. lia.
  - exact Hfr.
  - exact Hcs.
  - intros p Hp. apply in_or_app. left. exact Hp.
  - intros Hc. unfold kid at 1. rewrite Hc. cbn [app].
    intros Hin. apply Hslots2 in Hin. subst q. lia.
Qed.

Lemma copy_body_spec (n f : nat) (cx : wikrt_cx) (m : arena) (A root : Z)
    (ss : option Z) (s0 : Z) (dst : cloc) (t : tree) (ps : list (Z * tree)) :
  copy_ok n -> (nodes t <= S n)%nat -> (nodes t <= f)%nat ->
  body_pre m A root s0 dst t ps ->
  body_post cx m A root ss s0 dst t ps
    (copy_body (nested_of f) (with_heap cx m A) root ss
       (s0 - Z.of_nat (length ps) * sizeof_val) dst).
Proof.
  intros IH Hn Hf Hpre.
  destruct t as [ c | tag a b | otag inner | otag name inner | otag bytes next
                  | otag elems next ].
  - pose proof (bp_deep _ _ _ _ _ _ _ Hpre) as Hc. discriminate Hc.
  - apply copy_body_cell. exact Hpre.
  - cbn [nodes] in Hn, Hf. apply (copy_body_box n f); try assumption; lia.
  - apply copy_body_seal. exact Hpre.
  - apply copy_body_binary. exact Hpre.
  - apply copy_body_array. exact Hpre.
Qed.

Lemma cstate_tail (m : arena) (A s0 : Z) (p : Z * tree) (L : list (Z * tree)) :
  cstate m A s0 (p :: L) -> cstate m A s0 L.
Proof.
  intros [h32 hal hA0 hs0 hroom hpend hnd hstack].
  pose proof (tsize_nonneg (snd p)).
  unfold trees in hroom. cbn [map] in hroom. rewrite tsizes_cons in hroom.
  constructor; try assumption.
  - unfold trees. lia.
  - apply Forall_inv_tail in hpend. exact hpend.
  - unfold slots in *. cbn [map] in hnd. apply NoDup_cons_iff in hnd. apply hnd.
  - cbn [cstack length] in hstack. rewrite Nat2Z.inj_succ in hstack.
    destruct hstack as [_ hst].
    replace (s0 - Z.succ (Z.of_nat (length L)) * sizeof_val + sizeof_val)
      with (s0 - Z.of_nat (length L) * sizeof_val) in hst by (unfold sizeof_val; lia).
    exact hst.
Qed.

Lemma copy_continue (n f : nat) (cx : wikrt_cx) (m : arena) (A root : Z)
    (ss : option Z) (s0 : Z) (L : list (Z * tree)) :
  copy_ok n -> (nodes_list (trees L) <= n)%nat -> (nodes_list (trees L) < f)%nat ->
  cstate m A s0 L ->
  let s := s0 - Z.of_nat (length L) * sizeof_val in
  let A' := A + tsizes (trees L) in
  exists m',
    (if s0 =? s then Ret (with_heap cx m A, root, ss)
     else copy_loop f (with_heap cx m A) root ss s0 (s + sizeof_val)
            (LAddr (load (with_heap cx m A) s)))
      = Ret (with_heap cx m' A', root, ss_or ss (tflags_list (trees L))) /\
    arena32 m' /\ Forall (copied m' A A') L /\ cframe m m' A s0 (slots L).
Proof.
  intros IH Hn Hf H s A'. subst s A'.
  destruct L as [ | [a t] ps ].
  - cbn [length]. rewrite Z.mul_0_l, Z.sub_0_r, Z.eqb_refl.
    change (tsizes (trees [])) with 0. change (tflags_list (trees [])) with 0.
    rewrite Z.add_0_r, ss_or_0. exists m.
    split; [ reflexivity | ]. split; [ apply (cs_32 _ _ _ _ H) | ].
    split; [ constructor | ]. intros x _ _. reflexivity.
  - pose proof (cstate_tail _ _ _ _ _ H) as Ht.
    destruct H as [h32 hal hA0 hs0 hroom hpend hnd hstack].
    cbn [length] in *. rewrite Nat2Z.inj_succ in *.
    assert (Hne : (s0 =? s0 - Z.succ (Z.of_nat (length ps)) * sizeof_val) = false).
    { apply Z.eqb_neq. unfold sizeof_val. lia. }
    rewrite Hne. cbn [cstack fst] in hstack. destruct hstack as [Hsa _].
    rewrite heap_load, Hsa.
    replace (s0 - Z.succ (Z.of_nat (length ps)) * sizeof_val + sizeof_val)
      with (s0 - Z.of_nat (length ps) * sizeof_val) by (unfold sizeof_val; lia).
    unfold trees in *. cbn [map snd] in *.
    rewrite nodes_list_cons in Hn, Hf. rewrite tsizes_cons in *.
    rewrite tflags_list_cons.
    apply Forall_inv in hpend. destruct hpend as (Hsl & Hc & Hr). cbn [fst snd] in *.
    unfold slots in hnd. cbn [map fst] in hnd. apply NoDup_cons_iff in hnd.
    destruct (IH f cx m A root ss s0 (LAddr a) t ps) as (m' & root' & E & H32' & Hr' & Hcp & Hfr & Hroot).
    { exact Hn. } { exact Hf. }
    { constructor; try assumption.
      - unfold trees. lia.
      - constructor; [ exact Hsl | constructor ].
      - intros x [<- | []]. apply hnd. }
    rewrite (Hroot ltac:(discriminate)) in E.
    rewrite Z.add_assoc.
    exists m'. split; [ exact E | ]. split; [ exact H32' | ].
    split.
    + constructor; [ | unfold trees in Hcp; rewrite <- Z.add_assoc in Hcp; rewrite Z.add_assoc in Hcp; exact Hcp ].
      unfold copied. cbn [fst snd]. exact Hr'.
    + exact Hfr.
Qed.

Lemma copy_loop_ok : forall n, copy_ok n.
Proof.
  induction n as [ | n IH ];
    intros fuel cx m A root ss s0 dst t ps Hn Hfuel Hpre A'.
  - exfalso. pose proof (nodes_pos t (bp_deep _ _ _ _ _ _ _ Hpre)). lia.
  - destruct fuel as [ | f ]; [ lia | ].
    pose proof (nodes_pos t (bp_deep _ _ _ _ _ _ _ Hpre)) as Hpos.
    rewrite copy_loop_step.
    destruct (copy_body_spec n f cx m A root ss s0 dst t ps IH) as
      (m1 & A1 & root1 & ss1 & cs & E1 & H1 & HA1 & HAle & Hss & Hnodes & Hf1 & Hroot1 & Hnew & Hasm);
      try assumption; try lia.
    rewrite E1. cbn [bind]. cbv beta iota zeta.
    destruct (copy_continue n f cx m1 A1 root1 ss1 s0 (cs ++ ps) IH)
      as (m' & E' & H32' & Hcp & Hfr); try assumption.
    { rewrite trees_app, nodes_list_app. lia. }
    { rewrite trees_app, nodes_list_app. lia. }
    rewrite E'.
    assert (EA : A1 + tsizes (trees (cs ++ ps)) = A').
    { subst A'. rewrite trees_app, tsizes_app. lia. }
    rewrite EA in *.
    apply Forall_app in Hcp. destruct Hcp as [Hcp1 Hcp2].
    pose proof (tsizes_nonneg (trees ps)).
    exists m', root1. split; [ | split; [ | split; [ | split; [ | split ] ] ] ].
    + f_equal. f_equal.
      rewrite trees_app, tflags_list_app, <- ss_or_or, Hss, ss_or_or. reflexivity.
    + exact H32'.
    + apply Hasm; try assumption. subst A'. lia.
    + apply Forall_forall. intros p Hp. rewrite Forall_forall in Hcp2.
      apply (rep_region_mono m' A1 A' A A'); try lia. apply Hcp2. exact Hp.
    + intros x Hx Hn'. rewrite in_app_iff in Hn'.
      rewrite Hfr.
      * apply Hf1; [ exact Hx | ]. intros Hin. apply Hn'. left. exact Hin.
      * lia.
      * rewrite slots_app, in_app_iff. intros [Hin | Hin].
        -- pose proof (pend_slot_lt _ _ _ x (cs_pend _ _ _ _ H1)) as Hlt.
           rewrite slots_app, in_app_iff in Hlt. specialize (Hlt (or_introl Hin)).
           apply Hnew in Hin. pose proof (cs_room _ _ _ _ H1).
           pose proof (tsizes_nonneg (trees (cs ++ ps))).
           unfold sizeof_val in *. lia.
        -- apply Hn'. right. exact Hin.
    + exact Hroot1.
Qed.

End CopyProof.

Lemma with_heap_self (cx : wikrt_cx) : with_heap cx (cx_arena cx) (cx_alloc cx) = cx.
Proof. destruct cx. reflexivity. Qed.

(** [wikrt_copy_r]: the copy is laid out from the allocation pointer on,
    takes exactly [tsize t] bytes, denotes the same value, and leaves the
    rest of the arena alone. *)
Lemma copy_r_spec (lo hi : Z) (cx : wikrt_cx) (lval : Z) (t : tree)
    (ss : option Z) (moving_copy : bool) (fuel : nat) :
  8 <= lo -> hi <= 2 ^ 32 -> lo mod 4 = 0 -> hi mod 4 = 0 ->
  rep (cx_arena cx) lo hi t lval -> arena32 (cx_arena cx) ->
  cx_alloc cx mod 8 = 0 -> 0 <= cx_alloc cx ->
  cx_cap cx mod 4 = 0 -> cx_cap cx < 2 ^ 32 ->
  (hi <= cx_alloc cx \/ cx_cap cx <= lo) ->
  cx_alloc cx + tsize t <= cx_cap cx ->
  (nodes t < fuel)%nat ->
  exists m' v',
    wikrt_copy_r fuel cx lval ss moving_copy
      = Ret (with_heap cx m' (cx_alloc cx + tsize t), v',
             ss_or (match ss with Some _ => Some 0 | None => None end) (tflags t)) /\
    arena32 m' /\
    rep m' (cx_alloc cx) (cx_alloc cx + tsize t) t v' /\
    (forall x, x < cx_alloc cx \/ cx_cap cx <= x -> m' x = cx_arena cx x).
Proof.
  intros Hlo8 Hhi32 Hlo4 Hhi4 Hr H32 Hal HA0 Hc4 Hc32 Hd Hroom Hfuel.
  unfold wikrt_copy_r, wikrt_copy_rs. cbn [read_dst].
  rewrite (rep_shallow _ _ _ _ _ Hr).
  set (ss0 := match ss with Some _ => Some 0 | None => None end).
  destruct (is_const t) eqn:Hc.
  - destruct t; try discriminate Hc. cbn [tsize tflags]. rewrite Z.add_0_r, ss_or_0.
    exists (cx_arena cx), lval. rewrite with_heap_self.
    split; [ reflexivity | ]. split; [ exact H32 | ]. split; [ exact Hr | ].
    intros x _. reflexivity.
  - replace (copy_loop fuel cx lval ss0 (cx_cap cx) (cx_cap cx) LRoot)
      with (copy_loop fuel (with_heap cx (cx_arena cx) (cx_alloc cx)) lval ss0
              (cx_cap cx) (cx_cap cx) LRoot)
      by (rewrite with_heap_self; reflexivity).
    destruct (copy_loop_ok lo hi (cx_alloc cx) Hlo8 Hhi32 Hlo4 Hhi4 HA0 (nodes t)
                fuel cx (cx_arena cx) (cx_alloc cx) lval ss0 (cx_cap cx) LRoot t [])
      as (m' & root' & E & H32' & Hr' & _ & Hfr & _).
    + change (nodes_list (trees [])) with O. lia.
    + change (nodes_list (trees [])) with O. lia.
    + constructor.
      * constructor; try assumption; try lia.
        -- change (tsizes (trees [])) with 0. pose proof (tsize_nonneg t). lia.
        -- constructor.
        -- constructor.
        -- exact I.
      * change (tsizes (trees [])) with 0. lia.
      * exact Hc.
      * exact Hr.
      * constructor.
      * intros a [].
    + cbn [length] in E. rewrite Z.mul_0_l, Z.sub_0_r in E.
      change (tsizes (trees [])) with 0 in *.
      change (tflags_list (trees [])) with 0 in E.
      rewrite Z.add_0_r, Z.lor_0_r in *. cbn [read_slot] in Hr'.
      exists m', root'. split; [ exact E | ]. split; [ exact H32' | ].
      split; [ exact Hr' | ].
      intros x Hx. apply Hfr; [ exact Hx | ]. intros [].
Qed.

(** ** Copy of the top of the stack *)

(** The stack is [(v * rest)] with [v] denoting [t] inside [[lo, hi)]; the
    free space above [alloc] holds the copy and one more cell; the scratch
    stack of the size walk is clear of the value and of the free space. *)
Record copy_ready (cx : wikrt_cx) (lo hi : Z) (t : tree) : Prop := {
  cr_lo : 8 <= lo /\ lo mod 4 = 0;
  cr_hi : hi <= cx_alloc cx /\ hi mod 4 = 0;
  cr_p : wikrt_p (cx_val cx) = true;
  cr_cell : lo <= wikrt_pval (cx_val cx) /\ wikrt_pval (cx_val cx) + WIKRT_CELLSIZE <= hi;
  cr_rep : rep (cx_arena cx) lo hi t (load cx (wikrt_pval (cx_val cx)));
  cr_32 : arena32 (cx_arena cx);
  cr_val : 0 <= cx_val cx < 2 ^ 32;
  cr_al : cx_alloc cx mod 8 = 0;
  cr_mem : 0 <= cx_mem cx <= cx_alloc cx;
  cr_cap : cx_cap cx mod 4 = 0 /\ cx_cap cx < 2 ^ 32;
  cr_room : cx_alloc cx + tsize t + WIKRT_CELLSIZE <= cx_cap cx;
  cr_ssp : cx_ssp cx + Z.of_nat (S (nodes t)) * sizeof_val <= lo \/ cx_cap cx <= cx_ssp cx
}.

(** What [wikrt_copy_m] leaves: the stack is [(copy * (v * rest))], the copy
    sits in the [tsize t] bytes above the old allocation pointer, and one
    more cell was taken for the new top of the stack. *)
Record copy_done (cx cx' : wikrt_cx) (lo hi : Z) (t : tree) : Prop := {
  cd_alloc : cx_alloc cx' = cx_alloc cx + tsize t + WIKRT_CELLSIZE;
  cd_p : wikrt_p (cx_val cx') = true;
  cd_copy : rep (cx_arena cx') (cx_alloc cx) (cx_alloc cx + tsize t) t
              (load cx' (wikrt_pval (cx_val cx')));
  cd_rest : load cx' (wikrt_pval (cx_val cx') + sizeof_val) = cx_val cx;
  cd_src : forall x, lo <= x < hi -> cx_arena cx' x = cx_arena cx x;
  cd_ecode : cx_ecode cx' = cx_ecode cx;
  cd_regs : cx_mem cx' = cx_mem cx /\ cx_cap cx' = cx_cap cx /\ cx_ssp cx' = cx_ssp cx
}.

Lemma copy_m_after (cx : wikrt_cx) (m1 : arena) (lo hi : Z) (t : tree)
    (ss : option Z) (moving_copy ub : bool) (est : Z) (fuel : nat) :
  copy_ready cx lo hi t ->
  arena32 m1 -> (forall x, lo <= x < hi -> m1 x = cx_arena cx x) ->
  (nodes t < fuel)%nat ->
  ub = true \/ est = WIKRT_CELLSIZE + tsize t ->
  let cx1 := set_arena cx m1 in
  exists cx',
    (let s0 := wikrt_memory_volume cx1 in
     let copy_src := load cx1 (wikrt_pval (cx_val cx1)) in
     '(cx2, copy_dst, ss') <- wikrt_copy_r fuel cx1 copy_src ss moving_copy ;;
     let cx2 := wikrt_intro_r cx2 copy_dst in
     let sf := wikrt_memory_volume cx2 in
     let alloc_act := wrap32 (sf - s0) in
     let alloc_est_ok := ub || (est =? alloc_act) in
     if negb alloc_est_ok then Abort else Ret (cx2, ss'))
    = Ret (cx', ss_or (match ss with Some _ => Some 0 | None => None end) (tflags t)) /\
    copy_done cx cx' lo hi t.
Proof.
  intros [[Hlo8 Hlo4] [Hhi Hhi4] Hp [Hc1 Hc2] Hr H32 Hval Hal [Hm0 Hm1] [Hc4 Hc32] Hroom Hssp]
         H321 Hsrc Hfuel Hest cx1.
  pose proof (tsize_nonneg t) as Hts.
  unfold WIKRT_CELLSIZE in *.
  set (A := cx_alloc cx) in *.
  destruct (copy_r_spec lo hi cx1 (load cx1 (wikrt_pval (cx_val cx1))) t ss moving_copy fuel)
    as (m' & v' & E & H32' & Hr' & Hfr); try assumption; try (subst cx1; cbn; fold A; lia).
  { subst cx1. unfold load. cbn [cx_arena set_arena cx_val].
    rewrite Hsrc by lia. apply (rep_frame (cx_arena cx) m1 lo hi); assumption. }
  cbv zeta. rewrite E. cbn [bind]. cbv beta iota zeta.
  change (cx_alloc cx1) with A in *. change (cx_cap cx1) with (cx_cap cx) in *.
  change (cx_arena cx1) with m1 in *.
  unfold wikrt_intro_r, wikrt_alloc_cellval_r.
  rewrite heap_alloc. cbv beta iota zeta. rewrite !heap_store.
  unfold WIKRT_CELLSIZE, sizeof_val. rewrite (wrap32_small (A + tsize t + 8)) by lia.
  set (c := A + tsize t).
  set (m2 := upd (upd m' c v') (c + 4) (cx_val (with_heap cx1 m' c))).
  set (cx' := set_val (with_heap cx1 m2 (c + 8)) (wikrt_tag_addr WIKRT_P c)).
  assert (Hcal : c mod 8 = 0).
  { subst c. pose proof (tsize_aligned t). Z.div_mod_to_equations. lia. }
  assert (Hvol : wrap32 (wikrt_memory_volume cx' - wikrt_memory_volume cx1) = 8 + tsize t).
  { unfold wikrt_memory_volume. subst cx' cx1.
    cbn [cx_alloc cx_mem set_val with_heap set_alloc set_arena]. fold A.
    rewrite (wrap32_small (c + 8 - cx_mem cx)) by (subst c; lia).
    rewrite (wrap32_small (A - cx_mem cx)) by lia.
    replace (c + 8 - cx_mem cx - (A - cx_mem cx)) with (8 + tsize t) by (subst c; lia).
    apply wrap32_small. lia. }
  exists cx'. split.
  - rewrite Hvol.
    destruct Hest as [-> | ->]; [ reflexivity | ].
    rewrite Z.eqb_refl, orb_true_r. reflexivity.
  - assert (Hpv : wikrt_pval (cx_val cx') = c).
    { subst cx'. cbn [cx_val set_val]. unfold wikrt_pval.
      apply tag_addr_vaddr; [ unfold WIKRT_P; lia | exact Hcal | subst c; lia ]. }
    constructor.
    + subst cx'. cbn. fold A. unfold WIKRT_CELLSIZE. subst c. lia.
    + subst cx'. cbn [cx_val set_val]. unfold wikrt_p.
      rewrite tag_addr_vtag by (unfold WIKRT_P; lia). reflexivity.
    + rewrite Hpv. unfold load. subst cx'. cbn [cx_arena set_val with_heap set_alloc set_arena].
      fold c. unfold m2. rewrite upd_other by lia. rewrite upd_same.
      apply (rep_frame m' _ A c); try assumption.
      * intros x Hx. rewrite !upd_other by lia. reflexivity.
      * Z.div_mod_to_equations. lia.
      * Z.div_mod_to_equations. lia.
    + rewrite Hpv. unfold load. subst cx'. cbn [cx_arena set_val with_heap set_alloc set_arena].
      unfold m2, sizeof_val. rewrite upd_same. reflexivity.
    + intros x Hx. subst cx'. cbn [cx_arena set_val with_heap set_alloc set_arena].
      unfold m2. rewrite !upd_other by (subst c; lia).
      rewrite Hfr by lia. apply Hsrc. exact Hx.
    + reflexivity.
    + repeat split; reflexivity.
Qed.
Lemma add_size_task_32 (m : arena) (s v : Z) :
  arena32 m -> 0 <= v < 2 ^ 32 -> arena32 (fst (wikrt_add_size_task m s v)).
Proof.
  intros H Hv. unfold wikrt_add_size_task.
  destruct (wikrt_copy_shallow v); cbn [fst]; [ exact H | ].
  apply upd_arena32; assumption.
Qed.

Lemma size_elems_32 (n : nat) (m : arena) (s parray ii : Z) :
  arena32 m -> arena32 (fst (size_elems n m s parray ii)).
Proof.
  revert m s ii. induction n as [ | n IH ]; intros m s ii H; cbn [size_elems].
  - exact H.
  - pose proof (add_size_task_32 m s (m (parray + ii * sizeof_val)) H (H _)) as H1.
    destruct (wikrt_add_size_task m s (m (parray + ii * sizeof_val))) as [m1 s1].
    apply IH. exact H1.
Qed.

Lemma vsize_loop_32 (fuel : nat) :
  forall (m : arena) (s0 s r : Z) (m' : arena) (r' : Z),
  arena32 m -> vsize_loop fuel m s0 s r = Ret (m', r') -> arena32 m'.
Proof.
  induction fuel as [ | f IH ]; intros m s0 s r m' r' H E; [ discriminate E | ].
  cbn [vsize_loop] in E.
  destruct (s0 =? s); [ inversion E; subst; exact H | ].
  set (v := m (s - sizeof_val)) in *. set (pv := wikrt_pval v) in *.
  assert (Hone : forall ma w sa rr,
            arena32 ma -> 0 <= w < 2 ^ 32 ->
            (let '(m1, s1) := wikrt_add_size_task ma sa w in vsize_loop f m1 s0 s1 rr)
              = Ret (m', r') -> arena32 m').
  { intros ma w sa rr Ha Hw E1.
    pose proof (add_size_task_32 ma sa w Ha Hw) as H1.
    destruct (wikrt_add_size_task ma sa w) as [m1 s1]. apply (IH _ _ _ _ _ _ H1 E1). }
  destruct (negb (WIKRT_O =? wikrt_vtag v)).
  - pose proof (add_size_task_32 m (s - sizeof_val) (m pv) H (H _)) as H1.
    destruct (wikrt_add_size_task m (s - sizeof_val) (m pv)) as [m1 s1].
    cbn [fst] in H1. apply (Hone _ _ _ _ H1 (H1 _) E).
  - repeat match type of E with
      | (if ?c then _ else _) = _ => destruct c
      end; try discriminate E;
      try (apply (Hone _ _ _ _ H (H _) E)).
    pose proof (size_elems_32 (Z.to_nat (m (pv + 2 * sizeof_val))) m (s - sizeof_val)
                  (m (pv + 3 * sizeof_val)) 0 H) as H1.
    destruct (size_elems _ m (s - sizeof_val) _ 0) as [m1 s1]. cbn [fst] in H1.
    apply (Hone _ _ _ _ H1 (H1 _) E).
Qed.

Lemma set_arena_self (cx : wikrt_cx) : set_arena cx (cx_arena cx) = cx.
Proof. destruct cx. reflexivity. Qed.

(** [wikrt_copy_m] returns, whichever way the size check is configured. *)
Lemma copy_m_spec (bypass : bool) (cx : wikrt_cx) (lo hi : Z) (t : tree)
    (ss : option Z) (moving_copy : bool) (fuel : nat) :
  copy_ready cx lo hi t -> (nodes t < fuel)%nat ->
  exists cx',
    wikrt_copy_m bypass fuel cx ss moving_copy
      = Ret (cx', ss_or (match ss with Some _ => Some 0 | None => None end) (tflags t)) /\
    copy_done cx cx' lo hi t.
Proof.
  intros Hready Hfuel.
  pose proof Hready as
    [[Hlo8 Hlo4] [Hhi Hhi4] Hp [Hc1 Hc2] Hr H32 Hval Hal [Hm0 Hm1] [Hc4 Hc32] Hroom Hssp].
  pose proof (tsize_nonneg t) as Hts.
  unfold wikrt_copy_m. rewrite Hp. cbn [negb]. cbv zeta.
  destruct (bypass && wikrt_mem_available cx
              (wrap32 (WIKRT_CELLSIZE + wikrt_memory_volume cx))) eqn:Hub.
  - cbn [bind]. cbv beta iota zeta.
    unfold wikrt_mem_reserve, wikrt_mem_available at 1.
    destruct (Z.leb_spec 0 (wrap32 (cx_cap cx - cx_alloc cx))) as [_ | Hneg];
      [ | pose proof (wrap32_range (cx_cap cx - cx_alloc cx)); lia ].
    cbn [bind]. cbv beta iota zeta. cbn [negb].
    destruct (copy_m_after cx (cx_arena cx) lo hi t ss moving_copy true 0 fuel)
      as (cx' & E & Hdone); try assumption; auto.
    rewrite set_arena_self in E. exists cx'. split; [ exact E | exact Hdone ].
  - unfold wikrt_peek_size_ssp.
    destruct (vsize_spec lo hi cx (cx_ssp cx) _ t fuel Hlo4 Hhi4 Hr) as (m1 & E1 & Hf1).
    { unfold WIKRT_CELLSIZE, sizeof_val in *. lia. }
    { exact Hfuel. }
    rewrite E1. cbn [bind]. cbv beta iota zeta.
    assert (Hsz : wrap32 (WIKRT_CELLSIZE + wrap32 (tsize t)) = WIKRT_CELLSIZE + tsize t).
    { unfold WIKRT_CELLSIZE in *. rewrite (wrap32_small (tsize t)) by lia.
      apply wrap32_small. lia. }
    rewrite Hsz.
    unfold wikrt_mem_reserve, wikrt_mem_available.
    cbn [cx_cap cx_alloc set_arena].
    assert (Hav : (WIKRT_CELLSIZE + tsize t <=? wrap32 (cx_cap cx - cx_alloc cx)) = true).
    { apply Z.leb_le. unfold WIKRT_CELLSIZE in *. rewrite wrap32_small by lia. lia. }
    rewrite Hav. cbn [bind]. cbv beta iota zeta. cbn [negb].
    assert (H321 : arena32 m1).
    { unfold wikrt_vsize in E1.
      pose proof (add_size_task_32 (cx_arena cx) (cx_ssp cx)
                    (load cx (wikrt_pval (cx_val cx))) H32 (H32 _)) as Ha.
      destruct (wikrt_add_size_task (cx_arena cx) (cx_ssp cx) _) as [ma sa].
      destruct (vsize_loop fuel ma (cx_ssp cx) sa 0) as [ [mb rb] | | ] eqn:Ev;
        cbn [bind] in E1; try discriminate E1.
      inversion E1. subst. apply (vsize_loop_32 _ _ _ _ _ _ _ Ha Ev). }
    destruct (copy_m_after cx m1 lo hi t ss moving_copy false
                (WIKRT_CELLSIZE + tsize t) fuel)
      as (cx' & E & Hdone); try assumption; auto.
    { intros x Hx. apply Hf1. unfold WIKRT_CELLSIZE, sizeof_val in *. lia. }
    exists cx'. split; [ exact E | exact Hdone ].
Qed.

(** ** Substructure *)

Lemma testbit_fold_lor (k : Z) (l : list tree) (e : tree) :
  In e l -> Z.testbit (tflags e) k = true ->
  Z.testbit (fold_right Z.lor 0 (map tflags l)) k = true.
Proof.
  induction l as [ | a l IH ]; intros Hin Hb; [ destruct Hin | ].
  cbn [map fold_right]. rewrite Z.lor_spec. apply orb_true_iff.
  destruct Hin as [-> | Hin]; [ left; exact Hb | right; apply IH; assumption ].
Qed.

(** An exposed attribute bit of a block header shows in the summary. *)
Lemma exposes_tflags (k : Z) (t : tree) :
  (k = 0 \/ k = 1) ->
  exposes (2 ^ (8 + k)) t -> Z.testbit (tflags t) k = true.
Proof.
  intros Hk He.
  induction He as [ otag inner Hblk Hbit | otag inner Hnh He IH | tag a b He IH
                  | tag a b He IH | otag name inner He IH | otag bytes next He IH
                  | otag elems next e Hin He IH | otag elems next He IH ];
    cbn [tflags].
  - assert (Hb : Z.testbit otag (8 + k) = true).
    { destruct (Z.testbit otag (8 + k)) eqn:E; [ reflexivity | ].
      exfalso. apply Hbit. apply Z.bits_inj'. intros n Hn.
      rewrite Z.land_spec, Z.bits_0.
      destruct (Z.eq_dec n (8 + k)) as [-> | Hne].
      - rewrite E. reflexivity.
      - rewrite Z.pow2_bits_false by lia. apply andb_false_r. }
    assert (Hs : Z.testbit (Z.land (Z.shiftr otag 8) (Z.lor WIKRT_SS_REL WIKRT_SS_AFF)) k
                 = true).
    { rewrite Z.land_spec, Z.shiftr_spec by lia.
      replace (k + 8) with (8 + k) by lia. rewrite Hb.
      destruct Hk as [-> | ->]; reflexivity. }
    destruct Hblk as [-> | ->]; eval_eqb; rewrite Z.lor_spec, Hs; reflexivity.
  - destruct (LOBYTE otag =? WIKRT_OTAG_PEND).
    + rewrite Z.lor_spec, IH. apply orb_true_r.
    + destruct ((LOBYTE otag =? WIKRT_OTAG_TRASH) || (LOBYTE otag =? WIKRT_OTAG_BLOCK)).
      * rewrite Z.lor_spec, IH. apply orb_true_r.
      * destruct ((LOBYTE otag =? WIKRT_OTAG_OPVAL) && wikrt_opval_hides_ss otag) eqn:Eh;
          [ | exact IH ].
        exfalso. apply Hnh. apply andb_true_iff in Eh. destruct Eh as [E1 E2].
        split; [ apply Z.eqb_eq; exact E1 | exact E2 ].
  - rewrite Z.lor_spec, IH. reflexivity.
  - rewrite Z.lor_spec, IH. apply orb_true_r.
  - exact IH.
  - exact IH.
  - rewrite Z.lor_spec, (testbit_fold_lor k elems e Hin IH). reflexivity.
  - rewrite Z.lor_spec, IH. apply orb_true_r.
Qed.

Lemma affine_not_copyable (s : Z) :
  Z.testbit s 1 = true -> wikrt_ss_copyable (Z.lor 0 s) = false.
Proof.
  intros H. unfold wikrt_ss_copyable. rewrite Z.lor_0_l. apply Z.eqb_neq. intros E.
  assert (Hb : Z.testbit (Z.land s (Z.lor WIKRT_SS_AFF WIKRT_SS_PEND)) 1 = true).
  { rewrite Z.land_spec, H. reflexivity. }
  rewrite E in Hb. discriminate Hb.
Qed.

Lemma relevant_not_droppable (s : Z) :
  Z.testbit s 0 = true -> wikrt_ss_droppable (Z.lor 0 s) = false.
Proof.
  intros H. unfold wikrt_ss_droppable. rewrite Z.lor_0_l. apply Z.eqb_neq. intros E.
  assert (Hb : Z.testbit (Z.land s (Z.lor WIKRT_SS_REL WIKRT_SS_PEND)) 0 = true).
  { rewrite Z.land_spec, H. reflexivity. }
  rewrite E in Hb. discriminate Hb.
Qed.

Lemma hidden_tflags (otag : Z) (inner : tree) :
  LOBYTE otag = WIKRT_OTAG_OPVAL -> wikrt_opval_hides_ss otag = true ->
  tflags (TBox otag inner) = 0.
Proof. intros Hk Hh. cbn [tflags]. rewrite Hk, Hh. reflexivity. Qed.

(** [wikrt_copy]: the copy is made, then the summary is judged. *)
Lemma copy_spec (bypass : bool) (cx : wikrt_cx) (lo hi : Z) (t : tree) (fuel : nat) :
  copy_ready cx lo hi t -> (nodes t < fuel)%nat ->
  exists cx1,
    copy_done cx cx1 lo hi t /\
    wikrt_copy bypass fuel cx =
      Ret (if wikrt_ss_copyable (Z.lor 0 (tflags t)) then cx1
           else wikrt_set_error cx1 WIKRT_ETYPE).
Proof.
  intros Hready Hfuel.
  destruct (copy_m_spec bypass cx lo hi t (Some 0) false fuel Hready Hfuel)
    as (cx1 & E & Hdone).
  exists cx1. split; [ exact Hdone | ].
  unfold wikrt_copy. rewrite E. cbn [bind ss_or]. cbv beta iota zeta.
  destruct (wikrt_ss_copyable (Z.lor 0 (tflags t))); reflexivity.
Qed.

(** [wikrt_drop]: the value is unlinked and walked, then the summary is
    judged. *)
Lemma drop_spec (cx : wikrt_cx) (lo hi : Z) (t : tree) (fuel : nat) :
  lo mod 4 = 0 -> hi mod 4 = 0 ->
  wikrt_p (cx_val cx) = true ->
  rep (cx_arena cx) lo hi t (load cx (wikrt_pval (cx_val cx))) ->
  (cx_ssp cx + Z.of_nat (S (nodes t)) * sizeof_val <= lo \/ hi <= cx_ssp cx) ->
  (nodes t < fuel)%nat ->
  exists m',
    let cx1 := set_arena (set_val cx (load cx (wikrt_pval (cx_val cx) + sizeof_val))) m' in
    wikrt_drop fuel cx =
      Ret (if wikrt_ss_droppable (Z.lor 0 (tflags t)) then cx1
           else wikrt_set_error cx1 WIKRT_ETYPE).
Proof.
  intros Hlo Hhi Hp Hr Hd Hfuel.
  unfold wikrt_drop. rewrite Hp. cbn [negb]. cbv zeta.
  set (cx0 := set_val cx (load cx (wikrt_pval (cx_val cx) + sizeof_val))).
  unfold wikrt_drop_v.
  destruct (drop_sv_spec lo hi cx0 (cx_ssp cx0) (load cx (wikrt_pval (cx_val cx))) t
              (Some 0) fuel Hlo Hhi) as (m' & E & _); try assumption.
  change (load cx0 (wikrt_pval (cx_val cx))) with (load cx (wikrt_pval (cx_val cx))).
  rewrite E. cbn [bind ss_or]. cbv beta iota zeta.
  exists m'. cbv zeta.
  destruct (wikrt_ss_droppable (Z.lor 0 (tflags t))); reflexivity.
Qed.

Lemma arena_of_32 (l : list (Z * Z)) :
  forallb (fun p => (0 <=? snd p) && (snd p <? 2 ^ 32)) l = true ->
  arena32 (arena_of l).
Proof.
  induction l as [ | [a v] l IH ]; cbn [forallb arena_of snd]; intros H x.
  - cbn. lia.
  - apply andb_true_iff in H. destruct H as [Hv Hl].
    apply andb_true_iff in Hv. destruct Hv as [H0 H1].
    apply upd_arena32; [ apply IH; exact Hl | ]. lia.
Qed.

Lemma set_error_etype (cx : wikrt_cx) :
  cx_ecode cx = WIKRT_OK ->
  cx_ecode (wikrt_set_error cx WIKRT_ETYPE) = WIKRT_ETYPE /\
  cx_val (wikrt_set_error cx WIKRT_ETYPE) = cx_val cx /\
  cx_arena (wikrt_set_error cx WIKRT_ETYPE) = cx_arena cx.
Proof.
  intros H. rewrite set_error_fresh by (try assumption; discriminate).
  repeat split.
Qed.

(** The summary of a value depends on a subvalue only through the summary
    of that subvalue. *)
Lemma plug_tflags (c : tctx) (a b : tree) :
  tflags a = tflags b -> tflags (plug c a) = tflags (plug c b).
Proof.
  intros H. induction c; cbn [plug tflags]; rewrite ?IHc; try reflexivity.
  - exact H.
  - rewrite !map_app, !fold_right_app. cbn [map fold_right]. rewrite IHc. reflexivity.
Qed.

Lemma plug_hidden_tflags (c : tctx) (otag : Z) (inner x : tree) :
  LOBYTE otag = WIKRT_OTAG_OPVAL -> wikrt_opval_hides_ss otag = true ->
  tflags x = 0 ->
  tflags (plug c (TBox otag inner)) = tflags (plug c x).
Proof.
  intros Hk Hh Hx. apply plug_tflags. rewrite Hx. apply hidden_tflags; assumption.
Qed.

(** The error register after [wikrt_copy] and after [wikrt_drop], from the
    summary of the value. *)
Lemma copy_ecode (bypass : bool) (cx : wikrt_cx) (lo hi : Z) (t : tree) (fuel : nat) :
  copy_ready cx lo hi t -> cx_ecode cx = WIKRT_OK -> (nodes t < fuel)%nat ->
  exists c1, wikrt_copy bypass fuel cx = Ret c1 /\
             cx_ecode c1 = if wikrt_ss_copyable (tflags t) then WIKRT_OK else WIKRT_ETYPE.
Proof.
  intros Hready Hok Hfuel.
  destruct (copy_spec bypass cx lo hi t fuel Hready Hfuel) as (cx1 & Hdone & Ecopy).
  destruct Hdone as [_ _ _ _ _ Hd6 _]. rewrite Z.lor_0_l in Ecopy.
  eexists. split; [ exact Ecopy | ].
  destruct (wikrt_ss_copyable (tflags t)); [ congruence | ].
  apply set_error_etype. congruence.
Qed.

Lemma drop_ecode (cx : wikrt_cx) (lo hi : Z) (t : tree) (fuel : nat) :
  copy_ready cx lo hi t -> cx_ecode cx = WIKRT_OK -> (nodes t < fuel)%nat ->
  exists c2, wikrt_drop fuel cx = Ret c2 /\
             cx_ecode c2 = if wikrt_ss_droppable (tflags t) then WIKRT_OK else WIKRT_ETYPE.
Proof.
  intros Hready Hok Hfuel.
  pose proof Hready as
    [[Hlo8 Hlo4] [Hhi Hhi4] Hp [Hc1 Hc2] Hr H32 Hval Hal [Hm0 Hm1] [Hc4 Hc32] Hroom Hssp].
  pose proof (tsize_nonneg t) as Hts.
  destruct (drop_spec cx lo hi t fuel Hlo4 Hhi4 Hp Hr) as (m' & Edrop).
  { unfold WIKRT_CELLSIZE, sizeof_val in *. lia. }
  { exact Hfuel. }
  cbv zeta in Edrop. rewrite Z.lor_0_l in Edrop.
  eexists. split; [ exact Edrop | ].
  destruct (wikrt_ss_droppable (tflags t)); [ exact Hok | ].
  apply set_error_etype. exact Hok.
Qed.

(** ** C3 *)

(** C3 (amended). Once the error register holds a non-OK code:
    [wikrt_set_error] with any code returns the context unchanged, so the
    first code stays and [wikrt_error] reports it; no operation of the
    engine changes the latched code: every run of every operation that
    returns hands back a context whose register holds the code it held,
    and [wikrt_peek_type], which tests the register, reports
    [WIKRT_TYPE_UNDEF]; most operations do not test the register, though,
    and still run their stores, so the value register may change: on a
    well-formed stack [wikrt_copy] still returns with the copy allocated
    and [wikrt_drop] with the value popped, the code kept;
    [wikrt_cx_reset], whenever it returns, has cleared the register to
    [WIKRT_OK] and put the registers back to their initial values, and it
    does return on well-formed roots. *)
Theorem error_register_sticky (cx : wikrt_cx) :
  cx_ecode cx <> WIKRT_OK ->
  (forall e, wikrt_set_error cx e = cx) /\
  wikrt_error cx = cx_ecode cx /\
  (forall op, pure_prim op -> cx_ecode (op cx) = cx_ecode cx) /\
  (forall ord, cx_ecode (fst (wikrt_int_cmp cx ord)) = cx_ecode cx) /\
  (forall o cx', engine_op cx o -> o = Ret cx' -> cx_ecode cx' = cx_ecode cx) /\
  (forall bypass lo hi t fuel, copy_ready cx lo hi t -> (nodes t < fuel)%nat ->
     exists c1 c2,
       wikrt_copy bypass fuel cx = Ret c1 /\ cx_ecode c1 = cx_ecode cx /\
       cx_alloc c1 = cx_alloc cx + tsize t + WIKRT_CELLSIZE /\
       wikrt_drop fuel cx = Ret c2 /\ cx_ecode c2 = cx_ecode cx /\
       cx_val c2 = load cx (wikrt_pval (cx_val cx) + sizeof_val)) /\
  wikrt_peek_type cx = Ret WIKRT_TYPE_UNDEF /\
  (forall fuel cx', wikrt_cx_reset fuel cx = Ret cx' ->
     cx_ecode cx' = WIKRT_OK /\ cx_val cx' = WIKRT_REG_VAL_INIT /\
     cx_pc cx' = WIKRT_REG_PC_INIT /\ cx_cc cx' = WIKRT_REG_CC_INIT /\
     cx_txn cx' = WIKRT_REG_TXN_INIT /\ cx_alloc cx' = cx_alloc cx) /\
  (forall lo hi tt tv tc tp, roots_ok cx lo hi tt tv tc tp ->
     exists cx', forall fuel,
       (nodes tt + nodes tv + nodes tc + nodes tp < fuel)%nat ->
       wikrt_cx_reset fuel cx = Ret cx').
Proof.
  intros Herr. repeat apply conj.
  - intros e. apply set_error_latched. exact Herr.
  - reflexivity.
  - intros op Hop. apply pure_prim_keeps_code; assumption.
  - intros ord. unfold wikrt_int_cmp.
    destruct (negb (wikrt_cx_has_two_ints cx)); cbn [fst];
      [ apply set_error_ecode; exact Herr | reflexivity ].
  - intros o cx' Hop E. pose proof (engine_op_keeps_code cx o Hop) as K.
    rewrite E in K. exact (K Herr).
  - intros bypass lo hi t fuel Hready Hfuel.
    destruct (copy_spec bypass cx lo hi t fuel Hready Hfuel) as (cx1 & Hdone & Ecopy).
    pose proof Hready as
      [[Hlo8 Hlo4] [Hhi Hhi4] Hp [Hc1 Hc2] Hr H32 Hval Hal [Hm0 Hm1] [Hc4 Hc32] Hroom Hssp].
    pose proof (tsize_nonneg t) as Hts.
    destruct (drop_spec cx lo hi t fuel Hlo4 Hhi4 Hp Hr) as (m' & Edrop).
    { unfold WIKRT_CELLSIZE, sizeof_val in *. lia. }
    { exact Hfuel. }
    cbv zeta in Edrop.
    destruct Hdone as [Hd1 _ _ _ _ Hd6 _].
    rewrite (set_error_latched cx1) in Ecopy by congruence.
    rewrite set_error_latched in Edrop by exact Herr.
    exists cx1. eexists.
    split; [ rewrite Ecopy; destruct (wikrt_ss_copyable _); reflexivity | ].
    split; [ exact Hd6 | ]. split; [ exact Hd1 | ].
    split; [ rewrite Edrop; destruct (wikrt_ss_droppable _); reflexivity | ].
    split; reflexivity.
  - unfold wikrt_peek_type, wikrt_has_error. cbv zeta.
    destruct (cx_ecode cx); try congruence; cbn [ecode_eqb negb];
      rewrite andb_false_r; reflexivity.
  - intros fuel cx'. apply reset_clears.
  - intros lo hi tt tv tc tp. apply reset_returns.
Qed.

Lemma error_register_sticky_witness :
  wikrt_set_error cx_unit_err WIKRT_CXFULL = cx_unit_err /\
  cx_ecode (wikrt_elim_unit cx_unit_err) = WIKRT_ETYPE /\
  (exists cx', wikrt_drop 2 cx_unit_err = Ret cx' /\ cx_ecode cx' = WIKRT_ETYPE) /\
  (exists cx', wikrt_intro_unit 2 cx_unit_err = Ret cx' /\ cx_ecode cx' = WIKRT_ETYPE) /\
  exists cx', forall fuel, (1 < fuel)%nat -> wikrt_cx_reset fuel cx_unit_err = Ret cx'.
Proof.
  assert (Herr : cx_ecode cx_unit_err <> WIKRT_OK) by discriminate.
  destruct (error_register_sticky cx_unit_err Herr) as (H1 & _ & H3 & _ & H5 & _ & _ & _ & H6).
  split; [ apply H1 | split; [ apply (H3 _ pp_elim_unit) | ] ].
  split.
  { eexists. split; [ vm_compute; reflexivity | ].
    apply (H5 _ _ (op_drop cx_unit_err 2)). vm_compute. reflexivity. }
  split.
  { eexists. split; [ vm_compute; reflexivity | ].
    apply (H5 _ _ (op_intro_unit cx_unit_err 2)). vm_compute. reflexivity. }
  destruct (H6 16 24 (TConst WIKRT_UNIT_INR)
               (TCell WIKRT_P (TConst WIKRT_UNIT) (TConst WIKRT_UNIT))
               (TConst WIKRT_UNIT_INR) (TConst WIKRT_UNIT_INR)) as (cx' & Hr).
  - constructor.
    + reflexivity.
    + reflexivity.
    + split; reflexivity.
    + cbn [rep]. repeat split; try (vm_compute; congruence). left. reflexivity.
    + split; reflexivity.
    + split; reflexivity.
    + left. vm_compute. congruence.
  - exists cx'. intros fuel Hf. apply Hr. cbn. lia.
Defined.

(** The claim as stated fails: with [WIKRT_ETYPE] latched, [wikrt_elim_unit]
    on [(unit * unit)] still pops the unit off the value register. *)
Lemma sticky_noop_counterexample :
  cx_ecode cx_unit_err = WIKRT_ETYPE /\
  cx_val cx_unit_err = 17 /\
  cx_val (wikrt_elim_unit cx_unit_err) = WIKRT_UNIT /\
  cx_val (wikrt_elim_unit cx_unit_err) <> cx_val cx_unit_err.
Proof. vm_compute. repeat split; congruence. Qed.

(** ** C4 *)

(** C4. Substructural enforcement.  For a stack [(v * rest)] with no error
    latched and room for the copy: if [v] exposes a block header with the
    affine bit, [wikrt_copy] returns with [WIKRT_ETYPE] latched and the
    copy on top of the stack; if [v] exposes a block header with the
    relevant bit, [wikrt_drop] returns with [WIKRT_ETYPE] latched and [v]
    already unlinked; when [v] is an [OPVAL] carrying [LAZYKF], neither
    call latches an error, whatever the value below the wrapper carries;
    and wherever in [v] such a wrapper sits (as the operator of a quoted
    block, in a pair, in an array, ...), what it wraps is hidden from both
    scans: if the value around the wrapper carries no flag neither call
    latches an error, and in general both calls end with the same error
    state as they do on any other value that differs from [v] only below
    the wrapper. *)
Theorem substructure_enforced (bypass : bool) (cx : wikrt_cx) (lo hi : Z) (t : tree)
    (fuel : nat) :
  copy_ready cx lo hi t -> cx_ecode cx = WIKRT_OK -> (nodes t < fuel)%nat ->
  (exposes WIKRT_BLOCK_AFFINE t ->
     exists cx', wikrt_copy bypass fuel cx = Ret cx' /\
       cx_ecode cx' = WIKRT_ETYPE /\
       wikrt_p (cx_val cx') = true /\
       rep (cx_arena cx') (cx_alloc cx) (cx_alloc cx + tsize t) t
           (load cx' (wikrt_pval (cx_val cx'))) /\
       load cx' (wikrt_pval (cx_val cx') + sizeof_val) = cx_val cx) /\
  (exposes WIKRT_BLOCK_RELEVANT t ->
     exists cx', wikrt_drop fuel cx = Ret cx' /\
       cx_ecode cx' = WIKRT_ETYPE /\
       cx_val cx' = load cx (wikrt_pval (cx_val cx) + sizeof_val)) /\
  (forall otag inner, t = TBox otag inner ->
     LOBYTE otag = WIKRT_OTAG_OPVAL -> wikrt_opval_hides_ss otag = true ->
     exists c1 c2,
       wikrt_copy bypass fuel cx = Ret c1 /\ cx_ecode c1 = WIKRT_OK /\
       wikrt_drop fuel cx = Ret c2 /\ cx_ecode c2 = WIKRT_OK) /\
  (forall c otag inner, t = plug c (TBox otag inner) ->
     LOBYTE otag = WIKRT_OTAG_OPVAL -> wikrt_opval_hides_ss otag = true ->
     (tflags (plug c (TConst WIKRT_UNIT)) = 0 ->
        exists c1 c2,
          wikrt_copy bypass fuel cx = Ret c1 /\ cx_ecode c1 = WIKRT_OK /\
          wikrt_drop fuel cx = Ret c2 /\ cx_ecode c2 = WIKRT_OK) /\
     (forall inner' cx' lo' hi' fuel',
        copy_ready cx' lo' hi' (plug c (TBox otag inner')) ->
        cx_ecode cx' = WIKRT_OK ->
        (nodes (plug c (TBox otag inner')) < fuel')%nat ->
        exists c1 c1' c2 c2',
          wikrt_copy bypass fuel cx = Ret c1 /\
          wikrt_copy bypass fuel' cx' = Ret c1' /\ cx_ecode c1 = cx_ecode c1' /\
          wikrt_drop fuel cx = Ret c2 /\
          wikrt_drop fuel' cx' = Ret c2' /\ cx_ecode c2 = cx_ecode c2')).
Proof.
  intros Hready Hok Hfuel.
  destruct (copy_spec bypass cx lo hi t fuel Hready Hfuel) as (cx1 & Hdone & Ecopy).
  pose proof Hready as
    [[Hlo8 Hlo4] [Hhi Hhi4] Hp [Hc1 Hc2] Hr H32 Hval Hal [Hm0 Hm1] [Hc4 Hc32] Hroom Hssp].
  pose proof (tsize_nonneg t) as Hts.
  destruct (drop_spec cx lo hi t fuel Hlo4 Hhi4 Hp Hr) as (m' & Edrop).
  { unfold WIKRT_CELLSIZE, sizeof_val in *. lia. }
  { exact Hfuel. }
  cbv zeta in Edrop.
  destruct Hdone as [Hd1 Hd2 Hd3 Hd4 Hd5 Hd6 Hd7].
  destruct (copy_ecode bypass cx lo hi t fuel Hready Hok Hfuel) as (k1 & Ek1 & Hk1).
  destruct (drop_ecode cx lo hi t fuel Hready Hok Hfuel) as (k2 & Ek2 & Hk2).
  split; [ | split; [ | split ] ].
  - intros He.
    pose proof (exposes_tflags 1 t (or_intror eq_refl) He) as Hbit.
    rewrite (affine_not_copyable _ Hbit) in Ecopy.
    destruct (set_error_etype cx1) as (E1 & E2 & E3); [ congruence | ].
    exists (wikrt_set_error cx1 WIKRT_ETYPE).
    split; [ exact Ecopy | ]. split; [ exact E1 | ].
    unfold load. rewrite E2, E3. repeat split; assumption.
  - intros He.
    pose proof (exposes_tflags 0 t (or_introl eq_refl) He) as Hbit.
    rewrite (relevant_not_droppable _ Hbit) in Edrop.
    match type of Edrop with _ = Ret (wikrt_set_error ?c _) =>
      destruct (set_error_etype c) as (E1 & E2 & E3); [ exact Hok | ];
      exists (wikrt_set_error c WIKRT_ETYPE)
    end.
    split; [ exact Edrop | ]. split; [ exact E1 | ]. rewrite E2. reflexivity.
  - intros otag inner -> Hk Hh.
    rewrite (hidden_tflags otag inner Hk Hh) in Hk1, Hk2.
    exists k1, k2. repeat split; assumption.
  - intros c otag inner -> Hk Hh. split.
    + intros H0.
      rewrite (plug_hidden_tflags c otag inner (TConst WIKRT_UNIT) Hk Hh eq_refl), H0
        in Hk1, Hk2.
      exists k1, k2. repeat split; assumption.
    + intros inner' cx' lo' hi' fuel' Hready' Hok' Hfuel'.
      destruct (copy_ecode bypass cx' lo' hi' _ fuel' Hready' Hok' Hfuel')
        as (k1' & Ek1' & Hk1').
      destruct (drop_ecode cx' lo' hi' _ fuel' Hready' Hok' Hfuel')
        as (k2' & Ek2' & Hk2').
      rewrite (plug_hidden_tflags c otag inner' (TConst WIKRT_UNIT) Hk Hh eq_refl)
        in Hk1', Hk2'.
      rewrite (plug_hidden_tflags c otag inner (TConst WIKRT_UNIT) Hk Hh eq_refl)
        in Hk1, Hk2.
      exists k1, k1', k2, k2'.
      split; [ exact Ek1 | ]. split; [ exact Ek1' | ]. split; [ congruence | ].
      split; [ exact Ek2 | ]. split; [ exact Ek2' | congruence ].
Qed.

Lemma linear_block_ready :
  copy_ready cx_linear_block 16 32 (TBox otag_linear_block (TConst WIKRT_UNIT_INR)).
Proof.
  constructor; try (split; reflexivity); try reflexivity; try (cbn; lia).
  - cbn [rep]. repeat split; try reflexivity; vm_compute; congruence.
  - apply arena_of_32. reflexivity.
Qed.

Lemma hidden_block_ready :
  copy_ready cx_hidden_block 16 40
    (TBox otag_lazy_opval (TBox otag_linear_block (TConst WIKRT_UNIT_INR))).
Proof.
  constructor; try (split; reflexivity); try reflexivity; try (cbn; lia).
  - cbn [rep]. repeat split; try reflexivity; vm_compute; congruence.
  - apply arena_of_32. reflexivity.
Qed.

Lemma quoted_block_ready :
  copy_ready cx_quoted_block 24 64
    (plug (CBox WIKRT_OTAG_BLOCK (CHd WIKRT_PL CHole (TConst WIKRT_UNIT_INR)))
          (TBox otag_lazy_opval (TBox otag_linear_block (TConst WIKRT_UNIT_INR)))).
Proof.
  constructor; try (split; reflexivity); try reflexivity; try (cbn; lia).
  - cbn [plug rep]. repeat split; try reflexivity; try (vm_compute; congruence).
    right. left. reflexivity.
  - apply arena_of_32. reflexivity.
Qed.

Lemma substructure_enforced_witness :
  (exists cx', wikrt_copy false 2 cx_linear_block = Ret cx' /\
               cx_ecode cx' = WIKRT_ETYPE /\ wikrt_p (cx_val cx') = true) /\
  (exists cx', wikrt_drop 2 cx_linear_block = Ret cx' /\
               cx_ecode cx' = WIKRT_ETYPE /\ cx_val cx' = WIKRT_UNIT) /\
  (exists c1 c2, wikrt_copy false 3 cx_hidden_block = Ret c1 /\ cx_ecode c1 = WIKRT_OK /\
                 wikrt_drop 3 cx_hidden_block = Ret c2 /\ cx_ecode c2 = WIKRT_OK) /\
  (exists c1 c2, wikrt_copy false 5 cx_quoted_block = Ret c1 /\ cx_ecode c1 = WIKRT_OK /\
                 wikrt_drop 5 cx_quoted_block = Ret c2 /\ cx_ecode c2 = WIKRT_OK).
Proof.
  assert (Hh : (nodes (TBox otag_lazy_opval (TBox otag_linear_block (TConst WIKRT_UNIT_INR)))
                < 3)%nat) by (cbn; lia).
  destruct (substructure_enforced false cx_hidden_block 16 40 _ 3
              hidden_block_ready eq_refl Hh) as (_ & _ & Hhid & _).
  specialize (Hhid _ _ eq_refl eq_refl eq_refl).
  assert (Hq : (nodes (plug (CBox WIKRT_OTAG_BLOCK
                               (CHd WIKRT_PL CHole (TConst WIKRT_UNIT_INR)))
                            (TBox otag_lazy_opval
                               (TBox otag_linear_block (TConst WIKRT_UNIT_INR))))
                < 5)%nat) by (cbn; lia).
  destruct (substructure_enforced false cx_quoted_block 24 64 _ 5
              quoted_block_ready eq_refl Hq) as (_ & _ & _ & Hquo).
  destruct (Hquo _ _ _ eq_refl eq_refl eq_refl) as [Hquo0 _].
  specialize (Hquo0 eq_refl).
  destruct (substructure_enforced false cx_linear_block 16 32
              (TBox otag_linear_block (TConst WIKRT_UNIT_INR)) 2
              linear_block_ready eq_refl) as (Hc & Hd & _).
  - cbn. lia.
  - split; [ | split; [ | split; [ exact Hhid | exact Hquo0 ] ] ].
    + destruct Hc as (cx' & E & He & Hp & _).
      * apply ex_here; [ left; reflexivity | vm_compute; congruence ].
      * exists cx'. repeat split; assumption.
    + destruct Hd as (cx' & E & He & Hv).
      * apply ex_here; [ left; reflexivity | vm_compute; congruence ].
      * exists cx'. repeat split; assumption.
Defined.

(** ** Compaction *)

(** The four roots denote values of [[lo, hi)]; the scratch semi-space
    [[ssp, ssp + size)] is clear of them and large enough for their copies,
    which take no more room than the values did. *)
Record gc_ready (cx : wikrt_cx) (lo hi : Z) (tt tc tp tv : tree) : Prop := {
  gr_lo : 8 <= lo /\ lo mod 4 = 0;
  gr_hi : hi <= 2 ^ 32 /\ hi mod 4 = 0;
  gr_txn : rep (cx_arena cx) lo hi tt (cx_txn cx);
  gr_cc : rep (cx_arena cx) lo hi tc (cx_cc cx);
  gr_pc : rep (cx_arena cx) lo hi tp (cx_pc cx);
  gr_val : rep (cx_arena cx) lo hi tv (cx_val cx);
  gr_32 : arena32 (cx_arena cx);
  gr_ssp : 0 <= cx_ssp cx /\ cx_ssp cx mod 8 = 0;
  gr_size : 0 <= cx_size cx /\ cx_size cx mod 4 = 0 /\ cx_ssp cx + cx_size cx < 2 ^ 32;
  gr_apart : hi <= cx_ssp cx \/ cx_ssp cx + cx_size cx <= lo;
  gr_mem : 0 <= cx_mem cx <= cx_alloc cx /\ cx_alloc cx < 2 ^ 32;
  gr_vol : cx_alloc cx - cx_mem cx <= cx_size cx;
  gr_fits : tsize tt + tsize tc + tsize tp + tsize tv <= cx_alloc cx - cx_mem cx
}.

Lemma compact_spec (cx : wikrt_cx) (lo hi : Z) (tt tc tp tv : tree) (fuel : nat) :
  gc_ready cx lo hi tt tc tp tv ->
  (nodes tt < fuel)%nat -> (nodes tc < fuel)%nat ->
  (nodes tp < fuel)%nat -> (nodes tv < fuel)%nat ->
  exists cx',
    wikrt_mem_compact fuel cx = Ret cx' /\
    rep (cx_arena cx') (cx_ssp cx) (cx_ssp cx + cx_size cx) tv (cx_val cx') /\
    cx_ssp cx' = cx_mem cx /\ cx_mem cx' = cx_ssp cx /\
    cx_alloc cx' = cx_ssp cx + (tsize tt + tsize tc + tsize tp + tsize tv) /\
    cx_ecode cx' = cx_ecode cx.
Proof.
  intros [[Hlo8 Hlo4] [Hhi32 Hhi4] Htt Htc Htp Htv H32 [Hs0 Hs8]
          (Hz0 & Hz4 & Hz32) Hap [[Hm0 Hm1] Hm2] Hvol Hfits] Ft Fc Fp Fv.
  pose proof (tsize_nonneg tt) as Ptt. pose proof (tsize_nonneg tc) as Ptc.
  pose proof (tsize_nonneg tp) as Ptp. pose proof (tsize_nonneg tv) as Ptv.
  pose proof (tsize_aligned tt) as Att. pose proof (tsize_aligned tc) as Atc.
  pose proof (tsize_aligned tp) as Atp. pose proof (tsize_aligned tv) as Atv.
  unfold wikrt_mem_compact. cbv zeta.
  assert (Ev0 : wikrt_memory_volume cx = cx_alloc cx - cx_mem cx).
  { unfold wikrt_memory_volume. apply wrap32_small. lia. }
  rewrite Ev0.
  destruct (Z.leb_spec (cx_alloc cx - cx_mem cx) (cx_size cx)) as [_ | Hbad]; [ | lia ].
  cbn [negb].
  set (S0 := cx_ssp cx) in *. set (C := S0 + cx_size cx) in *.
  set (c0 := swap_spaces cx).
  assert (Hcap : cx_cap c0 = C).
  { subst c0. cbn [cx_cap swap_spaces]. apply wrap32_small. subst C S0. lia. }
  assert (HC4 : C mod 4 = 0) by (subst C; Z.div_mod_to_equations; lia).
  (* txn *)
  destruct (copy_r_spec lo hi c0 (cx_txn c0) tt None true fuel)
    as (m1 & v1 & E1 & H321 & Hr1 & Hf1);
    try assumption; rewrite ?Hcap; change (cx_alloc c0) with S0;
    try lia; try assumption.
  rewrite E1. cbn [bind]. cbv beta iota zeta.
  change (cx_alloc c0) with S0 in *.
  match goal with |- context [set_roots ?a ?b ?c ?d ?e] => set (c1 := set_roots a b c d e) end.
  assert (Hsrc1 : forall x, lo <= x < hi -> m1 x = cx_arena cx x).
  { intros x Hx. apply Hf1. subst C. lia. }
  (* cc *)
  destruct (copy_r_spec lo hi c1 (cx_cc c1) tc None true fuel)
    as (m2 & v2 & E2 & H322 & Hr2 & Hf2);
    try assumption;
    change (cx_alloc c1) with (S0 + tsize tt); change (cx_cap c1) with (cx_cap c0);
    change (cx_arena c1) with m1; change (cx_cc c1) with (cx_cc cx);
    rewrite ?Hcap; try lia.
  { apply (rep_frame (cx_arena cx) m1 lo hi); assumption. }
  { Z.div_mod_to_equations. lia. }
  change (cx_cc c1) with (cx_cc cx) in E2.
  rewrite E2. cbn [bind]. cbv beta iota zeta.
  change (cx_alloc c1) with (S0 + tsize tt) in *. change (cx_cap c1) with (cx_cap c0) in *.
  change (cx_arena c1) with m1 in *. rewrite Hcap in *.
  set (A2 := S0 + tsize tt + tsize tc) in *.
  match goal with |- context [set_roots ?a ?b ?c ?d ?e] => set (c2 := set_roots a b c d e) end.
  assert (Hsrc2 : forall x, lo <= x < hi -> m2 x = cx_arena cx x).
  { intros x Hx. rewrite Hf2 by (subst C; lia). apply Hsrc1. exact Hx. }
  (* pc *)
  destruct (copy_r_spec lo hi c2 (cx_pc c2) tp None true fuel)
    as (m3 & v3 & E3 & H323 & Hr3 & Hf3);
    try assumption;
    change (cx_alloc c2) with A2; change (cx_cap c2) with (cx_cap c0);
    change (cx_arena c2) with m2; change (cx_pc c2) with (cx_pc cx);
    rewrite ?Hcap; try (subst A2 C; lia).
  { apply (rep_frame (cx_arena cx) m2 lo hi); assumption. }
  { subst A2. Z.div_mod_to_equations. lia. }
  change (cx_pc c2) with (cx_pc cx) in E3.
  rewrite E3. cbn [bind]. cbv beta iota zeta.
  change (cx_alloc c2) with A2 in *. change (cx_cap c2) with (cx_cap c0) in *.
  change (cx_arena c2) with m2 in *. rewrite Hcap in *.
  set (A3 := A2 + tsize tp) in *.
  match goal with |- context [set_roots ?a ?b ?c ?d ?e] => set (c3 := set_roots a b c d e) end.
  assert (Hsrc3 : forall x, lo <= x < hi -> m3 x = cx_arena cx x).
  { intros x Hx. rewrite Hf3 by (subst A2 C; lia). apply Hsrc2. exact Hx. }
  (* val *)
  destruct (copy_r_spec lo hi c3 (cx_val c3) tv None true fuel)
    as (m4 & v4 & E4 & H324 & Hr4 & Hf4);
    try assumption;
    change (cx_alloc c3) with A3; change (cx_cap c3) with (cx_cap c0);
    change (cx_arena c3) with m3; change (cx_val c3) with (cx_val cx);
    rewrite ?Hcap; try (subst A3 A2 C; lia).
  { apply (rep_frame (cx_arena cx) m3 lo hi); assumption. }
  { subst A3 A2. Z.div_mod_to_equations. lia. }
  change (cx_val c3) with (cx_val cx) in E4.
  rewrite E4. cbn [bind]. cbv beta iota zeta.
  change (cx_alloc c3) with A3 in *. change (cx_cap c3) with (cx_cap c0) in *.
  change (cx_arena c3) with m3 in *. rewrite Hcap in *.
  set (A4 := A3 + tsize tv) in *.
  match goal with |- context [set_roots ?a ?b ?c ?d ?e] => set (c4 := set_roots a b c d e) end.
  assert (Ev4 : wikrt_memory_volume c4 = A4 - S0).
  { unfold wikrt_memory_volume. change (cx_alloc c4) with A4. change (cx_mem c4) with S0.
    apply wrap32_small. subst A4 A3 A2. lia. }
  rewrite Ev4.
  destruct (Z.leb_spec (A4 - S0) (cx_alloc cx - cx_mem cx)) as [_ | Hbad];
    [ | subst A4 A3 A2; lia ].
  cbn [negb].
  eexists. split; [ reflexivity | ].
  cbn [cx_arena cx_val cx_ssp cx_mem cx_alloc cx_ecode set_stats].
  change (cx_arena c4) with m4. change (cx_val c4) with v4.
  split.
  { apply (rep_region_mono m4 A3 A4 S0 C); [ subst A3 A2; lia | subst A4 A3 A2 C; lia | ].
    exact Hr4. }
  repeat split. subst A4 A3 A2. cbn. fold S0. lia.
Qed.

(** ** C7 *)

(** C7. The size estimate of a copy is exact.  For a stack [(v * rest)]
    with room for the copy: the size walk returns [tsize t]; [wikrt_copy_m]
    returns for either setting of the size bypass (its abort branch is not
    taken), the copy denotes the same value in exactly the [tsize t] bytes
    above the old allocation pointer, one more cell is taken for the stack,
    and the size walk on the copy returns [tsize t] again; and after a
    compaction the size walk on the moved value still returns [tsize t]. *)
Theorem copy_size_exact (cx : wikrt_cx) (lo hi : Z) (t : tree) (fuel : nat) :
  copy_ready cx lo hi t -> (nodes t < fuel)%nat ->
  (exists c0, wikrt_vsize fuel cx (cx_ssp cx) (load cx (wikrt_pval (cx_val cx)))
              = Ret (c0, tsize t)) /\
  (exists c0, wikrt_peek_size_ssp fuel cx = Ret (c0, WIKRT_CELLSIZE + tsize t)) /\
  (forall bypass ss moving_copy,
     exists cx' ss',
       wikrt_copy_m bypass fuel cx ss moving_copy = Ret (cx', ss') /\
       cx_alloc cx' = cx_alloc cx + tsize t + WIKRT_CELLSIZE /\
       rep (cx_arena cx') (cx_alloc cx) (cx_alloc cx + tsize t) t
           (load cx' (wikrt_pval (cx_val cx'))) /\
       exists c1, wikrt_vsize fuel cx' (cx_ssp cx') (load cx' (wikrt_pval (cx_val cx')))
                  = Ret (c1, tsize t)) /\
  (forall tt tc tp rest,
     gc_ready cx lo hi tt tc tp (TCell WIKRT_P t rest) ->
     (nodes tt < fuel)%nat -> (nodes tc < fuel)%nat -> (nodes tp < fuel)%nat ->
     (nodes (TCell WIKRT_P t rest) < fuel)%nat ->
     (cx_mem cx + Z.of_nat (S (nodes t)) * sizeof_val <= cx_ssp cx \/
      cx_ssp cx + cx_size cx <= cx_mem cx) ->
     exists cx' c2,
       wikrt_mem_compact fuel cx = Ret cx' /\
       wikrt_vsize fuel cx' (cx_ssp cx') (load cx' (wikrt_pval (cx_val cx')))
         = Ret (c2, tsize t)).
Proof.
  intros Hready Hfuel.
  pose proof Hready as
    [[Hlo8 Hlo4] [Hhi Hhi4] Hp [Hc1 Hc2] Hr H32 Hval Hal [Hm0 Hm1] [Hc4 Hc32] Hroom Hssp].
  pose proof (tsize_nonneg t) as Hts.
  pose proof (tsize_aligned t) as Hta.
  assert (Hw : wrap32 (tsize t) = tsize t).
  { apply wrap32_small. unfold WIKRT_CELLSIZE in *. lia. }
  destruct (vsize_spec lo hi cx (cx_ssp cx) _ t fuel Hlo4 Hhi4 Hr) as (m1 & E1 & _).
  { unfold WIKRT_CELLSIZE, sizeof_val in *. lia. }
  { exact Hfuel. }
  rewrite Hw in E1.
  split; [ eexists; exact E1 | ].
  split.
  { unfold wikrt_peek_size_ssp. rewrite E1. cbn [bind]. cbv beta iota zeta.
    eexists. f_equal. f_equal. apply wrap32_small. unfold WIKRT_CELLSIZE in *. lia. }
  split.
  - intros bypass ss moving_copy.
    destruct (copy_m_spec bypass cx lo hi t ss moving_copy fuel Hready Hfuel)
      as (cx' & E & [Hd1 Hd2 Hd3 Hd4 Hd5 Hd6 (Hd7 & Hd8 & Hd9)]).
    exists cx'. eexists. split; [ exact E | ]. split; [ exact Hd1 | ].
    split; [ exact Hd3 | ].
    destruct (vsize_spec (cx_alloc cx) (cx_alloc cx + tsize t) cx' (cx_ssp cx')
                (load cx' (wikrt_pval (cx_val cx'))) t fuel) as (m2 & E2 & _).
    + Z.div_mod_to_equations. lia.
    + Z.div_mod_to_equations. lia.
    + exact Hd3.
    + rewrite Hd9. unfold WIKRT_CELLSIZE, sizeof_val in *. lia.
    + exact Hfuel.
    + rewrite Hw in E2. eexists. exact E2.
  - intros tt tc tp rest Hgc Ft Fc Fp Fv Hscr.
    destruct (compact_spec cx lo hi tt tc tp _ fuel Hgc Ft Fc Fp Fv)
      as (cx' & E & Hrv & Hs' & Hm' & Ha' & He').
    pose proof Hgc as [_ _ _ _ _ _ _ [Hs0 Hs8] (Hz0 & Hz4 & Hz32) _ _ _ _].
    cbn [rep] in Hrv. destruct Hrv as (_ & _ & _ & _ & Hrt & _).
    destruct (vsize_spec (cx_ssp cx) (cx_ssp cx + cx_size cx) cx' (cx_ssp cx')
                (load cx' (wikrt_pval (cx_val cx'))) t fuel) as (m2 & E2 & _).
    + Z.div_mod_to_equations. lia.
    + Z.div_mod_to_equations. lia.
    + exact Hrt.
    + rewrite Hs'. exact Hscr.
    + exact Hfuel.
    + rewrite Hw in E2. exists cx'. eexists. split; [ exact E | exact E2 ].
Qed.

Lemma two_spaces_ready :
  copy_ready cx_two_spaces 16 32 (TBox otag_linear_block (TConst WIKRT_UNIT_INR)).
Proof.
  constructor; try (split; reflexivity); try reflexivity; try (cbn; lia).
  - cbn [rep]. repeat split; try reflexivity; vm_compute; congruence.
  - apply arena_of_32. reflexivity.
Qed.

Lemma two_spaces_gc_ready :
  gc_ready cx_two_spaces 16 32 (TConst WIKRT_UNIT_INR) (TConst WIKRT_UNIT_INR)
    (TConst WIKRT_UNIT_INR)
    (TCell WIKRT_P (TBox otag_linear_block (TConst WIKRT_UNIT_INR)) (TConst WIKRT_UNIT)).
Proof.
  constructor; try (split; reflexivity); try reflexivity; try (cbn; lia).
  - cbn [rep]. repeat split; try reflexivity; try (vm_compute; congruence).
    left. reflexivity.
  - apply arena_of_32. reflexivity.
Qed.

Lemma copy_size_exact_witness :
  (exists c0, wikrt_peek_size_ssp 3 cx_two_spaces = Ret (c0, 16)) /\
  (exists cx' ss', wikrt_copy_m false 3 cx_two_spaces (Some 0) false = Ret (cx', ss') /\
                   cx_alloc cx' = 48) /\
  (exists cx' c2, wikrt_mem_compact 3 cx_two_spaces = Ret cx' /\
                  wikrt_vsize 3 cx' (cx_ssp cx') (load cx' (wikrt_pval (cx_val cx')))
                    = Ret (c2, 8)).
Proof.
  assert (Hf : (nodes (TBox otag_linear_block (TConst WIKRT_UNIT_INR)) < 3)%nat)
    by (cbn; lia).
  destruct (copy_size_exact cx_two_spaces 16 32 _ 3 two_spaces_ready Hf)
    as (_ & Hpeek & Hcopy & Hgc).
  split; [ exact Hpeek | ]. split.
  - destruct (Hcopy false (Some 0) false) as (cx' & ss' & E & Ha & _).
    exists cx', ss'. split; [ exact E | exact Ha ].
  - apply (Hgc _ _ _ _ two_spaces_gc_ready); cbn; lia.
Defined.

(** ** Block composition *)

Lemma ops_reach_slot (m : arena) (n : nat) :
  forall a e, a mod 8 = 4 -> ops_reach m a n e -> e mod 8 = 4.
Proof.
  induction n as [ | n IH ]; intros a e Ha H; cbn [ops_reach] in H.
  - subst. exact Ha.
  - destruct H as [_ H]. apply (IH (wikrt_pval (m a) + sizeof_val)); [ | exact H ].
    pose proof (pval_aligned (m a)). unfold sizeof_val. Z.div_mod_to_equations. lia.
Qed.

Lemma ops_reach_ext (m m' : arena) (n : nat) :
  (forall x, x mod 8 = 4 -> m' x = m x) ->
  forall a e, a mod 8 = 4 -> ops_reach m a n e -> ops_reach m' a n e.
Proof.
  intros Hm. induction n as [ | n IH ]; intros a e Ha H; cbn [ops_reach] in *.
  - exact H.
  - destruct H as [Hp H]. rewrite Hm by exact Ha. split; [ exact Hp | ].
    apply IH; [ | exact H ].
    pose proof (pval_aligned (m a)). unfold sizeof_val. Z.div_mod_to_equations. lia.
Qed.

(** The probe finds the terminator exactly when the list has at most
    [effort] cells. *)
Lemma scan_loop_spec (cx : wikrt_cx) (n : nat) :
  forall (a e effort : Z) (fuel : nat),
  ops_reach (cx_arena cx) a n e -> load cx e = WIKRT_UNIT_INR ->
  0 <= effort < 2 ^ 32 ->
  (Z.of_nat n <= effort -> (n < fuel)%nat ->
     scan_loop fuel cx a effort = Ret (Some e)) /\
  (effort < Z.of_nat n -> (Z.to_nat effort < fuel)%nat ->
     scan_loop fuel cx a effort = Ret None).
Proof.
  induction n as [ | n IH ]; intros a e effort fuel H He Hr; cbn [ops_reach] in H.
  - subst a. split; [ | lia ]. intros _ Hf.
    destruct fuel as [ | f ]; [ lia | ]. cbn [scan_loop]. rewrite He.
    reflexivity.
  - destruct H as [Hp H]. unfold load in *.
    split; intros Hn Hf; (destruct fuel as [ | f ]; [ lia | ]);
      cbn [scan_loop]; unfold load; rewrite Hp.
    + destruct (Z.gtb_spec effort 0) as [Hpos | Hz]; [ | lia ].
      rewrite wrap32_small by lia.
      apply (IH _ e (effort - 1) f H He); lia.
    + destruct (Z.gtb_spec effort 0) as [Hpos | Hz]; [ | reflexivity ].
      rewrite wrap32_small by lia.
      apply (IH _ e (effort - 1) f H He); lia.
Qed.

Lemma scan_loop_ext (cx cx' : wikrt_cx) (fuel : nat) :
  (forall x, load cx' x = load cx x) ->
  forall a effort, scan_loop fuel cx' a effort = scan_loop fuel cx a effort.
Proof.
  intros Hl. induction fuel as [ | f IH ]; intros a effort; cbn [scan_loop];
    [ reflexivity | ].
  rewrite !Hl. destruct (wikrt_pl (load cx a)); [ | reflexivity ].
  destruct (effort >? 0); [ apply IH | reflexivity ].
Qed.

(** Two undecorated blocks on the stack, the left one with [n] operators
    and its terminator in the slot [eoab]. *)
Record compose_ready (cx : wikrt_cx) (n : nat) (eoab pabe pbe pfnab pfnbc : Z)
  : Prop := {
  cy_ok : cx_ecode cx = WIKRT_OK;
  cy_val : wikrt_p (cx_val cx) = true /\ pabe = wikrt_pval (cx_val cx);
  cy_snd : wikrt_p (load cx (pabe + sizeof_val)) = true /\
           pbe = wikrt_pval (load cx (pabe + sizeof_val));
  cy_ab : wikrt_o (load cx pabe) = true /\ pfnab = wikrt_pobj (load cx pabe);
  cy_bc : wikrt_o (load cx pbe) = true /\ pfnbc = wikrt_pobj (load cx pbe);
  cy_hab : wikrt_otag_block (load cx pfnab) = true /\
           Z.land (load cx pfnab) unsafe_attribs = 0;
  cy_hbc : wikrt_otag_block (load cx pfnbc) = true /\
           Z.land (load cx pfnbc) unsafe_attribs = 0;
  cy_apart : pabe <> pbe /\ pfnab <> pfnbc /\ pfnab <> pabe /\ pfnab <> pbe /\
             pfnbc <> pabe /\ pfnbc <> pbe;
  cy_ops : ops_reach (cx_arena cx) (pfnab + sizeof_val) n eoab;
  cy_end : load cx eoab = WIKRT_UNIT_INR;
  cy_eoab : eoab <> pfnbc + sizeof_val /\ eoab <> pabe + sizeof_val
}.

Lemma wswap_effect (cx : wikrt_cx) (pabe pbe : Z) :
  wikrt_p (cx_val cx) = true -> pabe = wikrt_pval (cx_val cx) ->
  wikrt_p (load cx (pabe + sizeof_val)) = true ->
  pbe = wikrt_pval (load cx (pabe + sizeof_val)) ->
  wikrt_wswap cx = wikrt_pval_swap cx pabe pbe.
Proof.
  intros Hp -> Hq ->. unfold wikrt_wswap, wikrt_wswap_v. rewrite Hp, Hq. reflexivity.
Qed.

Lemma pval_swap_fst (cx : wikrt_cx) (a b : Z) : load (wikrt_pval_swap cx a b) a =
  if a =? b then load cx a else load cx b.
Proof.
  unfold wikrt_pval_swap, store, load. cbn [cx_arena set_arena].
  destruct (Z.eqb_spec a b) as [-> | Hne].
  - apply upd_same.
  - rewrite upd_other by exact Hne. apply upd_same.
Qed.

Lemma pval_swap_snd (cx : wikrt_cx) (a b : Z) : load (wikrt_pval_swap cx a b) b = load cx a.
Proof.
  unfold wikrt_pval_swap, store, load. cbn [cx_arena set_arena]. apply upd_same.
Qed.
Lemma hide_undecorated (fuel : nat) (cx : wikrt_cx) (b : Z) :
  wikrt_p (cx_val cx) = true ->
  wikrt_o (load cx (wikrt_pval (cx_val cx))) = true ->
  b = wikrt_pobj (load cx (wikrt_pval (cx_val cx))) ->
  wikrt_otag_block (load cx b) = true ->
  Z.land (load cx b) unsafe_attribs = 0 ->
  wikrt_peek_block cx = (cx, Some b) /\
  wikrt_hide_block_decorators fuel cx = Ret cx.
Proof.
  intros Hp Ho -> Hb Hd.
  assert (E : wikrt_peek_block cx = (cx, Some (wikrt_pobj (load cx (wikrt_pval (cx_val cx)))))).
  { unfold wikrt_peek_block. rewrite Hp, Ho, Hb. reflexivity. }
  split; [ exact E | ].
  unfold wikrt_hide_block_decorators. rewrite E. cbv zeta. rewrite Hd. reflexivity.
Qed.

(** The concatenation proper. *)
Lemma concat_effect (cx : wikrt_cx) (n : nat) (eoab pabe pbe pfnab pfnbc : Z) :
  compose_ready cx n eoab pabe pbe pfnab pfnbc ->
  exists cx',
    compose_concat cx (Some eoab) = Ret cx' /\
    cx_val cx' = load cx (pabe + sizeof_val) /\
    load cx' pfnbc = Z.lor (load cx pfnbc) (load cx pfnab) /\
    load cx' (pfnbc + sizeof_val)
      = (if Nat.eqb n 0 then load cx (pfnbc + sizeof_val) else load cx (pfnab + sizeof_val)) /\
    (n <> O -> load cx' eoab = load cx (pfnbc + sizeof_val)) /\
    load cx' (pfnab + sizeof_val) = WIKRT_UNIT_INR /\
    cx_alloc cx' = cx_alloc cx /\ cx_ecode cx' = WIKRT_OK /\
    (forall x, x <> eoab -> x <> pfnab + sizeof_val -> x <> pfnbc + sizeof_val ->
               x <> pfnbc -> load cx' x = load cx x).
Proof.
  intros [Hok [Hp Epabe] [Hq Epbe] [Hoa Epfnab] [Hob Epfnbc] [Hba Hda] [Hbb Hdb]
          (N1 & N2 & N3 & N4 & N5 & N6) Hops Hend [Ne1 Ne2]].
  assert (Al1 : pabe mod 8 = 0) by (subst pabe; apply pval_aligned).
  assert (Al2 : pbe mod 8 = 0) by (subst pbe; apply pval_aligned).
  assert (Al3 : pfnab mod 8 = 0) by (subst pfnab; apply pval_aligned).
  assert (Al4 : pfnbc mod 8 = 0) by (subst pfnbc; apply pval_aligned).
  assert (Al5 : eoab mod 8 = 4).
  { apply (ops_reach_slot (cx_arena cx) n (pfnab + sizeof_val)); [ | exact Hops ].
    unfold sizeof_val. Z.div_mod_to_equations. lia. }
  unfold compose_concat, wikrt_has_error. rewrite Hok. cbn [ecode_eqb negb].
  rewrite Hend, Z.eqb_refl. cbn [negb]. cbv zeta.
  rewrite <- Epabe, <- Epbe, <- Epfnab, <- Epfnbc.
  eexists. split; [ reflexivity | ].
  unfold wikrt_pval_swap, store, load in *. cbn [cx_arena cx_val cx_alloc cx_ecode set_arena set_val].
  set (m := cx_arena cx) in *. unfold sizeof_val in *.
  assert (D1 : pabe + 4 <> pfnbc) by (Z.div_mod_to_equations; lia).
  assert (D2 : pabe + 4 <> pfnbc + 4) by lia.
  assert (D3 : pabe + 4 <> pfnab + 4) by lia.
  assert (D4 : pfnab + 4 <> pfnbc + 4) by lia.
  assert (D5 : pfnbc <> pfnab + 4) by (Z.div_mod_to_equations; lia).
  assert (D6 : pfnbc <> pfnbc + 4) by lia.
  assert (D7 : pfnbc <> eoab) by (Z.div_mod_to_equations; lia).
  assert (D8 : pfnab <> eoab) by (Z.div_mod_to_equations; lia).
  assert (D9 : pfnab <> pfnab + 4) by lia.
  assert (D10 : pfnab <> pfnbc + 4) by (Z.div_mod_to_equations; lia).
  split.
  { rewrite !upd_other by auto. reflexivity. }
  split.
  { rewrite upd_same. rewrite !upd_other by auto. reflexivity. }
  split.
  { rewrite (upd_other _ pfnbc) by auto. rewrite upd_same.
    destruct n as [ | n ]; cbn [Nat.eqb ops_reach] in *.
    - subst eoab. rewrite upd_other by auto. rewrite upd_same. reflexivity.
    - rewrite (upd_other _ (pfnbc + 4) _ (pfnab + 4)) by auto.
      destruct (Z.eq_dec (pfnab + 4) eoab) as [E | E].
      + exfalso. rewrite E in Hops. destruct Hops as [Hpl _].
        rewrite Hend in Hpl. discriminate Hpl.
      + rewrite upd_other by exact E. reflexivity. }
  split.
  { intros Hn. destruct n as [ | n ]; [ congruence | ]. cbn [ops_reach] in Hops.
    assert (E : pfnab + 4 <> eoab).
    { intros E. rewrite E in Hops. destruct Hops as [Hpl _].
      rewrite Hend in Hpl. discriminate Hpl. }
    rewrite (upd_other _ pfnbc) by auto.
    rewrite (upd_other _ (pfnbc + 4)) by auto.
    rewrite (upd_other _ (pfnab + 4)) by auto.
    rewrite (upd_other _ (pfnbc + 4)) by auto.
    rewrite upd_same. reflexivity. }
  split.
  { rewrite (upd_other _ pfnbc) by auto.
    rewrite (upd_other _ (pfnbc + 4) _ (pfnab + 4)) by auto.
    rewrite upd_same, upd_same. exact Hend. }
  split; [ reflexivity | ]. split; [ exact Hok | ].
  intros x X1 X2 X3 X4. rewrite !upd_other by auto. reflexivity.
Qed.
Lemma compose_ready_same (cx cx' : wikrt_cx) (n : nat) (eoab pabe pbe pfnab pfnbc : Z) :
  cx_same cx' cx ->
  compose_ready cx n eoab pabe pbe pfnab pfnbc ->
  compose_ready cx' n eoab pabe pbe pfnab pfnbc.
Proof.
  intros (Hm & He & Hv & _) [Hok Hval Hsnd Hab Hbc Hha Hhb Hap Hops Hend Hne].
  assert (Hl : forall x, load cx' x = load cx x) by (intros x; apply Hm).
  constructor; rewrite ?Hl, ?Hv; try assumption.
  - congruence.
  - apply (ops_reach_ext (cx_arena cx)); [ intros x _; apply Hm | | exact Hops ].
    destruct Hab as [_ ->]. pose proof (pval_aligned (load cx pabe)).
    unfold wikrt_pobj, wikrt_pval in *. unfold sizeof_val. Z.div_mod_to_equations. lia.
Qed.

(** ** Composition *)

(** X23. Composition of a small left operand is a splice in place.  For two
    undecorated blocks on the stack, the left one with [n] operators: the
    probe of [wikrt_scan_to_block_end] with effort 15 finds the terminator
    exactly when [n <= 15]; in that case [wikrt_compose] returns, puts the
    right block's code in place of the left terminator, leaves the whole
    list under the right block's header, which becomes the bitwise or of
    the two headers, pops the left operand's stack cell, allocates nothing
    and raises no error. *)
Theorem compose_small_splices (cx : wikrt_cx) (n : nat) (eoab pabe pbe pfnab pfnbc : Z)
    (fuel : nat) :
  compose_ready cx n eoab pabe pbe pfnab pfnbc -> (16 < fuel)%nat ->
  wikrt_scan_to_block_end fuel cx 15
    = Ret (cx, if (n <=? 15)%nat then Some eoab else None) /\
  ((n <= 15)%nat ->
     exists cx',
       wikrt_compose fuel cx = Ret cx' /\
       cx_val cx' = load cx (pabe + sizeof_val) /\
       load cx' pfnbc = Z.lor (load cx pfnbc) (load cx pfnab) /\
       load cx' (pfnbc + sizeof_val)
         = (if Nat.eqb n 0 then load cx (pfnbc + sizeof_val)
            else load cx (pfnab + sizeof_val)) /\
       (n <> O -> load cx' eoab = load cx (pfnbc + sizeof_val)) /\
       load cx' (pfnab + sizeof_val) = WIKRT_UNIT_INR /\
       cx_alloc cx' = cx_alloc cx /\ cx_ecode cx' = WIKRT_OK /\
       (forall x, x <> eoab -> x <> pfnab + sizeof_val -> x <> pfnbc + sizeof_val ->
                  x <> pfnbc -> load cx' x = load cx x)).
Proof.
  intros Hready Hfuel.
  pose proof Hready as
    [Hok [Hp Epabe] [Hq Epbe] [Hoa Epfnab] [Hob Epfnbc] [Hba Hda] [Hbb Hdb]
     (N1 & N2 & N3 & N4 & N5 & N6) Hops Hend [Ne1 Ne2]].
  assert (Al1 : pabe mod 8 = 0) by (subst pabe; apply pval_aligned).
  assert (Al2 : pbe mod 8 = 0) by (subst pbe; apply pval_aligned).
  (* the probe *)
  assert (Hscan : forall c, cx_same c cx ->
            wikrt_scan_to_block_end fuel c 15
              = Ret (c, if (n <=? 15)%nat then Some eoab else None)).
  { intros c Hc. pose proof (compose_ready_same _ _ _ _ _ _ _ _ Hc Hready) as
      [_ [Hp' E1] _ [Ho' E2] _ [Hb' Hd'] _ _ Hops' Hend' _].
    unfold wikrt_scan_to_block_end.
    destruct (hide_undecorated fuel c pfnab) as [Epk _]; try assumption; try congruence.
    rewrite Epk.
    destruct (scan_loop_spec c n (pfnab + sizeof_val) eoab 15 fuel Hops' Hend')
      as [Hfound Hnone]; [ lia | ].
    destruct (Nat.leb_spec n 15) as [Hle | Hgt].
    - rewrite Hfound by lia. reflexivity.
    - rewrite Hnone by (try lia; change (Z.to_nat 15) with 15%nat; lia). reflexivity. }
  split; [ apply Hscan, cx_same_refl | ].
  (* the two swaps and the two checks for decorators *)
  set (c1 := wikrt_wswap cx).
  assert (E1 : c1 = wikrt_pval_swap cx pabe pbe).
  { apply wswap_effect; assumption. }
  assert (Hc1v : cx_val c1 = cx_val cx) by (rewrite E1; reflexivity).
  assert (Hc1a : load c1 pabe = load cx pbe).
  { rewrite E1, pval_swap_fst. destruct (Z.eqb_spec pabe pbe); congruence. }
  assert (Hc1f : forall x, x <> pabe -> x <> pbe -> load c1 x = load cx x).
  { intros x X1 X2. rewrite E1. apply pval_swap_frame; assumption. }
  assert (Hh1 : wikrt_hide_block_decorators fuel c1 = Ret c1).
  { apply (hide_undecorated fuel c1 pfnbc); rewrite ?Hc1v, <- ?Epabe, ?Hc1a;
      try assumption; rewrite ?Hc1f by auto; assumption. }
  set (c2 := wikrt_wswap c1).
  assert (E2 : c2 = wikrt_pval_swap c1 pabe pbe).
  { apply wswap_effect; rewrite ?Hc1v; try assumption;
      rewrite Hc1f by (unfold sizeof_val; Z.div_mod_to_equations; lia); assumption. }
  assert (Hsame : cx_same c2 cx).
  { rewrite E2, E1. apply pval_swap_twice. }
  pose proof (compose_ready_same _ _ _ _ _ _ _ _ Hsame Hready) as Hready2.
  assert (Hh2 : wikrt_hide_block_decorators fuel c2 = Ret c2).
  { destruct Hready2 as [_ [Hp' E1'] _ [Ho' E2'] _ [Hb' Hd'] _ _ _ _ _].
    apply (hide_undecorated fuel c2 pfnab); try assumption; congruence. }
  assert (Hpre : wikrt_compose fuel cx =
            ('(cx3, eoab') <-
               match (if (n <=? 15)%nat then Some eoab else None) with
               | Some _ => Ret (c2, if (n <=? 15)%nat then Some eoab else None)
               | None =>
                   cx1 <- wikrt_block_quote_inline_attrib fuel c2 0 ;;
                   wikrt_scan_to_block_end fuel cx1 WIKRT_SIZE_MAX
               end ;;
             compose_concat cx3 eoab')).
  { unfold wikrt_compose. cbv zeta. fold c1. rewrite Hh1. cbn [bind]. fold c2.
    rewrite Hh2. cbn [bind]. rewrite (Hscan c2 Hsame). cbn [bind]. reflexivity. }
  intros Hle. rewrite Hpre.
  destruct (Nat.leb_spec n 15) as [_ | Hgt]; [ | lia ].
  cbn [bind]. cbv beta iota.
  destruct (concat_effect c2 n eoab pabe pbe pfnab pfnbc Hready2)
    as (cx' & E & P1 & P2 & P3 & P4 & P5 & P6 & P7 & P8).
  destruct Hsame as (Hm & _ & _ & _ & _ & _ & _ & Ha & _).
  assert (Hl : forall x, load c2 x = load cx x) by (intros x; apply Hm).
  rewrite !Hl in *.
  exists cx'. split; [ exact E | ].
  repeat split; try assumption.
  - congruence.
  - intros x X1 X2 X3 X4. rewrite P8 by assumption. apply Hl.
Qed.
Lemma compose_small_ready :
  compose_ready (cx_compose otag_affine_block 1) 1 52 16 24 32 40.
Proof.
  constructor; try reflexivity; try (split; reflexivity);
    try (repeat split; vm_compute; congruence).
Qed.

Lemma compose_small_splices_witness :
  exists cx',
    wikrt_compose 17 (cx_compose otag_affine_block 1) = Ret cx' /\
    load cx' 40 = Z.lor (Z.lor WIKRT_OTAG_BLOCK WIKRT_BLOCK_RELEVANT) otag_affine_block /\
    load cx' 44 = wikrt_tag_addr WIKRT_PL 48 /\
    load cx' 52 = WIKRT_UNIT_INR.
Proof.
  destruct (compose_small_splices (cx_compose otag_affine_block 1) 1 52 16 24 32 40 17
              compose_small_ready) as (_ & Hsmall).
  - lia.
  - destruct Hsmall as (cx' & E & _ & Hh & Hl & He & _); [ lia | ].
    exists cx'. split; [ exact E | ]. split; [ exact Hh | ].
    split; [ exact Hl | ]. apply He. discriminate.
Defined.

(** ** C8 *)


(** ** Sums: unwrap then wrap *)

Lemma covers_mono (P Q : Z -> Prop) (p n : Z) :
  (forall x, P x -> Q x) -> covers P p n -> covers Q p n.
Proof. intros H Hc x Hx. apply H, Hc, Hx. Qed.

Lemma covers_bytes_mono (P Q : Z -> Prop) (p n : Z) :
  (forall x, P x -> Q x) -> covers_bytes P p n -> covers_bytes Q p n.
Proof. intros H Hc x Hx. apply H, Hc, Hx. Qed.

Lemma without_mono (P Q : Z -> Prop) (p n : Z) :
  (forall x, P x -> Q x) -> forall x, without P p n x -> without Q p n x.
Proof. intros H x [Hx Hn]. split; [ apply H, Hx | exact Hn ]. Qed.

Lemma bytes_at_covered (m m' : arena) (P : Z -> Prop) (bs : list Z) :
  forall a, covers_bytes P a (Z.of_nat (length bs)) ->
  (forall x, P x -> m' x = m x) ->
  bytes_at m a bs -> bytes_at m' a bs.
Proof.
  induction bs as [ | b bs IH ]; intros a Hc Hf H; cbn [bytes_at] in *; [ exact I | ].
  destruct H as [Hb Hr]. split.
  - unfold load8. rewrite Hf; [ exact Hb | ]. apply Hc. cbn [length]. lia.
  - apply IH; [ | exact Hf | exact Hr ].
    intros x Hx. apply Hc. cbn [length]. lia.
Qed.

(** A binary only depends on its footprint, which may grow. *)
Lemma bin_transport (m m' : arena) (P : Z -> Prop) (w : Z) (bs : list Z) :
  bin m P w bs ->
  forall Q, (forall x, P x -> Q x /\ m' x = m x) -> bin m' Q w bs.
Proof.
  induction 1 as [ P | P w b bs Ht Hc Hb Hr Hn IH
                 | P w chunk bs Ht Hc Hh Hne Hl Hb0 Hb1 Hcb Hby Hn IH ]; intros Q HQ.
  - constructor.
  - assert (E0 : m' (wikrt_pval w) = m (wikrt_pval w)) by (apply HQ, Hc; lia).
    assert (E1 : m' (wikrt_pval w + sizeof_val) = m (wikrt_pval w + sizeof_val))
      by (apply HQ, Hc; unfold sizeof_val; lia).
    apply bin_cell; try assumption.
    + intros x Hx. apply HQ, Hc, Hx.
    + rewrite E0. exact Hb.
    + rewrite E1. apply IH, HQ.
  - assert (E0 : m' (wikrt_pobj w) = m (wikrt_pobj w)) by (apply HQ, Hc; lia).
    assert (E1 : m' (wikrt_pobj w + sizeof_val) = m (wikrt_pobj w + sizeof_val))
      by (apply HQ, Hc; unfold sizeof_val; lia).
    assert (E2 : m' (wikrt_pobj w + 2 * sizeof_val) = m (wikrt_pobj w + 2 * sizeof_val))
      by (apply HQ, Hc; unfold sizeof_val; lia).
    assert (E3 : m' (wikrt_pobj w + 3 * sizeof_val) = m (wikrt_pobj w + 3 * sizeof_val))
      by (apply HQ, Hc; unfold sizeof_val; lia).
    assert (HW : forall x, without P (wikrt_pobj w) 16 x ->
                           without Q (wikrt_pobj w) 16 x /\ m' x = m x).
    { intros x [Hx Hnx]. destruct (HQ x Hx) as [Hq He]. repeat split; assumption. }
    apply bin_chunk; rewrite ?E0, ?E1, ?E2, ?E3; try assumption.
    + intros x Hx. apply HQ, Hc, Hx.
    + intros x Hx. apply HW, Hcb, Hx.
    + apply (bytes_at_covered m m' (without P (wikrt_pobj w) 16)); try assumption.
      intros x Hx. apply HW, Hx.
    + apply IH, HW.
Qed.

Lemma rep_covered (m m' : arena) (P : Z -> Prop) (lo hi : Z) (t : tree) (w : Z) :
  lo mod 4 = 0 -> hi mod 4 = 0 -> covers P lo (hi - lo) ->
  (forall x, P x -> m' x = m x) ->
  rep m lo hi t w -> rep m' lo hi t w.
Proof.
  intros Hlo Hhi Hc Hf. apply rep_frame; try assumption.
  intros x Hx. apply Hf, Hc. lia.
Qed.

(** A value only depends on its footprint, which may grow. *)
Lemma den_transport (m m' : arena) (P : Z -> Prop) (w : Z) (a : aval) :
  den m P w a ->
  forall Q, (forall x, P x -> Q x /\ m' x = m x) -> den m' Q w a.
Proof.
  induction 1 as
    [ P | P n Hn | P w a b Ht Hc Ha IHa Hb IHb | P w s a Hl Ha IH
    | P w ts a Ht Hc Hne Hp Hh Ha IH
    | P w elems tl Ht Hc Hh Hne Hl Hb0 Hb1 Hcb He IHe Hn IHn
    | P w bytes tl Ht Hc Hh Hne Hl Hb0 Hb1 Hcb Hby Hn IHn
    | P w bytes cps Ht Hc Hh Hb Hu
    | P w t lo hi Ho Hlo Hhi Hc Hr ]; intros Q HQ.
  - constructor.
  - constructor. exact Hn.
  - assert (E0 : m' (wikrt_pval w) = m (wikrt_pval w)) by (apply HQ, Hc; lia).
    assert (E1 : m' (wikrt_pval w + sizeof_val) = m (wikrt_pval w + sizeof_val))
      by (apply HQ, Hc; unfold sizeof_val; lia).
    apply den_pair; rewrite ?E0, ?E1; try assumption.
    + intros x Hx. apply HQ, Hc, Hx.
    + apply IHa, HQ.
    + apply IHb, HQ.
  - apply den_shallow; [ exact Hl | apply IH, HQ ].
  - assert (E0 : m' (wikrt_pobj w) = m (wikrt_pobj w)) by (apply HQ, Hc; lia).
    assert (E1 : m' (wikrt_pobj w + sizeof_val) = m (wikrt_pobj w + sizeof_val))
      by (apply HQ, Hc; unfold sizeof_val; lia).
    apply den_deepsum; rewrite ?E0, ?E1; try assumption.
    + intros x Hx. apply HQ, Hc, Hx.
    + apply IH. intros x [Hx Hnx]. destruct (HQ x Hx) as [Hq He]. repeat split; assumption.
  - assert (E0 : m' (wikrt_pobj w) = m (wikrt_pobj w)) by (apply HQ, Hc; lia).
    assert (E1 : m' (wikrt_pobj w + sizeof_val) = m (wikrt_pobj w + sizeof_val))
      by (apply HQ, Hc; unfold sizeof_val; lia).
    assert (E2 : m' (wikrt_pobj w + 2 * sizeof_val) = m (wikrt_pobj w + 2 * sizeof_val))
      by (apply HQ, Hc; unfold sizeof_val; lia).
    assert (E3 : m' (wikrt_pobj w + 3 * sizeof_val) = m (wikrt_pobj w + 3 * sizeof_val))
      by (apply HQ, Hc; unfold sizeof_val; lia).
    assert (HW : forall x, without P (wikrt_pobj w) 16 x ->
                           without Q (wikrt_pobj w) 16 x /\ m' x = m x).
    { intros x [Hx Hnx]. destruct (HQ x Hx) as [Hq He']. repeat split; assumption. }
    apply den_array; rewrite ?E0, ?E1, ?E2, ?E3; try assumption.
    + intros x Hx. apply HQ, Hc, Hx.
    + intros x Hx. apply HW, Hcb, Hx.
    + intros i e Hi.
      assert (E : m' (m (wikrt_pobj w + 3 * sizeof_val) + sizeof_val * Z.of_nat i)
                  = m (m (wikrt_pobj w + 3 * sizeof_val) + sizeof_val * Z.of_nat i)).
      { apply HW, Hcb.
        assert (i < length elems)%nat by (apply nth_error_Some; rewrite Hi; discriminate).
        unfold sizeof_val. lia. }
      rewrite E. apply (IHe i e Hi), HW.
    + apply IHn, HW.
  - assert (E0 : m' (wikrt_pobj w) = m (wikrt_pobj w)) by (apply HQ, Hc; lia).
    assert (E1 : m' (wikrt_pobj w + sizeof_val) = m (wikrt_pobj w + sizeof_val))
      by (apply HQ, Hc; unfold sizeof_val; lia).
    assert (E2 : m' (wikrt_pobj w + 2 * sizeof_val) = m (wikrt_pobj w + 2 * sizeof_val))
      by (apply HQ, Hc; unfold sizeof_val; lia).
    assert (E3 : m' (wikrt_pobj w + 3 * sizeof_val) = m (wikrt_pobj w + 3 * sizeof_val))
      by (apply HQ, Hc; unfold sizeof_val; lia).
    assert (HW : forall x, without P (wikrt_pobj w) 16 x ->
                           without Q (wikrt_pobj w) 16 x /\ m' x = m x).
    { intros x [Hx Hnx]. destruct (HQ x Hx) as [Hq He']. repeat split; assumption. }
    apply den_binary; rewrite ?E0, ?E1, ?E2, ?E3; try assumption.
    + intros x Hx. apply HQ, Hc, Hx.
    + intros x Hx. apply HW, Hcb, Hx.
    + apply (bytes_at_covered m m' (without P (wikrt_pobj w) 16)); try assumption.
      intros x Hx. apply HW, Hx.
    + apply IHn, HW.
  - assert (E0 : m' (wikrt_pobj w) = m (wikrt_pobj w)) by (apply HQ, Hc; lia).
    assert (E1 : m' (wikrt_pobj w + sizeof_val) = m (wikrt_pobj w + sizeof_val))
      by (apply HQ, Hc; unfold sizeof_val; lia).
    apply (den_utf8 m' Q w bytes cps); rewrite ?E0, ?E1; try assumption.
    + intros x Hx. apply HQ, Hc, Hx.
    + apply (bin_transport m m' (without P (wikrt_pobj w) 8)); [ exact Hb | ].
      intros x [Hx Hnx]. destruct (HQ x Hx) as [Hq He']. repeat split; assumption.
  - apply (den_data m' Q w t lo hi); try assumption.
    + intros x Hx. apply HQ, Hc, Hx.
    + apply (rep_covered m m' P); try assumption. intros x Hx. apply HQ, Hx.
Qed.
Lemma land3_mod (w : Z) : Z.land 3 w = w mod 4.
Proof. rewrite Z.land_comm. change 3 with (Z.ones 2). apply Z.land_ones. lia. Qed.

Lemma land1_mod (w : Z) : Z.land 1 w = w mod 2.
Proof. rewrite Z.land_comm. change 1 with (Z.ones 1). apply Z.land_ones. lia. Qed.

Lemma land2_mod (w : Z) : Z.land 2 w = if w mod 4 <? 2 then 0 else 2.
Proof.
  change 2 with (Z.land 2 3) at 1. rewrite <- Z.land_assoc, land3_mod.
  assert (H : w mod 4 = 0 \/ w mod 4 = 1 \/ w mod 4 = 2 \/ w mod 4 = 3)
    by (Z.div_mod_to_equations; lia).
  destruct H as [-> | [-> | [-> | ->]]]; reflexivity.
Qed.

Lemma lobyte_mod (w : Z) : LOBYTE w = w mod 256.
Proof. unfold LOBYTE. change 255 with (Z.ones 8). apply Z.land_ones. lia. Qed.

Lemma deepsum_step_range (s : wikrt_sum_tag) : 2 <= deepsum_step s < 4.
Proof. destruct s; cbn; unfold WIKRT_DEEPSUML, WIKRT_DEEPSUMR; lia. Qed.

Lemma deepsum_path_nonneg (ts : list wikrt_sum_tag) : 0 <= deepsum_path ts.
Proof.
  induction ts as [ | t ts IH ]; cbn [deepsum_path]; [ lia | ].
  pose proof (deepsum_step_range t). lia.
Qed.

Lemma deepsum_path_zero (ts : list wikrt_sum_tag) : deepsum_path ts = 0 -> ts = [].
Proof.
  destruct ts as [ | t ts ]; [ reflexivity | ]. cbn [deepsum_path].
  pose proof (deepsum_step_range t). pose proof (deepsum_path_nonneg ts). lia.
Qed.

Lemma deepsum_otag_lobyte (ts : list wikrt_sum_tag) :
  LOBYTE (deepsum_otag ts) = WIKRT_OTAG_DEEPSUM.
Proof.
  rewrite lobyte_mod. unfold deepsum_otag, WIKRT_OTAG_DEEPSUM.
  pose proof (deepsum_path_nonneg ts). Z.div_mod_to_equations. lia.
Qed.

Lemma deepsum_otag_path (ts : list wikrt_sum_tag) :
  Z.shiftr (deepsum_otag ts) 8 = deepsum_path ts.
Proof.
  rewrite Z.shiftr_div_pow2 by lia. unfold deepsum_otag, WIKRT_OTAG_DEEPSUM.
  change (2 ^ 8) with 256. pose proof (deepsum_path_nonneg ts).
  Z.div_mod_to_equations. lia.
Qed.

Lemma deepsum_path_head (t : wikrt_sum_tag) (ts : list wikrt_sum_tag) :
  Z.land 3 (deepsum_path (t :: ts)) = deepsum_step t.
Proof.
  rewrite land3_mod. cbn [deepsum_path]. pose proof (deepsum_step_range t).
  Z.div_mod_to_equations. lia.
Qed.

Lemma deepsum_path_tail (t : wikrt_sum_tag) (ts : list wikrt_sum_tag) :
  Z.shiftr (deepsum_path (t :: ts)) 2 = deepsum_path ts.
Proof.
  rewrite Z.shiftr_div_pow2 by lia. cbn [deepsum_path]. change (2 ^ 2) with 4.
  pose proof (deepsum_step_range t). Z.div_mod_to_equations. lia.
Qed.

(** The header that [wikrt_wrap_sum_p] and [wikrt_unwrap_sum_p] write. *)
Lemma deepsum_otag_word (sf : Z) (ts : list wikrt_sum_tag) :
  sf = deepsum_path ts -> sf < 2 ^ 24 ->
  Z.lor (wrap32 (Z.shiftl sf 8)) WIKRT_OTAG_DEEPSUM = deepsum_otag ts.
Proof.
  intros -> Hlt. pose proof (deepsum_path_nonneg ts) as H0.
  rewrite wrap32_small.
  - rewrite (lor_shiftl_low _ 8) by (unfold WIKRT_OTAG_DEEPSUM; lia).
    unfold deepsum_otag. change (2 ^ 8) with 256. lia.
  - rewrite Z.shiftl_mul_pow2 by lia. change (2 ^ 8) with 256. lia.
Qed.

Lemma deepsum_path_word (s : wikrt_sum_tag) (ts : list wikrt_sum_tag) :
  deepsum_path ts < 2 ^ 22 ->
  Z.lor (wrap32 (Z.shiftl (deepsum_path ts) 2)) (deepsum_step s) = deepsum_path (s :: ts).
Proof.
  intros Hlt. pose proof (deepsum_path_nonneg ts) as H0.
  pose proof (deepsum_step_range s) as Hs.
  rewrite wrap32_small.
  - rewrite (lor_shiftl_low _ 2) by lia. cbn [deepsum_path]. change (2 ^ 2) with 4. lia.
  - rewrite Z.shiftl_mul_pow2 by lia. change (2 ^ 2) with 4. lia.
Qed.

Lemma deepsum_step_left (t : wikrt_sum_tag) :
  (if WIKRT_DEEPSUML =? deepsum_step t then WIKRT_INL else WIKRT_INR) = t.
Proof. destruct t; reflexivity. Qed.

(** *** Shallow sums: the tag arithmetic *)

Lemma unwrap_shallow (f : nat) (cx : wikrt_cx) (sum0 : option wikrt_sum_tag)
    (w0 : Z) (s : wikrt_sum_tag) :
  Z.land 3 w0 = 1 -> top cx = w0 + shallow_step s -> 0 <= top cx < 2 ^ 32 ->
  wikrt_unwrap_sum_p (S f) cx sum0
  = Ret (store cx (wikrt_pval (cx_val cx)) w0, Some s).
Proof.
  unfold top. intros Hl Hw Hr. rewrite land3_mod in Hl.
  cbn [wikrt_unwrap_sum_p]. cbv zeta.
  rewrite land2_mod, land1_mod, Hw.
  destruct s; cbn [shallow_step] in *.
  - replace ((w0 + 1) mod 4 <? 2) with false by (symmetry; apply Z.ltb_ge; Z.div_mod_to_equations; lia).
    replace ((w0 + 1) mod 2) with 0 by (Z.div_mod_to_equations; lia).
    cbn. rewrite wrap32_small by (Z.div_mod_to_equations; lia). do 3 f_equal. lia.
  - replace ((w0 + 2) mod 4 <? 2) with false by (symmetry; apply Z.ltb_ge; Z.div_mod_to_equations; lia).
    replace ((w0 + 2) mod 2) with 1 by (Z.div_mod_to_equations; lia).
    cbn. rewrite wrap32_small by (Z.div_mod_to_equations; lia). do 3 f_equal. lia.
Qed.

Lemma wrap_shallow (fuel : nat) (cx : wikrt_cx) (s : wikrt_sum_tag) :
  Z.land 3 (top cx) = 1 -> 0 <= top cx < 2 ^ 32 ->
  wikrt_wrap_sum_p fuel cx s
  = Ret (store cx (wikrt_pval (cx_val cx)) (top cx + shallow_step s)).
Proof.
  unfold top. intros Hl Hr. unfold wikrt_wrap_sum_p. cbv zeta. rewrite Hl.
  cbn [Z.eqb Pos.eqb]. rewrite land3_mod in Hl.
  rewrite wrap32_small; [ destruct s; reflexivity | ].
  destruct s; Z.div_mod_to_equations; lia.
Qed.

(** *** Deep sums: one step of the path *)

Lemma otag_word_facts (w : Z) :
  wikrt_vtag w = WIKRT_O -> Z.land 2 w = 0 /\ Z.land 3 w = 0 /\ wikrt_o w = true.
Proof.
  intros H. unfold wikrt_o. rewrite H. rewrite vtag_mod in H. unfold WIKRT_O in H.
  rewrite land2_mod, land3_mod.
  replace (w mod 4) with 0 by (Z.div_mod_to_equations; lia). repeat split.
Qed.

Lemma unwrap_deepsum (f : nat) (cx : wikrt_cx) (sum0 : option wikrt_sum_tag)
    (t : wikrt_sum_tag) (ts : list wikrt_sum_tag) :
  wikrt_vtag (top cx) = WIKRT_O ->
  load cx (wikrt_pobj (top cx)) = deepsum_otag (t :: ts) ->
  deepsum_path (t :: ts) < 2 ^ 24 ->
  wikrt_unwrap_sum_p (S f) cx sum0
  = Ret (match ts with
         | [] => store cx (wikrt_pval (cx_val cx))
                       (load cx (wikrt_pobj (top cx) + sizeof_val))
         | _ => store cx (wikrt_pobj (top cx)) (deepsum_otag ts)
         end, Some t).
Proof.
  unfold top. intros Ht Hh Hp.
  destruct (otag_word_facts _ Ht) as (L2 & L3 & Ho).
  cbn [wikrt_unwrap_sum_p]. cbv zeta. rewrite L2, Ho.
  change (negb (0 =? 0)) with false. cbv iota.
  unfold wikrt_otag_deepsum. rewrite Hh, deepsum_otag_lobyte, Z.eqb_refl.
  rewrite deepsum_otag_path, deepsum_path_head, deepsum_path_tail, deepsum_step_left.
  destruct ts as [ | t' ts ].
  - reflexivity.
  - replace (0 =? deepsum_path (t' :: ts)) with false.
    + rewrite (deepsum_otag_word _ (t' :: ts)); [ reflexivity | reflexivity | ].
      cbn [deepsum_path] in *. pose proof (deepsum_step_range t).
      pose proof (deepsum_step_range t'). pose proof (deepsum_path_nonneg ts). lia.
    + symmetry. apply Z.eqb_neq. intros E. symmetry in E.
      apply deepsum_path_zero in E. discriminate E.
Qed.

Lemma wrap_deepsum_extend (fuel : nat) (cx : wikrt_cx) (s : wikrt_sum_tag)
    (ts : list wikrt_sum_tag) :
  wikrt_vtag (top cx) = WIKRT_O ->
  load cx (wikrt_pobj (top cx)) = deepsum_otag ts ->
  wikrt_deepsum_with_free_space cx (top cx) = true ->
  wikrt_wrap_sum_p fuel cx s = Ret (store cx (wikrt_pobj (top cx)) (deepsum_otag (s :: ts)))
  /\ deepsum_path (s :: ts) < 2 ^ 24.
Proof.
  unfold top. intros Ht Hh Hfree.
  destruct (otag_word_facts _ Ht) as (L2 & L3 & Ho).
  assert (Hlt : deepsum_path ts < 2 ^ 22).
  { unfold wikrt_deepsum_with_free_space in Hfree. rewrite Ho, Hh in Hfree.
    cbn [negb] in Hfree. apply andb_prop in Hfree. destruct Hfree as [_ Hfree].
    apply Z.ltb_lt in Hfree. change (Z.shiftr WIKRT_VAL_MAX 2) with (2 ^ 30 - 1) in Hfree.
    unfold deepsum_otag, WIKRT_OTAG_DEEPSUM in Hfree. lia. }
  assert (Hlt' : deepsum_path (s :: ts) < 2 ^ 24).
  { cbn [deepsum_path]. pose proof (deepsum_step_range s). lia. }
  split; [ | exact Hlt' ].
  unfold wikrt_wrap_sum_p. cbv zeta. rewrite L3, Hfree. cbn [Z.eqb].
  rewrite Hh, deepsum_otag_path, deepsum_path_word by exact Hlt.
  rewrite (deepsum_otag_word _ (s :: ts)) by (reflexivity || exact Hlt'). reflexivity.
Qed.

(** *** A fresh wrapper *)

Lemma reserve_available (fuel : nat) (cx : wikrt_cx) (sz : Z) :
  0 <= sz -> 0 <= cx_alloc cx -> cx_alloc cx + sz <= cx_cap cx -> cx_cap cx < 2 ^ 32 ->
  wikrt_mem_reserve fuel cx sz = Ret (cx, true).
Proof.
  intros Hsz H0 H1 H2. unfold wikrt_mem_reserve, wikrt_mem_available.
  rewrite wrap32_small by lia.
  replace (sz <=? cx_cap cx - cx_alloc cx) with true by (symmetry; apply Z.leb_le; lia).
  reflexivity.
Qed.

Lemma wrap_otag_fresh (fuel : nat) (cx : wikrt_cx) (otag : Z) :
  wikrt_p (cx_val cx) = true ->
  0 <= cx_alloc cx -> cx_alloc cx + 8 <= cx_cap cx -> cx_cap cx < 2 ^ 32 ->
  wikrt_wrap_otag fuel cx otag
  = Ret (store (store (store (set_alloc cx (cx_alloc cx + 8)) (cx_alloc cx) otag)
                      (cx_alloc cx + sizeof_val) (top cx))
               (wikrt_pval (cx_val cx)) (wikrt_tag_addr WIKRT_O (cx_alloc cx))).
Proof.
  intros Hp H0 H1 H2. unfold wikrt_wrap_otag. rewrite Hp. cbn [negb].
  rewrite (reserve_available fuel cx WIKRT_CELLSIZE) by (unfold WIKRT_CELLSIZE; lia).
  cbn [bind negb]. unfold wikrt_alloc_cellval_r, wikrt_alloc_r, WIKRT_CELLSIZE.
  rewrite wrap32_small by lia. reflexivity.
Qed.
(** The context around a value on top of the stack: the stack cell lies
    outside the value's footprint, and both lie in the allocated part of
    the arena. *)
Record sum_cx (cx : wikrt_cx) (P : Z -> Prop) : Prop := {
  sc_ok : cx_ecode cx = WIKRT_OK;
  sc_val : wikrt_p (cx_val cx) = true;
  sc_32 : arena32 (cx_arena cx);
  sc_heap : forall x, P x -> 0 <= x < cx_alloc cx;
  sc_top : ~ P (wikrt_pval (cx_val cx)) /\ ~ P (wikrt_pval (cx_val cx) + sizeof_val);
  sc_cell : 0 <= wikrt_pval (cx_val cx) /\ wikrt_pval (cx_val cx) + 8 <= cx_alloc cx;
  sc_al : cx_alloc cx mod 8 = 0;
  sc_cap : cx_alloc cx <= cx_cap cx < 2 ^ 32
}.

Lemma shallow_not_o (w : Z) (s : wikrt_sum_tag) :
  Z.land 3 w = 1 -> wikrt_o (w + shallow_step s) = false.
Proof.
  intros H. rewrite land3_mod in H. unfold wikrt_o. rewrite vtag_mod. unfold WIKRT_O.
  apply Z.eqb_neq. destruct s; cbn [shallow_step]; Z.div_mod_to_equations; lia.
Qed.

(** Only a [DEEPSUM] object has room for one more step. *)
Lemma free_space_deepsum (cx : wikrt_cx) (P : Z -> Prop) (w : Z) (a : aval) :
  den (cx_arena cx) P w a ->
  wikrt_deepsum_with_free_space cx w = true ->
  exists ts a0,
    a = fold_right AInj a0 ts /\ ts <> [] /\
    wikrt_vtag w = WIKRT_O /\ covers P (wikrt_pobj w) 8 /\
    cx_arena cx (wikrt_pobj w) = deepsum_otag ts /\
    den (cx_arena cx) (without P (wikrt_pobj w) 8)
        (cx_arena cx (wikrt_pobj w + sizeof_val)) a0.
Proof.
  unfold wikrt_deepsum_with_free_space, load.
  intros Hden. destruct Hden as
    [ P | P n Hn | P w a b Ht Hc Ha Hb | P w s a Hl Ha
    | P w ts a Ht Hc Hne Hp Hh Ha
    | P w elems tl Ht Hc Hh Hne Hl Hb0 Hb1 Hcb He Hn
    | P w bytes tl Ht Hc Hh Hne Hl Hb0 Hb1 Hcb Hby Hn
    | P w bytes cps Ht Hc Hh Hb Hu
    | P w t lo hi Ho Hlo Hhi Hc Hr ]; intros F.
  - discriminate F.
  - pose proof (i2v_smallint n) as Hs. unfold wikrt_smallint in Hs.
    apply Z.eqb_eq in Hs. unfold wikrt_o in F. rewrite Hs in F. discriminate F.
  - unfold wikrt_o in F. rewrite Ht in F. discriminate F.
  - rewrite shallow_not_o in F by exact Hl. discriminate F.
  - exists ts, a. repeat split; assumption.
  - unfold wikrt_o in F. rewrite Ht in F. cbn [Z.eqb WIKRT_O negb] in F.
    unfold wikrt_otag_deepsum in F. rewrite Hh in F. discriminate F.
  - unfold wikrt_o in F. rewrite Ht in F. cbn [Z.eqb WIKRT_O negb] in F.
    unfold wikrt_otag_deepsum in F. rewrite Hh in F. discriminate F.
  - unfold wikrt_o in F. rewrite Ht in F. cbn [Z.eqb WIKRT_O negb] in F.
    unfold wikrt_otag_deepsum in F. rewrite Hh in F. discriminate F.
  - destruct t; try discriminate Ho; cbn [rep opaque_tree] in *.
    + destruct Hr as (Ht & _ & _ & Hh & _).
      unfold wikrt_o in F. rewrite Ht in F. cbn [Z.eqb WIKRT_O negb] in F.
      unfold wikrt_otag_deepsum in F. rewrite Hh in F.
      destruct (LOBYTE otag =? WIKRT_OTAG_DEEPSUM); discriminate.
    + destruct Hr as (Ht & _ & _ & _ & Hh & Hl & _).
      unfold wikrt_o in F. rewrite Ht in F. cbn [Z.eqb WIKRT_O negb] in F.
      unfold wikrt_otag_deepsum in F. rewrite Hh, Hl in F. discriminate F.
Qed.

(** [wikrt_wrap_sum] on any value: the result denotes the sum. *)
Lemma wrap_sum_den (fuel : nat) (cx : wikrt_cx) (P : Z -> Prop)
    (s : wikrt_sum_tag) (a : aval) :
  sum_cx cx P ->
  cx_alloc cx + 8 <= cx_cap cx \/ Z.land 3 (top cx) = 1 ->
  den (cx_arena cx) P (top cx) a ->
  exists cx2,
    wikrt_wrap_sum fuel cx s = Ret cx2 /\
    den (cx_arena cx2) (grown P (cx_alloc cx) 8) (top cx2) (AInj s a) /\
    cx_val cx2 = cx_val cx /\ cx_ecode cx2 = WIKRT_OK /\
    (forall x, ~ P x -> x <> wikrt_pval (cx_val cx) -> x < cx_alloc cx ->
               load cx2 x = load cx x).
Proof.
  intros H Hroom Hden.
  destruct H as [Hok Hval H32 Hheap [Htop Htop'] [Hc0 Hc1] Hal Hcap].
  assert (Hr : 0 <= top cx < 2 ^ 32) by apply H32.
  unfold wikrt_wrap_sum. rewrite Hval. cbn [negb].
  destruct (Z.eq_dec (Z.land 3 (top cx)) 1) as [E | E].
  - rewrite wrap_shallow by assumption. eexists. split; [ reflexivity | ].
    unfold top, store, load in *. cbn [cx_arena cx_val cx_ecode set_arena].
    repeat split; try assumption.
    + rewrite upd_same. apply den_shallow; [ exact E | ].
      apply (den_transport _ _ _ _ _ Hden).
      intros x Hx. split; [ left; exact Hx | ].
      apply upd_other. intros ->. exact (Htop Hx).
    + intros x _ Hx _. apply upd_other. exact Hx.
  - destruct Hroom as [Hroom | Hs]; [ | contradiction ].
    destruct (wikrt_deepsum_with_free_space cx (top cx)) eqn:F.
    + destruct (free_space_deepsum cx P _ a Hden F)
        as (ts & a0 & -> & Hne & Ht & Hc & Hh & Ha).
      destruct (wrap_deepsum_extend fuel cx s ts Ht Hh F) as [Eq Hlt].
      rewrite Eq. eexists. split; [ reflexivity | ].
      unfold top, store, load in *. cbn [cx_arena cx_val cx_ecode set_arena].
      set (w := cx_arena cx (wikrt_pval (cx_val cx))) in *.
      assert (Hpp : P (wikrt_pobj w)) by (apply Hc; lia).
      assert (Hne' : wikrt_pval (cx_val cx) <> wikrt_pobj w)
        by (intros E'; rewrite E' in Htop; exact (Htop Hpp)).
      repeat split; try assumption.
      * rewrite upd_other by exact Hne'. fold w.
        apply (den_deepsum _ _ w (s :: ts) a0); try assumption.
        -- intros x Hx. left. apply Hc, Hx.
        -- discriminate.
        -- apply upd_same.
        -- rewrite upd_other by (unfold sizeof_val; lia).
           apply (den_transport _ _ _ _ _ Ha).
           intros x [Hx Hnx]. split; [ split; [ left; exact Hx | exact Hnx ] | ].
           apply upd_other. lia.
      * intros x Hx _ _. apply upd_other. intros ->. exact (Hx Hpp).
    + unfold wikrt_wrap_sum_p. cbv zeta. fold (top cx). rewrite F.
      replace (1 =? Z.land 3 (top cx)) with false by (symmetry; apply Z.eqb_neq; congruence).
      rewrite wrap_otag_fresh by (assumption || lia).
      eexists. split; [ reflexivity | ].
      unfold top, store, load in *.
      cbn [cx_arena cx_val cx_ecode cx_alloc set_arena set_alloc].
      set (w := cx_arena cx (wikrt_pval (cx_val cx))) in *.
      set (A := cx_alloc cx) in *. set (pv := wikrt_pval (cx_val cx)) in *.
      assert (Ea : wikrt_pobj (wikrt_tag_addr WIKRT_O A) = A)
        by (apply tag_addr_vaddr; unfold WIKRT_O; lia).
      repeat split; try assumption.
      * rewrite upd_same.
        apply (den_deepsum _ _ _ [s] a); rewrite ?Ea.
        -- apply tag_addr_vtag; unfold WIKRT_O; lia.
        -- intros x Hx. right. exact Hx.
        -- discriminate.
        -- cbn [deepsum_path]. pose proof (deepsum_step_range s). lia.
        -- rewrite upd_other by lia. rewrite upd_other by (unfold sizeof_val; lia).
           rewrite upd_same. apply deepsum_otag_word.
           ++ cbn [deepsum_path]. lia.
           ++ pose proof (deepsum_step_range s). lia.
        -- rewrite upd_other by (unfold sizeof_val; lia). rewrite upd_same.
           apply (den_transport _ _ _ _ _ Hden).
           intros x Hx. pose proof (Hheap x Hx) as Hx'.
           split; [ split; [ left; exact Hx | lia ] | ].
           rewrite upd_other by (intros ->; exact (Htop Hx)).
           rewrite upd_other by (unfold sizeof_val; lia).
           apply upd_other. lia.
      * intros x _ Hx Hlt'. rewrite upd_other by exact Hx.
        rewrite upd_other by (unfold sizeof_val; lia). apply upd_other. lia.
Qed.
(** [follows cx P cx1 P1]: [cx1] is [cx] after the value on top has been
    rearranged: the rest of the stack and every word outside the value and
    its stack cell are as before. *)
Definition follows (cx : wikrt_cx) (P : Z -> Prop) (cx1 : wikrt_cx) (P1 : Z -> Prop) : Prop :=
  let pv := wikrt_pval (cx_val cx) in
  load cx1 (wikrt_pval (cx_val cx1) + sizeof_val) = load cx (pv + sizeof_val) /\
  (forall x, ~ P x -> ~ (pv <= x < pv + 8) -> x < cx_alloc cx -> load cx1 x = load cx x) /\
  (forall x, P1 x -> P x \/ pv <= x < pv + 8 \/ cx_alloc cx <= x) /\
  (wikrt_pval (cx_val cx1) = pv \/ cx_alloc cx <= wikrt_pval (cx_val cx1)) /\
  cx_alloc cx <= cx_alloc cx1 /\ cx_cap cx1 = cx_cap cx.

(** What [wikrt_unwrap_sum] leaves: the tag, and the payload on top. *)
Definition unwrapped (cx : wikrt_cx) (P : Z -> Prop) (s : wikrt_sum_tag) (a : aval)
    (o : outcome (wikrt_cx * option wikrt_sum_tag)) : Prop :=
  exists cx1 P1,
    o = Ret (cx1, Some s) /\
    den (cx_arena cx1) P1 (top cx1) a /\
    sum_cx cx1 P1 /\
    (cx_alloc cx1 + 8 <= cx_cap cx1 \/ Z.land 3 (top cx1) = 1) /\
    follows cx P cx1 P1.

Lemma follows_refl (cx : wikrt_cx) (P : Z -> Prop) : follows cx P cx P.
Proof.
  unfold follows. cbv zeta. repeat split; try reflexivity.
  - intros x Hx. left. exact Hx.
  - left. reflexivity.
Qed.

(** The last step of every unwrap: a shallow sum loses its tag. *)
Lemma unwrap_shallow_from (f : nat) (cx cxe : wikrt_cx) (P Pe : Z -> Prop)
    (sum0 : option wikrt_sum_tag) (w0 : Z) (s : wikrt_sum_tag) (a : aval) :
  sum_cx cxe Pe -> follows cx P cxe Pe ->
  Z.land 3 w0 = 1 -> top cxe = w0 + shallow_step s ->
  den (cx_arena cxe) Pe w0 a ->
  unwrapped cx P s a (wikrt_unwrap_sum_p (S f) cxe sum0).
Proof.
  intros H Hf Hl Hw Hden.
  assert (Hr : 0 <= top cxe < 2 ^ 32) by apply (sc_32 _ _ H).
  rewrite (unwrap_shallow f cxe sum0 w0 s Hl Hw Hr).
  destruct H as [Hok Hval H32 Hheap [Htop Htop'] [Hc0 Hc1] Hal Hcap].
  destruct Hf as (F1 & F2 & F3 & F4 & F5 & F6).
  assert (Hw0 : 0 <= w0 < 2 ^ 32).
  { rewrite land3_mod in Hl. rewrite Hw in Hr.
    destruct s; cbn [shallow_step] in Hr; Z.div_mod_to_equations; lia. }
  exists (store cxe (wikrt_pval (cx_val cxe)) w0), Pe.
  unfold top, store, load in *. cbn [cx_arena cx_val cx_ecode cx_alloc cx_cap set_arena].
  split; [ reflexivity | ]. split.
  { rewrite upd_same. apply (den_transport _ _ _ _ _ Hden).
    intros x Hx. split; [ exact Hx | ]. apply upd_other. intros ->. exact (Htop Hx). }
  split.
  { constructor; cbn [cx_arena cx_val cx_ecode cx_alloc cx_cap set_arena]; try assumption.
    - apply upd_arena32; assumption.
    - split; assumption.
    - split; assumption. }
  split.
  { right. rewrite upd_same. exact Hl. }
  unfold follows, load. cbn [cx_arena cx_val cx_ecode cx_alloc cx_cap set_arena].
  repeat split; try assumption.
  - rewrite upd_other by (unfold sizeof_val; lia). exact F1.
  - intros x X1 X2 X3. rewrite upd_other by lia. apply F2; assumption.
Qed.

(** *** Deep sums *)

Lemma unwrap_deepsum_den (f : nat) (cx : wikrt_cx) (P : Z -> Prop)
    (t : wikrt_sum_tag) (ts : list wikrt_sum_tag) (a : aval) :
  sum_cx cx P ->
  cx_alloc cx + 8 <= cx_cap cx ->
  wikrt_vtag (top cx) = WIKRT_O ->
  covers P (wikrt_pobj (top cx)) 8 ->
  deepsum_path (t :: ts) < 2 ^ 24 ->
  cx_arena cx (wikrt_pobj (top cx)) = deepsum_otag (t :: ts) ->
  den (cx_arena cx) (without P (wikrt_pobj (top cx)) 8)
      (cx_arena cx (wikrt_pobj (top cx) + sizeof_val)) a ->
  unwrapped cx P t (fold_right AInj a ts) (wikrt_unwrap_sum_p (S f) cx None).
Proof.
  intros H Hroom Ht Hc Hp Hh Ha.
  rewrite (unwrap_deepsum f cx None t ts Ht Hh Hp).
  pose proof (follows_refl cx P) as Hf.
  destruct H as [Hok Hval H32 Hheap [Htop Htop'] [Hc0 Hc1] Hal Hcap].
  destruct Hf as (F1 & F2 & F3 & F4 & F5 & F6).
  unfold top, store, load in *.
  set (w := cx_arena cx (wikrt_pval (cx_val cx))) in *.
  assert (Hpp : P (wikrt_pobj w)) by (apply Hc; lia).
  assert (Hne' : wikrt_pval (cx_val cx) <> wikrt_pobj w)
    by (intros E'; rewrite E' in Htop; exact (Htop Hpp)).
  destruct ts as [ | t' ts ]; cbn [fold_right].
  - eexists _, P. split; [ reflexivity | ].
    unfold top, load. cbn [cx_arena cx_val cx_ecode cx_alloc cx_cap set_arena].
    split.
    { rewrite upd_same. apply (den_transport _ _ _ _ _ Ha).
      intros x [Hx _]. split; [ exact Hx | ]. apply upd_other. intros ->. exact (Htop Hx). }
    split.
    { constructor; cbn [cx_arena cx_val cx_ecode cx_alloc cx_cap set_arena]; try assumption.
      - apply upd_arena32; [ assumption | apply H32 ].
      - split; assumption.
      - split; assumption. }
    split; [ left; exact Hroom | ].
    unfold follows, load. cbn [cx_arena cx_val cx_ecode cx_alloc cx_cap set_arena].
    repeat split; try assumption.
    + rewrite upd_other by (unfold sizeof_val; lia). reflexivity.
    + intros x X1 X2 X3. rewrite upd_other by lia. reflexivity.
  - eexists _, P. split; [ reflexivity | ].
    unfold top, load. cbn [cx_arena cx_val cx_ecode cx_alloc cx_cap set_arena].
    assert (Hp' : 0 <= deepsum_path (t' :: ts) < 2 ^ 24).
    { pose proof (deepsum_path_nonneg (t' :: ts)). pose proof (deepsum_step_range t).
      cbn [deepsum_path] in *. lia. }
    split.
    { rewrite upd_other by exact Hne'. fold w.
      apply (den_deepsum _ _ w (t' :: ts) a); try assumption.
      - discriminate.
      - lia.
      - apply upd_same.
      - rewrite upd_other by (unfold sizeof_val; lia).
        apply (den_transport _ _ _ _ _ Ha).
        intros x [Hx Hnx]. split; [ split; assumption | ]. apply upd_other. lia. }
    split.
    { constructor; cbn [cx_arena cx_val cx_ecode cx_alloc cx_cap set_arena]; try assumption.
      - apply upd_arena32; [ assumption | ]. unfold deepsum_otag, WIKRT_OTAG_DEEPSUM. lia.
      - split; assumption.
      - split; assumption. }
    split; [ left; exact Hroom | ].
    unfold follows, load. cbn [cx_arena cx_val cx_ecode cx_alloc cx_cap set_arena].
    repeat split; try assumption.
    + apply upd_other. intros E. apply Htop'. rewrite E. exact Hpp.
    + intros x X1 X2 X3. apply upd_other. intros ->. exact (X1 Hpp).
Qed.
(** *** Lists packed in an [ARRAY] or [BINARY] chunk *)

(** The array case of [wikrt_expand_sum_p], word by word. *)
Lemma expand_array_eq (rb : wikrt_cx -> Z -> outcome (wikrt_cx * list Z))
    (f : nat) (cx : wikrt_cx) (m : arena) (A pv p buf len : Z) :
  cx_arena cx = m -> cx_alloc cx = A -> wikrt_pval (cx_val cx) = pv ->
  wikrt_pobj (m pv) = p -> m (p + 3 * sizeof_val) = buf ->
  0 <= A -> A mod 8 = 0 -> A + 8 <= cx_cap cx -> cx_cap cx < 2 ^ 32 ->
  wikrt_vtag (m pv) = WIKRT_O ->
  LOBYTE (m p) = WIKRT_OTAG_ARRAY ->
  m (p + 2 * sizeof_val) = len -> 1 <= len ->
  0 <= buf -> buf + 4 * len < 2 ^ 32 ->
  buf <> p + 2 * sizeof_val -> buf <> p + 3 * sizeof_val ->
  pv <> p + 2 * sizeof_val -> pv <> p + 3 * sizeof_val ->
  expand_sum_body rb f cx
  = Ret (with_heap cx
           (upd (upd (upd (upd (upd m (p + 3 * sizeof_val) (buf + 4))
                               (p + 2 * sizeof_val) (len - 1))
                          A (m buf))
                     (A + sizeof_val) (if 0 =? len - 1 then m (p + sizeof_val) else m pv))
                pv (A + 2))
           (A + 8)).
Proof.
  intros Em EA Epv Ep Eb HA0 HAal Hroom Hcap Ht Hh Hl Hlen Hb0 Hb1 N1 N2 N3 N4.
  destruct (otag_word_facts _ Ht) as (L2 & L3 & Ho).
  unfold expand_sum_body.
  rewrite (reserve_available f cx WIKRT_CELLSIZE) by (unfold WIKRT_CELLSIZE; lia).
  cbn [bind negb]. cbv zeta. unfold load. rewrite ?Em, ?Epv.
  rewrite Ho. cbn [negb]. rewrite ?Em, ?Epv, ?Ep. rewrite Hh. change (WIKRT_OTAG_ARRAY =? WIKRT_OTAG_ARRAY) with true. cbv iota.
  unfold wikrt_alloc_cellval_r, wikrt_alloc_r, store, load.
  cbn [cx_arena cx_val cx_ecode cx_alloc cx_cap set_arena set_alloc].
  rewrite ?Em, ?EA, ?Eb.
  rewrite (upd_other m (p + 3 * sizeof_val) _ (p + 2 * sizeof_val)) by (unfold sizeof_val; lia).
  rewrite Hl.
  rewrite (wrap32_small (len - 1)) by lia.
  rewrite (wrap32_small (buf + sizeof_val)) by (unfold sizeof_val; lia).
  rewrite (wrap32_small (A + WIKRT_CELLSIZE)) by (unfold WIKRT_CELLSIZE; lia).
  rewrite (upd_other _ (p + 2 * sizeof_val) _ buf) by exact N1.
  rewrite (upd_other _ (p + 3 * sizeof_val) _ buf) by exact N2.
  rewrite (upd_same _ (p + 2 * sizeof_val)).
  rewrite (upd_other _ (p + 2 * sizeof_val) _ (p + sizeof_val)) by (unfold sizeof_val; lia).
  rewrite (upd_other _ (p + 3 * sizeof_val) _ (p + sizeof_val)) by (unfold sizeof_val; lia).
  rewrite (upd_other _ (p + 2 * sizeof_val) _ pv) by exact N3.
  rewrite (upd_other _ (p + 3 * sizeof_val) _ pv) by exact N4.
  rewrite tag_addr_add by (unfold WIKRT_PL; lia || assumption).
  reflexivity.
Qed.
(** The binary case of [wikrt_expand_sum_p], word by word. *)
Lemma expand_binary_eq (rb : wikrt_cx -> Z -> outcome (wikrt_cx * list Z))
    (f : nat) (cx : wikrt_cx) (m : arena) (A pv p buf len : Z) :
  cx_arena cx = m -> cx_alloc cx = A -> wikrt_pval (cx_val cx) = pv ->
  wikrt_pobj (m pv) = p -> m (p + 3 * sizeof_val) = buf ->
  0 <= A -> A mod 8 = 0 -> A + 8 <= cx_cap cx -> cx_cap cx < 2 ^ 32 ->
  wikrt_vtag (m pv) = WIKRT_O ->
  LOBYTE (m p) = WIKRT_OTAG_BINARY ->
  m (p + 2 * sizeof_val) = len -> 1 <= len ->
  0 <= buf -> buf + len < 2 ^ 32 ->
  buf - buf mod 4 <> p + 2 * sizeof_val -> buf - buf mod 4 <> p + 3 * sizeof_val ->
  pv <> p + 2 * sizeof_val -> pv <> p + 3 * sizeof_val ->
  expand_sum_body rb f cx
  = Ret (with_heap cx
           (upd (upd (upd (upd (upd m (p + 3 * sizeof_val) (buf + 1))
                               (p + 2 * sizeof_val) (len - 1))
                          A (wikrt_i2v (load8 m buf)))
                     (A + sizeof_val) (if 0 =? len - 1 then m (p + sizeof_val) else m pv))
                pv (A + 2))
           (A + 8)).
Proof.
  intros Em EA Epv Ep Eb HA0 HAal Hroom Hcap Ht Hh Hl Hlen Hb0 Hb1 N1 N2 N3 N4.
  destruct (otag_word_facts _ Ht) as (L2 & L3 & Ho).
  unfold expand_sum_body.
  rewrite (reserve_available f cx WIKRT_CELLSIZE) by (unfold WIKRT_CELLSIZE; lia).
  cbn [bind negb]. cbv zeta. unfold load. rewrite ?Em, ?Epv.
  rewrite Ho. cbn [negb]. rewrite ?Em, ?Epv, ?Ep. rewrite Hh.
  change (WIKRT_OTAG_BINARY =? WIKRT_OTAG_ARRAY) with false.
  change (WIKRT_OTAG_BINARY =? WIKRT_OTAG_BINARY) with true. cbv iota.
  unfold wikrt_alloc_cellval_r, wikrt_alloc_r, store, load.
  cbn [cx_arena cx_val cx_ecode cx_alloc cx_cap set_arena set_alloc].
  rewrite ?Em, ?EA, ?Eb.
  rewrite (upd_other m (p + 3 * sizeof_val) _ (p + 2 * sizeof_val)) by (unfold sizeof_val; lia).
  rewrite Hl.
  rewrite (wrap32_small (len - 1)) by lia.
  rewrite (wrap32_small (buf + 1)) by lia.
  rewrite (wrap32_small (A + WIKRT_CELLSIZE)) by (unfold WIKRT_CELLSIZE; lia).
  unfold load8.
  rewrite (upd_other _ (p + 2 * sizeof_val) _ (buf - buf mod 4)) by exact N1.
  rewrite (upd_other _ (p + 3 * sizeof_val) _ (buf - buf mod 4)) by exact N2.
  rewrite (upd_same _ (p + 2 * sizeof_val)).
  rewrite (upd_other _ (p + 2 * sizeof_val) _ (p + sizeof_val)) by (unfold sizeof_val; lia).
  rewrite (upd_other _ (p + 3 * sizeof_val) _ (p + sizeof_val)) by (unfold sizeof_val; lia).
  rewrite (upd_other _ (p + 2 * sizeof_val) _ pv) by exact N3.
  rewrite (upd_other _ (p + 3 * sizeof_val) _ pv) by exact N4.
  rewrite tag_addr_add by (unfold WIKRT_PL; lia || assumption).
  reflexivity.
Qed.

(** The arena after one element has been moved from a chunk at [p] into a
    fresh cell at [A], the stack cell [pv] now referring to that cell. *)
Definition cons_arena (m : arena) (p v12 v8 A hw tw pv : Z) : arena :=
  upd (upd (upd (upd (upd m (p + 3 * sizeof_val) v12) (p + 2 * sizeof_val) v8)
                 A hw)
            (A + sizeof_val) tw)
      pv (A + 2).

Lemma cons_arena_frame (m : arena) (p v12 v8 A hw tw pv x : Z) :
  x <> p + 2 * sizeof_val -> x <> p + 3 * sizeof_val ->
  x <> A -> x <> A + sizeof_val -> x <> pv ->
  cons_arena m p v12 v8 A hw tw pv x = m x.
Proof.
  intros. unfold cons_arena. rewrite !upd_other by assumption. reflexivity.
Qed.

Lemma cons_arena_32 (m : arena) (p v12 v8 A hw tw pv : Z) :
  arena32 m -> 0 <= v12 < 2 ^ 32 -> 0 <= v8 < 2 ^ 32 -> 0 <= hw < 2 ^ 32 ->
  0 <= tw < 2 ^ 32 -> 0 <= A + 2 < 2 ^ 32 ->
  arena32 (cons_arena m p v12 v8 A hw tw pv).
Proof.
  intros. unfold cons_arena. repeat apply upd_arena32; assumption.
Qed.

Lemma expand_cons_den (cx : wikrt_cx) (P : Z -> Prop) (p v12 v8 hw tw : Z) (h t : aval) :
  sum_cx cx P -> cx_alloc cx + 8 <= cx_cap cx ->
  covers P p 16 ->
  0 <= v12 < 2 ^ 32 -> 0 <= v8 < 2 ^ 32 -> 0 <= hw < 2 ^ 32 -> 0 <= tw < 2 ^ 32 ->
  let m' := cons_arena (cx_arena cx) p v12 v8 (cx_alloc cx) hw tw (wikrt_pval (cx_val cx)) in
  let cxe := with_heap cx m' (cx_alloc cx + 8) in
  den m' (grown P (cx_alloc cx) 8) hw h ->
  den m' (grown P (cx_alloc cx) 8) tw t ->
  sum_cx cxe (grown P (cx_alloc cx) 8) /\
  follows cx P cxe (grown P (cx_alloc cx) 8) /\
  top cxe = (cx_alloc cx + 1) + shallow_step WIKRT_INL /\
  den (cx_arena cxe) (grown P (cx_alloc cx) 8) (cx_alloc cx + 1) (APair h t).
Proof.
  intros H Hroom Hc R12 R8 Rh Rt m' cxe Hh Ht.
  destruct H as [Hok Hval H32 Hheap [Htop Htop'] [Hc0 Hc1] Hal Hcap].
  set (A := cx_alloc cx) in *. set (pv := wikrt_pval (cx_val cx)) in *.
  assert (Hp : forall x, p <= x < p + 16 -> x <> pv /\ x <> pv + sizeof_val /\ 0 <= x < A).
  { intros x Hx. pose proof (Hc x Hx) as Px. pose proof (Hheap x Px).
    repeat split; try lia; intros ->; [ exact (Htop Px) | exact (Htop' Px) ]. }
  assert (V1 : m' pv = A + 2) by (unfold m', cons_arena; apply upd_same).
  assert (V2 : m' A = hw).
  { unfold m', cons_arena. rewrite upd_other by lia.
    rewrite upd_other by (unfold sizeof_val; lia). apply upd_same. }
  assert (V3 : m' (A + sizeof_val) = tw).
  { unfold m', cons_arena. rewrite upd_other by (unfold sizeof_val; lia). apply upd_same. }
  assert (Et : wikrt_vtag (A + 1) = WIKRT_P)
    by (rewrite vtag_mod; unfold WIKRT_P; Z.div_mod_to_equations; lia).
  assert (Ea : wikrt_pval (A + 1) = A).
  { unfold wikrt_pval, wikrt_vaddr. rewrite land_mask_small by lia.
    Z.div_mod_to_equations. lia. }
  unfold cxe, top, load. cbn [with_heap cx_arena cx_val cx_ecode cx_alloc cx_cap set_arena set_alloc].
  fold pv. split.
  { constructor; cbn [with_heap cx_arena cx_val cx_ecode cx_alloc cx_cap set_arena set_alloc];
      fold pv; try assumption.
    - apply cons_arena_32; try assumption. lia.
    - intros x [Hx | Hx]; [ pose proof (Hheap x Hx) | ]; lia.
    - split; intros [Hx | Hx]; unfold sizeof_val in *; try lia; auto.
    - split; lia.
    - Z.div_mod_to_equations. lia.
    - lia. }
  split.
  { unfold follows, load.
    cbn [with_heap cx_arena cx_val cx_ecode cx_alloc cx_cap set_arena set_alloc]. fold pv. fold A.
    repeat split.
    - apply cons_arena_frame; unfold sizeof_val in *; try lia.
      + intros E. destruct (Hp (pv + 4)) as (_ & X & _); [ lia | ]. apply X. reflexivity.
      + intros E. destruct (Hp (pv + 4)) as (_ & X & _); [ lia | ]. apply X. reflexivity.
    - intros x X1 X2 X3. apply cons_arena_frame; unfold sizeof_val; try lia.
      + intros ->. apply X1, Hc. lia.
      + intros ->. apply X1, Hc. lia.
    - intros x [Hx | Hx]; [ left; exact Hx | right; right; lia ].
    - left. reflexivity.
    - lia. }
  split; [ rewrite V1; cbn [shallow_step]; lia | ].
  apply den_pair; rewrite ?Ea, ?V2, ?V3; try assumption.
  intros x Hx. right. exact Hx.
Qed.
(** A value that is neither a shallow nor a deep sum is expanded, and the
    loop of [wikrt_unwrap_sum_p] goes round once more. *)
Lemma unwrap_expand_step (f : nat) (cx cxe : wikrt_cx) (sum0 : option wikrt_sum_tag) :
  wikrt_vtag (top cx) = WIKRT_O ->
  wikrt_otag_deepsum (load cx (wikrt_pobj (top cx))) = false ->
  expand_sum_body (wikrt_read_binary f) f cx = Ret cxe ->
  cx_ecode cxe = WIKRT_OK ->
  wikrt_unwrap_sum_p (S f) cx sum0 = wikrt_unwrap_sum_p f cxe sum0.
Proof.
  unfold top. intros Ht Hd He Hok.
  destruct (otag_word_facts _ Ht) as (L2 & L3 & Ho).
  cbn [wikrt_unwrap_sum_p]. cbv zeta. rewrite L2, Ho.
  change (negb (0 =? 0)) with false. cbv iota.
  rewrite Hd, He. cbn [bind]. unfold wikrt_has_error. rewrite Hok. reflexivity.
Qed.

Lemma unwrap_array_den (f : nat) (cx : wikrt_cx) (P : Z -> Prop)
    (e : aval) (es : list aval) (tl : aval) :
  sum_cx cx P -> cx_alloc cx + 8 <= cx_cap cx ->
  wikrt_vtag (top cx) = WIKRT_O ->
  covers P (wikrt_pobj (top cx)) 16 ->
  LOBYTE (cx_arena cx (wikrt_pobj (top cx))) = WIKRT_OTAG_ARRAY ->
  cx_arena cx (wikrt_pobj (top cx) + 2 * sizeof_val) = Z.of_nat (length (e :: es)) ->
  0 <= cx_arena cx (wikrt_pobj (top cx) + 3 * sizeof_val) ->
  cx_arena cx (wikrt_pobj (top cx) + 3 * sizeof_val) + 4 * Z.of_nat (length (e :: es)) < 2 ^ 32 ->
  covers (without P (wikrt_pobj (top cx)) 16)
         (cx_arena cx (wikrt_pobj (top cx) + 3 * sizeof_val))
         (4 * Z.of_nat (length (e :: es))) ->
  (forall i e', nth_error (e :: es) i = Some e' ->
     den (cx_arena cx) (without P (wikrt_pobj (top cx)) 16)
         (cx_arena cx (cx_arena cx (wikrt_pobj (top cx) + 3 * sizeof_val)
                       + sizeof_val * Z.of_nat i)) e') ->
  den (cx_arena cx) (without P (wikrt_pobj (top cx)) 16)
      (cx_arena cx (wikrt_pobj (top cx) + sizeof_val)) tl ->
  unwrapped cx P WIKRT_INL (APair e (alist es tl))
            (wikrt_unwrap_sum_p (S (S f)) cx None).
Proof.
  intros H Hroom Ht Hc Hh Hl Hb0 Hb1 Hcb He Hn.
  pose proof H as [Hok Hval H32 Hheap [Htop Htop'] [Hc0 Hc1] Hal Hcap].
  unfold top, load in *.
  set (m := cx_arena cx) in *. set (A := cx_alloc cx) in *.
  set (pv := wikrt_pval (cx_val cx)) in *.
  set (p := wikrt_pobj (m pv)) in *.
  set (buf := m (p + 3 * sizeof_val)) in *.
  set (len := Z.of_nat (length (e :: es))) in *.
  assert (Hlen : len = Z.of_nat (length es) + 1) by (unfold len; cbn [length]; lia).
  assert (Hin : forall x, without P p 16 x ->
                          P x /\ ~ (p <= x < p + 16) /\ x <> pv /\ 0 <= x < A).
  { intros x [Px Hx]. pose proof (Hheap x Px). repeat split; try lia; try assumption.
    intros ->. exact (Htop Px). }
  assert (Hhd : forall x, p <= x < p + 16 -> P x /\ x <> pv /\ 0 <= x < A).
  { intros x Hx. pose proof (Hc x Hx) as Px. pose proof (Hheap x Px).
    repeat split; try lia; try assumption. intros ->. exact (Htop Px). }
  assert (Hbuf : forall x, buf <= x < buf + 4 * len -> without P p 16 x)
    by (intros x Hx; apply Hcb; exact Hx).
  pose proof (expand_array_eq (wikrt_read_binary (S f)) (S f) cx m A pv p buf len
                eq_refl eq_refl eq_refl eq_refl eq_refl) as Eq.
  assert (Nb : forall k, 0 <= k < 4 * len -> buf + k <> pv /\ ~ (p <= buf + k < p + 16)
                                            /\ 0 <= buf + k < A).
  { intros k Hk. destruct (Hin (buf + k)) as (_ & X1 & X2 & X3); [ apply Hbuf; lia | ].
    repeat split; try assumption; lia. }
  pose proof (Nb 0 ltac:(lia)) as Nb0. rewrite Z.add_0_r in Nb0.
  pose proof (Hhd (p + 2 * sizeof_val) ltac:(unfold sizeof_val; lia)) as Np8.
  pose proof (Hhd (p + 3 * sizeof_val) ltac:(unfold sizeof_val; lia)) as Np12.
  specialize (Eq ltac:(lia) Hal Hroom ltac:(lia) Ht Hh Hl ltac:(lia) Hb0 Hb1
                 ltac:(unfold sizeof_val in *; lia) ltac:(unfold sizeof_val in *; lia)
                 ltac:(intros E; apply (proj1 (proj2 Np8)); symmetry; exact E)
                 ltac:(intros E; apply (proj1 (proj2 Np12)); symmetry; exact E)).
  set (tw := if 0 =? len - 1 then m (p + sizeof_val) else m pv) in *.
  assert (Rt : 0 <= tw < 2 ^ 32) by (unfold tw; destruct (0 =? len - 1); apply H32).
  pose proof (H32 buf) as Rh. fold m in Rh.
  set (m' := cons_arena m p (buf + 4) (len - 1) A (m buf) tw pv).
  assert (Fr : forall x, without P p 16 x ->
                 grown P A 8 x /\ m' x = m x).
  { intros x Hx. destruct (Hin x Hx) as (Px & X1 & X2 & X3). split; [ left; exact Px | ].
    apply cons_arena_frame; unfold sizeof_val; lia. }
  assert (Fr' : forall x, without P p 16 x ->
                 without (grown P A 8) p 16 x /\ m' x = m x).
  { intros x Hx. destruct (Fr x Hx) as [G E]. destruct Hx as [_ Hx].
    repeat split; assumption. }
  assert (Dh : den m' (grown P A 8) (m buf) e).
  { specialize (He O e eq_refl). cbn [Z.of_nat] in He.
    replace (buf + sizeof_val * 0) with buf in He by lia.
    apply (den_transport _ _ _ _ _ He). exact Fr. }
  assert (Dt : den m' (grown P A 8) tw (alist es tl)).
  { unfold tw. destruct (Z.eqb_spec 0 (len - 1)) as [E0 | E0].
    - assert (es = []) as -> by (destruct es; [ reflexivity | cbn [length] in Hlen; lia ]).
      cbn [alist fold_right]. apply (den_transport _ _ _ _ _ Hn). exact Fr.
    - assert (E8 : m' (p + 2 * sizeof_val) = len - 1).
      { unfold m', cons_arena. rewrite upd_other by lia.
        rewrite upd_other by (unfold sizeof_val in *; lia).
        rewrite upd_other by (unfold sizeof_val in *; lia). apply upd_same. }
      assert (E12 : m' (p + 3 * sizeof_val) = buf + 4).
      { unfold m', cons_arena. rewrite upd_other by lia.
        rewrite upd_other by (unfold sizeof_val in *; lia).
        rewrite upd_other by (unfold sizeof_val in *; lia).
        rewrite upd_other by (unfold sizeof_val in *; lia). apply upd_same. }
      assert (E0' : m' p = m p).
      { destruct (Hhd p ltac:(lia)) as (_ & X2 & X3).
        apply cons_arena_frame; unfold sizeof_val; lia. }
      assert (E4 : m' (p + sizeof_val) = m (p + sizeof_val)).
      { destruct (Hhd (p + sizeof_val) ltac:(unfold sizeof_val; lia)) as (_ & X2 & X3).
        apply cons_arena_frame; unfold sizeof_val in *; lia. }
      apply (den_array m' (grown P A 8) (m pv) es tl); fold p; rewrite ?E8, ?E12, ?E0', ?E4;
        try assumption.
      + intros x Hx. left. apply Hc, Hx.
      + intros ->. cbn [length] in Hlen. lia.
      + lia.
      + lia.
      + lia.
      + intros x Hx. apply Fr', Hbuf. lia.
      + intros i e' Hi. specialize (He (S i) e' Hi).
        replace (buf + sizeof_val * Z.of_nat (S i)) with (buf + 4 + sizeof_val * Z.of_nat i) in He
          by (unfold sizeof_val; lia).
        assert (i < length es)%nat by (apply nth_error_Some; rewrite Hi; discriminate).
        destruct (Fr' (buf + 4 + sizeof_val * Z.of_nat i)) as [_ E].
        { apply Hbuf. unfold sizeof_val. lia. }
        rewrite E. apply (den_transport _ _ _ _ _ He). exact Fr'.
      + apply (den_transport _ _ _ _ _ Hn). exact Fr'. }
  destruct (expand_cons_den cx P p (buf + 4) (len - 1) (m buf) tw e (alist es tl)
              H Hroom Hc ltac:(lia) ltac:(lia) Rh Rt Dh Dt) as (S1 & S2 & S3 & S4).
  fold m A pv m' in S1, S2, S3, S4.
  rewrite (unwrap_expand_step (S f) cx (with_heap cx m' (A + 8)) None).
  - apply (unwrap_shallow_from f cx _ P (grown P A 8) None (A + 1) WIKRT_INL); try assumption.
    rewrite land3_mod. Z.div_mod_to_equations. lia.
  - exact Ht.
  - change ((LOBYTE (m p) =? WIKRT_OTAG_DEEPSUM) = false). rewrite Hh. reflexivity.
  - exact Eq.
  - exact Hok.
Qed.
Lemma unwrap_binary_den (f : nat) (cx : wikrt_cx) (P : Z -> Prop)
    (b : Z) (bs : list Z) (tl : aval) :
  sum_cx cx P -> cx_alloc cx + 8 <= cx_cap cx ->
  wikrt_vtag (top cx) = WIKRT_O ->
  covers P (wikrt_pobj (top cx)) 16 ->
  LOBYTE (cx_arena cx (wikrt_pobj (top cx))) = WIKRT_OTAG_BINARY ->
  cx_arena cx (wikrt_pobj (top cx) + 2 * sizeof_val) = Z.of_nat (length (b :: bs)) ->
  0 <= cx_arena cx (wikrt_pobj (top cx) + 3 * sizeof_val) ->
  cx_arena cx (wikrt_pobj (top cx) + 3 * sizeof_val) + Z.of_nat (length (b :: bs)) < 2 ^ 32 ->
  covers_bytes (without P (wikrt_pobj (top cx)) 16)
               (cx_arena cx (wikrt_pobj (top cx) + 3 * sizeof_val))
               (Z.of_nat (length (b :: bs))) ->
  bytes_at (cx_arena cx) (cx_arena cx (wikrt_pobj (top cx) + 3 * sizeof_val)) (b :: bs) ->
  den (cx_arena cx) (without P (wikrt_pobj (top cx)) 16)
      (cx_arena cx (wikrt_pobj (top cx) + sizeof_val)) tl ->
  unwrapped cx P WIKRT_INL (APair (AInt b) (alist (map AInt bs) tl))
            (wikrt_unwrap_sum_p (S (S f)) cx None).
Proof.
  intros H Hroom Ht Hc Hh Hl Hb0 Hb1 Hcb Hby Hn.
  pose proof H as [Hok Hval H32 Hheap [Htop Htop'] [Hc0 Hc1] Hal Hcap].
  unfold top, load in *.
  set (m := cx_arena cx) in *. set (A := cx_alloc cx) in *.
  set (pv := wikrt_pval (cx_val cx)) in *.
  set (p := wikrt_pobj (m pv)) in *.
  set (buf := m (p + 3 * sizeof_val)) in *.
  set (len := Z.of_nat (length (b :: bs))) in *.
  assert (Hlen : len = Z.of_nat (length bs) + 1) by (unfold len; cbn [length]; lia).
  assert (Hin : forall x, without P p 16 x ->
                          P x /\ ~ (p <= x < p + 16) /\ x <> pv /\ 0 <= x < A).
  { intros x [Px Hx]. pose proof (Hheap x Px). repeat split; try lia; try assumption.
    intros ->. exact (Htop Px). }
  assert (Hhd : forall x, p <= x < p + 16 -> P x /\ x <> pv /\ 0 <= x < A).
  { intros x Hx. pose proof (Hc x Hx) as Px. pose proof (Hheap x Px).
    repeat split; try lia; try assumption. intros ->. exact (Htop Px). }
  pose proof (expand_binary_eq (wikrt_read_binary (S f)) (S f) cx m A pv p buf len
                eq_refl eq_refl eq_refl eq_refl eq_refl) as Eq.
  destruct (Hin (buf - buf mod 4)) as (_ & Nb1 & Nb2 & Nb3); [ apply Hcb; lia | ].
  pose proof (Hhd (p + 2 * sizeof_val) ltac:(unfold sizeof_val; lia)) as Np8.
  pose proof (Hhd (p + 3 * sizeof_val) ltac:(unfold sizeof_val; lia)) as Np12.
  assert (N1 : buf - buf mod 4 <> p + 2 * sizeof_val) by (unfold sizeof_val; lia).
  assert (N2 : buf - buf mod 4 <> p + 3 * sizeof_val) by (unfold sizeof_val; lia).
  assert (N3 : pv <> p + 2 * sizeof_val) by (intros E; apply (proj1 (proj2 Np8)); symmetry; exact E).
  assert (N4 : pv <> p + 3 * sizeof_val) by (intros E; apply (proj1 (proj2 Np12)); symmetry; exact E).
  specialize (Eq ltac:(lia) Hal Hroom ltac:(lia) Ht Hh Hl ltac:(lia) Hb0 Hb1 N1 N2 N3 N4).
  cbn [bytes_at] in Hby. destruct Hby as [Hb Hby]. rewrite Hb in Eq.
  assert (Rb : 0 <= b < 256) by (rewrite <- Hb; apply load8_range).
  set (tw := if 0 =? len - 1 then m (p + sizeof_val) else m pv) in *.
  assert (Rt : 0 <= tw < 2 ^ 32) by (unfold tw; destruct (0 =? len - 1); apply H32).
  assert (Rh : 0 <= wikrt_i2v b < 2 ^ 32) by (unfold wikrt_i2v; apply wrap32_range).
  set (m' := cons_arena m p (buf + 1) (len - 1) A (wikrt_i2v b) tw pv).
  assert (Fr : forall x, without P p 16 x ->
                 grown P A 8 x /\ m' x = m x).
  { intros x Hx. destruct (Hin x Hx) as (Px & X1 & X2 & X3). split; [ left; exact Px | ].
    apply cons_arena_frame; unfold sizeof_val; lia. }
  assert (Fr' : forall x, without P p 16 x ->
                 without (grown P A 8) p 16 x /\ m' x = m x).
  { intros x Hx. destruct (Fr x Hx) as [G E]. destruct Hx as [_ Hx].
    repeat split; assumption. }
  assert (Dh : den m' (grown P A 8) (wikrt_i2v b) (AInt b)).
  { apply den_int. unfold WIKRT_SMALLINT_MIN, WIKRT_SMALLINT_MAX. lia. }
  assert (Dt : den m' (grown P A 8) tw (alist (map AInt bs) tl)).
  { unfold tw. destruct (Z.eqb_spec 0 (len - 1)) as [E0 | E0].
    - assert (bs = []) as -> by (destruct bs; [ reflexivity | cbn [length] in Hlen; lia ]).
      cbn [alist map fold_right]. apply (den_transport _ _ _ _ _ Hn). exact Fr.
    - assert (E8 : m' (p + 2 * sizeof_val) = len - 1).
      { unfold m', cons_arena. rewrite upd_other by lia.
        rewrite upd_other by (unfold sizeof_val in *; lia).
        rewrite upd_other by (unfold sizeof_val in *; lia). apply upd_same. }
      assert (E12 : m' (p + 3 * sizeof_val) = buf + 1).
      { unfold m', cons_arena. rewrite upd_other by lia.
        rewrite upd_other by (unfold sizeof_val in *; lia).
        rewrite upd_other by (unfold sizeof_val in *; lia).
        rewrite upd_other by (unfold sizeof_val in *; lia). apply upd_same. }
      assert (E0' : m' p = m p).
      { destruct (Hhd p ltac:(lia)) as (_ & X2 & X3).
        apply cons_arena_frame; unfold sizeof_val; lia. }
      assert (E4 : m' (p + sizeof_val) = m (p + sizeof_val)).
      { destruct (Hhd (p + sizeof_val) ltac:(unfold sizeof_val; lia)) as (_ & X2 & X3).
        apply cons_arena_frame; unfold sizeof_val in *; lia. }
      assert (Hcb' : covers_bytes (without P p 16) (buf + 1) (Z.of_nat (length bs)))
        by (intros x Hx; apply Hcb; lia).
      apply (den_binary m' (grown P A 8) (m pv) bs tl); fold p; rewrite ?E8, ?E12, ?E0', ?E4;
        try assumption.
      + intros x Hx. left. apply Hc, Hx.
      + intros ->. cbn [length] in Hlen. lia.
      + lia.
      + lia.
      + lia.
      + intros x Hx. apply Fr', Hcb'. exact Hx.
      + apply (bytes_at_covered m m' (without P p 16)); try assumption.
        intros x Hx. apply Fr', Hx.
      + apply (den_transport _ _ _ _ _ Hn). exact Fr'. }
  destruct (expand_cons_den cx P p (buf + 1) (len - 1) (wikrt_i2v b) tw (AInt b)
              (alist (map AInt bs) tl)
              H Hroom Hc ltac:(lia) ltac:(lia) Rh Rt Dh Dt) as (S1 & S2 & S3 & S4).
  fold m A pv m' in S1, S2, S3, S4.
  rewrite (unwrap_expand_step (S f) cx (with_heap cx m' (A + 8)) None).
  - apply (unwrap_shallow_from f cx _ P (grown P A 8) None (A + 1) WIKRT_INL); try assumption.
    rewrite land3_mod. Z.div_mod_to_equations. lia.
  - exact Ht.
  - change ((LOBYTE (m p) =? WIKRT_OTAG_DEEPSUM) = false). rewrite Hh. reflexivity.
  - exact Eq.
  - exact Hok.
Qed.
(** *** Reading bytes off a binary ([wikrt_read_binary]) *)

Lemma read_bytes_firstn (m : arena) (bs : list Z) :
  forall a n, bytes_at m a bs -> (n <= length bs)%nat -> read_bytes m a n = firstn n bs.
Proof.
  induction bs as [ | b bs IH ]; intros a n H Hn.
  - destruct n; [ reflexivity | cbn in Hn; lia ].
  - destruct n as [ | n ]; [ reflexivity | ].
    cbn [bytes_at] in H. destruct H as [Hb Hr].
    cbn [read_bytes firstn]. rewrite Hb. f_equal. apply IH; [ exact Hr | cbn in Hn; lia ].
Qed.

Lemma bytes_at_skipn (m : arena) (bs : list Z) :
  forall a n, bytes_at m a bs -> (n <= length bs)%nat ->
              bytes_at m (a + Z.of_nat n) (skipn n bs).
Proof.
  induction bs as [ | b bs IH ]; intros a n H Hn.
  - destruct n; exact I.
  - destruct n as [ | n ].
    + cbn [skipn Z.of_nat]. rewrite Z.add_0_r. exact H.
    + cbn [bytes_at] in H. destruct H as [Hb Hr]. cbn [skipn].
      replace (a + Z.of_nat (S n)) with (a + 1 + Z.of_nat n) by lia.
      apply IH; [ exact Hr | cbn in Hn; lia ].
Qed.

Lemma bytes_at_range (m : arena) (bs : list Z) :
  forall a, bytes_at m a bs -> Forall (fun b => 0 <= b <= 255) bs.
Proof.
  induction bs as [ | b bs IH ]; intros a H; constructor.
  - cbn [bytes_at] in H. destruct H as [Hb _]. pose proof (load8_range m a). lia.
  - cbn [bytes_at] in H. destruct H as [_ Hr]. exact (IH _ Hr).
Qed.

Lemma read_loop_bin (m : arena) (Q : Z -> Prop) (w : Z) (bytes : list Z) :
  bin m Q w bytes ->
  forall (fuel : nat) (cx : wikrt_cx) (k : Z) (out : list Z),
    top cx = w ->
    (forall x, Q x -> cx_arena cx x = m x) ->
    ~ Q (wikrt_pval (cx_val cx)) ->
    arena32 (cx_arena cx) ->
    Z.of_nat (length out) <= k ->
    (Z.to_nat (k - Z.of_nat (length out)) + 2 <= fuel)%nat ->
    exists cx',
      read_binary_loop fuel cx k out
      = Ret (cx', out ++ firstn (Z.to_nat (k - Z.of_nat (length out))) bytes) /\
      bin (cx_arena cx') Q (top cx') (skipn (Z.to_nat (k - Z.of_nat (length out))) bytes) /\
      cx_val cx' = cx_val cx /\ cx_ecode cx' = cx_ecode cx /\
      cx_alloc cx' = cx_alloc cx /\ cx_cap cx' = cx_cap cx /\
      arena32 (cx_arena cx') /\
      (forall x, ~ Q x -> x <> wikrt_pval (cx_val cx) -> cx_arena cx' x = cx_arena cx x).
Proof.
  induction 1 as [ Q | Q w b bs Ht Hc Hb Hr Hn IH
                 | Q w chunk bs Ht Hc Hh Hne Hl Hb0 Hb1 Hcb Hby Hn IH ];
    intros fuel cx k out Hw Hag Htop H32 Hout Hfuel.
  - (* the end of the list *)
    destruct fuel as [ | f ]; [ lia | ].
    cbn [read_binary_loop]. cbv zeta. unfold top in Hw. rewrite Hw.
    change (wikrt_pl WIKRT_UNIT_INR) with false.
    change (wikrt_value_is_compact_binary cx WIKRT_UNIT_INR) with false. cbv iota.
    destruct f as [ | f ]; [ lia | ].
    rewrite (unwrap_shallow f cx None WIKRT_UNIT WIKRT_INR)
      by (unfold top; rewrite ?Hw; reflexivity || (unfold WIKRT_UNIT_INR, WIKRT_UR; lia)).
    cbn [bind]. cbv zeta.
    rewrite (wrap_shallow (S f) _ WIKRT_INR)
      by (unfold top, store, load; cbn [cx_arena cx_val set_arena]; rewrite upd_same;
          reflexivity || (unfold WIKRT_UNIT, WIKRT_U; lia)).
    cbn [bind]. eexists. split.
    { rewrite firstn_nil, app_nil_r. reflexivity. }
    unfold top, store, load. cbn [cx_arena cx_val cx_ecode cx_alloc cx_cap set_arena].
    rewrite !upd_same. rewrite skipn_nil.
    split; [ constructor | ]. do 4 (split; [ reflexivity | ]). split.
    + repeat apply upd_arena32; try assumption;
        unfold WIKRT_UNIT, WIKRT_U; cbn [shallow_step]; lia.
    + intros x _ Hx. rewrite !upd_other by exact Hx. reflexivity.
  - (* a byte cell *)
    destruct fuel as [ | f ]; [ lia | ].
    assert (E0 : cx_arena cx (wikrt_pval w) = wikrt_i2v b) by (rewrite Hag; [ exact Hb | apply Hc; lia ]).
    assert (E1 : cx_arena cx (wikrt_pval w + sizeof_val) = m (wikrt_pval w + sizeof_val))
      by (apply Hag, Hc; unfold sizeof_val; lia).
    cbn [read_binary_loop]. cbv zeta. unfold top, load in Hw. unfold load. rewrite Hw.
    unfold wikrt_pl. rewrite Ht, Z.eqb_refl. rewrite E0, i2v_smallint.
    rewrite v2i_i2v by lia.
    replace (0 <=? b) with true by (symmetry; apply Z.leb_le; lia).
    replace (b <=? 255) with true by (symmetry; apply Z.leb_le; lia).
    cbn [andb negb].
    destruct (Z.eqb_spec k (Z.of_nat (length out))) as [Ek | Ek].
    + exists cx. rewrite Ek, Z.sub_diag. cbn [Z.to_nat firstn skipn]. rewrite app_nil_r.
      split; [ reflexivity | ]. split.
      { unfold top, load. rewrite Hw.
        apply (bin_transport m (cx_arena cx) Q).
        - apply bin_cell; assumption.
        - intros x Hx. split; [ exact Hx | apply Hag, Hx ]. }
      do 4 (split; [ reflexivity | ]). split; [ exact H32 | ]. intros; reflexivity.
    + set (cx1 := store cx (wikrt_pval (cx_val cx)) (cx_arena cx (wikrt_pval w + sizeof_val))).
      destruct (IH f cx1 k (out ++ [b])) as (cx' & Eq & Hbin & V1 & V2 & V3 & V4 & V5 & V6).
      * unfold cx1, top, store, load. cbn [cx_arena cx_val set_arena]. rewrite upd_same. exact E1.
      * intros x Hx. unfold cx1, store. cbn [cx_arena set_arena].
        rewrite upd_other by (intros ->; exact (Htop Hx)). apply Hag, Hx.
      * exact Htop.
      * unfold cx1, store. cbn [cx_arena set_arena]. apply upd_arena32; [ assumption | apply H32 ].
      * rewrite length_app. cbn [length]. lia.
      * rewrite length_app. cbn [length]. lia.
      * exists cx'. rewrite length_app in Eq, Hbin. cbn [length] in Eq, Hbin.
        replace (Z.to_nat (k - Z.of_nat (length out)))
          with (S (Z.to_nat (k - Z.of_nat (length out + 1)))) by lia.
        cbn [firstn skipn]. rewrite <- app_assoc in Eq. cbn [app] in Eq.
        split; [ exact Eq | ]. split; [ exact Hbin | ].
        do 5 (split; [ assumption | ]).
        intros x X1 X2. rewrite V6 by assumption.
        unfold cx1, store. cbn [cx_arena set_arena]. apply upd_other. exact X2.
  - (* a chunk *)
    destruct fuel as [ | f ]; [ lia | ].
    set (p := wikrt_pobj w) in *.
    set (len := Z.of_nat (length chunk)) in *.
    assert (Hlen : 1 <= len) by (unfold len; destruct chunk; [ congruence | cbn [length]; lia ]).
    assert (Hhd : forall x, p <= x < p + 16 -> cx_arena cx x = m x /\ x <> wikrt_pval (cx_val cx)).
    { intros x Hx. pose proof (Hc x Hx) as Qx. split; [ apply Hag, Qx | ].
      intros ->. exact (Htop Qx). }
    assert (Hin : forall x, without Q p 16 x ->
                    cx_arena cx x = m x /\ x <> wikrt_pval (cx_val cx) /\ ~ (p <= x < p + 16)).
    { intros x [Qx Hx]. repeat split; [ apply Hag, Qx | | exact Hx ].
      intros ->. exact (Htop Qx). }
    destruct (Hhd p ltac:(lia)) as [E0 N0].
    destruct (Hhd (p + sizeof_val) ltac:(unfold sizeof_val; lia)) as [E4 N4].
    destruct (Hhd (p + 2 * sizeof_val) ltac:(unfold sizeof_val; lia)) as [E8 N8].
    destruct (Hhd (p + 3 * sizeof_val) ltac:(unfold sizeof_val; lia)) as [E12 N12].
    set (buf := m (p + 3 * sizeof_val)) in *.
    assert (Hby' : bytes_at (cx_arena cx) buf chunk).
    { apply (bytes_at_covered m (cx_arena cx) (without Q p 16)); try assumption.
      intros x Hx. apply Hin, Hx. }
    cbn [read_binary_loop]. cbv zeta. unfold top, load in Hw. unfold load. rewrite Hw.
    unfold wikrt_pl, wikrt_value_is_compact_binary, wikrt_o, wikrt_otag_binary, load.
    rewrite Ht. fold p. rewrite E0, Hh.
    change (WIKRT_O =? WIKRT_PL) with false.
    change (WIKRT_O =? WIKRT_O) with true.
    change (WIKRT_OTAG_BINARY =? WIKRT_OTAG_BINARY) with true.
    cbn [andb]. cbv iota.
    unfold store, load. cbn [cx_arena cx_val cx_ecode cx_alloc cx_cap set_arena].
    rewrite E8, E12, E4, Hl.
    set (lim := k - Z.of_nat (length out)) in *.
    destruct (Z.gtb_spec len lim) as [Hlim | Hlim].
    + (* the chunk holds more than is asked for *)
      rewrite (read_bytes_firstn _ chunk) by (assumption || (unfold len in *; lia)).
      rewrite upd_other by (unfold sizeof_val; lia). rewrite E12.
      eexists. split.
      { rewrite firstn_app.
        replace (Z.to_nat lim - length chunk)%nat with O by (unfold len in *; lia).
        cbn [firstn]. rewrite app_nil_r. reflexivity. }
      unfold top, load. cbn [cx_arena cx_val cx_ecode cx_alloc cx_cap set_arena].
      rewrite wrap32_small by lia. rewrite wrap32_small by (unfold len in *; lia).
      split; [ | do 4 (split; [ reflexivity | ]); split ].
      * rewrite upd_other by (symmetry; exact N12). rewrite upd_other by (symmetry; exact N8).
        rewrite Hw. rewrite skipn_app.
        replace (Z.to_nat lim - length chunk)%nat with O by (unfold len in *; lia).
        cbn [skipn].
        set (m2 := upd (upd (cx_arena cx) (p + 2 * sizeof_val) (len - lim))
                       (p + 3 * sizeof_val) (buf + lim)).
        assert (Fr : forall x, without Q p 16 x -> without Q p 16 x /\ m2 x = m x).
        { intros x Hx. split; [ exact Hx | ]. destruct (Hin x Hx) as (X1 & X2 & X3).
          unfold m2. rewrite !upd_other by (unfold sizeof_val; lia). exact X1. }
        assert (Hsk : length (skipn (Z.to_nat lim) chunk) = Z.to_nat (len - lim))
          by (rewrite length_skipn; unfold len in *; lia).
        apply bin_chunk; fold p; try assumption.
        -- unfold m2. rewrite !upd_other by (unfold sizeof_val; lia). rewrite E0. exact Hh.
        -- intros E. rewrite E in Hsk. cbn [length] in Hsk. lia.
        -- unfold m2. rewrite upd_other by (unfold sizeof_val; lia). rewrite upd_same.
           rewrite Hsk. lia.
        -- unfold m2. rewrite upd_same. lia.
        -- unfold m2. rewrite upd_same. rewrite Hsk. unfold len in *. lia.
        -- unfold m2 at 1. rewrite upd_same. rewrite Hsk.
           intros x Hx. apply Hcb. unfold len in *. lia.
        -- unfold m2 at 2. rewrite upd_same.
           apply (bytes_at_covered m m2 (without Q p 16)).
           ++ rewrite Hsk. intros x Hx. apply Hcb. unfold len in *. lia.
           ++ intros x Hx. apply Fr, Hx.
           ++ replace (buf + lim) with (buf + Z.of_nat (Z.to_nat lim)) by lia.
              apply bytes_at_skipn; [ exact Hby | unfold len in *; lia ].
        -- replace (m2 (p + sizeof_val)) with (m (p + sizeof_val)).
           ++ apply (bin_transport _ _ _ _ _ Hn). exact Fr.
           ++ unfold m2. rewrite !upd_other by (unfold sizeof_val; lia). symmetry. exact E4.
      * repeat apply upd_arena32; try assumption; unfold len in *; lia.
      * intros x X1 X2. rewrite !upd_other; [ reflexivity | | ].
        -- intros ->. apply X1, Hc. unfold sizeof_val. lia.
        -- intros ->. apply X1, Hc. unfold sizeof_val. lia.
    + (* the whole chunk is taken, and the loop goes on *)
      rewrite (read_bytes_firstn _ chunk) by (assumption || (unfold len in *; lia)).
      replace (firstn (Z.to_nat len) chunk) with chunk
        by (symmetry; apply firstn_all2; unfold len; lia).
      set (cx1 := set_arena cx (upd (cx_arena cx) (wikrt_pval (cx_val cx)) (m (p + sizeof_val)))).
      destruct (IH f cx1 k (out ++ chunk)) as (cx' & Eq & Hbin & V1 & V2 & V3 & V4 & V5 & V6).
      * unfold cx1, top, load. cbn [cx_arena cx_val set_arena]. apply upd_same.
      * intros x Hx. unfold cx1. cbn [cx_arena set_arena].
        destruct (Hin x Hx) as (X1 & X2 & X3). rewrite upd_other by exact X2. exact X1.
      * intros [Hx _]. exact (Htop Hx).
      * unfold cx1. cbn [cx_arena set_arena]. apply upd_arena32; [ assumption | ].
        rewrite <- E4. apply H32.
      * rewrite length_app. fold len. unfold lim in *. lia.
      * rewrite length_app. fold len. unfold lim in *. lia.
      * exists cx'. rewrite length_app in Eq, Hbin. fold len in Eq, Hbin.
        replace (k - Z.of_nat (length out + length chunk)) with (lim - len) in Eq, Hbin
          by (unfold lim, len; lia).
        rewrite firstn_app, skipn_app.
        replace (firstn (Z.to_nat lim) chunk) with chunk
          by (symmetry; apply firstn_all2; unfold len in *; lia).
        replace (skipn (Z.to_nat lim) chunk) with (@nil Z)
          by (symmetry; apply skipn_all2; unfold len in *; lia).
        replace (Z.to_nat lim - length chunk)%nat with (Z.to_nat (lim - len))
          by (unfold len; lia).
        cbn [app]. rewrite <- app_assoc in Eq.
        split; [ exact Eq | ]. split.
        { apply (bin_transport _ _ _ _ _ Hbin). intros x [Hx _]. split; [ exact Hx | reflexivity ]. }
        do 5 (split; [ assumption | ]).
        intros x X1 X2. rewrite V6.
        -- unfold cx1. cbn [cx_arena set_arena]. apply upd_other. exact X2.
        -- intros [Hx _]. exact (X1 Hx).
        -- exact X2.
Qed.
Lemma read_binary_bin (m : arena) (Q : Z -> Prop) (w : Z) (bytes : list Z)
    (fuel : nat) (cx : wikrt_cx) (k : Z) :
  bin m Q w bytes ->
  top cx = w ->
  (forall x, Q x -> cx_arena cx x = m x) ->
  ~ Q (wikrt_pval (cx_val cx)) ->
  arena32 (cx_arena cx) ->
  wikrt_p (cx_val cx) = true ->
  0 <= k -> (Z.to_nat k + 3 <= fuel)%nat ->
  exists cx',
    wikrt_read_binary fuel cx k = Ret (cx', firstn (Z.to_nat k) bytes) /\
    bin (cx_arena cx') Q (top cx') (skipn (Z.to_nat k) bytes) /\
    cx_val cx' = cx_val cx /\ cx_ecode cx' = cx_ecode cx /\
    cx_alloc cx' = cx_alloc cx /\ cx_cap cx' = cx_cap cx /\
    arena32 (cx_arena cx') /\
    (forall x, ~ Q x -> x <> wikrt_pval (cx_val cx) -> cx_arena cx' x = cx_arena cx x).
Proof.
  intros Hb Hw Hag Htop H32 Hp Hk Hfuel.
  destruct fuel as [ | f ]; [ lia | ].
  cbn [wikrt_read_binary]. rewrite Hp. cbn [negb].
  destruct (read_loop_bin m Q w bytes Hb f cx k [] Hw Hag Htop H32) as (cx' & Eq & R).
  - cbn [length]. lia.
  - cbn [length]. lia.
  - exists cx'. cbn [length Z.of_nat app] in Eq, R. rewrite Z.sub_0_r in Eq, R.
    split; [ exact Eq | exact R ].
Qed.

(** *** Code points *)

Lemma lor_below (n a b : Z) :
  0 <= n -> 0 <= a < 2 ^ n -> 0 <= b < 2 ^ n -> 0 <= Z.lor a b < 2 ^ n.
Proof.
  intros Hn Ha Hb. split; [ apply Z.lor_nonneg; lia | ].
  replace (Z.lor a b) with (Z.lor a b mod 2 ^ n); [ apply Z.mod_pos_bound; lia | ].
  rewrite <- Z.land_ones by exact Hn. rewrite Z.land_lor_distr_l.
  rewrite !Z.land_ones by exact Hn. rewrite !Z.mod_small by lia. reflexivity.
Qed.

Lemma land_low (x k : Z) : 0 <= k -> 0 <= Z.land x (Z.ones k) < 2 ^ k.
Proof. intros Hk. rewrite Z.land_ones by exact Hk. apply Z.mod_pos_bound. lia. Qed.

Lemma utf8_cp_range (b0 : Z) (more : list Z) :
  0 <= b0 -> 0 <= utf8_readcp_unsafe (b0 :: more) < 2 ^ 21.
Proof.
  intros Hb. unfold utf8_readcp_unsafe. cbv zeta. cbn [nth].
  set (c1 := Z.land (nth 0 more 0) 63). set (c2 := Z.land (nth 1 more 0) 63).
  set (c3 := Z.land (nth 2 more 0) 63).
  assert (H1 : 0 <= c1 < 2 ^ 6) by apply (land_low _ 6 ltac:(lia)).
  assert (H2 : 0 <= c2 < 2 ^ 6) by apply (land_low _ 6 ltac:(lia)).
  assert (H3 : 0 <= c3 < 2 ^ 6) by apply (land_low _ 6 ltac:(lia)).
  pose proof (land_low b0 5 ltac:(lia)) as L5. change (Z.ones 5) with 31 in L5.
  pose proof (land_low b0 4 ltac:(lia)) as L4. change (Z.ones 4) with 15 in L4.
  pose proof (land_low b0 3 ltac:(lia)) as L3. change (Z.ones 3) with 7 in L3.
  assert (S6 : forall x, 0 <= x < 2 ^ 6 -> 0 <= Z.shiftl x 6 < 2 ^ 21)
    by (intros x Hx; rewrite Z.shiftl_mul_pow2 by lia; lia).
  assert (S12 : forall x, 0 <= x < 2 ^ 6 -> 0 <= Z.shiftl x 12 < 2 ^ 21)
    by (intros x Hx; rewrite Z.shiftl_mul_pow2 by lia; lia).
  unfold utf8_readcp_size.
  destruct (Z.ltb_spec b0 128); [ lia | ].
  destruct (Z.ltb_spec b0 224).
  { apply lor_below; [ lia | | lia ]. rewrite Z.shiftl_mul_pow2 by lia. lia. }
  destruct (Z.ltb_spec b0 240).
  { apply lor_below; [ lia | | ].
    - rewrite Z.shiftl_mul_pow2 by lia. lia.
    - apply lor_below; [ lia | apply S6; assumption | lia ]. }
  apply lor_below; [ lia | | ].
  - rewrite Z.shiftl_mul_pow2 by lia. lia.
  - apply lor_below; [ lia | apply S12; assumption | ].
    apply lor_below; [ lia | apply S6; assumption | lia ].
Qed.

(** *** Putting a text back together: the header, the code point, the cons *)

Lemma intro_i32_fresh (fuel : nat) (cx : wikrt_cx) (n : Z) :
  WIKRT_SMALLINT_MIN <= n <= WIKRT_SMALLINT_MAX ->
  0 <= cx_alloc cx -> cx_alloc cx + 8 <= cx_cap cx -> cx_cap cx < 2 ^ 32 ->
  wikrt_intro_i32 fuel cx n
  = Ret (set_val (store (store (set_alloc cx (cx_alloc cx + 8)) (cx_alloc cx) (wikrt_i2v n))
                        (cx_alloc cx + sizeof_val) (cx_val cx))
                 (wikrt_tag_addr WIKRT_P (cx_alloc cx))).
Proof.
  intros Hn H0 H1 H2. unfold wikrt_intro_i32. cbv zeta.
  replace (WIKRT_SMALLINT_MIN <=? n) with true by (symmetry; apply Z.leb_le; lia).
  replace (n <=? WIKRT_SMALLINT_MAX) with true by (symmetry; apply Z.leb_le; lia).
  cbn [andb]. unfold wikrt_intro_smallval.
  rewrite (reserve_available fuel cx WIKRT_CELLSIZE) by (unfold WIKRT_CELLSIZE; lia).
  cbn [bind negb]. unfold wikrt_intro_r, wikrt_alloc_cellval_r, wikrt_alloc_r, WIKRT_CELLSIZE.
  rewrite wrap32_small by lia. reflexivity.
Qed.

Lemma utf8_recons (fuel : nat) (cx : wikrt_cx) (cp : Z) (m : arena) (A pv v : Z) :
  cx_arena cx = m -> cx_alloc cx = A -> cx_val cx = v -> wikrt_pval v = pv ->
  wikrt_p v = true -> 0 <= v < 2 ^ 32 -> pv + 8 <= A -> A mod 8 = 0 ->
  A + 16 <= cx_cap cx -> cx_cap cx < 2 ^ 32 -> 0 <= cp < 2 ^ 21 ->
  exists cxe,
    (cx3 <- wikrt_wrap_otag fuel cx WIKRT_OTAG_UTF8 ;;
     cx4 <- wikrt_intro_i32 fuel cx3 (signed32 cp) ;;
     wikrt_cons fuel cx4) = Ret cxe /\
    cx_val cxe = A + 9 /\ cx_alloc cxe = A + 16 /\
    cx_ecode cxe = cx_ecode cx /\ cx_cap cxe = cx_cap cx /\
    cx_arena cxe A = WIKRT_OTAG_UTF8 /\ cx_arena cxe (A + 4) = m pv /\
    cx_arena cxe pv = wikrt_i2v cp /\ cx_arena cxe (pv + 4) = A /\
    cx_arena cxe (A + 8) = v + 1 /\ cx_arena cxe (A + 12) = m (pv + 4) /\
    (forall x, x <> A -> x <> A + 4 -> x <> pv -> x <> pv + 4 -> x <> A + 8 ->
               x <> A + 12 -> cx_arena cxe x = m x).
Proof.
  intros Em EA Ev Epv Hp Hv Hpv HAal Hroom Hcap Hcp.
  assert (Hpv0 : 0 <= pv).
  { rewrite <- Epv. unfold wikrt_pval, wikrt_vaddr.
    rewrite land_mask_small by exact Hv. Z.div_mod_to_equations. lia. }
  assert (Hvp : v = pv + 1).
  { rewrite <- Epv. unfold wikrt_pval, wikrt_vaddr. rewrite land_mask_small by exact Hv.
    unfold wikrt_p in Hp. apply Z.eqb_eq in Hp. rewrite vtag_mod in Hp.
    unfold WIKRT_P in Hp. lia. }
  rewrite wrap_otag_fresh by (rewrite ?Ev, ?EA; assumption || lia).
  cbn [bind]. unfold top, load. rewrite Em, EA, Ev, Epv.
  rewrite intro_i32_fresh;
    unfold store; cbn [cx_arena cx_val cx_ecode cx_alloc cx_cap set_arena set_alloc set_val].
  2: { rewrite signed32_small by lia. unfold WIKRT_SMALLINT_MIN, WIKRT_SMALLINT_MAX. lia. }
  2: lia. 2: lia. 2: lia.
  cbn [bind]. rewrite signed32_small by lia.
  rewrite ?Em, ?EA, ?Ev.
  rewrite (tag_addr_add WIKRT_O A) by (unfold WIKRT_O; lia || assumption).
  rewrite (tag_addr_add WIKRT_P (A + 8))
    by (unfold WIKRT_P; lia || (Z.div_mod_to_equations; lia)).
  unfold WIKRT_O, WIKRT_P, sizeof_val. rewrite Z.add_0_r.
  replace (A + 8 + 1) with (A + 9) by lia. replace (A + 8 + 4) with (A + 12) by lia.
  replace (A + 8 + 8) with (A + 16) by lia.
  assert (P9 : wikrt_p (A + 9) = true).
  { unfold wikrt_p. rewrite vtag_mod. apply Z.eqb_eq. unfold WIKRT_P.
    Z.div_mod_to_equations. lia. }
  assert (V9 : wikrt_pval (A + 9) = A + 8).
  { unfold wikrt_pval, wikrt_vaddr. rewrite land_mask_small by lia.
    Z.div_mod_to_equations. lia. }
  assert (Hpal : pv mod 8 = 0) by (rewrite <- Epv; apply pval_aligned).
  assert (L3 : Z.land 3 v = 1) by (rewrite land3_mod, Hvp; Z.div_mod_to_equations; lia).
  unfold wikrt_cons, wikrt_assocl, wikrt_assocl_v.
  cbn [cx_arena cx_val cx_ecode cx_alloc cx_cap set_arena set_alloc set_val].
  rewrite P9, V9. unfold load, store.
  cbn [cx_arena cx_val cx_ecode cx_alloc cx_cap set_arena set_alloc set_val].
  unfold sizeof_val. replace (A + 8 + 4) with (A + 12) by lia.
  rewrite (upd_same _ (A + 12)). rewrite Hp, Epv.
  unfold wikrt_wrap_sum.
  cbn [cx_arena cx_val cx_ecode cx_alloc cx_cap set_arena set_alloc set_val].
  rewrite P9. cbn [negb]. unfold wikrt_wrap_sum_p. cbv zeta. unfold load, store.
  cbn [cx_arena cx_val cx_ecode cx_alloc cx_cap set_arena set_alloc set_val].
  rewrite V9.
  repeat (rewrite upd_same || rewrite upd_other by lia).
  rewrite L3. change (1 =? 1) with true. cbv iota.
  rewrite wrap32_small by lia.
  eexists. split; [ reflexivity | ].
  cbn [cx_arena cx_val cx_ecode cx_alloc cx_cap set_arena set_alloc set_val].
  cbn [shallow_step].
  repeat (rewrite upd_same || rewrite upd_other by lia).
  do 10 (split; [ reflexivity | ]).
  intros x X1 X2 X3 X4 X5 X6. rewrite !upd_other by assumption. reflexivity.
Qed.
(** *** Texts: a code point is decoded off the binary *)

Lemma expand_utf8_eq (rb : wikrt_cx -> Z -> outcome (wikrt_cx * list Z))
    (f : nat) (cx : wikrt_cx) :
  wikrt_vtag (top cx) = WIKRT_O ->
  LOBYTE (cx_arena cx (wikrt_pobj (top cx))) = WIKRT_OTAG_UTF8 ->
  0 <= cx_alloc cx -> cx_alloc cx + 8 <= cx_cap cx -> cx_cap cx < 2 ^ 32 ->
  expand_sum_body rb f cx
  = ('(cx1, buff) <- rb (store cx (wikrt_pval (cx_val cx))
                               (cx_arena cx (wikrt_pobj (top cx) + sizeof_val))) 1 ;;
     if 0 =? Z.of_nat (length buff) then Ret cx1 else
     '(cx2, more) <-
        (if negb (0 =? utf8_readcp_size (nth 0%nat buff 0) - 1) then
           '(c, more) <- rb cx1 (utf8_readcp_size (nth 0%nat buff 0) - 1) ;;
           if negb ((utf8_readcp_size (nth 0%nat buff 0) - 1 =? Z.of_nat (length more))
                    || wikrt_has_error c)
           then Abort else Ret (c, more)
         else Ret (cx1, [])) ;;
     cx3 <- wikrt_wrap_otag f cx2 WIKRT_OTAG_UTF8 ;;
     cx4 <- wikrt_intro_i32 f cx3 (signed32 (utf8_readcp_unsafe (buff ++ more))) ;;
     wikrt_cons f cx4).
Proof.
  intros Ht Hh H0 H1 H2.
  destruct (otag_word_facts _ Ht) as (L2 & L3 & Ho).
  unfold expand_sum_body.
  rewrite (reserve_available f cx WIKRT_CELLSIZE) by (unfold WIKRT_CELLSIZE; lia).
  cbn [bind negb]. cbv zeta. unfold top, load in *. rewrite Ho. cbn [negb].
  rewrite Hh.
  change (WIKRT_OTAG_UTF8 =? WIKRT_OTAG_ARRAY) with false.
  change (WIKRT_OTAG_UTF8 =? WIKRT_OTAG_BINARY) with false.
  change (WIKRT_OTAG_UTF8 =? WIKRT_OTAG_UTF8) with true. cbv iota.
  reflexivity.
Qed.

Lemma utf8_size_range (b0 : Z) : 1 <= utf8_readcp_size b0 <= 4.
Proof.
  unfold utf8_readcp_size.
  destruct (b0 <? 128); [ lia | ]. destruct (b0 <? 224); [ lia | ].
  destruct (b0 <? 240); lia.
Qed.

(** The two reads of [wikrt_expand_sum_p]: the lead byte, then the rest
    of the code point. *)
Lemma read_code_point (f : nat) (cx : wikrt_cx) (Q : Z -> Prop)
    (b0 : Z) (more rest : list Z) :
  bin (cx_arena cx) Q (top cx) (b0 :: more ++ rest) ->
  ~ Q (wikrt_pval (cx_val cx)) ->
  arena32 (cx_arena cx) ->
  wikrt_p (cx_val cx) = true ->
  cx_ecode cx = WIKRT_OK ->
  Z.of_nat (length more) = utf8_readcp_size b0 - 1 ->
  (6 <= f)%nat ->
  exists cx1 cx2,
    wikrt_read_binary f cx 1 = Ret (cx1, [b0]) /\
    (if negb (0 =? utf8_readcp_size b0 - 1) then
       '(c, more') <- wikrt_read_binary f cx1 (utf8_readcp_size b0 - 1) ;;
       if negb ((utf8_readcp_size b0 - 1 =? Z.of_nat (length more'))
                || wikrt_has_error c)
       then Abort else Ret (c, more')
     else Ret (cx1, [])) = Ret (cx2, more) /\
    bin (cx_arena cx2) Q (top cx2) rest /\
    cx_val cx2 = cx_val cx /\ cx_ecode cx2 = cx_ecode cx /\
    cx_alloc cx2 = cx_alloc cx /\ cx_cap cx2 = cx_cap cx /\
    arena32 (cx_arena cx2) /\
    (forall x, ~ Q x -> x <> wikrt_pval (cx_val cx) -> cx_arena cx2 x = cx_arena cx x).
Proof.
  intros Hb Htop H32 Hp Hok Hlen Hf.
  pose proof (utf8_size_range b0) as Hsz.
  destruct (read_binary_bin (cx_arena cx) Q (top cx) _ f cx 1 Hb eq_refl
              ltac:(intros; reflexivity) Htop H32 Hp ltac:(lia) ltac:(lia))
    as (cx1 & Eq1 & B1 & V1 & K1 & A1 & C1 & R1 & F1).
  change (Z.to_nat 1) with 1%nat in Eq1, B1. cbn [firstn skipn] in Eq1, B1.
  exists cx1.
  destruct (Z.eqb_spec 0 (utf8_readcp_size b0 - 1)) as [E0 | E0]; cbn [negb].
  - assert (more = []) as -> by (destruct more; [ reflexivity | cbn [length] in Hlen; lia ]).
    exists cx1. cbn [app] in B1.
    split; [ exact Eq1 | ]. split; [ reflexivity | ]. split; [ exact B1 | ].
    do 4 (split; [ assumption | ]). split; [ exact R1 | exact F1 ].
  - destruct (read_binary_bin (cx_arena cx1) Q (top cx1) _ f cx1 (utf8_readcp_size b0 - 1)
                B1 eq_refl ltac:(intros; reflexivity))
      as (cx2 & Eq2 & B2 & V2 & K2 & A2 & C2 & R2 & F2);
      try assumption; try lia.
    + rewrite V1. exact Htop.
    + rewrite V1. exact Hp.
    + exists cx2. rewrite <- Hlen in Eq2, B2. rewrite Nat2Z.id in Eq2, B2.
      rewrite firstn_app, firstn_all, Nat.sub_diag in Eq2. cbn [firstn] in Eq2.
      rewrite app_nil_r in Eq2.
      rewrite skipn_app, skipn_all, Nat.sub_diag in B2. cbn [skipn app] in B2.
      split; [ exact Eq1 | ]. split.
      { rewrite <- Hlen. rewrite Eq2. cbn [bind]. rewrite Z.eqb_refl. reflexivity. }
      split; [ exact B2 | ].
      split; [ congruence | ]. split; [ congruence | ]. split; [ congruence | ].
      split; [ congruence | ]. split; [ exact R2 | ].
      intros x X1 X2. rewrite F2; [ apply F1; assumption | assumption | ].
      rewrite V1. exact X2.
Qed.
Lemma bin_nil (m : arena) (Q : Z -> Prop) (w : Z) : bin m Q w [] -> w = WIKRT_UNIT_INR.
Proof.
  intros H. remember (@nil Z) as l eqn:El.
  destruct H as [ | | Q' w' chunk bs Ht Hc Hh Hne ]; [ reflexivity | discriminate El | ].
  apply app_eq_nil in El. destruct El as [El _]. contradiction.
Qed.

Lemma unwrap_utf8_den (f : nat) (cx : wikrt_cx) (P : Z -> Prop)
    (bytes cps : list Z) (s : wikrt_sum_tag) (a : aval) :
  sum_cx cx P -> 0 <= cx_val cx < 2 ^ 32 -> cx_alloc cx + 16 <= cx_cap cx ->
  wikrt_vtag (top cx) = WIKRT_O ->
  covers P (wikrt_pobj (top cx)) 8 ->
  LOBYTE (cx_arena cx (wikrt_pobj (top cx))) = WIKRT_OTAG_UTF8 ->
  bin (cx_arena cx) (without P (wikrt_pobj (top cx)) 8)
      (cx_arena cx (wikrt_pobj (top cx) + sizeof_val)) bytes ->
  utf8_text bytes cps ->
  alist (map AInt cps) anil = AInj s a ->
  (5 <= f)%nat ->
  unwrapped cx P s a (wikrt_unwrap_sum_p (S (S f)) cx None).
Proof.
  intros H Hv Hroom Ht Hc Hh Hb Hu Ea Hf.
  pose proof H as [Hok Hval H32 Hheap [Htop Htop'] [Hc0 Hc1] Hal Hcap].
  pose proof (expand_utf8_eq (wikrt_read_binary (S f)) (S f) cx Ht Hh
                ltac:(lia) ltac:(lia) ltac:(lia)) as Ex.
  assert (Hd : wikrt_otag_deepsum (load cx (wikrt_pobj (top cx))) = false)
    by (unfold wikrt_otag_deepsum, load; rewrite Hh; reflexivity).
  unfold top, load in *.
  set (m := cx_arena cx) in *. set (A := cx_alloc cx) in *.
  set (pv := wikrt_pval (cx_val cx)) in *.
  set (p := wikrt_pobj (m pv)) in *.
  set (Q := without P p 8) in *.
  set (cx0 := store cx pv (m (p + sizeof_val))) in *.
  assert (HQ : forall x, Q x -> P x /\ x <> pv /\ x <> pv + sizeof_val /\ 0 <= x < A).
  { intros x [Px _]. pose proof (Hheap x Px). repeat split; try lia; try assumption.
    - intros ->. exact (Htop Px).
    - intros ->. exact (Htop' Px). }
  assert (Hag0 : forall x, Q x -> cx_arena cx0 x = m x).
  { intros x Hx. unfold cx0, store. cbn [cx_arena set_arena].
    apply upd_other. apply (HQ x Hx). }
  assert (Htop0 : ~ Q (wikrt_pval (cx_val cx0))) by (intros [Px _]; exact (Htop Px)).
  assert (H320 : arena32 (cx_arena cx0)).
  { unfold cx0, store. cbn [cx_arena set_arena]. apply upd_arena32; [ exact H32 | apply H32 ]. }
  assert (Hw0 : top cx0 = m (p + sizeof_val)).
  { unfold cx0, top, store, load. cbn [cx_arena cx_val set_arena]. apply upd_same. }
  assert (Fr0 : forall x, x <> pv -> cx_arena cx0 x = m x).
  { intros x Hx. unfold cx0, store. cbn [cx_arena set_arena]. apply upd_other. exact Hx. }
  destruct Hu as [ | b0 more rest cps' Hlen Hrange Hu' ].
  - (* the empty text *)
    cbn [map alist fold_right] in Ea. unfold anil in Ea. injection Ea as <- <-.
    destruct (read_binary_bin m Q _ [] (S f) cx0 1 Hb Hw0 Hag0 Htop0 H320 Hval
                ltac:(lia) ltac:(lia))
      as (cx1 & Eq1 & B1 & V1 & K1 & A1 & C1 & R1 & F1).
    change (cx_val cx0) with (cx_val cx) in V1, F1.
    change (cx_ecode cx0) with (cx_ecode cx) in K1.
    change (cx_alloc cx0) with A in A1. change (cx_cap cx0) with (cx_cap cx) in C1.
    fold pv in F1.
    rewrite firstn_nil in Eq1. rewrite skipn_nil in B1.
    apply bin_nil in B1.
    rewrite Eq1 in Ex. cbn [bind length Z.of_nat] in Ex.
    change (0 =? 0) with true in Ex. cbv iota in Ex.
    rewrite (unwrap_expand_step (S f) cx cx1 None Ht Hd Ex (eq_trans K1 Hok)).
    apply (unwrap_shallow_from f cx cx1 P P None WIKRT_UNIT WIKRT_INR).
    + constructor; rewrite ?V1, ?K1, ?A1, ?C1; try assumption; split; assumption.
    + unfold follows, load. rewrite ?V1, ?A1, ?C1. fold pv. repeat split.
      * rewrite F1; [ apply Fr0; unfold sizeof_val; lia | | unfold sizeof_val; lia ].
        intros [Px _]. exact (Htop' Px).
      * intros x X1 X2 X3. rewrite F1; [ apply Fr0; lia | | fold pv; lia ].
        intros [Px _]. exact (X1 Px).
      * intros x Px. left. exact Px.
      * left. reflexivity.
      * fold A. lia.
    + reflexivity.
    + exact B1.
    + constructor.
  - (* a code point and the rest *)
    cbn [map alist fold_right] in Ea. unfold acons in Ea. injection Ea as <- <-.
    assert (Hb0 : bin (cx_arena cx0) Q (top cx0) (b0 :: more ++ rest)).
    { rewrite Hw0. apply (bin_transport _ _ _ _ _ Hb).
      intros x Hx. split; [ exact Hx | apply Hag0, Hx ]. }
    destruct (read_code_point (S f) cx0 Q b0 more rest Hb0 Htop0 H320 Hval Hok Hlen
                ltac:(lia))
      as (cx1 & cx2 & Eq1 & Eq2 & B2 & V2 & K2 & A2 & C2 & R2 & F2).
    change (cx_val cx0) with (cx_val cx) in V2, F2.
    change (cx_ecode cx0) with (cx_ecode cx) in K2.
    change (cx_alloc cx0) with A in A2. change (cx_cap cx0) with (cx_cap cx) in C2.
    fold pv in F2.
    rewrite Eq1 in Ex. cbn [bind length Z.of_nat nth] in Ex.
    change (0 =? Z.pos (Pos.of_succ_nat 0)) with false in Ex. cbv iota in Ex.
    rewrite Eq2 in Ex. cbn [bind app] in Ex.
    set (cp := utf8_readcp_unsafe (b0 :: more)) in *.
    assert (Hcp : 0 <= cp < 2 ^ 21).
    { apply utf8_cp_range. inversion Hrange as [ | ? ? Hb00 _ ]. lia. }
    destruct (utf8_recons (S f) cx2 cp (cx_arena cx2) A pv (cx_val cx)
                eq_refl A2 V2 eq_refl Hval Hv ltac:(lia) Hal
                ltac:(rewrite C2; exact Hroom) ltac:(rewrite C2; lia) Hcp)
      as (cxe & Ee & E1 & E2 & E3 & E4 & W1 & W2 & W3 & W4 & W5 & W6 & Fe).
    rewrite Ee in Ex.
    assert (Hpal : pv mod 8 = 0) by apply pval_aligned.
    assert (Hvp : cx_val cx = pv + 1).
    { unfold pv, wikrt_pval, wikrt_vaddr. rewrite land_mask_small by exact Hv.
      unfold wikrt_p in Hval. apply Z.eqb_eq in Hval. rewrite vtag_mod in Hval.
      unfold WIKRT_P in Hval. lia. }
    assert (V9 : wikrt_pval (cx_val cxe) = A + 8).
    { rewrite E1. unfold wikrt_pval, wikrt_vaddr. rewrite land_mask_small by lia.
      Z.div_mod_to_equations. lia. }
    set (Pe := grown (grown P pv 8) A 8).
    assert (M2 : forall x, x <> pv -> ~ Q x -> cx_arena cx2 x = m x).
    { intros x X1 X2. rewrite F2 by assumption. apply Fr0. exact X1. }
    assert (Me : forall x, P x -> cx_arena cxe x = cx_arena cx2 x).
    { intros x Px. pose proof (Hheap x Px).
      apply Fe; try lia; intros ->; [ exact (Htop Px) | exact (Htop' Px) ]. }
    rewrite (unwrap_expand_step (S f) cx cxe None Ht Hd Ex (eq_trans E3 (eq_trans K2 Hok))).
    apply (unwrap_shallow_from f cx cxe P Pe None (cx_val cx) WIKRT_INL).
    + constructor; rewrite ?V9, ?E1, ?E2, ?E3, ?E4, ?K2, ?C2; try assumption.
      * unfold wikrt_p. rewrite vtag_mod. apply Z.eqb_eq. unfold WIKRT_P.
        Z.div_mod_to_equations. lia.
      * intros x.
        destruct (Z.eq_dec x A) as [-> | N1]; [ rewrite W1; unfold WIKRT_OTAG_UTF8; lia | ].
        destruct (Z.eq_dec x (A + 4)) as [-> | N2]; [ rewrite W2; apply R2 | ].
        destruct (Z.eq_dec x pv) as [-> | N3];
          [ rewrite W3; unfold wikrt_i2v; apply wrap32_range | ].
        destruct (Z.eq_dec x (pv + 4)) as [-> | N4]; [ rewrite W4; lia | ].
        destruct (Z.eq_dec x (A + 8)) as [-> | N5]; [ rewrite W5; lia | ].
        destruct (Z.eq_dec x (A + 12)) as [-> | N6]; [ rewrite W6; apply R2 | ].
        rewrite Fe by assumption. apply R2.
      * intros x [[Px | Hx] | Hx]; [ pose proof (Hheap x Px) | | ]; lia.
      * unfold Pe, grown, sizeof_val. split.
        -- intros [[Px | Hx] | Hx]; [ pose proof (Hheap _ Px) | | ]; lia.
        -- intros [[Px | Hx] | Hx]; [ pose proof (Hheap _ Px) | | ]; lia.
      * split; lia.
      * Z.div_mod_to_equations. lia.
      * lia.
    + unfold follows, load. rewrite ?V9, ?E2, ?E4, ?C2. fold pv. fold A. repeat split.
      * unfold sizeof_val. replace (A + 8 + 4) with (A + 12) by lia. rewrite W6.
        apply M2; [ lia | ]. intros [Px _]. exact (Htop' Px).
      * intros x X1 X2 X3. rewrite Fe by lia. apply M2; [ lia | ].
        intros [Px _]. exact (X1 Px).
      * intros x [[Px | Hx] | Hx]; [ left; exact Px | right; left; exact Hx | right; right; lia ].
      * right. lia.
      * lia.
    + rewrite land3_mod, Hvp. Z.div_mod_to_equations. lia.
    + unfold top, load. rewrite V9, W5. reflexivity.
    + apply den_pair; fold pv.
      * unfold wikrt_p in Hval. apply Z.eqb_eq in Hval. exact Hval.
      * intros x Hx. left. right. exact Hx.
      * rewrite W3. apply den_int. unfold WIKRT_SMALLINT_MIN, WIKRT_SMALLINT_MAX. lia.
      * unfold sizeof_val. rewrite W4.
        assert (Et : wikrt_vtag A = WIKRT_O)
          by (rewrite vtag_mod; unfold WIKRT_O; exact Hal).
        assert (Ep : wikrt_pobj A = A).
        { unfold wikrt_pobj, wikrt_vaddr. rewrite land_mask_small by lia.
          Z.div_mod_to_equations. lia. }
        apply (den_utf8 _ Pe A rest cps'); rewrite ?Ep; try assumption.
        -- intros x Hx. right. exact Hx.
        -- rewrite W1. reflexivity.
        -- unfold sizeof_val. rewrite W2.
           replace (cx_arena cx2 pv) with (top cx2)
             by (unfold top, load; rewrite V2; reflexivity).
           apply (bin_transport _ _ _ _ _ B2).
           intros x Hx. destruct (HQ x Hx) as (Px & X1 & X2 & X3).
           split; [ split; [ left; left; exact Px | lia ] | ].
           apply Fe; unfold sizeof_val in *; lia.
Qed.
(** *** Any sum *)

Lemma unwrap_sum_den (f : nat) (cx : wikrt_cx) (P : Z -> Prop)
    (s : wikrt_sum_tag) (a : aval) :
  sum_cx cx P -> 0 <= cx_val cx < 2 ^ 32 -> cx_alloc cx + 16 <= cx_cap cx ->
  den (cx_arena cx) P (top cx) (AInj s a) -> (5 <= f)%nat ->
  unwrapped cx P s a (wikrt_unwrap_sum_p (S (S f)) cx None).
Proof.
  intros H Hv Hroom Hden Hf.
  remember (top cx) as w eqn:Ew. remember (AInj s a) as v eqn:Ev.
  destruct Hden as
    [ P | P n Hn | P w a' b Ht Hc Ha Hb | P w s' a' Hl Ha
    | P w ts a' Ht Hc Hne Hp Hh Ha
    | P w elems tl Ht Hc Hh Hne Hl Hb0 Hb1 Hcb He Hn
    | P w bytes tl Ht Hc Hh Hne Hl Hb0 Hb1 Hcb Hby Hn
    | P w bytes cps Ht Hc Hh Hb Hu
    | P w t lo hi Ho Hlo Hhi Hc Hr ]; try discriminate Ev.
  - injection Ev as -> ->.
    apply (unwrap_shallow_from (S f) cx cx P P None w s a H (follows_refl cx P) Hl);
      [ symmetry; exact Ew | exact Ha ].
  - destruct ts as [ | t ts ]; [ contradiction | ].
    cbn [fold_right] in Ev. injection Ev as -> <-. subst w.
    apply unwrap_deepsum_den; try assumption. lia.
  - destruct elems as [ | e es ]; [ contradiction | ].
    cbn [alist fold_right] in Ev. unfold acons in Ev. injection Ev as <- <-. subst w.
    apply unwrap_array_den; try assumption. lia.
  - destruct bytes as [ | b bs ]; [ contradiction | ].
    cbn [alist map fold_right] in Ev. unfold acons in Ev. injection Ev as <- <-. subst w.
    apply unwrap_binary_den; try assumption. lia.
  - subst w. apply (unwrap_utf8_den f cx P bytes cps); assumption.
Qed.

(** A word with bit 1 set is a shallow sum. *)
Lemma shallow_exact (m : arena) (P : Z -> Prop) (w : Z) (s : wikrt_sum_tag) (a : aval) :
  den m P w (AInj s a) -> Z.land 2 w <> 0 ->
  exists w0, Z.land 3 w0 = 1 /\ w = w0 + shallow_step s.
Proof.
  intros Hden Hs. remember (AInj s a) as v eqn:Ev.
  destruct Hden as
    [ P | P n Hn | P w a' b Ht Hc Ha Hb | P w s' a' Hl Ha
    | P w ts a' Ht Hc Hne Hp Hh Ha
    | P w elems tl Ht Hc Hh Hne Hl Hb0 Hb1 Hcb He Hn
    | P w bytes tl Ht Hc Hh Hne Hl Hb0 Hb1 Hcb Hby Hn
    | P w bytes cps Ht Hc Hh Hb Hu
    | P w t lo hi Ho Hlo Hhi Hc Hr ]; try discriminate Ev;
    try (exfalso; apply Hs; apply (otag_word_facts _ Ht)).
  injection Ev as -> ->. exists w. split; [ exact Hl | reflexivity ].
Qed.

(** C5: for every sum on top of the stack, whatever its layout (shallow
    [PL]/[PR]/[UL]/[UR], a [DEEPSUM] path, or a list still packed in an
    [ARRAY], [BINARY] or [UTF8] chunk), [wikrt_unwrap_sum] returns the
    tag and leaves the payload, and [wikrt_wrap_sum] with that tag gives
    back a value that denotes the same sum; the rest of the stack and the
    words outside the value are untouched, and no error is raised.  On a
    shallow sum the two steps subtract and add the tag increment, leave
    every word as it was and allocate nothing.  The context has no error
    pending and two free cells. *)
Theorem sum_round_trip (fuel : nat) (cx : wikrt_cx) (P : Z -> Prop)
    (s : wikrt_sum_tag) (a : aval) :
  sum_cx cx P -> 0 <= cx_val cx < 2 ^ 32 -> cx_alloc cx + 16 <= cx_cap cx ->
  den (cx_arena cx) P (top cx) (AInj s a) -> (7 <= fuel)%nat ->
  exists cx1 cx2 P1 P2,
    wikrt_unwrap_sum fuel cx None = Ret (cx1, Some s) /\
    den (cx_arena cx1) P1 (top cx1) a /\
    wikrt_wrap_sum fuel cx1 s = Ret cx2 /\
    den (cx_arena cx2) P2 (top cx2) (AInj s a) /\
    cx_ecode cx2 = WIKRT_OK /\
    load cx2 (wikrt_pval (cx_val cx2) + sizeof_val)
      = load cx (wikrt_pval (cx_val cx) + sizeof_val) /\
    (forall x, ~ P x ->
               ~ (wikrt_pval (cx_val cx) <= x < wikrt_pval (cx_val cx) + 8) ->
               x < cx_alloc cx -> load cx2 x = load cx x) /\
    (Z.land 2 (top cx) <> 0 ->
       top cx1 = top cx - shallow_step s /\
       cx_val cx2 = cx_val cx /\ cx_alloc cx2 = cx_alloc cx /\
       forall x, load cx2 x = load cx x).
Proof.
  intros H Hv Hroom Hden Hfuel.
  destruct fuel as [ | [ | f ] ]; [ lia | lia | ].
  destruct (unwrap_sum_den f cx P s a H Hv Hroom Hden ltac:(lia))
    as (cx1 & P1 & Eq1 & D1 & S1 & R1 & F1 & F2 & F3 & F4 & F5 & F6).
  destruct (wrap_sum_den (S (S f)) cx1 P1 s a S1 R1 D1)
    as (cx2 & Eq2 & D2 & V2 & K2 & G2).
  exists cx1, cx2, P1, (grown P1 (cx_alloc cx1) 8).
  pose proof H as [Hok Hval H32 Hheap [Htop Htop'] [Hc0 Hc1] Hal Hcap].
  pose proof S1 as [Hok1 Hval1 H321 Hheap1 [Htop1 Htop1'] [Hc01 Hc11] Hal1 Hcap1].
  assert (U : wikrt_unwrap_sum (S (S f)) cx None = Ret (cx1, Some s))
    by (unfold wikrt_unwrap_sum; rewrite Hval; exact Eq1).
  split; [ exact U | ]. split; [ exact D1 | ]. split; [ exact Eq2 | ].
  split; [ exact D2 | ]. split; [ exact K2 | ].
  split.
  { rewrite V2. rewrite G2; [ exact F1 | exact Htop1' | unfold sizeof_val; lia | unfold sizeof_val; lia ]. }
  split.
  { intros x X1 X2 X3. rewrite G2; [ apply F2; assumption | | | lia ].
    - intros Px. destruct (F3 x Px) as [Y | [Y | Y]]; [ exact (X1 Y) | exact (X2 Y) | lia ].
    - destruct F4 as [E | E]; [ rewrite E; lia | lia ]. }
  intros Hs.
  destruct (shallow_exact _ _ _ _ _ Hden Hs) as (w0 & Hl & Ew).
  assert (Hr : 0 <= top cx < 2 ^ 32) by apply H32.
  rewrite (unwrap_shallow (S f) cx None w0 s Hl Ew Hr) in Eq1.
  injection Eq1 as <-.
  unfold wikrt_wrap_sum in Eq2. rewrite Hval1 in Eq2. cbn [negb] in Eq2.
  assert (T1 : top (store cx (wikrt_pval (cx_val cx)) w0) = w0)
    by (unfold top, store, load; cbn [cx_arena cx_val set_arena]; apply upd_same).
  rewrite wrap_shallow in Eq2.
  2: { rewrite T1. exact Hl. }
  2: { rewrite T1. rewrite land3_mod in Hl. rewrite Ew in Hr.
       destruct s; cbn [shallow_step] in Hr; Z.div_mod_to_equations; lia. }
  injection Eq2 as <-. rewrite T1.
  split; [ lia | ]. split; [ reflexivity | ]. split; [ reflexivity | ].
  intros x. unfold store, load. cbn [cx_arena cx_val set_arena].
  destruct (Z.eq_dec x (wikrt_pval (cx_val cx))) as [-> | N].
  - rewrite !upd_same. symmetry. exact Ew.
  - rewrite (upd_other _ _ _ x) by exact N. rewrite (upd_other _ _ _ x) by exact N.
    reflexivity.
Qed.

Lemma text_ready : sum_cx cx_text text_words.
Proof.
  constructor; try reflexivity.
  - apply arena_of_32. reflexivity.
  - unfold text_words. cbn. intros x Hx. lia.
  - unfold text_words. cbn. split; lia.
  - cbn. split; lia.
  - cbn. lia.
Qed.

Lemma text_den :
  den (cx_arena cx_text) text_words (top cx_text)
      (AInj WIKRT_INL (APair (AInt (utf8_readcp_unsafe [195; 169])) anil)).
Proof.
  apply (den_utf8 _ text_words 32 [195; 169] [utf8_readcp_unsafe [195; 169]]).
  - reflexivity.
  - unfold text_words. intros x Hx. cbn in Hx. lia.
  - reflexivity.
  - apply (bin_chunk _ _ 40 [195; 169] []).
    + reflexivity.
    + unfold text_words, without. intros x Hx. cbn in Hx |- *. lia.
    + reflexivity.
    + discriminate.
    + reflexivity.
    + vm_compute. discriminate.
    + vm_compute. reflexivity.
    + unfold text_words, without, covers_bytes. intros x Hx. cbn in Hx |- *.
      split; Z.div_mod_to_equations; lia.
    + cbn [bytes_at]. repeat split; reflexivity.
    + constructor.
  - apply (utf8_cp 195 [169] [] []).
    + reflexivity.
    + repeat constructor; lia.
    + constructor.
Qed.

Lemma sum_round_trip_witness :
  exists cx1 cx2 P1 P2,
    wikrt_unwrap_sum 7 cx_text None = Ret (cx1, Some WIKRT_INL) /\
    den (cx_arena cx1) P1 (top cx1) (APair (AInt (utf8_readcp_unsafe [195; 169])) anil) /\
    wikrt_wrap_sum 7 cx1 WIKRT_INL = Ret cx2 /\
    den (cx_arena cx2) P2 (top cx2)
        (AInj WIKRT_INL (APair (AInt (utf8_readcp_unsafe [195; 169])) anil)).
Proof.
  destruct (sum_round_trip 7 cx_text text_words WIKRT_INL _ text_ready
              ltac:(cbn; lia) ltac:(cbn; lia) text_den ltac:(lia))
    as (cx1 & cx2 & P1 & P2 & H1 & H2 & H3 & H4 & _).
  exists cx1, cx2, P1, P2. repeat split; assumption.
Defined.

(** ** The parser: only the text is lost on failure *)

(** The working state of the parser: three values above the caller's [e]. *)
Definition spine3 (v e : Parse.val) : Prop :=
  exists X Y T, v = Parse.VPair X (Parse.VPair Y (Parse.VPair T e)).

Ltac ret_inv :=
  repeat match goal with
  | H : Ret _ = Ret _ |- _ => inversion H; subst; clear H
  | H : Abort = Ret _ |- _ => discriminate H
  | H : OutOfFuel = Ret _ |- _ => discriminate H
  | H : (_, _) = (_, _) |- _ => inversion H; subst; clear H
  end.

Ltac spine_open H c :=
  let X := fresh "X" in let Y := fresh "Y" in let T := fresh "T" in
  let E := fresh "E" in
  destruct H as (X & Y & T & E); destruct c as [? ?]; cbn [Parse.cx_val] in E; subst.

Ltac spine_done := cbn [Parse.cx_val Parse.set_val]; unfold spine3; eauto.

Lemma reserve_spine (c c' : Parse.cx) (sz : Z) (ok : bool) (e : Parse.val) :
  Parse.wikrt_mem_reserve c sz = (c', ok) -> spine3 (Parse.cx_val c) e ->
  spine3 (Parse.cx_val c') e.
Proof.
  unfold Parse.wikrt_mem_reserve. intros H Hs.
  destruct (Parse.cx_reserve c); ret_inv; exact Hs.
Qed.

Lemma set_top_spine (c c' : Parse.cx) (v e : Parse.val) :
  Parse.set_top c v = Ret c' -> spine3 (Parse.cx_val c) e -> spine3 (Parse.cx_val c') e.
Proof.
  intros H Hs. spine_open Hs c. cbn in H. ret_inv. spine_done.
Qed.

Lemma cons_spine (c c1 c2 : Parse.cx) (v e : Parse.val) (e1 e2 : Parse.wikrt_err) :
  Parse.wikrt_assocl (Parse.wikrt_intro_r c v) = (c1, e1) ->
  Parse.wikrt_wrap_sum c1 WIKRT_INL = (c2, e2) ->
  spine3 (Parse.cx_val c) e ->
  spine3 (Parse.cx_val c1) e /\ spine3 (Parse.cx_val c2) e.
Proof.
  intros H1 H2 Hs. spine_open Hs c. cbn in H1. ret_inv. cbn in H2. ret_inv.
  split; spine_done.
Qed.

Lemma reverse_opslist_spine (c c' : Parse.cx) (e : Parse.val) :
  Parse.wikrt_reverse_opslist c = Ret c' -> spine3 (Parse.cx_val c) e ->
  spine3 (Parse.cx_val c') e.
Proof.
  unfold Parse.wikrt_reverse_opslist. intros H Hs.
  destruct (Parse.top c) as [ hd | | ]; cbn [bind] in H; try discriminate H.
  destruct (Parse.reverse_opslist_loop hd _) as [ tl | | ]; cbn [bind] in H;
    try discriminate H.
  exact (set_top_spine _ _ _ _ H Hs).
Qed.

Lemma reverse_text_chunks_spine (c c' : Parse.cx) (e : Parse.val) :
  Parse.wikrt_reverse_text_chunks c = Ret c' -> spine3 (Parse.cx_val c) e ->
  spine3 (Parse.cx_val c') e.
Proof.
  unfold Parse.wikrt_reverse_text_chunks. intros H Hs.
  destruct (Parse.top c) as [ t | | ]; cbn [bind] in H; try discriminate H.
  exact (set_top_spine _ _ _ _ H Hs).
Qed.

Lemma flush_spine (c c' : Parse.cx) (p p' : Parse.wikrt_parse_state) (ok : bool)
    (e : Parse.val) :
  Parse.wikrt_flush_parse_text c p = Ret (c', p', ok) -> spine3 (Parse.cx_val c) e ->
  spine3 (Parse.cx_val c') e.
Proof.
  unfold Parse.wikrt_flush_parse_text. intros H Hs.
  destruct (0 =? Parse.ps_buffsz p); [ ret_inv; exact Hs | ].
  destruct (negb _); [ discriminate H | ].
  destruct (Parse.wikrt_mem_reserve c _) as [c1 ok1] eqn:Hr.
  pose proof (reserve_spine _ _ _ _ _ Hr Hs) as Hs1.
  destruct ok1; cbn [negb] in H; [ | ret_inv; exact Hs1 ].
  destruct (Parse.top c1) as [ t | | ]; cbn [bind] in H; try discriminate H.
  destruct (Parse.set_top c1 _) as [ c2 | | ] eqn:Ht; cbn [bind] in H; try discriminate H.
  ret_inv. exact (set_top_spine _ _ _ _ Ht Hs1).
Qed.

Lemma write_char_spine (c c' : Parse.cx) (p p' : Parse.wikrt_parse_state) (cp : Z)
    (ok : bool) (e : Parse.val) :
  Parse.wikrt_parser_write_char c p cp = Ret (c', p', ok) -> spine3 (Parse.cx_val c) e ->
  spine3 (Parse.cx_val c') e.
Proof.
  unfold Parse.wikrt_parser_write_char. cbv zeta. intros H Hs.
  destruct (_ >=? _); [ exact (flush_spine _ _ _ _ _ _ H Hs) | ret_inv; exact Hs ].
Qed.

Lemma opval_spine (c c' : Parse.cx) (e : Parse.val) :
  Parse.wikrt_fini_parse_opval_r c = Ret c' -> spine3 (Parse.cx_val c) e ->
  spine3 (Parse.cx_val c') e.
Proof.
  intros H Hs. spine_open Hs c. unfold Parse.wikrt_fini_parse_opval_r in H.
  cbn in H. destruct Y; cbn in H; try discriminate H. ret_inv. spine_done.
Qed.

Lemma fini_text_spine (c c' : Parse.cx) (p p' : Parse.wikrt_parse_state) (ok : bool)
    (e : Parse.val) :
  Parse.wikrt_fini_parse_text c p = Ret (c', p', ok) -> spine3 (Parse.cx_val c) e ->
  spine3 (Parse.cx_val c') e.
Proof.
  unfold Parse.wikrt_fini_parse_text. intros H Hs.
  destruct (Parse.ps_type p); try discriminate H.
  destruct (Parse.wikrt_flush_parse_text c p) as [ [[c1 p1] ok1] | | ] eqn:Hf;
    cbn [bind] in H; try discriminate H.
  pose proof (flush_spine _ _ _ _ _ _ Hf Hs) as Hs1.
  destruct ok1; cbn [negb] in H; [ | ret_inv; exact Hs1 ].
  destruct (Parse.wikrt_reverse_text_chunks c1) as [ c2 | | ] eqn:Hr;
    cbn [bind] in H; try discriminate H.
  pose proof (reverse_text_chunks_spine _ _ _ Hr Hs1) as Hs2.
  destruct (Parse.wikrt_mem_reserve c2 _) as [c3 ok3] eqn:Hm.
  pose proof (reserve_spine _ _ _ _ _ Hm Hs2) as Hs3.
  destruct ok3; cbn [negb] in H; [ | ret_inv; exact Hs3 ].
  destruct (Parse.wikrt_fini_parse_opval_r c3) as [ c4 | | ] eqn:Ho;
    cbn [bind] in H; try discriminate H.
  ret_inv. exact (opval_spine _ _ _ Ho Hs3).
Qed.

Section ParserTables.
Variable wikrt_token_char : Z -> bool.
Variable wikrt_text_char : Z -> bool.
Variable wikrt_abc2op_ascii_table : Z -> Z.
Variable OP_INVAL : Z.
Variable WIKRT_TOK_BUFFSZ : Z.

Lemma push_spine (c c1 : Parse.cx) (v e : Parse.val) (e1 : Parse.wikrt_err) :
  Parse.wikrt_assocl (Parse.wikrt_intro_r c v) = (c1, e1) ->
  spine3 (Parse.cx_val c) e -> spine3 (Parse.cx_val c1) e.
Proof.
  intros H1 Hs. spine_open Hs c. cbn in H1. ret_inv. spine_done.
Qed.

(** Every step of the parser that returns, with or without an error,
    leaves three values above [e]. *)
Lemma step_char_spine (c c' : Parse.cx) (p p' : Parse.wikrt_parse_state) (cp : Z)
    (st : Parse.wikrt_err) (e : Parse.val) :
  Parse.wikrt_step_parse_char wikrt_token_char wikrt_text_char wikrt_abc2op_ascii_table
                              OP_INVAL WIKRT_TOK_BUFFSZ c p cp = Ret (c', p', st) ->
  spine3 (Parse.cx_val c) e -> spine3 (Parse.cx_val c') e.
Proof.
  unfold Parse.wikrt_step_parse_char. cbv zeta. intros H Hs.
  destruct (Parse.ps_type p).
  - (* OP *)
    destruct (Parse.wikrt_mem_reserve c _) as [c1 ok1] eqn:Hm.
    pose proof (reserve_spine _ _ _ _ _ Hm Hs) as Hs1.
    destruct ok1; cbn [negb] in H; [ | ret_inv; exact Hs1 ].
    destruct (91 =? cp).
    { destruct (Parse.wikrt_assocl _) as [c2 e2] eqn:Ha. ret_inv.
      exact (push_spine _ _ _ _ _ Ha Hs1). }
    destruct (93 =? cp).
    { destruct (Parse.ps_depth p <? 1); [ ret_inv; exact Hs1 | ].
      destruct (Parse.wikrt_reverse_opslist c1) as [ c2 | | ] eqn:Hr;
        cbn [bind] in H; try discriminate H.
      pose proof (reverse_opslist_spine _ _ _ Hr Hs1) as Hs2.
      destruct (Parse.top c2) as [ v | | ]; cbn [bind] in H; try discriminate H.
      destruct (Parse.set_top c2 _) as [ c3 | | ] eqn:Ht; cbn [bind] in H;
        try discriminate H.
      pose proof (set_top_spine _ _ _ _ Ht Hs2) as Hs3.
      destruct (Parse.wikrt_fini_parse_opval_r c3) as [ c4 | | ] eqn:Ho;
        cbn [bind] in H; try discriminate H.
      ret_inv. exact (opval_spine _ _ _ Ho Hs3). }
    destruct (123 =? cp); [ ret_inv; exact Hs1 | ].
    destruct (34 =? cp).
    { destruct (Parse.wikrt_assocl _) as [c2 e2] eqn:Ha. ret_inv.
      exact (push_spine _ _ _ _ _ Ha Hs1). }
    destruct (cp <? 128); [ | ret_inv; exact Hs1 ].
    destruct (OP_INVAL =? _); [ ret_inv; exact Hs1 | ].
    destruct (Parse.wikrt_assocl _) as [c2 e2] eqn:Ha.
    destruct (Parse.wikrt_wrap_sum c2 _) as [c3 e3] eqn:Hw. ret_inv.
    exact (proj2 (cons_spine _ _ _ _ _ _ _ Ha Hw Hs1)).
  - (* TXT *)
    destruct (10 =? cp); [ ret_inv; exact Hs | ].
    destruct (negb _); [ ret_inv; exact Hs | ].
    destruct (Parse.wikrt_parser_write_char c p cp) as [ [[c1 p1] ok1] | | ] eqn:Hw;
      cbn [bind] in H; try discriminate H.
    pose proof (write_char_spine _ _ _ _ _ _ _ Hw Hs) as Hs1.
    destruct ok1; cbn [negb] in H; ret_inv; exact Hs1.
  - (* TXT_LF *)
    destruct (32 =? cp).
    { destruct (Parse.wikrt_parser_write_char c p 10) as [ [[c1 p1] ok1] | | ] eqn:Hw;
        cbn [bind] in H; try discriminate H.
      pose proof (write_char_spine _ _ _ _ _ _ _ Hw Hs) as Hs1.
      destruct ok1; cbn [negb] in H; ret_inv; exact Hs1. }
    destruct (126 =? cp); [ | ret_inv; exact Hs ].
    destruct (Parse.wikrt_fini_parse_text c p) as [ [[c1 p1] ok1] | | ] eqn:Hf;
      cbn [bind] in H; try discriminate H.
    pose proof (fini_text_spine _ _ _ _ _ _ Hf Hs) as Hs1.
    destruct ok1; cbn [negb] in H; ret_inv; exact Hs1.
  - (* TOK *)
    destruct (125 =? cp).
    + destruct (0 =? Parse.ps_buffsz p); [ ret_inv; exact Hs | ].
      destruct (negb _); [ discriminate H | ].
      destruct (Parse.wikrt_mem_reserve c _) as [c1 ok1] eqn:Hm.
      pose proof (reserve_spine _ _ _ _ _ Hm Hs) as Hs1.
      destruct ok1; cbn [negb] in H; [ | ret_inv; exact Hs1 ].
      destruct (Parse.wikrt_assocl _) as [c2 e2] eqn:Ha.
      destruct (Parse.wikrt_wrap_sum c2 _) as [c3 e3] eqn:Hw. ret_inv.
      exact (proj2 (cons_spine _ _ _ _ _ _ _ Ha Hw Hs1)).
    + destruct (negb _); [ ret_inv; exact Hs | ].
      destruct (_ >=? _); ret_inv; exact Hs.
Qed.

Lemma step_parse_spine (s : list Z) :
  forall (c c' : Parse.cx) (p p' : Parse.wikrt_parse_state) (st : Parse.wikrt_err)
         (e : Parse.val),
    Parse.wikrt_step_parse wikrt_token_char wikrt_text_char wikrt_abc2op_ascii_table
                           OP_INVAL WIKRT_TOK_BUFFSZ c p s = Ret (c', p', st) ->
    spine3 (Parse.cx_val c) e -> spine3 (Parse.cx_val c') e.
Proof.
  induction s as [ | cp s IH ]; intros c c' p p' st e H Hs; cbn [Parse.wikrt_step_parse] in H.
  - ret_inv. exact Hs.
  - destruct (Parse.wikrt_step_parse_char _ _ _ _ _ c p cp) as [ [[c1 p1] st1] | | ] eqn:Hc;
      cbn [bind] in H; try discriminate H.
    pose proof (step_char_spine _ _ _ _ _ _ _ Hc Hs) as Hs1.
    destruct (negb (Parse.is_ok st1)); [ ret_inv; exact Hs1 | ].
    exact (IH _ _ _ _ _ _ H Hs1).
Qed.

(** The end of the input: the block is dropped again when the final state
    is not accepting. *)
Lemma fini_parse_atomic (c c' : Parse.cx) (p : Parse.wikrt_parse_state)
    (st : Parse.wikrt_err) (e : Parse.val) :
  Parse.wikrt_fini_parse c p = Ret (c', st) -> spine3 (Parse.cx_val c) e ->
  st <> Parse.WIKRT_OK -> Parse.cx_val c' = e.
Proof.
  unfold Parse.wikrt_fini_parse. intros H Hs Hst.
  destruct (Parse.wikrt_reverse_opslist c) as [ c1 | | ] eqn:Hr;
    cbn [bind] in H; try discriminate H.
  pose proof (reverse_opslist_spine _ _ _ Hr Hs) as Hs1.
  spine_open Hs1 c1. cbn in H.
  destruct (negb _); cbn in H; ret_inv; [ reflexivity | congruence ].
Qed.

Lemma loop_atomic (fuel : nat) :
  forall (c c' : Parse.cx) (p : Parse.wikrt_parse_state) (st : Parse.wikrt_err)
         (e : Parse.val),
    Parse.text_to_block_loop wikrt_token_char wikrt_text_char wikrt_abc2op_ascii_table
                             OP_INVAL WIKRT_TOK_BUFFSZ fuel c p = Ret (c', st) ->
    spine3 (Parse.cx_val c) e ->
    st <> Parse.WIKRT_OK -> Parse.cx_val c' = e.
Proof.
  induction fuel as [ | f IH ]; intros c c' p st e H Hs Hst;
    cbn [Parse.text_to_block_loop] in H; [ discriminate H | ].
  spine_open Hs c.
  cbn [Parse.wikrt_assocl Parse.wikrt_wswap Parse.cx_val Parse.set_val
       Parse.wikrt_read_text] in H.
  destruct (Parse.read_text_list wikrt_text_char T Parse.WIKRT_PARSE_READSZ) as [buff T'].
  cbn [Parse.wikrt_assocr Parse.wikrt_wswap Parse.cx_val Parse.set_val] in H.
  match type of H with
  | context [Parse.wikrt_fini_parse ?c0 _] => set (c1 := c0) in H
  end.
  assert (Hs1 : spine3 (Parse.cx_val c1) e) by (unfold c1; spine_done).
  destruct buff as [ | cp buff ].
  - exact (fini_parse_atomic _ _ _ _ _ H Hs1 Hst).
  - destruct (Parse.wikrt_step_parse _ _ _ _ _ c1 p (cp :: buff))
      as [ [[c2 p2] st2] | | ] eqn:Hp; cbn [bind] in H; try discriminate H.
    pose proof (step_parse_spine _ _ _ _ _ _ _ Hp Hs1) as Hs2.
    destruct (negb (Parse.is_ok st2)).
    + spine_open Hs2 c2. cbn in H. ret_inv. reflexivity.
    + exact (IH _ _ _ _ _ H Hs2 Hst).
Qed.

(** The runs that return: whenever [wikrt_text_to_block], called on
    [(text * e)], returns with an error (a malformed input, an unaccepting
    final state, or [wikrt_mem_reserve] failing at any of its calls), the
    value register holds exactly [e]. *)
Theorem text_to_block_atomic (fuel : nat) (text e : Parse.val) (reserve : list bool)
    (c' : Parse.cx) (st : Parse.wikrt_err) :
  Parse.wikrt_text_to_block wikrt_token_char wikrt_text_char wikrt_abc2op_ascii_table
                            OP_INVAL WIKRT_TOK_BUFFSZ fuel
                            (Parse.mkcx (Parse.VPair text e) reserve) = Ret (c', st) ->
  st <> Parse.WIKRT_OK ->
  Parse.cx_val c' = e.
Proof.
  unfold Parse.wikrt_text_to_block, Parse.wikrt_intro_parse. cbv zeta.
  cbn [Parse.cx_val Parse.wikrt_p negb]. intros H Hst.
  destruct (Parse.wikrt_mem_reserve _ _) as [c1 ok1] eqn:Hm.
  assert (E1 : Parse.cx_val c1 = Parse.VPair text e).
  { unfold Parse.wikrt_mem_reserve in Hm. cbn [Parse.cx_reserve Parse.cx_val] in Hm.
    destruct reserve; ret_inv; reflexivity. }
  destruct ok1; cbn [negb] in H.
  - apply (loop_atomic fuel _ _ _ _ _ H); [ | exact Hst ].
    unfold Parse.wikrt_intro_r. cbn [Parse.cx_val Parse.set_val]. rewrite E1. spine_done.
  - unfold Parse.wikrt_drop in H. rewrite E1 in H. ret_inv. reflexivity.
Qed.

End ParserTables.

Lemma text_to_block_atomic_witness :
  Parse.cx_val
    (Parse.mkcx Parse.VUnit []) = Parse.VUnit /\
  Parse.wikrt_text_to_block (fun _ => true) (fun _ => true) (fun _ => 1) 0 64 2
    (Parse.mkcx (Parse.VPair (Parse.VSum WIKRT_INL
                                (Parse.VPair (Parse.VInt 200)
                                             (Parse.VSum WIKRT_INR Parse.VUnit)))
                             Parse.VUnit) [])
  = Ret (Parse.mkcx Parse.VUnit [], Parse.WIKRT_TYPE_ERROR).
Proof.
  split.
  - apply (text_to_block_atomic (fun _ => true) (fun _ => true) (fun _ => 1) 0 64 2
             (Parse.VSum WIKRT_INL (Parse.VPair (Parse.VInt 200)
                                                (Parse.VSum WIKRT_INR Parse.VUnit)))
             Parse.VUnit [] (Parse.mkcx Parse.VUnit []) Parse.WIKRT_TYPE_ERROR).
    + vm_compute. reflexivity.
    + discriminate.
  - vm_compute. reflexivity.
Defined.

(** ** C2 *)

(** C2.  Not every failing parse leaves [e].  The branch for an opening
    bracket (and the one for an opening quote) leaves a pair in the slot
    of the operator list, which [wikrt_reverse_opslist] refuses by its
    assertion and on which the shuffle of [wikrt_fini_parse_opval_r] fails
    its own.  On the text of one opening bracket, on the text of an
    opening and a closing bracket, and on the unterminated text literal
    (a quote mark and the letter a), each a text the parser can be given,
    the call ends in a failed assertion and never hands the caller's value
    [e] back, with every reservation succeeding and whatever [e] is. *)
Lemma text_to_block_aborts_in_block (e : Parse.val) :
  Parse.wikrt_text_to_block (fun _ => true) (fun _ => true) (fun _ => 1) 0 64 3
    (Parse.mkcx (Parse.VPair (text_val [91]) e) []) = Abort /\
  Parse.wikrt_text_to_block (fun _ => true) (fun _ => true) (fun _ => 1) 0 64 3
    (Parse.mkcx (Parse.VPair (text_val [91; 93]) e) []) = Abort /\
  Parse.wikrt_text_to_block (fun _ => true) (fun _ => true) (fun _ => 1) 0 64 3
    (Parse.mkcx (Parse.VPair (text_val [34; 97]) e) []) = Abort.
Proof. repeat split; reflexivity. Qed.

(** * Further properties of the engine *)

(** ** Product accelerators *)

Lemma wswap_v_loads (cx : wikrt_cx) (abc x y : Z) :
  wikrt_p abc = true -> x = wikrt_pval abc ->
  wikrt_p (load cx (x + sizeof_val)) = true ->
  y = wikrt_pval (load cx (x + sizeof_val)) ->
  let cx' := wikrt_wswap_v cx abc in
  load cx' x = load cx y /\ load cx' y = load cx x /\
  (forall a, a <> x -> a <> y -> load cx' a = load cx a) /\
  cx_val cx' = cx_val cx /\ cx_alloc cx' = cx_alloc cx /\ cx_ecode cx' = cx_ecode cx.
Proof.
  intros Hp -> Hq ->. cbv zeta. unfold wikrt_wswap_v. rewrite Hp, Hq.
  unfold wikrt_pval_swap, store, load. cbn [cx_arena cx_val cx_alloc cx_ecode set_arena].
  set (x := wikrt_pval abc). set (y := wikrt_pval (cx_arena cx (x + sizeof_val))).
  split; [ | split; [ | split; [ | repeat split ] ] ].
  - destruct (Z.eq_dec x y) as [E | N].
    + rewrite <- E. rewrite upd_same. reflexivity.
    + rewrite upd_other by exact N. rewrite upd_same. reflexivity.
  - rewrite upd_same. reflexivity.
  - intros a Ha Hb. rewrite !upd_other by assumption. reflexivity.
Qed.

Lemma assocl_v_loads (cx : wikrt_cx) (a_bc x y : Z) :
  wikrt_p a_bc = true -> x = wikrt_pval a_bc ->
  wikrt_p (load cx (x + sizeof_val)) = true ->
  y = wikrt_pval (load cx (x + sizeof_val)) -> x <> y ->
  let cx' := wikrt_assocl_v cx a_bc in
  load cx' x = load cx (x + sizeof_val) /\
  load cx' (x + sizeof_val) = load cx (y + sizeof_val) /\
  load cx' y = load cx x /\ load cx' (y + sizeof_val) = load cx y /\
  (forall a, a <> x -> a <> x + sizeof_val -> a <> y -> a <> y + sizeof_val ->
             load cx' a = load cx a) /\
  cx_val cx' = cx_val cx /\ cx_alloc cx' = cx_alloc cx /\ cx_ecode cx' = cx_ecode cx.
Proof.
  intros Hp -> Hq -> N. cbv zeta. unfold wikrt_assocl_v. rewrite Hp, Hq.
  unfold store, load in *. cbn [cx_arena cx_val cx_alloc cx_ecode set_arena].
  pose proof (pval_aligned a_bc) as Al1.
  pose proof (pval_aligned (cx_arena cx (wikrt_pval a_bc + sizeof_val))) as Al2.
  set (x := wikrt_pval a_bc) in *.
  set (y := wikrt_pval (cx_arena cx (x + sizeof_val))) in *.
  upd_simpl.
  split; [ reflexivity | ]. split; [ reflexivity | ]. split; [ reflexivity | ].
  split; [ reflexivity | ]. split; [ | repeat split ].
  intros a H1 H2 H3 H4. rewrite !upd_other by assumption. reflexivity.
Qed.

Lemma assocr_v_loads (cx : wikrt_cx) (ab_c x y : Z) :
  wikrt_p ab_c = true -> x = wikrt_pval ab_c ->
  wikrt_p (load cx x) = true ->
  y = wikrt_pval (load cx x) -> x <> y ->
  let cx' := wikrt_assocr_v cx ab_c in
  load cx' x = load cx y /\
  load cx' (x + sizeof_val) = load cx x /\
  load cx' y = load cx (y + sizeof_val) /\
  load cx' (y + sizeof_val) = load cx (x + sizeof_val) /\
  (forall a, a <> x -> a <> x + sizeof_val -> a <> y -> a <> y + sizeof_val ->
             load cx' a = load cx a) /\
  cx_val cx' = cx_val cx /\ cx_alloc cx' = cx_alloc cx /\ cx_ecode cx' = cx_ecode cx.
Proof.
  intros Hp -> Hq -> N. cbv zeta. unfold wikrt_assocr_v. rewrite Hp, Hq.
  unfold store, load in *. cbn [cx_arena cx_val cx_alloc cx_ecode set_arena].
  pose proof (pval_aligned ab_c) as Al1.
  pose proof (pval_aligned (cx_arena cx (wikrt_pval ab_c))) as Al2.
  set (x := wikrt_pval ab_c) in *.
  set (y := wikrt_pval (cx_arena cx x)) in *.
  upd_simpl.
  split; [ reflexivity | ]. split; [ reflexivity | ]. split; [ reflexivity | ].
  split; [ reflexivity | ]. split; [ | repeat split ].
  intros a H1 H2 H3 H4. rewrite !upd_other by assumption. reflexivity.
Qed.
Lemma wswap_loads (cx : wikrt_cx) (x y : Z) :
  wikrt_p (cx_val cx) = true -> x = wikrt_pval (cx_val cx) ->
  wikrt_p (load cx (x + sizeof_val)) = true ->
  y = wikrt_pval (load cx (x + sizeof_val)) ->
  let cx' := wikrt_wswap cx in
  load cx' x = load cx y /\ load cx' y = load cx x /\
  (forall a, a <> x -> a <> y -> load cx' a = load cx a) /\
  cx_val cx' = cx_val cx /\ cx_alloc cx' = cx_alloc cx /\ cx_ecode cx' = cx_ecode cx.
Proof. intros. apply wswap_v_loads; assumption. Qed.

Lemma zswap_loads (cx : wikrt_cx) (x y z : Z) :
  wikrt_p (cx_val cx) = true -> x = wikrt_pval (cx_val cx) ->
  wikrt_p (load cx (x + sizeof_val)) = true ->
  y = wikrt_pval (load cx (x + sizeof_val)) ->
  wikrt_p (load cx (y + sizeof_val)) = true ->
  z = wikrt_pval (load cx (y + sizeof_val)) ->
  let cx' := wikrt_zswap cx in
  load cx' y = load cx z /\ load cx' z = load cx y /\
  (forall a, a <> y -> a <> z -> load cx' a = load cx a) /\
  cx_val cx' = cx_val cx /\ cx_alloc cx' = cx_alloc cx /\ cx_ecode cx' = cx_ecode cx.
Proof.
  intros Hp -> Hq Hy Hr Hz. cbv zeta. unfold wikrt_zswap. rewrite Hp. cbn [negb].
  apply wswap_v_loads; assumption.
Qed.

Lemma three_cells_apart (x y z : Z) :
  x mod 8 = 0 -> y mod 8 = 0 -> z mod 8 = 0 -> x <> y -> y <> z -> x <> z ->
  (x + 4 <> y /\ x <> y + 4 /\ x + 4 <> y + 4 /\ x <> y) /\
  (y + 4 <> z /\ y <> z + 4 /\ y + 4 <> z + 4 /\ y <> z) /\
  (x + 4 <> z /\ x <> z + 4 /\ x + 4 <> z + 4 /\ x <> z).
Proof. intros Hx Hy Hz Nxy Nyz Nxz. repeat split; Z.div_mod_to_equations; lia. Qed.

Ltac cell_ne :=
  match goal with
  | cell_facts : _ |- _ <> _ => clear - cell_facts; unfold sizeof_val; lia
  end.

(** X1. The accelerator [wikrt_accel_wzlw] computes what the operator
    sequence [w z l w] computes: on [(a * (b * (c * d)))] with three
    distinct spine cells, both leave [(a * ((b * c) * d))] in the register,
    without allocating, without touching the error register, and without
    writing outside the three spine cells. *)
Theorem accel_wzlw_agrees (cx : wikrt_cx) (a b c d : Z) :
  shape_a_b_cd cx a b c d ->
  cells_apart (wikrt_pval (cx_val cx)) (wikrt_pval (stack_tail cx))
              (wikrt_pval (stack_rest2 cx)) ->
  let fast := wikrt_accel_wzlw cx in
  let slow := wikrt_wswap (wikrt_assocl (wikrt_zswap (wikrt_wswap cx))) in
  shape_a_bc_d fast a b c d /\ shape_a_bc_d slow a b c d /\
  cx_alloc fast = cx_alloc cx /\ cx_alloc slow = cx_alloc cx /\
  cx_ecode fast = cx_ecode cx /\ cx_ecode slow = cx_ecode cx /\
  (forall p, ~ (wikrt_pval (cx_val cx) <= p < wikrt_pval (cx_val cx) + 8) ->
             ~ (wikrt_pval (stack_tail cx) <= p < wikrt_pval (stack_tail cx) + 8) ->
             ~ (wikrt_pval (stack_rest2 cx) <= p < wikrt_pval (stack_rest2 cx) + 8) ->
             load fast p = load cx p /\ load slow p = load cx p).
Proof.
  unfold shape_a_b_cd, cells_apart, stack_rest2, stack_tail. cbv zeta.
  intros (Hp & Hq & Hr & Ha & Hb & Hc & Hd) (Nxy & Nyz & Nxz).
  pose proof (pval_aligned (cx_val cx)) as Ax.
  pose proof (pval_aligned (load cx (wikrt_pval (cx_val cx) + sizeof_val))) as Ay.
  pose proof (pval_aligned (load cx (wikrt_pval (load cx (wikrt_pval (cx_val cx) + sizeof_val))
                                     + sizeof_val))) as Az.
  set (x := wikrt_pval (cx_val cx)) in *.
  set (ty := load cx (x + sizeof_val)) in *.
  set (y := wikrt_pval ty) in *.
  set (tz := load cx (y + sizeof_val)) in *.
  set (z := wikrt_pval tz) in *.
  pose proof (three_cells_apart x y z Ax Ay Az Nxy Nyz Nxz) as cell_facts.
  (* the accelerator: one [assocl] below the top *)
  assert (Ef : wikrt_accel_wzlw cx = wikrt_assocl_v cx ty).
  { unfold wikrt_accel_wzlw. rewrite Hp. reflexivity. }
  destruct (assocl_v_loads cx ty y z Hq eq_refl Hr eq_refl Nyz)
    as (F1 & F2 & F3 & F4 & Ff & Fv & Fa & Fe).
  rewrite <- Ef in F1, F2, F3, F4, Ff, Fv, Fa, Fe.
  set (fast := wikrt_accel_wzlw cx) in *.
  assert (Ffx : load fast x = a) by (rewrite Ff by cell_ne; exact Ha).
  assert (Ffx4 : load fast (x + sizeof_val) = ty) by (rewrite Ff by cell_ne; reflexivity).
  (* the sequence: four steps *)
  destruct (wswap_loads cx x y Hp eq_refl Hq eq_refl)
    as (W1 & W2 & Wf & Wv & Wa & We).
  set (c1 := wikrt_wswap cx) in *.
  assert (W3 : load c1 (x + sizeof_val) = ty) by (rewrite Wf by cell_ne; reflexivity).
  assert (W4 : load c1 (y + sizeof_val) = tz) by (rewrite Wf by cell_ne; reflexivity).
  assert (W5 : load c1 z = c) by (rewrite Wf by cell_ne; exact Hc).
  assert (W6 : load c1 (z + sizeof_val) = d) by (rewrite Wf by cell_ne; exact Hd).
  assert (P1 : wikrt_p (cx_val c1) = true) by (rewrite Wv; exact Hp).
  assert (X1 : wikrt_pval (cx_val c1) = x) by (rewrite Wv; reflexivity).
  destruct (zswap_loads c1 x y z P1 (eq_sym X1)) as (Z1 & Z2 & Zf & Zv & Za & Ze).
  { rewrite W3. exact Hq. }
  { rewrite W3. reflexivity. }
  { rewrite W4. exact Hr. }
  { rewrite W4. reflexivity. }
  set (c2 := wikrt_zswap c1) in *.
  assert (Z3 : load c2 x = b) by (rewrite Zf by cell_ne; rewrite W1; exact Hb).
  assert (Z4 : load c2 (x + sizeof_val) = ty) by (rewrite Zf by cell_ne; exact W3).
  assert (Z5 : load c2 (y + sizeof_val) = tz) by (rewrite Zf by cell_ne; exact W4).
  assert (Z6 : load c2 (z + sizeof_val) = d) by (rewrite Zf by cell_ne; exact W6).
  rewrite W5 in Z1. rewrite W2, Ha in Z2.
  assert (P2 : wikrt_p (cx_val c2) = true) by (rewrite Zv; exact P1).
  assert (X2 : wikrt_pval (cx_val c2) = x) by (rewrite Zv; exact X1).
  destruct (assocl_v_loads c2 (cx_val c2) x y P2 (eq_sym X2)) as
    (L1 & L2 & L3 & L4 & Lf & Lv & La & Le).
  { rewrite Z4. exact Hq. }
  { rewrite Z4. reflexivity. }
  { exact Nxy. }
  fold (wikrt_assocl c2) in L1, L2, L3, L4, Lf, Lv, La, Le.
  set (c3 := wikrt_assocl c2) in *.
  rewrite Z4 in L1. rewrite Z5 in L2. rewrite Z3 in L3. rewrite Z1 in L4.
  assert (L5 : load c3 z = a) by (rewrite Lf by cell_ne; exact Z2).
  assert (L6 : load c3 (z + sizeof_val) = d) by (rewrite Lf by cell_ne; exact Z6).
  assert (P3 : wikrt_p (cx_val c3) = true) by (rewrite Lv; exact P2).
  assert (X3 : wikrt_pval (cx_val c3) = x) by (rewrite Lv; exact X2).
  destruct (wswap_loads c3 x z P3 (eq_sym X3)) as (V1 & V2 & Vf & Vv & Va & Ve).
  { rewrite L2. exact Hr. }
  { rewrite L2. reflexivity. }
  set (slow := wikrt_wswap c3) in *.
  rewrite L5 in V1. rewrite L1 in V2.
  assert (V3 : load slow (x + sizeof_val) = tz) by (rewrite Vf by cell_ne; exact L2).
  assert (V4 : load slow y = b) by (rewrite Vf by cell_ne; exact L3).
  assert (V5 : load slow (y + sizeof_val) = c) by (rewrite Vf by cell_ne; exact L4).
  assert (V6 : load slow (z + sizeof_val) = d) by (rewrite Vf by cell_ne; exact L6).
  split.
  { unfold shape_a_bc_d. cbv zeta. rewrite Fv. fold x. rewrite Ffx4. fold y.
    rewrite F1. fold tz. fold z. rewrite F3, F4, F2. fold tz in Hd.
    repeat split; assumption. }
  split.
  { unfold shape_a_bc_d. cbv zeta.
    replace (cx_val slow) with (cx_val cx) by (rewrite Vv, Lv, Zv, Wv; reflexivity).
    fold x. rewrite V3. fold z. rewrite V2. fold y. rewrite V4, V5, V6, V1.
    repeat split; assumption. }
  split; [ exact Fa | ].
  split; [ rewrite Va, La, Za, Wa; reflexivity | ].
  split; [ exact Fe | ].
  split; [ rewrite Ve, Le, Ze, We; reflexivity | ].
  intros p Hx Hy Hz.
  split.
  - apply Ff; clear - Hx Hy Hz; unfold sizeof_val; lia.
  - rewrite Vf, Lf, Zf, Wf by (clear - Hx Hy Hz; unfold sizeof_val; lia). reflexivity.
Qed.
Lemma accel_wzlw_agrees_witness :
  shape_a_bc_d (wikrt_accel_wzlw cx_123)
               (wikrt_i2v 1) (wikrt_i2v 2) (wikrt_i2v 3) WIKRT_UNIT /\
  shape_a_bc_d (wikrt_wswap (wikrt_assocl (wikrt_zswap (wikrt_wswap cx_123))))
               (wikrt_i2v 1) (wikrt_i2v 2) (wikrt_i2v 3) WIKRT_UNIT.
Proof.
  assert (H1 : shape_a_b_cd cx_123 (wikrt_i2v 1) (wikrt_i2v 2) (wikrt_i2v 3) WIKRT_UNIT)
    by (repeat split; reflexivity).
  assert (H2 : cells_apart (wikrt_pval (cx_val cx_123)) (wikrt_pval (stack_tail cx_123))
                           (wikrt_pval (stack_rest2 cx_123)))
    by (repeat split; vm_compute; discriminate).
  destruct (accel_wzlw_agrees cx_123 _ _ _ _ H1 H2) as (A & B & _).
  split; [ exact A | exact B ].
Defined.

(** X2. The accelerator [wikrt_accel_wrzw] computes what the operator
    sequence [w r z w] computes: on [(a * ((b * c) * d))] with three
    distinct spine cells, both leave [(a * (b * (c * d)))], without
    allocating, without touching the error register, and without writing
    outside the three spine cells. *)
Theorem accel_wrzw_agrees (cx : wikrt_cx) (a b c d : Z) :
  shape_a_bc_d cx a b c d ->
  cells_apart (wikrt_pval (cx_val cx)) (wikrt_pval (stack_tail cx))
              (wikrt_pval (stack_snd cx)) ->
  let fast := wikrt_accel_wrzw cx in
  let slow := wikrt_wswap (wikrt_zswap (wikrt_assocr (wikrt_wswap cx))) in
  shape_a_b_cd fast a b c d /\ shape_a_b_cd slow a b c d /\
  cx_alloc fast = cx_alloc cx /\ cx_alloc slow = cx_alloc cx /\
  cx_ecode fast = cx_ecode cx /\ cx_ecode slow = cx_ecode cx /\
  (forall p, ~ (wikrt_pval (cx_val cx) <= p < wikrt_pval (cx_val cx) + 8) ->
             ~ (wikrt_pval (stack_tail cx) <= p < wikrt_pval (stack_tail cx) + 8) ->
             ~ (wikrt_pval (stack_snd cx) <= p < wikrt_pval (stack_snd cx) + 8) ->
             load fast p = load cx p /\ load slow p = load cx p).
Proof.
  unfold shape_a_bc_d, cells_apart, stack_snd, stack_tail. cbv zeta.
  intros (Hp & Hq & Hr & Ha & Hb & Hc & Hd) (Nxy & Nyz & Nxz).
  pose proof (pval_aligned (cx_val cx)) as Ax.
  pose proof (pval_aligned (load cx (wikrt_pval (cx_val cx) + sizeof_val))) as Ay.
  pose proof (pval_aligned (load cx (wikrt_pval (load cx (wikrt_pval (cx_val cx) + sizeof_val))))) as Az.
  set (x := wikrt_pval (cx_val cx)) in *.
  set (ty := load cx (x + sizeof_val)) in *.
  set (y := wikrt_pval ty) in *.
  set (tz := load cx y) in *.
  set (z := wikrt_pval tz) in *.
  pose proof (three_cells_apart x y z Ax Ay Az Nxy Nyz Nxz) as cell_facts.
  (* the accelerator: one [assocr] below the top *)
  assert (Ef : wikrt_accel_wrzw cx = wikrt_assocr_v cx ty).
  { unfold wikrt_accel_wrzw. rewrite Hp. reflexivity. }
  destruct (assocr_v_loads cx ty y z Hq eq_refl Hr eq_refl Nyz)
    as (F1 & F2 & F3 & F4 & Ff & Fv & Fa & Fe).
  rewrite <- Ef in F1, F2, F3, F4, Ff, Fv, Fa, Fe.
  set (fast := wikrt_accel_wrzw cx) in *.
  assert (Ffx : load fast x = a) by (rewrite Ff by cell_ne; exact Ha).
  assert (Ffx4 : load fast (x + sizeof_val) = ty) by (rewrite Ff by cell_ne; reflexivity).
  (* the sequence: [w] *)
  destruct (wswap_loads cx x y Hp eq_refl Hq eq_refl)
    as (W1 & W2 & Wf & Wv & Wa & We).
  set (c1 := wikrt_wswap cx) in *.
  fold tz in W1. rewrite Ha in W2.
  assert (W3 : load c1 (x + sizeof_val) = ty) by (rewrite Wf by cell_ne; reflexivity).
  assert (W4 : load c1 (y + sizeof_val) = d) by (rewrite Wf by cell_ne; exact Hd).
  assert (W5 : load c1 z = b) by (rewrite Wf by cell_ne; exact Hb).
  assert (W6 : load c1 (z + sizeof_val) = c) by (rewrite Wf by cell_ne; exact Hc).
  assert (P1 : wikrt_p (cx_val c1) = true) by (rewrite Wv; exact Hp).
  assert (X1 : wikrt_pval (cx_val c1) = x) by (rewrite Wv; reflexivity).
  (* [r] *)
  destruct (assocr_v_loads c1 (cx_val c1) x z P1 (eq_sym X1)) as
    (R1 & R2 & R3 & R4 & Rf & Rv & Ra & Re).
  { rewrite W1. exact Hr. }
  { rewrite W1. reflexivity. }
  { exact Nxz. }
  fold (wikrt_assocr c1) in R1, R2, R3, R4, Rf, Rv, Ra, Re.
  set (c2 := wikrt_assocr c1) in *.
  rewrite W5 in R1. rewrite W1 in R2. rewrite W6 in R3. rewrite W3 in R4.
  assert (R5 : load c2 y = a) by (rewrite Rf by cell_ne; exact W2).
  assert (R6 : load c2 (y + sizeof_val) = d) by (rewrite Rf by cell_ne; exact W4).
  assert (P2 : wikrt_p (cx_val c2) = true) by (rewrite Rv; exact P1).
  assert (X2 : wikrt_pval (cx_val c2) = x) by (rewrite Rv; exact X1).
  (* [z] *)
  destruct (zswap_loads c2 x z y P2 (eq_sym X2)) as (Z1 & Z2 & Zf & Zv & Za & Ze).
  { rewrite R2. exact Hr. }
  { rewrite R2. reflexivity. }
  { rewrite R4. exact Hq. }
  { rewrite R4. reflexivity. }
  set (c3 := wikrt_zswap c2) in *.
  rewrite R5 in Z1. rewrite R3 in Z2.
  assert (Z3 : load c3 x = b) by (rewrite Zf by cell_ne; exact R1).
  assert (Z4 : load c3 (x + sizeof_val) = tz) by (rewrite Zf by cell_ne; exact R2).
  assert (Z5 : load c3 (z + sizeof_val) = ty) by (rewrite Zf by cell_ne; exact R4).
  assert (Z6 : load c3 (y + sizeof_val) = d) by (rewrite Zf by cell_ne; exact R6).
  assert (P3 : wikrt_p (cx_val c3) = true) by (rewrite Zv; exact P2).
  assert (X3 : wikrt_pval (cx_val c3) = x) by (rewrite Zv; exact X2).
  (* [w] *)
  destruct (wswap_loads c3 x z P3 (eq_sym X3)) as (V1 & V2 & Vf & Vv & Va & Ve).
  { rewrite Z4. exact Hr. }
  { rewrite Z4. reflexivity. }
  set (slow := wikrt_wswap c3) in *.
  rewrite Z1 in V1. rewrite Z3 in V2.
  assert (V3 : load slow (x + sizeof_val) = tz) by (rewrite Vf by cell_ne; exact Z4).
  assert (V4 : load slow y = c) by (rewrite Vf by cell_ne; exact Z2).
  assert (V5 : load slow (y + sizeof_val) = d) by (rewrite Vf by cell_ne; exact Z6).
  assert (V6 : load slow (z + sizeof_val) = ty) by (rewrite Vf by cell_ne; exact Z5).
  split.
  { unfold shape_a_b_cd. cbv zeta. rewrite Fv. fold x. rewrite Ffx4. fold y.
    rewrite F2. fold tz. fold z. rewrite F1, F3, F4.
    repeat split; assumption. }
  split.
  { unfold shape_a_b_cd. cbv zeta.
    replace (cx_val slow) with (cx_val cx) by (rewrite Vv, Zv, Rv, Wv; reflexivity).
    fold x. rewrite V3. fold z. rewrite V6. fold y. rewrite V1, V2, V4, V5.
    repeat split; assumption. }
  split; [ exact Fa | ].
  split; [ rewrite Va, Za, Ra, Wa; reflexivity | ].
  split; [ exact Fe | ].
  split; [ rewrite Ve, Ze, Re, We; reflexivity | ].
  intros p Hx Hy Hz.
  split.
  - apply Ff; clear - Hx Hy Hz; unfold sizeof_val; lia.
  - rewrite Vf, Zf, Rf, Wf by (clear - Hx Hy Hz; unfold sizeof_val; lia). reflexivity.
Qed.

(** [(I(1) * ((I(2) * I(3)) * unit))] in three cells. *)
Lemma accel_wrzw_agrees_witness :
  let cx := cx_of [(16, wikrt_i2v 1); (20, 25); (24, 33); (28, WIKRT_UNIT);
                   (32, wikrt_i2v 2); (36, wikrt_i2v 3)] 17 16 40 1024 in
  shape_a_b_cd (wikrt_accel_wrzw cx)
               (wikrt_i2v 1) (wikrt_i2v 2) (wikrt_i2v 3) WIKRT_UNIT /\
  shape_a_b_cd (wikrt_wswap (wikrt_zswap (wikrt_assocr (wikrt_wswap cx))))
               (wikrt_i2v 1) (wikrt_i2v 2) (wikrt_i2v 3) WIKRT_UNIT.
Proof.
  cbv zeta.
  match goal with |- shape_a_b_cd (wikrt_accel_wrzw ?c) _ _ _ _ /\ _ => set (cx := c) end.
  assert (H1 : shape_a_bc_d cx (wikrt_i2v 1) (wikrt_i2v 2) (wikrt_i2v 3) WIKRT_UNIT)
    by (repeat split; reflexivity).
  assert (H2 : cells_apart (wikrt_pval (cx_val cx)) (wikrt_pval (stack_tail cx))
                           (wikrt_pval (stack_snd cx)))
    by (repeat split; vm_compute; discriminate).
  destruct (accel_wrzw_agrees cx _ _ _ _ H1 H2) as (A & B & _).
  split; [ exact A | exact B ].
Defined.
Lemma intro_unit_r_fresh (fuel : nat) (cx : wikrt_cx) :
  0 <= cx_alloc cx -> cx_alloc cx + 8 <= cx_cap cx -> cx_cap cx < 2 ^ 32 ->
  wikrt_intro_unit_r fuel cx
  = Ret (set_val (store (store (set_alloc cx (cx_alloc cx + 8)) (cx_alloc cx) (cx_val cx))
                        (cx_alloc cx + sizeof_val) WIKRT_UNIT)
                 (wikrt_tag_addr WIKRT_P (cx_alloc cx))).
Proof.
  intros H0 H1 H2. unfold wikrt_intro_unit_r.
  rewrite (reserve_available fuel cx WIKRT_CELLSIZE) by (unfold WIKRT_CELLSIZE; lia).
  cbn [bind negb]. cbv beta iota zeta.
  unfold wikrt_alloc_cellval_r, wikrt_alloc_r. cbv beta iota zeta.
  unfold WIKRT_CELLSIZE. rewrite wrap32_small by lia. reflexivity.
Qed.

Lemma intro_unit_fresh (fuel : nat) (cx : wikrt_cx) :
  0 <= cx_alloc cx -> cx_alloc cx + 8 <= cx_cap cx -> cx_cap cx < 2 ^ 32 ->
  wikrt_intro_unit fuel cx
  = Ret (set_val (store (store (set_alloc cx (cx_alloc cx + 8)) (cx_alloc cx) WIKRT_UNIT)
                        (cx_alloc cx + sizeof_val) (cx_val cx))
                 (wikrt_tag_addr WIKRT_P (cx_alloc cx))).
Proof.
  intros H0 H1 H2. unfold wikrt_intro_unit.
  rewrite (reserve_available fuel cx WIKRT_CELLSIZE) by (unfold WIKRT_CELLSIZE; lia).
  cbn [bind negb]. cbv beta iota zeta.
  unfold wikrt_alloc_cellval_r, wikrt_alloc_r. cbv beta iota zeta.
  unfold WIKRT_CELLSIZE. rewrite wrap32_small by lia. reflexivity.
Qed.

(** X3. The accelerator [wikrt_accel_swap] computes what the operator
    sequence [v r w l c] computes: on a register [(a * b)] both leave
    [(b * a)] in the same cell; the sequence takes one more cell of the
    arena, which it leaves unreferenced, and otherwise the two arenas
    agree on every allocated word. *)
Theorem accel_swap_agrees (fuel : nat) (cx : wikrt_cx) :
  wikrt_p (cx_val cx) = true ->
  0 <= cx_alloc cx -> cx_alloc cx mod 8 = 0 ->
  cx_alloc cx + 8 <= cx_cap cx -> cx_cap cx < 2 ^ 32 ->
  wikrt_pval (cx_val cx) + 8 <= cx_alloc cx ->
  let fast := wikrt_accel_swap cx in
  exists c1,
    wikrt_intro_unit_r fuel cx = Ret c1 /\
    let slow := wikrt_elim_unit_r (wikrt_assocl (wikrt_wswap (wikrt_assocr c1))) in
    cx_val fast = cx_val cx /\ cx_val slow = cx_val cx /\
    stack_fst fast = stack_tail cx /\ stack_tail fast = stack_fst cx /\
    (forall p, p < cx_alloc cx -> load slow p = load fast p) /\
    cx_ecode fast = cx_ecode cx /\ cx_ecode slow = cx_ecode cx /\
    cx_alloc fast = cx_alloc cx /\ cx_alloc slow = cx_alloc cx + 8.
Proof.
  intros Hp H0 H8 Hcap H32 Hcell. cbv zeta.
  rewrite (intro_unit_r_fresh fuel cx H0 Hcap H32).
  eexists. split; [ reflexivity | ].
  pose proof (pval_aligned (cx_val cx)) as Ax.
  set (x := wikrt_pval (cx_val cx)) in *.
  set (n := cx_alloc cx) in *.
  set (c1 := set_val _ _).
  pose proof Hcell as cell_facts.
  assert (Vn : wikrt_pval (cx_val c1) = n).
  { subst c1. cbn [cx_val set_val]. apply tag_addr_vaddr; [ unfold WIKRT_P | | ]; lia. }
  assert (Pn : wikrt_p (cx_val c1) = true).
  { subst c1. cbn [cx_val set_val]. unfold wikrt_p.
    rewrite tag_addr_vtag by (unfold WIKRT_P; lia). reflexivity. }
  assert (N0 : load c1 n = cx_val cx).
  { subst c1. unfold load, store. cbn [cx_arena set_val set_arena set_alloc].
    upd_simpl. reflexivity. }
  assert (N1 : load c1 (n + sizeof_val) = WIKRT_UNIT).
  { subst c1. unfold load, store. cbn [cx_arena set_val set_arena set_alloc].
    upd_simpl. reflexivity. }
  assert (Nf : forall p, p < n -> load c1 p = load cx p).
  { intros p Hlt. subst c1. unfold load, store. cbn [cx_arena set_val set_arena set_alloc].
    rewrite !upd_other by (unfold sizeof_val; lia). reflexivity. }
  assert (Ne : cx_ecode c1 = cx_ecode cx) by reflexivity.
  assert (Na : cx_alloc c1 = n + 8) by reflexivity.
  clearbody c1.
  (* the accelerator *)
  assert (Ef : wikrt_accel_swap cx = wikrt_pval_swap cx x (x + sizeof_val)).
  { unfold wikrt_accel_swap. rewrite Hp. reflexivity. }
  rewrite Ef.
  assert (F0 : load (wikrt_pval_swap cx x (x + sizeof_val)) x = load cx (x + sizeof_val)).
  { unfold wikrt_pval_swap, load, store. cbn [cx_arena set_arena]. upd_simpl. reflexivity. }
  assert (F1 : load (wikrt_pval_swap cx x (x + sizeof_val)) (x + sizeof_val) = load cx x).
  { unfold wikrt_pval_swap, load, store. cbn [cx_arena set_arena]. upd_simpl. reflexivity. }
  (* [r] *)
  destruct (assocr_v_loads c1 (cx_val c1) n x Pn (eq_sym Vn)) as
    (R1 & R2 & R3 & R4 & Rf & Rv & Ra & Re).
  { rewrite N0. exact Hp. }
  { rewrite N0. reflexivity. }
  { clear - Hcell. lia. }
  fold (wikrt_assocr c1) in R1, R2, R3, R4, Rf, Rv, Ra, Re.
  set (c2 := wikrt_assocr c1) in *.
  rewrite Nf in R1, R3 by (clear - Hcell; unfold sizeof_val; lia). rewrite N0 in R2. rewrite N1 in R4.
  assert (P2 : wikrt_p (cx_val c2) = true) by (rewrite Rv; exact Pn).
  assert (X2 : wikrt_pval (cx_val c2) = n) by (rewrite Rv; exact Vn).
  (* [w] *)
  destruct (wswap_loads c2 n x P2 (eq_sym X2)) as (W1 & W2 & Wf & Wv & Wa & We).
  { rewrite R2. exact Hp. }
  { rewrite R2. reflexivity. }
  set (c3 := wikrt_wswap c2) in *.
  rewrite R3 in W1. rewrite R1 in W2.
  assert (W3 : load c3 (n + sizeof_val) = cx_val cx) by (rewrite Wf by cell_ne; exact R2).
  assert (W4 : load c3 (x + sizeof_val) = WIKRT_UNIT) by (rewrite Wf by cell_ne; exact R4).
  assert (P3 : wikrt_p (cx_val c3) = true) by (rewrite Wv; exact P2).
  assert (X3 : wikrt_pval (cx_val c3) = n) by (rewrite Wv; exact X2).
  (* [l] *)
  destruct (assocl_v_loads c3 (cx_val c3) n x P3 (eq_sym X3)) as
    (L1 & L2 & L3 & L4 & Lf & Lv & La & Le).
  { rewrite W3. exact Hp. }
  { rewrite W3. reflexivity. }
  { clear - Hcell. lia. }
  fold (wikrt_assocl c3) in L1, L2, L3, L4, Lf, Lv, La, Le.
  set (c4 := wikrt_assocl c3) in *.
  rewrite W3 in L1. rewrite W4 in L2. rewrite W1 in L3. rewrite W2 in L4.
  (* [c] *)
  assert (Ec : wikrt_elim_unit_r c4 = set_val c4 (cx_val cx)).
  { unfold wikrt_elim_unit_r. rewrite Lv, Wv, Rv, Pn, Vn, L2, L1. reflexivity. }
  rewrite Ec. cbn [cx_val cx_ecode cx_alloc set_val].
  unfold stack_fst, stack_tail.
  change (cx_val (wikrt_pval_swap cx x (x + sizeof_val))) with (cx_val cx).
  fold x. rewrite F0, F1.
  split; [ reflexivity | ]. split; [ reflexivity | ].
  split; [ reflexivity | ]. split; [ reflexivity | ].
  split.
  { intros p Hlt. change (load (set_val c4 (cx_val cx)) p) with (load c4 p).
    destruct (Z.eq_dec p x) as [-> | Nx]; [ rewrite L3, F0; reflexivity | ].
    destruct (Z.eq_dec p (x + sizeof_val)) as [-> | Nx4]; [ rewrite L4, F1; reflexivity | ].
    rewrite Lf, Wf, Rf, Nf by (clear - Hlt Nx Nx4 Hcell; unfold sizeof_val in *; lia).
    symmetry. apply pval_swap_frame; assumption. }
  split; [ reflexivity | ].
  split; [ rewrite Le, We, Re; exact Ne | ].
  split; [ reflexivity | ].
  rewrite La, Wa, Ra. exact Na.
Qed.

Lemma accel_swap_agrees_witness :
  stack_fst (wikrt_accel_swap cx_123) = stack_tail cx_123 /\
  stack_tail (wikrt_accel_swap cx_123) = stack_fst cx_123 /\
  exists c1, wikrt_intro_unit_r 0 cx_123 = Ret c1 /\
    cx_val (wikrt_elim_unit_r (wikrt_assocl (wikrt_wswap (wikrt_assocr c1)))) = 17.
Proof.
  assert (H0 : 0 <= cx_alloc cx_123) by (vm_compute; discriminate).
  assert (H1 : cx_alloc cx_123 + 8 <= cx_cap cx_123) by (vm_compute; discriminate).
  assert (H2 : wikrt_pval (cx_val cx_123) + 8 <= cx_alloc cx_123)
    by (vm_compute; discriminate).
  destruct (accel_swap_agrees 0 cx_123 eq_refl H0 eq_refl H1 eq_refl H2)
    as (c1 & E & _ & V & A & B & _).
  split; [ exact A | ]. split; [ exact B | ].
  exists c1. split; [ exact E | exact V ].
Defined.

(** ** Integer negation and the unit introductions *)

Lemma int_neg_step (cx : wikrt_cx) (n : Z) :
  wikrt_p (cx_val cx) = true -> stack_fst cx = wikrt_i2v n -> smallint_range n ->
  wikrt_int_neg cx = store cx (wikrt_pval (cx_val cx)) (wikrt_i2v (- n)).
Proof.
  intros Hp Hn Hr. unfold stack_fst in Hn. unfold wikrt_int_neg.
  rewrite Hp, Hn, i2v_smallint, v2i_i2v by (range_bounds; lia). reflexivity.
Qed.

(** X4. [wikrt_int_neg] never fails on a small integer: on [(I(n) * e)]
    it overwrites the integer with [I(-n)], which is again in the small
    range, touches nothing else (no allocation, no error, no other word),
    and applied twice it gives back the same context. *)
Theorem int_neg_exact (cx : wikrt_cx) (n : Z) :
  wikrt_p (cx_val cx) = true -> stack_fst cx = wikrt_i2v n -> smallint_range n ->
  let cx' := wikrt_int_neg cx in
  stack_fst cx' = wikrt_i2v (- n) /\ wikrt_v2i (stack_fst cx') = - n /\
  smallint_range (- n) /\
  cx_val cx' = cx_val cx /\ cx_alloc cx' = cx_alloc cx /\ cx_ecode cx' = cx_ecode cx /\
  (forall p, p <> wikrt_pval (cx_val cx) -> load cx' p = load cx p) /\
  cx_same (wikrt_int_neg cx') cx.
Proof.
  intros Hp Hn Hr. cbv zeta.
  assert (Hr' : smallint_range (- n)).
  { unfold smallint_range, WIKRT_SMALLINT_MIN in *. lia. }
  rewrite (int_neg_step cx n Hp Hn Hr).
  set (c1 := store cx (wikrt_pval (cx_val cx)) (wikrt_i2v (- n))).
  assert (L1 : stack_fst c1 = wikrt_i2v (- n)).
  { unfold stack_fst, c1, load, store. cbn [cx_arena cx_val set_arena]. apply upd_same. }
  assert (P1 : wikrt_p (cx_val c1) = true) by exact Hp.
  rewrite (int_neg_step c1 (- n) P1 L1 Hr'). rewrite Z.opp_involutive.
  rewrite L1.
  split; [ reflexivity | ].
  split; [ apply v2i_i2v; clear - Hr'; range_bounds; lia | ].
  split; [ exact Hr' | ].
  split; [ reflexivity | ]. split; [ reflexivity | ]. split; [ reflexivity | ].
  split.
  { intros p Np. unfold c1, load, store. cbn [cx_arena set_arena]. apply upd_other. exact Np. }
  unfold c1, store. cbn [cx_arena cx_val set_arena].
  repeat split. cbn [cx_arena set_arena].
  intros p. unfold upd. destruct (Z.eqb_spec p (wikrt_pval (cx_val cx))) as [-> | N].
  - symmetry. exact Hn.
  - reflexivity.
Qed.

Lemma int_neg_exact_witness :
  wikrt_v2i (stack_fst (wikrt_int_neg cx_3_m11)) = - 3 /\
  cx_same (wikrt_int_neg (wikrt_int_neg cx_3_m11)) cx_3_m11.
Proof.
  assert (R : smallint_range 3) by (unfold smallint_range; vm_compute; split; discriminate).
  destruct (int_neg_exact cx_3_m11 3 eq_refl eq_refl R) as (_ & A & _ & _ & _ & _ & _ & B).
  split; [ exact A | exact B ].
Defined.

(** X5. Introducing a unit and eliminating it again is the identity on
    the value register, on either side of the pair: with one free cell,
    [wikrt_intro_unit] followed by [wikrt_elim_unit] (and
    [wikrt_intro_unit_r] followed by [wikrt_elim_unit_r]) restores the
    register, raises no error, and writes only the fresh cell. *)
Theorem unit_intro_elim (fuel : nat) (cx : wikrt_cx) :
  0 <= cx_alloc cx -> cx_alloc cx mod 8 = 0 ->
  cx_alloc cx + 8 <= cx_cap cx -> cx_cap cx < 2 ^ 32 ->
  exists c1 c2,
    wikrt_intro_unit fuel cx = Ret c1 /\ wikrt_intro_unit_r fuel cx = Ret c2 /\
    wikrt_p (cx_val c1) = true /\ wikrt_p (cx_val c2) = true /\
    stack_fst c1 = WIKRT_UNIT /\ stack_tail c1 = cx_val cx /\
    stack_fst c2 = cx_val cx /\ stack_tail c2 = WIKRT_UNIT /\
    cx_val (wikrt_elim_unit c1) = cx_val cx /\
    cx_val (wikrt_elim_unit_r c2) = cx_val cx /\
    cx_ecode (wikrt_elim_unit c1) = cx_ecode cx /\
    cx_ecode (wikrt_elim_unit_r c2) = cx_ecode cx /\
    (forall p, ~ (cx_alloc cx <= p < cx_alloc cx + 8) ->
       load (wikrt_elim_unit c1) p = load cx p /\
       load (wikrt_elim_unit_r c2) p = load cx p).
Proof.
  intros H0 H8 Hcap H32.
  rewrite (intro_unit_fresh fuel cx H0 Hcap H32).
  rewrite (intro_unit_r_fresh fuel cx H0 Hcap H32).
  eexists. eexists. split; [ reflexivity | ]. split; [ reflexivity | ].
  set (n := cx_alloc cx) in *.
  assert (Vn : wikrt_pval (wikrt_tag_addr WIKRT_P n) = n).
  { apply tag_addr_vaddr; [ unfold WIKRT_P | | ]; lia. }
  assert (Pn : wikrt_p (wikrt_tag_addr WIKRT_P n) = true).
  { unfold wikrt_p. rewrite tag_addr_vtag by (unfold WIKRT_P; lia). reflexivity. }
  unfold wikrt_elim_unit, wikrt_elim_unit_r, stack_fst, stack_tail.
  cbn [cx_val set_val]. rewrite Pn, Vn.
  unfold load, store. cbn [cx_arena cx_val cx_ecode set_val set_arena set_alloc].
  upd_simpl. change (WIKRT_UNIT =? WIKRT_UNIT) with true.
  cbn [andb negb cx_val cx_ecode cx_arena set_val set_arena set_alloc].
  upd_simpl.
  do 10 (split; [ reflexivity | ]).
  intros p Hout.
  rewrite !upd_other by (unfold sizeof_val; lia). split; reflexivity.
Qed.

Lemma unit_intro_elim_witness :
  exists c1 c2,
    wikrt_intro_unit 0 cx_123 = Ret c1 /\ wikrt_intro_unit_r 0 cx_123 = Ret c2 /\
    cx_val (wikrt_elim_unit c1) = 17 /\ cx_val (wikrt_elim_unit_r c2) = 17.
Proof.
  assert (H0 : 0 <= cx_alloc cx_123) by (vm_compute; discriminate).
  assert (H1 : cx_alloc cx_123 + 8 <= cx_cap cx_123) by (vm_compute; discriminate).
  destruct (unit_intro_elim 0 cx_123 H0 eq_refl H1 eq_refl)
    as (c1 & c2 & E1 & E2 & _ & _ & _ & _ & _ & _ & V1 & V2 & _).
  exists c1, c2. repeat split; assumption.
Defined.

(** ** Compaction and reservation *)

(** Everything [wikrt_mem_compact] establishes: the four roots are copied
    one after the other, [txn] first, into the scratch space, which
    becomes the active one. *)
Lemma compact_full (cx : wikrt_cx) (lo hi : Z) (tt tc tp tv : tree) (fuel : nat) :
  gc_ready cx lo hi tt tc tp tv ->
  (nodes tt < fuel)%nat -> (nodes tc < fuel)%nat ->
  (nodes tp < fuel)%nat -> (nodes tv < fuel)%nat ->
  let s0 := cx_ssp cx in
  let live := tsize tt + tsize tc + tsize tp + tsize tv in
  exists cx',
    wikrt_mem_compact fuel cx = Ret cx' /\
    (rep (cx_arena cx') s0 (s0 + live) tt (cx_txn cx') /\
     rep (cx_arena cx') s0 (s0 + live) tc (cx_cc cx') /\
     rep (cx_arena cx') s0 (s0 + live) tp (cx_pc cx') /\
     rep (cx_arena cx') s0 (s0 + live) tv (cx_val cx')) /\
    (cx_mem cx' = s0 /\ cx_ssp cx' = cx_mem cx /\ cx_alloc cx' = s0 + live /\
     cx_cap cx' = s0 + cx_size cx /\ cx_size cx' = cx_size cx /\
     cx_ecode cx' = cx_ecode cx) /\
    arena32 (cx_arena cx') /\
    (forall x, x < s0 \/ s0 + cx_size cx <= x -> cx_arena cx' x = cx_arena cx x) /\
    (cx_compaction_count cx' = wrap32 (cx_compaction_count cx + 1) /\
     cx_compaction_size cx' = live /\
     cx_bytes_compacted cx' = cx_bytes_compacted cx + live /\
     cx_bytes_collected cx' = cx_bytes_collected cx + (cx_alloc cx - cx_mem cx - live) /\
     cx_largest_size cx' = Z.max (cx_largest_size cx) live).
Proof.
  intros [[Hlo8 Hlo4] [Hhi32 Hhi4] Htt Htc Htp Htv H32 [Hs0 Hs8]
          (Hz0 & Hz4 & Hz32) Hap [[Hm0 Hm1] Hm2] Hvol Hfits] Ft Fc Fp Fv.
  cbv zeta.
  pose proof (tsize_nonneg tt) as Ptt. pose proof (tsize_nonneg tc) as Ptc.
  pose proof (tsize_nonneg tp) as Ptp. pose proof (tsize_nonneg tv) as Ptv.
  pose proof (tsize_aligned tt) as Att. pose proof (tsize_aligned tc) as Atc.
  pose proof (tsize_aligned tp) as Atp. pose proof (tsize_aligned tv) as Atv.
  unfold wikrt_mem_compact. cbv zeta.
  assert (Ev0 : wikrt_memory_volume cx = cx_alloc cx - cx_mem cx).
  { unfold wikrt_memory_volume. apply wrap32_small. lia. }
  rewrite Ev0.
  destruct (Z.leb_spec (cx_alloc cx - cx_mem cx) (cx_size cx)) as [_ | Hbad]; [ | lia ].
  cbn [negb].
  set (S0 := cx_ssp cx) in *. set (C := S0 + cx_size cx) in *.
  set (c0 := swap_spaces cx).
  assert (Hcap : cx_cap c0 = C).
  { subst c0. cbn [cx_cap swap_spaces]. apply wrap32_small. subst C S0. lia. }
  assert (HC4 : C mod 4 = 0) by (subst C; Z.div_mod_to_equations; lia).
  (* txn *)
  destruct (copy_r_spec lo hi c0 (cx_txn c0) tt None true fuel)
    as (m1 & v1 & E1 & H321 & Hr1 & Hf1);
    try assumption; rewrite ?Hcap; change (cx_alloc c0) with S0;
    try lia; try assumption.
  rewrite E1. cbn [bind]. cbv beta iota zeta.
  change (cx_alloc c0) with S0 in *.
  match goal with |- context [set_roots ?a ?b ?c ?d ?e] => set (c1 := set_roots a b c d e) end.
  assert (Hsrc1 : forall x, lo <= x < hi -> m1 x = cx_arena cx x).
  { intros x Hx. apply Hf1. subst C. lia. }
  (* cc *)
  destruct (copy_r_spec lo hi c1 (cx_cc c1) tc None true fuel)
    as (m2 & v2 & E2 & H322 & Hr2 & Hf2);
    try assumption;
    change (cx_alloc c1) with (S0 + tsize tt); change (cx_cap c1) with (cx_cap c0);
    change (cx_arena c1) with m1; change (cx_cc c1) with (cx_cc cx);
    rewrite ?Hcap; try lia.
  { apply (rep_frame (cx_arena cx) m1 lo hi); assumption. }
  { Z.div_mod_to_equations. lia. }
  change (cx_cc c1) with (cx_cc cx) in E2.
  rewrite E2. cbn [bind]. cbv beta iota zeta.
  change (cx_alloc c1) with (S0 + tsize tt) in *. change (cx_cap c1) with (cx_cap c0) in *.
  change (cx_arena c1) with m1 in *. rewrite Hcap in *.
  set (A1 := S0 + tsize tt) in *.
  set (A2 := A1 + tsize tc) in *.
  match goal with |- context [set_roots ?a ?b ?c ?d ?e] => set (c2 := set_roots a b c d e) end.
  assert (Hsrc2 : forall x, lo <= x < hi -> m2 x = cx_arena cx x).
  { intros x Hx. rewrite Hf2 by (subst A1 C; lia). apply Hsrc1. exact Hx. }
  (* pc *)
  destruct (copy_r_spec lo hi c2 (cx_pc c2) tp None true fuel)
    as (m3 & v3 & E3 & H323 & Hr3 & Hf3);
    try assumption;
    change (cx_alloc c2) with A2; change (cx_cap c2) with (cx_cap c0);
    change (cx_arena c2) with m2; change (cx_pc c2) with (cx_pc cx);
    rewrite ?Hcap; try (subst A2 A1 C; lia).
  { apply (rep_frame (cx_arena cx) m2 lo hi); assumption. }
  { subst A2 A1. Z.div_mod_to_equations. lia. }
  change (cx_pc c2) with (cx_pc cx) in E3.
  rewrite E3. cbn [bind]. cbv beta iota zeta.
  change (cx_alloc c2) with A2 in *. change (cx_cap c2) with (cx_cap c0) in *.
  change (cx_arena c2) with m2 in *. rewrite Hcap in *.
  set (A3 := A2 + tsize tp) in *.
  match goal with |- context [set_roots ?a ?b ?c ?d ?e] => set (c3 := set_roots a b c d e) end.
  assert (Hsrc3 : forall x, lo <= x < hi -> m3 x = cx_arena cx x).
  { intros x Hx. rewrite Hf3 by (subst A2 A1 C; lia). apply Hsrc2. exact Hx. }
  (* val *)
  destruct (copy_r_spec lo hi c3 (cx_val c3) tv None true fuel)
    as (m4 & v4 & E4 & H324 & Hr4 & Hf4);
    try assumption;
    change (cx_alloc c3) with A3; change (cx_cap c3) with (cx_cap c0);
    change (cx_arena c3) with m3; change (cx_val c3) with (cx_val cx);
    rewrite ?Hcap; try (subst A3 A2 A1 C; lia).
  { apply (rep_frame (cx_arena cx) m3 lo hi); assumption. }
  { subst A3 A2 A1. Z.div_mod_to_equations. lia. }
  change (cx_val c3) with (cx_val cx) in E4.
  rewrite E4. cbn [bind]. cbv beta iota zeta.
  change (cx_alloc c3) with A3 in *. change (cx_cap c3) with (cx_cap c0) in *.
  change (cx_arena c3) with m3 in *. rewrite Hcap in *.
  set (A4 := A3 + tsize tv) in *.
  match goal with |- context [set_roots ?a ?b ?c ?d ?e] => set (c4 := set_roots a b c d e) end.
  assert (Ev4 : wikrt_memory_volume c4 = A4 - S0).
  { unfold wikrt_memory_volume. change (cx_alloc c4) with A4. change (cx_mem c4) with S0.
    apply wrap32_small. subst A4 A3 A2 A1. lia. }
  rewrite Ev4.
  destruct (Z.leb_spec (A4 - S0) (cx_alloc cx - cx_mem cx)) as [_ | Hbad];
    [ | subst A4 A3 A2 A1; lia ].
  cbn [negb].
  assert (EA4 : S0 + (tsize tt + tsize tc + tsize tp + tsize tv) = A4)
    by (subst A4 A3 A2 A1; lia).
  assert (EL : tsize tt + tsize tc + tsize tp + tsize tv = A4 - S0) by lia.
  rewrite EA4, EL.
  assert (M1 : A1 mod 4 = 0) by (subst A1; clear - Hs8 Att; Z.div_mod_to_equations; lia).
  assert (M2 : A2 mod 4 = 0) by (subst A2; clear - M1 Atc; Z.div_mod_to_equations; lia).
  assert (M3 : A3 mod 4 = 0) by (subst A3; clear - M2 Atp; Z.div_mod_to_equations; lia).
  assert (M0 : S0 mod 4 = 0) by (clear - Hs8; Z.div_mod_to_equations; lia).
  eexists. split; [ reflexivity | ].
  cbn [cx_arena cx_val cx_pc cx_cc cx_txn cx_ssp cx_mem cx_alloc cx_cap cx_size cx_ecode
       cx_compaction_count cx_compaction_size cx_bytes_compacted cx_bytes_collected
       cx_largest_size set_stats].
  change (cx_arena c4) with m4. change (cx_val c4) with v4.
  change (cx_txn c4) with v1. change (cx_cc c4) with v2. change (cx_pc c4) with v3.
  change (cx_ssp c4) with (cx_mem cx). change (cx_mem c4) with S0.
  change (cx_alloc c4) with A4. change (cx_cap c4) with (cx_cap c0).
  change (cx_size c4) with (cx_size cx). change (cx_ecode c4) with (cx_ecode cx).
  change (cx_compaction_count c4) with (cx_compaction_count cx).
  change (cx_bytes_compacted c4) with (cx_bytes_compacted cx).
  change (cx_bytes_collected c4) with (cx_bytes_collected cx).
  change (cx_largest_size c4) with (cx_largest_size cx).
  rewrite Hcap.
  split.
  { split; [ | split; [ | split ] ].
    - apply (rep_region_mono m4 S0 A1 S0 A4); [ lia | subst A4 A3 A2; lia | ].
      apply (rep_frame m1 m4 S0 A1); [ | exact M0 | exact M1 | exact Hr1 ].
      intros x Hx. rewrite Hf4, Hf3, Hf2 by (subst A3 A2; lia). reflexivity.
    - apply (rep_region_mono m4 A1 A2 S0 A4); [ subst A1; lia | subst A4 A3; lia | ].
      apply (rep_frame m2 m4 A1 A2); [ | exact M1 | exact M2 | exact Hr2 ].
      intros x Hx. rewrite Hf4, Hf3 by (subst A3; lia). reflexivity.
    - apply (rep_region_mono m4 A2 A3 S0 A4); [ subst A2 A1; lia | subst A4; lia | ].
      apply (rep_frame m3 m4 A2 A3); [ | exact M2 | exact M3 | exact Hr3 ].
      intros x Hx. rewrite Hf4 by lia. reflexivity.
    - apply (rep_region_mono m4 A3 A4 S0 A4); [ subst A3 A2 A1; lia | lia | ].
      exact Hr4. }
  split; [ repeat split | ].
  split; [ exact H324 | ].
  split.
  { intros x Hx. rewrite Hf4, Hf3, Hf2, Hf1 by (subst A3 A2 A1 C; lia). reflexivity. }
  split; [ reflexivity | ]. split; [ reflexivity | ]. split; [ reflexivity | ].
  split; [ f_equal; lia | ].
  destruct (Z.ltb_spec (cx_largest_size cx) (A4 - S0)); lia.
Qed.
(** X6. Compaction preserves the four roots.  [wikrt_mem_compact] returns
    (neither of its two assertions fails); afterwards the transaction,
    continuation, program and value registers denote the same trees as
    before, now packed into the first [live] bytes of the former scratch
    space, which has become the active space; the allocation pointer
    stands right behind them; the error register is unchanged and no word
    outside the former scratch space is written. *)
Theorem compaction_preserves_roots (cx : wikrt_cx) (lo hi : Z) (tt tc tp tv : tree)
    (fuel : nat) :
  gc_ready cx lo hi tt tc tp tv ->
  (nodes tt < fuel)%nat -> (nodes tc < fuel)%nat ->
  (nodes tp < fuel)%nat -> (nodes tv < fuel)%nat ->
  let s0 := cx_ssp cx in
  let live := tsize tt + tsize tc + tsize tp + tsize tv in
  exists cx',
    wikrt_mem_compact fuel cx = Ret cx' /\
    rep (cx_arena cx') s0 (s0 + live) tt (cx_txn cx') /\
    rep (cx_arena cx') s0 (s0 + live) tc (cx_cc cx') /\
    rep (cx_arena cx') s0 (s0 + live) tp (cx_pc cx') /\
    rep (cx_arena cx') s0 (s0 + live) tv (cx_val cx') /\
    cx_mem cx' = s0 /\ cx_ssp cx' = cx_mem cx /\
    cx_alloc cx' = s0 + live /\ cx_cap cx' = s0 + cx_size cx /\
    cx_ecode cx' = cx_ecode cx /\
    (forall x, x < s0 \/ s0 + cx_size cx <= x -> cx_arena cx' x = cx_arena cx x).
Proof.
  intros Hgc Ft Fc Fp Fv. cbv zeta.
  destruct (compact_full cx lo hi tt tc tp tv fuel Hgc Ft Fc Fp Fv)
    as (cx' & E & (R1 & R2 & R3 & R4) & (G1 & G2 & G3 & G4 & _ & G6) & _ & Hfr & _).
  exists cx'. repeat (split; [ assumption | ]). exact Hfr.
Qed.

Lemma compaction_preserves_roots_witness :
  exists cx',
    wikrt_mem_compact 3 cx_two_spaces = Ret cx' /\
    rep (cx_arena cx') 2048 2064
        (TCell WIKRT_P (TBox otag_linear_block (TConst WIKRT_UNIT_INR)) (TConst WIKRT_UNIT))
        (cx_val cx') /\
    cx_alloc cx' = 2064.
Proof.
  assert (F0 : (nodes (TConst WIKRT_UNIT_INR) < 3)%nat) by (cbn; lia).
  assert (F1 : (nodes (TCell WIKRT_P (TBox otag_linear_block (TConst WIKRT_UNIT_INR))
                             (TConst WIKRT_UNIT)) < 3)%nat) by (cbn; lia).
  destruct (compaction_preserves_roots cx_two_spaces 16 32 _ _ _ _ 3
              two_spaces_gc_ready F0 F0 F0 F1)
    as (cx' & E & _ & _ & _ & R & _ & _ & A & _).
  exists cx'. split; [ exact E | ]. split; [ exact R | exact A ].
Defined.

(** X7. Compaction keeps the books.  After [wikrt_mem_compact] the
    compaction count is one higher, the recorded compaction size is the
    live volume (which is also the new memory volume), every byte of the
    old volume is accounted for as either compacted or collected, and the
    largest size seen is the maximum of the old one and the live volume. *)
Theorem compaction_accounting (cx : wikrt_cx) (lo hi : Z) (tt tc tp tv : tree)
    (fuel : nat) :
  gc_ready cx lo hi tt tc tp tv ->
  (nodes tt < fuel)%nat -> (nodes tc < fuel)%nat ->
  (nodes tp < fuel)%nat -> (nodes tv < fuel)%nat ->
  let live := tsize tt + tsize tc + tsize tp + tsize tv in
  exists cx',
    wikrt_mem_compact fuel cx = Ret cx' /\
    cx_compaction_count cx' = wrap32 (cx_compaction_count cx + 1) /\
    cx_compaction_size cx' = live /\
    wikrt_memory_volume cx' = live /\
    cx_bytes_compacted cx' = cx_bytes_compacted cx + live /\
    cx_bytes_collected cx' =
      cx_bytes_collected cx + (wikrt_memory_volume cx - live) /\
    cx_bytes_compacted cx' + cx_bytes_collected cx'
      = cx_bytes_compacted cx + cx_bytes_collected cx + wikrt_memory_volume cx /\
    cx_bytes_collected cx <= cx_bytes_collected cx' /\
    cx_largest_size cx' = Z.max (cx_largest_size cx) live.
Proof.
  intros Hgc Ft Fc Fp Fv. cbv zeta.
  destruct (compact_full cx lo hi tt tc tp tv fuel Hgc Ft Fc Fp Fv)
    as (cx' & E & _ & (G1 & _ & G3 & _) & _ & _ & (S1 & S2 & S3 & S4 & S5)).
  destruct Hgc as [_ _ _ _ _ _ _ [Hs0 _] (Hz0 & _ & Hz32) _ [[Hm0 Hm1] Hm2] Hvol Hfits].
  pose proof (tsize_nonneg tt) as Ptt. pose proof (tsize_nonneg tc) as Ptc.
  pose proof (tsize_nonneg tp) as Ptp. pose proof (tsize_nonneg tv) as Ptv.
  assert (V0 : wikrt_memory_volume cx = cx_alloc cx - cx_mem cx).
  { unfold wikrt_memory_volume. apply wrap32_small. lia. }
  assert (V1 : wikrt_memory_volume cx'
               = tsize tt + tsize tc + tsize tp + tsize tv).
  { unfold wikrt_memory_volume. rewrite G1, G3.
    replace (cx_ssp cx + (tsize tt + tsize tc + tsize tp + tsize tv) - cx_ssp cx)
      with (tsize tt + tsize tc + tsize tp + tsize tv) by lia.
    apply wrap32_small. lia. }
  exists cx'. rewrite V0, V1, S3, S4.
  split; [ exact E | ]. split; [ exact S1 | ]. split; [ exact S2 | ].
  split; [ reflexivity | ]. split; [ reflexivity | ]. split; [ reflexivity | ].
  split; [ lia | ]. split; [ lia | exact S5 ].
Qed.

Lemma compaction_accounting_witness :
  exists cx',
    wikrt_mem_compact 3 cx_two_spaces = Ret cx' /\
    cx_compaction_size cx' = 16 /\ cx_bytes_collected cx' = 0.
Proof.
  assert (F0 : (nodes (TConst WIKRT_UNIT_INR) < 3)%nat) by (cbn; lia).
  assert (F1 : (nodes (TCell WIKRT_P (TBox otag_linear_block (TConst WIKRT_UNIT_INR))
                             (TConst WIKRT_UNIT)) < 3)%nat) by (cbn; lia).
  destruct (compaction_accounting cx_two_spaces 16 32 _ _ _ _ 3
              two_spaces_gc_ready F0 F0 F0 F1)
    as (cx' & E & _ & S & _ & _ & C & _).
  exists cx'. split; [ exact E | ]. split; [ exact S | exact C ].
Defined.

(** X8. Reservation.  [wikrt_mem_reserve] answers [true] exactly when the
    request is available at once or fits beside the live data after a
    compaction; after a [true] answer the requested bytes are available
    (also when the reservation lowers the capacity) and the error register
    is unchanged; after [false] a clean context has latched [CXFULL]; in
    every case the value register still denotes the same tree. *)
Theorem mem_reserve_spec (cx : wikrt_cx) (lo hi : Z) (tt tc tp tv : tree)
    (fuel : nat) (sz : Z) :
  gc_ready cx lo hi tt tc tp tv ->
  (nodes tt < fuel)%nat -> (nodes tc < fuel)%nat ->
  (nodes tp < fuel)%nat -> (nodes tv < fuel)%nat ->
  0 <= sz -> 0 <= cx_largest_size cx -> cx_largest_size cx + sz < 2 ^ 32 ->
  let live := tsize tt + tsize tc + tsize tp + tsize tv in
  exists cx' lo' hi',
    wikrt_mem_reserve fuel cx sz
      = Ret (cx', wikrt_mem_available cx sz || (sz <=? cx_size cx - live)) /\
    rep (cx_arena cx') lo' hi' tv (cx_val cx') /\
    (wikrt_mem_available cx sz || (sz <=? cx_size cx - live) = true ->
       wikrt_mem_available cx' sz = true /\ cx_ecode cx' = cx_ecode cx) /\
    (wikrt_mem_available cx sz || (sz <=? cx_size cx - live) = false ->
       cx_ecode cx' = match cx_ecode cx with WIKRT_OK => WIKRT_CXFULL | e => e end).
Proof.
  intros Hgc Ft Fc Fp Fv Hsz Hl0 Hl32. cbv zeta.
  unfold wikrt_mem_reserve.
  destruct (wikrt_mem_available cx sz) eqn:Av.
  { exists cx, lo, hi. cbn [orb]. split; [ reflexivity | ].
    split; [ apply Hgc | ]. split; [ intros _; split; [ exact Av | reflexivity ] | ].
    discriminate. }
  cbn [orb].
  destruct (compact_full cx lo hi tt tc tp tv fuel Hgc Ft Fc Fp Fv)
    as (cx1 & E & (_ & _ & _ & R4) & (G1 & G2 & G3 & G4 & G5 & G6) & _ & _
        & (_ & _ & _ & _ & S5)).
  destruct Hgc as [_ _ _ _ _ _ _ [Hs0 _] (Hz0 & _ & Hz32) _ [[Hm0 Hm1] Hm2] Hvol Hfits].
  pose proof (tsize_nonneg tt) as Ptt. pose proof (tsize_nonneg tc) as Ptc.
  pose proof (tsize_nonneg tp) as Ptp. pose proof (tsize_nonneg tv) as Ptv.
  set (live := tsize tt + tsize tc + tsize tp + tsize tv) in *.
  unfold wikrt_mem_gc_then_reserve. rewrite E. cbn [bind].
  assert (Eav : wrap32 (cx_cap cx1 - cx_alloc cx1) = cx_size cx - live).
  { rewrite G3, G4. replace (cx_ssp cx + cx_size cx - (cx_ssp cx + live))
      with (cx_size cx - live) by lia.
    apply wrap32_small. lia. }
  unfold wikrt_mem_available at 1. rewrite Eav.
  destruct (Z.leb_spec sz (cx_size cx - live)) as [Hfit | Hno]; cbn [negb].
  - cbv zeta. rewrite ?Eav.
    set (inuse := wrap32 (cx_largest_size cx1 + sz)).
    set (target := wrap32 (cx_alloc cx1 + wrap32 (inuse * WIKRT_MEM_FACTOR))).
    set (desired := WIKRT_LNBUFF target (Z.shiftl WIKRT_MEM_PAGEMB 20)).
    destruct (((cx_size cx - live) / WIKRT_MEM_FACTOR >? inuse)
              && (target <=? desired) && (desired <? cx_cap cx1)) eqn:Hc.
    + apply andb_prop in Hc. destruct Hc as [Hc H3]. apply andb_prop in Hc.
      destruct Hc as [H1 H2].
      apply Z.gtb_lt in H1. apply Z.leb_le in H2. apply Z.ltb_lt in H3.
      assert (L1 : 0 <= cx_largest_size cx1 /\ cx_largest_size cx1 + sz < 2 ^ 32).
      { rewrite S5. lia. }
      assert (Einuse : inuse = cx_largest_size cx1 + sz).
      { unfold inuse. apply wrap32_small. lia. }
      assert (Hbig : 2 * inuse < cx_size cx - live).
      { unfold WIKRT_MEM_FACTOR in H1.
        pose proof (Z.mul_div_le (cx_size cx - live) 2 ltac:(lia)). lia. }
      assert (Etarget : target = cx_alloc cx1 + 2 * inuse).
      { unfold target, WIKRT_MEM_FACTOR.
        rewrite (wrap32_small (inuse * 2)) by lia.
        rewrite wrap32_small by lia. lia. }
      exists (set_cap cx1 desired), (cx_ssp cx), (cx_ssp cx + live).
      split; [ reflexivity | ]. split; [ exact R4 | ].
      split; [ intros _ | discriminate ].
      split; [ | exact G6 ].
      unfold wikrt_mem_available. cbn [cx_cap cx_alloc set_cap].
      apply Z.leb_le.
      rewrite wrap32_small; lia.
    + exists cx1, (cx_ssp cx), (cx_ssp cx + live).
      split; [ reflexivity | ]. split; [ exact R4 | ].
      split; [ intros _ | discriminate ].
      split; [ | exact G6 ].
      unfold wikrt_mem_available. rewrite Eav. apply Z.leb_le. exact Hfit.
  - exists (wikrt_set_error cx1 WIKRT_CXFULL), (cx_ssp cx), (cx_ssp cx + live).
    split; [ reflexivity | ].
    split.
    { unfold wikrt_set_error. destruct (_ && _); exact R4. }
    split; [ discriminate | intros _ ].
    unfold wikrt_set_error, wikrt_has_error, wikrt_cx_relax. rewrite G6.
    destruct (cx_ecode cx); cbn; try reflexivity; exact G6.
Qed.
Lemma full_space_gc_ready :
  gc_ready cx_full_space 16 32 (TConst WIKRT_UNIT_INR) (TConst WIKRT_UNIT_INR)
    (TConst WIKRT_UNIT_INR)
    (TCell WIKRT_P (TBox otag_linear_block (TConst WIKRT_UNIT_INR)) (TConst WIKRT_UNIT)).
Proof.
  constructor; try (split; reflexivity); try reflexivity; try (cbn; lia).
  - cbn [rep]. repeat split; try reflexivity; try (vm_compute; congruence).
    left. reflexivity.
  - apply arena_of_32. reflexivity.
Qed.

Lemma mem_reserve_spec_witness :
  exists cx', wikrt_mem_reserve 3 cx_full_space 8 = Ret (cx', true) /\
              wikrt_mem_available cx' 8 = true /\ cx_ecode cx' = WIKRT_OK.
Proof.
  assert (F0 : (nodes (TConst WIKRT_UNIT_INR) < 3)%nat) by (cbn; lia).
  assert (F1 : (nodes (TCell WIKRT_P (TBox otag_linear_block (TConst WIKRT_UNIT_INR))
                             (TConst WIKRT_UNIT)) < 3)%nat) by (cbn; lia).
  assert (H0 : 0 <= 8) by lia.
  assert (H1 : 0 <= cx_largest_size cx_full_space) by (cbn; lia).
  assert (H2 : cx_largest_size cx_full_space + 8 < 2 ^ 32) by (cbn; lia).
  destruct (mem_reserve_spec cx_full_space 16 32 _ _ _ _ 3 8
              full_space_gc_ready F0 F0 F0 F1 H0 H1 H2)
    as (cx' & lo' & hi' & E & _ & Hok & _).
  exists cx'. split; [ exact E | ]. apply Hok. reflexivity.
Defined.

(** ** Copy, drop and trash *)

(** X9. Copy duplicates.  When the value on top of the stack exposes
    neither an affine block nor a pending value, [wikrt_copy] raises no
    error and leaves [(copy * (original * e))]: the copy denotes the same
    tree in fresh cells above the old allocation pointer, and the
    original, its stack cell and everything else in the value's region are
    untouched. *)
Theorem copy_duplicates (bypass : bool) (cx : wikrt_cx) (lo hi : Z) (t : tree)
    (fuel : nat) :
  copy_ready cx lo hi t -> (nodes t < fuel)%nat ->
  wikrt_ss_copyable (tflags t) = true ->
  exists cx',
    wikrt_copy bypass fuel cx = Ret cx' /\
    cx_ecode cx' = cx_ecode cx /\
    wikrt_p (cx_val cx') = true /\
    rep (cx_arena cx') (cx_alloc cx) (cx_alloc cx + tsize t) t (stack_fst cx') /\
    stack_tail cx' = cx_val cx /\
    rep (cx_arena cx') lo hi t (stack_snd cx') /\
    stack_rest2 cx' = stack_tail cx /\
    (forall x, lo <= x < hi -> load cx' x = load cx x) /\
    cx_alloc cx' = cx_alloc cx + tsize t + WIKRT_CELLSIZE.
Proof.
  intros Hready Hfuel Hc.
  destruct (copy_spec bypass cx lo hi t fuel Hready Hfuel) as (cx' & Hd & E).
  rewrite Z.lor_0_l, Hc in E.
  destruct Hd as [D1 D2 D3 D4 D5 D6 D7].
  destruct Hready as [[_ Hlo4] [_ Hhi4] _ [Hc1 Hc2] Hr _ _ _ _ _ _ _].
  exists cx'.
  split; [ exact E | ]. split; [ exact D6 | ]. split; [ exact D2 | ].
  split; [ exact D3 | ]. split; [ exact D4 | ].
  unfold stack_snd, stack_rest2, stack_tail. rewrite D4.
  assert (Hcell : forall k, 0 <= k < 8 ->
            load cx' (wikrt_pval (cx_val cx) + k) = load cx (wikrt_pval (cx_val cx) + k)).
  { intros k Hk. apply D5. unfold WIKRT_CELLSIZE in *. lia. }
  split.
  { pose proof (Hcell 0 ltac:(lia)) as H0. rewrite Z.add_0_r in H0. rewrite H0.
    apply (rep_frame (cx_arena cx) (cx_arena cx') lo hi); assumption. }
  split; [ apply (Hcell sizeof_val); unfold sizeof_val; lia | ].
  split; [ exact D5 | exact D1 ].
Qed.

Lemma copy_duplicates_witness :
  exists cx', wikrt_copy false 3 cx_hidden_block = Ret cx' /\
              cx_ecode cx' = WIKRT_OK /\ stack_tail cx' = 17.
Proof.
  assert (R : copy_ready cx_hidden_block 16 40
                (TBox otag_lazy_opval (TBox otag_linear_block (TConst WIKRT_UNIT_INR))))
    by exact hidden_block_ready.
  assert (F : (nodes (TBox otag_lazy_opval
                        (TBox otag_linear_block (TConst WIKRT_UNIT_INR))) < 3)%nat)
    by (cbn; lia).
  destruct (copy_duplicates false cx_hidden_block 16 40 _ 3 R F eq_refl)
    as (cx' & E & He & _ & _ & Ht & _).
  exists cx'. split; [ exact E | ]. split; [ exact He | exact Ht ].
Defined.
(** X10. Drop pops and erases nothing.  When the value on top of the
    stack exposes neither a relevant block nor a pending value,
    [wikrt_drop] raises no error, leaves the rest of the stack in the
    value register, allocates nothing, and writes only into the scratch
    stack: at most one word per object of the dropped value, starting at
    [ssp]. *)
Theorem drop_pops (cx : wikrt_cx) (lo hi : Z) (t : tree) (fuel : nat) :
  lo mod 4 = 0 -> hi mod 4 = 0 ->
  wikrt_p (cx_val cx) = true ->
  rep (cx_arena cx) lo hi t (stack_fst cx) ->
  (cx_ssp cx + Z.of_nat (S (nodes t)) * sizeof_val <= lo \/ hi <= cx_ssp cx) ->
  (nodes t < fuel)%nat ->
  wikrt_ss_droppable (tflags t) = true ->
  exists cx',
    wikrt_drop fuel cx = Ret cx' /\
    cx_val cx' = stack_tail cx /\
    cx_ecode cx' = cx_ecode cx /\ cx_alloc cx' = cx_alloc cx /\
    (forall x, x < cx_ssp cx \/ cx_ssp cx + Z.of_nat (S (nodes t)) * sizeof_val <= x ->
               load cx' x = load cx x).
Proof.
  intros Hlo Hhi Hp Hr Hd Hfuel Hdrop. unfold stack_fst, stack_tail in *.
  unfold wikrt_drop. rewrite Hp. cbn [negb]. cbv zeta.
  set (cx0 := set_val cx (load cx (wikrt_pval (cx_val cx) + sizeof_val))).
  unfold wikrt_drop_v.
  destruct (drop_sv_spec lo hi cx0 (cx_ssp cx0) (load cx (wikrt_pval (cx_val cx))) t
              (Some 0) fuel Hlo Hhi) as (m' & E & Hfr); try assumption.
  change (load cx0 (wikrt_pval (cx_val cx))) with (load cx (wikrt_pval (cx_val cx))).
  rewrite E. cbn [bind ss_or]. cbv beta iota zeta.
  rewrite Z.lor_0_l, Hdrop. cbn [negb].
  eexists. split; [ reflexivity | ].
  cbn [cx_val cx_ecode cx_alloc set_arena]. 
  split; [ reflexivity | ]. split; [ reflexivity | ]. split; [ reflexivity | ].
  intros x Hx. unfold load. cbn [cx_arena set_arena]. apply Hfr. exact Hx.
Qed.

Lemma drop_pops_witness :
  exists cx', wikrt_drop 3 cx_hidden_block = Ret cx' /\
              cx_val cx' = WIKRT_UNIT /\ cx_ecode cx' = WIKRT_OK.
Proof.
  assert (R : rep (cx_arena cx_hidden_block) 16 40
                (TBox otag_lazy_opval (TBox otag_linear_block (TConst WIKRT_UNIT_INR)))
                (stack_fst cx_hidden_block)).
  { cbn [rep]. repeat split; try reflexivity; vm_compute; congruence. }
  assert (S : cx_ssp cx_hidden_block
              + Z.of_nat (S (nodes (TBox otag_lazy_opval
                                      (TBox otag_linear_block (TConst WIKRT_UNIT_INR)))))
                * sizeof_val <= 16 \/ 40 <= cx_ssp cx_hidden_block).
  { left. vm_compute. discriminate. }
  assert (F : (nodes (TBox otag_lazy_opval
                        (TBox otag_linear_block (TConst WIKRT_UNIT_INR))) < 3)%nat)
    by (cbn; lia).
  destruct (drop_pops cx_hidden_block 16 40 _ 3 eq_refl eq_refl eq_refl R S F eq_refl)
    as (cx' & E & Hv & He & _).
  exists cx'. split; [ exact E | ]. split; [ exact Hv | exact He ].
Defined.

Lemma trash_otag_facts (f : Z) :
  let otag := Z.lor WIKRT_OTAG_TRASH (wikrt_ss_to_block_flags f) in
  LOBYTE otag = WIKRT_OTAG_TRASH /\
  Z.land (Z.shiftr otag 8) (Z.lor WIKRT_SS_REL WIKRT_SS_AFF) = Z.land f 3 /\
  0 <= otag < 2 ^ 32.
Proof.
  cbv zeta. unfold wikrt_ss_to_block_flags.
  change (Z.lor WIKRT_SS_REL WIKRT_SS_AFF) with 3.
  assert (Hk : 0 <= Z.land f 3 < 4).
  { change 3 with (Z.ones 2). rewrite Z.land_ones by lia.
    apply Z.mod_pos_bound. reflexivity. }
  set (k := Z.land f 3) in *.
  assert (Hc : k = 0 \/ k = 1 \/ k = 2 \/ k = 3) by lia.
  destruct Hc as [-> | [-> | [-> | ->]]]; vm_compute; repeat split; congruence.
Qed.

(** X11. Trash keeps the substructure.  [wikrt_trash] drops the value
    on top of the stack and leaves a placeholder in its stack cell: the
    constant [NORMAL_TRASH] when the value exposed no substructure (then
    nothing is allocated), otherwise a one-cell [TRASH] object whose
    header carries exactly the relevant and affine bits the value exposed.
    The placeholder therefore is as copyable and as droppable as far as
    those two attributes go; a pending mark is forgotten.  The rest of the
    stack and the error register are unchanged. *)
Theorem trash_keeps_substructure (cx : wikrt_cx) (lo hi : Z) (t : tree) (fuel : nat) :
  lo mod 4 = 0 -> hi mod 4 = 0 ->
  wikrt_p (cx_val cx) = true ->
  rep (cx_arena cx) lo hi t (stack_fst cx) ->
  (cx_ssp cx + Z.of_nat (S (nodes t)) * sizeof_val <= Z.min lo (wikrt_pval (cx_val cx))
   \/ cx_cap cx <= cx_ssp cx) ->
  (nodes t < fuel)%nat ->
  wikrt_pval (cx_val cx) + 8 <= cx_alloc cx -> hi <= cx_alloc cx ->
  0 <= cx_alloc cx -> cx_alloc cx mod 8 = 0 ->
  cx_alloc cx + 8 <= cx_cap cx -> cx_cap cx < 2 ^ 32 ->
  exists cx' t',
    wikrt_trash fuel cx = Ret cx' /\
    rep (cx_arena cx') (cx_alloc cx) (cx_alloc cx + 8) t' (stack_fst cx') /\
    tflags t' = Z.land (tflags t) 3 /\
    (tflags t = 0 -> t' = TConst WIKRT_NORMAL_TRASH /\ cx_alloc cx' = cx_alloc cx) /\
    (tflags t <> 0 ->
       t' = TBox (Z.lor WIKRT_OTAG_TRASH (wikrt_ss_to_block_flags (tflags t)))
                 (TConst WIKRT_UNIT_INR) /\
       cx_alloc cx' = cx_alloc cx + 8) /\
    cx_val cx' = cx_val cx /\ stack_tail cx' = stack_tail cx /\
    cx_ecode cx' = cx_ecode cx.
Proof.
  intros Hlo Hhi Hp Hr Hd Hfuel Hpv Hhia Ha0 Ha8 Hcap H32.
  unfold stack_fst, stack_tail in *.
  unfold wikrt_trash. rewrite Hp. cbn [negb]. cbv zeta.
  unfold wikrt_drop_v.
  destruct (drop_sv_spec lo hi cx (cx_ssp cx) (load cx (wikrt_pval (cx_val cx))) t
              (Some 0) fuel Hlo Hhi Hr) as (m' & E & Hfr); [ lia | exact Hfuel | ].
  rewrite E. cbn [bind ss_or]. cbv beta iota zeta. rewrite Z.lor_0_l.
  pose proof (pval_aligned (cx_val cx)) as Ax.
  set (pv := wikrt_pval (cx_val cx)) in *.
  set (A := cx_alloc cx) in *.
  assert (Hkeep : forall x, pv <= x < cx_cap cx -> m' x = cx_arena cx x).
  { intros x Hx. apply Hfr. lia. }
  unfold wikrt_erase_trashval. cbn [cx_val set_arena]. fold pv.
  destruct (Z.eqb_spec 0 (tflags t)) as [Hz | Hnz].
  - (* no substructure: the constant *)
    exists (store (set_arena cx m') pv WIKRT_NORMAL_TRASH), (TConst WIKRT_NORMAL_TRASH).
    split; [ reflexivity | ].
    unfold load, store. cbn [cx_arena cx_val cx_alloc cx_ecode set_arena]. fold pv.
    rewrite upd_same, upd_other by (unfold sizeof_val; lia).
    split; [ cbn [rep]; split; reflexivity | ].
    split; [ rewrite <- Hz; reflexivity | ].
    split; [ intros _; split; reflexivity | ].
    split; [ intros N; congruence | ].
    split; [ reflexivity | ].
    split; [ apply Hkeep; unfold sizeof_val; lia | reflexivity ].
  - (* a trash object carrying the flags *)
    destruct (trash_otag_facts (tflags t)) as (T1 & T2 & T3).
    set (otag := Z.lor WIKRT_OTAG_TRASH (wikrt_ss_to_block_flags (tflags t))) in *.
    set (c1 := store (set_arena cx m') pv WIKRT_UNIT_INR).
    rewrite (wrap_otag_fresh fuel c1 otag) by (try exact Hp; cbn; fold A; lia).
    eexists. exists (TBox otag (TConst WIKRT_UNIT_INR)).
    split; [ reflexivity | ].
    assert (Vt : wikrt_vtag (wikrt_tag_addr WIKRT_O A) = WIKRT_O).
    { apply tag_addr_vtag; [ unfold WIKRT_O; lia | exact Ha8 ]. }
    assert (Va : wikrt_pobj (wikrt_tag_addr WIKRT_O A) = A).
    { apply tag_addr_vaddr; [ unfold WIKRT_O; lia | exact Ha8 | lia ]. }
    unfold top, load, store, c1.
    cbn [cx_arena cx_val cx_alloc cx_ecode set_arena set_alloc store]. fold pv. fold A.
    rewrite !upd_same.
    split.
    { cbn [rep]. cbv zeta. rewrite Va.
      rewrite (upd_other _ pv _ A), (upd_other _ pv _ (A + sizeof_val))
        by (unfold sizeof_val; lia).
      rewrite upd_same. rewrite (upd_other _ (A + sizeof_val) _ A) by (unfold sizeof_val; lia).
      rewrite upd_same.
      split; [ exact Vt | ]. split; [ lia | ]. split; [ unfold WIKRT_CELLSIZE; lia | ].
      split; [ reflexivity | ].
      split; [ unfold box_otag; rewrite T1; reflexivity | ].
      split; reflexivity. }
    split.
    { cbn [tflags]. rewrite T1. change (WIKRT_OTAG_TRASH =? WIKRT_OTAG_PEND) with false.
      change (WIKRT_OTAG_TRASH =? WIKRT_OTAG_TRASH) with true. cbn [orb].
      cbv iota. rewrite T2. apply Z.lor_0_r. }
    split; [ intros Z0; congruence | ].
    split; [ intros _; split; reflexivity | ].
    split; [ reflexivity | ].
    split; [ | reflexivity ].
    rewrite !upd_other by (unfold sizeof_val; lia).
    apply Hkeep. unfold sizeof_val; lia.
Qed.

Lemma trash_keeps_substructure_witness :
  exists cx',
    wikrt_trash 3 cx_linear_block = Ret cx' /\
    rep (cx_arena cx') 32 40
        (TBox (Z.lor WIKRT_OTAG_TRASH (wikrt_ss_to_block_flags 3)) (TConst WIKRT_UNIT_INR))
        (stack_fst cx') /\
    cx_ecode cx' = WIKRT_OK.
Proof.
  assert (R : rep (cx_arena cx_linear_block) 16 32
                (TBox otag_linear_block (TConst WIKRT_UNIT_INR))
                (stack_fst cx_linear_block)).
  { cbn [rep]. repeat split; try reflexivity; vm_compute; congruence. }
  assert (S : cx_ssp cx_linear_block
              + Z.of_nat (S (nodes (TBox otag_linear_block (TConst WIKRT_UNIT_INR))))
                * sizeof_val <= Z.min 16 (wikrt_pval (cx_val cx_linear_block))
              \/ cx_cap cx_linear_block <= cx_ssp cx_linear_block).
  { left. vm_compute. discriminate. }
  assert (F : (nodes (TBox otag_linear_block (TConst WIKRT_UNIT_INR)) < 3)%nat)
    by (cbn; lia).
  assert (H2 : wikrt_pval (cx_val cx_linear_block) + 8 <= cx_alloc cx_linear_block)
    by (vm_compute; discriminate).
  assert (H3 : 0 <= cx_alloc cx_linear_block) by (vm_compute; discriminate).
  assert (H4 : 32 <= cx_alloc cx_linear_block) by (vm_compute; discriminate).
  assert (H5 : cx_alloc cx_linear_block + 8 <= cx_cap cx_linear_block)
    by (vm_compute; discriminate).
  destruct (trash_keeps_substructure cx_linear_block 16 32 _ 3
              eq_refl eq_refl eq_refl R S F H2 H4 H3 eq_refl H5 eq_refl)
    as (cx' & t' & E & Hr & _ & _ & Hb & _ & _ & He).
  destruct Hb as [-> _]; [ vm_compute; discriminate | ].
  exists cx'. split; [ exact E | ]. split; [ exact Hr | exact He ].
Defined.

(** ** Integers as decimal text *)

Lemma quot10 (n : Z) : 0 <= n -> Z.quot n 10 = n / 10 /\ Z.rem n 10 = n mod 10.
Proof.
  intros H. split.
  - apply Z.quot_div_nonneg; lia.
  - apply Z.rem_mod_nonneg; lia.
Qed.

Lemma pow10_succ (k : nat) : 10 ^ Z.of_nat (S k) = 10 * 10 ^ Z.of_nat k.
Proof. rewrite Nat2Z.inj_succ, Z.pow_succ_r by lia. reflexivity. Qed.

Lemma digits_of_length (fuel : nat) :
  forall n, (0 < fuel)%nat -> 0 <= n < 10 ^ Z.of_nat fuel ->
    (1 <= length (digits_of fuel n) <= fuel)%nat /\
    n < 10 ^ Z.of_nat (length (digits_of fuel n)) /\
    (10 <= n -> 10 ^ (Z.of_nat (length (digits_of fuel n)) - 1) <= n).
Proof.
  induction fuel as [ | f IH ]; intros n Hf Hn.
  - lia.
  - cbn [digits_of]. destruct (Z.ltb_spec n 10) as [Hs | Hb].
    + cbn [length]. split; [ lia | ]. split; [ cbn; lia | lia ].
    + rewrite pow10_succ in Hn.
      assert (Hq : 0 <= n / 10 < 10 ^ Z.of_nat f).
      { split; [ apply Z.div_pos; lia | apply Z.div_lt_upper_bound; lia ]. }
      assert (Hq1 : 1 <= n / 10) by (apply Z.div_le_lower_bound; lia).
      assert (Hf0 : (0 < f)%nat).
      { destruct f; [ cbn in Hq; lia | lia ]. }
      destruct (IH _ Hf0 Hq) as (L1 & L2 & L3).
      rewrite length_app. cbn [length]. rewrite Nat.add_1_r.
      split; [ lia | ].
      rewrite pow10_succ.
      pose proof (Z.div_mod n 10 ltac:(lia)) as Hdm.
      pose proof (Z.mod_pos_bound n 10 ltac:(lia)) as Hmb.
      split; [ lia | ]. intros _.
      rewrite Nat2Z.inj_succ. replace (Z.succ (Z.of_nat (length (digits_of f (n / 10)))) - 1)
        with (Z.of_nat (length (digits_of f (n / 10)))) by lia.
      destruct (Z.ltb_spec (n / 10) 10) as [Hs' | Hb'].
      * assert (El : length (digits_of f (n / 10)) = 1%nat).
        { destruct f as [ | f' ]; [ cbn in L1; lia | ].
          cbn [digits_of]. destruct (Z.ltb_spec (n / 10) 10); [ reflexivity | lia ]. }
        rewrite El. cbn. lia.
      * specialize (L3 Hb').
        destruct (length (digits_of f (n / 10))) as [ | k ] eqn:Ek; [ lia | ].
        rewrite pow10_succ.
        replace (Z.of_nat (S k) - 1) with (Z.of_nat k) in L3 by lia. lia.
Qed.

Lemma istr_abs_app (l : list Z) (c : Z) :
  istr_abs (l ++ [c]) = 10 * istr_abs l + (c - 48).
Proof. unfold istr_abs. rewrite fold_left_app. reflexivity. Qed.

Lemma digits_of_spec (fuel : nat) :
  forall n, (0 < fuel)%nat -> 0 <= n < 10 ^ Z.of_nat fuel ->
    Forall (fun c => 48 <= c <= 57) (digits_of fuel n) /\
    istr_abs (digits_of fuel n) = n /\
    (hd 0 (digits_of fuel n) = 48 -> n = 0) /\
    (n = 0 -> digits_of fuel n = [48]).
Proof.
  induction fuel as [ | f IH ]; intros n Hf Hn.
  - lia.
  - cbn [digits_of]. destruct (Z.ltb_spec n 10) as [Hs | Hb].
    + split; [ constructor; [ lia | constructor ] | ].
      split; [ unfold istr_abs; cbn [fold_left]; lia | ].
      split; [ cbn [hd]; lia | intros ->; reflexivity ].
    + rewrite pow10_succ in Hn.
      assert (Hq : 0 <= n / 10 < 10 ^ Z.of_nat f).
      { split; [ apply Z.div_pos; lia | apply Z.div_lt_upper_bound; lia ]. }
      assert (Hq1 : 1 <= n / 10) by (apply Z.div_le_lower_bound; lia).
      assert (Hf0 : (0 < f)%nat).
      { destruct f; [ cbn in Hq; lia | lia ]. }
      destruct (IH _ Hf0 Hq) as (F & V & H0 & _).
      destruct (digits_of_length f _ Hf0 Hq) as (L1 & _).
      pose proof (Z.div_mod n 10 ltac:(lia)) as Hdm.
      pose proof (Z.mod_pos_bound n 10 ltac:(lia)) as Hmb.
      split.
      { apply Forall_app. split; [ exact F | constructor; [ lia | constructor ] ]. }
      split; [ rewrite istr_abs_app, V; lia | ].
      split; [ | lia ].
      destruct (digits_of f (n / 10)) as [ | d ds ] eqn:Ed; [ cbn in L1; lia | ].
      cbn [app hd]. intros Hd. cbn [hd] in H0. specialize (H0 Hd).
      assert (1 <= n / 10) by (apply Z.div_le_lower_bound; lia). lia.
Qed.

Lemma decimal_size_digits (fuel : nat) :
  forall ct n, (0 < fuel)%nat -> 0 <= n < 10 ^ Z.of_nat fuel ->
    decimal_size_loop fuel ct n = Ret (ct + Z.of_nat (length (digits_of fuel n))).
Proof.
  induction fuel as [ | f IH ]; intros ct n Hf Hn.
  - lia.
  - cbn [decimal_size_loop digits_of]. cbv zeta.
    destruct (quot10 n ltac:(lia)) as [-> _].
    destruct (Z.ltb_spec n 10) as [Hs | Hb].
    + rewrite Z.div_small by lia. cbn [Z.gtb Z.compare length]. f_equal.
    + rewrite pow10_succ in Hn.
      assert (Hq : 0 <= n / 10 < 10 ^ Z.of_nat f).
      { split; [ apply Z.div_pos; lia | apply Z.div_lt_upper_bound; lia ]. }
      assert (Hq1 : 1 <= n / 10) by (apply Z.div_le_lower_bound; lia).
      assert (Hf0 : (0 < f)%nat).
      { destruct f; [ cbn in Hq; lia | lia ]. }
      destruct (Z.gtb_spec (n / 10) 0) as [_ | Hbad]; [ | lia ].
      rewrite IH by assumption. rewrite length_app. cbn [length].
      f_equal. lia.
Qed.

Lemma buff_chars_app (buff : Z -> Z) (n1 n2 : nat) :
  forall from,
    buff_chars buff from (n1 + n2)
    = buff_chars buff from n1 ++ buff_chars buff (from + Z.of_nat n1) n2.
Proof.
  induction n1 as [ | k IH ]; intros from.
  - cbn. rewrite Z.add_0_r. reflexivity.
  - cbn [Nat.add buff_chars app]. rewrite IH. f_equal. f_equal. f_equal. lia.
Qed.

Lemma buff_chars_ext (b1 b2 : Z -> Z) (n : nat) :
  forall from, (forall x, from <= x < from + Z.of_nat n -> b1 x = b2 x) ->
    buff_chars b1 from n = buff_chars b2 from n.
Proof.
  induction n as [ | k IH ]; intros from H; [ reflexivity | ].
  cbn [buff_chars]. rewrite (H from) by lia. f_equal. apply IH.
  intros x Hx. apply H. lia.
Qed.

Lemma buff_chars_length (buff : Z -> Z) (n : nat) :
  forall from, length (buff_chars buff from n) = n.
Proof. induction n as [ | k IH ]; intros from; cbn; [ | rewrite IH ]; reflexivity. Qed.

Lemma write_digits_spec (fuel : nat) :
  forall buff s n, (0 < fuel)%nat -> 0 <= n < 10 ^ Z.of_nat fuel ->
    let len := length (digits_of fuel n) in
    exists buff',
      write_digits fuel buff s n = Ret (buff', s - Z.of_nat len) /\
      buff_chars buff' (s - Z.of_nat len) len = digits_of fuel n /\
      (forall x, ~ (s - Z.of_nat len <= x < s) -> buff' x = buff x).
Proof.
  induction fuel as [ | f IH ]; intros buff s n Hf Hn; cbv zeta.
  - lia.
  - cbn [write_digits digits_of]. cbv zeta.
    destruct (quot10 n ltac:(lia)) as [-> ->].
    destruct (Z.ltb_spec n 10) as [Hs | Hb].
    + rewrite Z.div_small, Z.mod_small by lia. cbn [Z.eqb negb length].
      eexists. split; [ reflexivity | ].
      cbn [buff_chars Z.of_nat Pos.of_succ_nat]. rewrite upd_same.
      split; [ reflexivity | ].
      intros x Hx. apply upd_other. lia.
    + rewrite pow10_succ in Hn.
      assert (Hq : 0 <= n / 10 < 10 ^ Z.of_nat f).
      { split; [ apply Z.div_pos; lia | apply Z.div_lt_upper_bound; lia ]. }
      assert (Hq1 : 1 <= n / 10) by (apply Z.div_le_lower_bound; lia).
      assert (Hf0 : (0 < f)%nat).
      { destruct f; [ cbn in Hq; lia | lia ]. }
      destruct (Z.eqb_spec 0 (n / 10)) as [Hbad | _]; [ lia | ]. cbn [negb].
      destruct (IH (upd buff (s - 1) (48 + n mod 10)) (s - 1) (n / 10) Hf0 Hq)
        as (buff' & E & Hc & Hfr).
      rewrite E. rewrite length_app. cbn [length].
      set (k := length (digits_of f (n / 10))) in *.
      exists buff'.
      split; [ f_equal; f_equal; lia | ].
      split.
      * rewrite buff_chars_app.
        replace (s - Z.of_nat (k + 1)) with (s - 1 - Z.of_nat k) by lia.
        rewrite Hc. f_equal. cbn [buff_chars].
        replace (s - 1 - Z.of_nat k + Z.of_nat k) with (s - 1) by lia.
        rewrite Hfr by lia. rewrite upd_same. reflexivity.
      * intros x Hx. rewrite Hfr by lia. apply upd_other. lia.
Qed.
Lemma pow10_fuel (fuel : nat) (n : Z) :
  (9 <= fuel)%nat -> 0 <= n < 2 ^ 28 -> 0 <= n < 10 ^ Z.of_nat fuel.
Proof.
  intros Hf Hn. split; [ lia | ].
  apply Z.lt_le_trans with (10 ^ 9); [ lia | ].
  apply Z.pow_le_mono_r; lia.
Qed.

(** X12. [wikrt_decimal_size] counts decimal digits: for [0 <= n] it
    returns the [d >= 1] with [10^(d-1) <= n < 10^d] (and 1 for a single
    digit, zero included), after [d] turns of its loop. *)
Theorem decimal_size_counts_digits (fuel : nat) (n : Z) :
  (0 < fuel)%nat -> 0 <= n < 10 ^ Z.of_nat fuel ->
  exists d,
    wikrt_decimal_size fuel n = Ret d /\
    1 <= d <= Z.of_nat fuel /\ n < 10 ^ d /\
    (10 <= n -> 10 ^ (d - 1) <= n) /\ (n < 10 -> d = 1).
Proof.
  intros Hf Hn. unfold wikrt_decimal_size.
  rewrite (decimal_size_digits fuel 0 n Hf Hn).
  destruct (digits_of_length fuel n Hf Hn) as (L1 & L2 & L3).
  eexists. split; [ reflexivity | ].
  rewrite Z.add_0_l.
  split; [ lia | ]. split; [ exact L2 | ]. split; [ exact L3 | ].
  intros Hs. destruct fuel as [ | f ]; [ lia | ].
  cbn [digits_of]. destruct (Z.ltb_spec n 10); [ reflexivity | lia ].
Qed.

Lemma decimal_size_counts_digits_witness :
  exists d, wikrt_decimal_size 5 2016 = Ret d /\ 10 ^ (d - 1) <= 2016 < 10 ^ d.
Proof.
  assert (Hf : (0 < 5)%nat) by lia.
  assert (Hn : 0 <= 2016 < 10 ^ Z.of_nat 5) by (cbn; lia).
  destruct (decimal_size_counts_digits 5 2016 Hf Hn) as (d & E & _ & H1 & H2 & _).
  exists d. split; [ exact E | ]. split; [ apply H2; lia | exact H1 ].
Defined.

(** The run of [wikrt_peek_istr] on a small integer. *)
Lemma peek_istr_digits (fuel : nat) (cx : wikrt_cx) (i : Z) (buff : Z -> Z) (buffsz : Z) :
  wikrt_p (cx_val cx) = true -> stack_fst cx = wikrt_i2v i -> smallint_range i ->
  (9 <= fuel)%nat ->
  let out := istr_output i (digits_of fuel (Z.abs i)) in
  let len := Z.of_nat (length out) in
  (buffsz < len -> wikrt_peek_istr fuel cx buff buffsz = Ret (false, buff, len)) /\
  (len <= buffsz ->
     exists buff',
       wikrt_peek_istr fuel cx buff buffsz = Ret (true, buff', len) /\
       buff_chars buff' 0 (length out) = out /\
       (forall x, ~ (0 <= x < len) -> buff' x = buff x)).
Proof.
  intros Hp Hn Hr Hf. cbv zeta. unfold stack_fst in Hn.
  assert (Hi : - 2 ^ 28 <= i < 2 ^ 28) by (range_bounds; lia).
  assert (Ha : 0 <= Z.abs i < 10 ^ Z.of_nat fuel).
  { apply pow10_fuel; [ exact Hf | ].
    clear - Hr. unfold smallint_range, WIKRT_SMALLINT_MIN, WIKRT_SMALLINT_MAX in Hr. lia. }
  assert (Hf0 : (0 < fuel)%nat) by lia.
  unfold wikrt_peek_istr, wikrt_cx_has_integer, wikrt_integer.
  rewrite Hp, Hn, i2v_smallint, v2i_i2v by exact Hi.
  cbn [andb negb]. cbv zeta.
  assert (Eu : (if i >=? 0 then i else - i) = Z.abs i).
  { destruct (Z.geb_spec i 0); lia. }
  rewrite Eu. unfold wikrt_decimal_size.
  rewrite (decimal_size_digits fuel 0 (Z.abs i) Hf0 Ha). cbn [bind]. rewrite Z.add_0_l.
  set (ds := digits_of fuel (Z.abs i)) in *.
  assert (El : Z.of_nat (length (istr_output i ds))
               = (if i >=? 0 then 0 else 1) + Z.of_nat (length ds)).
  { unfold istr_output. rewrite length_app.
    destruct (Z.geb_spec i 0), (Z.ltb_spec i 0); try lia; cbn [length]; lia. }
  rewrite El.
  set (need := (if i >=? 0 then 0 else 1) + Z.of_nat (length ds)) in *.
  split.
  - intros Hsmall. destruct (Z.gtb_spec need buffsz); [ reflexivity | lia ].
  - intros Hbig. destruct (Z.gtb_spec need buffsz); [ lia | ].
    destruct (write_digits_spec fuel buff need (Z.abs i) Hf0 Ha) as (b1 & E & Hc & Hfr).
    fold ds in E, Hc, Hfr. rewrite E. cbn [bind]. cbv beta iota zeta.
    unfold istr_output. subst need.
    destruct (Z.geb_spec i 0) as [Hpos | Hneg].
    + destruct (Z.ltb_spec i 0) as [Hbad | _]; [ lia | ].
      cbn [negb app]. rewrite Z.add_0_l in *.
      replace (Z.of_nat (length ds) - Z.of_nat (length ds)) with 0 in * by lia.
      cbn [Z.eqb negb].
      exists b1. split; [ reflexivity | ]. split; [ exact Hc | ].
      intros x Hx. apply Hfr. lia.
    + destruct (Z.ltb_spec i 0) as [_ | Hbad]; [ | lia ].
      cbn [negb app length].
      replace (1 + Z.of_nat (length ds) - Z.of_nat (length ds)) with 1 in * by lia.
      change (1 - 1) with 0. cbn [Z.eqb negb].
      exists (upd b1 0 45). split; [ reflexivity | ].
      split.
      * cbn [buff_chars]. rewrite upd_same. f_equal.
        etransitivity; [ | exact Hc ].
        apply buff_chars_ext. intros x Hx. apply upd_other. lia.
      * intros x Hx. rewrite upd_other by lia. apply Hfr. lia.
Qed.

Lemma istr_output_canonical (fuel : nat) (i : Z) :
  (0 < fuel)%nat -> 0 <= Z.abs i < 10 ^ Z.of_nat fuel ->
  canonical_istr (istr_output i (digits_of fuel (Z.abs i))) /\
  Forall (fun c => c <> 0) (istr_output i (digits_of fuel (Z.abs i))).
Proof.
  intros Hf Ha.
  destruct (digits_of_spec fuel (Z.abs i) Hf Ha) as (F & V & H0 & HZ).
  destruct (digits_of_length fuel (Z.abs i) Hf Ha) as (L1 & _).
  split.
  - unfold canonical_istr, istr_output.
    destruct (Z.eq_dec i 0) as [-> | Hnz].
    + left. cbn [Z.ltb Z.compare app]. apply HZ. reflexivity.
    + right. destruct (digits_of fuel (Z.abs i)) as [ | d ds ]; [ cbn in L1; lia | ].
      cbn [hd] in H0. inversion F as [ | ? ? Fd Fds ]; subst.
      exists (if i <? 0 then [45] else []), d, ds.
      split; [ destruct (i <? 0); [ right | left ]; reflexivity | ].
      split; [ | split; [ exact Fds | reflexivity ] ].
      assert (d <> 48) by (intros ->; specialize (H0 eq_refl); lia). lia.
  - unfold istr_output. apply Forall_app. split.
    + destruct (i <? 0); constructor; [ lia | constructor ].
    + eapply Forall_impl; [ | exact F ]. cbn. intros c Hc. lia.
Qed.

(** X13. [wikrt_peek_istr] writes the canonical decimal form.  For a
    small integer [i] on top of the stack there are digits [ds], each
    in ['0'..'9'], without a leading zero unless [i = 0], whose value is
    [|i|], such that the text is [ds] preceded by ['-'] exactly when
    [i < 0]: with a buffer of at least that length the call returns [true]
    (its final assertion holds), the text stands at the front of the
    buffer, nothing behind it is written and [*buffsz] is its length; with
    a shorter buffer the call returns [false], writes nothing and reports
    the length it needs. *)
Theorem peek_istr_canonical (fuel : nat) (cx : wikrt_cx) (i : Z)
    (buff : Z -> Z) (buffsz : Z) :
  wikrt_p (cx_val cx) = true -> stack_fst cx = wikrt_i2v i -> smallint_range i ->
  (9 <= fuel)%nat ->
  exists ds,
    ds <> [] /\ Forall (fun c => 48 <= c <= 57) ds /\
    (hd 0 ds = 48 -> i = 0 /\ ds = [48]) /\ istr_abs ds = Z.abs i /\
    canonical_istr (istr_output i ds) /\
    (Z.of_nat (length (istr_output i ds)) <= buffsz ->
       exists buff',
         wikrt_peek_istr fuel cx buff buffsz
           = Ret (true, buff', Z.of_nat (length (istr_output i ds))) /\
         buff_chars buff' 0 (length (istr_output i ds)) = istr_output i ds /\
         (forall x, ~ (0 <= x < Z.of_nat (length (istr_output i ds))) -> buff' x = buff x)) /\
    (buffsz < Z.of_nat (length (istr_output i ds)) ->
       wikrt_peek_istr fuel cx buff buffsz
         = Ret (false, buff, Z.of_nat (length (istr_output i ds)))).
Proof.
  intros Hp Hn Hr Hf.
  assert (Hi : - 2 ^ 28 <= i < 2 ^ 28) by (range_bounds; lia).
  assert (Ha : 0 <= Z.abs i < 10 ^ Z.of_nat fuel).
  { apply pow10_fuel; [ exact Hf | ].
    clear - Hr. unfold smallint_range, WIKRT_SMALLINT_MIN, WIKRT_SMALLINT_MAX in Hr. lia. }
  assert (Hf0 : (0 < fuel)%nat) by lia.
  destruct (peek_istr_digits fuel cx i buff buffsz Hp Hn Hr Hf) as (Hsmall & Hbig).
  destruct (digits_of_spec fuel (Z.abs i) Hf0 Ha) as (F & V & H0 & HZ).
  destruct (digits_of_length fuel (Z.abs i) Hf0 Ha) as (L1 & _).
  destruct (istr_output_canonical fuel i Hf0 Ha) as (Hcan & _).
  exists (digits_of fuel (Z.abs i)).
  split; [ intros E; rewrite E in L1; cbn in L1; lia | ].
  split; [ exact F | ].
  split.
  { intros Hd. specialize (H0 Hd). split; [ lia | apply HZ; exact H0 ]. }
  split; [ exact V | ]. split; [ exact Hcan | ].
  split; [ exact Hbig | exact Hsmall ].
Qed.

Lemma peek_istr_canonical_witness :
  let cx := cx_of [(16, wikrt_i2v (-11)); (20, WIKRT_UNIT)] 17 16 24 1024 in
  (exists ds r,
     istr_abs ds = 11 /\ canonical_istr (istr_output (-11) ds) /\
     wikrt_peek_istr 9 cx (fun _ => 0) 16 = Ret r) /\
  (exists buff',
     wikrt_peek_istr 9 cx (fun _ => 0) 16 = Ret (true, buff', 3) /\
     buff_chars buff' 0 3 = [45; 49; 49]).
Proof.
  cbv zeta. split.
  - assert (R : smallint_range (-11))
      by (unfold smallint_range; vm_compute; split; discriminate).
    assert (F : (9 <= 9)%nat) by lia.
    destruct (peek_istr_canonical 9
                (cx_of [(16, wikrt_i2v (-11)); (20, WIKRT_UNIT)] 17 16 24 1024)
                (-11) (fun _ => 0) 16 eq_refl eq_refl R F)
      as (ds & _ & _ & _ & V & C & Hbig & Hsmall).
    exists ds.
    destruct (Z_le_gt_dec (Z.of_nat (length (istr_output (-11) ds))) 16) as [Hle | Hgt].
    + destruct (Hbig Hle) as (buff' & E & _).
      eexists. split; [ exact V | ]. split; [ exact C | exact E ].
    + eexists. split; [ exact V | ]. split; [ exact C | apply Hsmall; lia ].
  - eexists. split; reflexivity.
Defined.
Lemma digit_char_spec (c : Z) : wikrt_digit_char c = true <-> 48 <= c <= 57.
Proof. unfold wikrt_digit_char. rewrite andb_true_iff, !Z.leb_le. reflexivity. Qed.

Lemma digits_forallb (s : list Z) :
  forallb wikrt_digit_char s = true <-> Forall (fun c => 48 <= c <= 57) s.
Proof.
  rewrite forallb_forall, Forall_forall. split; intros H c Hc.
  - apply digit_char_spec, H, Hc.
  - apply digit_char_spec, H, Hc.
Qed.

(** On text without a NUL the digit loop of [wikrt_valid_istr] runs to
    the end of the input, or stops at the first character that is not a
    digit. *)
Lemma istr_digits_all (s : list Z) :
  forall k, s <> [] -> Forall (fun c => c <> 0) s ->
    istr_digits s k
    = if forallb wikrt_digit_char s then Some (k + Z.of_nat (length s), []) else None.
Proof.
  induction s as [ | c s' IH ]; intros k Hne Hnul; [ congruence | ].
  cbn [istr_digits forallb]. inversion Hnul as [ | ? ? Hc Hs' ]; subst.
  destruct (wikrt_digit_char c); cbn [negb andb]; [ | reflexivity ].
  destruct s' as [ | c' r ].
  - cbn [forallb length]. reflexivity.
  - inversion Hs' as [ | ? ? Hc' Hr ]; subst.
    destruct (Z.eqb_spec 0 c') as [E | _]; [ congruence | ].
    rewrite IH by (try discriminate; exact Hs').
    destruct (forallb wikrt_digit_char (c' :: r)); [ | reflexivity ].
    f_equal. f_equal. cbn [length]. lia.
Qed.

(** X14. [wikrt_valid_istr] accepts exactly the grammar
    [0 | (-)?[1-9][0-9]*]: on a text without a NUL character it answers
    [true] if and only if the whole text has that form (so no empty text,
    no leading zero, no minus zero, no sign alone, nothing but digits),
    and then it reports the whole length. *)
Theorem valid_istr_grammar (s : list Z) :
  Forall (fun c => c <> 0) s ->
  (fst (wikrt_valid_istr s) = true <-> canonical_istr s) /\
  (fst (wikrt_valid_istr s) = true -> snd (wikrt_valid_istr s) = Z.of_nat (length s)).
Proof.
  intros Hnul. unfold wikrt_valid_istr, canonical_istr. cbv zeta.
  assert (Hall : forall d ds, 49 <= d <= 57 -> Forall (fun c => 48 <= c <= 57) ds ->
            forallb wikrt_digit_char (d :: ds) = true).
  { intros d ds Hd Hds. apply digits_forallb. constructor; [ lia | exact Hds ]. }
  destruct s as [ | c s1 ].
  { cbn [fst snd]. split; [ | discriminate ]. split; [ discriminate | ].
    intros [E | (sign & d & ds & _ & _ & _ & E)]; [ discriminate | ].
    destruct sign; discriminate. }
  inversion Hnul as [ | ? ? Hc Hs1 ]; subst.
  destruct (Z.eqb_spec 48 c) as [<- | N48].
  { (* a leading zero: the text must end here *)
    destruct s1 as [ | c' r ]; cbn [fst snd length].
    - split; [ | reflexivity ]. split; [ left; reflexivity | reflexivity ].
    - inversion Hs1 as [ | ? ? Hc' _ ]; subst.
      destruct (Z.eqb_spec 0 c') as [E | _]; [ congruence | ].
      split; [ | discriminate ]. split; [ discriminate | ].
      intros [E | (sign & d & ds & Hsg & Hd & _ & E)]; [ discriminate | ].
      destruct Hsg as [-> | ->]; cbn [app] in E; try discriminate E.
      inversion E; subst. lia. }
  destruct (Z.eqb_spec 45 c) as [<- | N45].
  { (* a sign: a positive number must follow *)
    destruct s1 as [ | c2 r ]; cbn [fst snd].
    - split; [ | discriminate ]. split; [ discriminate | ].
      intros [E | (sign & d & ds & Hsg & Hd & _ & E)]; [ discriminate | ].
      destruct Hsg as [-> | ->]; cbn [app] in E; try discriminate E.
      inversion E; subst. lia.
    - destruct (Z.eqb_spec 48 c2) as [<- | N2]; cbn [fst snd].
      + split; [ | discriminate ]. split; [ discriminate | ].
        intros [E | (sign & d & ds & Hsg & Hd & _ & E)]; [ discriminate | ].
        destruct Hsg as [-> | ->]; cbn [app] in E; inversion E; subst; lia.
      + rewrite istr_digits_all by (try discriminate; exact Hs1).
        destruct (forallb wikrt_digit_char (c2 :: r)) eqn:Hd; cbn [fst snd].
        * apply digits_forallb in Hd. inversion Hd as [ | ? ? Hd2 Hdr ]; subst.
          split; [ | intros _; cbn [length]; lia ].
          split; [ intros _ | reflexivity ].
          right. exists [45], c2, r.
          split; [ right; reflexivity | ]. split; [ lia | ].
          split; [ exact Hdr | reflexivity ].
        * split; [ | discriminate ]. split; [ discriminate | ].
          intros [E | (sign & d & ds & Hsg & Hdd & Hds & E)]; [ discriminate | ].
          destruct Hsg as [-> | ->]; cbn [app] in E; inversion E; subst; [ lia | ].
          rewrite (Hall _ _ Hdd Hds) in Hd. discriminate Hd. }
  (* no sign: the text itself must be a positive number *)
  cbv beta iota.
  destruct (Z.eqb_spec 48 c) as [E48 | _]; [ congruence | ].
  rewrite istr_digits_all by (try discriminate; exact Hnul).
  destruct (forallb wikrt_digit_char (c :: s1)) eqn:Hd; cbn [fst snd].
  - apply digits_forallb in Hd. inversion Hd as [ | ? ? Hd2 Hdr ]; subst.
    split; [ | intros _; cbn [length]; lia ].
    split; [ intros _ | reflexivity ].
    right. exists [], c, s1.
    split; [ left; reflexivity | ]. split; [ lia | ].
    split; [ exact Hdr | reflexivity ].
  - split; [ | discriminate ]. split; [ discriminate | ].
    intros [E | (sign & d & ds & Hsg & Hdd & Hds & E)].
    + inversion E; subst. congruence.
    + destruct Hsg as [-> | ->]; cbn [app] in E; inversion E; subst; [ | congruence ].
      rewrite (Hall _ _ Hdd Hds) in Hd. discriminate Hd.
Qed.

Lemma valid_istr_grammar_witness :
  fst (wikrt_valid_istr [45; 52; 50]) = true /\
  snd (wikrt_valid_istr [45; 52; 50]) = 3 /\
  ~ canonical_istr [45; 48].
Proof.
  assert (N1 : Forall (fun c => c <> 0) [45; 52; 50])
    by (repeat constructor; discriminate).
  assert (N2 : Forall (fun c => c <> 0) [45; 48])
    by (repeat constructor; discriminate).
  destruct (valid_istr_grammar [45; 52; 50] N1) as (A & B).
  destruct (valid_istr_grammar [45; 48] N2) as (C & _).
  split; [ reflexivity | ]. split; [ apply B; reflexivity | ].
  intros H. apply C in H. discriminate H.
Defined.

Lemma valid_istr_facts (s : list Z) :
  Forall (fun c => c <> 0) s -> canonical_istr s ->
  fst (wikrt_valid_istr s) = true /\ snd (wikrt_valid_istr s) = Z.of_nat (length s).
Proof.
  intros Hnul Hcan.
  assert (H : forall s0, Forall (fun c => c <> 0) s0 -> canonical_istr s0 ->
            wikrt_valid_istr s0 = (true, Z.of_nat (length s0))); [ | rewrite (H s Hnul Hcan); split; reflexivity ].
  clear. intros s Hnul Hcan.
  assert (Hall : forall ds, Forall (fun c => 48 <= c <= 57) ds ->
            forallb wikrt_digit_char ds = true).
  { intros ds Hds. apply digits_forallb. exact Hds. }
  unfold wikrt_valid_istr. cbv zeta.
  destruct Hcan as [-> | (sign & d & ds & Hsg & Hd & Hds & ->)]; [ reflexivity | ].
  assert (Hdd : Forall (fun c => 48 <= c <= 57) (d :: ds)) by (constructor; [ lia | exact Hds ]).
  destruct Hsg as [-> | ->]; cbn [app] in *.
  - destruct (Z.eqb_spec 48 d); [ lia | ]. destruct (Z.eqb_spec 45 d); [ lia | ].
    destruct (Z.eqb_spec 48 d); [ lia | ].
    rewrite istr_digits_all by (try discriminate; exact Hnul).
    rewrite (Hall _ Hdd). reflexivity.
  - change (48 =? 45) with false. change (45 =? 45) with true. cbv iota.
    destruct (Z.eqb_spec 48 d); [ lia | ].
    inversion Hnul as [ | ? ? _ Hn' ]; subst.
    rewrite istr_digits_all by (try discriminate; exact Hn').
    rewrite (Hall _ Hdd). cbn [length]. f_equal. lia.
Qed.
Lemma intro_i64_is_i32 (fuel : nat) (cx : wikrt_cx) (n : Z) :
  wikrt_intro_i64 fuel cx n = wikrt_intro_i32 fuel cx n.
Proof. reflexivity. Qed.

(** The stack after a small integer has been pushed into a fresh cell. *)
Lemma pushed_int_facts (cx : wikrt_cx) (n : Z) :
  0 <= cx_alloc cx < 2 ^ 32 -> cx_alloc cx mod 8 = 0 ->
  let cx' := set_val (store (store (set_alloc cx (cx_alloc cx + 8)) (cx_alloc cx)
                                   (wikrt_i2v n))
                            (cx_alloc cx + sizeof_val) (cx_val cx))
                     (wikrt_tag_addr WIKRT_P (cx_alloc cx)) in
  wikrt_p (cx_val cx') = true /\ stack_fst cx' = wikrt_i2v n /\
  stack_tail cx' = cx_val cx /\ cx_ecode cx' = cx_ecode cx /\
  cx_alloc cx' = cx_alloc cx + 8 /\
  (forall p, ~ (cx_alloc cx <= p < cx_alloc cx + 8) -> load cx' p = load cx p).
Proof.
  intros Ha A8. cbv zeta.
  assert (Vn : wikrt_pval (wikrt_tag_addr WIKRT_P (cx_alloc cx)) = cx_alloc cx).
  { apply tag_addr_vaddr; [ unfold WIKRT_P | | ]; lia. }
  assert (Pn : wikrt_p (wikrt_tag_addr WIKRT_P (cx_alloc cx)) = true).
  { unfold wikrt_p. rewrite tag_addr_vtag by (unfold WIKRT_P; lia). reflexivity. }
  unfold stack_fst, stack_tail, load, store.
  cbn [cx_arena cx_val cx_ecode cx_alloc set_val set_arena set_alloc].
  rewrite Vn. upd_simpl.
  do 5 (split; [ first [ exact Pn | reflexivity ] | ]).
  intros p Hp. rewrite !upd_other by (unfold sizeof_val; lia). reflexivity.
Qed.

(** X15. Integers survive the round trip through text.  The text that
    [wikrt_peek_istr] writes for the small integer [i] on top of one
    stack, handed to [wikrt_intro_istr] on any context with a free cell,
    is accepted and pushes [i] there: the new top of the stack is [I(i)]
    over the old register, and no error is raised. *)
Theorem istr_round_trip (fuel fuel2 : nat) (cx cx2 : wikrt_cx) (i : Z)
    (buff : Z -> Z) (buffsz : Z) :
  wikrt_p (cx_val cx) = true -> stack_fst cx = wikrt_i2v i -> smallint_range i ->
  (9 <= fuel)%nat -> 10 <= buffsz ->
  0 <= cx_alloc cx2 -> cx_alloc cx2 mod 8 = 0 ->
  cx_alloc cx2 + 8 <= cx_cap cx2 -> cx_cap cx2 < 2 ^ 32 ->
  exists buff' len cx3,
    wikrt_peek_istr fuel cx buff buffsz = Ret (true, buff', len) /\
    wikrt_intro_istr fuel2 cx2 (buff_chars buff' 0 (Z.to_nat len)) = Ret cx3 /\
    wikrt_p (cx_val cx3) = true /\
    stack_fst cx3 = wikrt_i2v i /\ stack_tail cx3 = cx_val cx2 /\
    cx_ecode cx3 = cx_ecode cx2 /\
    wikrt_peek_i32 cx3 = (true, i) /\ wikrt_peek_i64 cx3 = (true, i).
Proof.
  intros Hp Hn Hr Hf Hbuf Ha0 Ha8 Hcap H32.
  assert (Hi : - 2 ^ 28 <= i < 2 ^ 28) by (range_bounds; lia).
  assert (Ha : 0 <= Z.abs i < 10 ^ Z.of_nat fuel).
  { apply pow10_fuel; [ exact Hf | ].
    clear - Hr. unfold smallint_range, WIKRT_SMALLINT_MIN, WIKRT_SMALLINT_MAX in Hr. lia. }
  assert (Hf0 : (0 < fuel)%nat) by lia.
  destruct (peek_istr_digits fuel cx i buff buffsz Hp Hn Hr Hf) as (_ & Hbig).
  destruct (digits_of_spec fuel (Z.abs i) Hf0 Ha) as (F & V & H0 & HZ).
  destruct (digits_of_length fuel (Z.abs i) Hf0 Ha) as (L1 & L2 & L3).
  destruct (istr_output_canonical fuel i Hf0 Ha) as (Hcan & Hnul).
  set (ds := digits_of fuel (Z.abs i)) in *.
  (* at most nine digits *)
  assert (L9 : (length ds <= 9)%nat).
  { destruct (Z_lt_le_dec (Z.abs i) 10) as [Hs | Hb].
    - subst ds. destruct fuel as [ | f ]; [ lia | ]. cbn [digits_of].
      destruct (Z.ltb_spec (Z.abs i) 10); [ cbn; lia | lia ].
    - specialize (L3 Hb).
      destruct (le_lt_dec (length ds) 9) as [Hok | Hbad]; [ exact Hok | exfalso ].
      assert (10 ^ 9 <= 10 ^ (Z.of_nat (length ds) - 1)) by (apply Z.pow_le_mono_r; lia).
      clear - Hr H L3. unfold smallint_range, WIKRT_SMALLINT_MIN, WIKRT_SMALLINT_MAX in Hr.
      lia. }
  set (out := istr_output i ds) in *.
  assert (Lout : Z.of_nat (length out) <= 10).
  { unfold out, istr_output. rewrite length_app. destruct (i <? 0); cbn [length]; lia. }
  destruct Hbig as (buff' & E & Hc & _); [ lia | ].
  exists buff', (Z.of_nat (length out)).
  rewrite Nat2Z.id, Hc.
  (* the text is accepted *)
  destruct (valid_istr_facts out Hnul Hcan) as (Ev1 & Ev2).
  unfold wikrt_intro_istr.
  destruct (wikrt_valid_istr out) as [ok len]. cbn [fst snd] in Ev1, Ev2. subst ok len.
  cbn [negb]. rewrite Nat2Z.id, firstn_all.
  assert (Esplit : match out with
                   | c :: r => if 45 =? c then (false, r) else (true, out)
                   | [] => (true, out)
                   end = (negb (i <? 0), ds)).
  { unfold out, istr_output. destruct (Z.ltb_spec i 0) as [Hneg | Hpos]; cbn [app negb].
    - reflexivity.
    - destruct ds as [ | d r ] eqn:Ed; [ reflexivity | ].
      inversion F as [ | ? ? Fd _ ]; subst.
      destruct (Z.eqb_spec 45 d); [ lia | reflexivity ]. }
  rewrite Esplit.
  destruct (Z.leb_spec (Z.of_nat (length ds)) 18) as [_ | Hbad]; [ | lia ].
  assert (Eval : (if negb (i <? 0) then istr_abs ds else - istr_abs ds) = i).
  { rewrite V. destruct (Z.ltb_spec i 0); cbn [negb]; lia. }
  rewrite Eval. clear Esplit Eval.
  clearbody out. clearbody ds.
  destruct ds as [ | d r ]; [ cbn in L1; lia | ]. cbv iota.
  rewrite intro_i64_is_i32.
  rewrite (intro_i32_fresh fuel2 cx2 i Hr Ha0 Hcap H32).
  destruct (pushed_int_facts cx2 i ltac:(lia) Ha8) as (Q1 & Q2 & Q3 & Q4 & _).
  eexists. split; [ exact E | ]. split; [ reflexivity | ].
  split; [ exact Q1 | ]. split; [ exact Q2 | ]. split; [ exact Q3 | ].
  split; [ exact Q4 | ].
  unfold wikrt_peek_i32, wikrt_peek_i64, wikrt_cx_has_integer, wikrt_integer.
  unfold stack_fst in Q2. rewrite Q1, Q2, i2v_smallint, v2i_i2v by exact Hi.
  cbn [andb negb]. split; f_equal.
  - apply signed32_small. lia.
  - unfold signed64.
    destruct (Z_lt_le_dec i 0) as [Hneg | Hpos].
    + replace (i mod 2 ^ 64) with (i + 2 ^ 64)
        by (apply Z.mod_unique with (-1); lia).
      destruct (Z.ltb_spec (i + 2 ^ 64) (2 ^ 63)); lia.
    + rewrite Z.mod_small by lia. destruct (Z.ltb_spec i (2 ^ 63)); lia.
Qed.

Lemma istr_round_trip_witness :
  exists buff' len cx3,
    wikrt_peek_istr 9 (cx_of [(16, wikrt_i2v (-11)); (20, WIKRT_UNIT)] 17 16 24 1024)
                    (fun _ => 0) 16 = Ret (true, buff', len) /\
    wikrt_intro_istr 0 cx_123 (buff_chars buff' 0 (Z.to_nat len)) = Ret cx3 /\
    wikrt_peek_i32 cx3 = (true, -11).
Proof.
  assert (R : smallint_range (-11))
    by (unfold smallint_range; vm_compute; split; discriminate).
  assert (F : (9 <= 9)%nat) by lia.
  assert (B : 10 <= 16) by lia.
  assert (H0 : 0 <= cx_alloc cx_123) by (vm_compute; discriminate).
  assert (H1 : cx_alloc cx_123 + 8 <= cx_cap cx_123) by (vm_compute; discriminate).
  destruct (istr_round_trip 9 0
              (cx_of [(16, wikrt_i2v (-11)); (20, WIKRT_UNIT)] 17 16 24 1024)
              cx_123 (-11) (fun _ => 0) 16 eq_refl eq_refl R F B H0 eq_refl H1 eq_refl)
    as (buff' & len & cx3 & E1 & E2 & _ & _ & _ & _ & P & _).
  exists buff', len, cx3. split; [ exact E1 | ]. split; [ exact E2 | exact P ].
Defined.

(** ** Sums *)

(** X16. [wikrt_accel_sum_swap] flips the tag and keeps the payload:
    whatever the layout of the sum on top of the stack (shallow, deep,
    array, binary or text), [inL a] becomes [inR a] and [inR a] becomes
    [inL a], no error is raised, the rest of the stack is unchanged and no
    allocated word outside the value and its stack cell is written. *)
Theorem accel_sum_swap_flips (fuel : nat) (cx : wikrt_cx) (P : Z -> Prop)
    (s : wikrt_sum_tag) (a : aval) :
  sum_cx cx P -> 0 <= cx_val cx < 2 ^ 32 -> cx_alloc cx + 16 <= cx_cap cx ->
  den (cx_arena cx) P (top cx) (AInj s a) -> (7 <= fuel)%nat ->
  exists cx2 P2,
    wikrt_accel_sum_swap fuel cx = Ret cx2 /\
    den (cx_arena cx2) P2 (top cx2) (AInj (flip_tag s) a) /\
    cx_ecode cx2 = WIKRT_OK /\
    stack_tail cx2 = stack_tail cx /\
    (forall x, ~ P x ->
               ~ (wikrt_pval (cx_val cx) <= x < wikrt_pval (cx_val cx) + 8) ->
               x < cx_alloc cx -> load cx2 x = load cx x).
Proof.
  intros H Hv Hroom Hden Hfuel.
  destruct fuel as [ | [ | f ] ]; [ lia | lia | ].
  destruct (unwrap_sum_den f cx P s a H Hv Hroom Hden ltac:(lia))
    as (cx1 & P1 & Eq1 & D1 & S1 & R1 & F1 & F2 & F3 & F4 & F5 & F6).
  destruct (wrap_sum_den (S (S f)) cx1 P1 (flip_tag s) a S1 R1 D1)
    as (cx2 & Eq2 & D2 & V2 & K2 & G2).
  exists cx2, (grown P1 (cx_alloc cx1) 8).
  pose proof H as [Hok Hval H32 Hheap [Htop Htop'] [Hc0 Hc1] Hal Hcap].
  pose proof S1 as [Hok1 Hval1 H321 Hheap1 [Htop1 Htop1'] [Hc01 Hc11] Hal1 Hcap1].
  split.
  { unfold wikrt_accel_sum_swap. rewrite Hval. cbn [negb]. rewrite Eq1. cbn [bind].
    cbv beta iota zeta. unfold wikrt_wrap_sum in Eq2. rewrite Hval1 in Eq2.
    cbn [negb] in Eq2. fold (flip_tag s). exact Eq2. }
  split; [ exact D2 | ]. split; [ exact K2 | ].
  split.
  { unfold stack_tail. rewrite V2.
    rewrite G2; [ exact F1 | exact Htop1' | unfold sizeof_val; lia | unfold sizeof_val; lia ]. }
  intros x X1 X2 X3. rewrite G2; [ apply F2; assumption | | | lia ].
  - intros Px. destruct (F3 x Px) as [Y | [Y | Y]]; [ exact (X1 Y) | exact (X2 Y) | lia ].
  - destruct F4 as [E | E]; [ rewrite E; lia | lia ].
Qed.

Lemma accel_sum_swap_flips_witness :
  exists cx2 P2,
    wikrt_accel_sum_swap 7 cx_text = Ret cx2 /\
    den (cx_arena cx2) P2 (top cx2)
        (AInj WIKRT_INR (APair (AInt (utf8_readcp_unsafe [195; 169])) anil)).
Proof.
  assert (Hv : 0 <= cx_val cx_text < 2 ^ 32) by (cbn; lia).
  assert (Hr : cx_alloc cx_text + 16 <= cx_cap cx_text) by (cbn; lia).
  assert (Hf : (7 <= 7)%nat) by lia.
  destruct (accel_sum_swap_flips 7 cx_text text_words WIKRT_INL _ text_ready
              Hv Hr text_den Hf)
    as (cx2 & P2 & H1 & H2 & _).
  exists cx2, P2. split; assumption.
Defined.
(** [wikrt_peek_type] once the tag of the top word is known. *)
Lemma peek_type_object (cx : wikrt_cx) (lo : Z) :
  wikrt_p (cx_val cx) = true -> cx_ecode cx = WIKRT_OK ->
  wikrt_vtag (top cx) = WIKRT_O ->
  LOBYTE (cx_arena cx (wikrt_pobj (top cx))) = lo ->
  wikrt_peek_type cx =
    if (lo =? WIKRT_OTAG_ARRAY) || (lo =? WIKRT_OTAG_BINARY) || (lo =? WIKRT_OTAG_UTF8)
       || (lo =? WIKRT_OTAG_DEEPSUM) then Ret WIKRT_TYPE_SUM
    else if lo =? WIKRT_OTAG_TRASH then Ret WIKRT_TYPE_TRASH
    else if lo =? WIKRT_OTAG_BLOCK then Ret WIKRT_TYPE_BLOCK
    else if (lo =? WIKRT_OTAG_SEAL_SM) || (lo =? WIKRT_OTAG_SEAL) then Ret WIKRT_TYPE_SEAL
    else if lo =? WIKRT_OTAG_PEND then Ret WIKRT_TYPE_FUTURE
    else Abort.
Proof.
  intros Hp Hok Ht Hlo. unfold wikrt_peek_type, wikrt_has_error.
  rewrite Hp, Hok. cbn [ecode_eqb negb andb]. cbv zeta. fold (top cx). rewrite Ht.
  unfold load. rewrite Hlo. reflexivity.
Qed.

Lemma peek_type_tag (cx : wikrt_cx) (tag : Z) :
  wikrt_p (cx_val cx) = true -> cx_ecode cx = WIKRT_OK ->
  wikrt_vtag (top cx) = tag -> 1 <= tag <= 7 -> tag <> WIKRT_U ->
  wikrt_peek_type cx =
    Ret (if tag =? WIKRT_P then WIKRT_TYPE_PROD
         else if tag =? WIKRT_I then WIKRT_TYPE_INT else WIKRT_TYPE_SUM).
Proof.
  intros Hp Hok Ht Hr Hu. unfold wikrt_peek_type, wikrt_has_error.
  rewrite Hp, Hok. cbn [ecode_eqb negb andb]. cbv zeta. fold (top cx). rewrite Ht.
  unfold WIKRT_U in Hu.
  assert (Hc : tag = 1 \/ tag = 2 \/ tag = 3 \/ tag = 4 \/ tag = 6 \/ tag = 7) by lia.
  destruct Hc as [-> | [-> | [-> | [-> | [-> | ->]]]]]; reflexivity.
Qed.

(** X17. [wikrt_peek_type] reports the type of what the top of the stack
    denotes, whatever its layout: unit, integer, product; [SUM] for every
    layout of a sum (shallow, deep, array, binary, text);
    trash, block, sealed value and future for the objects.  Only an
    operator value on the stack, which has no type, makes it abort.  With
    an error pending, or a register that is not a pair, the answer is
    [UNDEF]. *)
Theorem peek_type_sound (cx : wikrt_cx) (P : Z -> Prop) (a : aval) :
  (wikrt_p (cx_val cx) = true -> cx_ecode cx = WIKRT_OK ->
   den (cx_arena cx) P (top cx) a ->
   wikrt_peek_type cx = match aval_type a with Some ty => Ret ty | None => Abort end) /\
  (wikrt_p (cx_val cx) = false \/ cx_ecode cx <> WIKRT_OK ->
   wikrt_peek_type cx = Ret WIKRT_TYPE_UNDEF).
Proof.
  split.
  - intros Hp Hok Hden.
    remember (top cx) as w eqn:Ew. remember (cx_arena cx) as m eqn:Em.
    destruct Hden as
      [ P | P n Hn | P w a b Ht Hc Ha Hb | P w s a Hl Ha
      | P w ts a Ht Hc Hne Hpa Hh Ha
      | P w elems tl Ht Hc Hh Hne Hl Hb0 Hb1 Hcb He Hn
      | P w bytes tl Ht Hc Hh Hne Hl Hb0 Hb1 Hcb Hby Hn
      | P w bytes cps Ht Hc Hh Hb Hu
      | P w t lo hi Ho Hlo Hhi Hc Hr ]; subst m.
    + unfold wikrt_peek_type, wikrt_has_error. rewrite Hp, Hok.
      cbn [ecode_eqb negb andb]. cbv zeta. fold (top cx). rewrite <- Ew. reflexivity.
    + assert (Hv : wikrt_vtag (top cx) = WIKRT_I).
      { rewrite <- Ew. pose proof (i2v_smallint n) as Hs. unfold wikrt_smallint in Hs.
        apply Z.eqb_eq in Hs. exact Hs. }
      rewrite (peek_type_tag cx WIKRT_I Hp Hok Hv ltac:(unfold WIKRT_I; lia)
                 ltac:(discriminate)).
      reflexivity.
    + assert (Hv : wikrt_vtag (top cx) = WIKRT_P) by (rewrite <- Ew; exact Ht).
      rewrite (peek_type_tag cx WIKRT_P Hp Hok Hv ltac:(unfold WIKRT_P; lia)
                 ltac:(discriminate)).
      reflexivity.
    + rewrite land3_mod in Hl.
      assert (Hv : wikrt_vtag (w + shallow_step s) = 2 \/ wikrt_vtag (w + shallow_step s) = 3
                   \/ wikrt_vtag (w + shallow_step s) = 6 \/ wikrt_vtag (w + shallow_step s) = 7).
      { rewrite vtag_mod. destruct s; cbn [shallow_step]; Z.div_mod_to_equations; lia. }
      rewrite (peek_type_tag cx (wikrt_vtag (w + shallow_step s)) Hp Hok);
        [ | rewrite <- Ew; reflexivity | lia | unfold WIKRT_U; lia ].
      destruct Hv as [-> | [-> | [-> | ->]]]; reflexivity.
    + assert (Es : aval_type (fold_right AInj a ts) = Some WIKRT_TYPE_SUM)
        by (destruct ts; [ congruence | reflexivity ]).
      rewrite Es. rewrite (peek_type_object cx WIKRT_OTAG_DEEPSUM Hp Hok);
        [ reflexivity | rewrite <- Ew; exact Ht | ].
      rewrite <- Ew, Hh. apply deepsum_otag_lobyte.
    + assert (Es : aval_type (alist elems tl) = Some WIKRT_TYPE_SUM)
        by (destruct elems; [ congruence | reflexivity ]).
      rewrite Es. rewrite (peek_type_object cx WIKRT_OTAG_ARRAY Hp Hok);
        [ reflexivity | rewrite <- Ew; exact Ht | rewrite <- Ew; exact Hh ].
    + assert (Es : aval_type (alist (map AInt bytes) tl) = Some WIKRT_TYPE_SUM)
        by (destruct bytes; [ congruence | reflexivity ]).
      rewrite Es. rewrite (peek_type_object cx WIKRT_OTAG_BINARY Hp Hok);
        [ reflexivity | rewrite <- Ew; exact Ht | rewrite <- Ew; exact Hh ].
    + assert (Es : aval_type (alist (map AInt cps) anil) = Some WIKRT_TYPE_SUM)
        by (destruct cps; reflexivity).
      rewrite Es. rewrite (peek_type_object cx WIKRT_OTAG_UTF8 Hp Hok);
        [ reflexivity | rewrite <- Ew; exact Ht | rewrite <- Ew; exact Hh ].
    + destruct t; try discriminate Ho; cbn [rep opaque_tree aval_type] in *.
      * destruct Hr as (Ht & _ & _ & Hh & Hbox & _).
        rewrite (peek_type_object cx (LOBYTE otag) Hp Hok);
          [ | rewrite <- Ew; exact Ht | rewrite <- Ew, Hh; reflexivity ].
        apply andb_prop in Ho. destruct Ho as [Hd Hu].
        destruct (box_otag_cases otag Hbox) as [E | [E | [E | [E | [E | [E | E]]]]]];
          rewrite E in *; try reflexivity; discriminate.
      * destruct Hr as (Ht & _ & _ & _ & Hh & Hl & _).
        rewrite (peek_type_object cx WIKRT_OTAG_SEAL Hp Hok);
          [ reflexivity | rewrite <- Ew; exact Ht | rewrite <- Ew, Hh; exact Hl ].
  - intros [Hp | He]; unfold wikrt_peek_type, wikrt_has_error.
    + rewrite Hp. reflexivity.
    + destruct (cx_ecode cx); try congruence; cbn [ecode_eqb negb]; rewrite andb_false_r;
        reflexivity.
Qed.
Lemma peek_type_sound_witness : wikrt_peek_type cx_text = Ret WIKRT_TYPE_SUM.
Proof.
  exact (proj1 (peek_type_sound cx_text text_words _) eq_refl eq_refl text_den).
Defined.

(** [wikrt_wrap_sum] on any value, with the state the result is in: a
    shallow sum or an extended [DEEPSUM] path allocates nothing, a fresh
    [DEEPSUM] object takes one cell. *)
Lemma wrap_sum_full (fuel : nat) (cx : wikrt_cx) (P : Z -> Prop)
    (s : wikrt_sum_tag) (a : aval) :
  sum_cx cx P ->
  cx_alloc cx + 8 <= cx_cap cx \/ Z.land 3 (top cx) = 1 ->
  den (cx_arena cx) P (top cx) a ->
  exists cx2 P2,
    wikrt_wrap_sum fuel cx s = Ret cx2 /\
    den (cx_arena cx2) P2 (top cx2) (AInj s a) /\
    sum_cx cx2 P2 /\
    cx_val cx2 = cx_val cx /\ cx_cap cx2 = cx_cap cx /\
    cx_alloc cx <= cx_alloc cx2 <= cx_alloc cx + 8 /\
    (forall x, P2 x -> P x \/ cx_alloc cx <= x) /\
    (forall x, ~ P x -> x <> wikrt_pval (cx_val cx) -> x < cx_alloc cx ->
               load cx2 x = load cx x).
Proof.
  intros H Hroom Hden.
  pose proof H as [Hok Hval H32 Hheap [Htop Htop'] [Hc0 Hc1] Hal Hcap].
  assert (Hr : 0 <= top cx < 2 ^ 32) by apply H32.
  unfold wikrt_wrap_sum. rewrite Hval. cbn [negb].
  destruct (Z.eq_dec (Z.land 3 (top cx)) 1) as [E | E].
  - rewrite wrap_shallow by assumption. eexists. exists P. split; [ reflexivity | ].
    assert (Hs32 : 0 <= top cx + shallow_step s < 2 ^ 32).
    { rewrite land3_mod in E. destruct s; cbn [shallow_step]; Z.div_mod_to_equations; lia. }
    unfold top, store, load in *. cbn [cx_arena cx_val cx_ecode cx_alloc cx_cap set_arena].
    split.
    { rewrite upd_same. apply den_shallow; [ exact E | ].
      apply (den_transport _ _ _ _ _ Hden).
      intros x Hx. split; [ exact Hx | ].
      apply upd_other. intros ->. exact (Htop Hx). }
    split.
    { constructor; cbn [cx_arena cx_val cx_ecode cx_alloc cx_cap set_arena];
        try assumption; try (split; assumption).
      apply upd_arena32; assumption. }
    split; [ reflexivity | ]. split; [ reflexivity | ]. split; [ lia | ].
    split; [ intros x Hx; left; exact Hx | ].
    intros x _ Hx _. apply upd_other. exact Hx.
  - destruct Hroom as [Hroom | Hs]; [ | contradiction ].
    destruct (wikrt_deepsum_with_free_space cx (top cx)) eqn:F.
    + destruct (free_space_deepsum cx P _ a Hden F)
        as (ts & a0 & -> & Hne & Ht & Hc & Hh & Ha).
      destruct (wrap_deepsum_extend fuel cx s ts Ht Hh F) as [Eq Hlt].
      rewrite Eq. eexists. exists P. split; [ reflexivity | ].
      pose proof (deepsum_path_nonneg (s :: ts)) as Hp0.
      unfold top, store, load in *. cbn [cx_arena cx_val cx_ecode cx_alloc cx_cap set_arena].
      set (w := cx_arena cx (wikrt_pval (cx_val cx))) in *.
      assert (Hpp : P (wikrt_pobj w)) by (apply Hc; lia).
      assert (Hne' : wikrt_pval (cx_val cx) <> wikrt_pobj w)
        by (intros E'; rewrite E' in Htop; exact (Htop Hpp)).
      split.
      { rewrite upd_other by exact Hne'. fold w.
        apply (den_deepsum _ _ w (s :: ts) a0); try assumption.
        - discriminate.
        - apply upd_same.
        - rewrite upd_other by (unfold sizeof_val; lia).
          apply (den_transport _ _ _ _ _ Ha).
          intros x [Hx Hnx]. split; [ split; [ exact Hx | exact Hnx ] | ].
          apply upd_other. lia. }
      split.
      { constructor; cbn [cx_arena cx_val cx_ecode cx_alloc cx_cap set_arena];
          try assumption; try (split; assumption).
        apply upd_arena32; [ assumption | ].
        unfold deepsum_otag, WIKRT_OTAG_DEEPSUM. lia. }
      split; [ reflexivity | ]. split; [ reflexivity | ]. split; [ lia | ].
      split; [ intros x Hx; left; exact Hx | ].
      intros x Hx _ _. apply upd_other. intros ->. exact (Hx Hpp).
    + unfold wikrt_wrap_sum_p. cbv zeta. fold (top cx). rewrite F.
      replace (1 =? Z.land 3 (top cx)) with false by (symmetry; apply Z.eqb_neq; congruence).
      rewrite wrap_otag_fresh by (assumption || lia).
      eexists. exists (grown P (cx_alloc cx) 8). split; [ reflexivity | ].
      unfold top, store, load in *.
      cbn [cx_arena cx_val cx_ecode cx_alloc cx_cap set_arena set_alloc].
      set (w := cx_arena cx (wikrt_pval (cx_val cx))) in *.
      set (A := cx_alloc cx) in *. set (pv := wikrt_pval (cx_val cx)) in *.
      assert (Ea : wikrt_pobj (wikrt_tag_addr WIKRT_O A) = A)
        by (apply tag_addr_vaddr; unfold WIKRT_O; lia).
      assert (Eo : Z.lor (wrap32 (Z.shiftl (deepsum_step s) 8)) WIKRT_OTAG_DEEPSUM
                   = deepsum_otag [s]).
      { apply deepsum_otag_word.
        - cbn [deepsum_path]. lia.
        - pose proof (deepsum_step_range s). lia. }
      split.
      { rewrite upd_same.
        apply (den_deepsum _ _ _ [s] a); rewrite ?Ea.
        - apply tag_addr_vtag; unfold WIKRT_O; lia.
        - intros x Hx. right. exact Hx.
        - discriminate.
        - cbn [deepsum_path]. pose proof (deepsum_step_range s). lia.
        - rewrite upd_other by lia. rewrite upd_other by (unfold sizeof_val; lia).
          rewrite upd_same. exact Eo.
        - rewrite upd_other by (unfold sizeof_val; lia). rewrite upd_same.
          apply (den_transport _ _ _ _ _ Hden).
          intros x Hx. pose proof (Hheap x Hx) as Hx'.
          split; [ split; [ left; exact Hx | lia ] | ].
          rewrite upd_other by (intros ->; exact (Htop Hx)).
          rewrite upd_other by (unfold sizeof_val; lia).
          apply upd_other. lia. }
      split.
      { constructor; cbn [cx_arena cx_val cx_ecode cx_alloc cx_cap set_arena set_alloc];
          try assumption.
        - apply upd_arena32; [ apply upd_arena32; [ apply upd_arena32 | ] | ];
            try assumption.
          + rewrite Eo. unfold deepsum_otag, WIKRT_OTAG_DEEPSUM. cbn [deepsum_path].
            pose proof (deepsum_step_range s). lia.
          + apply tag_addr_range; [ unfold WIKRT_O; lia | exact Hal | lia ].
        - intros x [Hx | Hx]; [ pose proof (Hheap x Hx); lia | lia ].
        - unfold grown.
          split; intros [Hx | Hx];
            [ exact (Htop Hx) | fold pv in Hx; lia | exact (Htop' Hx)
            | fold pv in Hx; unfold sizeof_val in Hx; lia ].
        - fold pv. lia.
        - Z.div_mod_to_equations. lia.
        - lia. }
      split; [ reflexivity | ]. split; [ reflexivity | ]. split; [ lia | ].
      split; [ intros x [Hx | Hx]; [ left; exact Hx | right; lia ] | ].
      intros x _ Hx Hlt'. rewrite upd_other by exact Hx.
      rewrite upd_other by (unfold sizeof_val; lia). apply upd_other. lia.
Qed.

(** X18. Wrapping then unwrapping is the identity on values: for any
    value on top of the stack, [wikrt_wrap_sum] with tag [s] followed by
    [wikrt_unwrap_sum] reports [s] and leaves a value that denotes the
    original one; no error is raised, the rest of the stack is unchanged
    and no allocated word outside the value and its stack cell is
    written. *)
Theorem wrap_unwrap_round_trip (fuel : nat) (cx : wikrt_cx) (P : Z -> Prop)
    (s : wikrt_sum_tag) (a : aval) :
  sum_cx cx P -> 0 <= cx_val cx < 2 ^ 32 -> cx_alloc cx + 24 <= cx_cap cx ->
  den (cx_arena cx) P (top cx) a -> (7 <= fuel)%nat ->
  exists cx2 cx3 P3,
    wikrt_wrap_sum fuel cx s = Ret cx2 /\
    wikrt_unwrap_sum fuel cx2 None = Ret (cx3, Some s) /\
    den (cx_arena cx3) P3 (top cx3) a /\
    cx_ecode cx3 = WIKRT_OK /\
    stack_tail cx3 = stack_tail cx /\
    (forall x, ~ P x ->
               ~ (wikrt_pval (cx_val cx) <= x < wikrt_pval (cx_val cx) + 8) ->
               x < cx_alloc cx -> load cx3 x = load cx x).
Proof.
  intros H Hv Hroom Hden Hfuel.
  pose proof H as [Hok Hval H32 Hheap [Htop Htop'] [Hc0 Hc1] Hal Hcap].
  destruct (wrap_sum_full fuel cx P s a H ltac:(left; lia) Hden)
    as (cx2 & P2 & Eq2 & D2 & S2 & V2 & C2 & A2 & G2 & F2).
  destruct fuel as [ | [ | f ] ]; [ lia | lia | ].
  destruct (unwrap_sum_den f cx2 P2 s a S2 ltac:(rewrite V2; exact Hv)
              ltac:(rewrite C2; lia) D2 ltac:(lia))
    as (cx3 & P3 & Eq3 & D3 & S3 & R3 & K1 & K2 & K3 & K4 & K5 & K6).
  exists cx2, cx3, P3.
  split; [ exact Eq2 | ].
  split.
  { unfold wikrt_unwrap_sum. rewrite V2, Hval. exact Eq3. }
  split; [ exact D3 | ]. split; [ apply S3 | ].
  rewrite V2 in K1, K2.
  split.
  { unfold stack_tail. rewrite K1. apply F2; [ exact Htop' | | ]; unfold sizeof_val; lia. }
  intros x X1 X2 X3. rewrite K2.
  - apply F2; [ exact X1 | lia | exact X3 ].
  - intros Px. destruct (G2 x Px) as [Y | Y]; [ exact (X1 Y) | lia ].
  - exact X2.
  - lia.
Qed.

Lemma wrap_unwrap_round_trip_witness :
  exists cx2 cx3 P3,
    wikrt_wrap_sum 7 cx_text WIKRT_INR = Ret cx2 /\
    wikrt_unwrap_sum 7 cx2 None = Ret (cx3, Some WIKRT_INR) /\
    den (cx_arena cx3) P3 (top cx3)
        (AInj WIKRT_INL (APair (AInt (utf8_readcp_unsafe [195; 169])) anil)).
Proof.
  assert (Hv : 0 <= cx_val cx_text < 2 ^ 32) by (cbn; lia).
  assert (Hr : cx_alloc cx_text + 24 <= cx_cap cx_text) by (cbn; lia).
  assert (Hf : (7 <= 7)%nat) by lia.
  destruct (wrap_unwrap_round_trip 7 cx_text text_words WIKRT_INR _ text_ready
              Hv Hr text_den Hf)
    as (cx2 & cx3 & P3 & H1 & H2 & H3 & _).
  exists cx2, cx3, P3. repeat split; assumption.
Defined.
(** ** Binaries *)

Lemma firstn_add_skipn {A : Type} (l : list A) :
  forall a b, firstn (a + b) l = firstn a l ++ firstn b (skipn a l).
Proof.
  induction l as [ | x l IH ]; intros a b.
  - rewrite !firstn_nil, skipn_nil, firstn_nil. reflexivity.
  - destruct a as [ | a ]; [ reflexivity | ].
    cbn [Nat.add firstn skipn app]. rewrite IH. reflexivity.
Qed.

Lemma skipn_add_skipn {A : Type} (l : list A) :
  forall a b, skipn b (skipn a l) = skipn (a + b) l.
Proof.
  induction l as [ | x l IH ]; intros a b.
  - rewrite !skipn_nil. reflexivity.
  - destruct a as [ | a ]; [ reflexivity | ].
    cbn [Nat.add skipn]. apply IH.
Qed.

(** X19. Reads of a binary compose.  Two successive [wikrt_read_binary]
    calls of [k1] and [k2] bytes return, one after the other, exactly
    the bytes that one call of [k1 + k2] would: the first
    [min (k1, length)] bytes, then the next [k2] that are left, in order;
    what remains on the stack denotes the rest; a read past the end
    returns what is left and raises no error.  Reading allocates nothing
    and writes only the binary and its stack cell. *)
Theorem read_binary_composes (fuel : nat) (cx : wikrt_cx) (Q : Z -> Prop)
    (bytes : list Z) (k1 k2 : nat) :
  bin (cx_arena cx) Q (top cx) bytes ->
  ~ Q (wikrt_pval (cx_val cx)) -> arena32 (cx_arena cx) ->
  wikrt_p (cx_val cx) = true ->
  (k1 + k2 + 3 <= fuel)%nat ->
  exists cx1 cx2,
    wikrt_read_binary fuel cx (Z.of_nat k1) = Ret (cx1, firstn k1 bytes) /\
    wikrt_read_binary fuel cx1 (Z.of_nat k2) = Ret (cx2, firstn k2 (skipn k1 bytes)) /\
    firstn k1 bytes ++ firstn k2 (skipn k1 bytes) = firstn (k1 + k2) bytes /\
    bin (cx_arena cx2) Q (top cx2) (skipn (k1 + k2) bytes) /\
    ((length bytes <= k1 + k2)%nat -> top cx2 = WIKRT_UNIT_INR) /\
    cx_val cx2 = cx_val cx /\ cx_ecode cx2 = cx_ecode cx /\ cx_alloc cx2 = cx_alloc cx /\
    (forall x, ~ Q x -> x <> wikrt_pval (cx_val cx) -> load cx2 x = load cx x).
Proof.
  intros Hb Hq H32 Hp Hf.
  destruct (read_binary_bin (cx_arena cx) Q (top cx) bytes fuel cx (Z.of_nat k1)
              Hb eq_refl (fun x _ => eq_refl) Hq H32 Hp ltac:(lia) ltac:(lia))
    as (cx1 & E1 & B1 & V1 & K1 & A1 & C1 & T1 & F1).
  rewrite Nat2Z.id in E1, B1.
  destruct (read_binary_bin (cx_arena cx1) Q (top cx1) (skipn k1 bytes) fuel cx1
              (Z.of_nat k2) B1 eq_refl (fun x _ => eq_refl)
              ltac:(rewrite V1; exact Hq) T1 ltac:(rewrite V1; exact Hp)
              ltac:(lia) ltac:(lia))
    as (cx2 & E2 & B2 & V2 & K2 & A2 & C2 & T2 & F2).
  rewrite Nat2Z.id in E2, B2. rewrite skipn_add_skipn in B2.
  exists cx1, cx2.
  split; [ exact E1 | ]. split; [ exact E2 | ].
  split; [ symmetry; apply firstn_add_skipn | ].
  split; [ exact B2 | ].
  split.
  { intros Hl. rewrite skipn_all2 in B2 by exact Hl. apply (bin_nil _ _ _ B2). }
  split; [ rewrite V2; exact V1 | ]. split; [ rewrite K2; exact K1 | ].
  split; [ rewrite A2; exact A1 | ].
  intros x Hx Hn. unfold load. rewrite F2, F1; try assumption; try reflexivity.
  rewrite V1. exact Hn.
Qed.

(** The binary under the [UTF8] wrapper of [cx_text], as a stack of its
    own: [(binary * unit)] at 16, the chunk at 40, its two bytes at 56. *)
Lemma read_binary_composes_witness :
  let cx := cx_of [(16, 40); (20, WIKRT_UNIT);
                   (40, WIKRT_OTAG_BINARY); (44, WIKRT_UNIT_INR); (48, 2); (52, 56);
                   (56, 43459)] 17 16 64 4096 in
  exists cx1 cx2,
    wikrt_read_binary 6 cx 1 = Ret (cx1, [195]) /\
    wikrt_read_binary 6 cx1 2 = Ret (cx2, [169]) /\
    top cx2 = WIKRT_UNIT_INR.
Proof.
  cbv zeta.
  match goal with |- exists _ _, wikrt_read_binary _ ?c _ = _ /\ _ => set (cx := c) end.
  assert (B : bin (cx_arena cx) (fun x => 40 <= x < 60) (top cx) ([195; 169] ++ [])).
  { apply (bin_chunk _ _ 40 [195; 169] []).
    - reflexivity.
    - intros x Hx. cbn in Hx |- *. lia.
    - reflexivity.
    - discriminate.
    - reflexivity.
    - vm_compute. discriminate.
    - vm_compute. reflexivity.
    - unfold without, covers_bytes. intros x Hx. cbn in Hx |- *.
      split; Z.div_mod_to_equations; lia.
    - cbn [bytes_at]. repeat split; reflexivity.
    - constructor. }
  assert (Q0 : ~ (40 <= wikrt_pval (cx_val cx) < 60)) by (vm_compute; intros [H _]; apply H; reflexivity).
  assert (A : arena32 (cx_arena cx)) by (apply arena_of_32; reflexivity).
  assert (F : (1 + 2 + 3 <= 6)%nat) by lia.
  destruct (read_binary_composes 6 cx _ _ 1 2 B Q0 A eq_refl F)
    as (cx1 & cx2 & E1 & E2 & _ & _ & Hend & _).
  exists cx1, cx2. split; [ exact E1 | ]. split; [ exact E2 | ].
  apply Hend. cbn. lia.
Defined.
Lemma write_bytes_word_frame (data : list Z) :
  forall m dst x,
    (x < dst - dst mod 4 \/ dst + Z.of_nat (length data) <= x) ->
    write_bytes m dst data x = m x.
Proof.
  induction data as [ | b r IH ]; intros m dst x Hx; [ reflexivity | ].
  cbn [write_bytes length] in *. rewrite IH.
  - apply store8_word_other. Z.div_mod_to_equations. lia.
  - Z.div_mod_to_equations. lia.
Qed.

Lemma write_bytes_low (data : list Z) :
  forall m dst a, a < dst -> load8 (write_bytes m dst data) a = load8 m a.
Proof.
  induction data as [ | b r IH ]; intros m dst a Ha; [ reflexivity | ].
  cbn [write_bytes]. rewrite IH by lia. apply load8_store8_other. lia.
Qed.

Lemma write_bytes_bytes (data : list Z) :
  forall m dst, Forall (fun b => 0 <= b <= 255) data ->
    bytes_at (write_bytes m dst data) dst data.
Proof.
  induction data as [ | b r IH ]; intros m dst Hd; [ exact I | ].
  inversion Hd as [ | ? ? Hb Hr ]; subst.
  cbn [write_bytes bytes_at]. split; [ | apply IH; exact Hr ].
  rewrite write_bytes_low by lia. rewrite load8_store8_same. apply Z.mod_small. lia.
Qed.

Lemma write_bytes_arena32 (data : list Z) :
  forall m dst, arena32 m -> arena32 (write_bytes m dst data).
Proof.
  induction data as [ | b r IH ]; intros m dst H; [ exact H | ].
  cbn [write_bytes]. apply IH. apply store8_arena32. exact H.
Qed.

(** The context [wikrt_intro_binary] leaves: the buffer at the old
    allocation pointer, the header behind it, the new stack cell last. *)
Lemma intro_binary_spec (fuel : nat) (cx : wikrt_cx) (data : list Z) :
  Forall (fun b => 0 <= b <= 255) data ->
  Z.of_nat (length data) < cx_size cx -> cx_size cx <= 2 ^ 32 - 8 ->
  arena32 (cx_arena cx) -> 0 <= cx_val cx < 2 ^ 32 ->
  0 <= cx_alloc cx -> cx_alloc cx mod 8 = 0 ->
  cx_alloc cx + 24 + wikrt_cellbuff (Z.of_nat (length data)) <= cx_cap cx ->
  cx_cap cx < 2 ^ 32 ->
  exists cx1,
    wikrt_intro_binary fuel cx data = Ret cx1 /\
    bin (cx_arena cx1) (fun x => cx_alloc cx <= x < wikrt_pval (cx_val cx1))
        (top cx1) data /\
    wikrt_p (cx_val cx1) = true /\
    arena32 (cx_arena cx1) /\
    stack_tail cx1 = cx_val cx /\ cx_ecode cx1 = cx_ecode cx /\
    cx_alloc cx <= wikrt_pval (cx_val cx1) /\
    (forall x, x < cx_alloc cx -> load cx1 x = load cx x).
Proof.
  intros Hd Hlen Hsize H32 Hv Ha0 Ha8 Hroom Hcap.
  set (len := Z.of_nat (length data)) in *.
  assert (Hl32 : 0 <= len <= 2 ^ 32 - 8).
  { subst len. lia. }
  pose proof (cellbuff_ge 0 0 len Hl32) as Hsb.
  pose proof (cellbuff_aligned len) as Hsb8.
  set (sb := wikrt_cellbuff len) in *.
  set (A := cx_alloc cx) in *.
  unfold wikrt_intro_binary. fold len. cbv zeta. fold sb.
  destruct (Z.geb_spec len (cx_size cx)) as [Hbad | _]; [ lia | ].
  unfold WIKRT_CELLSIZE.
  rewrite (wrap32_small (3 * 8 + sb)) by lia.
  rewrite (reserve_available fuel cx (3 * 8 + sb)) by (fold A; lia).
  cbn [bind negb].
  assert (Pw : forall n, n mod 8 = 0 -> 0 <= n < 2 ^ 32 ->
             wikrt_pval (wikrt_tag_addr WIKRT_P n) = n /\
             wikrt_p (wikrt_tag_addr WIKRT_P n) = true).
  { intros n Hn8 Hn. split.
    - apply tag_addr_vaddr; [ unfold WIKRT_P; lia | exact Hn8 | exact Hn ].
    - unfold wikrt_p. rewrite tag_addr_vtag by (unfold WIKRT_P; lia). reflexivity. }
  destruct (Z.eqb_spec 0 len) as [Hz | Hnz].
  - (* the empty binary is the empty list *)
    assert (data = []) by (destruct data; [ reflexivity | cbn in Hz; lia ]). subst data.
    destruct (Pw A Ha8 ltac:(lia)) as (Pv & Pp).
    eexists. split; [ reflexivity | ].
    unfold wikrt_intro_r, wikrt_alloc_cellval_r, wikrt_alloc_r, top, stack_tail, load, store.
    cbn [cx_arena cx_val cx_ecode cx_alloc set_val set_arena set_alloc]. fold A.
    rewrite Pv. upd_simpl.
    split; [ constructor | ]. split; [ exact Pp | ].
    split.
    { apply upd_arena32; [ apply upd_arena32; [ exact H32 | vm_compute; split; congruence ]
                         | exact Hv ]. }
    split; [ reflexivity | ]. split; [ reflexivity | ]. split; [ lia | ].
    intros x Hx. rewrite !upd_other by (unfold sizeof_val; lia). reflexivity.
  - (* one chunk *)
    unfold wikrt_alloc_r at 1. cbv beta iota zeta. fold A.
    rewrite (wrap32_small (A + sb)) by lia.
    unfold wikrt_alloc_r at 1. cbv beta iota zeta.
    cbn [cx_alloc cx_arena set_alloc set_arena].
    rewrite (wrap32_small (A + sb + 2 * 8)) by lia.
    rewrite (wrap32_small len) by lia.
    set (hdr := A + sb) in *.
    assert (Hh8 : hdr mod 8 = 0) by (subst hdr; Z.div_mod_to_equations; lia).
    assert (Et : wikrt_pobj (wikrt_tag_addr WIKRT_O hdr) = hdr)
      by (apply tag_addr_vaddr; [ unfold WIKRT_O; lia | exact Hh8 | lia ]).
    assert (Ev : wikrt_vtag (wikrt_tag_addr WIKRT_O hdr) = WIKRT_O)
      by (apply tag_addr_vtag; [ unfold WIKRT_O; lia | exact Hh8 ]).
    destruct (Pw (hdr + 2 * 8)) as (Pv & Pp); [ Z.div_mod_to_equations; lia | lia | ].
    eexists. split; [ reflexivity | ].
    unfold wikrt_intro_r, wikrt_alloc_cellval_r, wikrt_alloc_r, top, stack_tail, load, store.
    cbn [cx_arena cx_val cx_ecode cx_alloc set_val set_arena set_alloc].
    rewrite Pv. unfold sizeof_val.
    change (1 * 4) with 4. change (2 * 4) with 8. change (3 * 4) with 12.
    change (2 * 8) with 16 in *.
    upd_simpl.
    set (m0 := write_bytes (cx_arena cx) A data).
    set (m1 := upd (upd (upd (upd (upd (upd m0 hdr WIKRT_OTAG_BINARY) (hdr + 4)
                 WIKRT_UNIT_INR) (hdr + 8) len) (hdr + 12) A) (hdr + 16)
                 (wikrt_tag_addr WIKRT_O hdr)) (hdr + 16 + 4) (cx_val cx)).
    assert (M0 : m1 hdr = WIKRT_OTAG_BINARY) by (subst m1; upd_simpl; reflexivity).
    assert (M1 : m1 (hdr + 4) = WIKRT_UNIT_INR) by (subst m1; upd_simpl; reflexivity).
    assert (M2 : m1 (hdr + 8) = len) by (subst m1; upd_simpl; reflexivity).
    assert (M3 : m1 (hdr + 12) = A) by (subst m1; upd_simpl; reflexivity).
    assert (Mf : forall x, x < hdr -> m1 x = m0 x).
    { intros x Hx. subst m1. rewrite !upd_other by lia. reflexivity. }
    assert (B0 : bytes_at m1 A data).
    { apply (bytes_at_frame m0 m1 A hdr).
      - intros x Hx. apply Mf. lia.
      - Z.div_mod_to_equations. lia.
      - Z.div_mod_to_equations. lia.
      - lia.
      - fold len. lia.
      - apply write_bytes_bytes. exact Hd. }
    split.
    { rewrite <- (app_nil_r data).
      apply (bin_chunk _ _ (wikrt_tag_addr WIKRT_O hdr) data []); rewrite ?Et.
      - exact Ev.
      - intros x Hx. lia.
      - rewrite M0. reflexivity.
      - intros ->. cbn in len. lia.
      - unfold sizeof_val. change (2 * 4) with 8. exact M2.
      - unfold sizeof_val. change (3 * 4) with 12. rewrite M3. lia.
      - unfold sizeof_val. change (3 * 4) with 12. rewrite M3. fold len. lia.
      - unfold sizeof_val. change (3 * 4) with 12. rewrite M3. fold len.
        unfold covers_bytes, without.
        intros x Hx. split; Z.div_mod_to_equations; lia.
      - unfold sizeof_val. change (3 * 4) with 12. rewrite M3. exact B0.
      - unfold sizeof_val. rewrite M1. constructor. }
    split; [ exact Pp | ].
    split.
    { subst m1.
      apply upd_arena32; [ | exact Hv ].
      apply upd_arena32;
        [ | apply tag_addr_range; [ unfold WIKRT_O; lia | exact Hh8 | clear - Ha0 Hsb Hl32 Hroom Hcap; subst hdr; lia ] ].
      apply upd_arena32; [ | clear - Ha0 Hroom Hcap Hsb Hl32; lia ].
      apply upd_arena32; [ | clear - Hl32; lia ].
      apply upd_arena32; [ | unfold WIKRT_UNIT_INR, WIKRT_UR; lia ].
      apply upd_arena32; [ | unfold WIKRT_OTAG_BINARY; lia ].
      subst m0. apply write_bytes_arena32. exact H32. }
    split; [ reflexivity | ]. split; [ reflexivity | ]. split; [ lia | ].
    intros x Hx. fold m1. rewrite Mf by lia. subst m0.
    apply write_bytes_word_frame. left. clear - Hx Ha8. Z.div_mod_to_equations. lia.
Qed.
(** X20. A binary can be read back.  [wikrt_intro_binary] of [data]
    (bytes, fewer than the context size) with room for the buffer, the
    header and one stack cell pushes a value over the old register that
    [wikrt_read_binary] reads back: a read of [k] bytes returns the first
    [k] bytes of [data], and once all are read the empty list is left.
    No error is raised and no word below the old allocation pointer is
    written. *)
Theorem intro_binary_read_back (fuel fuel2 : nat) (cx : wikrt_cx) (data : list Z)
    (k : nat) :
  Forall (fun b => 0 <= b <= 255) data ->
  Z.of_nat (length data) < cx_size cx -> cx_size cx <= 2 ^ 32 - 8 ->
  arena32 (cx_arena cx) -> 0 <= cx_val cx < 2 ^ 32 ->
  0 <= cx_alloc cx -> cx_alloc cx mod 8 = 0 ->
  cx_alloc cx + 24 + wikrt_cellbuff (Z.of_nat (length data)) <= cx_cap cx ->
  cx_cap cx < 2 ^ 32 ->
  (k + 3 <= fuel2)%nat ->
  exists cx1 cx2,
    wikrt_intro_binary fuel cx data = Ret cx1 /\
    wikrt_p (cx_val cx1) = true /\ stack_tail cx1 = cx_val cx /\
    cx_ecode cx1 = cx_ecode cx /\
    wikrt_read_binary fuel2 cx1 (Z.of_nat k) = Ret (cx2, firstn k data) /\
    ((length data <= k)%nat -> top cx2 = WIKRT_UNIT_INR) /\
    cx_val cx2 = cx_val cx1 /\ stack_tail cx2 = cx_val cx /\
    cx_ecode cx2 = cx_ecode cx /\
    (forall x, x < cx_alloc cx -> load cx2 x = load cx x).
Proof.
  intros Hd Hlen Hsize H32 Hv Ha0 Ha8 Hroom Hcap Hf.
  destruct (intro_binary_spec fuel cx data Hd Hlen Hsize H32 Hv Ha0 Ha8 Hroom Hcap)
    as (cx1 & E1 & B1 & P1 & A1 & T1 & K1 & L1 & F1).
  pose proof (pval_aligned (cx_val cx1)) as Al.
  destruct (read_binary_bin (cx_arena cx1) _ (top cx1) data fuel2 cx1 (Z.of_nat k)
              B1 eq_refl (fun x _ => eq_refl) ltac:(cbv beta; lia) A1 P1 ltac:(lia) ltac:(lia))
    as (cx2 & E2 & B2 & V2 & K2 & _ & _ & _ & F2).
  rewrite Nat2Z.id in E2, B2.
  exists cx1, cx2.
  split; [ exact E1 | ]. split; [ exact P1 | ]. split; [ exact T1 | ].
  split; [ exact K1 | ]. split; [ exact E2 | ].
  split.
  { intros Hl. rewrite skipn_all2 in B2 by exact Hl. apply (bin_nil _ _ _ B2). }
  split; [ exact V2 | ].
  split.
  { unfold stack_tail, load in *. rewrite V2, F2; [ exact T1 | | ]; cbv beta; unfold sizeof_val; lia. }
  split; [ rewrite K2; exact K1 | ].
  intros x Hx. unfold load in *. rewrite F2 by (cbv beta; lia). apply F1. exact Hx.
Qed.

Lemma intro_binary_read_back_witness :
  exists cx1 cx2,
    wikrt_intro_binary 0 cx_123 [104; 105] = Ret cx1 /\
    wikrt_read_binary 5 cx1 2 = Ret (cx2, [104; 105]) /\
    top cx2 = WIKRT_UNIT_INR.
Proof.
  assert (Hd : Forall (fun b => 0 <= b <= 255) [104; 105]) by (repeat constructor; lia).
  assert (H1 : Z.of_nat (length [104; 105]) < cx_size cx_123) by (vm_compute; reflexivity).
  assert (H2 : cx_size cx_123 <= 2 ^ 32 - 8) by (vm_compute; discriminate).
  assert (H3 : arena32 (cx_arena cx_123)) by (apply arena_of_32; reflexivity).
  assert (H4 : 0 <= cx_val cx_123 < 2 ^ 32) by (cbn; lia).
  assert (H5 : 0 <= cx_alloc cx_123) by (vm_compute; discriminate).
  assert (H6 : cx_alloc cx_123 + 24 + wikrt_cellbuff (Z.of_nat (length [104; 105]))
               <= cx_cap cx_123) by (vm_compute; discriminate).
  assert (Hf : (2 + 3 <= 5)%nat) by lia.
  destruct (intro_binary_read_back 0 5 cx_123 [104; 105] 2 Hd H1 H2 H3 H4 H5 eq_refl H6
              eq_refl Hf)
    as (cx1 & cx2 & E1 & _ & _ & _ & E2 & Hend & _).
  exists cx1, cx2. split; [ exact E1 | ]. split; [ exact E2 | ].
  apply Hend. cbn. lia.
Defined.

(** ** Blocks *)

Lemma lobyte_lor_high (h a : Z) : Z.land a 255 = 0 -> LOBYTE (Z.lor h a) = LOBYTE h.
Proof.
  intros Ha. unfold LOBYTE. rewrite Z.land_lor_distr_l, Ha. apply Z.lor_0_r.
Qed.

Lemma land_lor_absorb (h a : Z) : Z.land (Z.lor h a) a = a.
Proof.
  apply Z.bits_inj'. intros n Hn. rewrite Z.land_spec, Z.lor_spec.
  destruct (Z.testbit h n), (Z.testbit a n); reflexivity.
Qed.



(** A safe attribute is or-ed into the header of the block on top of the
    stack, in place: only the header word changes, and the stack still
    holds the same code under the new header. *)
Lemma block_attrib_in_place (fuel : nat) (cx : wikrt_cx) (lo hi clo chi h : Z)
    (code : tree) (attrib : Z) :
  copy_ready cx lo hi (TBox h code) ->
  LOBYTE h = WIKRT_OTAG_BLOCK ->
  Z.land attrib 255 = 0 -> Z.land attrib unsafe_attribs = 0 -> 0 <= attrib < 2 ^ 32 ->
  let b := wikrt_pobj (load cx (wikrt_pval (cx_val cx))) in
  rep (cx_arena cx) clo chi code (load cx (b + sizeof_val)) ->
  lo <= clo -> chi <= hi -> clo mod 4 = 0 -> chi mod 4 = 0 ->
  (b + WIKRT_CELLSIZE <= clo \/ chi <= b) ->
  wikrt_block_attrib fuel cx attrib = Ret (store cx b (Z.lor h attrib)) /\
  copy_ready (store cx b (Z.lor h attrib)) lo hi (TBox (Z.lor h attrib) code).
Proof.
  intros Hready Hblk Ha255 Hsafe Ha32 b Hcode Hclo Hchi Hclo4 Hchi4 Hsep.
  pose proof Hready as
    [[Hlo8 Hlo4] [Hhi Hhi4] Hp [Hc1 Hc2] Hr H32 Hval Hal [Hm0 Hm1] [Hc4 Hc32] Hroom Hssp].
  cbn [rep] in Hr. cbv zeta in Hr. fold b in Hr.
  destruct Hr as (Hvt & Hbl & Hbh & Hmb & Hbox & _).
  set (pv := wikrt_pval (cx_val cx)) in *.
  pose proof (pval_aligned (cx_val cx)) as Apv. fold pv in Apv.
  pose proof (pval_aligned (load cx pv)) as Ab. change (wikrt_pval (load cx pv)) with b in Ab.
  assert (Hne : pv <> b).
  { intros E. unfold load in Hvt. rewrite E, Hmb in Hvt.
    assert (Hl : Z.land (LOBYTE h) 7 = 3) by (rewrite Hblk; reflexivity).
    unfold LOBYTE in Hl. rewrite <- Z.land_assoc in Hl. change (Z.land 255 7) with 7 in Hl.
    unfold wikrt_vtag, WIKRT_O in Hvt. congruence. }
  assert (Hh32 : 0 <= Z.lor h attrib < 2 ^ 32).
  { apply lor_below; [ lia | | exact Ha32 ]. rewrite <- Hmb. apply H32. }
  split.
  - unfold wikrt_block_attrib. rewrite Ha255. cbn [Z.eqb negb].
    unfold wikrt_peek_block. rewrite Hp. fold pv. unfold wikrt_o. rewrite Hvt.
    rewrite Z.eqb_refl. fold b. unfold wikrt_otag_block, load at 1. rewrite Hmb, Hblk.
    rewrite Z.eqb_refl. rewrite Hsafe. cbn [Z.eqb orb].
    unfold load. rewrite Hmb. reflexivity.
  - assert (Hf : forall x, x <> b ->
               cx_arena (store cx b (Z.lor h attrib)) x = cx_arena cx x).
    { intros x Hx. unfold store. cbn [cx_arena set_arena]. apply upd_other. exact Hx. }
    constructor; cbn [store set_arena cx_val cx_alloc cx_mem cx_cap cx_ssp];
      try (split; assumption); try assumption.
    + unfold load. fold pv. rewrite Hf by exact Hne.
      cbn [rep]. cbv zeta. change (cx_arena cx pv) with (load cx pv). fold b.
      split; [ exact Hvt | ]. split; [ exact Hbl | ]. split; [ exact Hbh | ].
      split; [ unfold store; cbn [cx_arena set_arena]; apply upd_same | ].
      split.
      * unfold box_otag. cbv zeta. rewrite (lobyte_lor_high h attrib Ha255), Hblk.
        reflexivity.
      * rewrite Hf by (unfold sizeof_val; lia).
        apply (rep_region_mono _ clo chi lo hi); [ exact Hclo | exact Hchi | ].
        apply (rep_frame (cx_arena cx) _ clo chi); [ | exact Hclo4 | exact Hchi4 | exact Hcode ].
        intros x Hx. apply Hf. unfold WIKRT_CELLSIZE in Hsep. lia.
    + unfold store. cbn [cx_arena set_arena]. apply upd_arena32; assumption.
Qed.

(** X22. Block attributes are enforced from the moment they are set.  For a
    stack [([code] * rest)] whose top is a block, with no error latched:
    [wikrt_block_aff] (resp. [wikrt_block_rel]) or-s the affine (resp.
    relevant) bit into the block's header word in place, changing no other
    word, no register and no error state; and a [wikrt_copy] (resp.
    [wikrt_drop]) that follows returns with [WIKRT_ETYPE] latched. *)
Theorem block_attribs_enforced (bypass : bool) (fuel : nat) (cx : wikrt_cx)
    (lo hi clo chi h : Z) (code : tree) :
  copy_ready cx lo hi (TBox h code) ->
  LOBYTE h = WIKRT_OTAG_BLOCK ->
  cx_ecode cx = WIKRT_OK ->
  (nodes (TBox h code) < fuel)%nat ->
  let b := wikrt_pobj (load cx (wikrt_pval (cx_val cx))) in
  rep (cx_arena cx) clo chi code (load cx (b + sizeof_val)) ->
  lo <= clo -> chi <= hi -> clo mod 4 = 0 -> chi mod 4 = 0 ->
  (b + WIKRT_CELLSIZE <= clo \/ chi <= b) ->
  (exists cx1 cx2,
     wikrt_block_aff fuel cx = Ret cx1 /\
     load cx1 b = Z.lor h WIKRT_BLOCK_AFFINE /\
     (forall x, x <> b -> load cx1 x = load cx x) /\
     cx_val cx1 = cx_val cx /\ cx_alloc cx1 = cx_alloc cx /\ cx_ecode cx1 = WIKRT_OK /\
     wikrt_copy bypass fuel cx1 = Ret cx2 /\ cx_ecode cx2 = WIKRT_ETYPE) /\
  (exists cx1 cx2,
     wikrt_block_rel fuel cx = Ret cx1 /\
     load cx1 b = Z.lor h WIKRT_BLOCK_RELEVANT /\
     (forall x, x <> b -> load cx1 x = load cx x) /\
     cx_val cx1 = cx_val cx /\ cx_alloc cx1 = cx_alloc cx /\ cx_ecode cx1 = WIKRT_OK /\
     wikrt_drop fuel cx1 = Ret cx2 /\ cx_ecode cx2 = WIKRT_ETYPE).
Proof.
  intros Hready Hblk Hok Hfuel b Hcode Hclo Hchi Hclo4 Hchi4 Hsep.
  split.
  - destruct (block_attrib_in_place fuel cx lo hi clo chi h code WIKRT_BLOCK_AFFINE
                Hready Hblk eq_refl eq_refl) as [E R];
      try eassumption; [ vm_compute; split; congruence | ].
    fold b in E, R.
    set (cx1 := store cx b (Z.lor h WIKRT_BLOCK_AFFINE)) in *.
    assert (Hn : (nodes (TBox (Z.lor h WIKRT_BLOCK_AFFINE) code) < fuel)%nat)
      by exact Hfuel.
    destruct (copy_spec bypass cx1 lo hi _ fuel R Hn) as (cx2 & Hdone & Ecopy).
    assert (Hbit : Z.testbit (tflags (TBox (Z.lor h WIKRT_BLOCK_AFFINE) code)) 1 = true).
    { apply exposes_tflags; [ right; reflexivity | ].
      apply ex_here; [ left; rewrite lobyte_lor_high by reflexivity; exact Hblk | ].
      change (2 ^ (8 + 1)) with WIKRT_BLOCK_AFFINE. rewrite land_lor_absorb.
      discriminate. }
    rewrite (affine_not_copyable _ Hbit) in Ecopy.
    destruct Hdone as [_ _ _ _ _ Hd6 _].
    destruct (set_error_etype cx2) as (E1 & _); [ rewrite Hd6; exact Hok | ].
    exists cx1, (wikrt_set_error cx2 WIKRT_ETYPE).
    split; [ exact E | ].
    split; [ unfold cx1, load, store; cbn [cx_arena set_arena]; apply upd_same | ].
    split; [ intros x Hx; unfold cx1, load, store; cbn [cx_arena set_arena];
             apply upd_other; exact Hx | ].
    split; [ reflexivity | ]. split; [ reflexivity | ]. split; [ exact Hok | ].
    split; [ exact Ecopy | exact E1 ].
  - destruct (block_attrib_in_place fuel cx lo hi clo chi h code WIKRT_BLOCK_RELEVANT
                Hready Hblk eq_refl eq_refl) as [E R];
      try eassumption; [ vm_compute; split; congruence | ].
    fold b in E, R.
    set (cx1 := store cx b (Z.lor h WIKRT_BLOCK_RELEVANT)) in *.
    pose proof R as
      [[Hlo8 Hlo4] [Hhi Hhi4] Hp [Hc1 Hc2] Hr H32 Hval Hal [Hm0 Hm1] [Hc4 Hc32] Hroom Hssp].
    pose proof (tsize_nonneg (TBox (Z.lor h WIKRT_BLOCK_RELEVANT) code)) as Hts.
    destruct (drop_spec cx1 lo hi _ fuel Hlo4 Hhi4 Hp Hr) as (m' & Edrop).
    { unfold WIKRT_CELLSIZE, sizeof_val in *. lia. }
    { exact Hfuel. }
    cbv zeta in Edrop.
    assert (Hbit : Z.testbit (tflags (TBox (Z.lor h WIKRT_BLOCK_RELEVANT) code)) 0 = true).
    { apply exposes_tflags; [ left; reflexivity | ].
      apply ex_here; [ left; rewrite lobyte_lor_high by reflexivity; exact Hblk | ].
      change (2 ^ (8 + 0)) with WIKRT_BLOCK_RELEVANT. rewrite land_lor_absorb.
      discriminate. }
    rewrite (relevant_not_droppable _ Hbit) in Edrop.
    match type of Edrop with _ = Ret (wikrt_set_error ?c _) =>
      destruct (set_error_etype c) as (E1 & _); [ exact Hok | ];
      exists cx1, (wikrt_set_error c WIKRT_ETYPE)
    end.
    split; [ exact E | ].
    split; [ unfold cx1, load, store; cbn [cx_arena set_arena]; apply upd_same | ].
    split; [ intros x Hx; unfold cx1, load, store; cbn [cx_arena set_arena];
             apply upd_other; exact Hx | ].
    split; [ reflexivity | ]. split; [ reflexivity | ]. split; [ exact Hok | ].
    split; [ exact Edrop | exact E1 ].
Qed.

Lemma plain_block_ready :
  copy_ready cx_plain_block 16 32 (TBox WIKRT_OTAG_BLOCK (TConst WIKRT_UNIT_INR)).
Proof.
  constructor; try (split; reflexivity); try reflexivity; try (cbn; lia).
  - cbn [rep]. repeat split; try reflexivity; vm_compute; congruence.
  - apply arena_of_32. reflexivity.
Qed.

Lemma block_attribs_enforced_witness :
  (exists cx1 cx2,
     wikrt_block_aff 2 cx_plain_block = Ret cx1 /\
     load cx1 24 = Z.lor WIKRT_OTAG_BLOCK WIKRT_BLOCK_AFFINE /\
     wikrt_copy false 2 cx1 = Ret cx2 /\ cx_ecode cx2 = WIKRT_ETYPE) /\
  (exists cx1 cx2,
     wikrt_block_rel 2 cx_plain_block = Ret cx1 /\
     load cx1 24 = Z.lor WIKRT_OTAG_BLOCK WIKRT_BLOCK_RELEVANT /\
     wikrt_drop 2 cx1 = Ret cx2 /\ cx_ecode cx2 = WIKRT_ETYPE).
Proof.
  assert (Hn : (nodes (TBox WIKRT_OTAG_BLOCK (TConst WIKRT_UNIT_INR)) < 2)%nat)
    by (cbn; lia).
  assert (Hc : rep (cx_arena cx_plain_block) 32 32 (TConst WIKRT_UNIT_INR)
                 (load cx_plain_block
                    (wikrt_pobj (load cx_plain_block (wikrt_pval (cx_val cx_plain_block)))
                     + sizeof_val))).
  { cbn [rep]. split; reflexivity. }
  assert (H1 : 16 <= 32) by lia.
  assert (H2 : 32 <= 32) by lia.
  assert (H3 : wikrt_pobj (load cx_plain_block (wikrt_pval (cx_val cx_plain_block)))
               + WIKRT_CELLSIZE <= 32 \/
               32 <= wikrt_pobj (load cx_plain_block (wikrt_pval (cx_val cx_plain_block))))
    by (left; vm_compute; discriminate).
  destruct (block_attribs_enforced false 2 cx_plain_block 16 32 32 32 WIKRT_OTAG_BLOCK
              (TConst WIKRT_UNIT_INR) plain_block_ready eq_refl eq_refl Hn Hc H1 H2
              eq_refl eq_refl H3) as [Ha Hr].
  split.
  - destruct Ha as (cx1 & cx2 & E1 & E2 & _ & _ & _ & _ & E3 & E4).
    exists cx1, cx2. repeat split; assumption.
  - destruct Hr as (cx1 & cx2 & E1 & E2 & _ & _ & _ & _ & E3 & E4).
    exists cx1, cx2. repeat split; assumption.
Defined.
